(* ===== verification/_CoqProject ===== *)
-Q . S2P
Prelude.v
Bytes.v
Primitives.v
Types.v
Codec.v
RuleSetCodec.v
Serialise.v
Engine.v
EngineSpec.v
EngineSafety.v
EngineMeasure.v
EngineProps.v
EngineExamples.v
EngineLiveness.v
Crypto.v
Shuffle.v
ShuffleProps.v
Deck.v
Conceal.v
Replay.v
ReplayProps.v
Script.v
ScriptSpec.v
ScriptProps.v
Tx.v
TxProps.v
SighashProps.v
SignProps.v
Wire.v
Messages.v
Ordering.v
TxSim.v
Fallback.v
FallbackProps.v
Spending.v
DeckSim.v
Cli.v
TxSimMain.v
Verifier.v
DeckSimMain.v
Recorder.v
RecorderSession.v
AuditTrail.v
RelayClient.v
Store.v
StoreProps.v
Page.v
LoadTest.v
LoadReport.v
