(* ===== verification/Prelude.v ===== *)
(** * Cardtable: a verification library for the TypeScript of the table

    Cardtable is a card game, In-Between, played for stakes on a UTXO chain: players join a
    table, commit to entropy and reveal it, the revealed entropy shuffles a deck that everybody
    can check, cards are revealed against commitments, and a bet settles against the pot.  The
    TypeScript of the repository holds the whole game: data and encodings, the transition
    function, the mental-poker cryptography, locking scripts and transactions, the frames to a
    relay, a browser client and a few tools.  This library models that code, one file per
    component, and proves what it promises.  Every definition is written from the lines the
    manifest names for it and can be evaluated; the witnesses evaluate them.

    ** Reading the code

    A call of the code is a value of [js A]: it returns, it throws an [Error] with its message,
    or it runs out of the fuel the model gives a loop that has no structural bound.  Numbers
    that JavaScript stores in typed arrays or shifts are cut to their width where the code cuts
    them ([u8], [js_or], [js_shl]); sums that can leave the safe integers are rounded as doubles
    are ([js_add], [js_round]).  A [Result] is [Ok] or [Err] inside [js].  A string is the UTF-8
    of a JavaScript string without lone surrogates; [js_units] gives its code units.  A
    promise is modelled by its outcome, except in the client, where the order of events is
    the point and every suspended send or delivery is an event of its own.

    ** The files

    - [Prelude], [Bytes]: outcomes, integers, lists; bytes, hex, strings, text codecs.
    - packages/protocol-types: [Primitives] (primitives.ts, hash.ts), [Types] (cards, players,
      rule sets, actions, round state, settlement), [Codec] (serialisation.ts), [RuleSetCodec]
      (rule-set-codec.ts), [Serialise] (serialise.ts, the state hash).
    - packages/state-engine: [Engine] (pot.ts, penalties.ts, timeout.ts, engine.ts),
      with [EngineSpec] (the declarative transition relation), [EngineSafety] (sessions and
      their invariant), [EngineMeasure] (termination), [EngineProps], [EngineExamples] and
      [EngineLiveness] (which tables can be closed);
      [Replay] (verify.ts, replay.ts) with [ReplayProps]; [Ordering] (ordering.ts); [Fallback]
      (fallback.ts, fallback-build.ts, tx-orchestrator.ts) with [FallbackProps].
    - packages/crypto-cards: [Crypto] (encode.ts, hash.ts, entropy.ts), [Shuffle] (shuffle.ts)
      with [ShuffleProps], [Deck] (deck.ts), [Conceal] (conceal.ts).
    - packages/script-templates: [Script] (opcodes, writer, lock times, the eleven builders)
      with [ScriptSpec] (a script machine and policies) and [ScriptProps].
    - packages/tx-builder: [Tx] (types, codec, ids, signature hashes, signatures) with
      [TxProps], [SighashProps] and [SignProps].
    - [Spending]: script-templates, tx-builder and the fallback branches together, against a
      node that runs the scripts, checks the signatures and looks at the lock times.
    - packages/wire-ts: [Wire] (types.ts, frame.ts); [Messages] (messages.ts and transcript.ts of
      protocol-types, and that their codes are those of the frames).
    - apps/client-web: [RelayClient] (relay-client.ts), [Store] (store.ts) with [StoreProps],
      [Page] (App.tsx: what is shown, and the buttons).
    - tools: [TxSim] and [TxSimMain] (tx-simulator), [DeckSim] and [DeckSimMain]
      (deck-simulator), [Verifier] (transcript-verifier), [Recorder] (transcript-recorder: its
      script, and its outcome for the frames received), [RecorderSession] (the recorder as it
      runs), [AuditTrail] (from a recorded session to its audit), [LoadTest] (load-test: a
      connection and the pool), [LoadReport] (its joins and its report), [Cli] (the argument
      loops).

    How they interact: a client or a replay hands a [SignedAction] to the verifying gate
    ([verifyAndApply]), which checks reveals against the commitments of [Crypto] and [Deck],
    lets [applyAction] make the successor, and on entering S5 shuffles and commits the deck.
    The states of a session are [trace]s of [applyAction] (with the fields the engine does not
    read stamped by its callers), and the theorems of the clients are stated over them.  The
    page gives its commands to the store, the store's actions go to the gate or, through the
    client, to the relay; the recorder's transcript is the verifier's input.  A
    state has fallback branches, each a script of [Script] and a transaction of [Tx].

    ** What is shown

    - The engine: [applyAction_refines] (the handlers are the declarative relation),
      [session_well_formed], [value_conserved], [session_bounded] (play is bounded by the size
      of the table, and only [TableClose] and [Recovery] come after it), [applyAction_throws_iff],
      [computeSettlement_predicts], [recovery_available_and_final], [table_can_close] (from
      which states a table can still be brought to its close, exactly); and what it does not
      do: [later_rounds_stuck].
    - Encodings: [stateHash_binding], [ruleSet_roundtrip] (and that the encoding is sorted),
      [encodeRuleSet_canonical], [decodeRuleSet_total],
      [tx_roundtrip], [decodeBsvTransaction_total], [decode_exact] (frames).
    - Cards: [entropy_reveal_binding], [shuffle_functional],
      [shuffle_returns], [shuffle_unbiased], [deck_opens], [deckCommitment_binding],
      [conceal_roundtrip].
    - The gate and replays: [verifyAndApply_gate], [accepted_reveals_bound], [replay_sound];
      [audit_faithful] and [audit_never_accepts_players] for the transcript verifier;
      [recorder_session_refines] (the running recorder comes to the outcome that [Recorder]
      gives) and [recorded_session_audit] (what it records reads back, replays to a settled
      round, and ends the audit in an exception).
    - The load test: [load_test_pool], [load_test_report], [load_joins].
    - The chain: [templates_enforce] (each script run by the machine of [ScriptSpec] unlocks
      exactly for its policy), [lone_entropy_commit_open], [sighash_scope], [sighash_binding],
      [signature_verifies], [template_spendable] (whoever has the keys and preimages of a
      branch gets a transaction that a node takes), [fallback_graph_complete],
      [fallback_spendable] (every fallback branch of a session can be carried to the chain, and
      from which block on), [orchestrator_bounds], [double_spend_resolved].
    - The client: [table_authority], [offline_play_is_session], [sends_only_actions],
      [lost_relay_blocks_play]; from the buttons, [page_offline].

    Further theorems of the files are not in these lists; [timeout_never_accepted],
    [first_joiner_acts_first], [same_card_twice], [replay_chain_vacuous], [stale_failure_shown]
    and [bad_reply_hangs] record what the code does against its intention.

    ** What is assumed

    SHA-256 is a function to 32 bytes (and a binding theorem says which inputs would collide
    instead of assuming that none do); secp256k1 is a signing and a verifying function that
    agree on the signatures made (in [Spending] it signs with every key of 32 bytes that is
    held, [holds]); HKDF and AES-GCM are an interface with the law that
    decryption inverts encryption; JSON, the validity of a URL, the clock and the browser's
    WebSocket are parameters, the last one restricted by [can_fire].  Where a transcript is
    read back from its file, JSON writes an action as one line between braces and parses it to
    the same action ([json_action]).  The client casts the JSON it receives; only bodies of the
    type it casts to are modelled.  A reading of the clock in [LoadReport] is a finite
    double, a whole number of units of 2^-1074.  Lock times follow the
    rules the comments of tx-orchestrator.ts state: nLockTime, and BIP-68 for sequences.  Every
    theorem with hypotheses has a witness that applies it to concrete inputs.

    ** Fuel

    The loops without a structural bound take fuel.  [drawUniform]'s [for (;;)]: the stream of
    the shuffle throws after 2^32 blocks, so 2^35 + 1 iterations always suffice
    ([stream_words]), and [shuffle_returns] gives the fuel in terms of the acceptable words.
    The counted loops of the two decoders: every turn consumes bytes, so the length of the
    buffer is enough ([decodeRuleSet_total], [decodeBsvTransaction_total]).  The buffer growth
    of [CanonicalWriter] doubles, so the number of bytes wanted is enough for every non-empty
    buffer ([grow_cap_spec]).  The division loop of [encodeScriptNum] runs on 32 bits, so five
    turns are enough ([encodeScriptNum_value]).

    ** Not modelled

    The package indexes (they only re-export, or hold a version string), main.tsx and the markup
    of App.tsx, and the sockets, file access and printing of the tools.  Branded strings and
    numbers of protocol-types have no definition of their own: a value is the string or number
    itself, and the constructors of the brands are functions that check it ([Primitives]).
    The Go relay, indexer and SPV service are
    other programs; the client meets them only as a WebSocket. *)

From Stdlib Require Export ZArith Lia Ascii.
From stdpp Require Export base tactics list strings pretty sorting option.
From stdpp Require Import options.

#[export] Set Default Goal Selector "1".
#[global] Open Scope Z_scope.

(** ** Outcomes of JavaScript code

    A call returns a value, throws an [Error] with a message, or (only where the
    code has a [while] or [for (;;)] loop) uses up the fuel the model gives it.
    The last outcome is not a behaviour of the code: the termination theorems show
    the fuel that rules it out. *)

Inductive js (A : Type) : Type :=
  | Ret (a : A)
  | Throw (msg : string)
  | OutOfFuel.
Arguments Ret {A} a.
Arguments Throw {A} msg.
Arguments OutOfFuel {A}.

#[global] Instance js_eq_dec {A} `{EqDecision A} : EqDecision (js A).
Proof. solve_decision. Defined.

#[global] Instance js_ret : MRet js := @Ret.
#[global] Instance js_bind : MBind js := λ A B f m,
  match m with Ret a => f a | Throw e => Throw e | OutOfFuel => OutOfFuel end.
#[global] Instance js_fmap : FMap js := λ A B f m,
  match m with Ret a => Ret (f a) | Throw e => Throw e | OutOfFuel => OutOfFuel end.

Definition is_ret {A} (m : js A) : bool :=
  match m with Ret _ => true | _ => false end.
Definition is_throw {A} (m : js A) : bool :=
  match m with Throw _ => true | _ => false end.

(** [if (c) throw new Error(msg)] *)
Definition throw_if (c : bool) (msg : string) : js unit :=
  if c then Throw msg else Ret tt.

Lemma js_bind_Ret {A B} (m : js A) (f : A → js B) b :
  m ≫= f = Ret b ↔ ∃ a, m = Ret a ∧ f a = Ret b.
Proof. destruct m; simpl; naive_solver. Qed.

Lemma js_fmap_Ret {A B} (m : js A) (f : A → B) b :
  f <$> m = Ret b ↔ ∃ a, m = Ret a ∧ f a = b.
Proof. destruct m; simpl; naive_solver. Qed.

Lemma js_bind_ext {A B} (m : js A) (f g : A → js B) :
  (∀ a, f a = g a) → m ≫= f = m ≫= g.
Proof. intros H. destruct m; simpl; auto. Qed.

Lemma throw_if_Ret c msg u : throw_if c msg = Ret u ↔ c = false.
Proof. destruct c, u; naive_solver. Qed.

(** ** Numbers

    A JavaScript number that the code treats as an integer is a [Z].  Sums and
    products are rounded the way IEEE 754 double arithmetic rounds integers:
    exact up to [2^53], to the nearest multiple of the unit in the last place
    (ties to even) above. *)

Definition MAX_SAFE_INTEGER : Z := 2 ^ 53 - 1.

(** [Number.isSafeInteger] on an integral value *)
Definition is_safe_integer (z : Z) : bool := Z.abs z <=? MAX_SAFE_INTEGER.

Definition js_round (z : Z) : Z :=
  if Z.abs z <=? 2 ^ 53 then z
  else
    let e := Z.log2 (Z.abs z) - 52 in
    let q := Z.abs z / 2 ^ e in
    let r := Z.abs z mod 2 ^ e in
    let half := 2 ^ (e - 1) in
    let q' := if r <? half then q
              else if half <? r then q + 1
              else if Z.even q then q else q + 1 in
    Z.sgn z * (q' * 2 ^ e).

Definition js_add (a b : Z) : Z := js_round (a + b).
Definition js_sub (a b : Z) : Z := js_round (a - b).
Definition js_mul (a b : Z) : Z := js_round (a * b).

Lemma js_round_exact z : Z.abs z ≤ 2 ^ 53 → js_round z = z.
Proof. intros H. unfold js_round. by rewrite (proj2 (Z.leb_le _ _) H). Qed.

Lemma js_round_large z : 2 ^ 53 < Z.abs z → 2 ^ 53 ≤ Z.abs (js_round z).
Proof.
  intros H. unfold js_round.
  rewrite (proj2 (Z.leb_gt _ _) H). cbv zeta.
  set (e := Z.log2 (Z.abs z) - 52).
  assert (He : 1 ≤ e).
  { subst e. pose proof (Z.log2_le_mono (2 ^ 53) (Z.abs z)) as L.
    rewrite Z.log2_pow2 in L by lia. lia. }
  assert (Hlo : 2 ^ 52 * 2 ^ e ≤ Z.abs z).
  { rewrite <- Z.pow_add_r by lia. subst e.
    replace (52 + (Z.log2 (Z.abs z) - 52)) with (Z.log2 (Z.abs z)) by lia.
    apply Z.log2_spec. lia. }
  assert (Hp : 0 < 2 ^ e) by (apply Z.pow_pos_nonneg; lia).
  assert (Hq : 2 ^ 52 ≤ Z.abs z / 2 ^ e)
    by (apply Z.div_le_lower_bound; [done|lia]).
  assert (Hpe : 2 ≤ 2 ^ e)
    by (rewrite <- (Z.pow_1_r 2) at 1; apply Z.pow_le_mono_r; lia).
  match goal with |- _ ≤ Z.abs (Z.sgn z * (?q * _)) => set (q' := q) end.
  assert (Hq' : 2 ^ 52 ≤ q') by (subst q'; repeat case_match; lia).
  rewrite Z.abs_mul, Z.abs_mul, (Z.abs_eq (2 ^ e)), (Z.abs_eq q') by lia.
  assert (Z.abs (Z.sgn z) = 1) as -> by (destruct z; simpl in *; lia).
  change (2 ^ 53) with (2 ^ 52 * 2). nia.
Qed.

Lemma is_safe_integer_spec z : is_safe_integer z = true ↔ Z.abs z < 2 ^ 53.
Proof. unfold is_safe_integer, MAX_SAFE_INTEGER. rewrite Z.leb_le. lia. Qed.

(** A rounded result passes [Number.isSafeInteger] exactly when the real one does. *)
Lemma is_safe_round z : is_safe_integer (js_round z) = is_safe_integer z.
Proof.
  apply eq_bool_prop_intro. rewrite !Is_true_true, !is_safe_integer_spec.
  destruct (Z.le_gt_cases (Z.abs z) (2 ^ 53)) as [H|H].
  - by rewrite js_round_exact.
  - pose proof (js_round_large z H). lia.
Qed.

Lemma js_round_safe z : is_safe_integer z = true → js_round z = z.
Proof. rewrite is_safe_integer_spec. intros. apply js_round_exact. lia. Qed.

Lemma js_round_of_safe z : is_safe_integer (js_round z) = true → js_round z = z.
Proof. rewrite is_safe_round. apply js_round_safe. Qed.

(** [ToUint32] and [ToInt32], and the bitwise operators on them *)
Definition to_uint32 (z : Z) : Z := z mod 2 ^ 32.
Definition to_int32 (z : Z) : Z :=
  let u := z mod 2 ^ 32 in if u <? 2 ^ 31 then u else u - 2 ^ 32.

Definition js_and (a b : Z) : Z := Z.land (to_int32 a) (to_int32 b).
Definition js_or (a b : Z) : Z := Z.lor (to_int32 a) (to_int32 b).
Definition js_xor (a b : Z) : Z := Z.lxor (to_int32 a) (to_int32 b).
Definition js_shl (a n : Z) : Z := to_int32 (Z.shiftl (to_int32 a) (n mod 32)).
Definition js_shr (a n : Z) : Z := Z.shiftr (to_int32 a) (n mod 32).
Definition js_ushr (a n : Z) : Z := Z.shiftr (to_uint32 a) (n mod 32).

(** ** Bytes *)

Abbreviation bytes := (list Z).

Definition is_byte (b : Z) : Prop := 0 ≤ b < 256.

(** Storing a number into a [Uint8Array] element keeps it modulo 256. *)
Definition u8 (z : Z) : Z := z mod 256.

(** Two given inputs are a collision of a hash function.  Theorems that rest on collision
    resistance name the two inputs, so that each says how a break of it breaks the hash. *)
Definition collides (h : bytes → bytes) (x y : bytes) : Prop := x ≠ y ∧ h x = h y.

Definition blen (b : bytes) : Z := Z.of_nat (length b).

Lemma to_int32_mod z : to_int32 z mod 2 ^ 32 = z mod 2 ^ 32.
Proof.
  unfold to_int32. case_match; [by rewrite Z.mod_mod by lia|].
  replace (z mod 2 ^ 32 - 2 ^ 32) with (z mod 2 ^ 32 + (-1) * 2 ^ 32) by lia.
  by rewrite Z.mod_add, Z.mod_mod by lia.
Qed.

Lemma mod_mod_pow2 z a b : 0 ≤ a ≤ b → (z mod 2 ^ b) mod 2 ^ a = z mod 2 ^ a.
Proof.
  intros H. apply Z.mod_mod_divide. exists (2 ^ (b - a)).
  rewrite <- Z.pow_add_r by lia. f_equal. lia.
Qed.

Lemma js_and_ff z : js_and z 255 = z mod 256.
Proof.
  unfold js_and. change (to_int32 255) with (Z.ones 8).
  rewrite Z.land_ones by lia.
  rewrite <- (mod_mod_pow2 (to_int32 z) 8 32) by lia.
  rewrite to_int32_mod. by apply (mod_mod_pow2 z 8 32).
Qed.

Lemma js_ushr_and z n :
  0 ≤ n → n + 8 ≤ 32 → js_and (js_ushr z n) 255 = (z / 2 ^ n) mod 256.
Proof.
  intros Hn Hn8. rewrite js_and_ff. unfold js_ushr, to_uint32.
  rewrite (Z.mod_small n 32), Z.shiftr_div_pow2 by lia.
  change 256 with (2 ^ 8).
  replace (2 ^ 32) with (2 ^ n * 2 ^ (32 - n))
    by (rewrite <- Z.pow_add_r by lia; f_equal; lia).
  assert (0 < 2 ^ n) by (apply Z.pow_pos_nonneg; lia).
  assert (0 < 2 ^ (32 - n)) by (apply Z.pow_pos_nonneg; lia).
  rewrite Z.rem_mul_r by lia.
  rewrite Z.mul_comm, Z.div_add by lia.
  rewrite (Z.div_small (z mod 2 ^ n)) by (apply Z.mod_pos_bound; lia).
  rewrite Z.add_0_l. apply mod_mod_pow2. lia.
Qed.

Lemma js_shr_and z n :
  0 ≤ z < 2 ^ 31 → 0 ≤ n < 32 → js_and (js_shr z n) 255 = (z / 2 ^ n) mod 256.
Proof.
  intros Hz Hn. rewrite js_and_ff. unfold js_shr, to_int32.
  rewrite (Z.mod_small z), (Z.mod_small n) by lia.
  rewrite (proj2 (Z.ltb_lt z (2 ^ 31))) by lia.
  by rewrite Z.shiftr_div_pow2 by lia.
Qed.

(** Little-endian assembly with shifts is [le_val]. *)
Lemma land_shift a b n :
  0 ≤ n → 0 ≤ a < 2 ^ n → Z.land a (Z.shiftl b n) = 0.
Proof.
  intros Hn Ha. apply Z.bits_inj'. intros i Hi.
  rewrite Z.land_spec, Z.bits_0, Z.shiftl_spec by done.
  destruct (Z.lt_ge_cases i n).
  - rewrite (Z.testbit_neg_r b) by lia. apply andb_false_r.
  - assert (2 ^ n ≤ 2 ^ i) by (apply Z.pow_le_mono_r; lia).
    rewrite Z.testbit_eqb, Z.div_small by lia. done.
Qed.

Lemma lor_shift a b n :
  0 ≤ n → 0 ≤ a < 2 ^ n → 0 ≤ b → Z.lor a (Z.shiftl b n) = a + b * 2 ^ n.
Proof.
  intros Hn Ha Hb. rewrite <- Z.shiftl_mul_pow2 by done.
  rewrite Z.add_nocarry_lxor, Z.lxor_lor; [done| |]; by apply land_shift.
Qed.

Lemma lor_mod_pow2 a b n : 0 ≤ n → Z.lor a b mod 2 ^ n = Z.lor (a mod 2 ^ n) (b mod 2 ^ n).
Proof.
  intros Hn. rewrite <- !Z.land_ones by done. by rewrite <- Z.land_lor_distr_l.
Qed.

Lemma js_or_mod a b : js_or a b mod 2 ^ 32 = Z.lor (a mod 2 ^ 32) (b mod 2 ^ 32).
Proof. unfold js_or. by rewrite lor_mod_pow2, !to_int32_mod by done. Qed.

Lemma js_shl_mod a n : 0 ≤ n < 32 → js_shl a n mod 2 ^ 32 = (a * 2 ^ n) mod 2 ^ 32.
Proof.
  intros Hn. unfold js_shl. rewrite to_int32_mod, (Z.mod_small n), Z.shiftl_mul_pow2 by lia.
  by rewrite <- Z.mul_mod_idemp_l, to_int32_mod, Z.mul_mod_idemp_l by lia.
Qed.

Lemma blen_app a b : blen (a ++ b) = blen a + blen b.
Proof. unfold blen. rewrite length_app. lia. Qed.

Lemma blen_nonneg a : 0 ≤ blen a.
Proof. unfold blen. lia. Qed.

(** Rounding keeps a length non-negative. *)
Lemma js_round_nonneg z : 0 ≤ z → 0 ≤ js_round z.
Proof.
  intros Hz. unfold js_round. destruct (Z.abs z <=? 2 ^ 53); [done|]. cbv zeta.
  apply Z.mul_nonneg_nonneg; [lia|].
  apply Z.mul_nonneg_nonneg; [|apply Z.pow_nonneg; lia].
  assert (0 ≤ Z.abs z / 2 ^ (Z.log2 (Z.abs z) - 52)).
  { destruct (Z.lt_ge_cases (Z.log2 (Z.abs z) - 52) 0).
    - rewrite Z.pow_neg_r, Z.div_0_r by done. done.
    - apply Z.div_pos; [lia|]. apply Z.pow_pos_nonneg; lia. }
  repeat case_match; lia.
Qed.
(** ** Rounding keeps the order *)

(** A positive number above [2^53] lies between the [2^52]-th and the [2^53]-th multiple of the
    unit it is rounded to. *)
Lemma js_round_pos z :
  2 ^ 53 < z →
  let e := Z.log2 z - 52 in
  0 < e ∧ 2 ^ 52 ≤ z / 2 ^ e < 2 ^ 53
  ∧ js_round z = (if z mod 2 ^ e <? 2 ^ (e - 1) then z / 2 ^ e
                  else if 2 ^ (e - 1) <? z mod 2 ^ e then z / 2 ^ e + 1
                  else if Z.even (z / 2 ^ e) then z / 2 ^ e else z / 2 ^ e + 1) * 2 ^ e.
Proof.
  intros Hz e. assert (Hl : 53 ≤ Z.log2 z) by (apply Z.log2_le_pow2; lia).
  pose proof (Z.log2_spec z ltac:(lia)) as [Hlo Hhi].
  assert (Hp : 0 < 2 ^ e) by (apply Z.pow_pos_nonneg; lia).
  split; [lia|]. split.
  - split; [apply Z.div_le_lower_bound|apply Z.div_lt_upper_bound]; try done.
    + rewrite <- Z.pow_add_r by lia. by replace (e + 52) with (Z.log2 z) by lia.
    + rewrite <- Z.pow_add_r by lia. by replace (e + 53) with (Z.succ (Z.log2 z)) by lia.
  - unfold js_round. rewrite Z.abs_eq by lia. rewrite (proj2 (Z.leb_gt _ _) Hz). cbv zeta. fold e.
    by rewrite Z.sgn_pos, Z.mul_1_l by lia.
Qed.

(** Numbers with 53 significant bits are exact. *)
Lemma js_round_scaled a k : 0 ≤ a < 2 ^ 53 → 0 ≤ k → js_round (a * 2 ^ k) = a * 2 ^ k.
Proof.
  intros Ha Hk. destruct (Z.le_gt_cases (a * 2 ^ k) (2 ^ 53)) as [H|H].
  { apply js_round_exact. rewrite Z.abs_eq; [done|]. pose proof (Z.pow_nonneg 2 k). nia. }
  destruct (js_round_pos _ H) as (He & _ & ->). set (e := Z.log2 (a * 2 ^ k) - 52) in *.
  assert (a ≠ 0) by (intros ->; lia).
  assert (Hek : e ≤ k).
  { subst e. rewrite Z.log2_mul_pow2 by lia. pose proof (Z.log2_lt_pow2 a 53). lia. }
  assert (E : a * 2 ^ k = a * 2 ^ (k - e) * 2 ^ e).
  { rewrite <- Z.mul_assoc, <- Z.pow_add_r by lia. by replace (k - e + e) with k by lia. }
  rewrite E, Z.mod_mul, Z.div_mul by (apply Z.pow_nonzero; lia).
  assert (0 < 2 ^ (e - 1)) as Hp by (apply Z.pow_pos_nonneg; lia).
  by rewrite (proj2 (Z.ltb_lt _ _) Hp).
Qed.

Lemma js_round_mono a b : 0 ≤ a ≤ b → js_round a ≤ js_round b.
Proof.
  intros [H0 Hab]. destruct (Z.le_gt_cases b (2 ^ 53)) as [Hb|Hb].
  { by rewrite !js_round_exact by lia. }
  destruct (js_round_pos b Hb) as (He & Hq & Eb).
  assert (Hpb : 0 < 2 ^ (Z.log2 b - 52)) by (apply Z.pow_pos_nonneg; lia).
  assert (Hlow : 2 ^ 52 * 2 ^ (Z.log2 b - 52) ≤ js_round b).
  { rewrite Eb. apply Z.mul_le_mono_nonneg_r; [lia|]. repeat case_match; lia. }
  destruct (Z.le_gt_cases a (2 ^ 53)) as [Ha|Ha].
  { rewrite js_round_exact by lia. etransitivity; [exact Ha|]. etransitivity; [|exact Hlow].
    assert (2 ^ 1 ≤ 2 ^ (Z.log2 b - 52)) by (apply Z.pow_le_mono_r; lia). lia. }
  destruct (js_round_pos a Ha) as (He' & Hq' & Ea).
  assert (Hpa : 0 < 2 ^ (Z.log2 a - 52)) by (apply Z.pow_pos_nonneg; lia).
  pose proof (Z.log2_le_mono a b Hab) as Hl.
  destruct (Z.eq_dec (Z.log2 a) (Z.log2 b)) as [El|Hne].
  - rewrite Ea, Eb, El. apply Z.mul_le_mono_nonneg_r; [lia|].
    set (e := Z.log2 b - 52) in *. pose proof (Z.div_le_mono a b (2 ^ e) Hpb Hab) as Hd.
    destruct (Z.eq_dec (a / 2 ^ e) (b / 2 ^ e)) as [Ed|Hd']; [|repeat case_match; lia].
    assert (a mod 2 ^ e ≤ b mod 2 ^ e).
    { rewrite !Z.mod_eq by lia. rewrite Ed. lia. }
    rewrite Ed. destruct (Z.ltb_spec (b mod 2 ^ e) (2 ^ (e - 1))) as [H1|H1].
    { rewrite (proj2 (Z.ltb_lt _ _)); lia. }
    destruct (Z.ltb_spec (2 ^ (e - 1)) (b mod 2 ^ e)) as [H2|H2]; [repeat case_match; lia|].
    destruct (Z.ltb_spec (a mod 2 ^ e) (2 ^ (e - 1))); [destruct (Z.even _); lia|].
    rewrite (proj2 (Z.ltb_ge (2 ^ (e - 1)) (a mod 2 ^ e))) by lia. done.
  - etransitivity; [|exact Hlow]. rewrite Ea.
    etransitivity; [apply Z.mul_le_mono_nonneg_r with (m := 2 ^ 53); [lia|repeat case_match; lia]|].
    change (2 ^ 53) with (2 ^ 52 * 2 ^ 1). rewrite <- Z.mul_assoc, <- Z.pow_add_r by lia.
    apply Z.mul_le_mono_nonneg_l; [lia|]. apply Z.pow_le_mono_r; lia.
Qed.
