(* ===== verification/Bytes.v ===== *)
(** * Bytes and strings

    Little-endian byte lists, the JavaScript string operations the sources use
    (UTF-16 code units, [parseInt(s, 16)], [toString(16).padStart(2, '0')], the
    default sort order) and the Web text codecs.  A JavaScript string without lone
    surrogates is a [string] holding its UTF-8 bytes; [js_units] recovers its
    UTF-16 code units. *)

From S2P Require Import Prelude.

(** ** Little-endian integers *)

Fixpoint le_bytes (n : nat) (z : Z) : bytes :=
  match n with
  | O => []
  | S n => z mod 256 :: le_bytes n (z / 256)
  end.

Fixpoint le_val (bs : bytes) : Z :=
  match bs with
  | [] => 0
  | b :: r => b + 256 * le_val r
  end.

Lemma length_le_bytes n z : length (le_bytes n z) = n.
Proof. revert z. induction n; intros; simpl; auto. Qed.

Lemma le_bytes_byte n z : Forall is_byte (le_bytes n z).
Proof.
  revert z. induction n; intros z; simpl; constructor; auto.
  apply Z.mod_pos_bound. lia.
Qed.

Lemma le_val_le_bytes n z : le_val (le_bytes n z) = z mod 256 ^ Z.of_nat n.
Proof.
  revert z. induction n as [|n IH]; intros z; cbn [le_bytes le_val].
  { by rewrite Z.mod_1_r. }
  rewrite IH, Nat2Z.inj_succ, Z.pow_succ_r by lia.
  rewrite Z.rem_mul_r; [lia|lia|]. apply Z.pow_pos_nonneg; lia.
Qed.

Lemma le_val_le_bytes_small n z :
  0 ≤ z < 256 ^ Z.of_nat n → le_val (le_bytes n z) = z.
Proof. intros. rewrite le_val_le_bytes. by apply Z.mod_small. Qed.

Lemma le_val_bound bs :
  Forall is_byte bs → 0 ≤ le_val bs < 256 ^ Z.of_nat (length bs).
Proof.
  induction 1 as [|b bs Hb _ IH]; cbn [le_val length]; [done|].
  rewrite Nat2Z.inj_succ, Z.pow_succ_r by lia. unfold is_byte in *. lia.
Qed.

Lemma le_bytes_le_val bs :
  Forall is_byte bs → le_bytes (length bs) (le_val bs) = bs.
Proof.
  induction 1 as [|b bs Hb _ IH]; cbn [le_val le_bytes length]; [done|].
  unfold is_byte in *.
  rewrite (Z.mul_comm 256), Z.mod_add, Z.div_add by lia.
  rewrite (Z.mod_small b), (Z.div_small b), Z.add_0_l, IH by lia. done.
Qed.

Lemma le_bytes_app n m z :
  le_bytes (n + m) z = le_bytes n z ++ le_bytes m (z / 256 ^ Z.of_nat n).
Proof.
  revert z. induction n as [|n IH]; intros z; cbn [le_bytes Nat.add app].
  { by rewrite Z.div_1_r. }
  by rewrite IH, Z.div_div, Nat2Z.inj_succ, Z.pow_succ_r by lia.
Qed.

Lemma le_bytes_inj n x y :
  0 ≤ x < 256 ^ Z.of_nat n → 0 ≤ y < 256 ^ Z.of_nat n →
  le_bytes n x = le_bytes n y → x = y.
Proof.
  intros Hx Hy E%(f_equal le_val).
  by rewrite !le_val_le_bytes_small in E.
Qed.

(** ** Characters and code units *)

Definition char_code (c : ascii) : Z := Z.of_N (N_of_ascii c).
Definition char_of (z : Z) : ascii := ascii_of_N (Z.to_N z).

Fixpoint string_bytes (s : string) : bytes :=
  match s with
  | EmptyString => []
  | String c s => char_code c :: string_bytes s
  end.

Fixpoint bytes_string (bs : bytes) : string :=
  match bs with
  | [] => EmptyString
  | b :: r => String (char_of b) (bytes_string r)
  end.

Lemma char_code_byte c : is_byte (char_code c).
Proof.
  unfold char_code, is_byte. pose proof (N_ascii_bounded c). lia.
Qed.

Lemma char_of_code c : char_of (char_code c) = c.
Proof. unfold char_of, char_code. by rewrite N2Z.id, ascii_N_embedding. Qed.

Lemma char_code_of b : is_byte b → char_code (char_of b) = b.
Proof.
  unfold is_byte, char_code, char_of. intros.
  rewrite N_ascii_embedding by lia. lia.
Qed.

Lemma char_code_inj c d : char_code c = char_code d → c = d.
Proof. intros E. by rewrite <- (char_of_code c), E, char_of_code. Qed.

Lemma string_bytes_byte s : Forall is_byte (string_bytes s).
Proof. induction s; simpl; constructor; auto using char_code_byte. Qed.

Lemma bytes_string_bytes s : bytes_string (string_bytes s) = s.
Proof. induction s as [|c s IH]; simpl; [done|]. by rewrite char_of_code, IH. Qed.

Lemma string_bytes_string bs : Forall is_byte bs → string_bytes (bytes_string bs) = bs.
Proof. induction 1; simpl; [done|]. by rewrite char_code_of, IHForall. Qed.

Lemma string_bytes_inj s t : string_bytes s = string_bytes t → s = t.
Proof. intros E. by rewrite <- (bytes_string_bytes s), E, bytes_string_bytes. Qed.

Lemma length_string_bytes s : length (string_bytes s) = String.length s.
Proof. induction s; simpl; auto. Qed.

(** The UTF-16 code units of the string whose UTF-8 bytes are [bs]. *)
Fixpoint utf16_units (bs : bytes) : list Z :=
  match bs with
  | [] => []
  | b0 :: r0 =>
    if b0 <? 0x80 then b0 :: utf16_units r0
    else match r0 with
    | [] => [0xFFFD]
    | b1 :: r1 =>
      if b0 <? 0xE0 then
        (b0 - 0xC0) * 64 + (b1 - 0x80) :: utf16_units r1
      else match r1 with
      | [] => [0xFFFD]
      | b2 :: r2 =>
        if b0 <? 0xF0 then
          (b0 - 0xE0) * 4096 + (b1 - 0x80) * 64 + (b2 - 0x80) :: utf16_units r2
        else match r2 with
        | [] => [0xFFFD]
        | b3 :: r3 =>
          let c := (b0 - 0xF0) * 262144 + (b1 - 0x80) * 4096
                   + (b2 - 0x80) * 64 + (b3 - 0x80) - 0x10000 in
          0xD800 + c / 1024 :: 0xDC00 + c mod 1024 :: utf16_units r3
        end
      end
    end
  end.

Definition js_units (s : string) : list Z := utf16_units (string_bytes s).

(** [s.length] *)
Definition js_length (s : string) : Z := Z.of_nat (length (js_units s)).

Definition between (lo hi b : Z) : bool := (lo <=? b) && (b <=? hi).
Definition cont (b : Z) : bool := between 0x80 0xBF b.

(** Well-formed UTF-8 (Unicode 15, table 3-7), the acceptance test of a fatal
    [TextDecoder('utf-8')]. *)
Fixpoint utf8_valid (bs : bytes) : bool :=
  match bs with
  | [] => true
  | b0 :: r0 =>
    if between 0 0x7F b0 then utf8_valid r0
    else match r0 with
    | [] => false
    | b1 :: r1 =>
      if between 0xC2 0xDF b0 then cont b1 && utf8_valid r1
      else match r1 with
      | [] => false
      | b2 :: r2 =>
        if between 0xE0 0xEF b0 then
          (if b0 =? 0xE0 then between 0xA0 0xBF b1
           else if b0 =? 0xED then between 0x80 0x9F b1 else cont b1)
          && cont b2 && utf8_valid r2
        else match r2 with
        | [] => false
        | b3 :: r3 =>
          between 0xF0 0xF4 b0 &&
          (if b0 =? 0xF0 then between 0x90 0xBF b1
           else if b0 =? 0xF4 then between 0x80 0x8F b1 else cont b1)
          && cont b2 && cont b3 && utf8_valid r3
        end
      end
    end
  end.

(** [new TextEncoder().encode(s)] *)
Definition text_encode (s : string) : bytes := string_bytes s.

(** [new TextDecoder('utf-8', { fatal: true }).decode(bs)]: one leading byte order
    mark is dropped, ill-formed input throws. *)
Definition strip_bom (bs : bytes) : bytes :=
  match bs with
  | 0xEF :: 0xBB :: 0xBF :: r => r
  | _ => bs
  end.

Definition text_decode_fatal (bs : bytes) : js string :=
  let bs := strip_bom bs in
  if utf8_valid bs then Ret (bytes_string bs)
  else Throw "The encoded data was not valid for encoding utf-8".

(** Strings the model ranges over: well-formed, and not starting with U+FEFF. *)
Definition js_string_ok (s : string) : bool := utf8_valid (string_bytes s).
Definition no_bom (s : string) : bool :=
  bool_decide (strip_bom (string_bytes s) = string_bytes s).

Lemma text_decode_encode s :
  js_string_ok s = true → no_bom s = true →
  text_decode_fatal (text_encode s) = Ret s.
Proof.
  unfold js_string_ok, no_bom, text_decode_fatal, text_encode.
  intros Hok Hbom%bool_decide_eq_true. rewrite Hbom, Hok.
  by rewrite bytes_string_bytes.
Qed.

(** ** Hexadecimal *)

Definition hex_digit_char (d : Z) : ascii :=
  if d <? 10 then char_of (48 + d) else char_of (87 + d).

(** [b.toString(16).padStart(2, '0')] for a byte [b] *)
Definition hex_byte (b : Z) : string :=
  String (hex_digit_char (b / 16)) (String (hex_digit_char (b mod 16)) EmptyString).

Definition hex_val (u : Z) : option Z :=
  if between 48 57 u then Some (u - 48)
  else if between 65 70 u then Some (u - 55)
  else if between 97 102 u then Some (u - 87)
  else None.

Definition is_white (u : Z) : bool :=
  between 9 13 u || between 0x2000 0x200A u ||
  bool_decide (u ∈ [32; 0xA0; 0x1680; 0x2028; 0x2029; 0x202F; 0x205F; 0x3000; 0xFEFF]).

Fixpoint skip_white (us : list Z) : list Z :=
  match us with
  | u :: r => if is_white u then skip_white r else us
  | [] => []
  end.

Fixpoint hex_prefix (acc : Z) (us : list Z) : Z :=
  match us with
  | u :: r => match hex_val u with Some d => hex_prefix (16 * acc + d) r | None => acc end
  | [] => acc
  end.

(** [parseInt(s, 16)] on the code units of [s]; [None] is [NaN]. *)
Definition parse_int16 (us : list Z) : option Z :=
  let us := skip_white us in
  let '(sign, us) :=
    match us with
    | 45 :: r => (-1, r)
    | 43 :: r => (1, r)
    | _ => (1, us)
    end in
  let us :=
    match us with
    | 48 :: 120 :: r => r
    | 48 :: 88 :: r => r
    | _ => us
    end in
  match us with
  | u :: _ => match hex_val u with
              | Some _ => Some (sign * hex_prefix 0 us)
              | None => None
              end
  | [] => None
  end.

(** The loop [out[i] = parseInt(hex.substring(2i, 2i+2), 16)] shared by the hex
    decoders; [nan off] is what the code does when the parse at offset [off] is
    [NaN]: throw, or store it (which stores 0). *)
Fixpoint hex_pairs (nan : Z → js Z) (off : Z) (us : list Z) : js bytes :=
  match us with
  | a :: b :: r =>
    v ← match parse_int16 [a; b] with Some v => Ret v | None => nan off end;
    rest ← hex_pairs nan (off + 2) r;
    Ret (u8 v :: rest)
  | _ => Ret []
  end.

(** The character classes of the regular expressions [/^[0-9a-f]{n}$/] and
    [/^0[23][0-9a-f]{64}$/]. *)
Definition is_lower_hex (c : ascii) : bool :=
  between 48 57 (char_code c) || between 97 102 (char_code c).

Fixpoint all_lower_hex (s : string) : bool :=
  match s with
  | EmptyString => true
  | String c s => is_lower_hex c && all_lower_hex s
  end.

Definition is_hex_n (n : nat) (s : string) : bool :=
  (String.length s =? n)%nat && all_lower_hex s.

Definition is_pubkey33 (s : string) : bool :=
  match s with
  | String c0 (String c1 r) =>
      (char_code c0 =? 48) && ((char_code c1 =? 50) || (char_code c1 =? 51))
      && is_hex_n 64 r
  | _ => false
  end.

Fixpoint to_hex (bs : bytes) : string :=
  match bs with
  | [] => EmptyString
  | b :: r => hex_byte b +:+ to_hex r
  end.

(** ** The default sort order: lexicographic on UTF-16 code units *)

Fixpoint units_leb (a b : list Z) : bool :=
  match a, b with
  | [], _ => true
  | _ :: _, [] => false
  | x :: a, y :: b => (x <? y) || ((x =? y) && units_leb a b)
  end.

Definition js_str_le (s t : string) : Prop := units_leb (js_units s) (js_units t) = true.

#[global] Instance js_str_le_dec : RelDecision js_str_le.
Proof. intros s t. unfold js_str_le. apply _. Defined.

(** [keys.sort()] *)
Definition js_sort (l : list string) : list string := merge_sort js_str_le l.

Lemma units_leb_refl a : units_leb a a = true.
Proof. induction a; simpl; [done|]. rewrite Z.eqb_refl, IHa. lia. Qed.

Lemma units_leb_total a b : units_leb a b = true ∨ units_leb b a = true.
Proof.
  revert b. induction a as [|x a IH]; intros [|y b]; simpl; auto.
  destruct (Z.lt_trichotomy x y) as [H|[->|H]].
  - left. by rewrite (proj2 (Z.ltb_lt _ _) H).
  - rewrite Z.ltb_irrefl, Z.eqb_refl. apply IH.
  - right. by rewrite (proj2 (Z.ltb_lt _ _) H).
Qed.

Lemma units_leb_trans a b c :
  units_leb a b = true → units_leb b c = true → units_leb a c = true.
Proof.
  revert b c. induction a as [|x a IH]; intros [|y b] [|z c]; simpl; try done.
  rewrite !orb_true_iff, !andb_true_iff, !Z.ltb_lt, !Z.eqb_eq.
  intros [?|[-> ?]] [?|[-> ?]]; try (left; lia). right. eauto.
Qed.

Lemma units_leb_antisym a b :
  units_leb a b = true → units_leb b a = true → a = b.
Proof.
  revert b. induction a as [|x a IH]; intros [|y b]; simpl; try done.
  rewrite !orb_true_iff, !andb_true_iff, !Z.ltb_lt, !Z.eqb_eq.
  intros [?|[-> ?]] [?|[? ?]]; try lia. f_equal. auto.
Qed.

#[global] Instance js_str_le_total : Total js_str_le.
Proof. intros s t. apply units_leb_total. Qed.
#[global] Instance js_str_le_trans : Transitive js_str_le.
Proof. intros s t u. apply units_leb_trans. Qed.

(** ** Lemmas *)

Lemma byte_forall (P : Z → bool) :
  forallb P (Z.of_nat <$> seq 0 256) = true → ∀ b, is_byte b → P b = true.
Proof.
  intros H b [H0 H1]. eapply forallb_forall; [exact H|].
  apply in_map_iff. exists (Z.to_nat b). split; [lia|]. apply in_seq. lia.
Qed.

Lemma js_units_ascii c s :
  char_code c < 128 → js_units (String c s) = char_code c :: js_units s.
Proof.
  intros H. unfold js_units. cbn [string_bytes utf16_units].
  by rewrite (proj2 (Z.ltb_lt _ _) H).
Qed.

Lemma hex_byte_units b s :
  is_byte b →
  js_units (hex_byte b +:+ s) = js_units (hex_byte b) ++ js_units s.
Proof.
  intros Hb.
  assert (H : let '(x, y) := (hex_digit_char (b / 16), hex_digit_char (b mod 16)) in
              (char_code x <? 128) && (char_code y <? 128) = true).
  { revert b Hb. apply (byte_forall (λ b,
      (char_code (hex_digit_char (b / 16)) <? 128) &&
      (char_code (hex_digit_char (b mod 16)) <? 128))). by vm_compute. }
  apply andb_true_iff in H as [H1%Z.ltb_lt H2%Z.ltb_lt].
  unfold hex_byte. generalize dependent (hex_digit_char (b / 16)).
  generalize dependent (hex_digit_char (b mod 16)). intros y Hy x Hx.
  change (String x (String y EmptyString) +:+ s) with (String x (String y s)).
  by rewrite !js_units_ascii.
Qed.

Lemma hex_pairs_byte nan off b us :
  is_byte b →
  hex_pairs nan off (js_units (hex_byte b) ++ us)
  = rest ← hex_pairs nan (off + 2) us; Ret (b :: rest).
Proof.
  intros Hb.
  assert (H : match js_units (hex_byte b) with
              | [x; y] => bool_decide (parse_int16 [x; y] = Some b)
              | _ => false end = true).
  { revert b Hb. apply (byte_forall (λ b,
      match js_units (hex_byte b) with
      | [x; y] => bool_decide (parse_int16 [x; y] = Some b)
      | _ => false end)). by vm_compute. }
  destruct (js_units (hex_byte b)) as [|x [|y [|]]]; try done.
  apply bool_decide_eq_true in H. cbn [app hex_pairs]. rewrite H.
  unfold u8. simpl. by rewrite Z.mod_small.
Qed.

Lemma hex_pairs_to_hex nan off bs :
  Forall is_byte bs → hex_pairs nan off (js_units (to_hex bs)) = Ret bs.
Proof.
  intros H. revert off. induction H as [|b bs Hb _ IH]; intros off; [done|].
  cbn [to_hex]. by rewrite hex_byte_units, hex_pairs_byte, IH.
Qed.

Lemma js_length_to_hex bs :
  Forall is_byte bs → js_length (to_hex bs) = 2 * blen bs.
Proof.
  unfold js_length, blen. induction 1 as [|b bs Hb _ IH]; [done|].
  cbn [to_hex]. rewrite hex_byte_units, length_app by done.
  assert (length (js_units (hex_byte b)) = 2%nat) as ->.
  { apply Nat.eqb_eq. revert b Hb.
    apply (byte_forall (λ b, (length (js_units (hex_byte b)) =? 2)%nat)).
    by vm_compute. }
  cbn [length]. lia.
Qed.

Lemma is_lower_hex_digit c :
  is_lower_hex c = true → ∃ d, 0 ≤ d < 16 ∧ c = hex_digit_char d.
Proof.
  unfold is_lower_hex, between.
  rewrite orb_true_iff, !andb_true_iff, !Z.leb_le. intros [H|H].
  - exists (char_code c - 48). split; [lia|]. unfold hex_digit_char.
    rewrite (proj2 (Z.ltb_lt _ _)) by lia.
    by rewrite Z.add_comm, Z.sub_add, char_of_code.
  - exists (char_code c - 87). split; [lia|]. unfold hex_digit_char.
    rewrite (proj2 (Z.ltb_ge _ _)) by lia.
    by rewrite Z.add_comm, Z.sub_add, char_of_code.
Qed.

Lemma hex_byte_digits a b :
  0 ≤ a < 16 → 0 ≤ b < 16 →
  hex_byte (16 * a + b) = String (hex_digit_char a) (String (hex_digit_char b) EmptyString).
Proof.
  intros. unfold hex_byte. rewrite (Z.mul_comm 16), Z.div_add_l by lia.
  rewrite (Z.div_small b), Z.add_0_r by lia.
  by rewrite (Z.add_comm _ b), Z.mod_add, (Z.mod_small b) by lia.
Qed.

(** Every lower-case hex string of even length is the hex of some bytes. *)
Lemma is_hex_n_to_hex n s :
  is_hex_n (2 * n) s = true → ∃ bs, s = to_hex bs ∧ length bs = n ∧ Forall is_byte bs.
Proof.
  unfold is_hex_n. rewrite andb_true_iff, Nat.eqb_eq. intros [Hlen H].
  revert s Hlen H. induction n as [|n IH]; intros s Hlen H.
  { destruct s; [|done]. by exists []. }
  destruct s as [|c [|d s]]; cbn [String.length] in Hlen; try lia.
  cbn [all_lower_hex] in H. apply andb_true_iff in H as [Hc [Hd H]%andb_true_iff].
  destruct (IH s) as (bs & -> & <- & Hbs); [lia|done|].
  apply is_lower_hex_digit in Hc as (x & Hx & ->), Hd as (y & Hy & ->).
  exists (16 * x + y :: bs). split_and!; [|done|].
  - cbn [to_hex]. by rewrite hex_byte_digits.
  - constructor; [unfold is_byte; lia|done].
Qed.

Lemma all_lower_hex_app s t :
  all_lower_hex (s +:+ t) = all_lower_hex s && all_lower_hex t.
Proof.
  induction s as [|c s IH]; [done|].
  change (String c s +:+ t) with (String c (s +:+ t)). cbn [all_lower_hex].
  by rewrite IH, andb_assoc.
Qed.

Lemma all_lower_hex_to_hex bs : Forall is_byte bs → all_lower_hex (to_hex bs) = true.
Proof.
  induction 1 as [|b bs Hb _ IH]; [done|]. cbn [to_hex].
  assert (H : all_lower_hex (hex_byte b) = true).
  { revert b Hb. apply (byte_forall (λ b, all_lower_hex (hex_byte b))). by vm_compute. }
  by rewrite all_lower_hex_app, H, IH.
Qed.

Lemma length_to_hex bs : String.length (to_hex bs) = (2 * length bs)%nat.
Proof.
  induction bs as [|b bs IH]; [done|]. cbn [to_hex length].
  change (String.length (hex_byte b +:+ to_hex bs))
    with (S (S (String.length (to_hex bs)))). lia.
Qed.

Lemma is_hex_n_of_bytes n bs :
  Forall is_byte bs → length bs = n → is_hex_n (2 * n) (to_hex bs) = true.
Proof.
  intros H <-. unfold is_hex_n.
  by rewrite length_to_hex, Nat.eqb_refl, all_lower_hex_to_hex.
Qed.

Lemma to_hex_inj bs cs :
  Forall is_byte bs → Forall is_byte cs → to_hex bs = to_hex cs → bs = cs.
Proof.
  intros Hb Hc E.
  pose proof (hex_pairs_to_hex (λ _, Ret 0) 0 bs Hb) as H.
  rewrite E, hex_pairs_to_hex in H by done. congruence.
Qed.

Lemma is_pubkey33_hex pk : is_pubkey33 pk = true → is_hex_n 66 pk = true.
Proof.
  destruct pk as [|c0 [|c1 r]]; [done..|]. cbn [is_pubkey33]. unfold is_hex_n.
  rewrite !andb_true_iff, orb_true_iff, !Z.eqb_eq, !Nat.eqb_eq.
  intros ((H0 & H1) & Hlen & Hr). cbn [String.length all_lower_hex]. rewrite Hlen, Hr.
  split; [done|]. unfold is_lower_hex. rewrite H0. by destruct H1 as [->| ->].
Qed.

Lemma is_pubkey33_length pk : is_pubkey33 pk = true → js_length pk = 66.
Proof.
  intros (bs & -> & Hl & Hb)%is_pubkey33_hex%(is_hex_n_to_hex 33).
  rewrite js_length_to_hex by done. unfold blen. lia.
Qed.

(** ** UTF-16 code units determine a well-formed string

    One well-formed character: its UTF-8 bytes and its code units. *)
Inductive utf8_char : bytes → list Z → Prop :=
  | char1 b : 0 ≤ b ≤ 0x7F → utf8_char [b] [b]
  | char2 a b : 0xC2 ≤ a ≤ 0xDF → 0x80 ≤ b ≤ 0xBF →
      utf8_char [a; b] [(a - 0xC0) * 64 + (b - 0x80)]
  | char3 a b c : 0xE0 ≤ a ≤ 0xEF → 0x80 ≤ b ≤ 0xBF → 0x80 ≤ c ≤ 0xBF →
      (a = 0xE0 → 0xA0 ≤ b) → (a = 0xED → b ≤ 0x9F) →
      utf8_char [a; b; c] [(a - 0xE0) * 4096 + (b - 0x80) * 64 + (c - 0x80)]
  | char4 a b c d hi lo : 0xF0 ≤ a ≤ 0xF4 →
      0x80 ≤ b ≤ 0xBF → 0x80 ≤ c ≤ 0xBF → 0x80 ≤ d ≤ 0xBF →
      0 ≤ hi < 1024 → 0 ≤ lo < 1024 →
      hi * 1024 + lo = (a - 0xF0) * 262144 + (b - 0x80) * 4096 + (c - 0x80) * 64
                       + (d - 0x80) - 0x10000 →
      utf8_char [a; b; c; d] [0xD800 + hi; 0xDC00 + lo].

Lemma char4_units a b c d :
  0xF0 ≤ a ≤ 0xF4 → 0x80 ≤ b ≤ 0xBF → 0x80 ≤ c ≤ 0xBF → 0x80 ≤ d ≤ 0xBF →
  (a = 0xF0 → 0x90 ≤ b) → (a = 0xF4 → b ≤ 0x8F) →
  let v := (a - 0xF0) * 262144 + (b - 0x80) * 4096 + (c - 0x80) * 64
           + (d - 0x80) - 0x10000 in
  utf8_char [a; b; c; d] [0xD800 + v / 1024; 0xDC00 + v mod 1024].
Proof.
  intros ?????? v. assert (0 ≤ v < 1024 * 1024) by (subst v; lia).
  pose proof (Z.mod_pos_bound v 1024). pose proof (Z.div_mod v 1024).
  apply char4; try lia.
Qed.

Ltac simpl_ranges :=
  unfold cont, between in *;
  repeat (rewrite ?andb_true_iff, ?andb_false_iff, ?Z.leb_le, ?Z.leb_gt, ?Z.eqb_eq, ?Z.eqb_neq,
            ?Z.ltb_lt, ?Z.ltb_ge in * ); destruct_and?.

Ltac step_if :=
  repeat match goal with
  | |- context [?a <? ?b] =>
      first [ rewrite (proj2 (Z.ltb_lt a b)) by lia | rewrite (proj2 (Z.ltb_ge a b)) by lia ]
  end.

Lemma utf8_valid_cons bs :
  utf8_valid bs = true → bs ≠ [] →
  ∃ p u r, bs = p ++ r ∧ p ≠ [] ∧ utf8_char p u ∧ utf8_valid r = true
           ∧ utf16_units bs = u ++ utf16_units r.
Proof.
  destruct bs as [|b0 r0]; [done|]. intros H _. cbn [utf8_valid utf16_units] in *.
  destruct (between 0 0x7F b0) eqn:E0.
  { exists [b0], [b0], r0. simpl_ranges. step_if.
    split_and!; try done. by constructor. }
  destruct r0 as [|b1 r1]; [done|]. destruct (between 0xC2 0xDF b0) eqn:E1.
  { exists [b0; b1], [(b0 - 0xC0) * 64 + (b1 - 0x80)], r1. simpl_ranges. step_if.
    split_and!; try done. by constructor. }
  destruct r1 as [|b2 r2]; [done|]. destruct (between 0xE0 0xEF b0) eqn:E2.
  { exists [b0; b1; b2], [(b0 - 0xE0) * 4096 + (b1 - 0x80) * 64 + (b2 - 0x80)], r2.
    destruct (b0 =? 0xE0) eqn:?, (b0 =? 0xED) eqn:?; simpl_ranges; try (exfalso; lia); step_if;
      (split_and!; [done|done|apply char3; lia|done|done]). }
  destruct r2 as [|b3 r3]; [done|].
  exists [b0; b1; b2; b3],
    (let c := (b0 - 0xF0) * 262144 + (b1 - 0x80) * 4096 + (b2 - 0x80) * 64
              + (b3 - 0x80) - 0x10000 in [0xD800 + c / 1024; 0xDC00 + c mod 1024]), r3.
  destruct (b0 =? 0xF0) eqn:?, (b0 =? 0xF4) eqn:?; simpl_ranges; try (exfalso; lia);
    step_if; (split_and!; [done|done|apply char4_units; lia|done|done]).
Qed.

Lemma utf8_char_inj p u q v x y :
  utf8_char p u → utf8_char q v → u ++ x = v ++ y → p = q ∧ u = v ∧ x = y.
Proof.
  intros [] [] E; cbn [app] in E; simplify_eq;
    try (exfalso; lia);
    try (split_and!; repeat first [done | lia | f_equal]).
Qed.

Lemma utf16_units_inj bs cs :
  utf8_valid bs = true → utf8_valid cs = true → utf16_units bs = utf16_units cs → bs = cs.
Proof.
  remember (length bs) as n eqn:Hn. revert bs cs Hn.
  induction (lt_wf n) as [n _ IH]. intros bs cs -> Hb Hc E.
  destruct (decide (bs = [])) as [->|Hbs]; [|].
  { destruct (decide (cs = [])) as [->|Hcs]; [done|].
    apply utf8_valid_cons in Hc as (p&u&r&->&?&Hch&?&Hu); [|done].
    rewrite Hu in E. by destruct Hch. }
  destruct (decide (cs = [])) as [->|Hcs].
  { apply utf8_valid_cons in Hb as (p&u&r&->&?&Hch&?&Hu); [|done].
    rewrite Hu in E. by destruct Hch. }
  apply utf8_valid_cons in Hb as (p&u&r&->&?&Hp&?&Hu); [|done].
  apply utf8_valid_cons in Hc as (q&v&s&->&?&Hq&?&Hv); [|done].
  rewrite Hu, Hv in E. destruct (utf8_char_inj _ _ _ _ _ _ Hp Hq E) as (->&->&Hrs).
  f_equal. eapply IH; [|done..]. rewrite length_app. destruct q; [done|simpl; lia].
Qed.

Lemma js_units_inj s t :
  js_string_ok s = true → js_string_ok t = true → js_units s = js_units t → s = t.
Proof. intros Hs Ht E. apply string_bytes_inj. by apply utf16_units_inj. Qed.

(** Sorting a list of strings forgets the order it was in. *)
Lemma js_sort_perm l1 l2 :
  Forall (λ s, js_string_ok s = true) l1 → l1 ≡ₚ l2 → js_sort l1 = js_sort l2.
Proof.
  intros Hok Hp. unfold js_sort. apply (StronglySorted_unique_strong js_str_le).
  - intros s t Hs Ht H1 H2. rewrite list.Forall_forall in Hok.
    apply js_units_inj; [apply Hok|apply Hok|by apply units_leb_antisym].
    + revert Hs. by rewrite merge_sort_Permutation.
    + revert Ht. by rewrite merge_sort_Permutation, <- Hp.
  - apply StronglySorted_merge_sort; apply _.
  - apply StronglySorted_merge_sort; apply _.
  - by rewrite !merge_sort_Permutation.
Qed.
