(* ===== verification/Primitives.v ===== *)
(** * protocol-types: primitives and domain-separated hashing

    [packages/protocol-types/src/primitives.ts] (branded identifiers and their
    validating constructors, [Result], error codes) and
    [packages/protocol-types/src/hash.ts] (type tags, hex, domain-separated
    SHA-256).  SHA-256 itself is the platform's [crypto.subtle.digest] and stays a
    parameter. *)

From S2P Require Import Prelude Bytes.

(** ** Branded identifiers

    At run time a brand is the string or number itself. *)

Abbreviation GameId := string (only parsing).
Abbreviation PlayerId := string (only parsing).
Abbreviation Hash256 := string (only parsing).
Abbreviation Pubkey33 := string (only parsing).
Abbreviation TxId := string (only parsing).
Abbreviation Outpoint := string (only parsing).
Abbreviation ActionNonce := string (only parsing).
Abbreviation RuleSetHash := string (only parsing).
Abbreviation Seat := Z (only parsing).
Abbreviation RoundNumber := Z (only parsing).
Abbreviation Satoshis := Z (only parsing).
Abbreviation BlockHeight := Z (only parsing).

Definition asHash256 (hex : string) : js Hash256 :=
  if negb (is_hex_n 64 hex)
  then Throw ("asHash256: expected 64 lowercase hex chars, got " +:+ pretty (js_length hex))
  else Ret hex.

Definition asPubkey33 (hex : string) : js Pubkey33 :=
  if negb (is_pubkey33 hex)
  then Throw ("asPubkey33: expected 33-byte compressed pubkey (66 hex chars starting 02/03), got "
              +:+ hex)
  else Ret hex.

Definition asGameId (hex : string) : js GameId :=
  if negb (is_hex_n 64 hex)
  then Throw "asGameId: expected 64 lowercase hex chars" else Ret hex.

Definition asRuleSetHash (hex : string) : js RuleSetHash :=
  if negb (is_hex_n 64 hex)
  then Throw "asRuleSetHash: expected 64 lowercase hex chars" else Ret hex.

Definition asSeat (n : Z) : js Seat :=
  if negb (is_safe_integer n) || (n <? 0)
  then Throw ("asSeat: expected non-negative safe integer, got " +:+ pretty n) else Ret n.

Definition asRoundNumber (n : Z) : js RoundNumber :=
  if negb (is_safe_integer n) || (n <? 0)
  then Throw ("asRoundNumber: expected non-negative safe integer, got " +:+ pretty n)
  else Ret n.

Definition asSatoshis (n : Z) : js Satoshis :=
  if negb (is_safe_integer n) || (n <? 0)
  then Throw ("asSatoshis: expected non-negative safe integer, got " +:+ pretty n)
  else Ret n.

Definition asBlockHeight (n : Z) : js BlockHeight :=
  if negb (is_safe_integer n) || (n <? 0) || (500000000 <=? n)
  then Throw ("asBlockHeight: expected integer in [0, 5e8), got " +:+ pretty n)
  else Ret n.

Definition asActionNonce (hex : string) : js ActionNonce :=
  if negb (is_hex_n 64 hex)
  then Throw "asActionNonce: expected 64 lowercase hex chars" else Ret hex.

Definition asTxId (hex : string) : js TxId :=
  if negb (is_hex_n 64 hex)
  then Throw "asTxId: expected 64 lowercase hex chars" else Ret hex.

Definition asPlayerId (hex : string) : js PlayerId :=
  if negb (is_hex_n 64 hex)
  then Throw "asPlayerId: expected 64 lowercase hex chars" else Ret hex.

(** ** Result and error codes *)

Inductive ErrorCode : Type :=
  | INVALID_STAKE_AMOUNT
  | INVALID_REVEAL_PROOF
  | INVALID_TX_CONFORMANCE
  | INVALID_SIGNATURE
  | INVALID_STATE_TRANSITION
  | INVALID_ACTION_FOR_STATE
  | INVALID_BET_AMOUNT
  | INVALID_SUCCESSOR_TEMPLATE
  | INVALID_RULE_SET
  | STALE_STATE
  | STATE_NOT_FOUND
  | DOUBLE_SPEND_CONFLICT
  | TIMEOUT_NOT_MATURE
  | RECOVERY_NOT_MATURE
  | BAD_BINDING
  | PLAYER_NOT_SEATED
  | PLAYER_ALREADY_SEATED
  | TABLE_FULL
  | TABLE_NOT_LOCKABLE
  | SEAT_OUT_OF_RANGE
  | SERIALISATION_ERROR
  | UNSUPPORTED_VERSION.

Record ProtocolError := protocolError {
  code : ErrorCode;
  context : option string
}.

Inductive Result (T : Type) : Type :=
  | Ok (value : T)
  | Err (error : ProtocolError).
Arguments Ok {T} value.
Arguments Err {T} error.

(** [return err(protocolError(code, context))] in a function that may also throw *)
Definition reject {T} (c : ErrorCode) (ctx : string) : js (Result T) :=
  Ret (Err (protocolError c (Some ctx))).

(** [return ok(value)] *)
Definition accept {T} (v : T) : js (Result T) := Ret (Ok v).

#[global] Instance ErrorCode_eq_dec : EqDecision ErrorCode.
Proof. solve_decision. Defined.
#[global] Instance ProtocolError_eq_dec : EqDecision ProtocolError.
Proof. solve_decision. Defined.
#[global] Instance Result_eq_dec {T} `{EqDecision T} : EqDecision (Result T).
Proof. solve_decision. Defined.

(** ** Domain-separated hashing ([hash.ts]) *)

Module TYPE_TAG.
Definition RULE_SET : Z := 0x0001.
Definition PLAYER : Z := 0x0002.
Definition WALLET_IDENTITY : Z := 0x0003.
Definition GAME_INSTANCE : Z := 0x0004.
Definition ENTROPY_COMMITMENT : Z := 0x0005.
Definition ENTROPY_REVEAL : Z := 0x0006.
Definition DECK_COMMITMENT : Z := 0x0007.
Definition CARD : Z := 0x0008.
Definition ROUND_STATE : Z := 0x0009.
Definition SIGNED_ACTION : Z := 0x000a.
Definition TIMEOUT_BRANCH : Z := 0x000b.
Definition REVEAL_PROOF : Z := 0x000c.
Definition SETTLEMENT_RESULT : Z := 0x000d.
Definition RECOVERY_RECORD : Z := 0x000e.
Definition AUDIT_TRANSCRIPT : Z := 0x000f.
Definition TX_TEMPLATE_REF : Z := 0x0010.
Definition BINDING_FIELDS : Z := 0x0011.
Definition TABLE_STATE : Z := 0x0012.
Definition POT_STATE : Z := 0x0013.
Definition WIRE_FRAME : Z := 0x0014.

(** The values of the object, in its order. *)
Definition values : list Z :=
  [RULE_SET; PLAYER; WALLET_IDENTITY; GAME_INSTANCE; ENTROPY_COMMITMENT;
   ENTROPY_REVEAL; DECK_COMMITMENT; CARD; ROUND_STATE; SIGNED_ACTION;
   TIMEOUT_BRANCH; REVEAL_PROOF; SETTLEMENT_RESULT; RECOVERY_RECORD;
   AUDIT_TRANSCRIPT; TX_TEMPLATE_REF; BINDING_FIELDS; TABLE_STATE; POT_STATE;
   WIRE_FRAME].
End TYPE_TAG.

Definition encodeTagLE (tag : Z) : bytes :=
  [u8 (js_and tag 0xff); u8 (js_and (js_shr tag 8) 0xff)].

Definition bytesToHex (b : bytes) : string := to_hex b.

Definition hexToBytes (hex : string) : js bytes :=
  if negb (js_length hex mod 2 =? 0) || negb (all_lower_hex hex)
  then Throw "hexToBytes: malformed input"
  else hex_pairs (λ _, Ret 0) 0 (js_units hex).

Definition domainSha256 (sha256 : bytes → bytes) (tag : Z) (payload : bytes) : Hash256 :=
  bytesToHex (sha256 (encodeTagLE tag ++ payload)).

Definition domainSha256Sync (tag : Z) (payload : bytes) (hasher : bytes → bytes) : Hash256 :=
  bytesToHex (hasher (encodeTagLE tag ++ payload)).

(** ** Lemmas *)

Lemma encodeTagLE_le_bytes tag :
  0 ≤ tag < 2 ^ 16 → encodeTagLE tag = le_bytes 2 tag.
Proof.
  intros H. unfold encodeTagLE, u8.
  rewrite js_and_ff, js_shr_and, !Z.mod_mod by lia. done.
Qed.

Lemma asSatoshis_Ret n v : asSatoshis n = Ret v ↔ v = n ∧ 0 ≤ n ≤ MAX_SAFE_INTEGER.
Proof.
  unfold asSatoshis. destruct (is_safe_integer n) eqn:E; simpl.
  - apply is_safe_integer_spec in E. unfold MAX_SAFE_INTEGER.
    destruct (Z.ltb_spec n 0); split; intros; simplify_eq; try done; try lia.
    by destruct_and!; subst.
  - split; [done|]. intros [_ ?]. exfalso.
    assert (is_safe_integer n = true); [|congruence].
    apply is_safe_integer_spec. unfold MAX_SAFE_INTEGER in *. lia.
Qed.

Lemma asSeat_Ret n v : asSeat n = Ret v ↔ v = n ∧ 0 ≤ n ≤ MAX_SAFE_INTEGER.
Proof.
  rewrite <- asSatoshis_Ret. unfold asSeat, asSatoshis. by destruct (_ || _).
Qed.

Lemma asRoundNumber_Ret n v :
  asRoundNumber n = Ret v ↔ v = n ∧ 0 ≤ n ≤ MAX_SAFE_INTEGER.
Proof.
  rewrite <- asSatoshis_Ret. unfold asRoundNumber, asSatoshis. by destruct (_ || _).
Qed.

Lemma hexToBytes_bytesToHex bs :
  Forall is_byte bs → hexToBytes (bytesToHex bs) = Ret bs.
Proof.
  intros H. unfold hexToBytes, bytesToHex.
  rewrite js_length_to_hex, all_lower_hex_to_hex, hex_pairs_to_hex by done.
  by rewrite Z.mul_comm, Z.mod_mul by lia.
Qed.
