(* ===== verification/Types.v ===== *)
(** * protocol-types: the data of a session

    The types of [packages/protocol-types/src]: cards ([cards.ts]), players
    ([player.ts]), rule sets ([rule-set.ts]), signed actions ([actions.ts]), the round
    state ([game-state.ts]) and settlement results ([settlement.ts]), with the string
    each enumeration member is at run time and one setter per field the engine
    rewrites. *)

From S2P Require Import Prelude Bytes Primitives.

(** ** Cards *)

Inductive Suit : Type := clubs | diamonds | hearts | spades.

Inductive Rank : Type :=
  | R2 | R3 | R4 | R5 | R6 | R7 | R8 | R9 | R10 | RJ | RQ | RK | RA.

#[global] Instance Suit_eq_dec : EqDecision Suit.
Proof. solve_decision. Defined.
#[global] Instance Rank_eq_dec : EqDecision Rank.
Proof. solve_decision. Defined.

Definition SUITS_IN_ORDER : list Suit := [clubs; diamonds; hearts; spades].
Definition RANKS_IN_ORDER : list Rank :=
  [R2; R3; R4; R5; R6; R7; R8; R9; R10; RJ; RQ; RK; RA].

(** [xs.findIndex(p)]; [xs.indexOf(x)] is [findIndex (x =)]. *)
Fixpoint findIndex {A} (p : A → bool) (l : list A) : Z :=
  match l with
  | [] => -1
  | x :: l => if p x then 0
              else let i := findIndex p l in if i <? 0 then i else i + 1
  end.

Definition indexOf {A} `{EqDecision A} (l : list A) (x : A) : Z :=
  findIndex (λ y, bool_decide (y = x)) l.

(** [xs[i]]: [undefined] ([None]) for a negative or too large index. *)
Definition at_index {A} (l : list A) (i : Z) : option A :=
  if i <? 0 then None else l !! Z.to_nat i.

Record RevealedCard := mkRevealedCard {
  rank : Rank;
  suit : Suit;
  ordinal : Z
}.

(** The type checker rules out other ranks and suits, so the [-1] branch throws a
    message without them. *)
Definition cardOrdinal (r : Rank) (s : Suit) : js Z :=
  let ri := indexOf RANKS_IN_ORDER r in
  let si := indexOf SUITS_IN_ORDER s in
  if (ri =? -1) || (si =? -1) then Throw "cardOrdinal: invalid rank/suit"
  else Ret (13 * si + ri).

Definition cardFromOrdinal (ordinal : Z) : js RevealedCard :=
  if (ordinal <? 0) || (51 <? ordinal)
  then Throw ("cardFromOrdinal: ordinal out of 52-card range: " +:+ pretty ordinal)
  else
    match at_index SUITS_IN_ORDER (ordinal / 13), at_index RANKS_IN_ORDER (Z.rem ordinal 13) with
    | Some suit, Some rank => Ret (mkRevealedCard rank suit ordinal)
    | _, _ => Throw ("cardFromOrdinal: indexing failure for " +:+ pretty ordinal)
    end.

Record CardCommitment := mkCardCommitment {
  position : Z;
  card_commitment : Hash256;
  card_nonce : Hash256
}.

(** An open string union: any string, five of them canonical. *)
Abbreviation CardLifecycleState := string (only parsing).
Definition CANONICAL_LIFECYCLE_STATES : list CardLifecycleState :=
  ["UNDEALT"; "ASSIGNED_CONCEALED"; "REVEALED"; "SURRENDERED"; "RETIRED"].

Record ConcealedCard := mkConcealedCard {
  cc_commitment : CardCommitment;
  ciphertext : string;
  custody_outpoint : Outpoint;
  holder_pubkey : Pubkey33;
  lifecycle_state : CardLifecycleState
}.

Record RevealProof := mkRevealProof {
  rp_position : Z;
  revealed_card : RevealedCard;
  rp_card_nonce : Hash256;
  rp_deck_nonce : Hash256
}.

Record DeckCommitmentObject := mkDeckCommitmentObject {
  dc_combined_entropy : Hash256;
  dc_shuffle_algorithm_version : Z;
  dc_deck_commitment_hash : Hash256;
  hidden_card_commitments : list CardCommitment;
  reveal_history : list RevealProof
}.

(** ** Players *)

(** Participation lifecycle of one player. *)
Inductive ParticipationStatus : Type :=
  | invited
  | joined
  | ready
  | active
  | folded
  | settled
  | disconnected
  | timed_out
  | forfeited.

#[global] Instance ParticipationStatus_eq_dec : EqDecision ParticipationStatus.
Proof. solve_decision. Defined.

Definition ParticipationStatus_string (x : ParticipationStatus) : string :=
  match x with
  | invited => "invited"
  | joined => "joined"
  | ready => "ready"
  | active => "active"
  | folded => "folded"
  | settled => "settled"
  | disconnected => "disconnected"
  | timed_out => "timed_out"
  | forfeited => "forfeited"
  end.

Record WalletIdentity := mkWalletIdentity {
  wi_value_signing_pubkey : Pubkey33;
  session_messaging_pubkey : Pubkey33;
  card_encryption_pubkey : Pubkey33
}.

(** [Record<string, string>]: an object with distinct keys, as the association list
    of its own properties. *)
Abbreviation StringMap := (list (string * string)) (only parsing).

(** One player in one session. *)
Record PlayerState := mkPlayerState {
  seat : Seat;
  player_id : PlayerId;
  value_signing_pubkey : Pubkey33;
  participation_status : ParticipationStatus;
  stake_at_risk : Satoshis;
  stake_outpoint : option Outpoint;
  entropy_committed : bool;
  entropy_commitment_hash : option Hash256;
  entropy_revealed : bool;
  entropy_value : option Hash256;
  concealed_card_refs : list Outpoint;
  default_preferences : StringMap
}.

Definition set_participation_status (v : ParticipationStatus) (p : PlayerState) : PlayerState :=
  mkPlayerState (seat p) (player_id p) (value_signing_pubkey p) v (stake_at_risk p)
    (stake_outpoint p) (entropy_committed p) (entropy_commitment_hash p)
    (entropy_revealed p) (entropy_value p) (concealed_card_refs p)
    (default_preferences p).

Definition set_stake_at_risk (v : Satoshis) (p : PlayerState) : PlayerState :=
  mkPlayerState (seat p) (player_id p) (value_signing_pubkey p) (participation_status p)
    v (stake_outpoint p) (entropy_committed p) (entropy_commitment_hash p)
    (entropy_revealed p) (entropy_value p) (concealed_card_refs p)
    (default_preferences p).

Definition set_entropy_committed (v : bool) (p : PlayerState) : PlayerState :=
  mkPlayerState (seat p) (player_id p) (value_signing_pubkey p) (participation_status p)
    (stake_at_risk p) (stake_outpoint p) v (entropy_commitment_hash p)
    (entropy_revealed p) (entropy_value p) (concealed_card_refs p)
    (default_preferences p).

Definition set_entropy_commitment_hash (v : option Hash256) (p : PlayerState) : PlayerState :=
  mkPlayerState (seat p) (player_id p) (value_signing_pubkey p) (participation_status p)
    (stake_at_risk p) (stake_outpoint p) (entropy_committed p) v (entropy_revealed p)
    (entropy_value p) (concealed_card_refs p) (default_preferences p).

Definition set_entropy_revealed (v : bool) (p : PlayerState) : PlayerState :=
  mkPlayerState (seat p) (player_id p) (value_signing_pubkey p) (participation_status p)
    (stake_at_risk p) (stake_outpoint p) (entropy_committed p)
    (entropy_commitment_hash p) v (entropy_value p) (concealed_card_refs p)
    (default_preferences p).

Definition set_entropy_value (v : option Hash256) (p : PlayerState) : PlayerState :=
  mkPlayerState (seat p) (player_id p) (value_signing_pubkey p) (participation_status p)
    (stake_at_risk p) (stake_outpoint p) (entropy_committed p)
    (entropy_commitment_hash p) (entropy_revealed p) v (concealed_card_refs p)
    (default_preferences p).

(** ** Rule sets *)

(** v1 knows one game. *)
Inductive GameType : Type :=
  | in_between.

#[global] Instance GameType_eq_dec : EqDecision GameType.
Proof. solve_decision. Defined.

Definition GameType_string (x : GameType) : string :=
  match x with
  | in_between => "in_between"
  end.

(** Penalties for misbehaviour. *)
Record PenaltySchedule := mkPenaltySchedule {
  non_reveal : Satoshis;
  bad_reveal : Satoshis;
  consecutive_cards : Satoshis;
  equal_cards : Satoshis
}.

(** Settlement of a round; the multipliers are integers in the v1 schema. *)
Record SettlementRules := mkSettlementRules {
  in_between_win_multiplier : Z;
  in_between_loss_multiplier : Z;
  consecutive_cards_penalty : Satoshis;
  equal_cards_penalty : Satoshis
}.

(** Distribution of stranded value. *)
Record RecoveryRules := mkRecoveryRules {
  refund_stakes_to_funders : bool;
  apply_non_reveal_penalty : bool;
  apply_bad_reveal_penalty : bool
}.

(** The agreed rules of a session. *)
Record RuleSet := mkRuleSet {
  game_type : GameType;
  player_count_min : Z;
  player_count_max : Z;
  stake_amount : Satoshis;
  min_bet : Satoshis;
  max_bet : Satoshis;
  decision_timeout_blocks : Z;
  recovery_timeout_blocks : Z;
  invitation_window_blocks : Z;
  default_action_by_state : StringMap;
  penalty_schedule : PenaltySchedule;
  deck_format : Z;
  shuffle_algorithm_version : Z;
  settlement_rules : SettlementRules;
  recovery_rules : RecoveryRules;
  serialisation_version : Z
}.

(** ** Actions *)

(** Every action a player or auto-trigger can produce. *)
Inductive ActionType : Type :=
  | Join
  | EntropyCommit
  | EntropyReveal
  | CardReveal
  | DealConcealed
  | BetAction
  | Pass
  | Fold
  | Settle
  | RotateTurn
  | TableLock
  | TableClose
  | Timeout
  | Recovery.

#[global] Instance ActionType_eq_dec : EqDecision ActionType.
Proof. solve_decision. Defined.

Definition ActionType_string (x : ActionType) : string :=
  match x with
  | Join => "Join"
  | EntropyCommit => "EntropyCommit"
  | EntropyReveal => "EntropyReveal"
  | CardReveal => "CardReveal"
  | DealConcealed => "DealConcealed"
  | BetAction => "BetAction"
  | Pass => "Pass"
  | Fold => "Fold"
  | Settle => "Settle"
  | RotateTurn => "RotateTurn"
  | TableLock => "TableLock"
  | TableClose => "TableClose"
  | Timeout => "Timeout"
  | Recovery => "Recovery"
  end.

(** The fields every signed action carries, but [action_type], which the payload fixes. *)
Record SignedActionBase := mkSignedActionBase {
  act_game_id : GameId;
  act_round_number : RoundNumber;
  referenced_state_hash : Hash256;
  action_nonce : ActionNonce;
  act_acting_player_seat : option Seat;
  authorising_signature : string;
  successor_state_commitment : Hash256
}.

(** The discriminated union [SignedAction]: one constructor per member, with the
    fields that member adds to the base. *)
Inductive ActionPayload : Type :=
  | JoinAction (player_pubkey : Pubkey33) (stake : Satoshis)
  | EntropyCommitAction (commitment_hash : Hash256)
  | EntropyRevealAction (entropy : Hash256)
  | CardRevealAction (reveal : RevealProof)
  | DealConcealedAction (concealed_cards : list ConcealedCard)
  | BetAction_ (bet_amount : Satoshis)
  | PassAction
  | FoldAction
  | SettleAction
  | RotateTurnAction
  | TableLockAction
  | TableCloseAction
  | TimeoutAction (default_consequence : ActionType) (silenced_seat : Seat)
  | RecoveryAction (recovery_trigger : string).

Record SignedAction := mkSignedAction {
  act_base : SignedActionBase;
  payload : ActionPayload
}.

Definition action_type (a : SignedAction) : ActionType :=
  match payload a with
  | JoinAction _ _ => Join
  | EntropyCommitAction _ => EntropyCommit
  | EntropyRevealAction _ => EntropyReveal
  | CardRevealAction _ => CardReveal
  | DealConcealedAction _ => DealConcealed
  | BetAction_ _ => BetAction
  | PassAction => Pass
  | FoldAction => Fold
  | SettleAction => Settle
  | RotateTurnAction => RotateTurn
  | TableLockAction => TableLock
  | TableCloseAction => TableClose
  | TimeoutAction _ _ => Timeout
  | RecoveryAction _ => Recovery
  end.

(** ** Round state *)

(** State classes. *)
Inductive StateClass : Type :=
  | S0_TABLE_OPEN
  | S1_SEAT_OPEN
  | S2_TABLE_LOCKED
  | S3_ENTROPY_COMMIT_WINDOW
  | S4_ENTROPY_REVEAL_WINDOW
  | S5_DECK_COMMITTED
  | S6_CARD_REVEAL_FIRST
  | S7_CARD_REVEAL_SECOND
  | S8_BET_DECISION
  | S9_CARD_REVEAL_THIRD
  | S10_SETTLED_ROUND
  | S11_ROTATE_TURN
  | S12_TABLE_CLOSE
  | RECOVERED.

#[global] Instance StateClass_eq_dec : EqDecision StateClass.
Proof. solve_decision. Defined.

Definition StateClass_string (x : StateClass) : string :=
  match x with
  | S0_TABLE_OPEN => "S0_TABLE_OPEN"
  | S1_SEAT_OPEN => "S1_SEAT_OPEN"
  | S2_TABLE_LOCKED => "S2_TABLE_LOCKED"
  | S3_ENTROPY_COMMIT_WINDOW => "S3_ENTROPY_COMMIT_WINDOW"
  | S4_ENTROPY_REVEAL_WINDOW => "S4_ENTROPY_REVEAL_WINDOW"
  | S5_DECK_COMMITTED => "S5_DECK_COMMITTED"
  | S6_CARD_REVEAL_FIRST => "S6_CARD_REVEAL_FIRST"
  | S7_CARD_REVEAL_SECOND => "S7_CARD_REVEAL_SECOND"
  | S8_BET_DECISION => "S8_BET_DECISION"
  | S9_CARD_REVEAL_THIRD => "S9_CARD_REVEAL_THIRD"
  | S10_SETTLED_ROUND => "S10_SETTLED_ROUND"
  | S11_ROTATE_TURN => "S11_ROTATE_TURN"
  | S12_TABLE_CLOSE => "S12_TABLE_CLOSE"
  | RECOVERED => "RECOVERED"
  end.

(** The canonical state object. *)
Record RoundState := mkRoundState {
  state_class : StateClass;
  game_id : GameId;
  rule_set_hash : RuleSetHash;
  round_number : RoundNumber;
  acting_player_seat : option Seat;
  players : list PlayerState;
  pot_value : Satoshis;
  visible_cards : list RevealedCard;
  hidden_commitment_refs : list Hash256;
  allowed_actions : list ActionType;
  decision_deadline_block_height : option BlockHeight;
  recovery_deadline_block_height : option BlockHeight;
  successor_template_hashes : list Hash256;
  combined_entropy : option Hash256;
  deck_commitment_hash : option Hash256;
  concealed_deck : option (list ConcealedCard);
  prior_state_hash : option Hash256;
  state_hash : Hash256
}.

Definition set_state_class (v : StateClass) (s : RoundState) : RoundState :=
  mkRoundState v (game_id s) (rule_set_hash s) (round_number s) (acting_player_seat s)
    (players s) (pot_value s) (visible_cards s) (hidden_commitment_refs s)
    (allowed_actions s) (decision_deadline_block_height s)
    (recovery_deadline_block_height s) (successor_template_hashes s)
    (combined_entropy s) (deck_commitment_hash s) (concealed_deck s)
    (prior_state_hash s) (state_hash s).

Definition set_round_number (v : RoundNumber) (s : RoundState) : RoundState :=
  mkRoundState (state_class s) (game_id s) (rule_set_hash s) v (acting_player_seat s)
    (players s) (pot_value s) (visible_cards s) (hidden_commitment_refs s)
    (allowed_actions s) (decision_deadline_block_height s)
    (recovery_deadline_block_height s) (successor_template_hashes s)
    (combined_entropy s) (deck_commitment_hash s) (concealed_deck s)
    (prior_state_hash s) (state_hash s).

Definition set_acting_player_seat (v : option Seat) (s : RoundState) : RoundState :=
  mkRoundState (state_class s) (game_id s) (rule_set_hash s) (round_number s) v
    (players s) (pot_value s) (visible_cards s) (hidden_commitment_refs s)
    (allowed_actions s) (decision_deadline_block_height s)
    (recovery_deadline_block_height s) (successor_template_hashes s)
    (combined_entropy s) (deck_commitment_hash s) (concealed_deck s)
    (prior_state_hash s) (state_hash s).

Definition set_players (v : list PlayerState) (s : RoundState) : RoundState :=
  mkRoundState (state_class s) (game_id s) (rule_set_hash s) (round_number s)
    (acting_player_seat s) v (pot_value s) (visible_cards s) (hidden_commitment_refs s)
    (allowed_actions s) (decision_deadline_block_height s)
    (recovery_deadline_block_height s) (successor_template_hashes s)
    (combined_entropy s) (deck_commitment_hash s) (concealed_deck s)
    (prior_state_hash s) (state_hash s).

Definition set_pot_value (v : Satoshis) (s : RoundState) : RoundState :=
  mkRoundState (state_class s) (game_id s) (rule_set_hash s) (round_number s)
    (acting_player_seat s) (players s) v (visible_cards s) (hidden_commitment_refs s)
    (allowed_actions s) (decision_deadline_block_height s)
    (recovery_deadline_block_height s) (successor_template_hashes s)
    (combined_entropy s) (deck_commitment_hash s) (concealed_deck s)
    (prior_state_hash s) (state_hash s).

Definition set_visible_cards (v : list RevealedCard) (s : RoundState) : RoundState :=
  mkRoundState (state_class s) (game_id s) (rule_set_hash s) (round_number s)
    (acting_player_seat s) (players s) (pot_value s) v (hidden_commitment_refs s)
    (allowed_actions s) (decision_deadline_block_height s)
    (recovery_deadline_block_height s) (successor_template_hashes s)
    (combined_entropy s) (deck_commitment_hash s) (concealed_deck s)
    (prior_state_hash s) (state_hash s).

Definition set_allowed_actions (v : list ActionType) (s : RoundState) : RoundState :=
  mkRoundState (state_class s) (game_id s) (rule_set_hash s) (round_number s)
    (acting_player_seat s) (players s) (pot_value s) (visible_cards s)
    (hidden_commitment_refs s) v (decision_deadline_block_height s)
    (recovery_deadline_block_height s) (successor_template_hashes s)
    (combined_entropy s) (deck_commitment_hash s) (concealed_deck s)
    (prior_state_hash s) (state_hash s).

Definition set_combined_entropy (v : option Hash256) (s : RoundState) : RoundState :=
  mkRoundState (state_class s) (game_id s) (rule_set_hash s) (round_number s)
    (acting_player_seat s) (players s) (pot_value s) (visible_cards s)
    (hidden_commitment_refs s) (allowed_actions s) (decision_deadline_block_height s)
    (recovery_deadline_block_height s) (successor_template_hashes s) v
    (deck_commitment_hash s) (concealed_deck s) (prior_state_hash s) (state_hash s).

Definition set_deck_commitment_hash (v : option Hash256) (s : RoundState) : RoundState :=
  mkRoundState (state_class s) (game_id s) (rule_set_hash s) (round_number s)
    (acting_player_seat s) (players s) (pot_value s) (visible_cards s)
    (hidden_commitment_refs s) (allowed_actions s) (decision_deadline_block_height s)
    (recovery_deadline_block_height s) (successor_template_hashes s)
    (combined_entropy s) v (concealed_deck s) (prior_state_hash s) (state_hash s).

Definition set_concealed_deck (v : option (list ConcealedCard)) (s : RoundState) : RoundState :=
  mkRoundState (state_class s) (game_id s) (rule_set_hash s) (round_number s)
    (acting_player_seat s) (players s) (pot_value s) (visible_cards s)
    (hidden_commitment_refs s) (allowed_actions s) (decision_deadline_block_height s)
    (recovery_deadline_block_height s) (successor_template_hashes s)
    (combined_entropy s) (deck_commitment_hash s) v (prior_state_hash s) (state_hash s).

Definition set_prior_state_hash (v : option Hash256) (s : RoundState) : RoundState :=
  mkRoundState (state_class s) (game_id s) (rule_set_hash s) (round_number s)
    (acting_player_seat s) (players s) (pot_value s) (visible_cards s)
    (hidden_commitment_refs s) (allowed_actions s) (decision_deadline_block_height s)
    (recovery_deadline_block_height s) (successor_template_hashes s)
    (combined_entropy s) (deck_commitment_hash s) (concealed_deck s) v (state_hash s).

Definition set_state_hash (v : Hash256) (s : RoundState) : RoundState :=
  mkRoundState (state_class s) (game_id s) (rule_set_hash s) (round_number s)
    (acting_player_seat s) (players s) (pot_value s) (visible_cards s)
    (hidden_commitment_refs s) (allowed_actions s) (decision_deadline_block_height s)
    (recovery_deadline_block_height s) (successor_template_hashes s)
    (combined_entropy s) (deck_commitment_hash s) (concealed_deck s)
    (prior_state_hash s) v.

(** A forward pipe, to write [{ ...state, a: x, b: y }] as a sequence of setters. *)
Notation "s |> f" := (f s) (at level 62, left associativity, only parsing).

(** Lifecycle of a [GameInstance]. *)
Inductive LifecycleStatus : Type :=
  | ls_open
  | ls_locked
  | ls_shuffling
  | ls_dealing
  | ls_active
  | ls_settling
  | ls_closed
  | ls_recovered.

#[global] Instance LifecycleStatus_eq_dec : EqDecision LifecycleStatus.
Proof. solve_decision. Defined.

Definition LifecycleStatus_string (x : LifecycleStatus) : string :=
  match x with
  | ls_open => "open"
  | ls_locked => "locked"
  | ls_shuffling => "shuffling"
  | ls_dealing => "dealing"
  | ls_active => "active"
  | ls_settling => "settling"
  | ls_closed => "closed"
  | ls_recovered => "recovered"
  end.

(** The session aggregate indexers keep. *)
Record GameInstance := mkGameInstance {
  gi_game_id : GameId;
  gi_rule_set_hash : RuleSetHash;
  player_list : list PlayerState;
  turn_order : list Seat;
  current_round_number : RoundNumber;
  current_state_hash : Hash256;
  lifecycle_status : LifecycleStatus
}.

(** ** Settlement *)

(** Outcome classes of a round. *)
Inductive SettlementOutcome : Type :=
  | win
  | loss
  | pass
  | consecutive_penalty
  | equal_penalty.

#[global] Instance SettlementOutcome_eq_dec : EqDecision SettlementOutcome.
Proof. solve_decision. Defined.

Definition SettlementOutcome_string (x : SettlementOutcome) : string :=
  match x with
  | win => "win"
  | loss => "loss"
  | pass => "pass"
  | consecutive_penalty => "consecutive_penalty"
  | equal_penalty => "equal_penalty"
  end.

(** What [computeSettlement] reports. *)
Record SettlementResult := mkSettlementResult {
  round_state_hash : Hash256;
  outcome : SettlementOutcome;
  sr_bet_amount : Satoshis;
  sr_acting_player_seat : Seat;
  amount_won_or_lost : Satoshis;
  resulting_pot_value : Satoshis;
  resulting_balances : list Satoshis
}.

(** One row of a recovery record. *)
Record RecoveryDistribution := mkRecoveryDistribution {
  rd_seat : Seat;
  refund_sats : Satoshis;
  penalty_paid_sats : Satoshis;
  penalty_received_sats : Satoshis
}.

(** Effect of a recovery action. *)
Record RecoveryRecord := mkRecoveryRecord {
  stalled_state_hash : Hash256;
  rr_recovery_trigger : string;
  final_distribution : list RecoveryDistribution;
  penalty_burnt_sats : Satoshis
}.

(** ** Objects used as maps *)

(** [obj[k]] *)
Fixpoint obj_get (m : StringMap) (k : string) : option string :=
  match m with
  | [] => None
  | (k', v) :: m => if decide (k' = k) then Some v else obj_get m k
  end.

(** [obj[k] = v]: a new property goes last; assigning a string to [__proto__] does
    nothing. *)
Definition obj_set (m : StringMap) (k v : string) : StringMap :=
  if decide (k = "__proto__") then m
  else if decide (k ∈ m.*1)
  then map (λ p, if decide (p.1 = k) then (k, v) else p) m
  else m ++ [(k, v)].

(** [Object.keys(obj)], up to order *)
Definition obj_keys (m : StringMap) : list string := m.*1.

(** ** Lemmas on indices *)

Lemma findIndex_spec {A} (p : A → bool) (l : list A) :
  match list_find (λ x, p x = true) l with
  | Some (i, _) => findIndex p l = Z.of_nat i
  | None => findIndex p l = -1
  end.
Proof.
  induction l as [|x l IH]; [done|]. cbn [findIndex list_find].
  destruct (p x) eqn:E.
  - by rewrite decide_True.
  - rewrite decide_False by done.
    destruct (list_find _ l) as [[i y]|]; cbn [fmap option_fmap option_map];
      rewrite IH; simpl; repeat case_match; lia.
Qed.

Lemma findIndex_Some {A} (p : A → bool) (l : list A) :
  0 ≤ findIndex p l →
  ∃ x, at_index l (findIndex p l) = Some x ∧ p x = true
       ∧ l !! Z.to_nat (findIndex p l) = Some x.
Proof.
  pose proof (findIndex_spec p l) as H. destruct (list_find _ l) as [[i x]|] eqn:E.
  - rewrite H. intros _. apply list_find_Some in E as (E & Hp & _).
    exists x. unfold at_index. rewrite (proj2 (Z.ltb_ge _ _)) by lia.
    by rewrite Nat2Z.id.
  - rewrite H. lia.
Qed.

Lemma findIndex_None {A} (p : A → bool) (l : list A) :
  findIndex p l < 0 ↔ Forall (λ x, p x = false) l.
Proof.
  pose proof (findIndex_spec p l) as H. destruct (list_find _ l) as [[i x]|] eqn:E.
  - rewrite H. split; [lia|]. intros F. apply list_find_Some in E as (E & Hp & _).
    rewrite Forall_lookup in F. apply F in E. congruence.
  - rewrite H. split; [|lia]. intros _. apply list_find_None in E.
    eapply Forall_impl; [|exact E]. intros x Hx. by apply not_true_is_false.
Qed.

(** ** Maps: sorting, permutation, insertion *)

Definition canonical_map (m : StringMap) : StringMap :=
  (λ k, (k, default EmptyString (obj_get m k))) <$> js_sort (obj_keys m).

Lemma obj_get_elem m k v : NoDup m.*1 → (k, v) ∈ m → obj_get m k = Some v.
Proof.
  induction m as [|[k' v'] m IH]; intros Hnd Hin; [by apply not_elem_of_nil in Hin|].
  cbn [fmap list_fmap fst] in Hnd. apply list.NoDup_cons in Hnd as [Hk Hnd].
  cbn [obj_get]. apply elem_of_cons in Hin as [[= -> ->]|Hin].
  - by rewrite decide_True.
  - rewrite decide_False; [by apply IH|]. intros ->. destruct Hk.
    apply list_elem_of_fmap. by exists (k, v).
Qed.

Lemma obj_get_None m k : obj_get m k = None ↔ k ∉ m.*1.
Proof.
  induction m as [|[k' v'] m IH]; cbn [obj_get fmap list_fmap fst].
  - split; [intros _; apply not_elem_of_nil|done].
  - rewrite not_elem_of_cons. destruct (decide (k' = k)) as [->|]; naive_solver.
Qed.

Lemma obj_get_perm m1 m2 k : NoDup m1.*1 → m1 ≡ₚ m2 → obj_get m1 k = obj_get m2 k.
Proof.
  intros Hnd Hp. assert (Hnd2 : NoDup m2.*1) by (by rewrite <- Hp).
  destruct (obj_get m1 k) as [v|] eqn:E.
  - assert (Hk : k ∈ m1.*1).
    { destruct (decide (k ∈ m1.*1)) as [|Hn]; [done|].
      apply obj_get_None in Hn. congruence. }
    apply list_elem_of_fmap in Hk as ([k' v'] & -> & Hin).
    rewrite (obj_get_elem m1 _ v') in E by done. simplify_eq.
    symmetry. apply obj_get_elem; [done|]. by rewrite <- Hp.
  - apply obj_get_None in E. symmetry. apply obj_get_None. by rewrite <- Hp.
Qed.

Lemma canonical_map_perm m : NoDup m.*1 → canonical_map m ≡ₚ m.
Proof.
  intros Hnd. unfold canonical_map, js_sort, obj_keys.
  rewrite merge_sort_Permutation. rewrite <- list_fmap_compose.
  rewrite <- (list_fmap_id m) at 2.
  match goal with |- ?a ≡ₚ ?b => assert (a = b) as ->; [|done] end.
  apply list_fmap_ext. intros i [k v] Hi. simpl.
  rewrite (obj_get_elem _ _ v); [done..|]. by eapply list_elem_of_lookup_2.
Qed.

Lemma obj_set_new m k v : k ≠ "__proto__" → k ∉ m.*1 → obj_set m k v = m ++ [(k, v)].
Proof. intros. unfold obj_set. by rewrite !decide_False. Qed.

Lemma canonical_map_keys m : (canonical_map m).*1 = js_sort m.*1.
Proof.
  unfold canonical_map, obj_keys. rewrite <- list_fmap_compose.
  rewrite <- (list_fmap_id (js_sort m.*1)) at 2. by apply list_fmap_ext.
Qed.
