(* ===== verification/Codec.v ===== *)
(** * protocol-types: canonical writer and reader

    [packages/protocol-types/src/serialisation.ts].  [CanonicalWriter] keeps its
    growable buffer and offset, [CanonicalReader] its buffer and position; the
    theorems show that the writer implements an append-only byte list and that every
    read method inverts its write method.  [CodecLaw] is the interface composite
    codecs are proved against. *)

From S2P Require Import Prelude Bytes Primitives Types.

Definition MAX_RESERVED_TRAILING : Z := 4096.

(** ** Writer *)

Record CanonicalWriter := mkWriter { wbuf : bytes; woffset : Z }.

Definition new_writer (initialCapacity : Z) : CanonicalWriter :=
  mkWriter (replicate (Z.to_nat initialCapacity) 0) 0.

(** [bytes()]: the first [offset] bytes of the buffer *)
Definition w_bytes (w : CanonicalWriter) : bytes := take (Z.to_nat (woffset w)) (wbuf w).

Definition w_length (w : CanonicalWriter) : Z := woffset w.

(** [while (cap < required) cap *= 2] *)
Fixpoint grow_cap (fuel : nat) (cap required : Z) : js Z :=
  if cap <? required then
    match fuel with
    | O => OutOfFuel
    | S fuel => grow_cap fuel (cap * 2) required
    end
  else Ret cap.

Definition ensure (w : CanonicalWriter) (extra : Z) : js CanonicalWriter :=
  let required := woffset w + extra in
  if required <=? blen (wbuf w) then Ret w
  else
    cap ← grow_cap (Z.to_nat required) (blen (wbuf w) * 2) required;
    Ret (mkWriter (wbuf w ++ replicate (Z.to_nat (cap - blen (wbuf w))) 0) (woffset w)).

(** [this.buf[this.offset++] = v]; an index past the end stores nothing. *)
Definition put (w : CanonicalWriter) (v : Z) : CanonicalWriter :=
  mkWriter (<[Z.to_nat (woffset w) := u8 v]> (wbuf w)) (woffset w + 1).

Definition writeU8 (v : Z) (w : CanonicalWriter) : js CanonicalWriter :=
  if (v <? 0) || (0xff <? v) then Throw ("writeU8: out of range: " +:+ pretty v)
  else
    w ← ensure w 1;
    Ret (put w v).

Definition writeBool (v : bool) (w : CanonicalWriter) : js CanonicalWriter :=
  writeU8 (if v then 0x01 else 0x00) w.

Definition writeU16LE (v : Z) (w : CanonicalWriter) : js CanonicalWriter :=
  if (v <? 0) || (0xffff <? v) then Throw ("writeU16LE: out of range: " +:+ pretty v)
  else
    w ← ensure w 2;
    let w := put w (js_and v 0xff) in
    Ret (put w (js_and (js_shr v 8) 0xff)).

Definition put4 (w : CanonicalWriter) (v : Z) : CanonicalWriter :=
  let w := put w (js_and v 0xff) in
  let w := put w (js_and (js_ushr v 8) 0xff) in
  let w := put w (js_and (js_ushr v 16) 0xff) in
  put w (js_and (js_ushr v 24) 0xff).

Definition writeU32LE (v : Z) (w : CanonicalWriter) : js CanonicalWriter :=
  if (v <? 0) || (0xffffffff <? v) then Throw ("writeU32LE: out of range: " +:+ pretty v)
  else
    w ← ensure w 4;
    Ret (put4 w v).

Definition writeU64LE (v : Z) (w : CanonicalWriter) : js CanonicalWriter :=
  if negb (is_safe_integer v) || (v <? 0)
  then Throw ("writeU64LE: out of range or unsafe: " +:+ pretty v)
  else
    w ← ensure w 8;
    let lo := js_ushr v 0 in
    let hi := js_ushr (v / 0x100000000) 0 in
    Ret (put4 (put4 w lo) hi).

Definition writeI32LE (v : Z) (w : CanonicalWriter) : js CanonicalWriter :=
  if (v <? -0x80000000) || (0x7fffffff <? v)
  then Throw ("writeI32LE: out of range: " +:+ pretty v)
  else writeU32LE (if v <? 0 then v + 0x100000000 else v) w.

Definition writeVarint (n : Z) (w : CanonicalWriter) : js CanonicalWriter :=
  if negb (is_safe_integer n) || (n <? 0)
  then Throw ("writeVarint: out of range: " +:+ pretty n)
  else if n <? 0xfd then writeU8 n w
  else if n <=? 0xffff then w ← writeU8 0xfd w; writeU16LE n w
  else if n <=? 0xffffffff then w ← writeU8 0xfe w; writeU32LE n w
  else w ← writeU8 0xff w; writeU64LE n w.

(** [this.buf.set(data, this.offset)] after [ensure] *)
Definition writeRaw (data : bytes) (w : CanonicalWriter) : js CanonicalWriter :=
  w ← ensure w (blen data);
  let off := Z.to_nat (woffset w) in
  Ret (mkWriter (take off (wbuf w) ++ data ++ drop (off + length data) (wbuf w))
                (woffset w + blen data)).

Definition writeBytes (data : bytes) (w : CanonicalWriter) : js CanonicalWriter :=
  w ← writeVarint (blen data) w;
  writeRaw data w.

Definition writeUtf8 (s : string) (w : CanonicalWriter) : js CanonicalWriter :=
  let enc := text_encode s in
  writeBytes enc w.

(** ** Reader *)

Record CanonicalReader := mkReader { rbuf : bytes; roffset : Z }.

Definition new_reader (data : bytes) : CanonicalReader := mkReader data 0.

Definition r_pos (r : CanonicalReader) : Z := roffset r.
Definition r_remaining (r : CanonicalReader) : Z := blen (rbuf r) - roffset r.

Definition need (r : CanonicalReader) (n : Z) : js unit :=
  throw_if (r_remaining r <? n)
    ("CanonicalReader: short read (need " +:+ pretty n +:+ ", have "
     +:+ pretty (r_remaining r) +:+ ")").

Definition advance (r : CanonicalReader) (n : Z) : CanonicalReader :=
  mkReader (rbuf r) (roffset r + n).

(** [this.buf[this.offset + i]], throwing on [undefined] *)
Definition peek (r : CanonicalReader) (i : Z) : js Z :=
  match at_index (rbuf r) (roffset r + i) with
  | Some v => Ret v
  | None => Throw "CanonicalReader: indexing failure"
  end.

Definition readU8 (r : CanonicalReader) : js (Z * CanonicalReader) :=
  _ ← need r 1;
  v ← peek r 0;
  Ret (v, advance r 1).

Definition readBool (r : CanonicalReader) : js (bool * CanonicalReader) :=
  '(b, r) ← readU8 r;
  if b =? 0 then Ret (false, r)
  else if b =? 1 then Ret (true, r)
  else Throw ("readBool: invalid byte " +:+ pretty b).

Definition readU16LE (r : CanonicalReader) : js (Z * CanonicalReader) :=
  _ ← need r 2;
  a ← peek r 0;
  b ← peek r 1;
  Ret (js_or a (js_shl b 8), advance r 2).

Definition readU32LE (r : CanonicalReader) : js (Z * CanonicalReader) :=
  _ ← need r 4;
  a ← peek r 0;
  b ← peek r 1;
  c ← peek r 2;
  d ← peek r 3;
  Ret (js_ushr (js_or (js_or (js_or a (js_shl b 8)) (js_shl c 16)) (js_shl d 24)) 0,
       advance r 4).

Definition readU64LE (r : CanonicalReader) : js (Z * CanonicalReader) :=
  _ ← need r 8;
  '(lo, r) ← readU32LE r;
  '(hi, r) ← readU32LE r;
  let v := js_add (js_mul hi 0x100000000) lo in
  if negb (is_safe_integer v) then Throw "readU64LE: value exceeds safe integer range"
  else Ret (v, r).

Definition readVarint (r : CanonicalReader) : js (Z * CanonicalReader) :=
  '(b, r) ← readU8 r;
  if b <? 0xfd then Ret (b, r)
  else if b =? 0xfd then readU16LE r
  else if b =? 0xfe then readU32LE r
  else readU64LE r.

Definition readRaw (n : Z) (r : CanonicalReader) : js (bytes * CanonicalReader) :=
  _ ← need r n;
  let slice := take (Z.to_nat n) (drop (Z.to_nat (roffset r)) (rbuf r)) in
  Ret (slice, advance r n).

Definition readBytes (cap : Z) (r : CanonicalReader) : js (bytes * CanonicalReader) :=
  '(n, r) ← readVarint r;
  if cap <? n
  then Throw ("readBytes: declared length " +:+ pretty n +:+ " exceeds cap " +:+ pretty cap)
  else readRaw n r.

Definition readUtf8 (cap : Z) (r : CanonicalReader) : js (string * CanonicalReader) :=
  '(bs, r) ← readBytes cap r;
  s ← text_decode_fatal bs;
  Ret (s, r).

(** ** The writer is an append-only byte list *)

Definition wf_writer (w : CanonicalWriter) : Prop :=
  0 ≤ woffset w ≤ blen (wbuf w) ∧ 0 < blen (wbuf w).

(** [w'] is [w] with [bs] appended, in the same buffer. *)
Definition appended (w w' : CanonicalWriter) (bs : bytes) : Prop :=
  wf_writer w' ∧ w_bytes w' = w_bytes w ++ bs
  ∧ woffset w' = woffset w + blen bs ∧ blen (wbuf w') = blen (wbuf w).

(** [f] appends [enc] where [ok] holds and throws otherwise. *)
Definition write_spec (f : CanonicalWriter → js CanonicalWriter) (ok : bool) (enc : bytes) : Prop :=
  ∀ w, wf_writer w →
    if ok then ∃ w', f w = Ret w' ∧ wf_writer w' ∧ w_bytes w' = w_bytes w ++ enc
    else ∃ msg, f w = Throw msg.

Lemma grow_cap_spec fuel cap required :
  0 < cap → required ≤ cap * 2 ^ Z.of_nat fuel →
  ∃ c, grow_cap fuel cap required = Ret c ∧ required ≤ c ∧ cap ≤ c.
Proof.
  revert cap. induction fuel as [|fuel IH]; intros cap Hcap Hreq; cbn [grow_cap].
  - rewrite (proj2 (Z.ltb_ge _ _)) by lia. exists cap. split_and!; [done|lia|lia].
  - destruct (Z.ltb_spec cap required); [|exists cap; split_and!; [done|lia|lia]].
    destruct (IH (cap * 2)) as (c & Hc & ? & ?); [lia| |].
    + rewrite Nat2Z.inj_succ, Z.pow_succ_r in Hreq; lia.
    + exists c. split_and!; [done|lia|lia].
Qed.

Lemma ensure_spec w extra :
  wf_writer w → 0 ≤ extra →
  ∃ w', ensure w extra = Ret w' ∧ wf_writer w' ∧ w_bytes w' = w_bytes w
        ∧ woffset w' = woffset w ∧ woffset w' + extra ≤ blen (wbuf w').
Proof.
  intros [Hoff Hlen] Hx. unfold ensure. destruct (Z.leb_spec (woffset w + extra) (blen (wbuf w))).
  { exists w. split_and!; try done. }
  destruct (grow_cap_spec (Z.to_nat (woffset w + extra)) (blen (wbuf w) * 2) (woffset w + extra))
    as (c & -> & ? & ?); [lia| |].
  { rewrite Z2Nat.id by lia. pose proof (Z.pow_gt_lin_r 2 (woffset w + extra)). nia. }
  eexists. split; [done|]. unfold wf_writer, w_bytes, blen in *. cbn [wbuf woffset].
  rewrite length_app, length_replicate, take_app_le by lia.
  split_and!; try done; lia.
Qed.

Lemma put_appended w v :
  wf_writer w → woffset w + 1 ≤ blen (wbuf w) → appended w (put w v) [u8 v].
Proof.
  unfold appended, wf_writer, w_bytes, put, blen. cbn [wbuf woffset length].
  intros [??] ?. rewrite length_insert. split_and!; try lia; try done.
  replace (Z.to_nat (woffset w + 1)) with (S (Z.to_nat (woffset w))) by lia.
  rewrite (take_S_r _ _ (u8 v)).
  - f_equal. apply take_insert_ge. lia.
  - apply list_lookup_insert_eq. lia.
Qed.

Lemma appended_trans w1 w2 w3 a b :
  appended w1 w2 a → appended w2 w3 b → appended w1 w3 (a ++ b).
Proof.
  intros (?&Ha&?&?) (?&Hb&?&?). unfold appended, blen in *.
  rewrite Hb, Ha, length_app, <- app_assoc. split_and!; try done; lia.
Qed.

Lemma puts_appended w bs :
  wf_writer w → woffset w + blen bs ≤ blen (wbuf w) →
  appended w (foldl put w bs) (u8 <$> bs).
Proof.
  revert w. induction bs as [|b bs IH]; intros w Hwf Hroom.
  { unfold appended, blen. cbn. rewrite app_nil_r. split_and!; try done; lia. }
  assert (Hp : appended w (put w b) [u8 b]).
  { apply put_appended; [done|]. unfold blen in *. cbn [length] in Hroom. lia. }
  change (u8 <$> b :: bs) with ([u8 b] ++ (u8 <$> bs)).
  eapply appended_trans; [exact Hp|]. destruct Hp as (?&?&Ho&Hl).
  apply IH; [done|]. unfold blen in *. cbn [length] in *. lia.
Qed.

Lemma put4_bytes v :
  u8 <$> [js_and v 0xff; js_and (js_ushr v 8) 0xff;
          js_and (js_ushr v 16) 0xff; js_and (js_ushr v 24) 0xff] = le_bytes 4 v.
Proof.
  unfold u8. cbn [fmap list_fmap le_bytes].
  rewrite js_and_ff, !js_ushr_and, !Z.mod_mod, !Z.div_div by lia. done.
Qed.

Lemma put4_appended w v :
  wf_writer w → woffset w + 4 ≤ blen (wbuf w) → appended w (put4 w v) (le_bytes 4 v).
Proof. intros. rewrite <- put4_bytes. by apply (puts_appended w [_; _; _; _]). Qed.

(** A guarded sequence of stores appends the stored bytes. *)
Lemma guarded_write (c : bool) msg (n : Z) (puts : CanonicalWriter → CanonicalWriter) enc :
  0 ≤ n →
  (c = false → ∀ w, wf_writer w → woffset w + n ≤ blen (wbuf w) →
                    appended w (puts w) enc) →
  write_spec (λ w, if c then Throw msg else w ← ensure w n; Ret (puts w)) (negb c) enc.
Proof.
  intros Hn Hputs w Hwf. destruct c; simpl; [by eexists|].
  destruct (ensure_spec w n) as (w1 & -> & Hwf1 & Hb & Ho & Hroom); [done..|].
  destruct (Hputs eq_refl w1) as (?&?&?&?); [done..|].
  simpl. eexists. split_and!; [done..|]. by rewrite <- Hb.
Qed.

Lemma write_seq f g ok1 ok2 a b :
  write_spec f ok1 a → write_spec g ok2 b →
  write_spec (λ w, w ← f w; g w) (ok1 && ok2) (a ++ b).
Proof.
  intros Hf Hg w Hwf. specialize (Hf w Hwf). destruct ok1; simpl.
  - destruct Hf as (w1 & -> & Hwf1 & Hb1). specialize (Hg w1 Hwf1). simpl.
    destruct ok2; [|done]. destruct Hg as (w2 & -> & Hwf2 & Hb2).
    eexists. split_and!; [done..|]. by rewrite Hb2, Hb1, <- app_assoc.
  - destruct Hf as (msg & ->). by eexists.
Qed.

Lemma write_ext f g ok ok' enc enc' :
  write_spec f ok enc → (∀ w, g w = f w) → ok' = ok → enc' = enc → write_spec g ok' enc'.
Proof. intros H E -> -> w Hwf. rewrite E. by apply H. Qed.

Lemma write_nil : write_spec Ret true [].
Proof. intros w Hwf. exists w. by rewrite app_nil_r. Qed.

Definition u8_ok (v : Z) : bool := between 0 0xff v.
Definition u16_ok (v : Z) : bool := between 0 0xffff v.
Definition u32_ok (v : Z) : bool := between 0 0xffffffff v.
Definition u64_ok (v : Z) : bool := is_safe_integer v && (0 <=? v).
Definition i32_ok (v : Z) : bool := between (-0x80000000) 0x7fffffff v.

Lemma between_negb lo hi v : between lo hi v = negb ((v <? lo) || (hi <? v)).
Proof. unfold between. rewrite !Z.ltb_antisym, negb_orb, !negb_involutive. done. Qed.

Lemma between_spec lo hi v : between lo hi v = true ↔ lo ≤ v ≤ hi.
Proof. unfold between. rewrite andb_true_iff, !Z.leb_le. done. Qed.

Lemma u64_ok_spec v : u64_ok v = true ↔ 0 ≤ v < 2 ^ 53.
Proof. unfold u64_ok. rewrite andb_true_iff, is_safe_integer_spec, Z.leb_le. lia. Qed.

Lemma ranged lo hi v : (v <? lo) || (hi <? v) = false → lo ≤ v ≤ hi.
Proof. rewrite orb_false_iff, !Z.ltb_ge. lia. Qed.

Lemma writeU8_spec v : write_spec (writeU8 v) (u8_ok v) [v].
Proof.
  unfold u8_ok. rewrite between_negb. apply guarded_write; [done|].
  intros H%ranged w Hwf Hroom. pose proof (put_appended w v Hwf Hroom) as H'.
  unfold u8 in H'. by rewrite Z.mod_small in H' by lia.
Qed.

Lemma writeBool_spec b : write_spec (writeBool b) true [if b then 1 else 0].
Proof. destruct b; apply writeU8_spec. Qed.

Lemma writeU16LE_spec v : write_spec (writeU16LE v) (u16_ok v) (le_bytes 2 v).
Proof.
  unfold u16_ok. rewrite between_negb. apply (guarded_write _ _ 2
    (λ w, put (put w (js_and v 0xff)) (js_and (js_shr v 8) 0xff))); [done|].
  intros H%ranged w Hwf Hroom.
  assert (le_bytes 2 v = u8 <$> [js_and v 0xff; js_and (js_shr v 8) 0xff]) as ->.
  { unfold u8. cbn [fmap list_fmap le_bytes].
    by rewrite js_and_ff, js_shr_and, !Z.mod_mod by lia. }
  by apply (puts_appended w [_; _]).
Qed.

Lemma writeU32LE_spec v : write_spec (writeU32LE v) (u32_ok v) (le_bytes 4 v).
Proof.
  unfold u32_ok. rewrite between_negb. apply (guarded_write _ _ 4 (λ w, put4 w v)); [done|].
  intros _ w Hwf Hroom. by apply put4_appended.
Qed.

Lemma le_bytes_mod n z : le_bytes n (z mod 256 ^ Z.of_nat n) = le_bytes n z.
Proof.
  rewrite <- (le_val_le_bytes n z).
  rewrite <- (length_le_bytes n z) at 1. apply le_bytes_le_val, le_bytes_byte.
Qed.

Lemma writeU64LE_spec v : write_spec (writeU64LE v) (u64_ok v) (le_bytes 8 v).
Proof.
  assert (u64_ok v = negb (negb (is_safe_integer v) || (v <? 0))) as ->.
  { unfold u64_ok. by rewrite negb_orb, negb_involutive, Z.ltb_antisym, negb_involutive. }
  apply (guarded_write _ _ 8
    (λ w, put4 (put4 w (js_ushr v 0)) (js_ushr (v / 0x100000000) 0))); [done|].
  intros _ w Hwf Hroom.
  rewrite (le_bytes_app 4 4), <- (le_bytes_mod 4 v), <- (le_bytes_mod 4 (v / _)).
  assert (∀ z, js_ushr z 0 = z mod 256 ^ Z.of_nat 4) as E.
  { intros. unfold js_ushr. by rewrite Z.shiftr_0_r. }
  rewrite !E. pose proof (put4_appended w (v mod 256 ^ Z.of_nat 4) Hwf) as H1.
  eapply appended_trans; [apply H1; lia|].
  destruct H1 as (?&?&Ho&Hl); [lia|].
  apply put4_appended; [done|]. unfold blen in Ho. rewrite length_le_bytes in Ho.
  cbv beta. rewrite Hl, Ho. lia.
Qed.

Lemma writeI32LE_spec v : write_spec (writeI32LE v) (i32_ok v) (le_bytes 4 v).
Proof.
  unfold i32_ok. rewrite between_negb. intros w Hwf. unfold writeI32LE.
  destruct (_ || _) eqn:E; cbn [negb]; [by eexists|]. apply ranged in E.
  pose proof (writeU32LE_spec (if v <? 0 then v + 0x100000000 else v) w Hwf) as H.
  rewrite <- (le_bytes_mod 4 v).
  assert ((if v <? 0 then v + 0x100000000 else v) = v mod 256 ^ Z.of_nat 4) as <-.
  { change (256 ^ Z.of_nat 4) with (2 ^ 32). destruct (Z.ltb_spec v 0).
    - apply (Z.mod_unique_pos _ _ (-1)); lia.
    - rewrite Z.mod_small; lia. }
  replace (u32_ok _) with true in H; [done|].
  symmetry. apply between_spec. destruct (Z.ltb_spec v 0); lia.
Qed.

Definition varint_enc (n : Z) : bytes :=
  if n <? 0xfd then [n]
  else if n <=? 0xffff then 0xfd :: le_bytes 2 n
  else if n <=? 0xffffffff then 0xfe :: le_bytes 4 n
  else 0xff :: le_bytes 8 n.

Lemma writeVarint_spec n : write_spec (writeVarint n) (u64_ok n) (varint_enc n).
Proof.
  intros w Hwf. unfold writeVarint, varint_enc.
  destruct (u64_ok n) eqn:HU; pose proof HU as Hok; unfold u64_ok in Hok.
  - apply andb_true_iff in Hok as Hok'. destruct Hok' as [Hs Hp%Z.leb_le].
    rewrite Hs, (proj2 (Z.ltb_ge n 0)) by lia. cbn [negb orb].
    destruct (Z.ltb_spec n 0xfd).
    { pose proof (writeU8_spec n w Hwf) as H0.
      unfold u8_ok in H0. by rewrite (proj2 (between_spec 0 255 n)) in H0 by lia. }
    destruct (Z.leb_spec n 0xffff).
    { pose proof (write_seq _ _ _ _ _ _ (writeU8_spec 0xfd) (writeU16LE_spec n) w Hwf) as HW.
      unfold u16_ok in HW. by rewrite (proj2 (between_spec 0 0xffff n)) in HW by lia. }
    destruct (Z.leb_spec n 0xffffffff).
    { pose proof (write_seq _ _ _ _ _ _ (writeU8_spec 0xfe) (writeU32LE_spec n) w Hwf) as HW.
      unfold u32_ok in HW. by rewrite (proj2 (between_spec 0 0xffffffff n)) in HW by lia. }
    pose proof (write_seq _ _ _ _ _ _ (writeU8_spec 0xff) (writeU64LE_spec n) w Hwf) as HW.
    by rewrite HU in HW.
  - rewrite Z.leb_antisym in Hok.
    assert (negb (is_safe_integer n) || (n <? 0) = true) as ->; [|by eexists].
    by destruct (is_safe_integer n), (n <? 0).
Qed.

Lemma writeRaw_spec data : write_spec (writeRaw data) true data.
Proof.
  intros w Hwf. unfold writeRaw.
  destruct (ensure_spec w (blen data)) as (w1 & -> & [? ?] & Hb & Ho & Hroom);
    [done|unfold blen; lia|].
  simpl. eexists. split; [done|]. rewrite <- Hb.
  unfold wf_writer, w_bytes, blen in *. cbn [wbuf woffset].
  rewrite !length_app, length_take, length_drop.
  split_and!; try lia.
  rewrite Z2Nat.inj_add, Nat2Z.id by lia.
  rewrite app_assoc, take_app_le, take_ge; [done| |]; rewrite length_app, length_take; lia.
Qed.

Lemma writeBytes_spec data :
  write_spec (writeBytes data) (u64_ok (blen data)) (varint_enc (blen data) ++ data).
Proof.
  eapply write_ext; [apply (write_seq _ _ _ _ _ _ (writeVarint_spec (blen data)) (writeRaw_spec data))|..];
    [done|by rewrite andb_true_r|done].
Qed.

Lemma writeUtf8_spec s :
  write_spec (writeUtf8 s) (u64_ok (blen (text_encode s)))
    (varint_enc (blen (text_encode s)) ++ text_encode s).
Proof. apply writeBytes_spec. Qed.

(** The specifications of the write methods, for composite encoders *)
Create HintDb writes.
#[export] Hint Resolve writeU8_spec writeBool_spec writeU16LE_spec writeU32LE_spec
  writeU64LE_spec writeI32LE_spec writeVarint_spec writeRaw_spec writeBytes_spec
  writeUtf8_spec write_nil : writes.

(** ** The reader consumes what the writer produced *)

Definition wf_reader (r : CanonicalReader) : Prop := 0 ≤ roffset r ≤ blen (rbuf r).

(** The bytes not yet consumed. *)
Definition rem (r : CanonicalReader) : bytes := drop (Z.to_nat (roffset r)) (rbuf r).

(** Positioned at [enc], [f] returns [v] and stops just behind it. *)
Definition reads {A} (f : CanonicalReader → js (A * CanonicalReader)) (enc : bytes) (v : A) : Prop :=
  ∀ r rest, wf_reader r → rem r = enc ++ rest → f r = Ret (v, advance r (blen enc)).

Lemma blen_rem r : wf_reader r → blen (rem r) = r_remaining r.
Proof.
  unfold wf_reader, blen, rem, r_remaining, blen. rewrite length_drop. lia.
Qed.

Lemma need_Ret r n : wf_reader r → n ≤ blen (rem r) → need r n = Ret tt.
Proof.
  intros Hwf H. rewrite blen_rem in H by done. unfold need, throw_if.
  by rewrite (proj2 (Z.ltb_ge _ _)) by lia.
Qed.

Lemma peek_Ret r i v :
  wf_reader r → 0 ≤ i → rem r !! Z.to_nat i = Some v → peek r i = Ret v.
Proof.
  unfold wf_reader, rem, peek, at_index. rewrite lookup_drop. intros ?? H.
  rewrite (proj2 (Z.ltb_ge _ _)), Z2Nat.inj_add by lia. by rewrite H.
Qed.

Lemma advance_wf r n :
  wf_reader r → 0 ≤ n ≤ blen (rem r) → wf_reader (advance r n).
Proof.
  intros Hwf H. rewrite blen_rem in H by done.
  unfold wf_reader, advance, r_remaining in *. cbn [rbuf roffset]. lia.
Qed.

Lemma rem_advance r n : wf_reader r → 0 ≤ n → rem (advance r n) = drop (Z.to_nat n) (rem r).
Proof.
  unfold wf_reader, advance, rem. cbn [rbuf roffset]. intros. rewrite drop_drop.
  f_equal. lia.
Qed.

Lemma advance_advance r a b : advance (advance r a) b = advance r (a + b).
Proof. unfold advance. cbn [rbuf roffset]. by rewrite Z.add_assoc. Qed.

Lemma advance_over r enc rest :
  wf_reader r → rem r = enc ++ rest →
  wf_reader (advance r (blen enc)) ∧ rem (advance r (blen enc)) = rest.
Proof.
  intros Hwf Hrem. pose proof (blen_nonneg enc). pose proof (blen_nonneg rest). split.
  - apply advance_wf; [done|]. rewrite Hrem, blen_app. lia.
  - rewrite rem_advance, Hrem by done. unfold blen. rewrite Nat2Z.id. apply drop_app_length.
Qed.

(** A fixed-width read: enough bytes, then the peeks, then the advance. *)
Lemma reads_fixed {A} (f : CanonicalReader → js (A * CanonicalReader)) enc v :
  (∀ r rest, wf_reader r → rem r = enc ++ rest →
     f r = (_ ← need r (blen enc); Ret (v, advance r (blen enc)))) →
  reads f enc v.
Proof.
  intros Hf r rest Hwf Hrem. rewrite (Hf r rest) by done.
  rewrite need_Ret; [done..|]. rewrite Hrem, blen_app. pose proof (blen_nonneg rest). lia.
Qed.

Lemma reads_bind {A B} (f : CanonicalReader → js (A * CanonicalReader))
    (k : A → CanonicalReader → js (B * CanonicalReader)) a b x y :
  reads f a x → reads (k x) b y → reads (λ r, '(v, r) ← f r; k v r) (a ++ b) y.
Proof.
  intros Hf Hk r rest Hwf Hrem. rewrite <- app_assoc in Hrem.
  rewrite (Hf r _ Hwf Hrem). simpl.
  destruct (advance_over r a (b ++ rest)) as [Hwf1 Hrem1]; [done..|].
  by rewrite (Hk _ _ Hwf1 Hrem1), advance_advance, blen_app.
Qed.

Lemma reads_ret {A} (v : A) : reads (λ r, Ret (v, r)) [] v.
Proof. intros [buf off] rest Hwf Hrem. unfold advance. simpl. by rewrite Z.add_0_r. Qed.

Lemma reads_ext {A} (f g : CanonicalReader → js (A * CanonicalReader)) enc enc' v :
  reads f enc v → (∀ r, g r = f r) → enc' = enc → reads g enc' v.
Proof. intros H E -> r rest. rewrite E. apply H. Qed.

Lemma readU8_reads v : reads readU8 [v] v.
Proof.
  apply reads_fixed. intros r rest Hwf Hrem. unfold readU8.
  by rewrite (peek_Ret r 0 v) by (rewrite ?Hrem; done).
Qed.

Lemma readBool_reads (b : bool) : reads readBool [if b then 1 else 0] b.
Proof.
  intros r rest Hwf Hrem. unfold readBool.
  rewrite (readU8_reads _ r rest Hwf Hrem). by destruct b.
Qed.

Lemma to_int32_small z : 0 ≤ z < 2 ^ 31 → to_int32 z = z.
Proof.
  intros. unfold to_int32. rewrite Z.mod_small by lia.
  by rewrite (proj2 (Z.ltb_lt _ _)) by lia.
Qed.

Lemma readU16LE_reads v : 0 ≤ v < 2 ^ 16 → reads readU16LE (le_bytes 2 v) v.
Proof.
  intros Hv. apply reads_fixed. intros r rest Hwf Hrem. unfold readU16LE.
  rewrite (peek_Ret r 0 (v mod 256)), (peek_Ret r 1 ((v / 256) mod 256))
    by (rewrite ?Hrem; done).
  cbn [mbind js_bind].
  assert (js_or (v mod 256) (js_shl ((v / 256) mod 256) 8) = v) as ->; [|done].
  pose proof (Z.mod_pos_bound v 256). pose proof (Z.div_mod v 256).
  assert (0 ≤ v / 256 < 256)
    by (split; [apply Z.div_pos|apply Z.div_lt_upper_bound]; lia).
  unfold js_or, js_shl. rewrite (Z.mod_small (v / 256)) by lia.
  rewrite (to_int32_small (v / 256)), (to_int32_small (v mod 256)) by lia.
  change (8 mod 32) with 8.
  assert (to_int32 (Z.shiftl (v / 256) 8) = Z.shiftl (v / 256) 8) as E.
  { apply to_int32_small. rewrite Z.shiftl_mul_pow2 by lia. lia. }
  rewrite !E, lor_shift by lia. lia.
Qed.

(** [(a | b << 8 | c << 16 | d << 24) >>> 0] is the little-endian value. *)
Lemma le_assemble a b c d :
  is_byte a → is_byte b → is_byte c → is_byte d →
  js_ushr (js_or (js_or (js_or a (js_shl b 8)) (js_shl c 16)) (js_shl d 24)) 0
  = le_val [a; b; c; d].
Proof.
  unfold is_byte. intros Ha Hb Hc Hd. unfold js_ushr, to_uint32.
  rewrite Z.shiftr_0_r, !js_or_mod, !js_shl_mod by lia.
  rewrite (Z.mod_small a), (Z.mod_small (b * _)), (Z.mod_small (c * _)),
    (Z.mod_small (d * _)) by lia.
  rewrite <- !Z.shiftl_mul_pow2 by lia.
  rewrite (lor_shift a), (lor_shift (a + _)), (lor_shift (a + _ + _)) by lia.
  cbn [le_val]. lia.
Qed.

Lemma readU32LE_reads_val bs :
  length bs = 4%nat → Forall is_byte bs → reads readU32LE bs (le_val bs).
Proof.
  destruct bs as [|a [|b [|c [|d [|]]]]]; try done. intros _ H.
  apply reads_fixed. intros r rest Hwf Hrem. unfold readU32LE.
  rewrite (peek_Ret r 0 a), (peek_Ret r 1 b), (peek_Ret r 2 c), (peek_Ret r 3 d)
    by (rewrite ?Hrem; done).
  cbn [mbind js_bind]. decompose_Forall. by rewrite le_assemble.
Qed.

Lemma readU32LE_reads v : 0 ≤ v < 2 ^ 32 → reads readU32LE (le_bytes 4 v) v.
Proof.
  intros Hv. rewrite <- (le_val_le_bytes_small 4 v) at 2 by done.
  apply readU32LE_reads_val; [done|apply le_bytes_byte].
Qed.

(** [hi * 2^32] has at most 32 significant bits: the product is exact. *)
Lemma js_mul_pow2_32 h : 0 ≤ h < 2 ^ 32 → js_mul h 0x100000000 = h * 2 ^ 32.
Proof.
  intros Hh. change 0x100000000 with (2 ^ 32). unfold js_mul, js_round.
  destruct (Z.leb_spec (Z.abs (h * 2 ^ 32)) (2 ^ 53)) as [|Hbig]; [done|]. cbv zeta.
  rewrite Z.abs_eq in * by lia.
  set (e := Z.log2 (h * 2 ^ 32) - 52).
  assert (1 ≤ e ≤ 32).
  { subst e. pose proof (Z.log2_le_mono (2 ^ 53) (h * 2 ^ 32)) as L.
    rewrite Z.log2_pow2 in L by lia.
    pose proof (proj1 (Z.log2_lt_pow2 (h * 2 ^ 32) 64 ltac:(lia))). lia. }
  assert (0 < 2 ^ e ∧ 0 < 2 ^ (e - 1)) as [He He1] by (split; apply Z.pow_pos_nonneg; lia).
  replace (2 ^ 32) with (2 ^ (32 - e) * 2 ^ e)
    by (rewrite <- Z.pow_add_r by lia; f_equal; lia).
  rewrite !Z.mul_assoc, Z.mod_mul, Z.div_mul by lia.
  rewrite (proj2 (Z.ltb_lt 0 _)) by lia.
  assert (0 < h) by lia. assert (0 < 2 ^ (32 - e)) by (apply Z.pow_pos_nonneg; lia).
  rewrite Z.sgn_pos by nia. lia.
Qed.

Lemma readU64LE_reads v : 0 ≤ v < 2 ^ 53 → reads readU64LE (le_bytes 8 v) v.
Proof.
  intros Hv.
  assert (0 ≤ v / 2 ^ 32 < 2 ^ 21)
    by (split; [apply Z.div_pos|apply Z.div_lt_upper_bound]; lia).
  pose proof (Z.mod_pos_bound v (2 ^ 32)).
  assert (Hseq : reads (λ r, '(lo, r) ← readU32LE r; '(hi, r) ← readU32LE r;
      let v := js_add (js_mul hi 0x100000000) lo in
      if negb (is_safe_integer v) then Throw "readU64LE: value exceeds safe integer range"
      else Ret (v, r)) (le_bytes 8 v) v).
  { rewrite (le_bytes_app 4 4), <- (le_bytes_mod 4 v).
    apply (reads_bind _ _ _ _ (v mod 256 ^ Z.of_nat 4)).
    { apply readU32LE_reads. change (256 ^ Z.of_nat 4) with (2 ^ 32). lia. }
    rewrite <- (app_nil_r (le_bytes 4 _)). change (256 ^ Z.of_nat 4) with (2 ^ 32).
    eapply reads_bind; [apply readU32LE_reads; lia|].
    rewrite js_mul_pow2_32 by lia. unfold js_add.
    replace (v / 2 ^ 32 * 2 ^ 32 + v mod 2 ^ 32) with v by (pose proof (Z.div_mod v (2 ^ 32)); lia).
    assert (Hsafe : is_safe_integer v = true) by (apply is_safe_integer_spec; lia).
    rewrite (js_round_safe v Hsafe). cbv zeta. rewrite Hsafe. apply reads_ret. }
  intros r rest Hwf Hrem. unfold readU64LE. rewrite need_Ret; [|done|].
  - exact (Hseq r rest Hwf Hrem).
  - rewrite Hrem, blen_app. pose proof (blen_nonneg rest).
    unfold blen at 1. rewrite length_le_bytes. lia.
Qed.

Lemma readVarint_reads n : 0 ≤ n < 2 ^ 53 → reads readVarint (varint_enc n) n.
Proof.
  intros Hn. unfold varint_enc.
  assert (H : ∀ (tag : Z) f enc, reads f enc n →
    (∀ r, (if tag <? 0xfd then Ret (tag, r) else if tag =? 0xfd then readU16LE r
     else if tag =? 0xfe then readU32LE r else readU64LE r) = f r) →
    reads readVarint (tag :: enc) n).
  { intros tag f enc Hf E. change (tag :: enc) with ([tag] ++ enc).
    unfold readVarint. eapply reads_bind; [apply readU8_reads|].
    by eapply reads_ext. }
  destruct (Z.ltb_spec n 0xfd).
  { apply (H n (λ r, Ret (n, r)) []); [apply reads_ret|]. intros.
    by rewrite (proj2 (Z.ltb_lt n 0xfd)). }
  destruct (Z.leb_spec n 0xffff); [apply (H 0xfd readU16LE); [apply readU16LE_reads; lia|done]|].
  destruct (Z.leb_spec n 0xffffffff); [apply (H 0xfe readU32LE); [apply readU32LE_reads; lia|done]|].
  apply (H 0xff readU64LE); [by apply readU64LE_reads|done].
Qed.

Lemma readRaw_reads data : reads (readRaw (blen data)) data data.
Proof.
  intros r rest Hwf Hrem. unfold readRaw. rewrite need_Ret; [|done|].
  - simpl. fold (rem r). rewrite Hrem. unfold blen at 1. by rewrite Nat2Z.id, take_app_length.
  - rewrite Hrem, blen_app. pose proof (blen_nonneg rest). lia.
Qed.

Lemma readBytes_reads cap data :
  blen data ≤ cap → blen data < 2 ^ 53 →
  reads (readBytes cap) (varint_enc (blen data) ++ data) data.
Proof.
  intros Hcap Hlen. pose proof (blen_nonneg data). unfold readBytes.
  eapply reads_bind; [apply readVarint_reads; lia|].
  eapply reads_ext; [apply readRaw_reads| |done]. intros r.
  by rewrite (proj2 (Z.ltb_ge _ _)) by lia.
Qed.

Lemma readUtf8_reads cap s :
  js_string_ok s = true → no_bom s = true →
  blen (text_encode s) ≤ cap → blen (text_encode s) < 2 ^ 53 →
  reads (readUtf8 cap) (varint_enc (blen (text_encode s)) ++ text_encode s) s.
Proof.
  intros Hok Hbom Hcap Hlen. unfold readUtf8.
  rewrite <- (app_nil_r (_ ++ _)). eapply reads_bind; [by apply readBytes_reads|].
  eapply reads_ext; [apply (reads_ret s)| |done]. intros r.
  by rewrite text_decode_encode.
Qed.

(** ** The interface composite codecs build on

    A write method and a read method over values accepted by [ok]: the writer
    appends [enc v] or throws, the reader inverts it. *)

Class CodecLaw {A} (wr : A → CanonicalWriter → js CanonicalWriter)
    (rd : CanonicalReader → js (A * CanonicalReader))
    (ok : A → bool) (enc : A → bytes) : Prop := {
  codec_writes : ∀ v, write_spec (wr v) (ok v) (enc v);
  codec_reads : ∀ v, ok v = true → reads rd (enc v) v
}.

#[export] Instance u8_codec : CodecLaw writeU8 readU8 u8_ok (λ v, [v]).
Proof. split; intros; [apply writeU8_spec|apply readU8_reads]. Qed.

#[export] Instance bool_codec :
  CodecLaw writeBool readBool (λ _, true) (λ b : bool, [if b then 1 else 0]).
Proof. split; intros; [apply writeBool_spec|apply readBool_reads]. Qed.

#[export] Instance u16_codec : CodecLaw writeU16LE readU16LE u16_ok (le_bytes 2).
Proof.
  split; intros; [apply writeU16LE_spec|].
  apply between_spec in H. apply readU16LE_reads. lia.
Qed.

#[export] Instance u32_codec : CodecLaw writeU32LE readU32LE u32_ok (le_bytes 4).
Proof.
  split; intros; [apply writeU32LE_spec|].
  apply between_spec in H. apply readU32LE_reads. lia.
Qed.

#[export] Instance u64_codec : CodecLaw writeU64LE readU64LE u64_ok (le_bytes 8).
Proof.
  split; intros; [apply writeU64LE_spec|].
  apply u64_ok_spec in H. by apply readU64LE_reads.
Qed.

#[export] Instance varint_codec : CodecLaw writeVarint readVarint u64_ok varint_enc.
Proof.
  split; intros; [apply writeVarint_spec|].
  apply u64_ok_spec in H. by apply readVarint_reads.
Qed.

(** Any write succeeds on the values [ok] accepts, throws on the others, and what it
    appended reads back, whatever follows. *)
Lemma codec_write_read {A} wr rd ok (enc : A → bytes) `{!CodecLaw wr rd ok enc} v w rest :
  wf_writer w → ok v = true →
  ∃ w', wr v w = Ret w' ∧ wf_writer w' ∧ w_bytes w' = w_bytes w ++ enc v
    ∧ rd (mkReader (w_bytes w' ++ rest) (woffset w))
      = Ret (v, mkReader (w_bytes w' ++ rest) (woffset w + blen (enc v))).
Proof.
  intros Hwf Hok. pose proof (codec_writes v w Hwf) as H. rewrite Hok in H.
  destruct H as (w' & Hw & Hwf' & Hb). exists w'. split_and!; try done.
  assert (Hlen : length (w_bytes w) = Z.to_nat (woffset w)).
  { destruct Hwf as [? _]. unfold w_bytes, blen in *. rewrite length_take. lia. }
  rewrite (codec_reads v Hok _ rest); [done| |].
  - destruct Hwf as [? _]. unfold wf_reader. cbn [rbuf roffset].
    rewrite Hb, !blen_app. unfold blen at 1. rewrite Hlen.
    pose proof (blen_nonneg (enc v)). pose proof (blen_nonneg rest). lia.
  - unfold rem. cbn [rbuf roffset]. rewrite Hb, <- Hlen, <- app_assoc. apply drop_app_length.
Qed.

Lemma varint_enc_length n :
  blen (varint_enc n) =
    if n <? 0xfd then 1 else if n <=? 0xffff then 3 else if n <=? 0xffffffff then 5 else 9.
Proof. unfold varint_enc, blen. repeat case_match; done. Qed.

(** ** Reading arbitrary bytes

    On any byte buffer a read throws, or returns a value satisfying [P] and moves the
    position forward by [k] or more inside the same buffer; it does not diverge. *)

Definition wf_input (r : CanonicalReader) : Prop := wf_reader r ∧ Forall is_byte (rbuf r).

Definition safe_read {A} (f : CanonicalReader → js (A * CanonicalReader)) (k : Z)
    (P : A → Prop) : Prop :=
  ∀ r, wf_input r →
    match f r with
    | Ret (v, r') => P v ∧ wf_input r' ∧ rbuf r' = rbuf r ∧ roffset r + k ≤ roffset r'
    | Throw _ => True
    | OutOfFuel => False
    end.

Lemma safe_ret {A} (v : A) (P : A → Prop) : P v → safe_read (λ r, Ret (v, r)) 0 P.
Proof. intros Hv r Hwf. split_and!; try done. lia. Qed.

Lemma safe_throw {A} msg (P : A → Prop) : safe_read (λ _, Throw msg) 0 P.
Proof. done. Qed.

Lemma safe_bind {A B} (f : CanonicalReader → js (A * CanonicalReader))
    (g : A → CanonicalReader → js (B * CanonicalReader)) k k1 k2 P Q :
  safe_read f k1 P → (∀ v, P v → safe_read (g v) k2 Q) → k ≤ k1 + k2 →
  safe_read (λ r, '(v, r) ← f r; g v r) k Q.
Proof.
  intros Hf Hg Hk r Hwf. specialize (Hf r Hwf). destruct (f r) as [[v r1]| |]; try done.
  destruct Hf as (Hv & Hwf1 & Hb1 & Ho1). specialize (Hg v Hv r1 Hwf1).
  cbn [mbind js_bind]. destruct (g v r1) as [[w r2]| |]; try done.
  destruct Hg as (Hw & Hwf2 & Hb2 & Ho2). split_and!; [done|done|congruence|lia].
Qed.

Lemma safe_weaken {A} (f : CanonicalReader → js (A * CanonicalReader)) k k' (P Q : A → Prop) :
  safe_read f k P → k' ≤ k → (∀ v, P v → Q v) → safe_read f k' Q.
Proof.
  intros Hf Hk HPQ r Hwf. specialize (Hf r Hwf).
  destruct (f r) as [[v r1]| |]; try done.
  destruct Hf as (?&?&?&?). split_and!; auto. lia.
Qed.

Lemma need_spec r n : n ≤ r_remaining r ∧ need r n = Ret tt ∨ ∃ msg, need r n = Throw msg.
Proof.
  unfold need, throw_if. destruct (Z.ltb_spec (r_remaining r) n); [right; by eexists|by left].
Qed.

Lemma peek_cases r i :
  wf_input r →
  match peek r i with Ret v => is_byte v | Throw _ => True | OutOfFuel => False end.
Proof.
  intros [_ Hb]. unfold peek, at_index. destruct (_ <? 0); [done|].
  destruct (_ !! _) eqn:E; [|done]. by eapply Forall_lookup_1.
Qed.

Lemma advance_input r n : wf_input r → 0 ≤ n ≤ r_remaining r → wf_input (advance r n).
Proof.
  intros [Hwf Hb] Hn. split; [|done]. apply advance_wf; [done|]. by rewrite blen_rem.
Qed.

(** One step of a fixed-width read: [need], the peeks, [advance]. *)
Ltac safe_fixed n :=
  let r := fresh "r" in let Hwf := fresh "Hwf" in
  intros r Hwf;
  destruct (need_spec r n) as [[? ->]|[? ->]]; [|done]; cbn [mbind js_bind];
  repeat match goal with
  | |- context [peek r ?i] =>
    pose proof (peek_cases r i Hwf); destruct (peek r i); try done; cbn [mbind js_bind]
  end;
  split_and!; [|apply advance_input; [done|lia]|done|cbn; lia].

Lemma readU8_safe : safe_read readU8 1 is_byte.
Proof. unfold readU8. by safe_fixed 1. Qed.

Lemma readBool_safe : safe_read readBool 1 (λ _, True).
Proof.
  unfold readBool. eapply safe_bind; [apply readU8_safe| |].
  - intros b _ r Hwf. instantiate (1 := 0).
    destruct (b =? 0); [split_and!; try done; lia|].
    destruct (b =? 1); [split_and!; try done; lia|done].
  - done.
Qed.

Lemma le_assemble_byte2 a b :
  is_byte a → is_byte b → 0 ≤ js_or a (js_shl b 8).
Proof.
  unfold is_byte. intros Ha Hb. unfold js_or, js_shl. rewrite (to_int32_small b) by lia.
  change (8 mod 32) with 8. rewrite Z.shiftl_mul_pow2 by lia.
  rewrite (to_int32_small a), !(to_int32_small (b * 2 ^ 8)) by (rewrite ?to_int32_small; lia).
  rewrite <- Z.shiftl_mul_pow2, lor_shift by lia. lia.
Qed.

Lemma readU16LE_safe : safe_read readU16LE 2 (λ v, 0 ≤ v).
Proof. unfold readU16LE. safe_fixed 2. by apply le_assemble_byte2. Qed.

Lemma js_ushr_nonneg v n : 0 ≤ js_ushr v n.
Proof. unfold js_ushr, to_uint32. apply Z.shiftr_nonneg, Z.mod_pos_bound. lia. Qed.

Lemma readU32LE_safe : safe_read readU32LE 4 (λ v, 0 ≤ v).
Proof. unfold readU32LE. safe_fixed 4. apply js_ushr_nonneg. Qed.

Lemma readU64LE_safe : safe_read readU64LE 8 (λ v, 0 ≤ v).
Proof.
  intros r Hwf. unfold readU64LE. destruct (need_spec r 8) as [[_ ->]|[? ->]]; [|done].
  cbn [mbind js_bind].
  refine (safe_bind _ (λ lo r, '(hi, r) ← readU32LE r;
    let v := js_add (js_mul hi 0x100000000) lo in
    if negb (is_safe_integer v) then Throw "readU64LE: value exceeds safe integer range"
    else Ret (v, r)) 8 4 4 _ _ readU32LE_safe _ ltac:(lia) r Hwf).
  intros lo Hlo. eapply safe_bind; [apply readU32LE_safe| |].
  - intros hi Hhi r' Hwf'. cbv zeta. instantiate (1 := 0).
    destruct (negb (is_safe_integer _)); [done|].
    split; [|split_and!; try done; lia]. unfold js_add, js_mul.
    cbv beta in Hlo, Hhi |- *. apply js_round_nonneg.
    pose proof (js_round_nonneg (hi * 0x100000000)). lia.
  - done.
Qed.

Lemma readVarint_safe : safe_read readVarint 1 (λ v, 0 ≤ v).
Proof.
  unfold readVarint. eapply (safe_bind _ _ 1 1 0); [apply readU8_safe| |done].
  intros b Hb. unfold is_byte in Hb.
  destruct (b <? 0xfd); [|destruct (b =? 0xfd); [|destruct (b =? 0xfe)]].
  - apply (safe_ret b). lia.
  - eapply safe_weaken; [apply readU16LE_safe|lia|done].
  - eapply safe_weaken; [apply readU32LE_safe|lia|done].
  - eapply safe_weaken; [apply readU64LE_safe|lia|done].
Qed.

Lemma readRaw_safe n : 0 ≤ n → safe_read (readRaw n) n (λ _, True).
Proof. intros Hn. unfold readRaw. by safe_fixed n. Qed.

Lemma readBytes_safe cap : safe_read (readBytes cap) 1 (λ _, True).
Proof.
  unfold readBytes. eapply (safe_bind _ _ 1 1 0); [apply readVarint_safe| |done].
  intros n Hn. destruct (cap <? n); [done|].
  by eapply safe_weaken; [apply readRaw_safe|..].
Qed.

Lemma readUtf8_safe cap : safe_read (readUtf8 cap) 1 (λ _, True).
Proof.
  unfold readUtf8. eapply (safe_bind _ _ 1 1 0); [apply readBytes_safe| |done].
  intros bs _ r Hwf. unfold text_decode_fatal. cbv zeta.
  destruct (utf8_valid _); [|done].
  cbn [mbind js_bind]. split_and!; try done. lia.
Qed.

Lemma new_reader_input enc rest :
  wf_reader (new_reader (enc ++ rest)) ∧ rem (new_reader (enc ++ rest)) = enc ++ rest.
Proof. split; [|done]. split; [done|apply blen_nonneg]. Qed.

(** Running a read followed by anything: [k] continues behind the encoding. *)
Lemma read_step {A B} (f : CanonicalReader → js (A * CanonicalReader))
    (k : A → CanonicalReader → js B) a x r rest y :
  reads f a x → wf_reader r → rem r = a ++ rest →
  (wf_reader (advance r (blen a)) → rem (advance r (blen a)) = rest →
     k x (advance r (blen a)) = y) →
  ('(v, r) ← f r; k v r) = y.
Proof.
  intros Hf Hwf Hrem Hk. rewrite (Hf r rest Hwf Hrem). cbn [mbind js_bind].
  destruct (advance_over r a rest); auto.
Qed.

Create HintDb codec_reads.
#[export] Hint Resolve readU8_reads readBool_reads : codec_reads.

Lemma u32_ok_reads v : u32_ok v = true → reads readU32LE (le_bytes 4 v) v.
Proof. apply (codec_reads (wr := writeU32LE)). Qed.
Lemma u64_ok_reads v : u64_ok v = true → reads readU64LE (le_bytes 8 v) v.
Proof. apply (codec_reads (wr := writeU64LE)). Qed.
#[export] Hint Resolve u32_ok_reads u64_ok_reads : codec_reads.

(** A run of reads over a concatenation of encodings. *)
Ltac chain_reads :=
  repeat (eapply read_step; [|eassumption|eassumption|];
    [ solve [eauto with codec_reads]
    | let Hwf := fresh "Hwf" in let Hrem := fresh "Hrem" in
      intros Hwf Hrem; cbv beta]).

(** The end of a composite read: collect the advances. *)
Ltac end_reads := rewrite ?advance_advance, ?blen_app, ?Z.add_assoc.

(** The same on arbitrary input: [k] continues from a well-formed reader. *)
Lemma safe_step {A B} (f : CanonicalReader → js (A * CanonicalReader))
    (k : A → CanonicalReader → js B) n P r (Q : js B → Prop) :
  safe_read f n P → wf_input r →
  (∀ v r', P v → wf_input r' → Q (k v r')) → (∀ msg, Q (Throw msg)) →
  Q ('(v, r) ← f r; k v r).
Proof.
  intros Hf Hwf Hk Ht. specialize (Hf r Hwf).
  destruct (f r) as [[v r']|msg|]; cbn [mbind js_bind]; [|apply Ht|done].
  destruct Hf as (?&?&_). auto.
Qed.

(** ** Properties *)

(** Varints round-trip.  A varint written by [writeVarint] into any writer state
    takes 1, 3, 5 or 9 bytes and [readVarint] returns the same number and stops
    exactly behind it, whatever bytes follow; integers outside [0, 2^53) make
    [writeVarint] throw. *)
Theorem varint_roundtrip n w rest :
  wf_writer w →
  if u64_ok n then
    ∃ w', writeVarint n w = Ret w' ∧ wf_writer w'
      ∧ woffset w' = woffset w +
          (if n <? 0xfd then 1 else if n <=? 0xffff then 3
           else if n <=? 0xffffffff then 5 else 9)
      ∧ readVarint (mkReader (w_bytes w' ++ rest) (woffset w))
        = Ret (n, mkReader (w_bytes w' ++ rest) (woffset w'))
  else ∃ msg, writeVarint n w = Throw msg.
Proof.
  intros Hwf. destruct (u64_ok n) eqn:Hok.
  - destruct (codec_write_read writeVarint readVarint u64_ok varint_enc n w rest Hwf Hok)
      as (w' & Hw & Hwf' & Hb & Hr).
    assert (Ho : woffset w' = woffset w + blen (varint_enc n)).
    { destruct Hwf as [? _], Hwf' as [? _]. apply (f_equal length) in Hb.
      unfold w_bytes, blen in *. rewrite length_app, !length_take in Hb. lia. }
    exists w'. rewrite Ho, Hr, varint_enc_length. done.
  - pose proof (writeVarint_spec n w Hwf) as H. by rewrite Hok in H.
Qed.

Lemma varint_roundtrip_witness :
  wf_writer (new_writer 256) ∧
  readVarint (mkReader [0xfe; 0x70; 0x11; 0x01; 0x00; 0x2a] 0)
  = Ret (70000, mkReader [0xfe; 0x70; 0x11; 0x01; 0x00; 0x2a] 5).
Proof.
  assert (Hwf : wf_writer (new_writer 256)) by (vm_compute; repeat split; congruence).
  split; [exact Hwf|].
  destruct (varint_roundtrip 70000 (new_writer 256) [0x2a] Hwf) as (w' & Hw & _ & _ & Hr).
  vm_compute in Hw. injection Hw as <-. vm_compute in Hr. exact Hr.
Defined.

(** Reading is not injective: [readVarint] also accepts over-long forms. *)
Lemma readVarint_overlong :
  readVarint (new_reader [5]) = Ret (5, mkReader [5] 1)
  ∧ readVarint (new_reader [0xfd; 5; 0]) = Ret (5, mkReader [0xfd; 5; 0] 3).
Proof. by vm_compute. Qed.

(** A writer constructed with capacity 0 never leaves the doubling loop. *)
Lemma ensure_zero_capacity fuel : grow_cap fuel (blen (wbuf (new_writer 0)) * 2) 1 = OutOfFuel.
Proof. induction fuel; [done|]. exact IHfuel. Qed.
