(* ===== verification/RuleSetCodec.v ===== *)
(** * protocol-types: canonical encoding of a rule set

    [packages/protocol-types/src/rule-set-codec.ts], on the writer and reader of
    [Codec].  The theorems: encoding is canonical (the order of an object's properties
    does not matter), decoding inverts it, and decoding always returns. *)

From Stdlib Require Import Btauto.
From S2P Require Import Prelude Bytes Primitives Types Codec.

(** ** Encoding *)

Definition GAME_TYPE_CODES (g : GameType) : Z :=
  match g with in_between => 0x01 end.

Definition GAME_TYPE_FROM_CODE (code : Z) : option GameType :=
  if code =? 0x01 then Some in_between else None.

Definition encodePenalty (p : PenaltySchedule) (w : CanonicalWriter) : js CanonicalWriter :=
  w ← writeU64LE (non_reveal p) w;
  w ← writeU64LE (bad_reveal p) w;
  w ← writeU64LE (consecutive_cards p) w;
  writeU64LE (equal_cards p) w.

Definition decodePenalty (r : CanonicalReader) : js (PenaltySchedule * CanonicalReader) :=
  '(non_reveal, r) ← readU64LE r;
  '(bad_reveal, r) ← readU64LE r;
  '(consecutive_cards, r) ← readU64LE r;
  '(equal_cards, r) ← readU64LE r;
  Ret (mkPenaltySchedule non_reveal bad_reveal consecutive_cards equal_cards, r).

Definition encodeSettlement (s : SettlementRules) (w : CanonicalWriter) : js CanonicalWriter :=
  w ← writeI32LE (in_between_win_multiplier s) w;
  w ← writeI32LE (in_between_loss_multiplier s) w;
  w ← writeU64LE (consecutive_cards_penalty s) w;
  writeU64LE (equal_cards_penalty s) w.

Definition decodeSettlement (r : CanonicalReader) : js (SettlementRules * CanonicalReader) :=
  '(win_m, r) ← readU32LE r;
  '(loss_m, r) ← readU32LE r;
  '(consecutive_cards_penalty, r) ← readU64LE r;
  '(equal_cards_penalty, r) ← readU64LE r;
  Ret (mkSettlementRules win_m loss_m consecutive_cards_penalty equal_cards_penalty, r).

Definition encodeRecovery (x : RecoveryRules) (w : CanonicalWriter) : js CanonicalWriter :=
  w ← writeBool (refund_stakes_to_funders x) w;
  w ← writeBool (apply_non_reveal_penalty x) w;
  writeBool (apply_bad_reveal_penalty x) w.

Definition decodeRecovery (r : CanonicalReader) : js (RecoveryRules * CanonicalReader) :=
  '(refund, r) ← readBool r;
  '(non_reveal, r) ← readBool r;
  '(bad_reveal, r) ← readBool r;
  Ret (mkRecoveryRules refund non_reveal bad_reveal, r).

(** The [for (const k of keys)] loop of [encodeDefaults] *)
Fixpoint encodeDefaults_loop (defaults : StringMap) (keys : list string)
    (w : CanonicalWriter) : js CanonicalWriter :=
  match keys with
  | [] => Ret w
  | k :: keys =>
    w ← writeUtf8 k w;
    match obj_get defaults k with
    | None => Throw ("encodeDefaults: undefined value for key " +:+ k)
    | Some v => w ← writeUtf8 v w; encodeDefaults_loop defaults keys w
    end
  end.

Definition encodeDefaults (defaults : StringMap) (w : CanonicalWriter) : js CanonicalWriter :=
  let keys := js_sort (obj_keys defaults) in
  w ← writeVarint (Z.of_nat (length keys)) w;
  encodeDefaults_loop defaults keys w.

(** [for (let i = 0; i < n; i++)]: every turn consumes at least two bytes, so the
    buffer length is fuel enough ([decodeRuleSet_total]). *)
Fixpoint decodeDefaults_loop (fuel : nat) (i n : Z) (out : StringMap)
    (r : CanonicalReader) : js (StringMap * CanonicalReader) :=
  if i <? n then
    match fuel with
    | O => OutOfFuel
    | S fuel =>
      '(k, r) ← readUtf8 MAX_RESERVED_TRAILING r;
      '(v, r) ← readUtf8 MAX_RESERVED_TRAILING r;
      decodeDefaults_loop fuel (i + 1) n (obj_set out k v) r
    end
  else Ret (out, r).

Definition decodeDefaults (r : CanonicalReader) : js (StringMap * CanonicalReader) :=
  '(n, r) ← readVarint r;
  decodeDefaults_loop (length (rbuf r)) 0 n [] r.

Definition encodeRuleSet (rs : RuleSet) : js bytes :=
  _ ← throw_if (negb (serialisation_version rs =? 1))
        "encodeRuleSet: only serialisation_version 1 is implemented";
  let w := new_writer 256 in
  w ← writeU8 1 w;
  let gameTypeCode := GAME_TYPE_CODES (game_type rs) in
  w ← writeU8 gameTypeCode w;
  _ ← throw_if ((player_count_min rs <? 0) || (255 <? player_count_min rs))
        "player_count_min out of range";
  _ ← throw_if ((player_count_max rs <? 0) || (255 <? player_count_max rs))
        "player_count_max out of range";
  w ← writeU8 (player_count_min rs) w;
  w ← writeU8 (player_count_max rs) w;
  w ← writeU64LE (stake_amount rs) w;
  w ← writeU64LE (min_bet rs) w;
  w ← writeU64LE (max_bet rs) w;
  w ← writeU32LE (decision_timeout_blocks rs) w;
  w ← writeU32LE (recovery_timeout_blocks rs) w;
  w ← writeU32LE (invitation_window_blocks rs) w;
  w ← encodeDefaults (default_action_by_state rs) w;
  w ← encodePenalty (penalty_schedule rs) w;
  w ← writeU8 (deck_format rs) w;
  _ ← throw_if ((shuffle_algorithm_version rs <? 0) || (255 <? shuffle_algorithm_version rs))
        "shuffle_algorithm_version out of u8 range";
  w ← writeU8 (shuffle_algorithm_version rs) w;
  w ← encodeSettlement (settlement_rules rs) w;
  w ← encodeRecovery (recovery_rules rs) w;
  Ret (w_bytes w).

(** ** Decoding *)

(** [try { ... } catch (e) { return err(protocolError('SERIALISATION_ERROR', msg)) }] *)
Definition catch_serialisation {T} (m : js (Result T)) : js (Result T) :=
  match m with
  | Throw msg => reject SERIALISATION_ERROR msg
  | m => m
  end.

(** [code.toString(16)] of a byte *)
Definition byte_to_string16 (b : Z) : string :=
  if b <? 16 then String (hex_digit_char b) EmptyString else hex_byte b.

Definition decodeRuleSet (bs : bytes) : js (Result RuleSet) := catch_serialisation (
  let r := new_reader bs in
  '(version, r) ← readU8 r;
  if negb (version =? 1)
  then reject UNSUPPORTED_VERSION ("RuleSet version " +:+ pretty version) else
  '(code, r) ← readU8 r;
  match GAME_TYPE_FROM_CODE code with
  | None => reject INVALID_RULE_SET ("unknown game_type code 0x" +:+ byte_to_string16 code)
  | Some game_type =>
    '(player_count_min, r) ← readU8 r;
    '(player_count_max, r) ← readU8 r;
    '(stake_amount, r) ← readU64LE r;
    '(min_bet, r) ← readU64LE r;
    '(max_bet, r) ← readU64LE r;
    '(decision_timeout_blocks, r) ← readU32LE r;
    '(recovery_timeout_blocks, r) ← readU32LE r;
    '(invitation_window_blocks, r) ← readU32LE r;
    '(default_action_by_state, r) ← decodeDefaults r;
    '(penalty_schedule, r) ← decodePenalty r;
    '(deck_format, r) ← readU8 r;
    if negb (deck_format =? 52) && negb (deck_format =? 54)
    then reject INVALID_RULE_SET "deck_format must be 52 or 54" else
    '(shuffle_algorithm_version, r) ← readU8 r;
    '(settlement_rules, r) ← decodeSettlement r;
    '(recovery_rules, r) ← decodeRecovery r;
    accept (mkRuleSet game_type player_count_min player_count_max stake_amount min_bet
      max_bet decision_timeout_blocks recovery_timeout_blocks invitation_window_blocks
      default_action_by_state penalty_schedule deck_format shuffle_algorithm_version
      settlement_rules recovery_rules 1)
  end).

Definition ruleSetHash (sha256 : bytes → bytes) (rs : RuleSet) : js RuleSetHash :=
  payload ← encodeRuleSet rs;
  let h := domainSha256 sha256 TYPE_TAG.RULE_SET payload in
  asRuleSetHash h.

Lemma encodeDefaults_perm m1 m2 w :
  NoDup m1.*1 → Forall (λ k, js_string_ok k = true) m1.*1 → m1 ≡ₚ m2 →
  encodeDefaults m1 w = encodeDefaults m2 w.
Proof.
  intros Hnd Hok Hp. unfold encodeDefaults, obj_keys.
  rewrite (js_sort_perm _ _ Hok (fmap_Permutation fst _ _ Hp)).
  apply js_bind_ext. generalize (js_sort m2.*1). intros keys.
  induction keys as [|k keys IH]; intros w1; [done|]. cbn [encodeDefaults_loop].
  apply js_bind_ext. intros w2. rewrite (obj_get_perm _ _ k Hnd Hp).
  destruct (obj_get _ k); [|done]. by apply js_bind_ext.
Qed.

(** ** The encoder as a byte list *)







Definition utf8_enc (s : string) : bytes := varint_enc (blen (text_encode s)) ++ text_encode s.
Definition utf8_fits (s : string) : bool := u64_ok (blen (text_encode s)).

Definition entry_enc (p : string * string) : bytes := utf8_enc p.1 ++ utf8_enc p.2.
Definition entry_fits (p : string * string) : bool := utf8_fits p.1 && utf8_fits p.2.

Definition defaults_enc (l : StringMap) : bytes :=
  varint_enc (Z.of_nat (length l)) ++ mjoin (entry_enc <$> l).

Lemma encodeDefaults_loop_spec m keys :
  (∀ k, k ∈ keys → is_Some (obj_get m k)) →
  let l := (λ k, (k, default EmptyString (obj_get m k))) <$> keys in
  write_spec (encodeDefaults_loop m keys) (forallb entry_fits l) (mjoin (entry_enc <$> l)).
Proof.
  induction keys as [|k keys IH]; intros Hget; [apply write_nil|].
  destruct (Hget k) as [v Hv]; [apply elem_of_cons; auto|].
  cbn [encodeDefaults_loop fmap list_fmap forallb mjoin list_join].
  rewrite Hv. cbn [default]. unfold entry_fits at 1, entry_enc at 1. cbn [fst snd].
  rewrite <- andb_assoc, <- app_assoc.
  apply write_seq; [apply writeUtf8_spec|]. apply write_seq; [apply writeUtf8_spec|].
  apply IH. intros k' Hk'. apply Hget. apply elem_of_cons. auto.
Qed.

Lemma encodeDefaults_spec m :
  NoDup m.*1 →
  write_spec (encodeDefaults m)
    (u64_ok (Z.of_nat (length m)) && forallb entry_fits (canonical_map m))
    (defaults_enc (canonical_map m)).
Proof.
  intros Hnd. unfold encodeDefaults, defaults_enc, canonical_map.
  assert (Hlen : length (js_sort (obj_keys m)) = length m).
  { unfold js_sort, obj_keys. by rewrite merge_sort_Permutation, length_fmap. }
  rewrite length_fmap, <- Hlen.
  apply write_seq; [apply writeVarint_spec|]. apply encodeDefaults_loop_spec.
  intros k Hk. destruct (obj_get m k) eqn:E; [done|]. apply obj_get_None in E.
  destruct E. revert Hk. unfold js_sort. by rewrite merge_sort_Permutation.
Qed.

(** ** Decoding what was encoded *)

Definition utf8_readable (s : string) : bool :=
  js_string_ok s && no_bom s && (blen (text_encode s) <=? MAX_RESERVED_TRAILING).

Definition entry_readable (p : string * string) : bool :=
  utf8_readable p.1 && utf8_readable p.2 && bool_decide (p.1 ≠ "__proto__").

Lemma utf8_readable_reads s :
  utf8_readable s = true → reads (readUtf8 MAX_RESERVED_TRAILING) (utf8_enc s) s.
Proof.
  unfold utf8_readable. rewrite !andb_true_iff, Z.leb_le. intros [[Hok Hbom] Hlen].
  apply readUtf8_reads; try done. unfold MAX_RESERVED_TRAILING in Hlen. lia.
Qed.

Lemma entry_readable_spec p :
  entry_readable p = true →
  utf8_readable p.1 = true ∧ utf8_readable p.2 = true ∧ p.1 ≠ "__proto__".
Proof.
  unfold entry_readable. rewrite !andb_true_iff, bool_decide_eq_true. naive_solver.
Qed.

Lemma decodeDefaults_loop_reads l fuel i n out :
  forallb entry_readable l = true → NoDup (out ++ l).*1 →
  n = i + Z.of_nat (length l) → (length l ≤ fuel)%nat →
  reads (decodeDefaults_loop fuel i n out) (mjoin (entry_enc <$> l)) (out ++ l).
Proof.
  revert fuel i out. induction l as [|[k v] l IH]; intros fuel i out Hok Hnd -> Hfuel.
  { eapply reads_ext; [apply (reads_ret (out ++ []))| |done]. intros r.
    cbn [length]. destruct fuel; cbn [decodeDefaults_loop];
      by rewrite (proj2 (Z.ltb_ge _ _)), app_nil_r by lia. }
  cbn [forallb] in Hok. apply andb_true_iff in Hok as [Hkv Hok].
  apply entry_readable_spec in Hkv as (Hk & Hv & Hp). cbn [fst snd] in *.
  destruct fuel as [|fuel]; [cbn in Hfuel; lia|].
  cbn [fmap list_fmap mjoin list_join length]. unfold entry_enc at 1. cbn [fst snd].
  rewrite <- app_assoc.
  apply (reads_ext (λ r, '(k, r) ← readUtf8 MAX_RESERVED_TRAILING r;
     '(v, r) ← readUtf8 MAX_RESERVED_TRAILING r;
     decodeDefaults_loop fuel (i + 1) (i + Z.of_nat (S (length l))) (obj_set out k v) r)
     _ (utf8_enc k ++ utf8_enc v ++ mjoin (entry_enc <$> l))); [| |done].
  - refine (reads_bind _ (λ k r, '(v, r) ← readUtf8 MAX_RESERVED_TRAILING r;
      decodeDefaults_loop fuel (i + 1) _ (obj_set out k v) r) _ _ k _
      (utf8_readable_reads k Hk) _).
    refine (reads_bind _ (λ v r, decodeDefaults_loop fuel (i + 1) _ (obj_set out k v) r)
      _ _ v _ (utf8_readable_reads v Hv) _).
    rewrite obj_set_new; [|done|].
    + replace (out ++ (k, v) :: l) with ((out ++ [(k, v)]) ++ l)
        by (by rewrite <- app_assoc).
      apply IH; [done|by rewrite <- app_assoc|cbn [length]; lia|cbn in Hfuel; lia].
    + rewrite fmap_app in Hnd. apply list.NoDup_app in Hnd as (_ & Hd & _).
      intros Hin. destruct (Hd k Hin). cbn. apply elem_of_cons. auto.
  - intros r. cbn [decodeDefaults_loop]. by rewrite (proj2 (Z.ltb_lt _ _)) by lia.
Qed.

Lemma varint_enc_nonempty n : (1 ≤ length (varint_enc n))%nat.
Proof. unfold varint_enc. repeat case_match; cbn; lia. Qed.

Lemma length_entries l : (length l ≤ length (mjoin (entry_enc <$> l)))%nat.
Proof.
  induction l as [|p l IH]; [done|].
  change (mjoin (entry_enc <$> p :: l)) with (entry_enc p ++ mjoin (entry_enc <$> l)).
  cbn [length]. rewrite length_app. unfold entry_enc at 1, utf8_enc. rewrite !length_app.
  pose proof (varint_enc_nonempty (blen (text_encode p.1))). lia.
Qed.

Lemma decodeDefaults_reads l :
  forallb entry_readable l = true → NoDup l.*1 → u64_ok (Z.of_nat (length l)) = true →
  reads decodeDefaults (defaults_enc l) l.
Proof.
  intros Hok Hnd Hlen r rest Hwf Hrem. unfold decodeDefaults, defaults_enc in *.
  rewrite <- app_assoc in Hrem.
  rewrite (codec_reads (wr := writeVarint) _ Hlen r _ Hwf Hrem). cbn [mbind js_bind].
  destruct (advance_over r _ _ Hwf Hrem) as [Hwf1 Hrem1].
  rewrite (decodeDefaults_loop_reads l _ 0 _ [] Hok Hnd (eq_sym (Z.add_0_l _)))
    with (rest := rest); [by rewrite advance_advance, blen_app| |done|done].
  pose proof (length_entries l). apply (f_equal length) in Hrem1.
  unfold rem in Hrem1. rewrite length_drop, length_app in Hrem1.
  unfold advance in Hrem1 |- *. cbn [rbuf roffset] in *. lia.
Qed.

Lemma decodeDefaults_loop_safe fuel i n out r :
  wf_input r → r_remaining r < Z.of_nat fuel →
  match decodeDefaults_loop fuel i n out r with
  | Ret (_, r') => wf_input r' ∧ rbuf r' = rbuf r ∧ roffset r ≤ roffset r'
  | Throw _ => True
  | OutOfFuel => False
  end.
Proof.
  revert i out r. induction fuel as [|fuel IH]; intros i out r Hwf Hfuel;
    cbn [decodeDefaults_loop]; (destruct (i <? n); [|split_and!; [done|done|lia]]).
  { destruct Hwf as [Hwf _]. unfold wf_reader, r_remaining in *. lia. }
  pose proof (readUtf8_safe MAX_RESERVED_TRAILING r Hwf) as H1.
  destruct (readUtf8 _ r) as [[k r1]| |]; [|done..]. destruct H1 as (_ & Hwf1 & Hb1 & Ho1).
  cbn [mbind js_bind].
  pose proof (readUtf8_safe MAX_RESERVED_TRAILING r1 Hwf1) as H2.
  destruct (readUtf8 _ r1) as [[v r2]| |]; [|done..]. destruct H2 as (_ & Hwf2 & Hb2 & Ho2).
  cbn [mbind js_bind]. specialize (IH (i + 1) (obj_set out k v) r2 Hwf2).
  destruct (decodeDefaults_loop _ _ _ _ r2) as [[m r3]| |];
    [destruct IH as (?&?&?)|done|apply IH];
    unfold r_remaining in *; rewrite ?Hb2, ?Hb1; try lia.
  split_and!; [done|congruence|lia].
Qed.

Lemma decodeDefaults_safe : safe_read decodeDefaults 1 (λ _, True).
Proof.
  intros r Hwf. unfold decodeDefaults. pose proof (readVarint_safe r Hwf) as H1.
  destruct (readVarint r) as [[n r1]| |]; [|done..]. destruct H1 as (_ & Hwf1 & Hb1 & Ho1).
  cbn [mbind js_bind].
  pose proof (decodeDefaults_loop_safe (length (rbuf r1)) 0 n [] r1 Hwf1) as H2.
  assert (r_remaining r1 < Z.of_nat (length (rbuf r1))) as Hr.
  { destruct Hwf as [Hwf _]. unfold wf_reader, r_remaining, blen in *. lia. }
  specialize (H2 Hr). destruct (decodeDefaults_loop _ _ _ _ r1) as [[m r2]| |]; [|done..].
  destruct H2 as (?&?&?). split_and!; [done|done|congruence|lia].
Qed.

(** ** The layout of an encoded rule set *)

Definition penalty_ok (p : PenaltySchedule) : bool :=
  u64_ok (non_reveal p) && (u64_ok (bad_reveal p)
  && (u64_ok (consecutive_cards p) && u64_ok (equal_cards p))).

Definition penalty_enc (p : PenaltySchedule) : bytes :=
  le_bytes 8 (non_reveal p) ++ le_bytes 8 (bad_reveal p)
  ++ le_bytes 8 (consecutive_cards p) ++ le_bytes 8 (equal_cards p).

Definition settlement_ok (s : SettlementRules) : bool :=
  i32_ok (in_between_win_multiplier s) && (i32_ok (in_between_loss_multiplier s)
  && (u64_ok (consecutive_cards_penalty s) && u64_ok (equal_cards_penalty s))).

Definition settlement_enc (s : SettlementRules) : bytes :=
  le_bytes 4 (in_between_win_multiplier s) ++ le_bytes 4 (in_between_loss_multiplier s)
  ++ le_bytes 8 (consecutive_cards_penalty s) ++ le_bytes 8 (equal_cards_penalty s).

Definition bool_enc (b : bool) : bytes := [if b then 1 else 0].

Definition recovery_enc (x : RecoveryRules) : bytes :=
  bool_enc (refund_stakes_to_funders x) ++ bool_enc (apply_non_reveal_penalty x)
  ++ bool_enc (apply_bad_reveal_penalty x).

Lemma encodePenalty_spec p : write_spec (encodePenalty p) (penalty_ok p) (penalty_enc p).
Proof. repeat apply write_seq; auto with writes. Qed.

Lemma encodeSettlement_spec s :
  write_spec (encodeSettlement s) (settlement_ok s) (settlement_enc s).
Proof.
  repeat apply write_seq; auto with writes.
Qed.

Lemma encodeRecovery_spec x :
  write_spec (encodeRecovery x) (true && (true && true)) (recovery_enc x).
Proof. repeat apply write_seq; auto with writes. Qed.

#[export] Hint Resolve encodePenalty_spec encodeSettlement_spec encodeRecovery_spec
  encodeDefaults_spec : writes.







(** The readers of the parts *)

Lemma decodePenalty_reads p : penalty_ok p = true → reads decodePenalty (penalty_enc p) p.
Proof.
  unfold penalty_ok, penalty_enc. rewrite !andb_true_iff. intros (?&?&?&?) r rest Hwf Hrem.
  rewrite <- !app_assoc in Hrem. unfold decodePenalty. chain_reads. end_reads. by destruct p.
Qed.

(** The writer takes multipliers as [i32], the reader returns them as [u32]. *)
Definition multipliers_nonneg (s : SettlementRules) : bool :=
  (0 <=? in_between_win_multiplier s) && (0 <=? in_between_loss_multiplier s).

Definition unsigned_multipliers (s : SettlementRules) : SettlementRules :=
  mkSettlementRules (to_uint32 (in_between_win_multiplier s))
    (to_uint32 (in_between_loss_multiplier s))
    (consecutive_cards_penalty s) (equal_cards_penalty s).

Lemma u32_mod_reads v : reads readU32LE (le_bytes 4 v) (to_uint32 v).
Proof.
  rewrite <- (le_bytes_mod 4 v). apply readU32LE_reads. apply Z.mod_pos_bound. done.
Qed.

Lemma decodeSettlement_unsigned s :
  settlement_ok s = true → reads decodeSettlement (settlement_enc s) (unsigned_multipliers s).
Proof.
  unfold settlement_ok, settlement_enc. rewrite !andb_true_iff.
  intros (_&_&?&?) r rest Hwf Hrem. pose proof u32_mod_reads.
  rewrite <- !app_assoc in Hrem. unfold decodeSettlement.
  do 2 (eapply read_step; [apply u32_mod_reads|eassumption|eassumption|]; intros ??; cbv beta).
  chain_reads. by end_reads.
Qed.

Lemma unsigned_multipliers_id s :
  settlement_ok s = true → (unsigned_multipliers s = s ↔ multipliers_nonneg s = true).
Proof.
  unfold settlement_ok, i32_ok, multipliers_nonneg, unsigned_multipliers, to_uint32.
  rewrite !andb_true_iff, !between_spec, !Z.leb_le. intros ([??]&[??]&_).
  destruct s as [a b c d]; cbn in *. change (2 ^ 32) with 4294967296.
  split.
  { intros E. injection E as Ha Hb. rewrite <- Ha, <- Hb.
    split; by apply Z.mod_pos_bound. } intros [??]. by rewrite !Z.mod_small by lia.
Qed.

Lemma decodeRecovery_reads x : reads decodeRecovery (recovery_enc x) x.
Proof.
  intros r rest Hwf Hrem. unfold recovery_enc, bool_enc in Hrem |- *.
  rewrite <- !app_assoc in Hrem. unfold decodeRecovery. chain_reads. end_reads.
  by destruct x.
Qed.

#[export] Hint Resolve decodePenalty_reads decodeSettlement_unsigned decodeRecovery_reads
  decodeDefaults_reads : codec_reads.

(** ** Properties *)



Definition set_defaults (m : StringMap) (rs : RuleSet) : RuleSet :=
  mkRuleSet (game_type rs) (player_count_min rs) (player_count_max rs) (stake_amount rs)
    (min_bet rs) (max_bet rs) (decision_timeout_blocks rs) (recovery_timeout_blocks rs)
    (invitation_window_blocks rs) m (penalty_schedule rs) (deck_format rs)
    (shuffle_algorithm_version rs) (settlement_rules rs) (recovery_rules rs)
    (serialisation_version rs).




(** The order of the properties does not reach the wire. *)
Lemma encodeRuleSet_perm rs m :
  NoDup (obj_keys m) → Forall (λ k, js_string_ok k = true) (obj_keys m) →
  m ≡ₚ default_action_by_state rs → encodeRuleSet (set_defaults m rs) = encodeRuleSet rs.
Proof.
  unfold obj_keys. intros Hnd Hok Hp.
  destruct rs as [a1 a2 a3 a4 a5 a6 a7 a8 a9 a10 a11 a12 a13 a14 a15 a16].
  unfold encodeRuleSet, set_defaults in *.
  cbn [serialisation_version game_type player_count_min
    player_count_max stake_amount min_bet max_bet decision_timeout_blocks
    recovery_timeout_blocks invitation_window_blocks penalty_schedule deck_format
    shuffle_algorithm_version settlement_rules recovery_rules default_action_by_state] in *.
  repeat (apply js_bind_ext; intros ?). by rewrite (encodeDefaults_perm _ _ _ Hnd Hok Hp).
Qed.



Definition sample_rules : RuleSet :=
  mkRuleSet in_between 2 8 10000 100 5000 6 144 12
    [("S8_BET_DECISION", "Pass"); ("S3_ENTROPY_COMMIT_WINDOW", "Timeout")]
    (mkPenaltySchedule 500 700 100 200) 52 1 (mkSettlementRules 2 1 100 200)
    (mkRecoveryRules true true false) 1.


(** The encoding is canonical.  Two rule sets that agree except for the order in which
    the properties of [default_action_by_state] were inserted have the same encoding, and
    so the same rule-set hash. *)
Theorem encodeRuleSet_canonical sha256 rs m :
  NoDup (obj_keys m) → Forall (λ k, js_string_ok k = true) (obj_keys m) →
  m ≡ₚ default_action_by_state rs →
  encodeRuleSet (set_defaults m rs) = encodeRuleSet rs
  ∧ ruleSetHash sha256 (set_defaults m rs) = ruleSetHash sha256 rs.
Proof.
  intros Hnd Hok Hp. pose proof (encodeRuleSet_perm rs m Hnd Hok Hp) as He.
  split; [done|]. unfold ruleSetHash. by rewrite He.
Qed.

Lemma encodeRuleSet_canonical_witness :
  encodeRuleSet (set_defaults (rev (default_action_by_state sample_rules)) sample_rules)
  = encodeRuleSet sample_rules.
Proof.
  apply (encodeRuleSet_canonical (λ b, b) sample_rules).
  - apply (bool_decide_unpack _). by vm_compute.
  - repeat constructor; by vm_compute.
  - symmetry. apply Permutation_rev.
Defined.

(** Step over one read of arbitrary input. *)
Ltac safe_next lem :=
  eapply (safe_step _ _ _ _ _ (λ m, m ≠ OutOfFuel)); [apply lem|eassumption| |done];
  let Hwf := fresh "Hwf" in intros ? ? _ Hwf; cbv beta.

Lemma decodePenalty_safe : safe_read decodePenalty 0 (λ _, True).
Proof.
  unfold decodePenalty.
  do 4 (eapply (safe_bind _ _ 0 8 0); [apply readU64LE_safe|intros ? _|done]).
  by apply (safe_ret (mkPenaltySchedule _ _ _ _)).
Qed.

Lemma decodeSettlement_safe : safe_read decodeSettlement 0 (λ _, True).
Proof.
  unfold decodeSettlement.
  do 2 (eapply (safe_bind _ _ 0 4 0); [apply readU32LE_safe|intros ? _|done]).
  do 2 (eapply (safe_bind _ _ 0 8 0); [apply readU64LE_safe|intros ? _|done]).
  by apply (safe_ret (mkSettlementRules _ _ _ _)).
Qed.

Lemma decodeRecovery_safe : safe_read decodeRecovery 0 (λ _, True).
Proof.
  unfold decodeRecovery.
  do 3 (eapply (safe_bind _ _ 0 1 0); [apply readBool_safe|intros ? _|done]).
  by apply (safe_ret (mkRecoveryRules _ _ _)).
Qed.

(** Decoding is total.  On every byte buffer [decodeRuleSet] returns a [Result]: it
    never throws and its loop, whose count comes from the wire, always stops. *)
Theorem decodeRuleSet_total bs :
  Forall is_byte bs → ∃ res, decodeRuleSet bs = Ret res.
Proof.
  intros Hb. unfold decodeRuleSet.
  match goal with |- ∃ _, catch_serialisation ?m = _ =>
    cut (m ≠ OutOfFuel); [destruct m; [by eexists|by eexists|done]|] end.
  cbv zeta. assert (Hwf : wf_input (new_reader bs))
    by (split; [split; [done|apply blen_nonneg]|done]).
  revert Hwf. generalize (new_reader bs). intros r Hwf.
  safe_next readU8_safe. destruct (negb _); [done|].
  safe_next readU8_safe. destruct (GAME_TYPE_FROM_CODE _); [|done].
  do 2 safe_next readU8_safe. do 3 safe_next readU64LE_safe. do 3 safe_next readU32LE_safe.
  safe_next decodeDefaults_safe. safe_next decodePenalty_safe.
  safe_next readU8_safe. destruct (_ && _); [done|]. safe_next readU8_safe.
  safe_next decodeSettlement_safe. safe_next decodeRecovery_safe. done.
Qed.

Lemma decodeRuleSet_total_witness :
  ∃ res, decodeRuleSet [1; 1; 2; 8; 0; 0; 255] = Ret res.
Proof. apply decodeRuleSet_total. repeat constructor; done. Defined.

(** Negative multipliers change sign class on the wire.  [encodeSettlement] accepts
    every [i32], [decodeSettlement] reads unsigned words, so settlement rules survive
    exactly when both multipliers are non-negative. *)
Theorem settlement_multipliers_unsigned s w rest :
  wf_writer w → settlement_ok s = true →
  ∃ w' s' r, encodeSettlement s w = Ret w'
    ∧ decodeSettlement (mkReader (w_bytes w' ++ rest) (woffset w)) = Ret (s', r)
    ∧ in_between_win_multiplier s' = in_between_win_multiplier s mod 2 ^ 32
    ∧ in_between_loss_multiplier s' = in_between_loss_multiplier s mod 2 ^ 32
    ∧ (s' = s ↔ 0 ≤ in_between_win_multiplier s ∧ 0 ≤ in_between_loss_multiplier s).
Proof.
  intros Hwf Hok. pose proof (encodeSettlement_spec s w Hwf) as H. rewrite Hok in H.
  destruct H as (w' & Hw & _ & Hb).
  assert (Hlen : length (w_bytes w) = Z.to_nat (woffset w)).
  { destruct Hwf as [? _]. unfold w_bytes, blen in *. rewrite length_take. lia. }
  eexists w', (unsigned_multipliers s), _. split_and!; [done| |done|done|].
  - apply (decodeSettlement_unsigned s Hok _ rest).
    + destruct Hwf as [? _]. unfold wf_reader. cbn [rbuf roffset].
      rewrite Hb, !blen_app. pose proof (blen_nonneg (settlement_enc s)).
      pose proof (blen_nonneg rest). unfold blen in *. lia.
    + unfold rem. cbn [rbuf roffset]. rewrite Hb, <- Hlen, <- app_assoc. apply drop_app_length.
  - rewrite unsigned_multipliers_id by done. unfold multipliers_nonneg.
    by rewrite andb_true_iff, !Z.leb_le.
Qed.

Lemma settlement_multipliers_unsigned_witness :
  ∃ w' s' r, encodeSettlement (mkSettlementRules (-1) 1 0 0) (new_writer 256) = Ret w'
    ∧ decodeSettlement (mkReader (w_bytes w' ++ []) 0) = Ret (s', r)
    ∧ in_between_win_multiplier s' = 4294967295.
Proof.
  destruct (settlement_multipliers_unsigned (mkSettlementRules (-1) 1 0 0) (new_writer 256) [])
    as (w' & s' & r & H1 & H2 & H3 & _); [vm_compute; repeat split; congruence|done|].
  by exists w', s', r.
Defined.
