(* ===== verification/Serialise.v ===== *)
(** * protocol-types: canonical state hash

    [packages/protocol-types/src/serialise.ts]: the canonical encoding of a
    [RoundState] and its SHA-256.  The theorems show that the encoding is injective up
    to a normal form, so that equal state hashes give equal states or a collision of
    the hash function, and that every player id that is not 64 characters long makes
    the hash throw. *)

From S2P Require Import Prelude Bytes Primitives Types Codec.

Definition TAG_PLAYER : Z := 0x0002.
Definition TAG_ROUNDSTATE : Z := 0x0009.
Definition TAG_CONCEALED_CARD : Z := 0x0008.
Definition ROUNDSTATE_VERSION : Z := 1.
Definition PLAYER_VERSION : Z := 1.
Definition CONCEALED_CARD_VERSION : Z := 1.

Definition ZERO_32 : bytes := replicate 32 0.

(** ** Strings by code unit *)

(** The UTF-8 bytes of a list of UTF-16 code units; a lone surrogate becomes U+FFFD. *)
Fixpoint units_utf8 (us : list Z) : bytes :=
  match us with
  | [] => []
  | u :: r =>
    if u <? 0x80 then u :: units_utf8 r
    else if u <? 0x800 then 0xC0 + u / 64 :: 0x80 + u mod 64 :: units_utf8 r
    else if between 0xD800 0xDBFF u then
      match r with
      | v :: r' =>
        if between 0xDC00 0xDFFF v then
          let c := 0x10000 + (u - 0xD800) * 1024 + (v - 0xDC00) in
          0xF0 + c / 262144 :: 0x80 + c / 4096 mod 64 :: 0x80 + c / 64 mod 64
            :: 0x80 + c mod 64 :: units_utf8 r'
        else 0xEF :: 0xBF :: 0xBD :: units_utf8 r
      | [] => [0xEF; 0xBF; 0xBD]
      end
    else if between 0xDC00 0xDFFF u then 0xEF :: 0xBF :: 0xBD :: units_utf8 r
    else 0xE0 + u / 4096 :: 0x80 + u / 64 mod 64 :: 0x80 + u mod 64 :: units_utf8 r
  end.

Definition units_string (us : list Z) : string := bytes_string (units_utf8 us).

(** [s.substring(start)] on code units: a negative start counts as 0. *)
Definition substring_from (us : list Z) (start : Z) : list Z := drop (Z.to_nat start) us.

(** ** Primitive encoders *)

(** [concat(p, q, ...)]: the arguments are evaluated from left to right, and the first
    that throws ends the call. *)
Fixpoint concat (parts : list (js bytes)) : js bytes :=
  match parts with
  | [] => Ret []
  | p :: parts => b ← p; rest ← concat parts; Ret (b ++ rest)
  end.

Definition encU8 (n : Z) : bytes := [u8 (js_and n 0xff)].
Definition encU16LE (n : Z) : bytes := [u8 (js_and n 0xff); u8 (js_and (js_ushr n 8) 0xff)].
Definition encU32LE (n : Z) : bytes :=
  [u8 (js_and n 0xff); u8 (js_and (js_ushr n 8) 0xff);
   u8 (js_and (js_ushr n 16) 0xff); u8 (js_and (js_ushr n 24) 0xff)].

(** [setBigUint64(0, BigInt(n), true)] keeps [n] modulo [2^64]. *)
Definition encU64LE (n : Z) : bytes := le_bytes 8 n.

Definition encBool (b : bool) : bytes := [if b then 1 else 0].

Definition encVarint (n : Z) : bytes :=
  if n <? 0xfd then [u8 n]
  else if n <=? 0xffff then [0xfd; u8 (js_and n 0xff); u8 (js_and (js_ushr n 8) 0xff)]
  else if n <=? 0xffffffff then 0xfe :: le_bytes 4 (js_ushr n 0)
  else 0xff :: le_bytes 8 n.

Definition encString (s : string) : bytes :=
  let bs := text_encode s in encVarint (blen bs) ++ bs.

Definition encBytes32Units (us : list Z) : js bytes :=
  let len := Z.of_nat (length us) in
  if negb (len =? 64)
  then Throw ("encBytes32Hex: expected 64 hex chars, got " +:+ pretty len)
  else hex_pairs (λ off, Throw ("encBytes32Hex: bad hex at " +:+ pretty off +:+ ": "
                                +:+ units_string us)) 0 us.

Definition encBytes32Hex (h : string) : js bytes := encBytes32Units (js_units h).

Definition encOptionalHash (h : option Hash256) : js bytes :=
  match h with
  | None => Ret (encBool false)
  | Some h => concat [Ret (encBool true); encBytes32Hex h]
  end.

Definition encOptionalU32 (n : option Z) : js bytes :=
  match n with
  | None => Ret (encBool false)
  | Some n => concat [Ret (encBool true); Ret (encU32LE n)]
  end.

Definition encOptionalSeat (n : option Z) : js bytes :=
  match n with
  | None => Ret (encBool false)
  | Some n => concat [Ret (encBool true); Ret (encU32LE n)]
  end.

Definition encOptionalString (s : option string) : js bytes :=
  match s with
  | None | Some EmptyString => Ret (encBool false)
  | Some s => concat [Ret (encBool true); Ret (encString s)]
  end.

Definition encArrayBytes32 (items : list Hash256) : js bytes :=
  concat (Ret (encVarint (Z.of_nat (length items))) :: (encBytes32Hex <$> items)).

Definition encArrayString (items : list string) : js bytes :=
  concat (Ret (encVarint (Z.of_nat (length items))) :: ((λ s, Ret (encString s)) <$> items)).

(** ** Composite encoders *)

Definition encPreferences (prefs : StringMap) : js bytes :=
  let keys := js_sort (obj_keys prefs) in
  concat (Ret (encVarint (Z.of_nat (length keys)))
          :: flat_map (λ k, [Ret (encString k);
                             Ret (encString (default EmptyString (obj_get prefs k)))]) keys).

(** [encBytes32Hex(pk.substring(pk.length - 64))]: the trailing 32 bytes *)
Definition encPubkeyTail (pk : Pubkey33) : js bytes :=
  encBytes32Units (substring_from (js_units pk) (js_length pk - 64)).

Definition encPlayer (p : PlayerState) : js bytes :=
  concat [
    Ret (encU16LE TAG_PLAYER);
    Ret (encU8 PLAYER_VERSION);
    Ret (encU32LE (seat p));
    encBytes32Hex (player_id p);
    encPubkeyTail (value_signing_pubkey p);
    Ret (encString (ParticipationStatus_string (participation_status p)));
    Ret (encU64LE (stake_at_risk p));
    encOptionalString (stake_outpoint p);
    Ret (encBool (entropy_committed p));
    encOptionalHash (entropy_commitment_hash p);
    Ret (encBool (entropy_revealed p));
    encOptionalHash (entropy_value p);
    encArrayString (concealed_card_refs p);
    encPreferences (default_preferences p)].

Definition encVisibleCards (cards : list RevealedCard) : js bytes :=
  concat (Ret (encVarint (Z.of_nat (length cards)))
          :: ((λ c, Ret (encU8 (ordinal c))) <$> cards)).

Definition encConcealedCard (c : ConcealedCard) : js bytes :=
  concat [
    Ret (encU16LE TAG_CONCEALED_CARD);
    Ret (encU8 CONCEALED_CARD_VERSION);
    Ret (encU32LE (position (cc_commitment c)));
    encBytes32Hex (card_commitment (cc_commitment c));
    encBytes32Hex (card_nonce (cc_commitment c));
    Ret (encString (ciphertext c));
    Ret (encString (custody_outpoint c));
    encPubkeyTail (holder_pubkey c);
    Ret (encString (lifecycle_state c))].

Definition encOptionalConcealedDeck (deck : option (list ConcealedCard)) : js bytes :=
  match deck with
  | None => Ret (encBool false)
  | Some deck =>
    concat (Ret (encBool true) :: Ret (encVarint (Z.of_nat (length deck)))
            :: (encConcealedCard <$> deck))
  end.

Definition encPlayers (ps : list PlayerState) : js bytes :=
  concat (Ret (encVarint (Z.of_nat (length ps))) :: (encPlayer <$> ps)).

Definition encodeRoundState (state : RoundState) : js bytes :=
  concat [
    Ret (encU16LE TAG_ROUNDSTATE);
    Ret (encU8 ROUNDSTATE_VERSION);
    Ret (encString (StateClass_string (state_class state)));
    encBytes32Hex (game_id state);
    encBytes32Hex (rule_set_hash state);
    Ret (encU32LE (round_number state));
    encOptionalSeat (acting_player_seat state);
    encPlayers (players state);
    Ret (encU64LE (pot_value state));
    encVisibleCards (visible_cards state);
    encArrayBytes32 (hidden_commitment_refs state);
    encArrayString (ActionType_string <$> allowed_actions state);
    encOptionalU32 (decision_deadline_block_height state);
    encOptionalU32 (recovery_deadline_block_height state);
    encArrayBytes32 (successor_template_hashes state);
    encOptionalHash (combined_entropy state);
    encOptionalHash (deck_commitment_hash state);
    encOptionalConcealedDeck (concealed_deck state);
    encOptionalHash (prior_state_hash state);
    Ret ZERO_32].

Definition computeStateHash (sha256 : bytes → bytes) (state : RoundState) : js Hash256 :=
  encoded ← encodeRoundState state;
  asHash256 (to_hex (sha256 encoded)).

Definition chainsFromHash (sha256 : bytes → bytes) (prior : option RoundState)
    (next : RoundState) : js bool :=
  match prior with
  | None => Ret (bool_decide (prior_state_hash next = None))
  | Some prior =>
    match prior_state_hash next with
    | None => Ret false
    | Some h =>
      expected ← computeStateHash sha256 prior;
      Ret (bool_decide (h = expected))
    end
  end.

(** ** What the hash covers

    Two states are hashed alike when they agree on [hashed_state]: everything but the
    [state_hash] field, the parity prefix of public keys, the order of preferences,
    the rank and suit of visible cards (their ordinal is hashed), the difference
    between an absent and an empty outpoint, and numbers beyond their wire width. *)

Definition pubkey_tail (pk : Pubkey33) : string :=
  match pk with String _ (String _ r) => r | _ => pk end.

Definition nonempty (s : option string) : option string :=
  match s with Some EmptyString => None | s => s end.

Definition hashed_card (c : RevealedCard) : RevealedCard :=
  mkRevealedCard R2 clubs (ordinal c mod 256).

Definition hashed_concealed (c : ConcealedCard) : ConcealedCard :=
  mkConcealedCard
    (mkCardCommitment (to_uint32 (position (cc_commitment c)))
       (card_commitment (cc_commitment c)) (card_nonce (cc_commitment c)))
    (ciphertext c) (custody_outpoint c) (pubkey_tail (holder_pubkey c)) (lifecycle_state c).

Definition hashed_player (p : PlayerState) : PlayerState :=
  mkPlayerState (to_uint32 (seat p)) (player_id p) (pubkey_tail (value_signing_pubkey p))
    (participation_status p) (stake_at_risk p mod 2 ^ 64) (nonempty (stake_outpoint p))
    (entropy_committed p) (entropy_commitment_hash p) (entropy_revealed p)
    (entropy_value p) (concealed_card_refs p) (canonical_map (default_preferences p)).

Definition hashed_state (s : RoundState) : RoundState :=
  mkRoundState (state_class s) (game_id s) (rule_set_hash s) (to_uint32 (round_number s))
    (to_uint32 <$> acting_player_seat s) (hashed_player <$> players s)
    (pot_value s mod 2 ^ 64) (hashed_card <$> visible_cards s) (hidden_commitment_refs s)
    (allowed_actions s) (to_uint32 <$> decision_deadline_block_height s)
    (to_uint32 <$> recovery_deadline_block_height s) (successor_template_hashes s)
    (combined_entropy s) (deck_commitment_hash s)
    ((λ d : list ConcealedCard, hashed_concealed <$> d) <$> concealed_deck s) (prior_state_hash s) EmptyString.

(** The shapes the types promise: hashes are 64 lower-case hex digits, public keys 66,
    and lengths are safe integers. *)
Definition string_fits (s : string) : bool := u64_ok (blen (text_encode s)).
Definition list_fits {A} (l : list A) : bool := u64_ok (Z.of_nat (length l)).
Definition hash_ok (h : string) : bool := is_hex_n 64 h.
Definition opt_ok {A} (f : A → bool) (o : option A) : bool :=
  match o with None => true | Some x => f x end.

Definition player_hashable (p : PlayerState) : bool :=
  hash_ok (player_id p) && is_pubkey33 (value_signing_pubkey p)
  && opt_ok string_fits (stake_outpoint p)
  && opt_ok hash_ok (entropy_commitment_hash p) && opt_ok hash_ok (entropy_value p)
  && list_fits (concealed_card_refs p) && forallb string_fits (concealed_card_refs p)
  && list_fits (default_preferences p) && bool_decide (NoDup (default_preferences p).*1)
  && forallb (λ e, string_fits e.1 && string_fits e.2) (canonical_map (default_preferences p)).

Definition concealed_hashable (c : ConcealedCard) : bool :=
  hash_ok (card_commitment (cc_commitment c)) && hash_ok (card_nonce (cc_commitment c))
  && string_fits (ciphertext c) && string_fits (custody_outpoint c)
  && is_pubkey33 (holder_pubkey c) && string_fits (lifecycle_state c).

Definition state_hashable (s : RoundState) : bool :=
  hash_ok (game_id s) && hash_ok (rule_set_hash s)
  && list_fits (players s) && forallb player_hashable (players s)
  && list_fits (visible_cards s)
  && list_fits (hidden_commitment_refs s) && forallb hash_ok (hidden_commitment_refs s)
  && list_fits (allowed_actions s)
  && list_fits (successor_template_hashes s) && forallb hash_ok (successor_template_hashes s)
  && opt_ok hash_ok (combined_entropy s) && opt_ok hash_ok (deck_commitment_hash s)
  && opt_ok (λ d, list_fits d && forallb concealed_hashable d) (concealed_deck s)
  && opt_ok hash_ok (prior_state_hash s).

(** ** Injective encodings

    [m1] and [m2], where they return, are equal on a common stream only if [P] holds,
    and they then leave the same rest. *)
Definition inj_pair (m1 m2 : js bytes) (P : Prop) : Prop :=
  ∀ b1 b2 r1 r2, m1 = Ret b1 → m2 = Ret b2 → b1 ++ r1 = b2 ++ r2 → P ∧ r1 = r2.

Lemma inj_weaken m1 m2 (P Q : Prop) : inj_pair m1 m2 P → (P → Q) → inj_pair m1 m2 Q.
Proof. intros H HPQ b1 b2 r1 r2 H1 H2 E. destruct (H _ _ _ _ H1 H2 E). auto. Qed.

Lemma inj_nil : inj_pair (concat []) (concat []) True.
Proof. by intros b1 b2 r1 r2 [= <-] [= <-] E. Qed.

Lemma inj_cons m1 m2 l1 l2 (P Q : Prop) :
  inj_pair m1 m2 P → (P → inj_pair (concat l1) (concat l2) Q) →
  inj_pair (concat (m1 :: l1)) (concat (m2 :: l2)) (P ∧ Q).
Proof.
  intros Hm Hl b1 b2 r1 r2 H1 H2 E. cbn [concat] in H1, H2.
  apply js_bind_Ret in H1 as (a1 & Ha1 & H1). apply js_bind_Ret in H1 as (c1 & Hc1 & [= <-]).
  apply js_bind_Ret in H2 as (a2 & Ha2 & H2). apply js_bind_Ret in H2 as (c2 & Hc2 & [= <-]).
  rewrite <- !app_assoc in E. destruct (Hm _ _ _ _ Ha1 Ha2 E) as [HP E'].
  destruct (Hl HP _ _ _ _ Hc1 Hc2 E') as [HQ ?]. done.
Qed.

Lemma inj_fixed b1 b2 (P : Prop) :
  length b1 = length b2 → (b1 = b2 → P) → inj_pair (Ret b1) (Ret b2) P.
Proof.
  intros Hlen HP c1 c2 r1 r2 [= <-] [= <-] E.
  apply app_inj_1 in E as [? ?]; auto.
Qed.

Lemma reads_unique {A} (f : CanonicalReader → js (A * CanonicalReader)) e1 e2 x y r1 r2 :
  reads f e1 x → reads f e2 y → e1 ++ r1 = e2 ++ r2 → x = y ∧ e1 = e2 ∧ r1 = r2.
Proof.
  intros H1 H2 E. destruct (new_reader_input e1 r1) as [Hwf1 Hr1].
  destruct (new_reader_input e2 r2) as [Hwf2 Hr2]. rewrite <- E in Hwf2, Hr2.
  pose proof (H1 _ _ Hwf1 Hr1) as G1. pose proof (H2 _ r2 Hwf2) as G2.
  rewrite E in G2. specialize (G2 eq_refl). rewrite E, G2 in G1.
  injection G1 as Hxy Hlen. unfold blen in Hlen. cbn [new_reader roffset] in Hlen.
  apply app_inj_1 in E as [? ?]; [|lia]. done.
Qed.

(** ** The leaves *)

Lemma encVarint_enc n : u64_ok n = true → encVarint n = varint_enc n.
Proof.
  rewrite u64_ok_spec. intros Hn. unfold encVarint, varint_enc, u8.
  destruct (Z.ltb_spec n 0xfd); [by rewrite Z.mod_small by lia|].
  destruct (Z.leb_spec n 0xffff).
  - rewrite js_and_ff, js_ushr_and, !Z.mod_mod by lia. done.
  - destruct (Z.leb_spec n 0xffffffff); [|done].
    unfold js_ushr, to_uint32. rewrite Z.shiftr_0_r, Z.mod_small by lia. done.
Qed.

Lemma inj_varint n1 n2 :
  u64_ok n1 = true → u64_ok n2 = true →
  inj_pair (Ret (encVarint n1)) (Ret (encVarint n2)) (n1 = n2).
Proof.
  intros H1 H2 b1 b2 r1 r2 [= <-] [= <-] E. rewrite !encVarint_enc in E by done.
  destruct (reads_unique readVarint (varint_enc n1) (varint_enc n2) n1 n2 r1 r2) as (?&?&?);
    [by apply (codec_reads (wr := writeVarint))..|done|done].
Qed.

Lemma inj_string s1 s2 :
  string_fits s1 = true → string_fits s2 = true →
  inj_pair (Ret (encString s1)) (Ret (encString s2)) (s1 = s2).
Proof.
  intros H1 H2 b1 b2 r1 r2 [= <-] [= <-] E. unfold encString in E.
  rewrite <- !app_assoc in E.
  destruct (inj_varint _ _ H1 H2 _ _ _ _ eq_refl eq_refl E) as [Hlen E'].
  apply app_inj_1 in E' as [Es ?]; [|unfold blen in Hlen; lia].
  split; [by apply string_bytes_inj|done].
Qed.

Lemma encU32LE_bytes n : encU32LE n = le_bytes 4 n.
Proof. rewrite <- put4_bytes. done. Qed.

Lemma inj_le n a b :
  inj_pair (Ret (le_bytes n a)) (Ret (le_bytes n b))
    (a mod 256 ^ Z.of_nat n = b mod 256 ^ Z.of_nat n).
Proof.
  apply inj_fixed; [by rewrite !length_le_bytes|]. intros E%(f_equal le_val).
  by rewrite !le_val_le_bytes in E.
Qed.

Lemma inj_u32 a b :
  inj_pair (Ret (encU32LE a)) (Ret (encU32LE b)) (to_uint32 a = to_uint32 b).
Proof. rewrite !encU32LE_bytes. apply inj_le. Qed.

Lemma inj_u64 a b :
  inj_pair (Ret (encU64LE a)) (Ret (encU64LE b)) (a mod 2 ^ 64 = b mod 2 ^ 64).
Proof. apply (inj_le 8). Qed.

Lemma inj_bool a b : inj_pair (Ret (encBool a)) (Ret (encBool b)) (a = b).
Proof. apply inj_fixed; [done|]. by destruct a, b. Qed.

Lemma inj_const bs : inj_pair (Ret bs) (Ret bs) True.
Proof. by apply inj_fixed. Qed.

Lemma encBytes32_to_hex bs :
  length bs = 32%nat → Forall is_byte bs → encBytes32Units (js_units (to_hex bs)) = Ret bs.
Proof.
  intros Hlen Hb. unfold encBytes32Units.
  pose proof (js_length_to_hex bs Hb) as H. unfold js_length, blen in H. rewrite H, Hlen.
  cbn [negb Z.eqb]. change (negb (2 * Z.of_nat 32 =? 64)) with false. cbv iota.
  by apply hex_pairs_to_hex.
Qed.

Lemma inj_hash h1 h2 :
  hash_ok h1 = true → hash_ok h2 = true →
  inj_pair (encBytes32Hex h1) (encBytes32Hex h2) (h1 = h2).
Proof.
  intros (b1&->&Hl1&Hb1)%(is_hex_n_to_hex 32) (b2&->&Hl2&Hb2)%(is_hex_n_to_hex 32).
  unfold encBytes32Hex. rewrite !encBytes32_to_hex by done.
  apply inj_fixed; [congruence|by intros ->].
Qed.

Lemma pubkey_tail_hex pk :
  is_pubkey33 pk = true →
  ∃ bs, pubkey_tail pk = to_hex bs ∧ length bs = 32%nat ∧ Forall is_byte bs
    ∧ encPubkeyTail pk = Ret bs.
Proof.
  destruct pk as [|c0 [|c1 r]]; try done. cbn [is_pubkey33 pubkey_tail].
  rewrite !andb_true_iff, orb_true_iff, !Z.eqb_eq.
  intros [[H0 H1] (bs&->&Hlen&Hb)%(is_hex_n_to_hex 32)].
  exists bs. split_and!; try done. unfold encPubkeyTail, js_length.
  rewrite !js_units_ascii by lia. unfold substring_from.
  pose proof (js_length_to_hex bs Hb) as H. unfold js_length, blen in H. cbn [length].
  replace (Z.to_nat _) with 2%nat by lia. cbn [drop]. by apply encBytes32_to_hex.
Qed.

Lemma inj_pubkey pk1 pk2 :
  is_pubkey33 pk1 = true → is_pubkey33 pk2 = true →
  inj_pair (encPubkeyTail pk1) (encPubkeyTail pk2) (pubkey_tail pk1 = pubkey_tail pk2).
Proof.
  intros (b1&->&Hl1&Hb1&->)%pubkey_tail_hex (b2&->&Hl2&Hb2&->)%pubkey_tail_hex.
  apply inj_fixed; [congruence|by intros ->].
Qed.

(** ** Options, arrays and maps *)

Definition encOption {A} (f : A → js bytes) (o : option A) : js bytes :=
  match o with
  | None => Ret (encBool false)
  | Some x => concat [Ret (encBool true); f x]
  end.

Lemma inj_option {A B} (f : A → js bytes) (g : A → B) (ok : A → bool) o1 o2 :
  (∀ x y, ok x = true → ok y = true → inj_pair (f x) (f y) (g x = g y)) →
  opt_ok ok o1 = true → opt_ok ok o2 = true →
  inj_pair (encOption f o1) (encOption f o2) (g <$> o1 = g <$> o2).
Proof.
  intros Hf H1 H2. destruct o1 as [x|], o2 as [y|]; cbn [encOption opt_ok] in *.
  - eapply inj_weaken; [apply inj_cons; [apply inj_const|]|].
    + intros _. apply inj_cons; [by apply Hf|]. intros _. apply inj_nil.
    + intros (_&E&_). cbn. by rewrite E.
  - intros b1 b2 r1 r2 Hb1 [= <-] E. cbn [concat] in Hb1.
    apply js_bind_Ret in Hb1 as (?&[= <-]&(?&?&[= <-])%js_bind_Ret). done.
  - intros b1 b2 r1 r2 [= <-] Hb2 E. cbn [concat] in Hb2.
    apply js_bind_Ret in Hb2 as (?&[= <-]&(?&?&[= <-])%js_bind_Ret). done.
  - by apply inj_fixed.
Qed.

Lemma inj_elements {A B} (f : A → js bytes) (g : A → B) (ok : A → bool) l1 l2 :
  (∀ x y, ok x = true → ok y = true → inj_pair (f x) (f y) (g x = g y)) →
  forallb ok l1 = true → forallb ok l2 = true → length l1 = length l2 →
  inj_pair (concat (f <$> l1)) (concat (f <$> l2)) (g <$> l1 = g <$> l2).
Proof.
  intros Hf. revert l2. induction l1 as [|x l1 IH]; intros [|y l2] H1 H2 Hlen; try done.
  { eapply inj_weaken; [apply inj_nil|done]. }
  cbn [forallb] in H1, H2. apply andb_true_iff in H1 as [??], H2 as [??].
  injection Hlen as Hlen.
  eapply inj_weaken; [apply inj_cons; [by apply Hf|]|].
  - intros _. by apply IH.
  - intros [E1 E2]. by rewrite !fmap_cons, E1, E2.
Qed.

(** A count followed by the elements *)
Lemma inj_array {A B} (f : A → js bytes) (g : A → B) (ok : A → bool) l1 l2 :
  (∀ x y, ok x = true → ok y = true → inj_pair (f x) (f y) (g x = g y)) →
  list_fits l1 = true → list_fits l2 = true → forallb ok l1 = true → forallb ok l2 = true →
  inj_pair (concat (Ret (encVarint (Z.of_nat (length l1))) :: (f <$> l1)))
           (concat (Ret (encVarint (Z.of_nat (length l2))) :: (f <$> l2)))
           (g <$> l1 = g <$> l2).
Proof.
  intros Hf Hl1 Hl2 H1 H2.
  eapply inj_weaken; [apply inj_cons; [by apply inj_varint|]|].
  - intros Hlen. eapply inj_elements; [exact Hf|done|done|lia].
  - by intros [_ ?].
Qed.

Lemma concat_app l1 l2 :
  concat (l1 ++ l2) = (b1 ← concat l1; b2 ← concat l2; Ret (b1 ++ b2)).
Proof.
  induction l1 as [|p l1 IH]; cbn [app concat].
  { cbn [mbind js_bind]. by destruct (concat l2). }
  destruct p as [b| |]; [|done..]. cbn [mbind js_bind]. rewrite IH.
  destruct (concat l1) as [b1| |]; [|done..]. cbn [mbind js_bind].
  destruct (concat l2); [|done..]. cbn [mbind js_bind]. by rewrite app_assoc.
Qed.

Lemma concat_flat_map {A} (f : A → list (js bytes)) l :
  concat (flat_map f l) = concat ((λ x, concat (f x)) <$> l).
Proof.
  induction l as [|x l IH]; [done|]. cbn [flat_map]. rewrite concat_app, IH. done.
Qed.

Lemma encOptionalString_option s :
  encOptionalString s = encOption (λ s, Ret (encString s)) (nonempty s).
Proof. by destruct s as [[]|]. Qed.

Lemma concat_nested p l : concat [p; concat l] = concat (p :: l).
Proof.
  cbn [concat]. apply js_bind_ext. intros a. destruct (concat l); [|done..].
  cbn [mbind js_bind]. by rewrite app_nil_r.
Qed.

Lemma encOptionalConcealedDeck_option d :
  encOptionalConcealedDeck d
  = encOption (λ d, concat (Ret (encVarint (Z.of_nat (length d))) :: (encConcealedCard <$> d))) d.
Proof. destruct d as [d|]; [|done]. cbn [encOption]. by rewrite concat_nested. Qed.

Lemma encPreferences_array m :
  let entry e := concat [Ret (encString e.1); Ret (encString e.2)] in
  encPreferences m
  = concat (Ret (encVarint (Z.of_nat (length (canonical_map m)))) :: (entry <$> canonical_map m)).
Proof.
  intros entry. unfold encPreferences, canonical_map. rewrite length_fmap.
  set (keys := js_sort (obj_keys m)). cbn [concat]. apply js_bind_ext. intros a.
  rewrite concat_flat_map, <- list_fmap_compose. done.
Qed.

Lemma inj_map m1 m2 :
  let ok e := string_fits e.1 && string_fits e.2 in
  NoDup m1.*1 → NoDup m2.*1 → list_fits m1 = true → list_fits m2 = true →
  forallb ok (canonical_map m1) = true → forallb ok (canonical_map m2) = true →
  inj_pair (encPreferences m1) (encPreferences m2) (canonical_map m1 = canonical_map m2).
Proof.
  intros ok Hn1 Hn2 Hf1 Hf2 H1 H2. rewrite !encPreferences_array.
  apply (inj_weaken _ _ (id <$> canonical_map m1 = id <$> canonical_map m2));
    [|by rewrite !list_fmap_id].
  apply (inj_array _ id ok); try done; try (unfold list_fits; by rewrite canonical_map_perm).
  intros [k1 v1] [k2 v2] [Hk1 Hv1]%andb_true_iff [Hk2 Hv2]%andb_true_iff. cbn [fst snd] in *.
  eapply inj_weaken; [apply inj_cons; [by apply inj_string|]; intros _;
    apply inj_cons; [by apply inj_string|]; intros _; apply inj_nil|].
  intros (->&->&_). done.
Qed.

Create HintDb injective.
#[export] Hint Resolve inj_const inj_u32 inj_u64 inj_bool inj_hash inj_pubkey inj_string
  : injective.

(** A concatenation, field by field, then the facts collected. *)
Ltac inj_fields :=
  eapply inj_weaken;
  [repeat (eapply inj_cons; [solve [eauto with injective]|intros _]); apply inj_nil|].

Lemma string_fits_small s : blen (text_encode s) < 100 → string_fits s = true.
Proof. intros H. apply u64_ok_spec. pose proof (blen_nonneg (text_encode s)). lia. Qed.

Lemma inj_status x y :
  inj_pair (Ret (encString (ParticipationStatus_string x)))
           (Ret (encString (ParticipationStatus_string y))) (x = y).
Proof.
  eapply inj_weaken; [apply inj_string; apply string_fits_small|].
  - by destruct x.
  - by destruct y.
  - by destruct x, y.
Qed.

Lemma inj_state_class x y :
  inj_pair (Ret (encString (StateClass_string x)))
           (Ret (encString (StateClass_string y))) (x = y).
Proof.
  eapply inj_weaken; [apply inj_string; apply string_fits_small|].
  - by destruct x.
  - by destruct y.
  - by destruct x, y.
Qed.

Lemma inj_opt_hash o1 o2 :
  opt_ok hash_ok o1 = true → opt_ok hash_ok o2 = true →
  inj_pair (encOptionalHash o1) (encOptionalHash o2) (o1 = o2).
Proof.
  intros H1 H2. apply (inj_weaken _ _ (id <$> o1 = id <$> o2)); [|by rewrite !option_fmap_id].
  change (encOptionalHash ?o) with (encOption encBytes32Hex o).
  apply (inj_option _ id hash_ok); [apply inj_hash|done|done].
Qed.

Lemma inj_opt_u32 o1 o2 :
  inj_pair (encOptionalU32 o1) (encOptionalU32 o2) (to_uint32 <$> o1 = to_uint32 <$> o2).
Proof.
  apply (inj_option (λ n, Ret (encU32LE n)) _ (λ _, true)); [intros; apply inj_u32| |].
  - by destruct o1.
  - by destruct o2.
Qed.

Lemma inj_opt_seat o1 o2 :
  inj_pair (encOptionalSeat o1) (encOptionalSeat o2) (to_uint32 <$> o1 = to_uint32 <$> o2).
Proof. apply inj_opt_u32. Qed.

Lemma inj_opt_string o1 o2 :
  opt_ok string_fits o1 = true → opt_ok string_fits o2 = true →
  inj_pair (encOptionalString o1) (encOptionalString o2) (nonempty o1 = nonempty o2).
Proof.
  intros H1 H2. rewrite !encOptionalString_option.
  apply (inj_weaken _ _ (id <$> nonempty o1 = id <$> nonempty o2));
    [|by rewrite !option_fmap_id].
  apply (inj_option _ id string_fits); [apply inj_string| |].
  - by destruct o1 as [[]|].
  - by destruct o2 as [[]|].
Qed.

Lemma inj_hashes l1 l2 :
  list_fits l1 = true → list_fits l2 = true →
  forallb hash_ok l1 = true → forallb hash_ok l2 = true →
  inj_pair (encArrayBytes32 l1) (encArrayBytes32 l2) (l1 = l2).
Proof.
  intros. apply (inj_weaken _ _ (id <$> l1 = id <$> l2)); [|by rewrite !list_fmap_id].
  apply (inj_array _ id hash_ok); auto using inj_hash.
Qed.

Lemma inj_strings l1 l2 :
  list_fits l1 = true → list_fits l2 = true →
  forallb string_fits l1 = true → forallb string_fits l2 = true →
  inj_pair (encArrayString l1) (encArrayString l2) (l1 = l2).
Proof.
  intros. apply (inj_weaken _ _ (id <$> l1 = id <$> l2)); [|by rewrite !list_fmap_id].
  apply (inj_array (λ s, Ret (encString s)) id string_fits); auto using inj_string.
Qed.

#[export] Hint Resolve inj_status inj_state_class inj_opt_hash inj_opt_u32 inj_opt_seat
  inj_opt_string inj_hashes inj_strings inj_map : injective.

Lemma inj_player p1 p2 :
  player_hashable p1 = true → player_hashable p2 = true →
  inj_pair (encPlayer p1) (encPlayer p2) (hashed_player p1 = hashed_player p2).
Proof.
  unfold player_hashable. rewrite !andb_true_iff, !bool_decide_eq_true.
  intros H1 H2. destruct_and!.
  unfold encPlayer. inj_fields. unfold hashed_player. intros. destruct_and!. by f_equal.
Qed.

Lemma inj_concealed c1 c2 :
  concealed_hashable c1 = true → concealed_hashable c2 = true →
  inj_pair (encConcealedCard c1) (encConcealedCard c2) (hashed_concealed c1 = hashed_concealed c2).
Proof.
  unfold concealed_hashable. rewrite !andb_true_iff. intros H1 H2. destruct_and!.
  unfold encConcealedCard. inj_fields. unfold hashed_concealed. intros. destruct_and!. f_equal; [by f_equal|done..].
Qed.

Lemma inj_players l1 l2 :
  list_fits l1 = true → list_fits l2 = true →
  forallb player_hashable l1 = true → forallb player_hashable l2 = true →
  inj_pair (encPlayers l1) (encPlayers l2) (hashed_player <$> l1 = hashed_player <$> l2).
Proof. intros. by apply (inj_array _ _ player_hashable); auto using inj_player. Qed.

Lemma inj_cards l1 l2 :
  list_fits l1 = true → list_fits l2 = true →
  inj_pair (encVisibleCards l1) (encVisibleCards l2) (hashed_card <$> l1 = hashed_card <$> l2).
Proof.
  intros. apply (inj_array (λ c, Ret (encU8 (ordinal c))) _ (λ _, true)); try done.
  - intros [r1 u1 o1] [r2 u2 o2] _ _. apply inj_fixed; [done|].
    unfold encU8, u8, hashed_card. cbn [ordinal]. rewrite !js_and_ff, !Z.mod_mod by lia.
    by intros [= ->].
  - by apply forallb_forall.
  - by apply forallb_forall.
Qed.

Lemma inj_action_types l1 l2 :
  list_fits l1 = true → list_fits l2 = true →
  inj_pair (encArrayString (ActionType_string <$> l1)) (encArrayString (ActionType_string <$> l2))
    (l1 = l2).
Proof.
  intros Hl1 Hl2.
  assert (Hfit : ∀ l : list ActionType, forallb string_fits (ActionType_string <$> l) = true).
  { intros l. apply forallb_forall. intros s (x&<-&_)%in_map_iff.
    apply string_fits_small. by destruct x. }
  eapply inj_weaken; [apply inj_strings|]; auto; unfold list_fits; rewrite ?length_fmap; auto.
  assert (Inj (=) (=) ActionType_string) by (by intros [] []).
  apply (inj (fmap (M := list) ActionType_string)).
Qed.

Lemma inj_deck d1 d2 :
  let ok d := list_fits d && forallb concealed_hashable d in
  opt_ok ok d1 = true → opt_ok ok d2 = true →
  inj_pair (encOptionalConcealedDeck d1) (encOptionalConcealedDeck d2)
    ((λ d : list ConcealedCard, hashed_concealed <$> d) <$> d1
     = (λ d : list ConcealedCard, hashed_concealed <$> d) <$> d2).
Proof.
  intros ok H1 H2. rewrite !encOptionalConcealedDeck_option.
  apply (inj_option _ (λ d : list ConcealedCard, hashed_concealed <$> d) ok); [|done|done].
  intros x y [??]%andb_true_iff [??]%andb_true_iff.
  apply (inj_array _ _ concealed_hashable); auto using inj_concealed.
Qed.

#[export] Hint Resolve inj_players inj_cards inj_action_types inj_deck : injective.

Lemma inj_round_state s1 s2 :
  state_hashable s1 = true → state_hashable s2 = true →
  inj_pair (encodeRoundState s1) (encodeRoundState s2) (hashed_state s1 = hashed_state s2).
Proof.
  unfold state_hashable. rewrite !andb_true_iff. intros H1 H2. destruct_and!.
  unfold encodeRoundState. inj_fields. unfold hashed_state. intros. destruct_and!. by f_equal.
Qed.

(** ** The encoder returns on hashable states *)

Lemma concat_ret l : Forall (λ m, is_ret m = true) l → is_ret (concat l) = true.
Proof.
  induction 1 as [|m l Hm _ IH]; [done|]. cbn [concat].
  destruct m; [|done..]. cbn [mbind js_bind]. by destruct (concat l).
Qed.

Lemma elements_ret {A} (f : A → js bytes) (ok : A → bool) l :
  (∀ x, ok x = true → is_ret (f x) = true) → forallb ok l = true →
  Forall (λ m, is_ret m = true) (f <$> l).
Proof.
  intros Hf. induction l as [|x l IH]; cbn [forallb]; [constructor|].
  intros [??]%andb_true_iff. rewrite fmap_cons. constructor; auto.
Qed.

Lemma array_ret {A} (f : A → js bytes) (ok : A → bool) n l :
  (∀ x, ok x = true → is_ret (f x) = true) → forallb ok l = true →
  is_ret (concat (Ret (encVarint n) :: (f <$> l))) = true.
Proof. intros. apply concat_ret. constructor; [done|]. by eapply elements_ret. Qed.

Lemma option_ret {A} (f : A → js bytes) (ok : A → bool) o :
  (∀ x, ok x = true → is_ret (f x) = true) → opt_ok ok o = true → is_ret (encOption f o) = true.
Proof.
  intros Hf. destruct o as [x|]; [|done]. intros Hx. apply concat_ret.
  repeat constructor. by apply Hf.
Qed.

Lemma hash_ret h : hash_ok h = true → is_ret (encBytes32Hex h) = true.
Proof.
  intros (bs&->&Hl&Hb)%(is_hex_n_to_hex 32). unfold encBytes32Hex. by rewrite encBytes32_to_hex.
Qed.

Lemma pubkey_ret pk : is_pubkey33 pk = true → is_ret (encPubkeyTail pk) = true.
Proof. by intros (bs&_&_&_&->)%pubkey_tail_hex. Qed.

Lemma opt_hash_ret o : opt_ok hash_ok o = true → is_ret (encOptionalHash o) = true.
Proof. apply (option_ret encBytes32Hex hash_ok); apply hash_ret. Qed.

Lemma opt_u32_ret o : is_ret (encOptionalU32 o) = true.
Proof. by destruct o. Qed.

Lemma opt_seat_ret o : is_ret (encOptionalSeat o) = true.
Proof. by destruct o. Qed.

Lemma opt_string_ret o : is_ret (encOptionalString o) = true.
Proof. by destruct o as [[]|]. Qed.

Lemma hashes_ret l : forallb hash_ok l = true → is_ret (encArrayBytes32 l) = true.
Proof. apply array_ret; apply hash_ret. Qed.

Lemma strings_ret l : is_ret (encArrayString l) = true.
Proof. apply (array_ret _ (λ _, true)); [done|]. by apply forallb_forall. Qed.

Lemma map_ret m : is_ret (encPreferences m) = true.
Proof.
  rewrite encPreferences_array. apply (array_ret _ (λ _, true)); [done|]. by apply forallb_forall.
Qed.

Lemma player_ret p : player_hashable p = true → is_ret (encPlayer p) = true.
Proof.
  unfold player_hashable. rewrite !andb_true_iff. intros. destruct_and!. apply concat_ret.
  repeat constructor; auto using hash_ret, pubkey_ret, opt_hash_ret, opt_string_ret,
    strings_ret, map_ret.
Qed.

Lemma concealed_ret c : concealed_hashable c = true → is_ret (encConcealedCard c) = true.
Proof.
  unfold concealed_hashable. rewrite !andb_true_iff. intros. destruct_and!. apply concat_ret.
  repeat constructor; auto using hash_ret, pubkey_ret.
Qed.

Lemma deck_ret d :
  opt_ok (λ d, list_fits d && forallb concealed_hashable d) d = true →
  is_ret (encOptionalConcealedDeck d) = true.
Proof.
  rewrite encOptionalConcealedDeck_option. apply option_ret. intros x [_ ?]%andb_true_iff.
  eapply array_ret; [apply concealed_ret|done].
Qed.

Lemma cards_ret l : is_ret (encVisibleCards l) = true.
Proof. apply (array_ret _ (λ _, true)); [done|]. by apply forallb_forall. Qed.

Lemma encodeRoundState_ret s :
  state_hashable s = true → is_ret (encodeRoundState s) = true.
Proof.
  unfold state_hashable. rewrite !andb_true_iff. intros. destruct_and!. apply concat_ret.
  repeat constructor; auto using hash_ret, opt_hash_ret, opt_u32_ret, opt_seat_ret,
    hashes_ret, strings_ret, deck_ret, cards_ret.
  eapply array_ret; [apply player_ret|done].
Qed.

Lemma concat_Ret l b : concat l = Ret b → Forall (λ m, is_ret m = true) l.
Proof.
  revert b. induction l as [|m l IH]; intros b; [constructor|]. cbn [concat].
  intros (a&->&(c&Hc&_)%js_bind_Ret)%js_bind_Ret. constructor; eauto.
Qed.

(** ** Properties *)

Section hashing.
Context (sha256 : bytes → bytes).
Context (sha256_length : ∀ b, length (sha256 b) = 32%nat).
Context (sha256_byte : ∀ b, Forall is_byte (sha256 b)).

Lemma computeStateHash_ret s :
  state_hashable s = true →
  ∃ b, encodeRoundState s = Ret b ∧ computeStateHash sha256 s = Ret (to_hex (sha256 b)).
Proof.
  intros H%encodeRoundState_ret. unfold computeStateHash.
  destruct (encodeRoundState s) as [b| |]; [|done..]. exists b. split; [done|].
  cbn [mbind js_bind]. unfold asHash256.
  by rewrite (is_hex_n_of_bytes 32) by auto.
Qed.

(** C10: the state hash binds the state.  Hashing a well-formed state never throws, and two
    well-formed states with the same hash agree on every hashed field ([hashed_state]),
    unless their own two encodings are a collision of the hash function. *)
Theorem stateHash_binding s1 s2 :
  state_hashable s1 = true → state_hashable s2 = true →
  ∃ h1 h2, computeStateHash sha256 s1 = Ret h1 ∧ computeStateHash sha256 s2 = Ret h2
    ∧ (h1 = h2 → hashed_state s1 = hashed_state s2
         ∨ ∃ b1 b2, encodeRoundState s1 = Ret b1 ∧ encodeRoundState s2 = Ret b2
                    ∧ collides sha256 b1 b2).
Proof using sha256_length sha256_byte.
  intros H1 H2. destruct (computeStateHash_ret s1 H1) as (b1 & E1 & Hh1).
  destruct (computeStateHash_ret s2 H2) as (b2 & E2 & Hh2).
  eexists _, _. split_and!; [done..|]. intros E.
  apply to_hex_inj in E; [|done..]. destruct (decide (b1 = b2)) as [->|Hne].
  - left. by destruct (inj_round_state s1 s2 H1 H2 _ _ [] [] E1 E2).
  - right. by exists b1, b2.
Qed.

(** A state has one predecessor.  If [chainsFromHash] accepts two well-formed states as
    the prior of the same state, they agree on every hashed field, unless their own two
    encodings are a collision of the hash function. *)
Theorem chainsFromHash_unique p q next :
  state_hashable p = true → state_hashable q = true →
  chainsFromHash sha256 (Some p) next = Ret true →
  chainsFromHash sha256 (Some q) next = Ret true →
  hashed_state p = hashed_state q
  ∨ ∃ b1 b2, encodeRoundState p = Ret b1 ∧ encodeRoundState q = Ret b2
             ∧ collides sha256 b1 b2.
Proof using sha256_length sha256_byte.
  intros Hp Hq. unfold chainsFromHash. destruct (prior_state_hash next) as [h|]; [|done].
  destruct (computeStateHash_ret p Hp) as (b1 & E1 & ->).
  destruct (computeStateHash_ret q Hq) as (b2 & E2 & ->). cbn [mbind js_bind].
  intros [= ->%bool_decide_eq_true] [= E%bool_decide_eq_true].
  apply to_hex_inj in E; [|done..]. destruct (decide (b1 = b2)) as [->|Hne].
  - left. by destruct (inj_round_state p q Hp Hq _ _ [] [] E1 E2).
  - right. by exists b1, b2.
Qed.
End hashing.

(** A player id that is not 64 code units long makes the hash of any state with that
    player throw. *)
Lemma encodeRoundState_bad_player s p b :
  p ∈ players s → js_length (player_id p) ≠ 64 → encodeRoundState s ≠ Ret b.
Proof.
  intros Hin Hlen H%concat_Ret. do 7 apply list.Forall_cons in H as [_ H].
  apply list.Forall_cons in H as [H _]. unfold encPlayers in H.
  destruct (concat _) as [b'| |] eqn:E in H; [|done..]. clear H.
  apply concat_Ret in E. apply list.Forall_cons in E as [_ E].
  rewrite Forall_fmap, list.Forall_forall in E. specialize (E p Hin).
  unfold compose, encPlayer in E. destruct (concat _) as [b''| |] eqn:E' in E; [|done..].
  apply concat_Ret in E'. do 3 apply list.Forall_cons in E' as [_ E'].
  apply list.Forall_cons in E' as [E' _]. revert E'.
  unfold encBytes32Hex, encBytes32Units. unfold js_length in Hlen.
  by rewrite (proj2 (Z.eqb_neq _ _) Hlen).
Qed.

(** ** A concrete state *)

Definition toy_hash (b : bytes) : bytes := le_bytes 32 (le_val b).

Definition hex32 (b : Z) : Hash256 := to_hex (replicate 32 b).

Definition sample_player : PlayerState :=
  mkPlayerState 0 (hex32 0xa1) ("02" +:+ hex32 0xb2) joined 1000 None false None false None []
    [("S8_BET_DECISION", "Pass")].

Definition sample_state (round : Z) (prior : option Hash256) : RoundState :=
  mkRoundState S8_BET_DECISION (hex32 1) (hex32 2) round (Some 0) [sample_player] 500
    [mkRevealedCard R5 clubs 3] [] [BetAction; Pass] None None [] None None None prior
    EmptyString.

Lemma stateHash_binding_witness :
  ∃ h1 h2, computeStateHash toy_hash (sample_state 0 None) = Ret h1
    ∧ computeStateHash toy_hash (sample_state 1 None) = Ret h2
    ∧ (h1 = h2 → hashed_state (sample_state 0 None) = hashed_state (sample_state 1 None)
         ∨ ∃ b1 b2, encodeRoundState (sample_state 0 None) = Ret b1
                    ∧ encodeRoundState (sample_state 1 None) = Ret b2
                    ∧ collides toy_hash b1 b2).
Proof.
  apply (stateHash_binding toy_hash).
  - intros b. apply length_le_bytes.
  - intros b. apply le_bytes_byte.
  - by vm_compute.
  - by vm_compute.
Defined.

Definition sample_hash : Hash256 :=
  match computeStateHash toy_hash (sample_state 0 None) with Ret h => h | _ => EmptyString end.

Lemma chainsFromHash_unique_witness :
  hashed_state (sample_state 0 None) = hashed_state (sample_state (2 ^ 32) None)
  ∨ ∃ b1 b2, encodeRoundState (sample_state 0 None) = Ret b1
             ∧ encodeRoundState (sample_state (2 ^ 32) None) = Ret b2
             ∧ collides toy_hash b1 b2.
Proof.
  apply (chainsFromHash_unique toy_hash)
    with (next := sample_state 1 (Some sample_hash)).
  - intros b. apply length_le_bytes.
  - intros b. apply le_bytes_byte.
  - by vm_compute.
  - by vm_compute.
  - by vm_compute.
  - by vm_compute.
Defined.
