(* ===== verification/Engine.v ===== *)
(** * state-engine: the transition function

    [packages/state-engine/src]: pot accounting ([pot.ts]), In-Between settlement
    ([penalties.ts]), timeouts ([timeout.ts]) and the engine itself ([engine.ts]), one
    definition per function, handlers with every guard in the order of the source.  A
    handler returns [Ret (Ok next)] or [Ret (Err e)]; [Throw] is an exception that
    leaves [applyAction].  [EngineProps] and [EngineSafety] hold the theorems. *)

From S2P Require Import Prelude Bytes Primitives Types.

(** ** Pot accounting ([pot.ts]) *)

Definition addToPot (pot delta : Satoshis) : js Satoshis :=
  let next := js_add pot delta in
  if negb (is_safe_integer next)
  then Throw ("addToPot: pot overflow (" +:+ pretty pot +:+ " + " +:+ pretty delta +:+ ")")
  else asSatoshis next.

Definition subtractFromPot (pot delta : Satoshis) : js Satoshis :=
  if pot <? delta
  then Throw ("subtractFromPot: underflow (" +:+ pretty pot +:+ " - " +:+ pretty delta +:+ ")")
  else asSatoshis (js_sub pot delta).

(** ** Settlement and penalties ([penalties.ts]) *)

(** The outcome and [thirdCardChecked] *)
Definition classifyInBetweenRound (visibleCards : list RevealedCard)
    : js (SettlementOutcome * bool) :=
  if negb (length visibleCards =? 3)%nat
  then Throw ("classifyInBetweenRound: expected exactly 3 visible cards, got "
              +:+ pretty (Z.of_nat (length visibleCards)))
  else
    match visibleCards !! 0%nat, visibleCards !! 1%nat, visibleCards !! 2%nat with
    | Some a, Some b, Some c =>
      let aOrd := Z.rem (ordinal a) 13 in
      let bOrd := Z.rem (ordinal b) 13 in
      if aOrd =? bOrd then Ret (equal_penalty, false)
      else if Z.abs (aOrd - bOrd) =? 1 then Ret (consecutive_penalty, false)
      else
        let cOrd := Z.rem (ordinal c) 13 in
        let low := Z.min aOrd bOrd in
        let high := Z.max aOrd bOrd in
        if (low <? cOrd) && (cOrd <? high) then Ret (win, true)
        else Ret (loss, true)
    | _, _, _ => Throw "classifyInBetweenRound: indexing failure"
    end.

(** [{ playerDelta, potDelta }] *)
Definition computeValueTransfer (outcome : SettlementOutcome) (bet : Satoshis)
    (rules : SettlementRules) : Z * Z :=
  match outcome with
  | win =>
    let w := js_mul bet (in_between_win_multiplier rules) in (w, - w)
  | loss =>
    let l := js_mul bet (in_between_loss_multiplier rules) in (- l, l)
  | pass => (0, 0)
  | consecutive_penalty =>
    let p := consecutive_cards_penalty rules in (- p, p)
  | equal_penalty =>
    let p := equal_cards_penalty rules in (- p, p)
  end.

Definition clampSat (n : Z) : js Satoshis :=
  if negb (is_safe_integer n) || (n <? 0)
  then Throw ("clampSat: result is not a non-negative safe integer: " +:+ pretty n)
  else asSatoshis n.

(** ** Timeouts ([timeout.ts]) *)

Record Eligibility := mkEligibility {
  canCooperate : bool;
  canTimeout : bool;
  canRecover : bool
}.

Definition eligibility (state : RoundState) (currentHeight : BlockHeight) : Eligibility :=
  mkEligibility
    (0 <? Z.of_nat (length (allowed_actions state)))
    (match decision_deadline_block_height state with
     | Some d => d <=? currentHeight | None => false end)
    (match recovery_deadline_block_height state with
     | Some d => d <=? currentHeight | None => false end).

(** [Number.isFinite] holds of every integer. *)
Definition validateTimeoutOrdering (decisionBlocks recoveryBlocks : Z) : bool :=
  (decisionBlocks <? recoveryBlocks) && (0 <? decisionBlocks) && (0 <? recoveryBlocks).

(** ** The engine ([engine.ts]) *)

(** ['0'.repeat(64)] *)
Definition ZERO_HASH : Hash256 := to_hex (replicate 32 0).

Definition initialState (game_id : GameId) (rule_set_hash : RuleSetHash)
    (recovery_deadline : BlockHeight) : RoundState :=
  mkRoundState S1_SEAT_OPEN game_id rule_set_hash 0 None [] 0 [] [] [Join; TableLock]
    None (Some recovery_deadline) [] None None None None ZERO_HASH.

Definition getLegalActions (sc : StateClass) : list ActionType :=
  match sc with
  | S0_TABLE_OPEN => []
  | S1_SEAT_OPEN => [Join; TableLock]
  | S2_TABLE_LOCKED => [EntropyCommit]
  | S3_ENTROPY_COMMIT_WINDOW => [EntropyCommit]
  | S4_ENTROPY_REVEAL_WINDOW => [EntropyReveal]
  | S5_DECK_COMMITTED => [CardReveal; DealConcealed]
  | S6_CARD_REVEAL_FIRST => [CardReveal]
  | S7_CARD_REVEAL_SECOND => [BetAction; Pass; Timeout; Fold]
  | S8_BET_DECISION => [BetAction; Pass; Timeout; Fold]
  | S9_CARD_REVEAL_THIRD => [CardReveal]
  | S10_SETTLED_ROUND => [Settle]
  | S11_ROTATE_TURN => [RotateTurn]
  | S12_TABLE_CLOSE => [TableClose]
  | RECOVERED => []
  end.

(** [xs.includes(x)] and [sc !== 'X'] on enumerations *)
Definition includes {A} `{EqDecision A} (l : list A) (x : A) : bool :=
  existsb (λ y, bool_decide (y = x)) l.

Definition is_class (sc sc' : StateClass) : bool := bool_decide (sc = sc').

(** [[...l.slice(0, idx), x, ...l.slice(idx + 1)]] *)
Definition replace_at {A} (l : list A) (idx : Z) (x : A) : list A :=
  take (Z.to_nat idx) l ++ x :: drop (Z.to_nat (idx + 1)) l.

Definition seat_string (s : Seat) : string := "seat " +:+ pretty s.

Definition applyJoin (state : RoundState) (action : SignedActionBase)
    (player_pubkey : Pubkey33) (stake : Satoshis) (ruleSet : RuleSet)
    : js (Result RoundState) :=
  if negb (is_class (state_class state) S1_SEAT_OPEN)
  then reject INVALID_ACTION_FOR_STATE "Join outside S1"
  else if negb (stake =? stake_amount ruleSet)
  then reject INVALID_STAKE_AMOUNT
         ("expected " +:+ pretty (stake_amount ruleSet) +:+ ", got " +:+ pretty stake)
  else if player_count_max ruleSet <=? Z.of_nat (length (players state))
  then reject TABLE_FULL ("max " +:+ pretty (player_count_max ruleSet) +:+ " seats")
  else
    seat' ← asSeat (default (Z.of_nat (length (players state))) (act_acting_player_seat action));
    if existsb (λ p, seat p =? seat') (players state)
    then reject PLAYER_ALREADY_SEATED (seat_string seat' +:+ " taken")
    else
      accept (state
        |> set_players (players state ++
             [mkPlayerState seat' player_pubkey player_pubkey joined stake None
                false None false None [] []])
        |> set_prior_state_hash (Some (state_hash state))).

Definition applyTableLock (state : RoundState) (ruleSet : RuleSet) : js (Result RoundState) :=
  if negb (is_class (state_class state) S1_SEAT_OPEN)
  then reject INVALID_ACTION_FOR_STATE "TableLock outside S1"
  else if Z.of_nat (length (players state)) <? player_count_min ruleSet
  then reject TABLE_NOT_LOCKABLE
         ("need " +:+ pretty (player_count_min ruleSet) +:+ " seats, have "
          +:+ pretty (Z.of_nat (length (players state))))
  else
    accept (state
      |> set_state_class S3_ENTROPY_COMMIT_WINDOW
      |> set_allowed_actions (getLegalActions S3_ENTROPY_COMMIT_WINDOW)
      |> set_prior_state_hash (Some (state_hash state))).

Definition applyEntropyCommit (state : RoundState) (action : SignedActionBase)
    (commitment_hash : Hash256) : js (Result RoundState) :=
  if negb (is_class (state_class state) S3_ENTROPY_COMMIT_WINDOW)
  then reject INVALID_ACTION_FOR_STATE "EntropyCommit outside S3"
  else match act_acting_player_seat action with
  | None => reject SEAT_OUT_OF_RANGE "EntropyCommit requires acting_player_seat"
  | Some seat' =>
    let idx := findIndex (λ p, seat p =? seat') (players state) in
    if idx <? 0 then reject PLAYER_NOT_SEATED (seat_string seat')
    else match at_index (players state) idx with
    | None => reject PLAYER_NOT_SEATED (seat_string seat' +:+ " indexing failure")
    | Some existing =>
      if entropy_committed existing
      then reject INVALID_STATE_TRANSITION "seat already committed"
      else
        let players' := replace_at (players state) idx
          (existing |> set_entropy_committed true
                    |> set_entropy_commitment_hash (Some commitment_hash)) in
        let allCommitted := forallb entropy_committed players' in
        let nextClass := if allCommitted then S4_ENTROPY_REVEAL_WINDOW
                         else S3_ENTROPY_COMMIT_WINDOW in
        accept (state
          |> set_players players'
          |> set_state_class nextClass
          |> set_allowed_actions (getLegalActions nextClass)
          |> set_prior_state_hash (Some (state_hash state)))
    end
  end.

Definition applyEntropyReveal (state : RoundState) (action : SignedActionBase)
    (entropy : Hash256) : js (Result RoundState) :=
  if negb (is_class (state_class state) S4_ENTROPY_REVEAL_WINDOW)
  then reject INVALID_ACTION_FOR_STATE "EntropyReveal outside S4"
  else match act_acting_player_seat action with
  | None => reject SEAT_OUT_OF_RANGE "EntropyReveal requires acting_player_seat"
  | Some seat' =>
    let idx := findIndex (λ p, seat p =? seat') (players state) in
    if idx <? 0 then reject PLAYER_NOT_SEATED (seat_string seat')
    else match at_index (players state) idx with
    | None => reject PLAYER_NOT_SEATED (seat_string seat' +:+ " indexing failure")
    | Some existing =>
      if negb (entropy_committed existing)
      then reject INVALID_STATE_TRANSITION "seat must commit before reveal"
      else if entropy_revealed existing
      then reject INVALID_STATE_TRANSITION "seat already revealed"
      else
        let players' := replace_at (players state) idx
          (existing |> set_entropy_revealed true
                    |> set_entropy_value (Some entropy)
                    |> set_participation_status active) in
        let allRevealed := forallb entropy_revealed players' in
        let nextClass := if allRevealed then S5_DECK_COMMITTED
                         else S4_ENTROPY_REVEAL_WINDOW in
        accept (state
          |> set_players players'
          |> set_state_class nextClass
          |> set_allowed_actions (getLegalActions nextClass)
          |> set_prior_state_hash (Some (state_hash state)))
    end
  end.

Definition applyCardReveal (state : RoundState) (reveal : RevealProof)
    : js (Result RoundState) :=
  let next := match state_class state with
    | S5_DECK_COMMITTED => Some S6_CARD_REVEAL_FIRST
    | S6_CARD_REVEAL_FIRST => Some S7_CARD_REVEAL_SECOND
    | S9_CARD_REVEAL_THIRD => Some S10_SETTLED_ROUND
    | _ => None
    end in
  match next with
  | None => reject INVALID_ACTION_FOR_STATE
              ("CardReveal at " +:+ StateClass_string (state_class state))
  | Some nextClass =>
    let '(finalClass, acting) :=
      if is_class nextClass S7_CARD_REVEAL_SECOND then
        (S8_BET_DECISION,
         match acting_player_seat state with
         | None => seat <$> players state !! 0%nat
         | Some s => Some s
         end)
      else (nextClass, acting_player_seat state) in
    accept (state
      |> set_state_class finalClass
      |> set_visible_cards (visible_cards state ++ [revealed_card reveal])
      |> set_acting_player_seat acting
      |> set_allowed_actions (getLegalActions finalClass)
      |> set_prior_state_hash (Some (state_hash state)))
  end.

(** The loop over the dealt cards with its set of positions [seen]: the error it
    returns, if any. *)
Fixpoint dealConcealed_check (deck_format : Z) (seen : list Z) (cards : list ConcealedCard)
    : option string :=
  match cards with
  | [] => None
  | c :: cards =>
    let p := position (cc_commitment c) in
    if (p <? 0) || (deck_format <=? p)
    then Some ("DealConcealed: position " +:+ pretty p +:+ " out of [0, "
               +:+ pretty deck_format +:+ ")")
    else if bool_decide (p ∈ seen)
    then Some ("DealConcealed: duplicate position " +:+ pretty p)
    else dealConcealed_check deck_format (p :: seen) cards
  end.

Definition applyDealConcealed (state : RoundState) (concealed_cards : list ConcealedCard)
    (ruleSet : RuleSet) : js (Result RoundState) :=
  if negb (is_class (state_class state) S5_DECK_COMMITTED)
  then reject INVALID_ACTION_FOR_STATE
         ("DealConcealed outside S5 (got " +:+ StateClass_string (state_class state) +:+ ")")
  else if bool_decide (is_Some (concealed_deck state))
  then reject INVALID_STATE_TRANSITION "concealed deck already dealt"
  else if negb (Z.of_nat (length concealed_cards) =? deck_format ruleSet)
  then reject INVALID_STATE_TRANSITION
         ("DealConcealed: expected " +:+ pretty (deck_format ruleSet) +:+ " cards, got "
          +:+ pretty (Z.of_nat (length concealed_cards)))
  else match dealConcealed_check (deck_format ruleSet) [] concealed_cards with
  | Some msg => reject INVALID_STATE_TRANSITION msg
  | None =>
    accept (state
      |> set_concealed_deck (Some concealed_cards)
      |> set_prior_state_hash (Some (state_hash state)))
  end.

Definition applyBet (state : RoundState) (bet_amount : Satoshis) (ruleSet : RuleSet)
    : js (Result RoundState) :=
  if negb (is_class (state_class state) S8_BET_DECISION)
  then reject INVALID_ACTION_FOR_STATE "BetAction outside S8"
  else if (bet_amount <? min_bet ruleSet) || (max_bet ruleSet <? bet_amount)
  then reject INVALID_BET_AMOUNT
         ("bet " +:+ pretty bet_amount +:+ " not in [" +:+ pretty (min_bet ruleSet)
          +:+ ", " +:+ pretty (max_bet ruleSet) +:+ "]")
  else
    pot' ← addToPot (pot_value state) bet_amount;
    accept (state
      |> set_state_class S9_CARD_REVEAL_THIRD
      |> set_pot_value pot'
      |> set_allowed_actions (getLegalActions S9_CARD_REVEAL_THIRD)
      |> set_prior_state_hash (Some (state_hash state))).

Definition applyPass (state : RoundState) : js (Result RoundState) :=
  if negb (is_class (state_class state) S8_BET_DECISION)
  then reject INVALID_ACTION_FOR_STATE "Pass outside S8"
  else
    accept (state
      |> set_state_class S11_ROTATE_TURN
      |> set_allowed_actions (getLegalActions S11_ROTATE_TURN)
      |> set_prior_state_hash (Some (state_hash state))).

(** The test and the update of the loop in [applyFold] *)
Definition fold_touches (holderPubkey : Pubkey33) (card : ConcealedCard) : bool :=
  bool_decide (holder_pubkey card = holderPubkey)
  && bool_decide (lifecycle_state card = "ASSIGNED_CONCEALED").

Definition set_lifecycle (v : CardLifecycleState) (c : ConcealedCard) : ConcealedCard :=
  mkConcealedCard (cc_commitment c) (ciphertext c) (custody_outpoint c) (holder_pubkey c) v.

(** The loop: the cards pushed to [surrendered], and [touched] *)
Fixpoint fold_loop (holderPubkey : Pubkey33) (deck : list ConcealedCard)
    : list ConcealedCard * Z :=
  match deck with
  | [] => ([], 0)
  | card :: deck =>
    let '(surrendered, touched) := fold_loop holderPubkey deck in
    if fold_touches holderPubkey card
    then (set_lifecycle "SURRENDERED" card :: surrendered, touched + 1)
    else (card :: surrendered, touched)
  end.

Definition applyFold (state : RoundState) (action : SignedActionBase)
    : js (Result RoundState) :=
  if negb (is_class (state_class state) S8_BET_DECISION)
     && negb (is_class (state_class state) S7_CARD_REVEAL_SECOND)
  then reject INVALID_ACTION_FOR_STATE
         ("Fold outside S7/S8 (got " +:+ StateClass_string (state_class state) +:+ ")")
  else match act_acting_player_seat action with
  | None => reject SEAT_OUT_OF_RANGE "Fold requires acting_player_seat"
  | Some seat' =>
    match concealed_deck state with
    | None => reject INVALID_ACTION_FOR_STATE "Fold requires concealed_deck (extended model)"
    | Some deck =>
      let seatIdx := findIndex (λ p, seat p =? seat') (players state) in
      if seatIdx <? 0 then reject PLAYER_NOT_SEATED (seat_string seat')
      else match at_index (players state) seatIdx with
      | None => Throw "TypeError"
      | Some player =>
        let '(surrendered, touched) := fold_loop (value_signing_pubkey player) deck in
        if touched =? 0
        then reject INVALID_ACTION_FOR_STATE "Fold: player holds no ASSIGNED_CONCEALED cards"
        else
          accept (state
            |> set_players (replace_at (players state) seatIdx
                 (player |> set_participation_status folded))
            |> set_concealed_deck (Some surrendered)
            |> set_state_class S11_ROTATE_TURN
            |> set_allowed_actions (getLegalActions S11_ROTATE_TURN)
            |> set_prior_state_hash (Some (state_hash state)))
      end
    end
  end.

(** [players.map(...)] in [applySettle]: the first element that throws ends it. *)
Fixpoint settle_players (acting : Seat) (playerDelta : Z) (ps : list PlayerState)
    : js (list PlayerState) :=
  match ps with
  | [] => Ret []
  | p :: ps =>
    p' ← (if negb (seat p =? acting) then Ret p
          else
            let next := js_add (stake_at_risk p) playerDelta in
            if negb (is_safe_integer next) || (next <? 0)
            then Throw "settlement produces negative balance"
            else s ← asSatoshis next; Ret (set_stake_at_risk s p));
    ps' ← settle_players acting playerDelta ps;
    Ret (p' :: ps')
  end.

Definition applySettle (state : RoundState) (ruleSet : RuleSet) : js (Result RoundState) :=
  if negb (is_class (state_class state) S10_SETTLED_ROUND)
  then reject INVALID_ACTION_FOR_STATE "Settle outside S10"
  else if negb (length (visible_cards state) =? 3)%nat
  then reject INVALID_STATE_TRANSITION
         ("settle requires 3 visible cards, have "
          +:+ pretty (Z.of_nat (length (visible_cards state))))
  else match acting_player_seat state with
  | None => reject SEAT_OUT_OF_RANGE "settle requires an acting_player_seat"
  | Some acting =>
    let bet := pot_value state in
    '(outcome, _) ← classifyInBetweenRound (visible_cards state);
    let '(playerDelta, potDelta) := computeValueTransfer outcome bet (settlement_rules ruleSet) in
    let newPotRaw := js_add (pot_value state) potDelta in
    if negb (is_safe_integer newPotRaw) || (newPotRaw <? 0)
    then reject INVALID_STATE_TRANSITION "settlement produces negative pot"
    else
      players' ← settle_players acting playerDelta (players state);
      pot' ← asSatoshis newPotRaw;
      accept (state
        |> set_state_class S11_ROTATE_TURN
        |> set_pot_value pot'
        |> set_players players'
        |> set_allowed_actions (getLegalActions S11_ROTATE_TURN)
        |> set_prior_state_hash (Some (state_hash state)))
  end.

(** [seats[i]], throwing when it is [undefined] *)
Definition seat_at (seats : list Seat) (i : Z) : js Seat :=
  match at_index seats i with
  | Some s => Ret s
  | None => Throw ("seats[" +:+ pretty i +:+ "] missing")
  end.

(** The choice of [nextSeat] *)
Definition rotate_next (acting : option Seat) (seats : list Seat) : js Seat :=
  match acting with
  | None => seat_at seats 0
  | Some s =>
    let i := indexOf seats s in
    let idxRaw := Z.rem (i + 1) (Z.of_nat (length seats)) in
    seat_at seats idxRaw
  end.

Definition applyRotateTurn (state : RoundState) : js (Result RoundState) :=
  if negb (is_class (state_class state) S11_ROTATE_TURN)
  then reject INVALID_ACTION_FOR_STATE "RotateTurn outside S11"
  else
    let seats := merge_sort Z.le (seat <$> players state) in
    if (length seats =? 0)%nat
    then reject TABLE_NOT_LOCKABLE "no players to rotate"
    else
      nextSeat ← rotate_next (acting_player_seat state) seats;
      firstSeat ← seat_at seats 0;
      let wrappedToStart :=
        bool_decide (is_Some (acting_player_seat state)) && (nextSeat =? firstSeat) in
      if wrappedToStart then
        accept (state
          |> set_state_class S12_TABLE_CLOSE
          |> set_allowed_actions (getLegalActions S12_TABLE_CLOSE)
          |> set_prior_state_hash (Some (state_hash state)))
      else
        rn ← asRoundNumber (js_add (round_number state) 1);
        accept (state
          |> set_state_class S6_CARD_REVEAL_FIRST
          |> set_round_number rn
          |> set_acting_player_seat (Some nextSeat)
          |> set_visible_cards []
          |> set_allowed_actions (getLegalActions S6_CARD_REVEAL_FIRST)
          |> set_prior_state_hash (Some (state_hash state))).

Definition applyTableClose (state : RoundState) : js (Result RoundState) :=
  if negb (is_class (state_class state) S12_TABLE_CLOSE)
  then reject INVALID_ACTION_FOR_STATE "TableClose outside S12"
  else
    accept (state
      |> set_allowed_actions []
      |> set_prior_state_hash (Some (state_hash state))).

Definition applyTimeout (state : RoundState) (currentHeight : BlockHeight)
    : js (Result RoundState) :=
  if negb (is_class (state_class state) S8_BET_DECISION)
  then reject INVALID_ACTION_FOR_STATE "Timeout only legal at S8 in v1"
  else match decision_deadline_block_height state with
  | None => reject TIMEOUT_NOT_MATURE "no decision deadline"
  | Some deadline =>
    if currentHeight <? deadline
    then reject TIMEOUT_NOT_MATURE
           ("current=" +:+ pretty currentHeight +:+ ", deadline=" +:+ pretty deadline)
    else
      accept (state
        |> set_state_class S11_ROTATE_TURN
        |> set_allowed_actions (getLegalActions S11_ROTATE_TURN)
        |> set_prior_state_hash (Some (state_hash state)))
  end.

Definition applyRecovery (state : RoundState) (currentHeight : BlockHeight)
    : js (Result RoundState) :=
  match recovery_deadline_block_height state with
  | None => reject RECOVERY_NOT_MATURE "no recovery deadline"
  | Some deadline =>
    if currentHeight <? deadline
    then reject RECOVERY_NOT_MATURE
           ("current=" +:+ pretty currentHeight +:+ ", recovery=" +:+ pretty deadline)
    else
      accept (state
        |> set_state_class RECOVERED
        |> set_allowed_actions []
        |> set_prior_state_hash (Some (state_hash state)))
  end.

Definition applyAction (state : RoundState) (action : SignedAction) (ruleSet : RuleSet)
    (currentHeight : BlockHeight) : js (Result RoundState) :=
  let base := act_base action in
  if negb (bool_decide (act_game_id base = game_id state))
  then reject STALE_STATE "action.game_id mismatch"
  else if negb (bool_decide (action_type action = Recovery))
          && negb (includes (getLegalActions (state_class state)) (action_type action))
  then reject INVALID_ACTION_FOR_STATE
         (ActionType_string (action_type action) +:+ " not legal at "
          +:+ StateClass_string (state_class state))
  else match payload action with
  | JoinAction player_pubkey stake => applyJoin state base player_pubkey stake ruleSet
  | TableLockAction => applyTableLock state ruleSet
  | EntropyCommitAction commitment_hash => applyEntropyCommit state base commitment_hash
  | EntropyRevealAction entropy => applyEntropyReveal state base entropy
  | CardRevealAction reveal => applyCardReveal state reveal
  | DealConcealedAction cards => applyDealConcealed state cards ruleSet
  | BetAction_ bet_amount => applyBet state bet_amount ruleSet
  | PassAction => applyPass state
  | FoldAction => applyFold state base
  | SettleAction => applySettle state ruleSet
  | RotateTurnAction => applyRotateTurn state
  | TableCloseAction => applyTableClose state
  | TimeoutAction _ _ => applyTimeout state currentHeight
  | RecoveryAction _ => applyRecovery state currentHeight
  end.

(** [state.players.map(...)] in [computeSettlement] *)
Fixpoint settlement_balances (acting : Seat) (playerDelta : Z) (ps : list PlayerState)
    : js (list Satoshis) :=
  match ps with
  | [] => Ret []
  | p :: ps =>
    b ← (if seat p =? acting then clampSat (js_add (stake_at_risk p) playerDelta)
         else Ret (stake_at_risk p));
    bs ← settlement_balances acting playerDelta ps;
    Ret (b :: bs)
  end.

Definition computeSettlement (state : RoundState) (ruleSet : RuleSet)
    : js (Result SettlementResult) :=
  if negb (is_class (state_class state) S10_SETTLED_ROUND)
  then reject INVALID_ACTION_FOR_STATE "computeSettlement requires S10 state"
  else match acting_player_seat state with
  | Some acting =>
    if negb (length (visible_cards state) =? 3)%nat
    then reject INVALID_STATE_TRANSITION "incomplete S10"
    else
      let bet := pot_value state in
      '(outcome, _) ← classifyInBetweenRound (visible_cards state);
      let '(playerDelta, potDelta) :=
        computeValueTransfer outcome bet (settlement_rules ruleSet) in
      balances ← settlement_balances acting playerDelta (players state);
      amount ← asSatoshis (Z.abs playerDelta);
      resulting_pot ← clampSat (js_add (pot_value state) potDelta);
      accept (mkSettlementResult (state_hash state) outcome bet acting amount resulting_pot
        balances)
  | None => reject INVALID_STATE_TRANSITION "incomplete S10"
  end.
