(* ===== verification/EngineSpec.v ===== *)
(** * state-engine: the specification of a transition

    [transition] says, declaratively, which successor an action has: no indices, no
    scans, no early returns.  [applyAction_refines] shows that the engine of [Engine]
    accepts exactly the actions of the specification and computes its successor. *)

From S2P Require Import Prelude Bytes Primitives Types Engine.

Abbreviation seats s := (seat <$> players s) (only parsing).

(** ** Vocabulary *)

(** Entering a state class: its legal actions, chained to the state it comes from. *)
Definition enter (sc : StateClass) (s : RoundState) : RoundState :=
  s |> set_state_class sc
    |> set_allowed_actions (getLegalActions sc)
    |> set_prior_state_hash (Some (state_hash s)).

Definition chained (s : RoundState) : RoundState :=
  set_prior_state_hash (Some (state_hash s)) s.

Definition new_player (seat' : Seat) (pk : Pubkey33) (stake : Satoshis) : PlayerState :=
  mkPlayerState seat' pk pk joined stake None false None false None [] [].

Definition committed (c : Hash256) (p : PlayerState) : PlayerState :=
  p |> set_entropy_committed true |> set_entropy_commitment_hash (Some c).

Definition revealed (e : Hash256) (p : PlayerState) : PlayerState :=
  p |> set_entropy_revealed true |> set_entropy_value (Some e)
    |> set_participation_status active.

(** [l] with the first player of seat [x], [p], replaced by [q] *)
Inductive at_seat (x : Seat) (p q : PlayerState) : list PlayerState → list PlayerState → Prop :=
  | at_seat_intro l1 l2 :
      seat p = x → x ∉ (seat <$> l1) → at_seat x p q (l1 ++ p :: l2) (l1 ++ q :: l2).

(** The rank of a card as a number from 0 (two) to 12 (ace) *)
Definition card_rank (c : RevealedCard) : Z := Z.rem (ordinal c) 13.

(** The rules of In-Between: the first two cards are the posts. *)
Inductive round_outcome (a b c : RevealedCard) : SettlementOutcome → Prop :=
  | outcome_equal : card_rank a = card_rank b → round_outcome a b c equal_penalty
  | outcome_consecutive :
      Z.abs (card_rank a - card_rank b) = 1 → round_outcome a b c consecutive_penalty
  | outcome_win :
      1 < Z.abs (card_rank a - card_rank b) →
      Z.min (card_rank a) (card_rank b) < card_rank c < Z.max (card_rank a) (card_rank b) →
      round_outcome a b c win
  | outcome_loss :
      1 < Z.abs (card_rank a - card_rank b) →
      ¬ (Z.min (card_rank a) (card_rank b) < card_rank c < Z.max (card_rank a) (card_rank b)) →
      round_outcome a b c loss.

Definition is_sats (n : Z) : Prop := 0 ≤ n ≤ MAX_SAFE_INTEGER.

(** The acting player's balance moves by [delta] and stays an amount of satoshis. *)
Definition settled_player (acting : Seat) (delta : Z) (p p' : PlayerState) : Prop :=
  (seat p = acting ∧ is_sats (stake_at_risk p + delta)
     ∧ p' = set_stake_at_risk (stake_at_risk p + delta) p)
  ∨ (seat p ≠ acting ∧ p' = p).

(** [n] is the least seat above [x]. *)
Definition next_above (ss : list Seat) (x n : Seat) : Prop :=
  n ∈ ss ∧ x < n ∧ ∀ m, m ∈ ss → x < m → n ≤ m.

Definition lowest (ss : list Seat) (n : Seat) : Prop := n ∈ ss ∧ ∀ m, m ∈ ss → n ≤ m.

(** The turn passes upwards through the seats and does not come back. *)
Inductive turn_passes (ss : list Seat) : option Seat → option Seat → Prop :=
  | turn_first n : lowest ss n → turn_passes ss None (Some n)
  | turn_next x n : x ∈ ss → next_above ss x n → turn_passes ss (Some x) (Some n)
  | turn_over x : ss ≠ [] → (x ∈ ss → ∀ m, m ∈ ss → m ≤ x) → turn_passes ss (Some x) None.

Definition surrender (pk : Pubkey33) (c : ConcealedCard) : ConcealedCard :=
  if fold_touches pk c then set_lifecycle "SURRENDERED" c else c.

Definition reveal_target (sc : StateClass) : option StateClass :=
  match sc with
  | S5_DECK_COMMITTED => Some S6_CARD_REVEAL_FIRST
  | S6_CARD_REVEAL_FIRST => Some S8_BET_DECISION
  | S9_CARD_REVEAL_THIRD => Some S10_SETTLED_ROUND
  | _ => None
  end.

(** Who acts once a card has been revealed: at the bet decision somebody must. *)
Definition actor_after_reveal (s : RoundState) : option Seat :=
  match state_class s, acting_player_seat s with
  | S6_CARD_REVEAL_FIRST, None => seat <$> head (players s)
  | _, a => a
  end.

(** ** The transitions *)

Inductive transition (rs : RuleSet) (height : Z)
    : RoundState → SignedActionBase → ActionPayload → RoundState → Prop :=
  | t_join s act pk seat' :
      state_class s = S1_SEAT_OPEN →
      Z.of_nat (length (players s)) < player_count_max rs →
      seat' = default (Z.of_nat (length (players s))) (act_acting_player_seat act) →
      0 ≤ seat' ≤ MAX_SAFE_INTEGER → seat' ∉ seats s →
      transition rs height s act (JoinAction pk (stake_amount rs))
        (chained s |> set_players (players s ++ [new_player seat' pk (stake_amount rs)]))
  | t_table_lock s act :
      state_class s = S1_SEAT_OPEN →
      player_count_min rs ≤ Z.of_nat (length (players s)) →
      transition rs height s act TableLockAction (enter S3_ENTROPY_COMMIT_WINDOW s)
  | t_entropy_commit s act c x p ps' :
      state_class s = S3_ENTROPY_COMMIT_WINDOW →
      act_acting_player_seat act = Some x →
      at_seat x p (committed c p) (players s) ps' → entropy_committed p = false →
      transition rs height s act (EntropyCommitAction c)
        (enter (if forallb entropy_committed ps' then S4_ENTROPY_REVEAL_WINDOW
                else S3_ENTROPY_COMMIT_WINDOW) s |> set_players ps')
  | t_entropy_reveal s act e x p ps' :
      state_class s = S4_ENTROPY_REVEAL_WINDOW →
      act_acting_player_seat act = Some x →
      at_seat x p (revealed e p) (players s) ps' →
      entropy_committed p = true → entropy_revealed p = false →
      transition rs height s act (EntropyRevealAction e)
        (enter (if forallb entropy_revealed ps' then S5_DECK_COMMITTED
                else S4_ENTROPY_REVEAL_WINDOW) s |> set_players ps')
  | t_card_reveal s act rp sc' :
      reveal_target (state_class s) = Some sc' →
      transition rs height s act (CardRevealAction rp)
        (enter sc' s |> set_visible_cards (visible_cards s ++ [revealed_card rp])
                     |> set_acting_player_seat (actor_after_reveal s))
  | t_deal_concealed s act cards :
      state_class s = S5_DECK_COMMITTED → concealed_deck s = None →
      Z.of_nat (length cards) = deck_format rs →
      NoDup ((λ c, position (cc_commitment c)) <$> cards) →
      Forall (λ c, 0 ≤ position (cc_commitment c) < deck_format rs) cards →
      transition rs height s act (DealConcealedAction cards)
        (chained s |> set_concealed_deck (Some cards))
  | t_bet s act bet :
      state_class s = S8_BET_DECISION →
      min_bet rs ≤ bet ≤ max_bet rs → is_sats (pot_value s + bet) →
      transition rs height s act (BetAction_ bet)
        (enter S9_CARD_REVEAL_THIRD s |> set_pot_value (pot_value s + bet))
  | t_pass s act :
      state_class s = S8_BET_DECISION →
      transition rs height s act PassAction (enter S11_ROTATE_TURN s)
  | t_fold s act x p ps' deck :
      state_class s = S8_BET_DECISION ∨ state_class s = S7_CARD_REVEAL_SECOND →
      act_acting_player_seat act = Some x → concealed_deck s = Some deck →
      at_seat x p (set_participation_status folded p) (players s) ps' →
      Exists (λ c, fold_touches (value_signing_pubkey p) c = true) deck →
      transition rs height s act FoldAction
        (enter S11_ROTATE_TURN s |> set_players ps'
           |> set_concealed_deck (Some (surrender (value_signing_pubkey p) <$> deck)))
  | t_settle s act x a b c o pd qd ps' :
      state_class s = S10_SETTLED_ROUND → acting_player_seat s = Some x →
      visible_cards s = [a; b; c] → round_outcome a b c o →
      computeValueTransfer o (pot_value s) (settlement_rules rs) = (pd, qd) →
      is_sats (pot_value s + qd) → Forall2 (settled_player x pd) (players s) ps' →
      transition rs height s act SettleAction
        (enter S11_ROTATE_TURN s |> set_pot_value (pot_value s + qd) |> set_players ps')
  | t_rotate s act n :
      state_class s = S11_ROTATE_TURN → turn_passes (seats s) (acting_player_seat s) (Some n) →
      is_sats (round_number s + 1) →
      transition rs height s act RotateTurnAction
        (enter S6_CARD_REVEAL_FIRST s |> set_round_number (round_number s + 1)
           |> set_acting_player_seat (Some n) |> set_visible_cards [])
  | t_rotate_close s act :
      state_class s = S11_ROTATE_TURN → turn_passes (seats s) (acting_player_seat s) None →
      transition rs height s act RotateTurnAction (enter S12_TABLE_CLOSE s)
  | t_table_close s act :
      state_class s = S12_TABLE_CLOSE →
      transition rs height s act TableCloseAction (chained s |> set_allowed_actions [])
  | t_timeout s act da x d :
      state_class s = S8_BET_DECISION →
      decision_deadline_block_height s = Some d → d ≤ height →
      transition rs height s act (TimeoutAction da x) (enter S11_ROTATE_TURN s)
  | t_recovery s act tr d :
      recovery_deadline_block_height s = Some d → d ≤ height →
      transition rs height s act (RecoveryAction tr) (enter RECOVERED s).

(** ** Scans *)

Lemma findIndex_seat x ps :
  (∃ l1 p l2, ps = l1 ++ p :: l2 ∧ seat p = x ∧ (x ∉ (seat <$> l1))
     ∧ findIndex (λ p, seat p =? x) ps = Z.of_nat (length l1))
  ∨ ((x ∉ (seat <$> ps)) ∧ findIndex (λ p, seat p =? x) ps = -1).
Proof.
  induction ps as [|p ps IH]; [right; split; [apply not_elem_of_nil|done]|].
  cbn [findIndex]. destruct (Z.eqb_spec (seat p) x) as [E|E].
  - left. exists [], p, ps. split_and!; try done. apply not_elem_of_nil.
  - destruct IH as [(l1 & q & l2 & -> & Hq & Hx & ->)|[Hx ->]].
    + left. exists (p :: l1), q, l2. rewrite (proj2 (Z.ltb_ge _ _)) by lia.
      split_and!; try done.
      * rewrite fmap_cons, not_elem_of_cons. split; [|done]. congruence.
      * cbn [length]. lia.
    + right. split; [|done]. rewrite fmap_cons, not_elem_of_cons. split; [congruence|done].
Qed.

Lemma at_index_app {A} (l1 : list A) p l2 :
  at_index (l1 ++ p :: l2) (Z.of_nat (length l1)) = Some p.
Proof.
  unfold at_index. rewrite (proj2 (Z.ltb_ge _ _)), Nat2Z.id by lia.
  by rewrite lookup_app_r, Nat.sub_diag by lia.
Qed.

Lemma replace_at_app {A} (l1 : list A) p q l2 :
  replace_at (l1 ++ p :: l2) (Z.of_nat (length l1)) q = l1 ++ q :: l2.
Proof.
  unfold replace_at. rewrite Nat2Z.id, take_app_length.
  replace (Z.to_nat _) with (length (l1 ++ [p])) by (rewrite length_app; cbn; lia).
  replace (l1 ++ p :: l2) with ((l1 ++ [p]) ++ l2) by (by rewrite <- app_assoc).
  by rewrite drop_app_length.
Qed.

(** The scan for a seat, as the handlers use it: found, with what replacing there does,
    or absent. *)
Lemma seat_scan x ps :
  (∃ p, (findIndex (λ p, seat p =? x) ps <? 0) = false
     ∧ at_index ps (findIndex (λ p, seat p =? x) ps) = Some p
     ∧ ∀ q, at_seat x p q ps (replace_at ps (findIndex (λ p, seat p =? x) ps) q))
  ∨ ((x ∉ (seat <$> ps)) ∧ (findIndex (λ p, seat p =? x) ps <? 0) = true).
Proof.
  destruct (findIndex_seat x ps) as [(l1&p&l2&->&Hp&Hx&->)|[Hx ->]]; [left|by right].
  exists p. rewrite at_index_app, (proj2 (Z.ltb_ge _ _)) by lia. split_and!; [done..|].
  intros q. by rewrite replace_at_app.
Qed.

Lemma at_seat_unique x p p' q q' ps ps1 ps2 :
  at_seat x p q ps ps1 → at_seat x p' q' ps ps2 → p = p' ∧ (q = q' → ps1 = ps2).
Proof.
  intros [l1 l2 Hp Hx]. remember (l1 ++ p :: l2) as l eqn:El.
  intros H2. revert El. destruct H2 as [m1 m2 Hp' Hx']. intros El. revert m1 El Hx'.
  induction l1 as [|y l1 IH]; intros [|z m1] El Hx'; simpl in El; simplify_eq.
  - split; [done|]. by intros ->.
  - destruct Hx'. rewrite fmap_cons. apply elem_of_cons. by left.
  - destruct Hx. rewrite fmap_cons. apply elem_of_cons. by left.
  - rewrite fmap_cons, not_elem_of_cons in Hx, Hx'.
    destruct (IH (proj2 Hx) m1) as [-> H]; [done|tauto|]. split; [done|].
    intros Hq. simpl. f_equal. auto.
Qed.

Lemma at_seat_in x p q ps ps' : at_seat x p q ps ps' → p ∈ ps ∧ seat p = x ∧ x ∈ (seat <$> ps).
Proof.
  intros [l1 l2 Hp Hx]. assert (p ∈ l1 ++ p :: l2) by (apply elem_of_app; right; left).
  split_and!; [done|done|]. apply list_elem_of_fmap. by exists p.
Qed.

(** ** The loops *)

Lemma dealConcealed_check_None deck_format seen cards :
  dealConcealed_check deck_format seen cards = None ↔
  NoDup ((λ c, position (cc_commitment c)) <$> cards)
  ∧ Forall (λ c, 0 ≤ position (cc_commitment c) < deck_format) cards
  ∧ Forall (λ c, position (cc_commitment c) ∉ seen) cards.
Proof.
  revert seen. induction cards as [|c cards IH]; intros seen; cbn [dealConcealed_check].
  { split; [|done]. intros _. split_and!; constructor. }
  rewrite fmap_cons, list.NoDup_cons, !list.Forall_cons.
  set (p := position (cc_commitment c)).
  destruct ((p <? 0) || (deck_format <=? p)) eqn:Hr.
  { split; [done|]. intros (_&[? _]&_). lia. }
  destruct (decide (p ∈ seen)) as [Hs|Hs].
  { rewrite bool_decide_true by done. split; [done|]. by intros (_&_&[? _]). }
  rewrite bool_decide_false, IH by done.
  setoid_rewrite not_elem_of_cons. split.
  - intros (Hnd & Hb & Hf). split_and!; try done; try lia.
    + intros (c' & Hc' & Hin)%list_elem_of_fmap. rewrite list.Forall_forall in Hf.
      by destruct (Hf c' Hin) as [[] _].
    + eapply list.Forall_impl; [exact Hf|]. by intros c' [_ ?].
  - intros ((Hp & Hnd) & (_ & Hb) & (_ & Hf)). split_and!; try done.
    rewrite list.Forall_forall in Hf |- *. intros c' Hin. split; [|by apply Hf].
    intros E. apply Hp. apply list_elem_of_fmap. exists c'. done.
Qed.

Lemma fold_loop_spec pk deck :
  fold_loop pk deck
  = (surrender pk <$> deck, Z.of_nat (length (filter (λ c, fold_touches pk c = true) deck))).
Proof.
  induction deck as [|c deck IH]; [done|]. cbn [fold_loop]. rewrite IH.
  rewrite fmap_cons, filter_cons.
  assert (surrender pk c = if fold_touches pk c then set_lifecycle "SURRENDERED" c else c)
    as -> by done.
  destruct (fold_touches pk c).
  - rewrite decide_True by done. cbn [length]. apply (f_equal2 pair); [done|lia].
  - by rewrite decide_False by done.
Qed.

Lemma fold_touched_zero pk deck :
  (Z.of_nat (length (filter (λ c, fold_touches pk c = true) deck)) =? 0) = false ↔
  Exists (λ c, fold_touches pk c = true) deck.
Proof.
  rewrite Z.eqb_neq, list.Exists_exists. split.
  - intros H. destruct (filter _ deck) as [|c l] eqn:E; [done|].
    assert (Hc : c ∈ filter (λ c, fold_touches pk c = true) deck) by (rewrite E; left).
    apply list_elem_of_filter in Hc as [? ?]. by exists c.
  - intros (c & Hin & Hc) H.
    assert (Hc' : c ∈ filter (λ c, fold_touches pk c = true) deck)
      by (by apply list_elem_of_filter).
    destruct (filter _ deck); [by apply not_elem_of_nil in Hc'|cbn in H; lia].
Qed.

Lemma classify_outcome a b c :
  ∃ o chk, classifyInBetweenRound [a; b; c] = Ret (o, chk) ∧ round_outcome a b c o.
Proof.
  unfold classifyInBetweenRound. cbn [length Nat.eqb negb lookup list_lookup].
  fold (card_rank a) (card_rank b) (card_rank c).
  destruct (Z.eqb_spec (card_rank a) (card_rank b)).
  { eexists _, _. split; [done|]. by constructor. }
  destruct (Z.eqb_spec (Z.abs (card_rank a - card_rank b)) 1).
  { eexists _, _. split; [done|]. by constructor. }
  assert (1 < Z.abs (card_rank a - card_rank b)) by lia.
  destruct (_ && _) eqn:E; eexists _, _; (split; [done|]); constructor; lia.
Qed.

Lemma round_outcome_unique a b c o1 o2 :
  round_outcome a b c o1 → round_outcome a b c o2 → o1 = o2.
Proof. intros [] []; try done; lia. Qed.

Lemma settle_players_Ret acting delta ps ps' :
  settle_players acting delta ps = Ret ps' ↔ Forall2 (settled_player acting delta) ps ps'.
Proof.
  revert ps'. induction ps as [|p ps IH]; intros ps'; cbn [settle_players].
  { split; [intros [= <-]; constructor|]. intros H. by inversion H. }
  rewrite js_bind_Ret. setoid_rewrite js_bind_Ret. split.
  - intros (p' & Hp & ps'' & Hps & [= <-]). constructor; [|by apply IH].
    destruct (Z.eqb_spec (seat p) acting); simpl in Hp; [|right; by simplify_eq].
    left. split; [done|]. unfold js_add in Hp. rewrite is_safe_round in Hp.
    destruct (is_safe_integer _) eqn:Hs; [|done]. rewrite js_round_safe in Hp by done.
    destruct (Z.ltb_spec (stake_at_risk p + delta) 0); [done|]. simpl in Hp.
    apply js_bind_Ret in Hp as (v & Hv & [= <-]). by apply asSatoshis_Ret in Hv as [-> ?].
  - intros H. inversion H as [|? p' ? ps'' Hp Hps]; simplify_eq.
    exists p'. apply IH in Hps. split; [|by exists ps''].
    destruct Hp as [(-> & [H0 H1] & ->)|[Hne ->]].
    + rewrite Z.eqb_refl. simpl. unfold js_add. rewrite is_safe_round.
      assert (Hs : is_safe_integer (stake_at_risk p + delta) = true).
      { apply is_safe_integer_spec. unfold MAX_SAFE_INTEGER in *. lia. }
      rewrite Hs, js_round_safe by done. rewrite (proj2 (Z.ltb_ge _ 0)) by lia.
      simpl. assert (asSatoshis (stake_at_risk p + delta) = Ret (stake_at_risk p + delta)) as ->
        by (by apply asSatoshis_Ret). done.
    + by rewrite (proj2 (Z.eqb_neq _ _) Hne).
Qed.

(** ** The rotation *)

Lemma seats_sorted ss :
  NoDup ss → StronglySorted Z.lt (merge_sort Z.le ss).
Proof.
  intros Hnd. assert (Hnd' : NoDup (merge_sort Z.le ss)) by (by rewrite merge_sort_Permutation).
  assert (Hs : StronglySorted Z.le (merge_sort Z.le ss))
    by (apply StronglySorted_merge_sort; apply _).
  induction Hs as [|x l Hs IH Hx]; [constructor|].
  apply list.NoDup_cons in Hnd' as [Hni Hnd']. constructor; [by apply IH|].
  rewrite list.Forall_forall in Hx |- *. intros y Hy. specialize (Hx y Hy).
  destruct (decide (x = y)) as [->|]; [done|lia].
Qed.

Lemma StronglySorted_split (l1 l2 : list Z) x :
  StronglySorted Z.lt (l1 ++ x :: l2) →
  Forall (λ y, y < x) l1 ∧ Forall (λ y, x < y) l2 ∧ StronglySorted Z.lt l2.
Proof.
  induction l1 as [|y l1 IH]; cbn [app]; intros H; inversion H as [|? ? Hs Hf]; subst.
  - done.
  - destruct (IH Hs) as (?&?&?). split_and!; [constructor|..]; try done.
    rewrite list.Forall_forall in Hf. apply Hf. apply elem_of_app. right. by left.
Qed.

Lemma indexOf_app l1 (x : Z) l2 :
  x ∉ l1 → indexOf (l1 ++ x :: l2) x = Z.of_nat (length l1).
Proof.
  unfold indexOf. induction l1 as [|y l1 IH]; cbn [app findIndex]; intros Hx.
  - by rewrite bool_decide_true.
  - apply not_elem_of_cons in Hx as [Hne Hx]. rewrite bool_decide_false by done.
    rewrite IH by done. rewrite (proj2 (Z.ltb_ge _ _)) by lia. cbn [length]. lia.
Qed.

Lemma indexOf_absent (l : list Z) x : x ∉ l → indexOf l x = -1.
Proof.
  unfold indexOf. induction l as [|y l IH]; [done|]. intros [Hne Hx]%not_elem_of_cons.
  cbn [findIndex]. rewrite bool_decide_false by done. by rewrite IH.
Qed.

(** The scan of [rotate_next] for a seat in the sorted list: the one above, or the first again *)
Lemma rotate_seated f r x :
  StronglySorted Z.lt (f :: r) → x ∈ f :: r →
  (rotate_next (Some x) (f :: r) = Ret f ∧ ∀ m, m ∈ f :: r → m ≤ x)
  ∨ ∃ n, rotate_next (Some x) (f :: r) = Ret n ∧ f < n ∧ next_above (f :: r) x n.
Proof.
  intros Hs Hx. assert (Hf : ∀ m, m ∈ f :: r → f ≤ m).
  { inversion Hs as [|? ? _ Hfr]; subst. rewrite list.Forall_forall in Hfr.
    intros m [->|Hm%Hfr]%elem_of_cons; lia. }
  pose proof (Hf x Hx) as Hfx. apply list_elem_of_split in Hx as (l1 & l2 & E).
  cbn [rotate_next]. rewrite E in *. destruct (StronglySorted_split l1 l2 x Hs) as (H1 & H2 & Hs2).
  rewrite list.Forall_forall in H1, H2.
  rewrite indexOf_app by (intros ?%H1; lia). rewrite length_app. cbn [length].
  destruct l2 as [|n l3].
  - left. split.
    + replace (Z.of_nat (length l1) + 1) with (Z.of_nat (length l1 + 1)) by lia.
      cbn [length]. rewrite Z.rem_same by lia. by rewrite <- E.
    + intros m [Hm%H1|Hm%list_elem_of_singleton]%elem_of_app; lia.
  - right. assert (Hn : x < n) by (apply H2; by left). exists n.
    split; [|split; [lia|split_and!; [|done|]]].
    + rewrite Z.rem_small by (cbn [length]; lia). unfold seat_at.
      replace (l1 ++ x :: n :: l3) with ((l1 ++ [x]) ++ n :: l3) by (by rewrite <- app_assoc).
      replace (Z.of_nat (length l1) + 1) with (Z.of_nat (length (l1 ++ [x])))
        by (rewrite length_app; cbn [length]; lia).
      by rewrite at_index_app.
    + apply elem_of_app. right. right. by left.
    + inversion Hs2 as [|? ? _ Hn3]; subst. rewrite list.Forall_forall in Hn3.
      intros m [Hm%H1|[->|[->|Hm%Hn3]%elem_of_cons]%elem_of_cons]%elem_of_app Hxm; lia.
Qed.

Lemma next_above_ext ss ss' x n :
  (∀ y, y ∈ ss ↔ y ∈ ss') → next_above ss x n → next_above ss' x n.
Proof. intros E (?&?&?). split_and!; naive_solver. Qed.

Lemma rotate_spec acting (ss : list Seat) :
  NoDup ss → ss ≠ [] →
  let l := merge_sort Z.le ss in
  ∃ n f, rotate_next acting l = Ret n ∧ seat_at l 0 = Ret f
    ∧ turn_passes ss acting
        (if bool_decide (is_Some acting) && (n =? f) then None else Some n).
Proof.
  intros Hnd Hne l. pose proof (seats_sorted ss Hnd) as Hs. fold l in Hs.
  assert (Hin : ∀ y, y ∈ l ↔ y ∈ ss) by (intros y; unfold l; by rewrite merge_sort_Permutation).
  destruct l as [|f r] eqn:El.
  { destruct ss as [|y ss]; [done|]. exfalso. apply (not_elem_of_nil y), Hin. by left. }
  destruct acting as [x|].
  2:{ exists f, f. split_and!; [done..|]. constructor. split; [apply Hin; by left|].
      intros m Hm%Hin. inversion Hs as [|? ? _ Hfr]; subst. rewrite list.Forall_forall in Hfr.
      apply elem_of_cons in Hm as [->|Hm%Hfr]; lia. }
  destruct (decide (x ∈ f :: r)) as [Hx|Hx].
  - destruct (rotate_seated f r x Hs Hx) as [[E Hm]|(n & E & Hfn & Hn)].
    + exists f, f. rewrite Z.eqb_refl. cbn. split_and!; [exact E|done|].
      constructor; [done|]. intros _ m Hm'%Hin. by apply Hm.
    + exists n, f. rewrite (proj2 (Z.eqb_neq n f)) by lia. cbn. split_and!; [exact E|done|].
      constructor; [by apply Hin|by eapply next_above_ext].
  - exists f, f. cbn [rotate_next]. rewrite indexOf_absent by done. cbn [Z.add].
    rewrite Z.rem_0_l by (cbn [length]; lia). split_and!; [done..|].
    rewrite Z.eqb_refl. cbn. constructor; [done|]. by intros Hxs%Hin.
Qed.

Lemma turn_passes_unique ss a n1 n2 : turn_passes ss a n1 → turn_passes ss a n2 → n1 = n2.
Proof.
  intros H1 H2. destruct H1 as [n [Hn Hmin]|x n Hx (Hn & Hlt & Hmin)|x Hne Hmax];
    inversion H2 as [m [Hm Hmin2] E1 E2|y m Hy (Hm & Hlt2 & Hmin2) E1 E2|y Hne2 Hmax2 E1 E2]; subst.
  - f_equal. pose proof (Hmin m Hm). pose proof (Hmin2 n Hn). lia.
  - f_equal. pose proof (Hmin m Hm Hlt2). pose proof (Hmin2 n Hn Hlt). lia.
  - pose proof (Hmax2 Hx n Hn). lia.
  - pose proof (Hmax Hy m Hm). lia.
  - done.
Qed.

(** ** Each handler implements its transitions *)

Lemma is_class_eq sc sc' : is_class sc sc' = true ↔ sc = sc'.
Proof. apply bool_decide_eq_true. Qed.

Lemma accept_Ok {T} (v w : T) : accept v = Ret (Ok w) ↔ v = w.
Proof. unfold accept. naive_solver. Qed.

Lemma guard_ok {T} (c : bool) code ctx (m : js (Result T)) v :
  (if c then reject code ctx else m) = Ret (Ok v) ↔ c = false ∧ m = Ret (Ok v).
Proof. destruct c; unfold reject; naive_solver. Qed.

Lemma negb_class sc sc' : negb (is_class sc sc') = false ↔ sc = sc'.
Proof. by rewrite negb_false_iff, is_class_eq. Qed.

Lemma existsb_seat x ps : existsb (λ p, seat p =? x) ps = false ↔ x ∉ (seat <$> ps).
Proof.
  induction ps as [|p ps IH]; cbn [existsb].
  { split; [intros _; apply not_elem_of_nil|done]. }
  rewrite orb_false_iff, IH, fmap_cons, not_elem_of_cons, Z.eqb_neq.
  split; intros [? ?]; (split; [congruence|done]).
Qed.

Ltac inv_transition H := inversion H; subst; clear H.

Section handlers.
Context (rs : RuleSet) (height : Z).

Lemma applyJoin_ok s act pk stake s' :
  applyJoin s act pk stake rs = Ret (Ok s') ↔
  transition rs height s act (JoinAction pk stake) s'.
Proof.
  unfold applyJoin. rewrite !guard_ok, negb_class, negb_false_iff, Z.eqb_eq, Z.leb_gt, js_bind_Ret.
  split.
  - intros (Hc & -> & Hn & x & Hx & Hs'). apply asSeat_Ret in Hx as [-> Hx].
    apply guard_ok in Hs' as [Hns ->%accept_Ok%symmetry].
    apply existsb_seat in Hns. by apply t_join.
  - intros H. inv_transition H. split_and!; try done. eexists. split; [by apply asSeat_Ret|].
    apply guard_ok. split; [by apply existsb_seat|done].
Qed.

Lemma applyTableLock_ok s act s' :
  applyTableLock s rs = Ret (Ok s') ↔ transition rs height s act TableLockAction s'.
Proof.
  unfold applyTableLock. rewrite !guard_ok, negb_class, Z.ltb_ge, accept_Ok. split.
  - intros (?&?&<-). by apply t_table_lock.
  - intros H. by inv_transition H.
Qed.

Lemma applyEntropyCommit_ok s act c s' :
  applyEntropyCommit s act c = Ret (Ok s') ↔
  transition rs height s act (EntropyCommitAction c) s'.
Proof.
  unfold applyEntropyCommit. rewrite guard_ok, negb_class.
  destruct (act_acting_player_seat act) as [x|] eqn:Ex.
  2:{ split; [by intros [_ ?]|]. intros H. inv_transition H. congruence. }
  rewrite guard_ok. destruct (seat_scan x (players s)) as [(p&->&->&Hat)|[Hx ->]].
  - rewrite guard_ok, accept_Ok. cbv zeta. split.
    + intros (Hc & _ & Hp & <-). eapply t_entropy_commit; [done|done|apply Hat|done].
    + intros H. inv_transition H.
      match goal with H : _ = Some ?y, H2 : at_seat ?y _ _ _ _ |- _ =>
        rewrite H in Ex; injection Ex as ->;
        destruct (at_seat_unique _ _ _ _ _ _ _ _ (Hat (committed c p)) H2) as [<- E]; rewrite <- E by done
      end. done.
  - split; [by intros (_&?&_)|]. intros H. inv_transition H.
    match goal with H : _ = Some ?y, H2 : at_seat ?y _ _ _ _ |- _ =>
      rewrite H in Ex; injection Ex as ->; apply at_seat_in in H2 as (_&_&?) end. done.
Qed.

Lemma applyEntropyReveal_ok s act e s' :
  applyEntropyReveal s act e = Ret (Ok s') ↔
  transition rs height s act (EntropyRevealAction e) s'.
Proof.
  unfold applyEntropyReveal. rewrite guard_ok, negb_class.
  destruct (act_acting_player_seat act) as [x|] eqn:Ex.
  2:{ split; [by intros [_ ?]|]. intros H. inv_transition H. congruence. }
  rewrite guard_ok. destruct (seat_scan x (players s)) as [(p&->&->&Hat)|[Hx ->]].
  - rewrite !guard_ok, accept_Ok, negb_false_iff. cbv zeta. split.
    + intros (Hc & _ & Hp & Hr & <-). eapply t_entropy_reveal; [done|done|apply Hat|done|done].
    + intros H. inv_transition H.
      match goal with H : _ = Some ?y, H2 : at_seat ?y _ _ _ _ |- _ =>
        rewrite H in Ex; injection Ex as ->;
        destruct (at_seat_unique _ _ _ _ _ _ _ _ (Hat (revealed e p)) H2) as [<- E]; rewrite <- E by done
      end. done.
  - split; [by intros (_&?&_)|]. intros H. inv_transition H.
    match goal with H : _ = Some ?y, H2 : at_seat ?y _ _ _ _ |- _ =>
      rewrite H in Ex; injection Ex as ->; apply at_seat_in in H2 as (_&_&?) end. done.
Qed.

Lemma applyCardReveal_ok s act rp s' :
  applyCardReveal s rp = Ret (Ok s') ↔ transition rs height s act (CardRevealAction rp) s'.
Proof.
  assert (H : applyCardReveal s rp = Ret (Ok s') ↔ ∃ sc, reveal_target (state_class s) = Some sc
    ∧ s' = (enter sc s |> set_visible_cards (visible_cards s ++ [revealed_card rp])
                       |> set_acting_player_seat (actor_after_reveal s))).
  { unfold applyCardReveal, actor_after_reveal. destruct (state_class s) eqn:Hc; cbn [reveal_target];
      try (split; [by unfold reject|by intros (?&?&?)]);
      unfold is_class; rewrite ?bool_decide_false, ?bool_decide_true by done;
      (destruct (players s) as [|p0 ps] eqn:Hp, (acting_player_seat s) eqn:Ha;
       cbv iota beta; rewrite accept_Ok;
       (split; [intros <-; by eexists|intros (?&[= <-]&->); done])). }
  rewrite H. split.
  - intros (sc & Hsc & ->). by apply t_card_reveal.
  - intros Ht. inv_transition Ht. eauto.
Qed.

Lemma applyDealConcealed_ok s act cards s' :
  applyDealConcealed s cards rs = Ret (Ok s') ↔
  transition rs height s act (DealConcealedAction cards) s'.
Proof.
  unfold applyDealConcealed. rewrite !guard_ok, negb_class, negb_false_iff, Z.eqb_eq.
  rewrite bool_decide_eq_false, <- eq_None_not_Some.
  pose proof (dealConcealed_check_None (deck_format rs) [] cards) as Hc. split.
  - intros (H1 & H2 & H3 & H4). destruct (dealConcealed_check _ _ _); [done|].
    apply accept_Ok in H4 as <-. destruct (proj1 Hc eq_refl) as (?&?&_).
    by apply t_deal_concealed.
  - intros H. inv_transition H. rewrite (proj2 Hc); [done|]. split_and!; [done..|].
    apply list.Forall_forall. intros. apply not_elem_of_nil.
Qed.

Lemma applyBet_ok s act bet s' :
  applyBet s bet rs = Ret (Ok s') ↔ transition rs height s act (BetAction_ bet) s'.
Proof.
  unfold applyBet. rewrite !guard_ok, negb_class, orb_false_iff, !Z.ltb_ge, js_bind_Ret.
  unfold addToPot, js_add. split.
  - intros (Hc & [H1 H2] & v & Hv & ->%accept_Ok%symmetry). cbv zeta in Hv.
    rewrite is_safe_round in Hv. destruct (is_safe_integer _) eqn:Hs; [|done]. simpl in Hv.
    rewrite js_round_safe in Hv by done. apply asSatoshis_Ret in Hv as [-> ?].
    by apply t_bet.
  - intros H. inv_transition H. split_and!; [done|lia|lia|].
    match goal with H : is_sats _ |- _ => rename H into Hp end.
    assert (Hs : is_safe_integer (pot_value s + bet) = true).
    { destruct Hp. apply is_safe_integer_spec. unfold MAX_SAFE_INTEGER in *. lia. }
    eexists. cbv zeta. rewrite is_safe_round, Hs, js_round_safe by done. simpl.
    split; [by apply asSatoshis_Ret|done].
Qed.

Lemma applyPass_ok s act s' :
  applyPass s = Ret (Ok s') ↔ transition rs height s act PassAction s'.
Proof.
  unfold applyPass. rewrite !guard_ok, negb_class, accept_Ok. split.
  - intros (?&<-). by apply t_pass.
  - intros H. by inv_transition H.
Qed.

Lemma applyFold_ok s act s' :
  applyFold s act = Ret (Ok s') ↔ transition rs height s act FoldAction s'.
Proof.
  unfold applyFold. rewrite guard_ok, andb_false_iff, !negb_class.
  destruct (act_acting_player_seat act) as [x|] eqn:Ex.
  2:{ split; [by intros [_ ?]|]. intros H. inv_transition H. congruence. }
  destruct (concealed_deck s) as [deck|] eqn:Ed.
  2:{ split; [by intros [_ ?]|]. intros H. inv_transition H. congruence. }
  rewrite guard_ok. destruct (seat_scan x (players s)) as [(p&->&->&Hat)|[Hx ->]].
  - rewrite fold_loop_spec. cbv iota beta. rewrite guard_ok, accept_Ok, fold_touched_zero. split.
    + intros (Hc & _ & Hp & <-). eapply t_fold; [done|done|done|apply Hat|done].
    + intros H. inv_transition H.
      match goal with H : _ = Some ?y, H2 : at_seat ?y _ _ _ _ |- _ =>
        rewrite H in Ex; injection Ex as ->;
        destruct (at_seat_unique _ _ _ _ _ _ _ _ (Hat (set_participation_status folded p)) H2)
          as [<- E]; rewrite <- E by done
      end.
      match goal with H : concealed_deck s = Some ?d |- _ => rewrite Ed in H; injection H as <- end.
      done.
  - split; [by intros (_&?&_)|]. intros H. inv_transition H.
    match goal with H : _ = Some ?y, H2 : at_seat ?y _ _ _ _ |- _ =>
      rewrite H in Ex; injection Ex as ->; apply at_seat_in in H2 as (_&_&?) end. done.
Qed.

Lemma applySettle_ok s act s' :
  applySettle s rs = Ret (Ok s') ↔ transition rs height s act SettleAction s'.
Proof.
  unfold applySettle. rewrite !guard_ok, negb_class, negb_false_iff, Nat.eqb_eq.
  destruct (acting_player_seat s) as [x|] eqn:Ex.
  2:{ split; [by intros (_&_&?)|]. intros H. inv_transition H. congruence. }
  split.
  - intros (Hc & Hlen & H).
    destruct (visible_cards s) as [|a [|b [|c [|]]]] eqn:Hv; try done.
    destruct (classify_outcome a b c) as (o & chk & E & Ho). rewrite E in H.
    cbn [mbind js_bind] in H.
    destruct (computeValueTransfer o (pot_value s) (settlement_rules rs)) as [pd qd] eqn:Ev.
    apply guard_ok in H as [Hpot H]. apply js_bind_Ret in H as (ps' & Hps & H).
    apply js_bind_Ret in H as (v & Hv' & <-%accept_Ok). apply settle_players_Ret in Hps.
    unfold js_add in *. rewrite is_safe_round in Hpot. apply orb_false_iff in Hpot as [Hs _].
    apply negb_false_iff in Hs. rewrite js_round_safe in Hv' by done.
    apply asSatoshis_Ret in Hv' as [-> ?]. by eapply t_settle.
  - intros H. inv_transition H. split; [done|].
    repeat match goal with H : _ = Some ?y |- _ => rewrite H in Ex; injection Ex as -> end.
    match goal with H : visible_cards s = [?a; ?b; ?c], Ho : round_outcome ?a ?b ?c ?o |- _ =>
      rewrite H; split; [done|]; destruct (classify_outcome a b c) as (o' & chk & -> & Ho');
      rewrite (round_outcome_unique _ _ _ _ _ Ho' Ho) end.
    cbn [mbind js_bind].
    match goal with H : computeValueTransfer _ _ _ = _ |- _ => rewrite H end.
    match goal with H : is_sats _ |- _ => rename H into Hp end.
    assert (Hs : is_safe_integer (pot_value s + qd) = true).
    { destruct Hp. apply is_safe_integer_spec. unfold MAX_SAFE_INTEGER in *. lia. }
    unfold js_add. rewrite is_safe_round, js_round_safe, Hs by done. apply guard_ok.
    split; [destruct Hp; simpl; by apply Z.ltb_ge|].
    match goal with H : Forall2 _ _ _ |- _ => apply settle_players_Ret in H as -> end.
    cbn [mbind js_bind]. rewrite (proj2 (asSatoshis_Ret _ _) (conj eq_refl Hp)). done.
Qed.

Lemma applyRotateTurn_ok s act s' :
  NoDup (seats s) →
  applyRotateTurn s = Ret (Ok s') ↔ transition rs height s act RotateTurnAction s'.
Proof.
  intros Hnd. unfold applyRotateTurn. rewrite guard_ok, negb_class. cbv zeta.
  rewrite guard_ok, Nat.eqb_neq.
  assert (Hne : length (merge_sort Z.le (seats s)) ≠ 0%nat ↔ seats s ≠ []).
  { rewrite (Permutation_length (merge_sort_Permutation Z.le (seats s))).
    by rewrite length_zero_iff_nil. }
  rewrite Hne. split.
  - intros (Hc & Hss & H).
    destruct (rotate_spec (acting_player_seat s) (seats s) Hnd Hss) as (n & f & Hn & Hf & Ht).
    rewrite Hn, Hf in H. cbn [mbind js_bind] in H.
    destruct (_ && _).
    + apply accept_Ok in H as <-. by apply t_rotate_close.
    + apply js_bind_Ret in H as (v & Hv & <-%accept_Ok).
      apply asRoundNumber_Ret in Hv as [-> Hv]. unfold js_add in *.
      assert (Hs : is_safe_integer (js_round (round_number s + 1)) = true).
      { apply is_safe_integer_spec. unfold MAX_SAFE_INTEGER in *. lia. }
      rewrite (js_round_of_safe _ Hs) in *. by eapply t_rotate.
  - intros H. assert (Hss : seats s ≠ []).
    { inv_transition H;
        match goal with H : turn_passes _ _ _ |- _ => inversion H as [? [Hin _]|? ? ? [Hin _]|] end;
        [intros Hnil; rewrite Hnil in Hin; by apply not_elem_of_nil in Hin..|done]. }
    destruct (rotate_spec (acting_player_seat s) (seats s) Hnd Hss) as (n & f & Hn & Hf & Ht).
    inv_transition H; (split; [done|]; split; [done|]); rewrite Hn, Hf; cbn [mbind js_bind];
      match goal with H : turn_passes _ _ _ |- _ =>
        pose proof (turn_passes_unique _ _ _ _ Ht H) as E end;
      destruct (_ && _); try done.
    injection E as <-. unfold js_add.
    match goal with H : is_sats _ |- _ => rename H into Hp end.
    assert (Hs : is_safe_integer (round_number s + 1) = true).
    { destruct Hp. apply is_safe_integer_spec. unfold MAX_SAFE_INTEGER in *. lia. }
    rewrite js_round_safe by done. by rewrite (proj2 (asRoundNumber_Ret _ _) (conj eq_refl Hp)).
Qed.

Lemma applyTableClose_ok s act s' :
  applyTableClose s = Ret (Ok s') ↔ transition rs height s act TableCloseAction s'.
Proof.
  unfold applyTableClose. rewrite !guard_ok, negb_class, accept_Ok. split.
  - intros (?&<-). by apply t_table_close.
  - intros H. by inv_transition H.
Qed.

Lemma applyTimeout_ok s act da x s' :
  applyTimeout s height = Ret (Ok s') ↔ transition rs height s act (TimeoutAction da x) s'.
Proof.
  unfold applyTimeout. rewrite guard_ok, negb_class.
  destruct (decision_deadline_block_height s) as [d|] eqn:Ed.
  - rewrite guard_ok, accept_Ok, Z.ltb_ge. split.
    + intros (?&?&<-). by eapply t_timeout.
    + intros H. inv_transition H. split_and!; try done. congruence.
  - split; [by intros [_ ?]|]. intros H. inv_transition H. congruence.
Qed.

Lemma applyRecovery_ok s act tr s' :
  applyRecovery s height = Ret (Ok s') ↔ transition rs height s act (RecoveryAction tr) s'.
Proof.
  unfold applyRecovery. destruct (recovery_deadline_block_height s) as [d|] eqn:Ed.
  - rewrite guard_ok, accept_Ok, Z.ltb_ge. split.
    + intros (?&<-). by eapply t_recovery.
    + intros H. inv_transition H. split; [|done]. congruence.
  - split; [by unfold reject|]. intros H. inv_transition H. congruence.
Qed.
End handlers.

(** The classes a transition starts from allow its action. *)
Lemma transition_legal rs height s act a s' :
  transition rs height s (act_base a) (payload a) s' → act = act_base a →
  action_type a = Recovery ∨ includes (getLegalActions (state_class s)) (action_type a) = true.
Proof.
  intros H _. unfold action_type.
  destruct H as [| | | |s ? ? ? Hc| | | |s ? ? ? ? ? [Hc|Hc]| | | | | |];
    try match goal with H : state_class ?s = _ |- _ => rewrite H end; auto.
  destruct (state_class s); try done; by right.
Qed.

(** ** The engine implements the specification *)

Lemma applyAction_transition s a rs height s' :
  NoDup (seats s) →
  applyAction s a rs height = Ret (Ok s') ↔
  act_game_id (act_base a) = game_id s ∧ transition rs height s (act_base a) (payload a) s'.
Proof.
  intros Hnd. unfold applyAction. cbv zeta.
  rewrite !guard_ok, negb_false_iff, bool_decide_eq_true.
  assert (Hh : match payload a with
    | JoinAction player_pubkey stake => applyJoin s (act_base a) player_pubkey stake rs
    | TableLockAction => applyTableLock s rs
    | EntropyCommitAction commitment_hash => applyEntropyCommit s (act_base a) commitment_hash
    | EntropyRevealAction entropy => applyEntropyReveal s (act_base a) entropy
    | CardRevealAction reveal => applyCardReveal s reveal
    | DealConcealedAction cards => applyDealConcealed s cards rs
    | BetAction_ bet_amount => applyBet s bet_amount rs
    | PassAction => applyPass s
    | FoldAction => applyFold s (act_base a)
    | SettleAction => applySettle s rs
    | RotateTurnAction => applyRotateTurn s
    | TableCloseAction => applyTableClose s
    | TimeoutAction _ _ => applyTimeout s height
    | RecoveryAction _ => applyRecovery s height
    end = Ret (Ok s') ↔ transition rs height s (act_base a) (payload a) s').
  { destruct (payload a).
    - apply applyJoin_ok.
    - apply applyEntropyCommit_ok.
    - apply applyEntropyReveal_ok.
    - apply applyCardReveal_ok.
    - apply applyDealConcealed_ok.
    - apply applyBet_ok.
    - apply applyPass_ok.
    - apply applyFold_ok.
    - apply applySettle_ok.
    - by apply applyRotateTurn_ok.
    - apply applyTableLock_ok.
    - apply applyTableClose_ok.
    - apply applyTimeout_ok.
    - apply applyRecovery_ok. }
  rewrite Hh. split; [by intros (?&_&?)|]. intros (? & Ht). split_and!; [done| |done].
  destruct (transition_legal _ _ _ _ a _ Ht eq_refl) as [E|E]; rewrite E;
    [by rewrite bool_decide_true|by rewrite andb_false_r].
Qed.

(** C1: the engine implements its specification.  On a table whose seats are distinct,
    [applyAction] accepts an action, with successor [s'], exactly when the action names
    the state's game and the specification has that transition to [s']. *)
Theorem applyAction_refines s a rs height s' :
  NoDup (seats s) →
  applyAction s a rs height = Ret (Ok s') ↔
  act_game_id (act_base a) = game_id s ∧ transition rs height s (act_base a) (payload a) s'.
Proof. apply applyAction_transition. Qed.
