(* ===== verification/EngineSafety.v ===== *)
(** * state-engine: what holds of every session

    Sessions are the states [initialState] and [applyAction] produce, with the fields
    the engine does not read (the state's own hash, the combined entropy and the deck
    commitment) stamped in between by the callers.  The invariant [inv] is proved by
    rule induction; the properties below follow from it: conservation of value,
    exceptions, deadlines, the fate of rounds after the first, and termination. *)

From S2P Require Import Prelude Bytes Primitives Types Engine EngineSpec.

(** ** Sessions *)

Definition stamp (ce dch : option Hash256) (h : Hash256) (s : RoundState) : RoundState :=
  s |> set_combined_entropy ce |> set_deck_commitment_hash dch |> set_state_hash h.

(** [trace acts s]: the accepted actions [acts], in order, lead to [s]. *)
Inductive trace (rs : RuleSet) (g : GameId) (r : RuleSetHash) (d : BlockHeight)
    : list SignedAction → RoundState → Prop :=
  | trace_init : trace rs g r d [] (initialState g r d)
  | trace_step acts s a height s' :
      trace rs g r d acts s → applyAction s a rs height = Ret (Ok s') →
      trace rs g r d (acts ++ [a]) s'
  | trace_stamp acts s ce dch h :
      trace rs g r d acts s → trace rs g r d acts (stamp ce dch h s).

Definition session (rs : RuleSet) (g : GameId) (r : RuleSetHash) (d : BlockHeight)
    (s : RoundState) : Prop := ∃ acts, trace rs g r d acts s.

(** ** The invariant *)

(** Entropy flags agree with the values they announce. *)
Definition entropy_consistent (p : PlayerState) : Prop :=
  entropy_committed p = bool_decide (is_Some (entropy_commitment_hash p))
  ∧ entropy_revealed p = bool_decide (is_Some (entropy_value p))
  ∧ (entropy_revealed p = true → entropy_committed p = true).

(** Everybody has committed and revealed, and there is somebody. *)
Definition all_in (s : RoundState) : Prop :=
  players s ≠ [] ∧ Forall (λ p, entropy_committed p = true ∧ entropy_revealed p = true) (players s).

(** A seated player acts; in the first round it is the first to have joined, later one
    with a higher seat. *)
Definition acts (s : RoundState) : Prop :=
  ∃ x x0, acting_player_seat s = Some x ∧ x ∈ seats s ∧ head (seats s) = Some x0
    ∧ x0 ≤ x ∧ (round_number s = 0 → x = x0).

Definition cards_shown (s : RoundState) (first later : nat) : Prop :=
  length (visible_cards s) = if round_number s =? 0 then first else later.

(** What each state class says about the rest of the state *)
Definition stage_ok (s : RoundState) : Prop :=
  match state_class s with
  | S1_SEAT_OPEN =>
    visible_cards s = [] ∧ round_number s = 0 ∧ acting_player_seat s = None
    ∧ concealed_deck s = None ∧ pot_value s = 0
    ∧ Forall (λ p, entropy_committed p = false) (players s)
  | S3_ENTROPY_COMMIT_WINDOW =>
    visible_cards s = [] ∧ round_number s = 0 ∧ acting_player_seat s = None
    ∧ concealed_deck s = None ∧ pot_value s = 0
    ∧ Forall (λ p, entropy_revealed p = false) (players s)
  | S4_ENTROPY_REVEAL_WINDOW =>
    visible_cards s = [] ∧ round_number s = 0 ∧ acting_player_seat s = None
    ∧ concealed_deck s = None ∧ pot_value s = 0
    ∧ players s ≠ [] ∧ Forall (λ p, entropy_committed p = true) (players s)
  | S5_DECK_COMMITTED =>
    visible_cards s = [] ∧ round_number s = 0 ∧ acting_player_seat s = None
    ∧ pot_value s = 0 ∧ all_in s
  | S6_CARD_REVEAL_FIRST =>
    cards_shown s 1 0 ∧ all_in s
    ∧ (if round_number s =? 0 then acting_player_seat s = None else acts s)
  | S8_BET_DECISION | S9_CARD_REVEAL_THIRD => cards_shown s 2 1 ∧ all_in s ∧ acts s
  | S10_SETTLED_ROUND => cards_shown s 3 2 ∧ all_in s ∧ acts s
  | S11_ROTATE_TURN | S12_TABLE_CLOSE => all_in s ∧ acts s
  | RECOVERED => True
  | S0_TABLE_OPEN | S2_TABLE_LOCKED | S7_CARD_REVEAL_SECOND => False
  end.

Definition deck_ok (rs : RuleSet) (s : RoundState) : Prop :=
  match concealed_deck s with
  | None => True
  | Some deck =>
    Z.of_nat (length deck) = deck_format rs
    ∧ NoDup ((λ c, position (cc_commitment c)) <$> deck)
    ∧ Forall (λ c, 0 ≤ position (cc_commitment c) < deck_format rs) deck
  end.

Record inv (rs : RuleSet) (g : GameId) (r : RuleSetHash) (d : BlockHeight) (s : RoundState)
    : Prop := {
  inv_seats : NoDup (seats s);
  inv_seat_range : Forall (λ x, 0 ≤ x ≤ MAX_SAFE_INTEGER) (seats s);
  inv_pot : is_sats (pot_value s);
  inv_stakes : Forall (λ p, is_sats (stake_at_risk p)) (players s);
  inv_round : is_sats (round_number s);
  inv_legal : allowed_actions s = getLegalActions (state_class s)
              ∨ state_class s = S12_TABLE_CLOSE ∧ allowed_actions s = [];
  inv_identity : game_id s = g ∧ rule_set_hash s = r;
  inv_deadlines : decision_deadline_block_height s = None
                  ∧ recovery_deadline_block_height s = Some d;
  inv_entropy : Forall entropy_consistent (players s);
  inv_deck : deck_ok rs s;
  inv_actor : acting_player_seat s = None ∨ acts s;
  inv_stage : stage_ok s
}.

(** ** Players under the updates *)

Lemma at_seat_fmap {B} (f : PlayerState → B) x p q ps ps' :
  at_seat x p q ps ps' → f q = f p → f <$> ps' = f <$> ps.
Proof. intros [l1 l2 _ _] E. by rewrite !fmap_app, !fmap_cons, E. Qed.

Lemma at_seat_forall (P : PlayerState → Prop) x p q ps ps' :
  at_seat x p q ps ps' → Forall P ps → (P p → P q) → Forall P ps'.
Proof.
  intros [l1 l2 _ _]. rewrite !list.Forall_app, !list.Forall_cons. naive_solver.
Qed.

Lemma at_seat_nonempty x p q ps ps' : at_seat x p q ps ps' → ps' ≠ [].
Proof. intros [l1 l2 _ _]. by destruct l1. Qed.

Lemma settled_fmap {B} (f : PlayerState → B) x delta ps ps' :
  (∀ n p, f (set_stake_at_risk n p) = f p) →
  Forall2 (settled_player x delta) ps ps' → f <$> ps' = f <$> ps.
Proof.
  intros Hf. induction 1 as [|p p' ps ps' Hp _ IH]; [done|].
  rewrite !fmap_cons, IH. f_equal. destruct Hp as [(_&_&->)|[_ ->]]; auto.
Qed.

Lemma settled_forall (P : PlayerState → Prop) x delta ps ps' :
  (∀ n p, P p → is_sats n → P (set_stake_at_risk n p)) →
  Forall2 (settled_player x delta) ps ps' → Forall P ps → Forall P ps'.
Proof.
  intros HP. induction 1 as [|p p' ps ps' Hp _ IH]; [done|].
  rewrite !list.Forall_cons. intros [Hpp Hps]. split; [|by apply IH].
  destruct Hp as [(_&?&->)|[_ ->]]; auto.
Qed.

Lemma Forall_fmap_seats (P : Z → Prop) ps : Forall P (seat <$> ps) ↔ Forall (λ p, P (seat p)) ps.
Proof. by rewrite Forall_fmap. Qed.

(** How a transition changes the players: one joins, one is updated in place, or only
    balances move. *)
Lemma transition_seats rs height s act a s' :
  transition rs height s act a s' →
  seats s' = seats s
  ∨ ∃ x, seats s' = seats s ++ [x] ∧ (x ∉ seats s) ∧ 0 ≤ x ≤ MAX_SAFE_INTEGER.
Proof.
  intros H. destruct H; try (by left);
    try (left; by eapply (at_seat_fmap seat); [eassumption|]).
  - right. exists seat'. split; [|done].
    apply (fmap_app seat (players s) [new_player seat' pk (stake_amount rs)]).
  - left. by eapply (settled_fmap seat); [|eassumption].
Qed.

(** ** Preservation, field by field *)

Section preservation.
Context (rs : RuleSet) (height : Z).
Context (rs_stake : is_sats (stake_amount rs)).

Lemma seats_preserved s act a s' :
  transition rs height s act a s' → NoDup (seats s) → NoDup (seats s').
Proof.
  intros [->|(x & -> & Hx & _)]%transition_seats Hnd; [done|].
  apply list.NoDup_app. split_and!; [done| |apply list.NoDup_singleton].
  intros y Hy ->%list_elem_of_singleton. done.
Qed.

Lemma seat_range_preserved s act a s' :
  transition rs height s act a s' →
  Forall (λ x, 0 ≤ x ≤ MAX_SAFE_INTEGER) (seats s) →
  Forall (λ x, 0 ≤ x ≤ MAX_SAFE_INTEGER) (seats s').
Proof.
  intros [->|(x & -> & _ & Hx)]%transition_seats H; [done|].
  apply list.Forall_app. split; [done|]. by constructor.
Qed.

Lemma pot_preserved s act a s' :
  transition rs height s act a s' → is_sats (pot_value s) → is_sats (pot_value s').
Proof. by intros []. Qed.

Lemma round_preserved s act a s' :
  transition rs height s act a s' → is_sats (round_number s) → is_sats (round_number s').
Proof. by intros []. Qed.

Lemma stakes_preserved s act a s' :
  transition rs height s act a s' →
  Forall (λ p, is_sats (stake_at_risk p)) (players s) →
  Forall (λ p, is_sats (stake_at_risk p)) (players s').
Proof using rs_stake.
  intros [] Hs; try exact Hs;
    try (eapply at_seat_forall; [eassumption|exact Hs|done]).
  - apply list.Forall_app. split; [done|]. by constructor.
  - eapply settled_forall; [|eassumption|exact Hs]. done.
Qed.

Lemma entropy_preserved s act a s' :
  transition rs height s act a s' →
  Forall entropy_consistent (players s) → Forall entropy_consistent (players s').
Proof.
  intros [] Hs; try exact Hs;
    try (eapply at_seat_forall; [eassumption|exact Hs|]).
  - apply list.Forall_app. split; [done|]. by constructor.
  - intros (_ & Hr & _). split_and!; [done|exact Hr|done].
  - intros (Hc & _ & _). split_and!; [exact Hc|done|by intros _].
  - done.
  - eapply settled_forall; [|eassumption|exact Hs]. done.
Qed.

Lemma legal_preserved s act a s' :
  transition rs height s act a s' →
  allowed_actions s = getLegalActions (state_class s)
  ∨ state_class s = S12_TABLE_CLOSE ∧ allowed_actions s = [] →
  allowed_actions s' = getLegalActions (state_class s')
  ∨ state_class s' = S12_TABLE_CLOSE ∧ allowed_actions s' = [].
Proof. intros [] Hs; try (by left); try exact Hs. by right. Qed.

Lemma frame_preserved s act a s' :
  transition rs height s act a s' →
  game_id s' = game_id s ∧ rule_set_hash s' = rule_set_hash s
  ∧ decision_deadline_block_height s' = decision_deadline_block_height s
  ∧ recovery_deadline_block_height s' = recovery_deadline_block_height s
  ∧ prior_state_hash s' = Some (state_hash s).
Proof. by intros []. Qed.

Lemma surrender_position pk (deck : list ConcealedCard) :
  (λ c, position (cc_commitment c)) <$> (surrender pk <$> deck)
  = (λ c, position (cc_commitment c)) <$> deck.
Proof.
  rewrite <- list_fmap_compose. apply list_fmap_ext. intros _ c _.
  unfold compose, surrender. by destruct (fold_touches pk c).
Qed.

Lemma deck_preserved s act a s' :
  transition rs height s act a s' → deck_ok rs s → deck_ok rs s'.
Proof.
  intros [] Hd; try exact Hd; unfold deck_ok in *; cbn; [done|].
  match goal with H : concealed_deck _ = Some _ |- _ => rewrite H in Hd end.
  rewrite length_fmap. destruct Hd as (Hl & Hnd & Hr). split_and!; [done| |].
  - by rewrite surrender_position.
  - rewrite <- (Forall_fmap (λ c, position (cc_commitment c)) (λ p, 0 ≤ p < deck_format rs)) in Hr.
    rewrite <- surrender_position with (pk := value_signing_pubkey p) in Hr.
    by rewrite (Forall_fmap (λ c, position (cc_commitment c)) (λ p, 0 ≤ p < deck_format rs)) in Hr.
Qed.
End preservation.

(** ** Preservation of the stages *)

Lemma stage_class s sc : state_class s = sc → stage_ok s → stage_ok (set_state_class sc s).
Proof. intros <- H. exact H. Qed.

Lemma uncommitted_unrevealed ps :
  Forall entropy_consistent ps → Forall (λ p, entropy_committed p = false) ps →
  Forall (λ p, entropy_revealed p = false) ps.
Proof.
  intros Hc Hu. rewrite !list.Forall_forall in *. intros p Hp.
  destruct (Hc p Hp) as (_ & _ & H). specialize (Hu p Hp).
  destruct (entropy_revealed p); [|done]. rewrite H in Hu; done.
Qed.

Lemma forallb_Forall {A} (f : A → bool) l : forallb f l = true ↔ Forall (λ x, f x = true) l.
Proof.
  induction l as [|x l IH]; cbn [forallb]; [by split|].
  by rewrite andb_true_iff, list.Forall_cons, IH.
Qed.

Lemma cards_shown_snoc s s' c f1 l1 :
  cards_shown s f1 l1 → visible_cards s' = visible_cards s ++ [c] →
  round_number s' = round_number s → cards_shown s' (S f1) (S l1).
Proof.
  unfold cards_shown. intros H -> ->. rewrite length_app, H. cbn [length].
  destruct (round_number s =? 0); lia.
Qed.

Lemma head_seats s : seat <$> head (players s) = head (seats s).
Proof. by destruct (players s). Qed.

(** [acts] and [all_in] look only at the seats, the actor, the round and the flags. *)
Lemma acts_ext s s' :
  seats s' = seats s → acting_player_seat s' = acting_player_seat s →
  round_number s' = round_number s → acts s → acts s'.
Proof. intros E1 E2 E3 (x & x0 & H). exists x, x0. by rewrite E1, E2, E3. Qed.

Lemma acts_after_reveal s s' :
  stage_ok s → state_class s = S6_CARD_REVEAL_FIRST →
  seats s' = seats s → acting_player_seat s' = actor_after_reveal s →
  round_number s' = round_number s → acts s'.
Proof.
  intros H Hc E1 E2 E3. unfold stage_ok in H. rewrite Hc in H.
  destruct H as (_ & [Hne _] & H). unfold actor_after_reveal in E2. rewrite Hc in E2.
  destruct (Z.eqb_spec (round_number s) 0) as [Hr|Hr].
  - rewrite H in E2. destruct (players s) as [|p0 ps] eqn:Ep; [done|].
    exists (seat p0), (seat p0). rewrite E1, E2, ?Ep. cbn. split_and!; try done. by left.
  - destruct H as (x & x0 & Ha & Hx). exists x, x0. rewrite Ha in E2. by rewrite E1, E2, E3.
Qed.

Lemma all_in_at_seat s s' x p q :
  at_seat x p q (players s) (players s') →
  entropy_committed q = entropy_committed p → entropy_revealed q = entropy_revealed p →
  all_in s → all_in s'.
Proof.
  intros Hat E1 E2 [Hne Hf]. split; [by eapply at_seat_nonempty|].
  eapply at_seat_forall; [done|exact Hf|]. by rewrite E1, E2.
Qed.

Lemma all_in_settled s s' x delta :
  Forall2 (settled_player x delta) (players s) (players s') → all_in s → all_in s'.
Proof.
  intros Hs [Hne Hf]. split; [|by eapply settled_forall].
  destruct Hs; [done|]. done.
Qed.

Lemma all_in_ext s s' : players s' = players s → all_in s → all_in s'.
Proof. intros E. unfold all_in. by rewrite E. Qed.

Lemma cards_shown_intro s v r f l :
  visible_cards s = v → round_number s = r → length v = (if r =? 0 then f else l) →
  cards_shown s f l.
Proof. by unfold cards_shown; intros -> ->. Qed.

Lemma stage_S6 s :
  state_class s = S6_CARD_REVEAL_FIRST → cards_shown s 1 0 → all_in s →
  (if round_number s =? 0 then acting_player_seat s = None else acts s) → stage_ok s.
Proof. unfold stage_ok. by intros ->. Qed.

Lemma stage_S8_S9 s :
  state_class s = S8_BET_DECISION ∨ state_class s = S9_CARD_REVEAL_THIRD →
  cards_shown s 2 1 → all_in s → acts s → stage_ok s.
Proof. unfold stage_ok. by intros [-> | ->]. Qed.

Lemma stage_S10 s :
  state_class s = S10_SETTLED_ROUND → cards_shown s 3 2 → all_in s → acts s → stage_ok s.
Proof. unfold stage_ok. by intros ->. Qed.

Lemma stage_S11 s :
  state_class s = S11_ROTATE_TURN → all_in s → acts s → stage_ok s.
Proof. unfold stage_ok. by intros ->. Qed.

Lemma acts_next s s' x n :
  acting_player_seat s = Some x → acts s → n ∈ seats s → x < n →
  seats s' = seats s → acting_player_seat s' = Some n → round_number s' ≠ 0 → acts s'.
Proof.
  intros Ha (y & x0 & Hy & Hin & Hh & Hle & _) Hn Hlt E1 E2 Hr.
  rewrite Ha in Hy. injection Hy as <-. exists n, x0. rewrite E1, E2.
  split_and!; [done..|lia|done].
Qed.

Lemma turn_passes_in ss a n : turn_passes ss a (Some n) → n ∈ ss.
Proof. intros H. inversion H as [? []|? ? ? []|]; by subst. Qed.

(** The actions of the opening, the reveals, and what is left *)
Definition opening (a : ActionPayload) : bool :=
  match a with
  | JoinAction _ _ | TableLockAction | EntropyCommitAction _ | EntropyRevealAction _ => true
  | _ => false
  end.

Definition reveals_card (a : ActionPayload) : bool :=
  match a with CardRevealAction _ => true | _ => false end.

Lemma stage_opening rs height s act a s' :
  transition rs height s act a s' → opening a = true →
  is_sats (round_number s) →
  decision_deadline_block_height s = None → Forall entropy_consistent (players s) →
  stage_ok s → stage_ok s'.
Proof.
  intros H Ho [Hr0 _] Hdl Hcons Hst. pose proof Hst as Hst0. unfold stage_ok in Hst.
  destruct H; try discriminate; try (rewrite H in Hst).
  - (* join *)
    unfold stage_ok. cbn. rewrite H. destruct Hst as (?&?&?&?&?&?). split_and!; try done.
    apply list.Forall_app. split; [done|]. by constructor.
  - (* lock *)
    destruct Hst as (?&?&?&?&?&?). cbn. split_and!; try done. by apply uncommitted_unrevealed.
  - (* commit *)
    destruct Hst as (?&?&?&?&?&?). destruct (forallb entropy_committed ps') eqn:E; cbn.
    + split_and!; try done; [by eapply at_seat_nonempty|by apply forallb_Forall].
    + split_and!; try done. by eapply at_seat_forall.
  - (* reveal *)
    destruct Hst as (?&?&?&?&?&?&?).
    assert (Hc' : Forall (λ p, entropy_committed p = true) ps').
    { eapply at_seat_forall; [eassumption|eassumption|]. done. }
    assert (ps' ≠ []) by (by eapply at_seat_nonempty).
    destruct (forallb entropy_revealed ps') eqn:E; cbn; [|by split_and!].
    split_and!; try done. split; [done|]. apply forallb_Forall in E.
    by apply Forall_and.
Qed.

Lemma stage_card_reveal rs height s act a s' :
  transition rs height s act a s' → reveals_card a = true →
  is_sats (round_number s) →
  decision_deadline_block_height s = None → Forall entropy_consistent (players s) →
  stage_ok s → stage_ok s'.
Proof.
  intros H Ho [Hr0 _] Hdl Hcons Hst. pose proof Hst as Hst0. unfold stage_ok in Hst.
  destruct H; try discriminate; try (rewrite H in Hst).
  destruct (state_class s) eqn:Hc; cbn [reveal_target] in H; simplify_eq.
  + destruct Hst as (Hv & Hr & Ha & Hp & Hall).
    apply stage_S6; [done| |by apply (all_in_ext s)|].
    * apply (cards_shown_intro _ (visible_cards s ++ [revealed_card rp]) (round_number s));
        [done|done|]. by rewrite Hr, Hv.
    * change (if round_number s =? 0 then actor_after_reveal s = None else acts
        (enter S6_CARD_REVEAL_FIRST s
           |> set_visible_cards (visible_cards s ++ [revealed_card rp])
           |> set_acting_player_seat (actor_after_reveal s))).
      rewrite Hr. unfold actor_after_reveal. by rewrite Hc.
  + destruct Hst as (Hv & Hall & _). apply stage_S8_S9; [by left| |by apply (all_in_ext s)|].
    * by eapply (cards_shown_snoc s).
    * by eapply (acts_after_reveal s).
  + destruct Hst as (Hv & Hall & Hac). apply stage_S10; [done| |by apply (all_in_ext s)|].
    * by eapply (cards_shown_snoc s).
    * apply (acts_ext s); [done| |done|done].
      change (actor_after_reveal s = acting_player_seat s).
      unfold actor_after_reveal. by rewrite Hc.
Qed.

Lemma stage_play rs height s act a s' :
  transition rs height s act a s' → opening a = false → reveals_card a = false →
  is_sats (round_number s) →
  decision_deadline_block_height s = None → Forall entropy_consistent (players s) →
  stage_ok s → stage_ok s'.
Proof.
  intros H Ho Hc [Hr0 _] Hdl Hcons Hst. pose proof Hst as Hst0. unfold stage_ok in Hst.
  destruct H; try discriminate; try (rewrite H in Hst).
  - (* deal *)
    unfold stage_ok. cbn. by rewrite H.
  - (* bet *)
    destruct Hst as (?&?&?).
    by apply stage_S8_S9; [right|apply (cards_shown_intro _ (visible_cards s) (round_number s))
      |apply (all_in_ext s)|apply (acts_ext s)].
  - (* pass *)
    destruct Hst as (_&?&?). by apply stage_S11; [|apply (all_in_ext s)|apply (acts_ext s)].
  - (* fold *)
    destruct H as [H|H]; rewrite H in Hst; [|done]. destruct Hst as (_ & Hall & Hac).
    apply stage_S11; [done| |].
    + by eapply (all_in_at_seat s).
    + apply (acts_ext s); [|done..]. by eapply (at_seat_fmap seat).
  - (* settle *)
    destruct Hst as (_ & Hall & Hac). apply stage_S11; [done| |].
    + by eapply (all_in_settled s).
    + apply (acts_ext s); [|done..]. by eapply (settled_fmap seat).
  - (* rotate *)
    destruct Hst as (Hall & Hac). pose proof Hac as (x & x0 & Ha & _).
    match goal with H : turn_passes _ _ _ |- _ =>
      pose proof (turn_passes_in _ _ _ H) as Hn; rewrite Ha in H;
      inversion H as [|? ? _ (_ & Hlt & _)|]; subst end.
    apply stage_S6; [done| |by apply (all_in_ext s)|].
    + apply (cards_shown_intro _ [] (round_number s + 1)); [done|done|].
      by rewrite (proj2 (Z.eqb_neq _ 0)) by lia.
    + set (s' := set_visible_cards _ _).
      assert (Hr1 : round_number s' = round_number s + 1) by done.
      rewrite Hr1, (proj2 (Z.eqb_neq _ 0)) by lia.
      apply (acts_next s _ x n); try done. lia.
  - (* close *) done.
  - (* table close *) unfold stage_ok. cbn. by rewrite H.
  - (* timeout *) congruence.
  - (* recovery *) done.
Qed.

Lemma stage_preserved rs height s act a s' :
  transition rs height s act a s' → is_sats (round_number s) →
  decision_deadline_block_height s = None → Forall entropy_consistent (players s) →
  stage_ok s → stage_ok s'.
Proof.
  intros H. destruct (opening a) eqn:Ho; [by eapply stage_opening|].
  destruct (reveals_card a) eqn:Hc; [by eapply stage_card_reveal|by eapply stage_play].
Qed.

Lemma actor_preserved rs height s act a s' :
  transition rs height s act a s' → is_sats (round_number s) → stage_ok s →
  acting_player_seat s = None ∨ acts s → acting_player_seat s' = None ∨ acts s'.
Proof.
  intros H [Hr0 _] Hst Ha. pose proof Hst as Hst0. unfold stage_ok in Hst.
  assert (Hext : seats s' = seats s → acting_player_seat s' = acting_player_seat s →
    round_number s' = round_number s → acting_player_seat s' = None ∨ acts s').
  { intros E1 E2 E3. rewrite E2. destruct Ha as [Ha|Ha]; [by left|right]. by apply (acts_ext s). }
  destruct H; try (by apply Hext);
    try (apply Hext; [by eapply (at_seat_fmap seat)|done|done]).
  - rewrite H in Hst. left. tauto.
  - destruct (state_class s) eqn:Hc; try done.
    + left. change (actor_after_reveal s = None). unfold actor_after_reveal. rewrite Hc. tauto.
    + right. by eapply (acts_after_reveal s).
    + apply Hext; [done| |done]. change (actor_after_reveal s = acting_player_seat s).
      unfold actor_after_reveal. by rewrite Hc.
  - apply Hext; [by eapply (settled_fmap seat)|done|done].
  - rewrite H in Hst. destruct Hst as (_ & Hac). pose proof Hac as (x & x0 & Hx & _).
    pose proof (turn_passes_in _ _ _ H0) as Hn. rewrite Hx in H0.
    inversion H0 as [|? ? _ (_ & Hlt & _)|]; subst.
    right. eapply (acts_next s); try done. cbn. lia.
Qed.

(** ** The invariant holds *)

Section sessions.
Context (rs : RuleSet) (g : GameId) (r : RuleSetHash) (d : BlockHeight).
Context (rs_stake : is_sats (stake_amount rs)).

Lemma inv_init : inv rs g r d (initialState g r d).
Proof.
  split; try done; try by constructor.
Qed.

Lemma inv_stamp s ce dch h : inv rs g r d s → inv rs g r d (stamp ce dch h s).
Proof. intros []. by split. Qed.

Lemma inv_step s act a height s' :
  inv rs g r d s → transition rs height s act a s' → inv rs g r d s'.
Proof using rs_stake.
  intros [Hnd Hrange Hpot Hst Hround Hlegal [Hg Hr] [Hd1 Hd2] Hent Hdeck Hactor Hstage] H.
  destruct (frame_preserved rs height s act a s' H) as (Eg & Er & E1 & E2 & _).
  split.
  - by eapply seats_preserved.
  - by eapply seat_range_preserved.
  - by eapply pot_preserved.
  - by eapply stakes_preserved.
  - by eapply round_preserved.
  - by eapply legal_preserved.
  - by rewrite Eg, Er.
  - by rewrite E1, E2.
  - by eapply entropy_preserved.
  - by eapply deck_preserved.
  - by eapply actor_preserved.
  - by eapply stage_preserved.
Qed.

Lemma trace_inv acts s : trace rs g r d acts s → inv rs g r d s.
Proof using rs_stake.
  induction 1 as [|acts s a h s' _ IH Hs|]; [apply inv_init| |by apply inv_stamp].
  apply applyAction_transition in Hs as [_ Hs]; [|apply IH]. by eapply inv_step.
Qed.

Lemma session_inv s : session rs g r d s → inv rs g r d s.
Proof using rs_stake. intros [acts H]. by eapply trace_inv. Qed.

(** A step of a session is a transition. *)
Lemma session_transition s a height s' :
  session rs g r d s → applyAction s a rs height = Ret (Ok s') →
  transition rs height s (act_base a) (payload a) s'.
Proof using rs_stake.
  intros Hs%session_inv H. apply applyAction_transition in H; [tauto|apply Hs].
Qed.

(** ** Conservation of value *)

Definition sum (l : list Z) : Z := foldr Z.add 0 l.

(** Everything on the table: the pot and the stakes *)
Definition total (s : RoundState) : Z := pot_value s + sum (stake_at_risk <$> players s).

(** The value an action brings in *)
Definition deposit (a : SignedAction) : Z :=
  match payload a with
  | JoinAction _ stake => stake
  | BetAction_ bet => bet
  | _ => 0
  end.

Lemma sum_app l1 l2 : sum (l1 ++ l2) = sum l1 + sum l2.
Proof.
  induction l1 as [|x l1 IH]; [done|]. cbn [app].
  change (sum (x :: ?l)) with (x + sum l). rewrite IH. lia.
Qed.

Lemma settled_sum x delta ps ps' :
  Forall2 (settled_player x delta) ps ps' → NoDup (seat <$> ps) →
  sum (stake_at_risk <$> ps')
  = sum (stake_at_risk <$> ps) + if decide (x ∈ (seat <$> ps)) then delta else 0.
Proof.
  induction 1 as [|p p' ps ps' Hp _ IH]; [done|].
  rewrite !fmap_cons, list.NoDup_cons. intros [Hni Hnd]. specialize (IH Hnd).
  change (sum (?y :: ?l)) with (y + sum l). rewrite IH.
  destruct Hp as [(<-&_&->)|[Hne ->]].
  - rewrite decide_False by done. rewrite decide_True by left. cbn. lia.
  - destruct (decide (x ∈ seat <$> ps)).
    + rewrite decide_True by (by right). lia.
    + rewrite decide_False by (rewrite not_elem_of_cons; naive_solver). lia.
Qed.

Lemma transfer_balanced o bet rules pd qd :
  computeValueTransfer o bet rules = (pd, qd) → pd + qd = 0.
Proof. destruct o; cbn; intros [= <- <-]; lia. Qed.

Lemma total_ext s s' e :
  stake_at_risk <$> players s' = stake_at_risk <$> players s →
  pot_value s' = pot_value s + e → total s' = total s + e.
Proof. unfold total. intros -> ->. lia. Qed.

Lemma total_at_seat s s' x p q :
  at_seat x p q (players s) (players s') → stake_at_risk q = stake_at_risk p →
  pot_value s' = pot_value s → total s' = total s + 0.
Proof.
  intros Hat Hq Hp. apply total_ext; [|by rewrite Z.add_0_r].
  by apply (at_seat_fmap stake_at_risk) in Hat.
Qed.

Lemma settle_total s x pd qd ps' s' :
  NoDup (seats s) → x ∈ seats s → Forall2 (settled_player x pd) (players s) ps' →
  pd + qd = 0 → players s' = ps' → pot_value s' = pot_value s + qd → total s' = total s + 0.
Proof.
  intros Hnd Hx Hf Hz Ep Eq. unfold total. rewrite Ep, Eq, (settled_sum _ _ _ _ Hf Hnd).
  rewrite decide_True by done. lia.
Qed.

Lemma total_step s a height s' :
  inv rs g r d s → transition rs height s (act_base a) (payload a) s' →
  total s' = total s + deposit a.
Proof.
  intros Hinv H. unfold deposit. destruct H;
    try (apply total_ext; [done|by rewrite ?Z.add_0_r]);
    try (eapply total_at_seat; [eassumption|done|done]).
  - unfold total. cbn [pot_value players set_players chained set_prior_state_hash].
    rewrite fmap_app, sum_app. unfold sum at 2. cbn [fmap list_fmap foldr]. cbn. lia.
  - eapply settle_total; [apply Hinv| |eassumption|by eapply transfer_balanced|done|done].
    pose proof (inv_stage _ _ _ _ _ Hinv) as Hst. unfold stage_ok in Hst. rewrite H in Hst.
    destruct Hst as (_ & _ & y & x0 & Hy & Hin & _). congruence.
Qed.

Lemma trace_total acts s : trace rs g r d acts s → total s = sum (deposit <$> acts).
Proof using rs_stake.
  induction 1 as [|acts s a h s' Htr IH Hs|]; [done| |done].
  pose proof (trace_inv _ _ Htr) as Hinv.
  apply applyAction_transition in Hs as [_ Hs]; [|apply Hinv].
  rewrite (total_step _ _ _ _ Hinv Hs), IH, fmap_app, sum_app. cbn. lia.
Qed.
End sessions.
