(* ===== verification/EngineMeasure.v ===== *)
(** * state-engine: sessions end

    A measure that every accepted action decreases, except [TableClose] and [Recovery],
    which the engine accepts over and over once it is in the last states.  It bounds
    the number of actions of play by the size of the table; the others only come after
    them, and lead to two states at most. *)

From S2P Require Import Prelude Bytes Primitives Types Engine EngineSpec EngineSafety.

(** ** Counting *)

Definition count {A} (f : A → bool) (l : list A) : Z :=
  Z.of_nat (length (filter (λ x, f x = true) l)).

Lemma count_cons {A} (f : A → bool) x l :
  count f (x :: l) = (if f x then 1 else 0) + count f l.
Proof.
  unfold count. rewrite filter_cons. destruct (f x) eqn:E.
  - rewrite decide_True by done. cbn [length]. lia.
  - by rewrite decide_False by congruence.
Qed.

Lemma count_app {A} (f : A → bool) l1 l2 : count f (l1 ++ l2) = count f l1 + count f l2.
Proof. unfold count. rewrite list.filter_app, length_app. lia. Qed.

Lemma count_bounds {A} (f : A → bool) l : 0 ≤ count f l ≤ Z.of_nat (length l).
Proof. unfold count. pose proof (list.length_filter (λ x, f x = true) l). lia. Qed.

Lemma count_all {A} (f : A → bool) l :
  Forall (λ x, f x = true) l → count f l = Z.of_nat (length l).
Proof.
  induction 1 as [|x l Hx _ IH]; [done|]. rewrite count_cons, Hx, IH. cbn [length]. lia.
Qed.

Lemma at_seat_count (f : PlayerState → bool) x p q ps ps' :
  at_seat x p q ps ps' → f p = false → f q = true →
  count (λ p, negb (f p)) ps' + 1 = count (λ p, negb (f p)) ps.
Proof.
  intros [l1 l2 _ _] Hp Hq. rewrite !count_app, !count_cons, Hp, Hq. simpl. lia.
Qed.

Lemma at_seat_length x p q ps ps' : at_seat x p q ps ps' → length ps' = length ps.
Proof. intros [l1 l2 _ _]. by rewrite !length_app. Qed.

(** The seats from [x] upwards *)
Definition seats_from (ss : list Seat) (x : Seat) : Z := count (λ y, x <=? y) ss.

Lemma seats_from_pos ss x : x ∈ ss → 1 ≤ seats_from ss x.
Proof.
  intros (l1 & l2 & ->)%list_elem_of_split. unfold seats_from.
  rewrite count_app, count_cons, Z.leb_refl.
  pose proof (count_bounds (λ y, x <=? y) l1). pose proof (count_bounds (λ y, x <=? y) l2). lia.
Qed.

Lemma seats_from_mono ss x n : x ≤ n → seats_from ss n ≤ seats_from ss x.
Proof.
  intros Hx. unfold seats_from. induction ss as [|y ss IH]; [done|].
  rewrite !count_cons. destruct (Z.leb_spec n y), (Z.leb_spec x y); lia.
Qed.

Lemma seats_from_next ss x n : x ∈ ss → x < n → seats_from ss n + 1 ≤ seats_from ss x.
Proof.
  intros (l1 & l2 & ->)%list_elem_of_split Hx.
  pose proof (seats_from_mono l1 x n). pose proof (seats_from_mono l2 x n).
  unfold seats_from in *. rewrite !count_app, !count_cons.
  destruct (Z.leb_spec n x), (Z.leb_spec x x); lia.
Qed.

(** ** The measure *)

Definition size (s : RoundState) : Z := Z.of_nat (length (players s)).

Definition turns_left (s : RoundState) : Z :=
  match acting_player_seat s with
  | None => size s
  | Some x => seats_from (seats s) x
  end.

Definition measure (rs : RuleSet) (s : RoundState) : Z :=
  let n := size s in
  match state_class s with
  | S0_TABLE_OPEN | S2_TABLE_LOCKED | S7_CARD_REVEAL_SECOND => 0
  | S1_SEAT_OPEN =>
    let m := Z.max n (player_count_max rs) in 8 * m + 6 + (m - n)
  | S3_ENTROPY_COMMIT_WINDOW => 7 * n + 5 + count (λ p, negb (entropy_committed p)) (players s)
  | S4_ENTROPY_REVEAL_WINDOW => 6 * n + 3 + count (λ p, negb (entropy_revealed p)) (players s)
  | S5_DECK_COMMITTED => 6 * n + 1 + (match concealed_deck s with Some _ => 0 | None => 1 end)
  | S6_CARD_REVEAL_FIRST => 6 * turns_left s
  | S8_BET_DECISION => 6 * turns_left s - 1
  | S9_CARD_REVEAL_THIRD => 6 * turns_left s - 2
  | S10_SETTLED_ROUND => 6 * turns_left s - 3
  | S11_ROTATE_TURN => 6 * turns_left s - 4
  | S12_TABLE_CLOSE | RECOVERED => 0
  end.

Definition progressing (a : ActionPayload) : bool :=
  match a with TableCloseAction | RecoveryAction _ => false | _ => true end.

Lemma size_bound s : 0 ≤ size s.
Proof. unfold size. lia. Qed.

Lemma turns_left_bounds s :
  acting_player_seat s = None ∨ acts s → 0 ≤ turns_left s ≤ size s.
Proof.
  unfold turns_left, size. intros [-> | (x & x0 & -> & _)]; [lia|].
  unfold seats_from. rewrite <- (length_fmap seat (players s)). apply count_bounds.
Qed.

Lemma turns_left_acts s : acts s → 1 ≤ turns_left s.
Proof. intros (x & x0 & Hx & Hin & _). unfold turns_left. rewrite Hx. by apply seats_from_pos. Qed.

(** The measure reads few fields. *)
Lemma turns_left_ext s s' :
  seats s' = seats s → acting_player_seat s' = acting_player_seat s → turns_left s' = turns_left s.
Proof.
  intros E1 E2. unfold turns_left, size. rewrite E2, E1.
  by rewrite <- !(length_fmap seat), E1.
Qed.

Lemma measure_nonneg rs g r d s : inv rs g r d s → 0 ≤ measure rs s.
Proof.
  intros Hinv. pose proof (turns_left_bounds s (inv_actor _ _ _ _ _ Hinv)) as Ht.
  pose proof (inv_stage _ _ _ _ _ Hinv) as Hst. pose proof (size_bound s).
  pose proof (count_bounds (λ p, negb (entropy_committed p)) (players s)).
  pose proof (count_bounds (λ p, negb (entropy_revealed p)) (players s)).
  unfold measure, stage_ok in *. cbv zeta.
  destruct (state_class s); try lia; try (destruct (concealed_deck s); lia);
    (assert (1 ≤ turns_left s) by (apply turns_left_acts; tauto)); lia.
Qed.

(** The measure of each class *)
Lemma measure_at rs s sc :
  state_class s = sc →
  measure rs s = match sc with
  | S0_TABLE_OPEN | S2_TABLE_LOCKED | S7_CARD_REVEAL_SECOND => 0
  | S1_SEAT_OPEN =>
    let m := Z.max (size s) (player_count_max rs) in 8 * m + 6 + (m - size s)
  | S3_ENTROPY_COMMIT_WINDOW =>
    7 * size s + 5 + count (λ p, negb (entropy_committed p)) (players s)
  | S4_ENTROPY_REVEAL_WINDOW =>
    6 * size s + 3 + count (λ p, negb (entropy_revealed p)) (players s)
  | S5_DECK_COMMITTED => 6 * size s + 1 + (match concealed_deck s with Some _ => 0 | None => 1 end)
  | S6_CARD_REVEAL_FIRST => 6 * turns_left s
  | S8_BET_DECISION => 6 * turns_left s - 1
  | S9_CARD_REVEAL_THIRD => 6 * turns_left s - 2
  | S10_SETTLED_ROUND => 6 * turns_left s - 3
  | S11_ROTATE_TURN => 6 * turns_left s - 4
  | S12_TABLE_CLOSE | RECOVERED => 0
  end.
Proof. by intros <-. Qed.

Lemma turn_step rs s s' sc sc' :
  state_class s = sc → state_class s' = sc' → turns_left s' ≤ turns_left s →
  match sc, sc' with
  | S6_CARD_REVEAL_FIRST, S8_BET_DECISION | S8_BET_DECISION, S9_CARD_REVEAL_THIRD
  | S8_BET_DECISION, S11_ROTATE_TURN | S9_CARD_REVEAL_THIRD, S10_SETTLED_ROUND
  | S10_SETTLED_ROUND, S11_ROTATE_TURN => True
  | _, _ => False
  end → measure rs s' + 1 ≤ measure rs s.
Proof.
  intros E E' Ht Hm. rewrite (measure_at rs s sc E), (measure_at rs s' sc' E').
  destruct sc, sc'; done || lia.
Qed.

Lemma at_seat_size x p q s s' :
  at_seat x p q (players s) (players s') → size s' = size s.
Proof. intros H. unfold size. f_equal. by eapply at_seat_length. Qed.

(** A window shrinks by the player who acts; when it closes, the next is paid for. *)
Lemma measure_window s s' x p q (f : PlayerState → bool) :
  at_seat x p q (players s) (players s') → f p = false → f q = true →
  0 ≤ count (λ p, negb (f p)) (players s') ≤ size s
  ∧ count (λ p, negb (f p)) (players s') + 1 = count (λ p, negb (f p)) (players s)
  ∧ size s' = size s
  ∧ ∀ h, 0 ≤ count (λ p, negb (h p)) (players s') ≤ size s.
Proof.
  intros H Hp Hq. pose proof (at_seat_size _ _ _ _ _ H) as Hs.
  assert (Hb : ∀ h, 0 ≤ count (λ p, negb (h p)) (players s') ≤ size s).
  { intros h. rewrite <- Hs. apply (count_bounds (λ p, negb (h p)) (players s')). }
  split_and!; [apply Hb..|by eapply at_seat_count|done|done].
Qed.

Lemma measure_opening rs g r d s act a height s' :
  inv rs g r d s → inv rs g r d s' → transition rs height s act a s' → opening a = true →
  measure rs s' + 1 ≤ measure rs s.
Proof.
  intros Hinv Hinv' H Hp. pose proof (size_bound s) as Hsz.
  pose proof (count_bounds (λ p, negb (entropy_committed p)) (players s)) as Hb.
  fold (size s) in Hb. destruct H; try discriminate; rewrite (measure_at rs s _ H).
  - (* join *)
    rewrite (measure_at rs _ S1_SEAT_OPEN) by exact H.
    assert (size (chained s |> set_players (players s ++ [new_player seat' pk (stake_amount rs)]))
      = size s + 1) as ->.
    { unfold size. cbn. rewrite length_app. cbn. lia. }
    fold (size s) in H0. cbv zeta. lia.
  - (* lock *)
    rewrite (measure_at rs _ S3_ENTROPY_COMMIT_WINDOW) by done.
    change (size (enter _ s)) with (size s). change (players (enter _ s)) with (players s).
    cbv zeta. lia.
  - (* commit *)
    set (s' := set_players ps' _) in *.
    destruct (measure_window s s' _ _ _ entropy_committed H1 H2 eq_refl) as (Hc & Hc1 & Hl & Hh).
    specialize (Hh entropy_revealed). destruct (forallb entropy_committed ps').
    + rewrite (measure_at rs s' S4_ENTROPY_REVEAL_WINDOW) by done. lia.
    + rewrite (measure_at rs s' S3_ENTROPY_COMMIT_WINDOW) by done. lia.
  - (* reveal *)
    set (s' := set_players ps' _) in *.
    destruct (measure_window s s' _ _ _ entropy_revealed H1 H3 eq_refl) as (Hc & Hc1 & Hl & _).
    destruct (forallb entropy_revealed ps').
    + rewrite (measure_at rs s' S5_DECK_COMMITTED) by done. destruct (concealed_deck s'); lia.
    + rewrite (measure_at rs s' S4_ENTROPY_REVEAL_WINDOW) by done. lia.
Qed.

Lemma measure_card_reveal rs g r d s act a height s' :
  inv rs g r d s → inv rs g r d s' → transition rs height s act a s' → reveals_card a = true →
  measure rs s' + 1 ≤ measure rs s.
Proof.
  intros Hinv Hinv' H Hp. pose proof (inv_stage _ _ _ _ _ Hinv) as Hst.
  pose proof (turns_left_bounds s (inv_actor _ _ _ _ _ Hinv)) as Ht.
  pose proof (turns_left_bounds s' (inv_actor _ _ _ _ _ Hinv')) as Ht'.
  pose proof (size_bound s) as Hsz.
  destruct H; try discriminate.
  set (s' := set_acting_player_seat _ _) in *. unfold stage_ok in Hst.
  assert (Hsize : size s' = size s) by done.
  destruct (state_class s) eqn:Hc; cbn [reveal_target] in H; simplify_eq.
  + rewrite (measure_at rs s _ Hc), (measure_at rs s' S6_CARD_REVEAL_FIRST) by done.
    destruct (concealed_deck s); lia.
  + eapply turn_step; [exact Hc|done| |done].
    destruct (acting_player_seat s) eqn:Ha.
    * rewrite (turns_left_ext s s'); [lia|done|].
      change (actor_after_reveal s = acting_player_seat s).
      unfold actor_after_reveal. by rewrite Hc, Ha.
    * unfold turns_left at 2. rewrite Ha. lia.
  + eapply turn_step; [exact Hc|done| |done].
    rewrite (turns_left_ext s s'); [lia|done|].
    change (actor_after_reveal s = acting_player_seat s).
    unfold actor_after_reveal. by rewrite Hc.
Qed.

Lemma measure_play rs g r d s act a height s' :
  inv rs g r d s → inv rs g r d s' → transition rs height s act a s' → progressing a = true →
  opening a = false → reveals_card a = false →
  measure rs s' + 1 ≤ measure rs s.
Proof.
  intros Hinv Hinv' H Hp Ho Hc. pose proof (inv_stage _ _ _ _ _ Hinv) as Hst.
  pose proof (turns_left_bounds s (inv_actor _ _ _ _ _ Hinv)) as Ht.
  pose proof (turns_left_bounds s' (inv_actor _ _ _ _ _ Hinv')) as Ht'.
  destruct H; try discriminate.
  - (* deal *)
    rewrite (measure_at rs s _ H). rewrite (measure_at rs _ S5_DECK_COMMITTED) by exact H.
    rewrite H0. change (concealed_deck _) with (Some cards) at 1. cbv iota.
    change (size (set_concealed_deck _ _)) with (size s). lia.
  - (* bet *) by apply (turn_step rs s _ S8_BET_DECISION S9_CARD_REVEAL_THIRD).
  - (* pass *) by apply (turn_step rs s _ S8_BET_DECISION S11_ROTATE_TURN).
  - (* fold *)
    destruct H as [H|H]; [|unfold stage_ok in Hst; by rewrite H in Hst].
    apply (turn_step rs s _ S8_BET_DECISION S11_ROTATE_TURN); [done|done| |done].
    rewrite (turns_left_ext s); [lia| |done]. by eapply (at_seat_fmap seat).
  - (* settle *)
    apply (turn_step rs s _ S10_SETTLED_ROUND S11_ROTATE_TURN); [done|done| |done].
    rewrite (turns_left_ext s); [lia| |done]. by eapply (settled_fmap seat).
  - (* rotate *)
    rewrite (measure_at rs s _ H), (measure_at rs _ S6_CARD_REVEAL_FIRST) by done.
    unfold stage_ok in Hst. rewrite H in Hst. destruct Hst as (_ & x & x0 & Hx & _).
    unfold turns_left. rewrite Hx in *. inversion H0 as [|? ? Hin (_ & Hlt & _)|]; subst.
    pose proof (seats_from_next _ _ _ Hin Hlt) as Hn.
    match goal with |- context [acting_player_seat ?s'] =>
      change (acting_player_seat s') with (Some n); change (seats s') with (seats s) end.
    cbv iota. lia.
  - (* close *)
    rewrite (measure_at rs s _ H), (measure_at rs _ S12_TABLE_CLOSE) by done.
    unfold stage_ok in Hst. rewrite H in Hst.
    pose proof (turns_left_acts s (proj2 Hst)). lia.
  - (* timeout *)
    destruct (inv_deadlines _ _ _ _ _ Hinv) as [Hd _]. congruence.
Qed.

Lemma measure_step rs g r d s act a height s' :
  inv rs g r d s → inv rs g r d s' → transition rs height s act a s' → progressing a = true →
  measure rs s' + 1 ≤ measure rs s.
Proof.
  intros Hinv Hinv' H Hp. destruct (opening a) eqn:Ho; [by eapply measure_opening|].
  destruct (reveals_card a) eqn:Hc; [by eapply measure_card_reveal|by eapply measure_play].
Qed.

Lemma measure_other rs s act a height s' :
  transition rs height s act a s' → progressing a = false → measure rs s' ≤ Z.max 0 (measure rs s).
Proof.
  intros H Hp. destruct H; try done.
  - rewrite (measure_at rs s _ H). rewrite (measure_at rs _ S12_TABLE_CLOSE) by exact H. done.
  - rewrite (measure_at rs (enter RECOVERED s) RECOVERED) by done. lia.
Qed.

(** ** The end of a session *)

(** The table is closed or recovered. *)
Definition over (s : RoundState) : bool :=
  match state_class s with S12_TABLE_CLOSE | RECOVERED => true | _ => false end.

(** What [TableClose] makes of a state *)
Definition shut (s : RoundState) : RoundState := chained s |> set_allowed_actions [].

(** [continues rs s acts s']: from [s] the actions [acts] are accepted, in order, at
    whatever heights, and lead to [s']. *)
Inductive continues (rs : RuleSet) : RoundState → list SignedAction → RoundState → Prop :=
  | continues_nil s : continues rs s [] s
  | continues_cons s a h s1 acts s' :
      applyAction s a rs h = Ret (Ok s1) → continues rs s1 acts s' →
      continues rs s (a :: acts) s'.

Lemma transition_over rs height s act a s' :
  transition rs height s act a s' → progressing a = false → over s' = true.
Proof. intros H Hp. unfold over. destruct H; try done. cbn. by rewrite H. Qed.

Lemma over_step rs height s act a s' :
  transition rs height s act a s' → over s = true →
  progressing a = false
  ∧ (state_class s = S12_TABLE_CLOSE ∧ s' = shut s ∨ s' = enter RECOVERED s).
Proof.
  unfold over. intros H Ho.
  destruct H; try (destruct H as [H|H]); try (by rewrite H in Ho); auto.
  by destruct (state_class s).
Qed.

(** ** Rounds are bounded by the number of seats *)

Section rounds.
Context (rs : RuleSet) (g : GameId) (r : RuleSetHash) (d : BlockHeight).
Context (rs_stake : is_sats (stake_amount rs)).

Definition rounds_ok (s : RoundState) : Prop :=
  is_Some (acting_player_seat s) → round_number s + turns_left s ≤ size s.

Lemma rounds_ext s s' :
  seats s' = seats s → acting_player_seat s' = acting_player_seat s →
  round_number s' = round_number s → rounds_ok s → rounds_ok s'.
Proof.
  intros E1 E2 E3 H. unfold rounds_ok. rewrite E2, E3, (turns_left_ext s s') by done.
  assert (size s' = size s) as ->; [|done].
  unfold size. rewrite <- !(length_fmap seat). by rewrite E1.
Qed.

Lemma rounds_step s act a height s' :
  inv rs g r d s → inv rs g r d s' → transition rs height s act a s' →
  rounds_ok s → rounds_ok s'.
Proof.
  intros Hinv Hinv' H Hok. pose proof (inv_stage _ _ _ _ _ Hinv) as Hst.
  pose proof (turns_left_bounds s' (inv_actor _ _ _ _ _ Hinv')) as Ht'. unfold stage_ok in Hst.
  destruct H; try (by apply (rounds_ext s));
    try (apply (rounds_ext s); [by eapply (at_seat_fmap seat)|done..]).
  - rewrite H in Hst. intros [x Hx]. change (acting_player_seat s = Some x) in Hx.
    destruct Hst as (_&_&?&_). congruence.
  - destruct (acting_player_seat s) eqn:Ha.
    + apply (rounds_ext s); [done| |done|done].
      change (actor_after_reveal s = acting_player_seat s). unfold actor_after_reveal.
      rewrite Ha. by destruct (state_class s).
    + intros _. assert (Hr : round_number s = 0).
      { destruct (state_class s); try done; try tauto.
        - destruct Hst as (_ & _ & Hst). destruct (Z.eqb_spec (round_number s) 0); [done|].
          destruct Hst as (x & x0 & Hx & _). congruence.
        - destruct Hst as (_ & _ & x & x0 & Hx & _). congruence. }
      match goal with |- round_number ?s' + _ ≤ _ =>
        change (round_number s') with (round_number s) end. lia.
  - apply (rounds_ext s); [by eapply (settled_fmap seat)|done..].
  - rewrite H in Hst. destruct Hst as (_ & x & x0 & Hx & Hin & _).
    unfold rounds_ok, turns_left in *. rewrite Hx in *. specialize (Hok ltac:(done)).
    inversion H0 as [|? ? _ (_ & Hlt & _)|]; subst.
    pose proof (seats_from_next _ _ _ Hin Hlt). intros _.
    match goal with |- context [acting_player_seat ?s'] =>
      change (acting_player_seat s') with (Some n); change (seats s') with (seats s);
      change (round_number s') with (round_number s + 1); change (size s') with (size s) end.
    cbv iota. lia.
Qed.

Lemma trace_rounds acts s : trace rs g r d acts s → rounds_ok s.
Proof using rs_stake.
  induction 1 as [|acts s a h s' Htr IH Hs|]; [by intros [? ?]| |done].
  pose proof (trace_inv rs g r d rs_stake _ _ Htr) as Hinv.
  apply applyAction_transition in Hs as [_ Hs]; [|apply Hinv].
  eapply rounds_step; [exact Hinv| |exact Hs|exact IH].
  by eapply inv_step.
Qed.

(** What a session has accepted and what it may still accept *)
Lemma trace_bound acts s :
  trace rs g r d acts s →
  count (λ a, progressing (payload a)) acts + measure rs s
  ≤ 9 * Z.max 0 (player_count_max rs) + 6.
Proof using rs_stake.
  induction 1 as [|acts s a h s' Htr IH Hs|].
  - unfold measure, size, count. cbn. lia.
  - pose proof (trace_inv rs g r d rs_stake _ _ Htr) as Hinv.
    apply applyAction_transition in Hs as [_ Hs]; [|apply Hinv].
    pose proof (inv_step rs g r d rs_stake _ _ _ _ _ Hinv Hs) as Hinv'.
    rewrite count_app, count_cons. change (count _ []) with 0.
    pose proof (measure_nonneg _ _ _ _ _ Hinv).
    destruct (progressing (payload a)) eqn:Hp.
    + pose proof (measure_step _ _ _ _ _ _ _ _ _ Hinv Hinv' Hs Hp). lia.
    + pose proof (measure_other _ _ _ _ _ _ Hs Hp). lia.
  - done.
Qed.

(** Play comes first. *)
Lemma trace_split acts s :
  trace rs g r d acts s →
  ∃ played ending, acts = played ++ ending
    ∧ Forall (λ a, progressing (payload a) = true) played
    ∧ Forall (λ a, progressing (payload a) = false) ending
    ∧ (ending ≠ [] → over s = true).
Proof using rs_stake.
  induction 1 as [|acts s a h s' Htr IH Hs|acts s ce dch x Htr IH]; [by exists [], []| |exact IH].
  destruct IH as (played & ending & -> & Hp & He & Ho).
  apply applyAction_transition in Hs as [_ Hs];
    [|apply (trace_inv rs g r d rs_stake _ _ Htr)].
  destruct (progressing (payload a)) eqn:Ha.
  - assert (ending = []) as ->.
    { destruct ending; [done|]. apply over_step in Hs as [E _]; [congruence|by apply Ho]. }
    exists (played ++ [a]), []. rewrite !app_nil_r. split_and!; [done| |done..].
    apply Forall_app_2; [done|by constructor].
  - exists played, (ending ++ [a]). rewrite app_assoc. split_and!; [done|done| |].
    + apply Forall_app_2; [done|by constructor].
    + intros _. by eapply transition_over.
Qed.

(** What is accepted once the session is over, however long *)
Lemma over_continues s acts s' :
  inv rs g r d s → over s = true → continues rs s acts s' → acts ≠ [] →
  Forall (λ a, progressing (payload a) = false) acts ∧ (s' = shut s ∨ s' = enter RECOVERED s).
Proof using rs_stake.
  intros Hinv Ho H. induction H as [|s a h s1 acts s' Hs H IH]; [done|]. intros _.
  apply applyAction_transition in Hs as [_ Hs]; [|apply Hinv].
  pose proof (inv_step rs g r d rs_stake _ _ _ _ _ Hinv Hs) as Hinv1.
  destruct (over_step _ _ _ _ _ _ Hs Ho) as [Hp Hn].
  specialize (IH Hinv1 (transition_over _ _ _ _ _ _ Hs Hp)).
  destruct acts as [|b acts].
  - inversion H; subst. split; [by constructor|]. tauto.
  - destruct (IH ltac:(done)) as [Hf He]. split; [by constructor|].
    destruct Hn as [[_ ->] | ->], He as [-> | ->]; auto.
Qed.

Lemma sorted_length (l : list Z) a n :
  StronglySorted Z.lt l → Forall (λ x, a ≤ x < n) l → a ≤ n → Z.of_nat (length l) ≤ n - a.
Proof.
  intros Hs. revert a. induction Hs as [|x l Hs IH Hx]; intros a Hr Ha; cbn [length]; [lia|].
  apply list.Forall_cons in Hr as [Hxa Hr].
  specialize (IH (x + 1)). rewrite Nat2Z.inj_succ.
  assert (Z.of_nat (length l) ≤ n - (x + 1)); [|lia]. apply IH; [|lia].
  rewrite list.Forall_forall in *. intros y Hy. specialize (Hx y Hy). specialize (Hr y Hy). lia.
Qed.

Lemma size_max s : inv rs g r d s → size s ≤ MAX_SAFE_INTEGER + 1.
Proof.
  intros Hinv. unfold size. rewrite <- (length_fmap seat).
  rewrite <- (merge_sort_Permutation Z.le (seats s)).
  transitivity (MAX_SAFE_INTEGER + 1 - 0); [|lia].
  apply sorted_length; [apply seats_sorted, Hinv| |done].
  rewrite merge_sort_Permutation. eapply list.Forall_impl; [apply Hinv|]. cbn. lia.
Qed.

(** The round counter never overflows: the turn can always pass. *)
Lemma round_room s n :
  session rs g r d s → turn_passes (seats s) (acting_player_seat s) (Some n) →
  is_Some (acting_player_seat s) → is_sats (round_number s + 1).
Proof using rs_stake.
  intros [acts Htr] Hn Ha. pose proof (trace_inv rs g r d rs_stake _ _ Htr) as Hinv.
  pose proof (trace_rounds _ _ Htr Ha) as Hr. pose proof (size_max s Hinv) as Hm.
  destruct (inv_round _ _ _ _ _ Hinv) as [H0 _].
  unfold turns_left in Hr. destruct (acting_player_seat s) as [x|]; [|by destruct Ha].
  inversion Hn as [|? ? Hin (Hn' & Hlt & _)|]; subst.
  pose proof (seats_from_next _ _ _ Hin Hlt). pose proof (seats_from_pos _ _ Hn').
  split; lia.
Qed.
End rounds.
