(* ===== verification/EngineProps.v ===== *)
(** * state-engine: the properties of sessions

    The theorems about [applyAction] and [computeSettlement] on the states of a
    session: the invariant, conservation of value, termination, exactly which actions
    throw, deadlines and recovery, what later rounds cannot do, settlement, and what a
    fold reveals. *)

From S2P Require Import Prelude Bytes Primitives Types Engine EngineSpec EngineSafety EngineMeasure.

(** ** Exceptions of the handlers *)

Definition throws {A} (m : js A) : Prop := ∃ msg, m = Throw msg.

Lemma reject_no_throw {T} c ctx : ¬ throws (@reject T c ctx).
Proof. by intros [? ?]. Qed.

Lemma accept_no_throw {T} (v : T) : ¬ throws (accept v).
Proof. by intros [? ?]. Qed.

Lemma guard_throws {T} (c : bool) code ctx (m : js (Result T)) :
  throws (if c then reject code ctx else m) ↔ c = false ∧ throws m.
Proof. destruct c; unfold throws, reject; naive_solver. Qed.

Lemma bind_throws {A B} (m : js A) (f : A → js B) :
  throws (m ≫= f) ↔ throws m ∨ ∃ a, m = Ret a ∧ throws (f a).
Proof. unfold throws. destruct m; cbn; naive_solver. Qed.

Lemma ret_bind {A B} (a : A) (f : A → js B) : Ret a ≫= f = f a.
Proof. done. Qed.

Lemma sats_dec n : is_sats n ∨ ¬ is_sats n.
Proof. unfold is_sats. lia. Qed.

Lemma asSatoshis_throws n : throws (asSatoshis n) ↔ ¬ is_sats n.
Proof.
  unfold throws. destruct (sats_dec n) as [H|H].
  - rewrite (proj2 (asSatoshis_Ret n n) (conj eq_refl H)). naive_solver.
  - split; [done|]. intros _. unfold asSatoshis. destruct (_ || _) eqn:E; [by eexists|].
    destruct H. apply orb_false_iff in E as [Hs%negb_false_iff Hn].
    apply is_safe_integer_spec in Hs. unfold is_sats, MAX_SAFE_INTEGER. lia.
Qed.

Lemma asSeat_throws n : throws (asSeat n) ↔ ¬ is_sats n.
Proof.
  rewrite <- asSatoshis_throws. unfold throws, asSeat, asSatoshis. destruct (_ || _); naive_solver.
Qed.

Lemma addToPot_throws pot bet : throws (addToPot pot bet) ↔ ¬ is_sats (pot + bet).
Proof.
  unfold addToPot, js_add. cbv zeta. rewrite is_safe_round.
  destruct (is_safe_integer (pot + bet)) eqn:Hs; cbn [negb].
  - by rewrite js_round_safe, asSatoshis_throws by done.
  - split; [|by eexists]. intros _ [H0 H1]. apply not_true_iff_false in Hs. apply Hs.
    apply is_safe_integer_spec. unfold MAX_SAFE_INTEGER in *. lia.
Qed.

Lemma unsafe_sum a b :
  negb (is_safe_integer (js_add a b)) || (js_add a b <? 0) = false ↔ is_sats (a + b).
Proof.
  unfold js_add. rewrite is_safe_round. destruct (is_safe_integer (a + b)) eqn:Hs; cbn.
  - rewrite js_round_safe, Z.ltb_ge by done. apply is_safe_integer_spec in Hs.
    unfold is_sats, MAX_SAFE_INTEGER. lia.
  - split; [done|]. intros [H0 H1]. apply not_true_iff_false in Hs. destruct Hs.
    apply is_safe_integer_spec. unfold MAX_SAFE_INTEGER in *. lia.
Qed.

Lemma js_add_sats a b : is_sats (a + b) → js_add a b = a + b.
Proof. intros [H0 H1]. apply js_round_exact. unfold MAX_SAFE_INTEGER in *. lia. Qed.

Lemma settle_players_throws acting delta ps :
  throws (settle_players acting delta ps) ↔
  ∃ p, p ∈ ps ∧ seat p = acting ∧ ¬ is_sats (stake_at_risk p + delta).
Proof.
  induction ps as [|p ps IH]; cbn [settle_players].
  { split; [by intros [? ?]|]. intros (q & Hq & _). by apply not_elem_of_nil in Hq. }
  rewrite bind_throws. setoid_rewrite elem_of_cons.
  destruct (Z.eqb_spec (seat p) acting) as [Hs|Hs]; cbn [negb].
  - cbv zeta. pose proof (unsafe_sum (stake_at_risk p) delta) as Hu.
    destruct (_ || _).
    + split; [|by left; eexists]. intros _. exists p. split_and!; [by left|done|].
      intros Hsat. by apply Hu in Hsat.
    + pose proof (proj1 Hu eq_refl) as Hok. rewrite js_add_sats by done.
      rewrite (proj2 (asSatoshis_Ret _ _) (conj eq_refl Hok)), ret_bind. split.
      * intros [[? ?]|(a & [= <-] & [H|(?&_&[? ?])]%bind_throws)]; try done.
        apply IH in H. naive_solver.
      * intros (q&[->|Hq]&?&?); [done|]. right. eexists. split; [done|].
        apply bind_throws. left. apply IH. naive_solver.
  - split.
    + intros [[? ?]|(a & [= <-] & [H|(?&_&[? ?])]%bind_throws)]; try done.
      apply IH in H. naive_solver.
    + intros (q&[->|Hq]&?&?); [done|]. right. eexists. split; [done|].
      apply bind_throws. left. apply IH. naive_solver.
Qed.

(** The three ways out of [applyAction] by exception: a seat number that is not a safe
    integer, a bet that overflows the pot, a settlement that leaves the acting player
    with a negative or unsafe balance. *)
Inductive throwing (rs : RuleSet) (s : RoundState) (act : SignedActionBase)
    : ActionPayload → Prop :=
  | throwing_join pk :
      state_class s = S1_SEAT_OPEN → Z.of_nat (length (players s)) < player_count_max rs →
      ¬ is_sats (default (Z.of_nat (length (players s))) (act_acting_player_seat act)) →
      throwing rs s act (JoinAction pk (stake_amount rs))
  | throwing_bet bet :
      state_class s = S8_BET_DECISION → min_bet rs ≤ bet ≤ max_bet rs →
      ¬ is_sats (pot_value s + bet) → throwing rs s act (BetAction_ bet)
  | throwing_settle x a b c o pd qd p :
      state_class s = S10_SETTLED_ROUND → acting_player_seat s = Some x →
      visible_cards s = [a; b; c] → round_outcome a b c o →
      computeValueTransfer o (pot_value s) (settlement_rules rs) = (pd, qd) →
      is_sats (pot_value s + qd) → p ∈ players s → seat p = x →
      ¬ is_sats (stake_at_risk p + pd) → throwing rs s act SettleAction.

Ltac no_throw := intros H; exfalso; revert H; unfold throws, reject, accept;
  repeat case_match; intros [? ?]; done.

Lemma applyJoin_throws s act pk stake rs :
  throws (applyJoin s act pk stake rs) ↔ throwing rs s act (JoinAction pk stake).
Proof.
  unfold applyJoin. rewrite !guard_throws, negb_class, negb_false_iff, Z.eqb_eq, Z.leb_gt.
  rewrite bind_throws, asSeat_throws. split.
  - intros (Hc & -> & Hn & [Hs|(x & _ & Hx)]); [by constructor|].
    apply guard_throws in Hx as [_ Hx]. by apply accept_no_throw in Hx.
  - intros H. inv_transition H. split_and!; try done. by left.
Qed.

Lemma applyBet_throws s act bet rs :
  throws (applyBet s bet rs) ↔ throwing rs s act (BetAction_ bet).
Proof.
  unfold applyBet. rewrite !guard_throws, negb_class, orb_false_iff, !Z.ltb_ge.
  rewrite bind_throws, addToPot_throws. split.
  - intros (Hc & Hb & [Hs|(x & _ & Hx)]); [by constructor|]. by apply accept_no_throw in Hx.
  - intros H. inv_transition H. split_and!; try done; try lia. by left.
Qed.

Lemma applySettle_throws s act rs :
  throws (applySettle s rs) ↔ throwing rs s act SettleAction.
Proof.
  unfold applySettle. rewrite !guard_throws, negb_class, negb_false_iff, Nat.eqb_eq.
  destruct (acting_player_seat s) as [x|] eqn:Ex.
  2:{ split; [intros (_&_&H); by apply reject_no_throw in H|].
      intros H. inv_transition H. congruence. }
  split.
  - intros (Hc & Hlen & H).
    destruct (visible_cards s) as [|a [|b [|c [|]]]] eqn:Hv; try done.
    destruct (classify_outcome a b c) as (o & chk & E & Ho). rewrite E, ret_bind in H.
    destruct (computeValueTransfer o (pot_value s) (settlement_rules rs)) as [pd qd] eqn:Ev.
    apply guard_throws in H as [Hpot%unsafe_sum H].
    apply bind_throws in H as [H|(ps' & _ & H)].
    + apply settle_players_throws in H as (p & Hp & Hs & Hn). by eapply throwing_settle.
    + apply bind_throws in H as [H|(? & _ & H)]; [|by apply accept_no_throw in H].
      apply asSatoshis_throws in H. by rewrite js_add_sats in H.
  - intros H. inversion H as [| |x' a b c o pd qd p Hc Hx Hv Ho Ht Hq Hp Hsp Hn].
    assert (x' = x) as -> by congruence. split; [done|]. rewrite Hv. split; [done|].
    destruct (classify_outcome a b c) as (o' & chk & -> & Ho').
    rewrite ret_bind, (round_outcome_unique _ _ _ _ _ Ho' Ho), Ht.
    apply guard_throws. split; [by apply unsafe_sum|].
    apply bind_throws. left. apply settle_players_throws. eauto.
Qed.

Lemma applyRotateTurn_no_throw rs g r d s :
  is_sats (stake_amount rs) → session rs g r d s → ¬ throws (applyRotateTurn s).
Proof.
  intros Hrs Hses. pose proof (session_inv rs g r d Hrs s Hses) as Hinv.
  unfold applyRotateTurn. cbv zeta. rewrite !guard_throws, negb_class, Nat.eqb_neq.
  rewrite (Permutation_length (merge_sort_Permutation Z.le (seats s))).
  intros (Hc & Hne & H).
  destruct (rotate_spec (acting_player_seat s) (seats s)) as (n & f & Hn & Hf & Ht).
  { apply Hinv. }
  { intros E. by rewrite E in Hne. }
  rewrite Hn, Hf, !ret_bind in H. destruct (_ && _); [by apply accept_no_throw in H|].
  apply bind_throws in H as [H|(? & _ & H)]; [|by apply accept_no_throw in H].
  assert (is_Some (acting_player_seat s)) as Hsome.
  { pose proof (inv_stage _ _ _ _ _ Hinv) as Hst. unfold stage_ok in Hst. rewrite Hc in Hst.
    destruct Hst as (_ & x & x0 & -> & _). done. }
  pose proof (round_room rs g r d Hrs s n Hses Ht Hsome) as Hr.
  rewrite js_add_sats in H by done. destruct H as [msg H].
  by rewrite (proj2 (asRoundNumber_Ret _ _) (conj eq_refl Hr)) in H.
Qed.

Lemma throwing_legal rs s a :
  throwing rs s (act_base a) (payload a) →
  includes (getLegalActions (state_class s)) (action_type a) = true.
Proof.
  unfold action_type. intros H. destruct H;
    match goal with H : state_class s = _ |- _ => by rewrite H end.
Qed.

Section properties.
Context (rs : RuleSet) (g : GameId) (r : RuleSetHash) (d : BlockHeight).
Context (rs_stake : is_sats (stake_amount rs)).

(** C3: the states of a session are well formed.  Seats are distinct safe integers, money
    stays within the safe range, the legal actions are those of the state class, the
    acting player is seated and was not seated before the first to join, entropy flags
    agree with values, a dealt deck has each position once, and every state class has
    its number of visible cards. *)
Theorem session_well_formed s : session rs g r d s → inv rs g r d s.
Proof using rs_stake. apply session_inv, rs_stake. Qed.

(** C2: value is conserved.  At every point of a session the pot and the stakes together
    are exactly what joins and bets brought in: no other action creates or destroys
    value.  (A bet adds to the pot without being taken from the bettor's stake.) *)
Theorem value_conserved acts s :
  trace rs g r d acts s → total s = sum (deposit <$> acts).
Proof using rs_stake. by apply (trace_total rs g r d). Qed.

(** C4: play ends.  The actions a session has accepted are at most
    [9 * player_count_max + 6] actions of play (fewer by what is left of [measure]), and behind
    them nothing but [TableClose] and [Recovery].  Those have no bound of their own; but once
    one is accepted the table is closed or recovered, and then no other action is ever accepted
    again, and the acceptances lead to one of two states, however many they are. *)
Theorem session_bounded acts s :
  trace rs g r d acts s →
  ∃ played ending, acts = played ++ ending
    ∧ Forall (λ a, progressing (payload a) = true) played
    ∧ Forall (λ a, progressing (payload a) = false) ending
    ∧ Z.of_nat (length played) + measure rs s ≤ 9 * Z.max 0 (player_count_max rs) + 6
    ∧ 0 ≤ measure rs s
    ∧ (ending ≠ [] → over s = true)
    ∧ (over s = true → ∀ more s', continues rs s more s' → more ≠ [] →
        Forall (λ a, progressing (payload a) = false) more
        ∧ (s' = shut s ∨ s' = enter RECOVERED s)).
Proof using rs_stake.
  intros H. pose proof (trace_inv rs g r d rs_stake _ _ H) as Hinv.
  pose proof (trace_bound rs g r d rs_stake _ _ H) as Hb.
  destruct (trace_split rs g r d rs_stake _ _ H) as (played & ending & -> & Hp & He & Ho).
  rewrite count_app, (count_all _ _ Hp) in Hb.
  pose proof (count_bounds (λ a, progressing (payload a)) ending).
  exists played, ending. split_and!; [done..|lia|by eapply measure_nonneg|done|].
  intros Hov more s'. by apply (over_continues rs g r d rs_stake).
Qed.

(** C6: exceptions are characterised.  On the states of a session [applyAction] throws
    instead of returning a [Result] exactly for the joins, bets and settlements of
    [throwing]; every other action returns. *)
Theorem applyAction_throws_iff s a height :
  session rs g r d s →
  (∃ msg, applyAction s a rs height = Throw msg) ↔
  act_game_id (act_base a) = game_id s ∧ throwing rs s (act_base a) (payload a).
Proof using rs_stake.
  intros Hs. fold (throws (applyAction s a rs height)). unfold applyAction. cbv zeta.
  rewrite !guard_throws, negb_false_iff, bool_decide_eq_true.
  set (m := match payload a with JoinAction _ _ => _ | _ => _ end).
  assert (Hm : throws m ↔ throwing rs s (act_base a) (payload a)).
  { subst m. destruct (payload a).
    - apply applyJoin_throws.
    - split; [unfold applyEntropyCommit; no_throw|intros H; inversion H].
    - split; [unfold applyEntropyReveal; no_throw|intros H; inversion H].
    - split; [unfold applyCardReveal; no_throw|intros H; inversion H].
    - split; [unfold applyDealConcealed; no_throw|intros H; inversion H].
    - apply applyBet_throws.
    - split; [unfold applyPass; no_throw|intros H; inversion H].
    - split; [|intros H; inversion H]. unfold applyFold. rewrite guard_throws. intros [_ H].
      destruct (act_acting_player_seat _) as [x|]; [|by apply reject_no_throw in H].
      destruct (concealed_deck s) as [deck|]; [|by apply reject_no_throw in H].
      apply guard_throws in H as [Hi H].
      destruct (seat_scan x (players s)) as [(p & _ & E & _)|[_ E]]; [|congruence].
      rewrite E in H. destruct (fold_loop _ _). apply guard_throws in H as [_ H].
      by apply accept_no_throw in H.
    - apply applySettle_throws.
    - split; [|intros H; inversion H]. intros H. by apply (applyRotateTurn_no_throw rs g r d) in H.
    - split; [unfold applyTableLock; no_throw|intros H; inversion H].
    - split; [unfold applyTableClose; no_throw|intros H; inversion H].
    - split; [unfold applyTimeout; no_throw|intros H; inversion H].
    - split; [unfold applyRecovery; no_throw|intros H; inversion H]. }
  rewrite Hm. split; [by intros (?&_&?)|]. intros [Hg Ht]. split_and!; [done| |done].
  rewrite (throwing_legal rs s a Ht). by rewrite andb_false_r.
Qed.

(** C7: rounds after the first cannot be settled.  Rotation clears the cards and re-enters
    S6, where one more reveal already opens the bet; a later round so reaches S10 with
    two cards, every [Settle] is refused, and only recovery leaves the state. *)
Theorem later_rounds_stuck s a height :
  session rs g r d s → state_class s = S10_SETTLED_ROUND → 1 ≤ round_number s →
  length (visible_cards s) = 2%nat
  ∧ applySettle s rs
    = reject INVALID_STATE_TRANSITION "settle requires 3 visible cards, have 2"
  ∧ ∀ s', applyAction s a rs height = Ret (Ok s') → action_type a = Recovery.
Proof using rs_stake.
  intros Hs Hc Hr. pose proof (session_inv rs g r d rs_stake s Hs) as Hinv.
  pose proof (inv_stage _ _ _ _ _ Hinv) as Hst. unfold stage_ok in Hst. rewrite Hc in Hst.
  destruct Hst as (Hcards & _). unfold cards_shown in Hcards.
  rewrite (proj2 (Z.eqb_neq _ 0)) in Hcards by lia. split_and!; [done| |].
  - unfold applySettle. by rewrite Hc, Hcards.
  - intros s' H%(session_transition rs g r d rs_stake s); [|done]. unfold action_type.
    destruct H; try congruence; try done.
    + rewrite Hc in H. done.
    + destruct H; congruence.
    + match goal with H : visible_cards s = _ |- _ => rewrite H in Hcards end. done.
Qed.

(** Timeouts never fire.  The engine never sets a decision deadline, so in every
    session state [applyAction] answers every [Timeout] with an error. *)
Theorem timeout_never_accepted s a da x height :
  session rs g r d s → payload a = TimeoutAction da x →
  ∃ e, applyAction s a rs height = Ret (Err e).
Proof using rs_stake.
  intros Hs Hp. pose proof (session_inv rs g r d rs_stake s Hs) as Hinv.
  destruct (inv_deadlines _ _ _ _ _ Hinv) as [Hd _].
  unfold applyAction, applyTimeout. cbv zeta. rewrite Hp, Hd. unfold reject.
  repeat case_match; by eexists.
Qed.

(** C8: recovery is always available, and final.  From the recovery deadline on, in every
    session state, every [Recovery] for this game is accepted; it changes neither the
    pot nor the players and enters RECOVERED, from which no other action leads away.
    Before the deadline it is refused. *)
Theorem recovery_available_and_final s a tr height :
  session rs g r d s → payload a = RecoveryAction tr → act_game_id (act_base a) = g →
  (if d <=? height then
     ∃ s', applyAction s a rs height = Ret (Ok s') ∧ state_class s' = RECOVERED
       ∧ pot_value s' = pot_value s ∧ players s' = players s
       ∧ ∀ b h' s'', applyAction s' b rs h' = Ret (Ok s'') →
           action_type b = Recovery ∧ state_class s'' = RECOVERED
   else ∃ ctx, applyAction s a rs height = reject RECOVERY_NOT_MATURE ctx).
Proof using rs_stake.
  intros Hs Hp Hg. pose proof (session_inv rs g r d rs_stake s Hs) as Hinv.
  destruct (inv_deadlines _ _ _ _ _ Hinv) as [_ Hd].
  destruct (inv_identity _ _ _ _ _ Hinv) as [Hgs _].
  assert (E : applyAction s a rs height = applyRecovery s height).
  { unfold applyAction. cbv zeta. rewrite Hp. unfold action_type. rewrite Hp.
    rewrite (bool_decide_true (act_game_id _ = _)) by congruence. done. }
  rewrite E. unfold applyRecovery. rewrite Hd, Z.ltb_antisym.
  destruct (d <=? height) eqn:Hh; cbn [negb]; [|by eexists].
  eexists. split_and!; [done..|]. intros b h' s'' H.
  apply (applyAction_transition (enter RECOVERED s)) in H as [_ H]; [|apply Hinv].
  remember (enter RECOVERED s) as s1 eqn:E1.
  assert (Hc : state_class s1 = RECOVERED) by (by subst). clear E1.
  unfold action_type. destruct H; try congruence; try done.
  - by rewrite Hc in H.
  - destruct H; congruence.
Qed.

(** Turns only pass upwards.  The first to act is the first player to have joined, and
    nobody in a seat below that player's ever acts. *)
Theorem first_joiner_acts_first s p0 ps x :
  session rs g r d s → players s = p0 :: ps → acting_player_seat s = Some x →
  seat p0 ≤ x ∧ (round_number s = 0 → x = seat p0).
Proof using rs_stake.
  intros Hs Hp Hx. pose proof (session_inv rs g r d rs_stake s Hs) as Hinv.
  destruct (inv_actor _ _ _ _ _ Hinv) as [H|(y & x0 & Hy & _ & Hh & Hle & Hr)]; [congruence|].
  rewrite Hp in Hh. injection Hh as <-. rewrite Hx in Hy. by injection Hy as <-.
Qed.

(** Eligibility matches the engine.  In a session [canTimeout] is false and
    [canRecover] holds exactly at the heights where [Recovery] is accepted. *)
Theorem eligibility_agrees s a tr height :
  session rs g r d s → payload a = RecoveryAction tr → act_game_id (act_base a) = g →
  canTimeout (eligibility s height) = false
  ∧ canRecover (eligibility s height)
    = match applyAction s a rs height with Ret (Ok _) => true | _ => false end
  ∧ (canCooperate (eligibility s height) = true ↔ allowed_actions s ≠ []).
Proof using rs_stake.
  intros Hs Hp Hg. pose proof (session_inv rs g r d rs_stake s Hs) as Hinv.
  destruct (inv_deadlines _ _ _ _ _ Hinv) as [Hd1 Hd2].
  destruct (inv_identity _ _ _ _ _ Hinv) as [Hgs _].
  unfold eligibility. cbn [canTimeout canRecover canCooperate]. rewrite Hd1, Hd2.
  split_and!; [done| |].
  - unfold applyAction. cbv zeta. rewrite Hp. unfold action_type. rewrite Hp.
    rewrite (bool_decide_true (act_game_id _ = _)) by congruence. cbn.
    unfold applyRecovery. rewrite Hd2, Z.ltb_antisym. by destruct (d <=? height).
  - rewrite Z.ltb_lt. destruct (allowed_actions s); cbn [length]; split; try done; lia.
Qed.
End properties.

(** ** Settlement *)

Lemma clampSat_sats n :
  if negb (is_safe_integer n) || (n <? 0) then throws (clampSat n) else clampSat n = Ret n.
Proof.
  unfold clampSat. destruct (_ || _) eqn:E; [by eexists|].
  apply asSatoshis_Ret. apply orb_false_iff in E as [Hs%negb_false_iff Hn].
  apply is_safe_integer_spec in Hs. unfold MAX_SAFE_INTEGER. lia.
Qed.

(** The balances announced are those the settlement writes. *)
Lemma settlement_balances_players acting delta ps :
  match settle_players acting delta ps with
  | Ret ps' => settlement_balances acting delta ps = Ret (stake_at_risk <$> ps')
  | _ => throws (settlement_balances acting delta ps)
  end.
Proof.
  induction ps as [|p ps IH]; [done|]. cbn [settle_players settlement_balances].
  destruct (Z.eqb_spec (seat p) acting) as [Hs|Hs]; cbn [negb].
  - cbv zeta. pose proof (clampSat_sats (js_add (stake_at_risk p) delta)) as Hc.
    pose proof (unsafe_sum (stake_at_risk p) delta) as Hu. destruct (_ || _).
    { apply bind_throws. by left. }
    rewrite Hc, js_add_sats by (by apply Hu).
    rewrite (proj2 (asSatoshis_Ret _ _) (conj eq_refl (proj1 Hu eq_refl))), !ret_bind.
    destruct (settle_players acting delta ps); [|by apply bind_throws; left..].
    by rewrite IH.
  - rewrite !ret_bind. destruct (settle_players acting delta ps); [|by apply bind_throws; left..].
    by rewrite IH.
Qed.

(** C9: [computeSettlement] predicts [applySettle].  In a state whose pot and stakes are
    amounts of satoshis, with the acting player seated, [applySettle] succeeds exactly
    when [computeSettlement] does, with the announced pot and balances; where settlement
    is impossible one returns an error and the other throws. *)
Theorem computeSettlement_predicts s rs x :
  is_sats (pot_value s) → acting_player_seat s = Some x →
  state_class s = S10_SETTLED_ROUND → length (visible_cards s) = 3%nat →
  match applySettle s rs with
  | Ret (Ok s') => ∃ res, computeSettlement s rs = Ret (Ok res)
      ∧ pot_value s' = resulting_pot_value res
      ∧ stake_at_risk <$> players s' = resulting_balances res
      ∧ sr_acting_player_seat res = x ∧ sr_bet_amount res = pot_value s
  | _ => throws (computeSettlement s rs)
  end.
Proof.
  intros Hpot Hx Hc Hlen. unfold computeSettlement, applySettle. rewrite Hc, Hx, Hlen.
  destruct (visible_cards s) as [|a [|b [|c [|]]]] eqn:Hv; try done.
  destruct (classify_outcome a b c) as (o & chk & E & Ho). cbn [negb is_class Nat.eqb].
  change (negb (is_class S10_SETTLED_ROUND S10_SETTLED_ROUND)) with false. cbv iota zeta.
  rewrite E, !ret_bind.
  destruct (computeValueTransfer o (pot_value s) (settlement_rules rs)) as [pd qd] eqn:Ev.
  pose proof (transfer_balanced _ _ _ _ _ Ev) as Hbal.
  pose proof (settlement_balances_players x pd (players s)) as Hb.
  pose proof (clampSat_sats (js_add (pot_value s) qd)) as Hcl.
  pose proof (unsafe_sum (pot_value s) qd) as Hu. destruct (_ || _).
  { unfold reject. destruct (settle_players _ _ _) as [ps'| |].
    - rewrite Hb, ret_bind. apply bind_throws.
      destruct (sats_dec (Z.abs pd)) as [Hp|Hp]; [right|left; by apply asSatoshis_throws].
      exists (Z.abs pd). split; [by apply asSatoshis_Ret|]. apply bind_throws. by left.
    - apply bind_throws. by left.
    - apply bind_throws. by left. }
  pose proof (proj1 Hu eq_refl) as Hok. rewrite js_add_sats in Hcl by done.
  rewrite !js_add_sats by done.
  destruct (settle_players x pd (players s)) as [ps'| |];
    [|apply bind_throws; by left|apply bind_throws; by left].
  assert (is_sats (Z.abs pd)) as Hpd by (unfold is_sats in *; lia).
  rewrite Hb, !ret_bind, Hcl, (proj2 (asSatoshis_Ret _ _) (conj eq_refl Hok)),
    (proj2 (asSatoshis_Ret _ _) (conj eq_refl Hpd)), !ret_bind.
  unfold accept. eexists. by split_and!.
Qed.

(** In-Between is scored by its rules.  On three cards [classifyInBetweenRound] returns
    the outcome of [round_outcome], looks at the third card only when the posts leave room
    for it, and does not depend on the order of the posts; on any other number of cards
    it throws. *)
Theorem classify_spec cards :
  match cards with
  | [a; b; c] => ∃ o chk, classifyInBetweenRound [a; b; c] = Ret (o, chk)
      ∧ round_outcome a b c o ∧ (chk = true ↔ o = win ∨ o = loss)
      ∧ classifyInBetweenRound [b; a; c] = Ret (o, chk)
  | _ => throws (classifyInBetweenRound cards)
  end.
Proof.
  destruct cards as [|a [|b [|c [|]]]]; try by eexists.
  destruct (classify_outcome a b c) as (o & chk & E & Ho). exists o, chk.
  split_and!; [done|done| |].
  - revert E. unfold classifyInBetweenRound. cbn [length Nat.eqb negb lookup list_lookup].
    repeat case_match; intros [= <- <-]; naive_solver.
  - rewrite <- E. unfold classifyInBetweenRound.
    cbn [length Nat.eqb negb lookup list_lookup].
    rewrite (Z.eqb_sym (Z.rem (ordinal b) 13)), <- (Z.abs_opp (Z.rem (ordinal b) 13 - _)).
    rewrite Z.opp_sub_distr, Z.add_comm, Z.add_opp_r.
    by rewrite (Z.min_comm (Z.rem (ordinal b) 13)), (Z.max_comm (Z.rem (ordinal b) 13)).
Qed.

Lemma cards_table :
  forallb (λ n, match cardFromOrdinal n with
    | Ret c => (ordinal c =? n) && bool_decide (cardOrdinal (rank c) (suit c) = Ret n)
               && bool_decide (RANKS_IN_ORDER !! Z.to_nat (card_rank c) = Some (rank c))
               && bool_decide (SUITS_IN_ORDER !! Z.to_nat (n / 13) = Some (suit c))
    | _ => false end) (Z.of_nat <$> seq 0 52) = true.
Proof. by vm_compute. Qed.

(** Cards and ordinals correspond.  [cardFromOrdinal] maps 0..51 to the 52 cards, suit by
    suit and rank by rank, [cardOrdinal] inverts it, and the rank the scoring uses is the
    rank of the card; on other numbers it throws. *)
Theorem cardFromOrdinal_spec n :
  if (0 <=? n) && (n <=? 51) then
    ∃ c, cardFromOrdinal n = Ret c ∧ ordinal c = n ∧ cardOrdinal (rank c) (suit c) = Ret n
      ∧ RANKS_IN_ORDER !! Z.to_nat (card_rank c) = Some (rank c)
      ∧ SUITS_IN_ORDER !! Z.to_nat (n / 13) = Some (suit c)
  else throws (cardFromOrdinal n).
Proof.
  destruct (_ && _) eqn:Hn.
  - apply andb_true_iff in Hn as [H0%Z.leb_le H1%Z.leb_le].
    assert (Hin : In n (Z.of_nat <$> seq 0 52)).
    { apply in_map_iff. exists (Z.to_nat n). split; [lia|]. apply in_seq. lia. }
    pose proof (proj1 (forallb_forall _ _) cards_table n Hin) as H. cbv beta in H.
    destruct (cardFromOrdinal n) as [c| |]; [|done|done].
    exists c. rewrite !andb_true_iff, !bool_decide_eq_true, Z.eqb_eq in H.
    destruct H as [[[??]?]?]. by split_and!.
  - unfold cardFromOrdinal. rewrite andb_false_iff, !Z.leb_gt in Hn.
    assert ((n <? 0) || (51 <? n) = true) as -> by lia. by eexists.
Qed.

(** ** Folding *)

(** A concealed card without its lifecycle *)
Definition sealed (c : ConcealedCard) : CardCommitment * string * Outpoint * Pubkey33 :=
  (cc_commitment c, ciphertext c, custody_outpoint c, holder_pubkey c).

(** A fold reveals nothing.  When a [Fold] is accepted the visible cards, the pot and
    every stake are unchanged, each concealed card keeps its commitment, ciphertext,
    outpoint and holder, the folder's assigned cards (there was one) are surrendered and
    no other card changes its lifecycle. *)
Theorem fold_conceals s a rs height s' :
  payload a = FoldAction → NoDup (seats s) → applyAction s a rs height = Ret (Ok s') →
  visible_cards s' = visible_cards s ∧ pot_value s' = pot_value s
  ∧ stake_at_risk <$> players s' = stake_at_risk <$> players s
  ∧ ∃ deck deck' p, concealed_deck s = Some deck ∧ concealed_deck s' = Some deck'
    ∧ act_acting_player_seat (act_base a) = Some (seat p) ∧ p ∈ players s
    ∧ sealed <$> deck' = sealed <$> deck
    ∧ (∃ c, c ∈ deck ∧ fold_touches (value_signing_pubkey p) c = true)
    ∧ ∀ i c c', deck !! i = Some c → deck' !! i = Some c' →
        if fold_touches (value_signing_pubkey p) c
        then lifecycle_state c' = "SURRENDERED" else c' = c.
Proof.
  intros Hp Hnd H. apply applyAction_transition in H as [_ H]; [|done]. rewrite Hp in H.
  inversion H as [| | | | | | | |? ? x p ps' deck Hc Hx Hd Hat Hex| | | | | |]; subst.
  split_and!; [done|done|by eapply (at_seat_fmap stake_at_risk)|].
  destruct (at_seat_in _ _ _ _ _ Hat) as (Hin & <- & _).
  exists deck, (surrender (value_signing_pubkey p) <$> deck), p.
  split_and!; [done|done|done|done| |by apply list.Exists_exists in Hex|].
  - rewrite <- list_fmap_compose. apply list_fmap_ext. intros _ c _.
    unfold compose, surrender. by destruct (fold_touches _ c).
  - intros i c c' Hi Hi'. rewrite list_lookup_fmap, Hi in Hi'. injection Hi' as <-.
    unfold surrender. by destruct (fold_touches _ c).
Qed.
