(* ===== verification/EngineExamples.v ===== *)
(** * state-engine: a session played out

    Two players join, commit, reveal and play; the states reached are inputs at which
    the theorems of [EngineSpec], [EngineSafety] and [EngineProps] apply. *)

From S2P Require Import Prelude Bytes Primitives Types Engine EngineSpec EngineSafety EngineMeasure EngineProps.

Definition demo_rules : RuleSet :=
  mkRuleSet in_between 2 8 10000 100 5000 6 144 12 []
    (mkPenaltySchedule 500 700 100 200) 52 1 (mkSettlementRules 1 1 100 200)
    (mkRecoveryRules true true false) 1.

Definition act_by (who : option Seat) (p : ActionPayload) : SignedAction :=
  mkSignedAction (mkSignedActionBase "g" 0 "" "" who "" "") p.

Definition reveal_of (n : Z) : RevealProof :=
  mkRevealProof 0 (mkRevealedCard R2 clubs n) "" "".

(** Accepted actions, applied one after the other at height [h] *)
Fixpoint play (rs : RuleSet) (h : BlockHeight) (s : RoundState) (acts : list SignedAction)
    : option RoundState :=
  match acts with
  | [] => Some s
  | a :: acts =>
    match applyAction s a rs h with
    | Ret (Ok s') => play rs h s' acts
    | _ => None
    end
  end.

Definition opening : list SignedAction :=
  [act_by None (JoinAction "pk0" 10000); act_by None (JoinAction "pk1" 10000);
   act_by None TableLockAction;
   act_by (Some 0) (EntropyCommitAction "c0"); act_by (Some 1) (EntropyCommitAction "c1");
   act_by (Some 0) (EntropyRevealAction "e0"); act_by (Some 1) (EntropyRevealAction "e1")].

Definition hand (pk : Pubkey33) (n : nat) : ConcealedCard :=
  mkConcealedCard (mkCardCommitment (Z.of_nat n) "" "") "sealed" "" pk "ASSIGNED_CONCEALED".

Definition concealed_hands : list ConcealedCard :=
  (hand "pk0" <$> seq 0 26) ++ (hand "pk1" <$> seq 26 26).

(** Cards 1 and 9 shown: the bet decision of the first round *)
Definition to_bet : list SignedAction :=
  opening ++ [act_by None (DealConcealedAction concealed_hands);
              act_by None (CardRevealAction (reveal_of 1));
              act_by None (CardRevealAction (reveal_of 9))].

Definition to_settle : list SignedAction :=
  to_bet ++ [act_by (Some 0) (BetAction_ 500); act_by None (CardRevealAction (reveal_of 17))].

(** The first round passed, the second up to its settlement *)
Definition to_second : list SignedAction :=
  to_bet ++ [act_by (Some 0) PassAction; act_by None RotateTurnAction;
             act_by None (CardRevealAction (reveal_of 2)); act_by (Some 1) (BetAction_ 500);
             act_by None (CardRevealAction (reveal_of 3))].

(** Both players pass, and the table is closed, twice. *)
Definition to_closed : list SignedAction :=
  to_bet ++ [act_by (Some 0) PassAction; act_by None RotateTurnAction;
             act_by None (CardRevealAction (reveal_of 2)); act_by (Some 1) PassAction;
             act_by None RotateTurnAction;
             act_by None TableCloseAction; act_by None TableCloseAction].

Definition demo_start : RoundState := initialState "g" "r" 100.

Definition reach (acts : list SignedAction) : RoundState :=
  default demo_start (play demo_rules 10 demo_start acts).

Lemma play_trace rs g r d h s acts s' pre :
  trace rs g r d pre s → play rs h s acts = Some s' → trace rs g r d (pre ++ acts) s'.
Proof.
  revert s pre. induction acts as [|a acts IH]; intros s pre Htr; cbn [play].
  { intros [= <-]. by rewrite app_nil_r. }
  destruct (applyAction s a rs h) as [[s1|]| |] eqn:E; try done. intros Hp.
  replace (pre ++ a :: acts) with ((pre ++ [a]) ++ acts) by (by rewrite <- app_assoc).
  eapply IH; [|exact Hp]. by eapply trace_step.
Qed.

Lemma reach_trace acts :
  is_Some (play demo_rules 10 demo_start acts) →
  trace demo_rules "g" "r" 100 acts (reach acts).
Proof.
  intros [s Hs]. unfold reach. rewrite Hs.
  apply (play_trace _ _ _ _ 10 demo_start acts s []); [constructor|done].
Qed.

Lemma demo_stake : is_sats (stake_amount demo_rules).
Proof. by split. Qed.

Lemma bet_trace : trace demo_rules "g" "r" 100 to_bet (reach to_bet).
Proof. apply reach_trace. vm_compute. eauto. Qed.
Lemma settle_trace : trace demo_rules "g" "r" 100 to_settle (reach to_settle).
Proof. apply reach_trace. vm_compute. eauto. Qed.
Lemma second_trace : trace demo_rules "g" "r" 100 to_second (reach to_second).
Proof. apply reach_trace. vm_compute. eauto. Qed.
Lemma closed_trace : trace demo_rules "g" "r" 100 to_closed (reach to_closed).
Proof. apply reach_trace. vm_compute. eauto. Qed.

Lemma bet_session : session demo_rules "g" "r" 100 (reach to_bet).
Proof. eexists. apply bet_trace. Qed.
Lemma settle_session : session demo_rules "g" "r" 100 (reach to_settle).
Proof. eexists. apply settle_trace. Qed.
Lemma second_session : session demo_rules "g" "r" 100 (reach to_second).
Proof. eexists. apply second_trace. Qed.

Lemma bet_seats : NoDup (seats (reach to_bet)).
Proof. apply (bool_decide_unpack _). by vm_compute. Qed.

(** ** Witnesses *)

Lemma applyAction_refines_witness :
  applyAction (reach to_bet) (act_by (Some 0) PassAction) demo_rules 10
    = Ret (Ok (enter S11_ROTATE_TURN (reach to_bet))).
Proof.
  apply (applyAction_refines (reach to_bet)); [exact bet_seats|]. split; [by vm_compute|].
  apply t_pass. by vm_compute.
Defined.

Lemma session_well_formed_witness : inv demo_rules "g" "r" 100 (reach to_settle).
Proof. apply session_well_formed; [exact demo_stake|exact settle_session]. Defined.

Lemma value_conserved_witness :
  total (reach to_settle) = 20500.
Proof.
  rewrite (value_conserved demo_rules "g" "r" 100 demo_stake to_settle _ settle_trace).
  by vm_compute.
Defined.

(** Two rounds passed, the table closed twice: no third action changes more than the legal
    actions, but for a recovery. *)
Lemma session_bounded_witness :
  over (reach to_closed) = true
  ∧ (∃ played, (∃ ending, to_closed = played ++ ending)
      ∧ Forall (λ a, progressing (payload a) = true) played
      ∧ Z.of_nat (length played) ≤ 9 * Z.max 0 (player_count_max demo_rules) + 6)
  ∧ ∀ more s', continues demo_rules (reach to_closed) more s' → more ≠ [] →
      s' = shut (reach to_closed) ∨ s' = enter RECOVERED (reach to_closed).
Proof.
  destruct (session_bounded demo_rules "g" "r" 100 demo_stake to_closed _ closed_trace)
    as (played & ending & E & Hp & _ & Hb & Hn & _ & Hm).
  assert (over (reach to_closed) = true) as Hov by (by vm_compute).
  split; [exact Hov|]. split.
  - exists played. split; [by exists ending|]. split; [exact Hp|lia].
  - intros more s' H Hne. exact (proj2 (Hm Hov more s' H Hne)).
Defined.

Lemma start_session : session demo_rules "g" "r" 100 demo_start.
Proof. exists []. constructor. Qed.

Lemma applyAction_throws_iff_witness :
  ∃ msg, applyAction demo_start (act_by (Some (-1)) (JoinAction "pk0" 10000)) demo_rules 10
    = Throw msg.
Proof.
  apply (applyAction_throws_iff demo_rules "g" "r" 100 demo_stake demo_start
    (act_by (Some (-1)) (JoinAction "pk0" 10000)) 10 start_session).
  split; [done|]. apply (throwing_join demo_rules demo_start); [done|done|].
  intros [H _]. by vm_compute in H.
Defined.

Lemma later_rounds_stuck_witness :
  length (visible_cards (reach to_second)) = 2%nat
  ∧ applySettle (reach to_second) demo_rules
    = reject INVALID_STATE_TRANSITION "settle requires 3 visible cards, have 2".
Proof.
  destruct (later_rounds_stuck demo_rules "g" "r" 100 demo_stake (reach to_second)
    (act_by None SettleAction) 10 second_session) as (H1 & H2 & _).
  - by vm_compute.
  - by vm_compute.
  - split; [exact H1|exact H2].
Defined.

Lemma timeout_never_accepted_witness :
  ∃ e, applyAction (reach to_bet) (act_by None (TimeoutAction Pass 0)) demo_rules 99 = Ret (Err e).
Proof.
  apply (timeout_never_accepted demo_rules "g" "r" 100 demo_stake _ _ Pass 0 99 bet_session).
  reflexivity.
Defined.

Lemma recovery_witness :
  ∃ s', applyAction (reach to_second) (act_by None (RecoveryAction "stalled")) demo_rules 100
      = Ret (Ok s') ∧ state_class s' = RECOVERED.
Proof.
  destruct (recovery_available_and_final demo_rules "g" "r" 100 demo_stake (reach to_second)
    (act_by None (RecoveryAction "stalled")) "stalled" 100 second_session) as (s' & H & Hc & _);
    [reflexivity|reflexivity|]. exists s'. split; [exact H|exact Hc].
Defined.

Lemma first_joiner_witness : ∃ x, acting_player_seat (reach to_second) = Some x ∧ 0 ≤ x.
Proof.
  destruct (players (reach to_second)) as [|p0 ps] eqn:E; [by vm_compute in E|].
  exists 1. split; [by vm_compute|].
  destruct (first_joiner_acts_first demo_rules "g" "r" 100 demo_stake (reach to_second) p0 ps 1
    second_session E) as [H _]; [by vm_compute|].
  vm_compute in E. injection E as <- _. exact H.
Defined.

Lemma eligibility_witness :
  canTimeout (eligibility (reach to_bet) 100) = false
  ∧ canRecover (eligibility (reach to_bet) 100) = true.
Proof.
  destruct (eligibility_agrees demo_rules "g" "r" 100 demo_stake (reach to_bet)
    (act_by None (RecoveryAction "stalled")) "stalled" 100 bet_session) as (H1 & _ & _);
    [reflexivity|reflexivity|]. split; [exact H1|by vm_compute].
Defined.

Lemma computeSettlement_witness :
  match applySettle (reach to_settle) demo_rules with
  | Ret (Ok s') => ∃ res, computeSettlement (reach to_settle) demo_rules = Ret (Ok res)
      ∧ pot_value s' = resulting_pot_value res
      ∧ stake_at_risk <$> players s' = resulting_balances res
      ∧ sr_acting_player_seat res = 0 ∧ sr_bet_amount res = pot_value (reach to_settle)
  | _ => throws (computeSettlement (reach to_settle) demo_rules)
  end.
Proof. apply computeSettlement_predicts; by vm_compute. Defined.

Definition folded_state : RoundState :=
  match applyAction (reach to_bet) (act_by (Some 0) FoldAction) demo_rules 10 with
  | Ret (Ok s) => s | _ => demo_start end.

Lemma fold_conceals_witness :
  visible_cards folded_state = visible_cards (reach to_bet).
Proof.
  apply (fold_conceals (reach to_bet) (act_by (Some 0) FoldAction) demo_rules 10 folded_state).
  - reflexivity.
  - exact bet_seats.
  - by vm_compute.
Defined.
