(* ===== verification/EngineLiveness.v ===== *)
(** * state-engine: which tables can be brought to their close

    Recovery aside, what is left to the players of a session?  [can_close] says it of a state,
    by its class and its money; [table_can_close] shows that it is exactly the existence of a
    way to [S12_TABLE_CLOSE].  What gets a table stuck is so a settlement that cannot be
    paid, or that has not three cards. *)

From S2P Require Import Prelude Bytes Primitives Types Engine EngineSpec EngineSafety EngineMeasure EngineProps EngineExamples.

(** ** What can be closed *)

(** The acting player can settle on [cards]: pot and stake stay amounts of satoshis. *)
Definition settles (rs : RuleSet) (s : RoundState) (cards : list RevealedCard) : Prop :=
  ∃ x a b c o pd qd, acting_player_seat s = Some x ∧ cards = [a; b; c] ∧ round_outcome a b c o
    ∧ computeValueTransfer o (pot_value s) (settlement_rules rs) = (pd, qd)
    ∧ is_sats (pot_value s + qd)
    ∧ Forall (λ p, seat p = x → is_sats (stake_at_risk p + pd)) (players s).

Definition can_close (rs : RuleSet) (s : RoundState) : Prop :=
  match state_class s with
  | S3_ENTROPY_COMMIT_WINDOW => players s ≠ []
  | S9_CARD_REVEAL_THIRD => ∃ card, settles rs s (visible_cards s ++ [card])
  | S10_SETTLED_ROUND => settles rs s (visible_cards s)
  | RECOVERED => False
  | _ => True
  end.

Lemma settles_ext rs s s' cards cards' :
  acting_player_seat s' = acting_player_seat s → pot_value s' = pot_value s →
  players s' = players s → cards' = cards → settles rs s cards → settles rs s' cards'.
Proof. unfold settles. by intros -> -> -> ->. Qed.

(** At height [h], accepted actions other than [Recovery] close the table, [n] at most. *)
Definition closes_within (rs : RuleSet) (h : BlockHeight) (s : RoundState) (n : Z) : Prop :=
  ∃ acts s', play rs h s acts = Some s' ∧ state_class s' = S12_TABLE_CLOSE
    ∧ Forall (λ a, action_type a ≠ Recovery) acts ∧ Z.of_nat (length acts) ≤ n.

(** ** Somebody is still awaited *)

(** A window of the entropy exchange is left with its last player. *)
Definition awaited (s : RoundState) : Prop :=
  match state_class s with
  | S3_ENTROPY_COMMIT_WINDOW =>
    players s ≠ [] → Exists (λ p, entropy_committed p = false) (players s)
  | S4_ENTROPY_REVEAL_WINDOW => Exists (λ p, entropy_revealed p = false) (players s)
  | _ => True
  end.

Lemma not_forallb_Exists {A} (f : A → bool) l : forallb f l = false → Exists (λ x, f x = false) l.
Proof.
  induction l as [|x l IH]; cbn [forallb]; [done|]. intros [H|H]%andb_false_iff.
  - by apply Exists_cons_hd.
  - by apply Exists_cons_tl, IH.
Qed.

Lemma Forall_Exists_head {A} (P : A → Prop) l : Forall P l → l ≠ [] → Exists P l.
Proof. destruct 1; [done|]. intros _. by apply Exists_cons_hd. Qed.

(** The first player of its seat can be the one replaced. *)
Lemma at_seat_of ps p : p ∈ ps → NoDup (seat <$> ps) → ∀ q, ∃ ps', at_seat (seat p) p q ps ps'.
Proof.
  intros (l1 & l2 & ->)%list_elem_of_split Hnd q. exists (l1 ++ q :: l2). constructor; [done|].
  rewrite fmap_app, fmap_cons in Hnd. apply list.NoDup_app in Hnd as (_ & Hd & _).
  intros Hin. apply (Hd _ Hin). by left.
Qed.

Lemma fresh_seat (ss : list Z) : ∃ x, 0 ≤ x ≤ Z.of_nat (length ss) ∧ x ∉ ss.
Proof.
  destruct (decide (Forall (λ x, x ∈ ss) (Z.of_nat <$> seq 0 (S (length ss))))) as [H|H].
  - exfalso. rewrite list.Forall_forall in H.
    assert (Hs : Z.of_nat <$> seq 0 (S (length ss)) ⊆+ ss).
    { apply NoDup_submseteq; [|exact H]. apply NoDup_fmap; [apply _|apply NoDup_seq]. }
    apply submseteq_length in Hs. rewrite length_fmap, length_seq in Hs. lia.
  - apply not_Forall_Exists in H; [|intros x; apply _].
    apply list.Exists_exists in H as (x & Hx & Hn). exists x. split; [|exact Hn].
    apply list_elem_of_fmap in Hx as (n & -> & Hn'%elem_of_seq). lia.
Qed.

Lemma awaited_step rs g r d height s act a s' :
  inv rs g r d s → awaited s → transition rs height s act a s' → awaited s'.
Proof.
  intros Hinv Ha H. pose proof (inv_stage _ _ _ _ _ Hinv) as Hst. unfold stage_ok in Hst.
  destruct H as [? ? ? ? Hc|? ? Hc|? ? ? ? ? ? Hc|? ? ? ? ? ? Hc|? ? ? ? Hc|? ? ? Hc| | | | | | |? ? Hc| |];
    try done; try (unfold awaited; cbn; by rewrite Hc);
    try (rewrite Hc in Hst).
  - cbn. intros Hne. apply Forall_Exists_head; [apply Hst|done].
  - destruct (forallb entropy_committed ps') eqn:E; cbn.
    + apply Forall_Exists_head; [|by eapply at_seat_nonempty].
      eapply at_seat_forall; [eassumption|apply Hst|done].
    + intros _. by apply not_forallb_Exists.
  - destruct (forallb entropy_revealed ps') eqn:E; cbn; [done|]. by apply not_forallb_Exists.
  - unfold awaited. destruct (state_class _); try done; by injection Hc as <-.
Qed.

Section closing.
Context (rs : RuleSet) (g : GameId) (r : RuleSetHash) (d : BlockHeight) (h : BlockHeight).
Context (rs_stake : is_sats (stake_amount rs)).
Context (seats_needed : player_count_min rs ≤ player_count_max rs)
        (seats_limit : 1 ≤ player_count_max rs ≤ MAX_SAFE_INTEGER).

Lemma session_awaited s : session rs g r d s → awaited s.
Proof using rs_stake.
  intros [acts H]. induction H as [|acts s a h' s' Htr IH Hs|]; [done| |done].
  pose proof (trace_inv rs g r d rs_stake _ _ Htr) as Hinv.
  apply applyAction_transition in Hs as [_ Hs]; [|apply Hinv]. by eapply awaited_step.
Qed.

(** An action for the game of a session *)
Definition action_for (who : option Seat) (p : ActionPayload) : SignedAction :=
  mkSignedAction (mkSignedActionBase g 0 "" "" who "" "") p.

Lemma session_step s who p s' :
  session rs g r d s → transition rs h s (act_base (action_for who p)) p s' →
  applyAction s (action_for who p) rs h = Ret (Ok s') ∧ session rs g r d s'.
Proof using rs_stake.
  intros Hs H. pose proof (session_inv rs g r d rs_stake s Hs) as Hinv.
  assert (E : applyAction s (action_for who p) rs h = Ret (Ok s')).
  { apply applyAction_transition; [apply Hinv|]. split; [|done].
    by destruct (inv_identity _ _ _ _ _ Hinv) as [-> _]. }
  split; [done|]. destruct Hs as [acts Htr]. eexists. by eapply trace_step.
Qed.

(** A step of play towards the close *)
Lemma closes_step s who p s' :
  session rs g r d s → transition rs h s (act_base (action_for who p)) p s' →
  progressing p = true →
  (session rs g r d s' → closes_within rs h s' (measure rs s')) →
  closes_within rs h s (measure rs s).
Proof using rs_stake.
  intros Hs H Hp Hnext. destruct (session_step s who p s' Hs H) as [E Hs'].
  pose proof (session_inv rs g r d rs_stake s Hs) as Hinv.
  pose proof (session_inv rs g r d rs_stake s' Hs') as Hinv'.
  pose proof (measure_step _ _ _ _ _ _ _ _ _ Hinv Hinv' H Hp) as Hm.
  destruct (Hnext Hs') as (acts & s2 & Hplay & Hc & Hn & Hl).
  exists (action_for who p :: acts), s2. cbn [play]. rewrite E. split_and!; [done..| |].
  - constructor; [|done]. by destruct p.
  - cbn [length]. lia.
Qed.

(** The classes from which the table closes whatever has been played *)
Definition undecided (s : RoundState) : Prop :=
  match state_class s with
  | S9_CARD_REVEAL_THIRD | S10_SETTLED_ROUND | RECOVERED => False
  | S3_ENTROPY_COMMIT_WINDOW => players s ≠ []
  | _ => True
  end.

(** What can be done next in [s] to bring the table nearer to its close *)
Definition next_move (s : RoundState) : Prop :=
  ∃ who p s', transition rs h s (act_base (action_for who p)) p s' ∧ progressing p = true
    ∧ undecided s'.

(** Seats are filled until the table can be locked. *)
Lemma move_seats s :
  session rs g r d s → state_class s = S1_SEAT_OPEN → next_move s.
Proof using rs_stake seats_needed seats_limit.
  intros Hs Hc. destruct (fresh_seat (seats s)) as (x & Hx & Hfresh).
  rewrite length_fmap in Hx.
  destruct (decide (player_count_min rs ≤ Z.of_nat (length (players s)) ∧ players s ≠ []))
    as [[Hmin Hne]|Hn].
  - eexists None, TableLockAction, _. split; [by apply t_table_lock|done].
  - assert (Z.of_nat (length (players s)) < player_count_max rs).
    { destruct (decide (players s = [])) as [->|]; [cbn [length]; lia|].
      destruct (Z.lt_ge_cases (Z.of_nat (length (players s))) (player_count_min rs)); [lia|].
      by destruct Hn. }
    eexists (Some x), (JoinAction "" (stake_amount rs)), _. split.
    + apply (t_join _ _ s _ "" x); try done. lia.
    + split; [done|]. unfold undecided. cbn. by rewrite Hc.
Qed.

(** Whoever is awaited commits, or reveals. *)
Lemma move_entropy s :
  session rs g r d s → undecided s →
  state_class s = S3_ENTROPY_COMMIT_WINDOW ∨ state_class s = S4_ENTROPY_REVEAL_WINDOW →
  next_move s.
Proof using rs_stake.
  intros Hs Hu Hc. pose proof (session_inv rs g r d rs_stake s Hs) as Hinv.
  pose proof (inv_seats _ _ _ _ _ Hinv) as Hnd. pose proof (inv_stage _ _ _ _ _ Hinv) as Hst.
  pose proof (session_awaited s Hs) as Ha. unfold awaited, undecided, stage_ok in *.
  destruct Hc as [Hc|Hc]; rewrite Hc in *.
  - destruct (proj1 (list.Exists_exists _ _) (Ha Hu)) as (p & Hp & Hf).
    destruct (at_seat_of _ p Hp Hnd (committed "" p)) as (ps' & Hat).
    eexists (Some (seat p)), (EntropyCommitAction ""), _.
    split; [by eapply t_entropy_commit|]. split; [done|].
    destruct (forallb _ ps'); cbn; [done|by eapply at_seat_nonempty].
  - destruct (proj1 (list.Exists_exists _ _) Ha) as (p & Hp & Hf).
    destruct (at_seat_of _ p Hp Hnd (revealed "" p)) as (ps' & Hat).
    eexists (Some (seat p)), (EntropyRevealAction ""), _. split.
    + eapply t_entropy_reveal; [done|done|exact Hat| |done].
      destruct Hst as (_&_&_&_&_&_&Hcm). rewrite list.Forall_forall in Hcm. by apply Hcm.
    + split; [done|]. by destruct (forallb _ ps').
Qed.

(** The turn rotates. *)
Lemma move_turn s :
  session rs g r d s → state_class s = S11_ROTATE_TURN → next_move s.
Proof using rs_stake.
  intros Hs Hc. pose proof (session_inv rs g r d rs_stake s Hs) as Hinv.
  pose proof (inv_stage _ _ _ _ _ Hinv) as Hst. unfold stage_ok in Hst. rewrite Hc in Hst.
  destruct Hst as ([Hne _] & x & x0 & Hx & _).
  destruct (rotate_spec (acting_player_seat s) (seats s)) as (n & f & _ & _ & Ht).
  { apply Hinv. }
  { by destruct (players s). }
  exists None, RotateTurnAction. destruct (_ && _).
  - eexists. split; [by apply t_rotate_close|done].
  - eexists. split; [apply (t_rotate _ _ s _ n); [done|done|]|done].
    eapply (round_room rs g r d); [done|done|exact Ht|by rewrite Hx].
Qed.

Lemma undecided_move s :
  session rs g r d s → undecided s → state_class s ≠ S12_TABLE_CLOSE → next_move s.
Proof using rs_stake seats_needed seats_limit.
  intros Hs Hu Hne. pose proof (session_inv rs g r d rs_stake s Hs) as Hinv.
  pose proof (inv_stage _ _ _ _ _ Hinv) as Hst.
  assert (Hshow : ∀ sc, reveal_target (state_class s) = Some sc →
    state_class s ≠ S9_CARD_REVEAL_THIRD → next_move s).
  { intros sc Hsc Hn9. eexists None, (CardRevealAction (reveal_of 0)), _.
    split; [by apply t_card_reveal|]. split; [done|].
    destruct (state_class s); try done; by injection Hsc as <-. }
  destruct (state_class s) eqn:Hc; unfold undecided, stage_ok in Hu, Hst;
    rewrite Hc in Hu, Hst; try done.
  - by apply move_seats.
  - apply move_entropy; [done| |by left]. unfold undecided. by rewrite Hc.
  - apply move_entropy; [done| |by right]. unfold undecided. by rewrite Hc.
  - by apply (Hshow S6_CARD_REVEAL_FIRST).
  - by apply (Hshow S8_BET_DECISION).
  - eexists None, PassAction, _. split; [by apply t_pass|done].
  - by apply move_turn.
Qed.

Lemma undecided_closes s :
  session rs g r d s → undecided s → closes_within rs h s (measure rs s).
Proof using rs_stake seats_needed seats_limit.
  remember (Z.to_nat (measure rs s)) as n eqn:En. revert s En.
  induction (lt_wf n) as [n _ IH]. intros s -> Hs Hu.
  destruct (decide (state_class s = S12_TABLE_CLOSE)) as [Hc|Hc].
  { exists [], s. split_and!; [done..|by constructor|]. cbn [length].
    eapply (measure_nonneg rs g r d). by apply session_inv. }
  destruct (undecided_move s Hs Hu Hc) as (who & p & s' & H & Hp & Hu').
  eapply closes_step; [done|exact H|done|]. intros Hs'. eapply IH; [|done|done|done].
  pose proof (session_inv rs g r d rs_stake s Hs) as Hinv.
  pose proof (session_inv rs g r d rs_stake s' Hs') as Hinv'.
  pose proof (measure_step _ _ _ _ _ _ _ _ _ Hinv Hinv' H Hp).
  pose proof (measure_nonneg _ _ _ _ _ Hinv'). lia.
Qed.
(** *** Settling *)

Lemma settled_players x pd ps :
  Forall (λ p, seat p = x → is_sats (stake_at_risk p + pd)) ps
  ↔ ∃ ps', Forall2 (settled_player x pd) ps ps'.
Proof using Type.
  induction ps as [|p ps IH].
  { split; [intros _; exists []; constructor|by constructor]. }
  rewrite list.Forall_cons, IH. split.
  - intros [Hp (ps' & H)]. destruct (decide (seat p = x)) as [E|E].
    + exists (set_stake_at_risk (stake_at_risk p + pd) p :: ps'). constructor; [left|done]. auto.
    + exists (p :: ps'). constructor; [by right|done].
  - intros (ps' & H). inversion H as [|? p' ? ps1 Hp Hps]; subst. split; [|by exists ps1].
    by destruct Hp as [(_ & ? & _)|[? _]].
Qed.

Lemma settle_transition s act :
  state_class s = S10_SETTLED_ROUND →
  settles rs s (visible_cards s) ↔ ∃ s', transition rs h s act SettleAction s'.
Proof using Type.
  intros Hc. split.
  - intros (x & a & b & c & o & pd & qd & Hx & Hv & Ho & Ht & Hq & (ps' & Hps)%settled_players).
    eexists. by eapply t_settle.
  - intros [s' H]. inv_transition H. do 7 eexists.
    split_and!; try eassumption. apply settled_players. eauto.
Qed.

Lemma settles_closes s :
  session rs g r d s → state_class s = S10_SETTLED_ROUND → settles rs s (visible_cards s) →
  closes_within rs h s (measure rs s).
Proof using rs_stake seats_needed seats_limit.
  intros Hs Hc Hset.
  destruct (proj1 (settle_transition s (act_base (action_for None SettleAction)) Hc) Hset) as [s' H].
  eapply closes_step; [done|exact H|done|]. intros Hs'. apply undecided_closes; [done|].
  inv_transition H. done.
Qed.

Lemma third_card_closes s card :
  session rs g r d s → state_class s = S9_CARD_REVEAL_THIRD →
  settles rs s (visible_cards s ++ [card]) → closes_within rs h s (measure rs s).
Proof using rs_stake seats_needed seats_limit.
  intros Hs Hc Hset. eapply (closes_step s None (CardRevealAction (mkRevealProof 0 card "" "")));
    [done|by eapply t_card_reveal; rewrite Hc|done|].
  intros Hs'. apply settles_closes; [done|done|].
  revert Hset. apply settles_ext; try done.
  change (actor_after_reveal s = acting_player_seat s). unfold actor_after_reveal. by rewrite Hc.
Qed.

Lemma can_close_closes s :
  session rs g r d s → can_close rs s → closes_within rs h s (measure rs s).
Proof using rs_stake seats_needed seats_limit.
  intros Hs H. unfold can_close in H. destruct (state_class s) eqn:Hc; try done;
    try (apply undecided_closes; [done|]; unfold undecided; by rewrite Hc).
  - destruct H as [card H]. by eapply third_card_closes.
  - by apply settles_closes.
Qed.

(** *** What an accepted action shows of its state *)

Lemma accepted_can_close s a s' :
  session rs g r d s → applyAction s a rs h = Ret (Ok s') → action_type a ≠ Recovery →
  state_class s ≠ S9_CARD_REVEAL_THIRD → can_close rs s.
Proof using rs_stake.
  intros Hs H Hr Hn. apply (session_transition rs g r d rs_stake) in H; [|done].
  unfold action_type in Hr. unfold can_close. destruct (state_class s) eqn:Hc; try done.
  - destruct H; try congruence; try (by destruct Hr).
    + match goal with H : at_seat _ _ _ _ _ |- _ => apply at_seat_in in H as (Hin & _) end.
      intros E. rewrite E in Hin. by apply not_elem_of_nil in Hin.
    + by rewrite Hc in *.
    + destruct H; congruence.
  - assert (payload a = SettleAction) as Ep.
    { destruct H; try congruence; try (by destruct Hr); [by rewrite Hc in *|destruct H; congruence]. }
    rewrite Ep in H. apply (settle_transition s (act_base a) Hc). by exists s'.
  - destruct H; try congruence; try (by destruct Hr); [by rewrite Hc in *|destruct H; congruence].
Qed.

(** After the bet the only way on is the third card. *)
Lemma third_card_step s a s' :
  session rs g r d s → state_class s = S9_CARD_REVEAL_THIRD →
  applyAction s a rs h = Ret (Ok s') → action_type a ≠ Recovery →
  ∃ card, s' = (enter S10_SETTLED_ROUND s |> set_visible_cards (visible_cards s ++ [card])
                  |> set_acting_player_seat (acting_player_seat s)).
Proof using rs_stake.
  intros Hs Hc H Hr. apply (session_transition rs g r d rs_stake) in H; [|done].
  unfold action_type in Hr.
  destruct H as [| | | |s act rp sc' Htgt| | | |? ? ? ? ? ? Hf| | | | | |];
    try congruence; try (by destruct Hr); [|destruct Hf; congruence].
  exists (revealed_card rp). rewrite Hc in Htgt. injection Htgt as <-.
  unfold actor_after_reveal. by rewrite Hc.
Qed.

(** C5: which tables can be closed.  Recovery aside, a session can be brought to
    [S12_TABLE_CLOSE], at any height and by at most [9 * player_count_max + 6] further
    actions, exactly when [can_close] says so: always before a bet is placed and after a round
    is settled (only a table locked without players is lost); once a bet is placed, when some
    third card lets the acting player settle; and in S10, when the cards shown are three and
    neither the pot nor the acting player's stake would leave the amounts of satoshis. *)
Theorem table_can_close s :
  session rs g r d s →
  can_close rs s ↔ closes_within rs h s (9 * player_count_max rs + 6).
Proof using rs_stake seats_needed seats_limit.
  intros Hs. split.
  - intros (acts & s' & Hp & Hc & Hr & Hl)%can_close_closes; [|done]. exists acts, s'.
    split_and!; [done..|]. destruct Hs as [pre Htr].
    pose proof (trace_bound rs g r d rs_stake _ _ Htr).
    pose proof (count_bounds (λ a, progressing (payload a)) pre). lia.
  - intros (acts & s' & Hp & Hc & Hr & _). destruct acts as [|a acts]; cbn [play] in Hp.
    { injection Hp as ->. unfold can_close. by rewrite Hc. }
    apply list.Forall_cons in Hr as [Ha Hr].
    destruct (applyAction s a rs h) as [[s1|]| |] eqn:E; try done.
    destruct (decide (state_class s = S9_CARD_REVEAL_THIRD)) as [H9|H9];
      [|by eapply accepted_can_close].
    destruct (third_card_step s a s1 Hs H9 E Ha) as [card E1].
    assert (Hs1 : session rs g r d s1).
    { destruct Hs as [pre Htr]. eexists. by eapply trace_step. }
    destruct acts as [|b acts]; cbn [play] in Hp; [by injection Hp as <-; subst|].
    apply list.Forall_cons in Hr as [Hb _].
    destruct (applyAction s1 b rs h) as [[s2|]| |] eqn:E2; try done.
    assert (H10 : state_class s1 = S10_SETTLED_ROUND) by (by subst).
    pose proof (accepted_can_close s1 b s2 Hs1 E2 Hb ltac:(by rewrite H10)) as Hcl.
    unfold can_close in *. rewrite H9. rewrite H10 in Hcl. exists card. by subst.
Qed.
End closing.

(** ** Tables that close, and tables that do not *)

(** Stakes that do not cover a lost bet *)
Definition poor_rules : RuleSet :=
  mkRuleSet in_between 2 8 400 100 5000 6 144 12 []
    (mkPenaltySchedule 500 700 100 200) 52 1 (mkSettlementRules 1 1 100 200)
    (mkRecoveryRules true true false) 1.

Definition lost_bet : list SignedAction :=
  [act_by None (JoinAction "pk0" 400); act_by None (JoinAction "pk1" 400);
   act_by None TableLockAction;
   act_by (Some 0) (EntropyCommitAction "c0"); act_by (Some 1) (EntropyCommitAction "c1");
   act_by (Some 0) (EntropyRevealAction "e0"); act_by (Some 1) (EntropyRevealAction "e1");
   act_by None (CardRevealAction (reveal_of 1)); act_by None (CardRevealAction (reveal_of 9));
   act_by (Some 0) (BetAction_ 500)].

Definition after (acts : list SignedAction) : RoundState :=
  default demo_start (play poor_rules 10 demo_start acts).

Lemma after_session acts :
  is_Some (play poor_rules 10 demo_start acts) → session poor_rules "g" "r" 100 (after acts).
Proof.
  intros [s Hs]. exists acts. unfold after. rewrite Hs.
  apply (play_trace _ _ _ _ 10 demo_start acts s []); [constructor|done].
Qed.

Definition is_ok {A} (m : js (Result A)) : bool :=
  match m with Ret (Ok _) => true | _ => false end.

Definition third_card (n : Z) : list SignedAction :=
  lost_bet ++ [act_by None (CardRevealAction (reveal_of n))].

Lemma settles_ok rs s :
  state_class s = S10_SETTLED_ROUND →
  settles rs s (visible_cards s) ↔ is_ok (applySettle s rs) = true.
Proof.
  intros Hc. rewrite (settle_transition rs 0 s (act_base (act_by None SettleAction)) Hc). split.
  - intros [s' H%applySettle_ok]. by rewrite H.
  - destruct (applySettle s rs) as [[s'|]| |] eqn:E; try done. intros _. exists s'.
    by apply applySettle_ok.
Qed.

(** With the third card 4 the bet is won and the table closes, with 12 it is lost, for more
    than the stake, and the table does not. *)
Lemma table_can_close_witness :
  closes_within poor_rules 10 (after lost_bet) 78
  ∧ closes_within poor_rules 10 (after (third_card 4)) 78
  ∧ ¬ closes_within poor_rules 10 (after (third_card 12)) 78.
Proof.
  assert (Hs : ∀ acts, bool_decide (is_Some (play poor_rules 10 demo_start acts)) = true →
    can_close poor_rules (after acts) ↔ closes_within poor_rules 10 (after acts) 78).
  { intros acts Hacts%bool_decide_eq_true.
    exact (table_can_close poor_rules "g" "r" 100 10 ltac:(by split) ltac:(done) ltac:(by split)
      (after acts) (after_session acts Hacts)). }
  assert (H4 : settles poor_rules (after (third_card 4)) (visible_cards (after (third_card 4)))).
  { apply settles_ok; by vm_compute. }
  split_and!.
  - apply Hs; [by vm_compute|]. unfold can_close.
    replace (state_class (after lost_bet)) with S9_CARD_REVEAL_THIRD by (by vm_compute).
    exists (revealed_card (reveal_of 4)). revert H4. apply settles_ext; by vm_compute.
  - apply Hs; [by vm_compute|]. unfold can_close.
    by replace (state_class (after (third_card 4))) with S10_SETTLED_ROUND by (by vm_compute).
  - rewrite <- Hs by (by vm_compute). unfold can_close.
    replace (state_class (after (third_card 12))) with S10_SETTLED_ROUND by (by vm_compute).
    rewrite settles_ok by (by vm_compute). by vm_compute.
Defined.
