(* ===== verification/Crypto.v ===== *)
(** * crypto-cards: encoders, hashing and entropy commitments

    [packages/crypto-cards/src/encode.ts], [hash.ts] and [entropy.ts].  SHA-256 is the
    platform's [crypto.subtle.digest] and is the parameter [digest] throughout; the
    asynchronous functions are modelled by their eventual outcome. *)

From S2P Require Import Prelude Bytes.

(** ** encode.ts *)

Definition encodeU8 (n : Z) : js bytes :=
  if (n <? 0) || (0xff <? n) then Throw ("encodeU8: out of range: " +:+ pretty n)
  else Ret [u8 n].

Definition encodeU16LE (n : Z) : js bytes :=
  if (n <? 0) || (0xffff <? n) then Throw ("encodeU16LE: out of range: " +:+ pretty n)
  else Ret [u8 (js_and n 0xff); u8 (js_and (js_ushr n 8) 0xff)].

Definition encodeU32LE (n : Z) : js bytes :=
  if (n <? 0) || (0xffffffff <? n) then Throw ("encodeU32LE: out of range: " +:+ pretty n)
  else Ret [u8 (js_and n 0xff); u8 (js_and (js_ushr n 8) 0xff);
            u8 (js_and (js_ushr n 16) 0xff); u8 (js_and (js_ushr n 24) 0xff)].

Definition encodeBytes32 (b : bytes) : js bytes :=
  if negb (blen b =? 32)
  then Throw ("encodeBytes32: expected 32 bytes, got " +:+ pretty (blen b))
  else Ret b.

(** [DataView.setUint32(_, n, true)] stores [ToUint32(n)], low byte first. *)
Definition encodeVarint (n : Z) : js bytes :=
  if negb (is_safe_integer n) || (n <? 0)
  then Throw ("encodeVarint: out of range: " +:+ pretty n)
  else if n <? 0xfd then Ret [u8 n]
  else if n <=? 0xffff then Ret [0xfd; u8 (js_and n 0xff); u8 (js_and (js_ushr n 8) 0xff)]
  else if n <=? 0xffffffff then Ret (0xfe :: le_bytes 4 (to_uint32 n))
  else
    let high := n / 0x100000000 in
    let low := js_ushr n 0 in
    Ret (0xff :: le_bytes 4 (to_uint32 low) ++ le_bytes 4 (to_uint32 high)).

Definition concat (parts : list bytes) : bytes := mjoin parts.

Definition toHex (b : bytes) : string := to_hex b.

Definition fromHex (hex : string) : js bytes :=
  if negb (js_length hex mod 2 =? 0) then Throw ("fromHex: odd-length input: " +:+ hex)
  else hex_pairs (λ off, Throw ("fromHex: bad hex at offset " +:+ pretty off +:+ ": " +:+ hex))
         0 (js_units hex).

(** ** hash.ts *)

Definition TAG_ENTROPY_COMMITMENT : Z := 0x0005.
Definition TAG_ENTROPY_REVEAL : Z := 0x0006.
Definition TAG_DECK_COMMITMENT : Z := 0x0007.
Definition TAG_CARD : Z := 0x0008.
Definition TAG_REVEAL_PROOF : Z := 0x000c.

Definition sha256 (digest : bytes → bytes) (input : bytes) : bytes := digest input.

Definition domainHash (digest : bytes → bytes) (typeTag : Z) (parts : list bytes) : js bytes :=
  tag ← encodeU16LE typeTag;
  Ret (sha256 digest (concat (tag :: parts))).

(** ** entropy.ts *)

Definition commitEntropy (digest : bytes → bytes) (entropy playerId gameId : bytes)
  : js bytes :=
  e ← encodeBytes32 entropy;
  p ← encodeBytes32 playerId;
  g ← encodeBytes32 gameId;
  domainHash digest TAG_ENTROPY_COMMITMENT [e; p; g].

(** The loop [diff |= a[i] ^ b[i]]; the operands have the same length. *)
Fixpoint ct_diff (diff : Z) (a b : bytes) : Z :=
  match a, b with
  | x :: a, y :: b => ct_diff (js_or diff (js_xor x y)) a b
  | _, _ => diff
  end.

Definition constantTimeEquals (a b : bytes) : bool :=
  if negb (blen a =? blen b) then false else ct_diff 0 a b =? 0.

Definition verifyEntropyReveal (digest : bytes → bytes)
    (commitment entropy playerId gameId : bytes) : js bool :=
  recomputed ← commitEntropy digest entropy playerId gameId;
  Ret (constantTimeEquals recomputed commitment).

(** [for (const e of entropies) parts.push(encodeBytes32(e))] *)
Fixpoint encode_each (es : list bytes) : js (list bytes) :=
  match es with
  | [] => Ret []
  | e :: es => b ← encodeBytes32 e; bs ← encode_each es; Ret (b :: bs)
  end.

Definition combineEntropy (digest : bytes → bytes) (entropies : list bytes) : js bytes :=
  if (Z.of_nat (length entropies) =? 0) then Throw "combineEntropy: empty list"
  else
    count ← encodeVarint (Z.of_nat (length entropies));
    parts ← encode_each entropies;
    domainHash digest TAG_DECK_COMMITMENT (count :: parts).

Definition commitEntropyHex (digest : bytes → bytes) (entropy playerId gameId : bytes)
  : js string :=
  b ← commitEntropy digest entropy playerId gameId; Ret (toHex b).

(** ** Lemmas *)

Lemma encodeBytes32_Ret b r : encodeBytes32 b = Ret r ↔ r = b ∧ length b = 32%nat.
Proof.
  unfold encodeBytes32, blen. destruct (Z.eqb_spec (Z.of_nat (length b)) 32); simpl.
  - split; [intros [= ->]; split; [done|lia]|by intros [-> _]].
  - split; [done|]. intros [_ H]. lia.
Qed.

Lemma encodeU16LE_spec n : 0 ≤ n ≤ 0xffff → encodeU16LE n = Ret (le_bytes 2 n).
Proof.
  intros H. unfold encodeU16LE, u8.
  rewrite (proj2 (Z.ltb_ge n 0)), (proj2 (Z.ltb_ge 0xffff n)) by lia. cbn [orb].
  by rewrite js_and_ff, js_ushr_and, !Z.mod_mod by lia.
Qed.

Lemma encodeU32LE_spec n : 0 ≤ n ≤ 0xffffffff → encodeU32LE n = Ret (le_bytes 4 n).
Proof.
  intros H. unfold encodeU32LE, u8.
  rewrite (proj2 (Z.ltb_ge n 0)), (proj2 (Z.ltb_ge 0xffffffff n)) by lia. cbn [orb].
  rewrite js_and_ff, !js_ushr_and, !Z.mod_mod by lia.
  cbn [le_bytes]. rewrite !Z.div_div by lia. done.
Qed.

Lemma encodeU8_spec n : 0 ≤ n ≤ 0xff → encodeU8 n = Ret [n].
Proof.
  intros H. unfold encodeU8, u8.
  rewrite (proj2 (Z.ltb_ge n 0)), (proj2 (Z.ltb_ge 0xff n)) by lia. cbn [orb].
  by rewrite Z.mod_small by lia.
Qed.

Lemma domainHash_spec digest tag parts :
  0 ≤ tag ≤ 0xffff →
  domainHash digest tag parts = Ret (digest (le_bytes 2 tag ++ mjoin parts)).
Proof. intros H. unfold domainHash. by rewrite encodeU16LE_spec. Qed.

Lemma byte_lxor_zero x y : is_byte x → is_byte y → js_xor x y = 0 ↔ x = y.
Proof.
  unfold is_byte, js_xor, to_int32. intros Hx Hy. rewrite !Z.mod_small by lia.
  rewrite (proj2 (Z.ltb_lt x _)), (proj2 (Z.ltb_lt y _)) by lia. apply Z.lxor_eq_0_iff.
Qed.

Lemma byte_lxor_range x y : is_byte x → is_byte y → is_byte (js_xor x y).
Proof.
  unfold is_byte, js_xor, to_int32. intros Hx Hy. rewrite !Z.mod_small by lia.
  rewrite (proj2 (Z.ltb_lt x _)), (proj2 (Z.ltb_lt y _)) by lia.
  assert (0 ≤ Z.lxor x y) by (apply Z.lxor_nonneg; lia). split; [done|].
  destruct (Z.eq_dec (Z.lxor x y) 0) as [->|]; [lia|].
  apply Z.log2_lt_pow2 with (b := 8); [lia|].
  pose proof (Z.log2_lxor x y). assert (∀ z, 0 ≤ z < 256 → Z.log2 z < 8).
  { intros z ?. destruct (Z.eq_dec z 0) as [->|]; [done|]. apply Z.log2_lt_pow2; lia. }
  pose proof (H1 x Hx). pose proof (H1 y Hy). lia.
Qed.

Lemma byte_lor d x : is_byte d → is_byte x → is_byte (js_or d x) ∧ (js_or d x = 0 ↔ d = 0 ∧ x = 0).
Proof.
  unfold is_byte, js_or, to_int32. intros Hx Hy. rewrite !Z.mod_small by lia.
  rewrite (proj2 (Z.ltb_lt d _)), (proj2 (Z.ltb_lt x _)) by lia.
  split; [|apply Z.lor_eq_0_iff].
  assert (0 ≤ Z.lor d x) by (apply Z.lor_nonneg; lia). split; [done|].
  destruct (Z.eq_dec (Z.lor d x) 0) as [->|]; [lia|].
  apply Z.log2_lt_pow2 with (b := 8); [lia|].
  rewrite Z.log2_lor by lia.
  assert (H1 : ∀ z, 0 ≤ z < 256 → Z.log2 z < 8).
  { intros z ?. destruct (Z.eq_dec z 0) as [->|]; [done|]. apply Z.log2_lt_pow2; lia. }
  pose proof (H1 d Hx). pose proof (H1 x Hy). lia.
Qed.

Lemma ct_diff_zero a b d :
  is_byte d → Forall is_byte a → Forall is_byte b → length a = length b →
  ct_diff d a b = 0 ↔ d = 0 ∧ a = b.
Proof.
  intros Hd Ha. revert b d Hd. induction Ha as [|x a Hx _ IH]; intros [|y b] d Hd Hb Hlen;
    try done; [naive_solver|]. simplify_eq/=.
  apply list.Forall_cons in Hb as [Hy Hb].
  destruct (byte_lor d (js_xor x y)) as [Hr Hz]; [done|by apply byte_lxor_range|].
  rewrite IH, Hz, byte_lxor_zero by done. naive_solver.
Qed.

(** The constant-time comparison decides equality of byte strings. *)
Lemma constantTimeEquals_spec a b :
  Forall is_byte a → Forall is_byte b → constantTimeEquals a b = true ↔ a = b.
Proof.
  intros Ha Hb. unfold constantTimeEquals, blen.
  destruct (Z.eqb_spec (Z.of_nat (length a)) (Z.of_nat (length b))) as [E|E]; cbn [negb].
  - rewrite Z.eqb_eq, ct_diff_zero by (done || lia). naive_solver.
  - split; [done|]. intros ->. lia.
Qed.

Lemma encode_each_Ret es bs :
  encode_each es = Ret bs ↔ bs = es ∧ Forall (λ e : bytes, length e = 32%nat) es.
Proof.
  revert bs. induction es as [|e es IH]; intros bs; cbn [encode_each].
  { split; [by intros [= <-]|by intros [-> _]]. }
  rewrite js_bind_Ret, list.Forall_cons. split.
  - intros (b & [-> Hlen]%encodeBytes32_Ret & (r & [-> Hall]%IH & [= <-])%js_bind_Ret). done.
  - intros (-> & Hlen & Hall). exists e. split; [by apply encodeBytes32_Ret|].
    apply js_bind_Ret. exists es. split; [by apply IH|done].
Qed.

Lemma commitEntropy_Ret digest e p g h :
  commitEntropy digest e p g = Ret h ↔
  (length e = 32%nat ∧ length p = 32%nat ∧ length g = 32%nat)
  ∧ h = digest (le_bytes 2 TAG_ENTROPY_COMMITMENT ++ e ++ p ++ g).
Proof.
  unfold commitEntropy. rewrite js_bind_Ret. setoid_rewrite js_bind_Ret.
  setoid_rewrite js_bind_Ret. setoid_rewrite encodeBytes32_Ret.
  setoid_rewrite (domainHash_spec digest TAG_ENTROPY_COMMITMENT); [|done]. cbn [mjoin list_join].
  setoid_rewrite app_nil_r. naive_solver.
Qed.

Lemma commitEntropy_bytes digest e p g h :
  (∀ b, Forall is_byte (digest b)) → commitEntropy digest e p g = Ret h → Forall is_byte h.
Proof. intros Hd [_ ->]%commitEntropy_Ret. apply Hd. Qed.

Lemma combineEntropy_Ret digest es h :
  combineEntropy digest es = Ret h →
  es ≠ [] ∧ Forall (λ e : bytes, length e = 32%nat) es
  ∧ ∃ v, encodeVarint (Z.of_nat (length es)) = Ret v
         ∧ h = digest (le_bytes 2 TAG_DECK_COMMITMENT ++ v ++ mjoin es).
Proof.
  unfold combineEntropy. destruct (Z.eqb_spec (Z.of_nat (length es)) 0) as [|Hne]; [done|].
  intros (v & Hv & (ps & [-> Hes]%encode_each_Ret & H)%js_bind_Ret)%js_bind_Ret.
  rewrite domainHash_spec in H by done. injection H as <-.
  split_and!; [by intros ->|done|]. by exists v.
Qed.

Lemma encodeVarint_length n v :
  encodeVarint n = Ret v →
  0 ≤ n ∧ blen v = (if n <? 0xfd then 1 else if n <=? 0xffff then 3
                    else if n <=? 0xffffffff then 5 else 9).
Proof.
  unfold encodeVarint. destruct (negb _ || _) eqn:E; [done|].
  apply orb_false_iff in E as [_ E%Z.ltb_ge]. intros H. split; [done|]. revert H.
  repeat case_match; try done; by intros [= <-].
Qed.

Lemma mjoin_32 (es : list bytes) :
  Forall (λ e, length e = 32%nat) es → length (mjoin es) = (32 * length es)%nat.
Proof.
  induction 1 as [|e es He _ IH]; [done|].
  change (mjoin (e :: es)) with (e ++ mjoin es). rewrite length_app, He, IH. simpl. lia.
Qed.

Lemma mjoin_32_inj (es fs : list bytes) :
  Forall (λ e, length e = 32%nat) es → Forall (λ e, length e = 32%nat) fs →
  mjoin es = mjoin fs → es = fs.
Proof.
  intros He. revert fs. induction He as [|e es He Hes IH]; intros fs Hf E.
  - destruct fs as [|f fs]; [done|]. apply list.Forall_cons in Hf as [Hf _].
    apply (f_equal length) in E. change (mjoin (f :: fs)) with (f ++ mjoin fs) in E.
    rewrite length_app, Hf in E. done.
  - destruct fs as [|f fs].
    { apply (f_equal length) in E. change (mjoin (e :: es)) with (e ++ mjoin es) in E.
      rewrite length_app, He in E. done. }
    apply list.Forall_cons in Hf as [Hf Hfs].
    change (mjoin (e :: es)) with (e ++ mjoin es) in E.
    change (mjoin (f :: fs)) with (f ++ mjoin fs) in E.
    apply app_inj_1 in E as [-> E]; [|congruence]. f_equal. by apply IH.
Qed.

(** ** Properties *)

(** The bytes under an entropy commitment and under the combined entropy *)
Definition entropy_preimage (e p g : bytes) : bytes :=
  le_bytes 2 TAG_ENTROPY_COMMITMENT ++ e ++ p ++ g.

Definition combined_preimage (es : list bytes) : bytes :=
  le_bytes 2 TAG_DECK_COMMITMENT
    ++ match encodeVarint (Z.of_nat (length es)) with Ret v => v | _ => [] end ++ mjoin es.

Section properties.
Context (digest : bytes → bytes).
Context (digest_byte : ∀ b, Forall is_byte (digest b)).

(** An entropy commitment binds its player.  The committed entropy verifies, and any other
    reveal the check accepts against that commitment, for whatever player and game, is the
    same entropy of the same player in the same game, or it is a second preimage of the
    hash. *)
Theorem entropy_reveal_binding e p g c :
  commitEntropy digest e p g = Ret c →
  verifyEntropyReveal digest c e p g = Ret true
  ∧ ∀ e' p' g', verifyEntropyReveal digest c e' p' g' = Ret true →
      (e' = e ∧ p' = p ∧ g' = g)
      ∨ collides digest (entropy_preimage e p g) (entropy_preimage e' p' g').
Proof using digest_byte.
  intros Hc. pose proof (commitEntropy_bytes _ _ _ _ _ digest_byte Hc) as Hb. split.
  - unfold verifyEntropyReveal. rewrite Hc. cbn [mbind js_bind]. f_equal.
    by apply constantTimeEquals_spec.
  - intros e' p' g' (c' & Hc' & E)%js_bind_Ret.
    pose proof (commitEntropy_bytes _ _ _ _ _ digest_byte Hc') as Hb'.
    assert (c' = c) as -> by (apply constantTimeEquals_spec; [done..|congruence]).
    apply commitEntropy_Ret in Hc as [(He & Hp & Hg) ->].
    apply commitEntropy_Ret in Hc' as [(He' & Hp' & Hg') Hcc].
    destruct (decide (entropy_preimage e p g = entropy_preimage e' p' g')) as [Eq|Hne];
      [left|by right].
    unfold entropy_preimage in Eq. apply app_inv_head in Eq.
    apply app_inj_1 in Eq as [<- Eq]; [|congruence].
    by apply app_inj_1 in Eq as [<- <-]; [|congruence].
Qed.

(** The combined entropy binds every contribution.  Two lists of reveals that combine to the
    same seed are the same list in the same seat order, or their encodings are a collision
    of the hash. *)
Theorem combineEntropy_binding es fs h :
  combineEntropy digest es = Ret h → combineEntropy digest fs = Ret h →
  es = fs ∨ collides digest (combined_preimage es) (combined_preimage fs).
Proof.
  intros (_ & He & v & Hv & Eh)%combineEntropy_Ret (_ & Hf & w & Hw & Eh')%combineEntropy_Ret.
  destruct (decide (combined_preimage es = combined_preimage fs)) as [E|Hne].
  - left. unfold combined_preimage in E. rewrite Hv, Hw in E. apply app_inv_head in E.
    apply encodeVarint_length in Hv as [_ Hv], Hw as [_ Hw].
    assert (L : (length v + 32 * length es = length w + 32 * length fs)%nat).
    { rewrite <- !mjoin_32, <- !length_app by done. by rewrite E. }
    apply app_inj_1 in E as [_ E]; [by apply mjoin_32_inj|].
    unfold blen in *. repeat case_match; lia.
  - right. split; [done|]. unfold combined_preimage. rewrite Hv, Hw. congruence.
Qed.
End properties.

(** A toy hash on which the properties can be evaluated *)
Definition toy_digest (b : bytes) : bytes := le_bytes 32 (le_val b).

Lemma entropy_reveal_binding_witness :
  let e := replicate 32 7 in let p := replicate 32 1 in let g := replicate 32 2 in
  let c := toy_digest (entropy_preimage e p g) in
  verifyEntropyReveal toy_digest c e p g = Ret true
  ∧ ∀ e' p' g', verifyEntropyReveal toy_digest c e' p' g' = Ret true →
      (e' = e ∧ p' = p ∧ g' = g)
      ∨ collides toy_digest (entropy_preimage e p g) (entropy_preimage e' p' g').
Proof.
  apply (entropy_reveal_binding toy_digest); [|by vm_compute].
  intros b. apply le_bytes_byte.
Defined.

Lemma combineEntropy_binding_witness :
  let es := [replicate 32 1; replicate 32 2] in let fs := [replicate 32 1; replicate 32 3] in
  es = fs ∨ collides toy_digest (combined_preimage es) (combined_preimage fs).
Proof.
  apply (combineEntropy_binding toy_digest _ _
           (toy_digest (combined_preimage [replicate 32 1; replicate 32 2])));
    by vm_compute.
Defined.
