(* ===== verification/Shuffle.v ===== *)
(** * crypto-cards: the verifiable shuffle

    [packages/crypto-cards/src/shuffle.ts]: a byte stream from SHA-256 in counter mode,
    rejection sampling, and Fisher-Yates.  [draw_word] is the accept-or-retry test of
    [drawUniform], shared by the loop and by the statement that it is unbiased.  The
    [for (;;)] of [drawUniform] takes fuel; the counter of the stream throws after [2^32]
    blocks, so [2^35 + 1] iterations always suffice ([stream_words]). *)

From S2P Require Import Prelude Bytes Crypto.

Record Sha256CounterPrg := mkPrg {
  buf : bytes;
  offset : Z;
  counter : Z;
  seed : bytes
}.

Definition new_prg (seed : bytes) : js Sha256CounterPrg :=
  if negb (blen seed =? 32)
  then Throw ("Sha256CounterPrg: seed must be 32 bytes, got " +:+ pretty (blen seed))
  else Ret (mkPrg [] 0 0 seed).

(** Reading past the buffer gives [undefined], which the bitwise operators of the caller
    take for 0. *)
Definition nextByte (digest : bytes → bytes) (p : Sha256CounterPrg)
  : js (Z * Sha256CounterPrg) :=
  p ← (if blen (buf p) <=? offset p then
         c ← encodeU32LE (counter p);
         Ret (mkPrg (sha256 digest (concat [seed p; c])) 0 (js_add (counter p) 1) (seed p))
       else Ret p);
  let out := default 0 (buf p !! Z.to_nat (offset p)) in
  Ret (out, mkPrg (buf p) (js_add (offset p) 1) (counter p) (seed p)).

(** The test after a word is read.  [2^32 / bound] is at most [2^31], and no quotient that
    is not an integer is within a rounding error of one, so the division is exact under
    [Math.floor]. *)
Definition draw_word (max value : Z) : option Z :=
  let bound := js_add max 1 in
  let limit := js_mul (0x100000000 / bound) bound in
  if value <? limit then Some (value mod bound) else None.

Fixpoint draw_loop (digest : bytes → bytes) (fuel : nat) (max : Z) (p : Sha256CounterPrg)
  : js (Z * Sha256CounterPrg) :=
  match fuel with
  | O => OutOfFuel
  | S fuel =>
    '(b0, p) ← nextByte digest p;
    '(b1, p) ← nextByte digest p;
    '(b2, p) ← nextByte digest p;
    '(b3, p) ← nextByte digest p;
    let value :=
      js_ushr (js_or (js_or (js_or b0 (js_shl b1 8)) (js_shl b2 16)) (js_shl b3 24)) 0 in
    match draw_word max value with
    | Some v => Ret (v, p)
    | None => draw_loop digest fuel max p
    end
  end.

Definition drawUniform (digest : bytes → bytes) (fuel : nat) (max : Z)
    (p : Sha256CounterPrg) : js (Z * Sha256CounterPrg) :=
  if (max <? 0) || (0xffffffff <? max)
  then Throw ("drawUniform: max out of range: " +:+ pretty max)
  else if max =? 0 then Ret (0, p)
  else draw_loop digest fuel max p.

(** [tmp = deck[i]; deck[i] = deck[j]; deck[j] = tmp] with [i] and [j] in range *)
Definition swap (deck : list Z) (i j : nat) : list Z :=
  let tmp := default 0 (deck !! i) in
  let deck := <[i := default 0 (deck !! j)]> deck in
  <[j := tmp]> deck.

(** [for (let i = ...; i >= 1; i--)] *)
Fixpoint fisher_yates (digest : bytes → bytes) (fuel : nat) (i : nat) (deck : list Z)
    (p : Sha256CounterPrg) : js (list Z) :=
  match i with
  | O => Ret deck
  | S i' =>
    '(j, p) ← drawUniform digest fuel (Z.of_nat i) p;
    fisher_yates digest fuel i' (swap deck i (Z.to_nat j)) p
  end.

Definition shuffleCanonicalDeck (digest : bytes → bytes) (fuel : nat) (combined : bytes)
    (deckSize : Z) : js (list Z) :=
  if negb (deckSize =? 52) && negb (deckSize =? 54)
  then Throw ("shuffleCanonicalDeck: unsupported deckSize " +:+ pretty deckSize)
  else
    let deck := seqZ 0 deckSize in
    prg ← new_prg combined;
    fisher_yates digest fuel (Z.to_nat (deckSize - 1)) deck prg.

(** ** The byte stream

    Byte [k] of the stream is byte [k mod 32] of block [k / 32]. *)
Definition stream_byte (digest : bytes → bytes) (sd : bytes) (k : Z) : Z :=
  default 0 (digest (sd ++ le_bytes 4 (k / 32)) !! Z.to_nat (k mod 32)).

Definition stream_word (digest : bytes → bytes) (sd : bytes) (q : Z) : Z :=
  le_val (stream_byte digest sd <$> [4 * q; 4 * q + 1; 4 * q + 2; 4 * q + 3]).

(** The stream has [2^32] blocks of eight words. *)
Definition stream_words : Z := 2 ^ 35.

(** The generator has handed out the first [k] bytes. *)
Definition prg_at (digest : bytes → bytes) (sd : bytes) (p : Sha256CounterPrg) (k : Z) : Prop :=
  0 ≤ k ∧ seed p = sd
  ∧ ((k = 0 ∧ buf p = [] ∧ offset p = 0 ∧ counter p = 0)
     ∨ (1 ≤ offset p ≤ 32 ∧ 1 ≤ counter p ≤ 2 ^ 32 ∧ k = 32 * (counter p - 1) + offset p
        ∧ buf p = digest (sd ++ le_bytes 4 (counter p - 1)))).

Lemma js_shl_byte b n : is_byte b → 0 ≤ n ≤ 24 → js_shl b n mod 2 ^ 32 = b * 2 ^ n.
Proof.
  unfold is_byte. intros Hb Hn. rewrite js_shl_mod by lia. apply Z.mod_small.
  assert (2 ^ n ≤ 2 ^ 24) by (apply Z.pow_le_mono_r; lia).
  assert (0 < 2 ^ n) by (apply Z.pow_pos_nonneg; lia).
  assert (b * 2 ^ n ≤ 255 * 2 ^ 24) by (apply Z.mul_le_mono_nonneg; lia).
  split; [apply Z.mul_nonneg_nonneg|]; lia.
Qed.

Lemma word_value b0 b1 b2 b3 :
  is_byte b0 → is_byte b1 → is_byte b2 → is_byte b3 →
  js_ushr (js_or (js_or (js_or b0 (js_shl b1 8)) (js_shl b2 16)) (js_shl b3 24)) 0
  = le_val [b0; b1; b2; b3].
Proof.
  intros H0 H1 H2 H3. unfold js_ushr, to_uint32. rewrite Z.mod_0_l, Z.shiftr_0_r by done.
  rewrite !js_or_mod, !js_shl_byte by (done || lia). unfold is_byte in *.
  rewrite (Z.mod_small b0) by lia.
  rewrite <- (Z.shiftl_mul_pow2 b1 8), <- (Z.shiftl_mul_pow2 b2 16), <- (Z.shiftl_mul_pow2 b3 24) by lia.
  rewrite (lor_shift b0 b1 8), (lor_shift _ b2 16), (lor_shift _ b3 24) by lia.
  cbn [le_val]. lia.
Qed.

Section stream.
Context (digest : bytes → bytes).
Context (digest_length : ∀ b, length (digest b) = 32%nat).
Context (digest_byte : ∀ b, Forall is_byte (digest b)).

Lemma stream_byte_byte sd k : is_byte (stream_byte digest sd k).
Proof using digest_length digest_byte.
  unfold stream_byte. destruct (_ !! _) as [b|] eqn:E; simpl; [|by split].
  eapply Forall_lookup_1; [apply digest_byte|done].
Qed.

Lemma stream_word_range sd q : 0 ≤ stream_word digest sd q < 2 ^ 32.
Proof using digest_length digest_byte.
  change (2 ^ 32) with (256 ^ Z.of_nat 4). apply le_val_bound.
  rewrite Forall_fmap. apply list.Forall_forall. intros k _. apply stream_byte_byte.
Qed.

Lemma concat_pair (a b : bytes) : concat [a; b] = a ++ b.
Proof. unfold concat. cbn [mjoin list_join]. by rewrite app_nil_r. Qed.

(** One byte: the next one of the stream, or the counter runs out. *)
Lemma nextByte_spec sd p k :
  prg_at digest sd p k → k < 2 ^ 37 →
  ∃ p', nextByte digest p = Ret (stream_byte digest sd k, p') ∧ prg_at digest sd p' (k + 1).
Proof using digest_length.
  intros (Hk & <- & Hcase) Hlt. unfold nextByte, blen.
  destruct Hcase as [(-> & Hb & Ho & Hc)|(Ho & Hc & -> & Hb)]; rewrite Hb.
  - rewrite Ho, Hc. cbn [length Z.of_nat Z.leb Z.compare].
    rewrite encodeU32LE_spec by done. cbn [mbind js_bind].
    eexists. split; [cbn [buf offset]; reflexivity|].
    split; [done|]. split; [done|]. right. by rewrite concat_pair.
  - rewrite digest_length. destruct (Z.leb_spec (Z.of_nat 32) (offset p)) as [Hle|Hgt].
    + assert (offset p = 32) as Ho' by lia. rewrite encodeU32LE_spec by lia.
      cbn [mbind js_bind]. unfold js_add. rewrite !js_round_exact by lia.
      eexists. split; [cbn [buf offset]; f_equal; f_equal|].
      * unfold stream_byte, sha256. rewrite Ho', concat_pair.
        replace (32 * (counter p - 1) + 32) with (counter p * 32) by lia.
        by rewrite Z.div_mul, Z.mod_mul by lia.
      * split; [lia|]. split; [done|]. right. cbn [buf offset counter seed].
        change (js_round (0 + 1)) with 1.
        split_and!; try lia. unfold sha256. rewrite concat_pair. do 3 f_equal. lia.
    + cbn [mbind js_bind]. unfold js_add. rewrite js_round_exact by lia.
      eexists. split; [f_equal; f_equal|].
      * unfold stream_byte. rewrite Z.mul_comm, Z.div_add_l by lia.
        rewrite (Z.div_small (offset p)), Z.add_0_r by lia.
        rewrite Z.add_comm, Z.mod_add, Z.mod_small by lia. by rewrite Hb.
      * split; [lia|]. split; [done|]. right. cbn [buf offset counter seed].
        split_and!; try lia. done.
Qed.

Lemma nextByte_exhausted sd p :
  prg_at digest sd p (2 ^ 37) →
  nextByte digest p = Throw "encodeU32LE: out of range: 4294967296".
Proof using digest_length.
  intros (_ & <- & [(? & _)|(Ho & Hc & Hk & Hb)]); [done|]. unfold nextByte, blen.
  rewrite Hb, digest_length. assert (offset p = 32 ∧ counter p = 2 ^ 32) as [-> ->] by lia.
  reflexivity.
Qed.

(** One iteration of [draw_loop] reads one word. *)
Lemma draw_loop_step sd p q fuel max :
  prg_at digest sd p (4 * q) → q < stream_words →
  ∃ p', prg_at digest sd p' (4 * (q + 1)) ∧
    draw_loop digest (S fuel) max p
    = match draw_word max (stream_word digest sd q) with
      | Some v => Ret (v, p')
      | None => draw_loop digest fuel max p'
      end.
Proof using digest_length digest_byte.
  unfold stream_words. intros H0 Hq. cbn [draw_loop].
  destruct (nextByte_spec sd p (4 * q) H0) as (p1 & -> & H1); [lia|]. cbn [mbind js_bind].
  destruct (nextByte_spec sd p1 _ H1) as (p2 & -> & H2); [lia|]. cbn [mbind js_bind].
  destruct (nextByte_spec sd p2 _ H2) as (p3 & -> & H3); [lia|]. cbn [mbind js_bind].
  destruct (nextByte_spec sd p3 _ H3) as (p4 & -> & H4); [lia|]. cbn [mbind js_bind].
  exists p4. split; [by replace (4 * (q + 1)) with (4 * q + 1 + 1 + 1 + 1) by lia|].
  rewrite word_value by apply stream_byte_byte. unfold stream_word. cbn [fmap list_fmap].
  replace (4 * q + 1 + 1) with (4 * q + 2) by lia.
  replace (4 * q + 2 + 1) with (4 * q + 3) by lia. done.
Qed.

Lemma draw_loop_end sd p fuel max :
  prg_at digest sd p (4 * stream_words) →
  draw_loop digest (S fuel) max p = Throw "encodeU32LE: out of range: 4294967296".
Proof using digest_length.
  intros H. cbn [draw_loop]. by rewrite (nextByte_exhausted sd p H).
Qed.
End stream.
