(* ===== verification/ShuffleProps.v ===== *)
(** * crypto-cards: correctness of the shuffle

    [fy] is Fisher-Yates on a given list of choices, [draws] says which choices the word
    stream yields by rejection sampling.  [shuffleCanonicalDeck] is [fy] of those choices;
    it permutes the deck; and nothing in it favours a permutation: each one comes from
    exactly one list of choices, and each choice from equally many words. *)

From S2P Require Import Prelude Bytes Crypto Shuffle.

(** ** Fisher-Yates on given choices *)

Fixpoint fy (js : list nat) (deck : list Z) : list Z :=
  match js with
  | [] => deck
  | j :: js' => fy js' (swap deck (length js) j)
  end.

(** Choice lists the loop can make: the one for index [i] is at most [i]. *)
Fixpoint choices_ok (js : list nat) : Prop :=
  match js with
  | [] => True
  | j :: js' => (j ≤ length js)%nat ∧ choices_ok js'
  end.

Lemma length_swap deck i j : length (swap deck i j) = length deck.
Proof. unfold swap. by rewrite !length_insert. Qed.

Lemma swap_lookup_ne deck i j k : k ≠ i → k ≠ j → swap deck i j !! k = deck !! k.
Proof. intros. unfold swap. by rewrite !list_lookup_insert_ne. Qed.

Lemma swap_lookup_i deck i j x :
  deck !! j = Some x → (i < length deck)%nat → swap deck i j !! i = Some x.
Proof.
  intros Hj Hi. unfold swap. rewrite Hj. destruct (decide (i = j)) as [->|Hne].
  - rewrite Hj. rewrite list_lookup_insert_eq; [done|by rewrite length_insert].
  - rewrite list_lookup_insert_ne by done. by rewrite list_lookup_insert_eq.
Qed.

Lemma swap_perm deck i j :
  (i < length deck)%nat → (j < length deck)%nat → swap deck i j ≡ₚ deck.
Proof.
  intros Hi Hj. unfold swap.
  destruct (lookup_lt_is_Some_2 deck i Hi) as [x Hx], (lookup_lt_is_Some_2 deck j Hj) as [y Hy].
  rewrite Hx, Hy. cbn [default]. destruct (decide (i = j)) as [->|Hne].
  - simplify_eq. rewrite list_insert_insert_eq. by rewrite list_insert_id.
  - assert (Hs : <[i:=y]> deck !! j = Some y) by by rewrite list_lookup_insert_ne.
    apply Permutation_inj. split; [by rewrite !length_insert|].
    exists (λ k, if decide (k = i) then j else if decide (k = j) then i else k).
    split; [intros a b; repeat case_decide; congruence|].
    intros k. repeat case_decide; subst.
    + by rewrite list_lookup_insert_ne, list_lookup_insert_eq, Hy.
    + by rewrite list_lookup_insert_eq, Hx by by rewrite length_insert.
    + by rewrite !list_lookup_insert_ne.
Qed.

Lemma fy_perm js deck :
  choices_ok js → length deck = S (length js) → fy js deck ≡ₚ deck.
Proof.
  revert deck.
  assert (H : ∀ deck, choices_ok js → (length js < length deck)%nat → fy js deck ≡ₚ deck).
  { induction js as [|j js IH]; intros deck Hok Hlen; [done|]. cbn [fy].
    destruct Hok as [Hj Hok]. cbn [length] in *. rewrite IH; [|done|by rewrite length_swap; lia].
    apply swap_perm; lia. }
  intros deck Hok Hlen. apply H; [done|lia].
Qed.

(** The loop at lower indices leaves the positions above alone. *)
Lemma fy_lookup_high js deck k :
  choices_ok js → (length js < k)%nat → fy js deck !! k = deck !! k.
Proof.
  revert deck. induction js as [|j js IH]; intros deck Hok Hk; [done|]. cbn [fy].
  destruct Hok as [Hj Hok]. cbn [length] in *. rewrite IH by (done || lia).
  apply swap_lookup_ne; lia.
Qed.

Lemma fy_unique n deck t :
  NoDup deck → (n < length deck)%nat → t ≡ₚ deck →
  (∀ k, (n < k)%nat → t !! k = deck !! k) →
  exists! js, length js = n ∧ choices_ok js ∧ fy js deck = t.
Proof.
  revert deck. induction n as [|n IH]; intros deck Hnd Hn Hp Hhigh.
  - exists []. split.
    + split_and!; [done..|]. cbn [fy]. destruct deck as [|x deck]; [simpl in Hn; lia|].
      destruct t as [|y t]; [by apply Permutation_nil in Hp|].
      assert (t = deck) as ->.
      { apply list_eq. intros k. apply (Hhigh (S k)). lia. }
      by apply Permutation_app_inv_r with (l := deck) (l1 := [y]) (l2 := [x]),
        Permutation_singleton_l in Hp as [= ->].
    + by intros [|] [? _].
  - assert (Hlt : (S n < length t)%nat) by by rewrite Hp.
    destruct (lookup_lt_is_Some_2 t (S n) Hlt) as [x Hx].
    assert (Hin : x ∈ deck) by (rewrite <- Hp; by eapply list_elem_of_lookup_2).
    apply list_elem_of_lookup_1 in Hin as [j Hj].
    assert (Hnt : NoDup t) by by rewrite Hp.
    assert (Hle : (j ≤ S n)%nat).
    { destruct (Nat.le_gt_cases j (S n)) as [|Hgt]; [done|].
      rewrite <- Hhigh in Hj by done. by rewrite (NoDup_lookup t j (S n) x). }
    assert (Hjl : (j < length deck)%nat) by by eapply lookup_lt_Some.
    pose proof (swap_perm deck (S n) j Hn Hjl) as Hsp.
    destruct (IH (swap deck (S n) j)) as (js & (Hjs & Hok & Hfy) & Hun).
    + by rewrite Hsp.
    + rewrite length_swap. lia.
    + by rewrite Hsp.
    + intros k Hk. destruct (decide (k = S n)) as [->|].
      * by rewrite Hx, (swap_lookup_i _ _ _ x).
      * rewrite swap_lookup_ne by lia. apply Hhigh. lia.
    + exists (j :: js). split.
      * split_and!; [by cbn [length]; rewrite Hjs|..]; cbn [choices_ok fy length]; rewrite Hjs;
          [done|done].
      * intros [|j' js'] (Hlen & Hok' & Hfy'); [done|]. cbn [choices_ok fy length] in *.
        destruct Hok' as [Hj' Hok']. assert (Hl : length js' = n) by lia.
        assert (E : t !! S n = deck !! j').
        { rewrite <- Hfy', Hl, fy_lookup_high by (done || lia).
          destruct (lookup_lt_is_Some_2 deck j') as [y Hy]; [lia|].
          rewrite Hy. by apply swap_lookup_i. }
        rewrite Hx in E. assert (j' = j) as -> by by eapply (NoDup_lookup deck).
        rewrite Hl in Hfy'. f_equal. by apply Hun.
Qed.

(** ** Choices drawn from the word stream

    [draws R word q js]: from word [q] on, rejection sampling makes the choices [js],
    looking at no more than [R] words for each. *)
Inductive draws (R : Z) (word : Z → Z) : Z → list nat → Prop :=
  | draws_nil q : draws R word q []
  | draws_cons q r j js :
      q ≤ r < q + R → r < stream_words →
      (∀ k, q ≤ k < r → draw_word (Z.of_nat (S (length js))) (word k) = None) →
      draw_word (Z.of_nat (S (length js))) (word r) = Some (Z.of_nat j) →
      draws R word (r + 1) js →
      draws R word q (j :: js).

Lemma draw_word_spec max w :
  0 ≤ max ≤ 0xffffffff →
  draw_word max w
  = if w <? 2 ^ 32 / (max + 1) * (max + 1) then Some (w mod (max + 1)) else None.
Proof.
  intros Hm. unfold draw_word, js_add. rewrite js_round_exact by lia. unfold js_mul.
  assert (2 ^ 32 / (max + 1) * (max + 1) ≤ 2 ^ 32).
  { rewrite Z.mul_comm. apply Z.mul_div_le. lia. }
  assert (0 ≤ 2 ^ 32 / (max + 1)) by (apply Z.div_pos; lia).
  rewrite js_round_exact; [done|]. change 0x100000000 with (2 ^ 32).
  rewrite Z.abs_eq by (apply Z.mul_nonneg_nonneg; lia). lia.
Qed.

(** Every value of [0..max] has the same number of accepted words, [2^32 / (max + 1)]. *)
Lemma draw_word_fibre max j w :
  0 ≤ max ≤ 0xffffffff → 0 ≤ w →
  draw_word max w = Some j ↔
  0 ≤ j ≤ max ∧ ∃ k, 0 ≤ k < 2 ^ 32 / (max + 1) ∧ w = k * (max + 1) + j.
Proof.
  intros Hm Hw. rewrite draw_word_spec by done.
  set (b := max + 1). assert (Hb : 0 < b) by lia. set (n := 2 ^ 32 / b).
  destruct (Z.ltb_spec w (n * b)) as [Hlt|Hge].
  - split.
    + intros [= <-]. pose proof (Z.mod_pos_bound w b Hb). split; [lia|].
      exists (w / b). rewrite (Z.mul_comm (w / b)). split.
      * split; [by apply Z.div_pos|]. apply Z.div_lt_upper_bound; [done|]. lia.
      * by apply Z.div_mod; lia.
    + intros (Hj & k & Hk & ->). f_equal.
      by rewrite Z.add_comm, Z.mod_add, Z.mod_small by lia.
  - split; [done|]. intros (Hj & k & Hk & ->). exfalso.
    assert ((k + 1) * b ≤ n * b) by (apply Z.mul_le_mono_nonneg_r; lia). lia.
Qed.

Lemma draw_word_small max w :
  0 ≤ max ≤ 53 → 0 ≤ w < 2 ^ 32 - 54 → ∃ j, draw_word max w = Some (Z.of_nat j).
Proof.
  intros Hm Hw. rewrite draw_word_spec by lia.
  pose proof (Z.div_mod (2 ^ 32) (max + 1)) as Hd.
  pose proof (Z.mod_pos_bound (2 ^ 32) (max + 1)). pose proof (Z.mod_pos_bound w (max + 1)).
  rewrite (proj2 (Z.ltb_lt w _)) by lia.
  exists (Z.to_nat (w mod (max + 1))). by rewrite Z2Nat.id by lia.
Qed.

Lemma draws_ok R word q js :
  (∀ k, 0 ≤ word k) → Z.of_nat (length js) ≤ 0xffffffff → draws R word q js → choices_ok js.
Proof.
  intros Hw. induction 2 as [|q r j js Hr Hrs Hno Hj _ IH]; [done|]. cbn [length] in *.
  split; [|apply IH; lia]. apply draw_word_fibre in Hj; [|lia|done]. cbn [length]. lia.
Qed.

Lemma draws_det R word q js js' :
  length js = length js' → draws R word q js → draws R word q js' → js = js'.
Proof.
  intros Hlen H. revert js' Hlen. induction H as [|q r j js Hr Hrs Hno Hj H IH];
    intros js' Hlen H'; inversion H' as [|? r' j' js2 Hr' Hrs' Hno' Hj' H2]; subst; try done.
  injection Hlen as Hlen. rewrite <- Hlen in *.
  assert (r = r') as <-.
  { destruct (Z.lt_trichotomy r r') as [?|[->|?]]; [|done|].
    - rewrite Hno' in Hj by lia. done.
    - rewrite Hno in Hj' by lia. done. }
  rewrite Hj in Hj'. f_equal; [|by apply IH]. injection Hj' as ?. lia.
Qed.

Lemma draw_loop_range digest fuel max p v p' :
  0 ≤ max ≤ 0xffffffff → draw_loop digest fuel max p = Ret (v, p') → 0 ≤ v ≤ max.
Proof.
  intros Hm. revert p. induction fuel as [|fuel IH]; intros p; [done|]. cbn [draw_loop].
  intros ([b0 p0] & _ & ([b1 p1] & _ & ([b2 p2] & _ & ([b3 p3] & _ & H)
    %js_bind_Ret)%js_bind_Ret)%js_bind_Ret)%js_bind_Ret. revert H.
  match goal with |- context [draw_word max ?w] => set (w0 := w) end.
  assert (0 ≤ w0).
  { subst w0. unfold js_ushr, to_uint32. apply Z.shiftr_nonneg.
    by apply (Z.mod_pos_bound _ (2 ^ 32)). }
  destruct (draw_word max w0) as [x|] eqn:E; [|apply IH].
  intros [= <- _]. by apply draw_word_fibre in E as [? _].
Qed.

Lemma fisher_yates_perm digest fuel i deck p d :
  (i < length deck)%nat → (i ≤ 53)%nat →
  fisher_yates digest fuel i deck p = Ret d → d ≡ₚ deck.
Proof.
  revert deck p. induction i as [|i IH]; intros deck p Hi H53; [by intros [= ->]|].
  cbn [fisher_yates]. unfold drawUniform.
  rewrite (proj2 (Z.ltb_ge _ 0)), (proj2 (Z.ltb_ge 0xffffffff _)), (proj2 (Z.eqb_neq _ 0))
    by lia. cbn [orb]. intros ([j p'] & Hj & Hd)%js_bind_Ret.
  apply draw_loop_range in Hj; [|lia]. apply IH in Hd; [|rewrite length_swap; lia|lia].
  rewrite Hd. apply swap_perm; lia.
Qed.

(** Whatever the fuel, a deck that is returned is a permutation of the ordinals. *)
Lemma shuffle_perm digest fuel combined n d :
  shuffleCanonicalDeck digest fuel combined n = Ret d → (n = 52 ∨ n = 54) ∧ d ≡ₚ seqZ 0 n.
Proof.
  unfold shuffleCanonicalDeck. destruct (negb (n =? 52) && negb (n =? 54)) eqn:E; [done|].
  assert (Hn : n = 52 ∨ n = 54).
  { destruct (Z.eqb_spec n 52), (Z.eqb_spec n 54); auto; done. }
  intros (p & _ & H)%js_bind_Ret. split; [done|].
  apply fisher_yates_perm in H; [done|rewrite length_seqZ; lia|lia].
Qed.

(** ** The loops follow the stream *)

Definition counter_error : string := "encodeU32LE: out of range: 4294967296".

Section shuffle.
Context (digest : bytes → bytes).
Context (digest_length : ∀ b, length (digest b) = 32%nat).
Context (digest_byte : ∀ b, Forall is_byte (digest b)).
Local Abbreviation word := (stream_word digest).

Lemma draw_loop_found sd p q r max v fuel :
  prg_at digest sd p (4 * q) → q ≤ r < stream_words → r - q < Z.of_nat fuel →
  (∀ k, q ≤ k < r → draw_word max (word sd k) = None) →
  draw_word max (word sd r) = Some v →
  ∃ p', draw_loop digest fuel max p = Ret (v, p') ∧ prg_at digest sd p' (4 * (r + 1)).
Proof using digest_length digest_byte.
  revert p q. induction fuel as [|fuel IH]; intros p q Hp Hr Hf Hno Hv; [lia|].
  destruct (draw_loop_step digest digest_length digest_byte sd p q fuel max Hp)
    as (p' & Hp' & ->); [lia|].
  destruct (Z.eq_dec q r) as [->|Hne].
  - rewrite Hv. by exists p'.
  - rewrite Hno by lia. apply (IH p' (q + 1)); [done|lia|lia| |done].
    intros k Hk. apply Hno. lia.
Qed.

Lemma draw_loop_none sd p q max fuel :
  prg_at digest sd p (4 * q) → q ≤ stream_words → stream_words - q < Z.of_nat fuel →
  (∀ k, q ≤ k < stream_words → draw_word max (word sd k) = None) →
  draw_loop digest fuel max p = Throw counter_error.
Proof using digest_length digest_byte.
  revert p q. induction fuel as [|fuel IH]; intros p q Hp Hq Hf Hno; [lia|].
  destruct (Z.eq_dec q stream_words) as [->|Hne].
  { by apply (draw_loop_end digest digest_length sd). }
  destruct (draw_loop_step digest digest_length digest_byte sd p q fuel max Hp)
    as (p' & Hp' & ->); [lia|].
  rewrite Hno by lia. apply (IH p' (q + 1)); [done|lia|lia|].
  intros k Hk. apply Hno. lia.
Qed.

(** A predicate on a range of integers has a first witness or none. *)
Lemma first_or_none (P : Z → bool) lo hi :
  lo ≤ hi →
  (∃ r, lo ≤ r < hi ∧ P r = true ∧ ∀ k, lo ≤ k < r → P k = false)
  ∨ ∀ k, lo ≤ k < hi → P k = false.
Proof.
  intros Hle. pattern hi. apply Zlt_lower_bound_ind with (z := lo); [|done].
  clear hi Hle. intros hi IH Hle. destruct (Z.eq_dec hi lo) as [->|Hne]; [right; lia|].
  destruct (IH (hi - 1)) as [(r & Hr & HP & Hno)|Hno]; [lia| |].
  - left. exists r. split; [lia|done].
  - destruct (P (hi - 1)) eqn:E.
    + left. exists (hi - 1). split_and!; [lia|lia|done|done].
    + right. intros k Hk. destruct (Z.eq_dec k (hi - 1)) as [->|]; [done|]. apply Hno. lia.
Qed.

Definition rejected (max w : Z) : bool := bool_decide (draw_word max w = None).

Lemma first_accepted max sd lo hi :
  0 ≤ max ≤ 0xffffffff → lo ≤ hi →
  (∃ r j, lo ≤ r < hi ∧ draw_word max (word sd r) = Some (Z.of_nat j)
          ∧ ∀ k, lo ≤ k < r → draw_word max (word sd k) = None)
  ∨ ∀ k, lo ≤ k < hi → draw_word max (word sd k) = None.
Proof using digest_length digest_byte.
  intros Hm Hle.
  destruct (first_or_none (λ k, negb (rejected max (word sd k))) lo hi Hle)
    as [(r & Hr & HP & Hno)|Hno]; cbv beta in *.
  - left. unfold rejected in *. apply negb_true_iff, bool_decide_eq_false in HP.
    destruct (draw_word max (word sd r)) as [v|] eqn:E; [|done].
    assert (Hw : 0 ≤ word sd r) by by apply stream_word_range.
    pose proof (proj1 (draw_word_fibre max v _ Hm Hw) E) as [Hv _].
    exists r, (Z.to_nat v). rewrite Z2Nat.id by lia. split_and!; [lia|lia|done|].
    intros k Hk. by apply (bool_decide_eq_true_1 _), negb_false_iff, Hno.
  - right. intros k Hk. by apply (bool_decide_eq_true_1 _), negb_false_iff, Hno.
Qed.

Lemma fisher_yates_S fuel i deck p :
  (S i ≤ 53)%nat →
  fisher_yates digest fuel (S i) deck p
  = '(j, p) ← draw_loop digest fuel (Z.of_nat (S i)) p;
    fisher_yates digest fuel i (swap deck (S i) (Z.to_nat j)) p.
Proof.
  intros H. cbn [fisher_yates]. unfold drawUniform.
  rewrite (proj2 (Z.ltb_ge _ 0)), (proj2 (Z.ltb_ge 0xffffffff _)), (proj2 (Z.eqb_neq _ 0))
    by lia. done.
Qed.

(** The loop with enough fuel performs the drawn choices. *)
Lemma fisher_yates_draws R sd fuel q js :
  draws R (word sd) q js → (length js ≤ 53)%nat → R ≤ Z.of_nat fuel →
  ∀ deck p, prg_at digest sd p (4 * q) →
  fisher_yates digest fuel (length js) deck p = Ret (fy js deck).
Proof using digest_length digest_byte.
  induction 1 as [|q r j js Hr Hrs Hno Hj _ IH]; intros Hlen Hf deck p Hp; [done|].
  cbn [length] in *. rewrite fisher_yates_S by lia.
  destruct (draw_loop_found sd p q r (Z.of_nat (S (length js))) (Z.of_nat j) fuel Hp)
    as (p' & -> & Hp'); [lia|lia|done|done|].
  cbn [mbind js_bind]. rewrite Nat2Z.id. apply IH; [lia|done|done].
Qed.

(** With fuel for the whole stream: the choices are drawn, or the counter runs out. *)
Lemma fisher_yates_total sd fuel q i deck p :
  prg_at digest sd p (4 * q) → q ≤ stream_words → (i ≤ 53)%nat → 0 ≤ q →
  stream_words < Z.of_nat fuel →
  (∃ js, length js = i ∧ draws stream_words (word sd) q js)
  ∨ fisher_yates digest fuel i deck p = Throw counter_error.
Proof using digest_length digest_byte.
  revert q deck p. induction i as [|i IH]; intros q deck p Hp Hq Hi H0 Hf.
  { left. exists []. split; [done|constructor]. }
  destruct (first_accepted (Z.of_nat (S i)) sd q stream_words) as [(r & j & Hr & Hj & Hno)|Hno];
    [lia|done| |].
  - rewrite fisher_yates_S by lia.
    destruct (draw_loop_found sd p q r (Z.of_nat (S i)) (Z.of_nat j) fuel Hp)
      as (p' & -> & Hp'); [lia|lia|done|done|]. cbn [mbind js_bind].
    destruct (IH (r + 1) (swap deck (S i) (Z.to_nat (Z.of_nat j))) p')
      as [(js & <- & Hd)|]; [done|lia|lia|lia|done|left|by right].
    exists (j :: js). split; [done|]. by apply draws_cons with r; [lia|lia|..].
  - right. rewrite fisher_yates_S, (draw_loop_none sd p q) by (done || lia). done.
Qed.

(** Accepted words often enough give the choices with a small gap. *)
Lemma draws_exist R sd i q :
  (i ≤ 53)%nat → 0 ≤ q → 0 < R → q + R * Z.of_nat i ≤ stream_words →
  (∀ p, q ≤ p < q + R * Z.of_nat i → ∃ k, p ≤ k < p + R ∧ word sd k < 2 ^ 32 - 54) →
  ∃ js, length js = i ∧ draws R (word sd) q js.
Proof using digest_length digest_byte.
  revert q. induction i as [|i IH]; intros q Hi Hq HR Hend Hlive.
  { exists []. split; [done|constructor]. }
  destruct (Hlive q) as (k & Hk & Hwk); [lia|].
  destruct (first_accepted (Z.of_nat (S i)) sd q (q + R)) as [(r & j & Hr & Hj & Hno)|Hno];
    [lia|lia| |].
  - destruct (IH (r + 1)) as (js & <- & Hd); [lia|lia|done|lia| |].
    { intros p Hp. apply Hlive. lia. }
    exists (j :: js). split; [done|]. apply draws_cons with r; [lia|lia|done|done|done].
  - exfalso. destruct (draw_word_small (Z.of_nat (S i)) (word sd k)) as [j Hj]; [lia| |].
    + pose proof (stream_word_range digest digest_length digest_byte sd k). lia.
    + rewrite Hno in Hj by lia. done.
Qed.

Lemma new_prg_at sd p : new_prg sd = Ret p → length sd = 32%nat ∧ prg_at digest sd p (4 * 0).
Proof.
  unfold new_prg, blen. destruct (Z.eqb_spec (Z.of_nat (length sd)) 32) as [E|]; [|done].
  intros [= <-]. split; [lia|]. split; [lia|]. split; [done|]. by left.
Qed.

(** On a good deck size and seed the shuffle is its loop. *)
Lemma shuffle_loop fuel combined n :
  length combined = 32%nat → n = 52 ∨ n = 54 →
  ∃ p, prg_at digest combined p (4 * 0)
    ∧ shuffleCanonicalDeck digest fuel combined n
      = fisher_yates digest fuel (Z.to_nat (n - 1)) (seqZ 0 n) p.
Proof.
  intros Hlen Hn. exists (mkPrg [] 0 0 combined).
  assert (Hp : new_prg combined = Ret (mkPrg [] 0 0 combined)).
  { unfold new_prg, blen. by rewrite Hlen. }
  split; [by apply new_prg_at|]. unfold shuffleCanonicalDeck.
  destruct Hn as [-> | ->]; cbn [Z.eqb negb andb Pos.eqb]; by rewrite Hp.
Qed.

Lemma deck_indices n : n = 52 ∨ n = 54 →
  (Z.to_nat (n - 1) ≤ 53)%nat ∧ length (seqZ 0 n) = S (Z.to_nat (n - 1)).
Proof. intros Hn. rewrite length_seqZ. lia. Qed.

(** C14: what the shuffle computes.  On a 32-byte seed and a deck of 52 or 54 cards, given fuel for
    the whole stream, the shuffle returns a deck exactly when the word stream yields the
    choices, and then it is Fisher-Yates on those choices, a permutation of the ordinals;
    the only other outcome is the error of the exhausted counter.  Any other seed length or
    deck size throws. *)
Theorem shuffle_functional fuel combined n :
  stream_words < Z.of_nat fuel →
  let r := shuffleCanonicalDeck digest fuel combined n in
  if bool_decide (length combined = 32%nat ∧ (n = 52 ∨ n = 54)) then
    (r = Throw counter_error ∨ is_ret r = true)
    ∧ ∀ d, r = Ret d ↔
        d ≡ₚ seqZ 0 n
        ∧ ∃ js, length js = Z.to_nat (n - 1) ∧ draws stream_words (word combined) 0 js
                ∧ d = fy js (seqZ 0 n)
  else is_throw r = true.
Proof using digest_length digest_byte.
  intros Hf r. subst r. case_bool_decide as Hc.
  - destruct Hc as [Hlen Hn]. destruct (deck_indices n Hn) as [Hi Hl].
    destruct (shuffle_loop fuel combined n Hlen Hn) as (p & Hp & ->).
    set (i := Z.to_nat (n - 1)) in *.
    assert (Hd : ∀ js, length js = i → draws stream_words (word combined) 0 js →
              fisher_yates digest fuel i (seqZ 0 n) p = Ret (fy js (seqZ 0 n))
              ∧ fy js (seqZ 0 n) ≡ₚ seqZ 0 n).
    { intros js Hjs Hd. rewrite <- Hjs. split.
      - eapply fisher_yates_draws; [done|lia|lia|done].
      - apply fy_perm; [|by rewrite Hl, Hjs]. eapply draws_ok; [|lia|done].
        intros k. by apply stream_word_range. }
    destruct (fisher_yates_total combined fuel 0 i (seqZ 0 n) p Hp)
      as [(js & Hjs & Hdr)|E]; [done|done|done|done| |].
    + destruct (Hd js Hjs Hdr) as [-> Hperm]. split; [by right|]. intros d. split.
      * intros [= <-]. split; [done|]. by exists js.
      * intros (_ & js' & Hjs' & Hdr' & ->). f_equal.
        by rewrite (draws_det _ _ _ js js') by (congruence || done).
    + rewrite E. split; [by left|]. intros d. split; [done|].
      intros (_ & js & Hjs & Hdr & _). destruct (Hd js Hjs Hdr) as [E' _]. congruence.
  - unfold shuffleCanonicalDeck. destruct (Z.eqb_spec n 52) as [H52|H52];
      destruct (Z.eqb_spec n 54) as [H54|H54]; cbn [negb andb]; try done;
      unfold new_prg, blen;
      (destruct (Z.eqb_spec (Z.of_nat (length combined)) 32) as [E|]; [|done]);
      exfalso; apply Hc; lia.
Qed.

(** C15: the shuffle returns.  If among any [R] consecutive words of the part of the stream it
    reads one is below [2^32 - 54], fuel [R] per draw is enough: the shuffle returns a
    permutation of the ordinals. *)
Theorem shuffle_returns R fuel combined n :
  length combined = 32%nat → n = 52 ∨ n = 54 →
  0 < R ≤ 2 ^ 29 → R ≤ Z.of_nat fuel →
  (∀ q, 0 ≤ q < 53 * R → ∃ k, q ≤ k < q + R ∧ word combined k < 2 ^ 32 - 54) →
  ∃ d, shuffleCanonicalDeck digest fuel combined n = Ret d ∧ d ≡ₚ seqZ 0 n ∧ NoDup d.
Proof using digest_length digest_byte.
  intros Hlen Hn HR Hf Hlive. destruct (deck_indices n Hn) as [Hi Hl].
  destruct (draws_exist R combined (Z.to_nat (n - 1)) 0) as (js & Hjs & Hdr);
    [done|done|lia|unfold stream_words; lia|intros q Hq; apply Hlive; lia|].
  destruct (shuffle_loop fuel combined n Hlen Hn) as (p & Hp & ->).
  exists (fy js (seqZ 0 n)). rewrite <- Hjs.
  assert (Hperm : fy js (seqZ 0 n) ≡ₚ seqZ 0 n).
  { apply fy_perm; [|by rewrite Hl, Hjs]. eapply draws_ok; [|lia|done].
    intros k. by apply stream_word_range. }
  split_and!; [|done|rewrite Hperm; apply NoDup_seqZ].
  eapply fisher_yates_draws; [done|lia|lia|done].
Qed.
End shuffle.

(** C16: the shuffle is unbiased.  Every permutation of the deck comes from exactly one list of
    choices, and the choice [j] of index [i] comes from exactly [2^32 / (i + 1)] words, the
    same number for every [j] of [0..i]; the words above them are rejected. *)
Theorem shuffle_unbiased n :
  n = 52 ∨ n = 54 →
  (∀ t, t ≡ₚ seqZ 0 n →
     exists! js, length js = Z.to_nat (n - 1) ∧ choices_ok js ∧ fy js (seqZ 0 n) = t)
  ∧ ∀ i w j, 0 < i < n → 0 ≤ w < 2 ^ 32 →
      draw_word i w = Some j ↔
      0 ≤ j ≤ i ∧ ∃ k, 0 ≤ k < 2 ^ 32 / (i + 1) ∧ w = k * (i + 1) + j.
Proof.
  intros Hn. destruct (deck_indices n Hn) as [Hi Hl]. split.
  - intros t Ht. apply fy_unique; [apply NoDup_seqZ|lia|done|]. intros k Hk.
    rewrite !lookup_ge_None_2; [done|lia|]. rewrite Ht. lia.
  - intros i w j Hi' Hw. apply draw_word_fibre; lia.
Qed.

(** ** At a concrete seed *)

Definition zero_digest (_ : bytes) : bytes := replicate 32 0.

Lemma zero_digest_word sd q : stream_word zero_digest sd q = 0.
Proof.
  unfold stream_word, stream_byte, zero_digest.
  assert (E : ∀ k, default 0 (replicate 32 0 !! k) = 0).
  { intros k. destruct (replicate 32 0 !! k) eqn:E; [|done].
    by apply lookup_replicate in E as [-> _]. }
  cbn [fmap list_fmap]. by rewrite !E.
Qed.

Lemma zero_digest_byte b : Forall is_byte (zero_digest b).
Proof. apply Forall_replicate. by split. Qed.

(** All choices 0: the deck is rotated. *)
Lemma shuffle_returns_witness :
  (∃ d, shuffleCanonicalDeck zero_digest 1 (replicate 32 7) 52 = Ret d
        ∧ d ≡ₚ seqZ 0 52 ∧ NoDup d)
  ∧ shuffleCanonicalDeck zero_digest 1 (replicate 32 7) 52 = Ret (seqZ 1 51 ++ [0]).
Proof.
  split; [|by vm_compute].
  apply (shuffle_returns zero_digest) with (R := 1);
    [done|apply zero_digest_byte|done|by left|done|done|].
  intros q Hq. exists q. split; [lia|]. by rewrite zero_digest_word.
Defined.

Lemma shuffle_functional_witness :
  ∃ fuel, let r := shuffleCanonicalDeck zero_digest fuel (replicate 32 7) 52 in
  r = Throw counter_error ∨ is_ret r = true.
Proof.
  exists (Z.to_nat (2 ^ 35 + 1)).
  assert (Hf : stream_words < Z.of_nat (Z.to_nat (2 ^ 35 + 1))).
  { rewrite Z2Nat.id; unfold stream_words; lia. }
  pose proof (shuffle_functional zero_digest (λ _, eq_refl) zero_digest_byte _
                (replicate 32 7) 52 Hf) as H. cbv zeta in H.
  rewrite bool_decide_eq_true_2 in H by by split; [|left]. apply H.
Defined.

Lemma shuffle_unbiased_witness :
  (exists! js, length js = 51%nat ∧ choices_ok js ∧ fy js (seqZ 0 52) = seqZ 1 51 ++ [0])
  ∧ draw_word 51 4294967248 = None ∧ draw_word 51 4294967247 = Some 51.
Proof.
  split; [|by vm_compute].
  apply (proj1 (shuffle_unbiased 52 (or_introl eq_refl))).
  apply (bool_decide_unpack _). by vm_compute.
Defined.
