(* ===== verification/Deck.v ===== *)
(** * crypto-cards: deck commitments and reveal proofs

    [packages/crypto-cards/src/deck.ts].  The records share names with those of
    protocol-types; clients qualify them with [Deck]. *)

From S2P Require Import Prelude Bytes Crypto Shuffle ShuffleProps.

Record CardCommitment := mkCardCommitment {
  position : Z;
  ordinal : Z;
  cardNonce : bytes;
  deckNonce : bytes;
  commitment : bytes
}.

Record DeckCommitment := mkDeckCommitment {
  combinedEntropy : bytes;
  shuffleAlgorithmVersion : Z;
  shuffledDeck : list Z;
  perPosition : list CardCommitment;
  deckCommitmentHash : bytes
}.

Record RevealProof := mkRevealProof {
  proof_position : Z;
  proof_ordinal : Z;
  proof_cardNonce : bytes;
  proof_deckNonce : bytes
}.

Definition deriveDeckNonce (digest : bytes → bytes) (combined : bytes) : js bytes :=
  t ← encodeU16LE TAG_DECK_COMMITMENT;
  Ret (sha256 digest (concat [t; combined; text_encode "deck-nonce"])).

Definition deriveCardNonce (digest : bytes → bytes) (combined : bytes) (position : Z)
  : js bytes :=
  t ← encodeU16LE TAG_CARD;
  n ← encodeU32LE position;
  Ret (sha256 digest (concat [t; combined; text_encode "card-nonce"; n])).

Definition commitCard (digest : bytes → bytes) (ordinal : Z) (cardNonce deckNonce : bytes)
  : js bytes :=
  if (ordinal <? 0) || (53 <? ordinal)
  then Throw ("commitCard: ordinal out of 0..53 range: " +:+ pretty ordinal)
  else
    o ← encodeU8 ordinal;
    c ← encodeBytes32 cardNonce;
    d ← encodeBytes32 deckNonce;
    domainHash digest TAG_CARD [o; c; d].

(** The loop over the positions [i], [i + 1], ... of the shuffled deck *)
Fixpoint commit_positions (digest : bytes → bytes) (combined deckNonce : bytes) (i : Z)
    (shuffled : list Z) : js (list CardCommitment) :=
  match shuffled with
  | [] => Ret []
  | ordinal :: shuffled =>
    cardNonce ← deriveCardNonce digest combined i;
    commitment ← commitCard digest ordinal cardNonce deckNonce;
    rest ← commit_positions digest combined deckNonce (i + 1) shuffled;
    Ret (mkCardCommitment i ordinal cardNonce deckNonce commitment :: rest)
  end.

Definition buildDeckCommitment (digest : bytes → bytes) (fuel : nat) (combined : bytes)
    (deckSize version : Z) : js DeckCommitment :=
  if negb (version =? 1)
  then Throw ("buildDeckCommitment: unsupported shuffle algorithm version " +:+ pretty version)
  else
    shuffled ← shuffleCanonicalDeck digest fuel combined deckSize;
    deckNonce ← deriveDeckNonce digest combined;
    perPosition ← commit_positions digest combined deckNonce 0 shuffled;
    v ← encodeU8 version;
    hash ← domainHash digest TAG_DECK_COMMITMENT (v :: (commitment <$> perPosition));
    Ret (mkDeckCommitment combined version shuffled perPosition hash).

Definition verifyRevealProof (digest : bytes → bytes) (expectedCommitment : bytes)
    (proof : RevealProof) : js bool :=
  recomputed ← commitCard digest (proof_ordinal proof) (proof_cardNonce proof)
                 (proof_deckNonce proof);
  Ret (constantTimeEquals recomputed expectedCommitment).

(** ** Lemmas *)

(** The bytes under a card commitment and under the deck commitment *)
Definition card_preimage (ordinal : Z) (cardNonce deckNonce : bytes) : bytes :=
  le_bytes 2 TAG_CARD ++ ordinal :: cardNonce ++ deckNonce.

Definition deck_preimage (d : DeckCommitment) : bytes :=
  le_bytes 2 TAG_DECK_COMMITMENT
    ++ shuffleAlgorithmVersion d :: mjoin (commitment <$> perPosition d).

Definition openable (ordinal : Z) (cardNonce deckNonce : bytes) : Prop :=
  0 ≤ ordinal ≤ 53 ∧ length cardNonce = 32%nat ∧ length deckNonce = 32%nat.

Lemma lists_differ (l k : list Z) :
  length l = length k → l ≠ k → ∃ (i : nat) x y, l !! i = Some x ∧ k !! i = Some y ∧ x ≠ y.
Proof.
  revert k. induction l as [|x l IH]; intros [|y k] Hlen Hne; try done.
  destruct (decide (x = y)) as [->|]; [|by exists 0%nat, x, y].
  destruct (IH k) as (i & a & b & ?); [by injection Hlen|congruence|]. by exists (S i), a, b.
Qed.

Section deck.
Context (digest : bytes → bytes).
Context (digest_length : ∀ b, length (digest b) = 32%nat).
Context (digest_byte : ∀ b, Forall is_byte (digest b)).

Lemma commitCard_Ret o c d h :
  commitCard digest o c d = Ret h ↔ openable o c d ∧ h = digest (card_preimage o c d).
Proof.
  unfold commitCard, openable.
  destruct (Z.ltb_spec o 0), (Z.ltb_spec 53 o); cbn [orb];
    try (split; [done|intros [[? _] _]; exfalso; lia]).
  rewrite encodeU8_spec by lia. cbn [mbind js_bind].
  rewrite js_bind_Ret. setoid_rewrite js_bind_Ret. setoid_rewrite encodeBytes32_Ret.
  setoid_rewrite (domainHash_spec digest TAG_CARD); [|done].
  unfold card_preimage. cbn [mjoin list_join app]. setoid_rewrite app_nil_r. naive_solver.
Qed.

Lemma card_preimage_inj o c d o' c' d' :
  openable o c d → openable o' c' d' →
  card_preimage o c d = card_preimage o' c' d' → o = o' ∧ c = c' ∧ d = d'.
Proof.
  intros (_ & Hc & _) (_ & Hc' & _) E. apply app_inv_head in E. injection E as -> E.
  by apply app_inj_1 in E as [-> ->]; [|congruence].
Qed.

Lemma verifyRevealProof_true e p :
  Forall is_byte e →
  verifyRevealProof digest e p = Ret true ↔
  openable (proof_ordinal p) (proof_cardNonce p) (proof_deckNonce p)
  ∧ e = digest (card_preimage (proof_ordinal p) (proof_cardNonce p) (proof_deckNonce p)).
Proof using digest_byte.
  intros He. unfold verifyRevealProof. rewrite js_bind_Ret. split.
  - intros (h & [Ho ->]%commitCard_Ret & E). split; [done|]. symmetry.
    apply constantTimeEquals_spec; [apply digest_byte|done|congruence].
  - intros [Ho ->]. eexists. split; [by apply commitCard_Ret|]. f_equal.
    by apply constantTimeEquals_spec.
Qed.

Lemma deriveCardNonce_length combined i c :
  deriveCardNonce digest combined i = Ret c → length c = 32%nat.
Proof using digest_length.
  intros (t & _ & (n & _ & [= <-])%js_bind_Ret)%js_bind_Ret. apply digest_length.
Qed.

(** The commitments [cs] open to the ordinals [sh], position by position. *)
Definition committed (cs : list CardCommitment) (sh : list Z) : Prop :=
  length cs = length sh
  ∧ ∀ (i : nat) c, cs !! i = Some c →
      position c = Z.of_nat i ∧ sh !! i = Some (ordinal c)
      ∧ openable (ordinal c) (cardNonce c) (deckNonce c)
      ∧ commitment c = digest (card_preimage (ordinal c) (cardNonce c) (deckNonce c)).

(** What [commit_positions] puts at each position *)
Lemma commit_positions_lookup combined dn i0 shuffled cs :
  commit_positions digest combined dn i0 shuffled = Ret cs →
  length cs = length shuffled
  ∧ ∀ i c, cs !! i = Some c →
      position c = i0 + Z.of_nat i
      ∧ shuffled !! i = Some (ordinal c)
      ∧ openable (ordinal c) (cardNonce c) (deckNonce c)
      ∧ commitment c = digest (card_preimage (ordinal c) (cardNonce c) (deckNonce c)).
Proof.
  revert i0 cs. induction shuffled as [|o shuffled IH]; intros i0 cs.
  { intros [= <-]. by split. }
  intros (cn & Hcn & (h & Hh & (rest & Hr & [= <-])%js_bind_Ret)%js_bind_Ret)%js_bind_Ret.
  apply commitCard_Ret in Hh as [Ho Hh]. destruct (IH _ _ Hr) as [Hlen Hall].
  split; [by cbn [length]; rewrite Hlen|]. intros [|i] c Hc.
  - injection Hc as <-. cbn [position ordinal cardNonce deckNonce commitment]. split; [lia|done].
  - destruct (Hall i c Hc) as (Hp & Hrest). split; [lia|done].
Qed.

Lemma commit_positions_ret combined dn i0 shuffled :
  length dn = 32%nat → 0 ≤ i0 → i0 + Z.of_nat (length shuffled) ≤ 2 ^ 32 →
  Forall (λ o, 0 ≤ o ≤ 53) shuffled →
  ∃ cs, commit_positions digest combined dn i0 shuffled = Ret cs.
Proof using digest_length.
  intros Hdn Hi Hend Hall. revert i0 Hi Hend.
  induction Hall as [|o shuffled Ho _ IH]; intros i0 Hi Hend; [by exists []|].
  cbn [commit_positions length] in *. unfold deriveCardNonce at 1.
  rewrite encodeU16LE_spec, encodeU32LE_spec by (done || lia). cbn [mbind js_bind].
  match goal with |- context [commitCard digest o ?c dn] => set (cn := c) end.
  rewrite (proj2 (commitCard_Ret o cn dn _)) 
    by (split; [split; [lia|by split; [apply digest_length|]]|done]).
  cbn [mbind js_bind]. destruct (IH (i0 + 1)) as [cs ->]; [lia|lia|]. by eexists.
Qed.

Lemma commit_positions_committed combined dn shuffled cs :
  commit_positions digest combined dn 0 shuffled = Ret cs → committed cs shuffled.
Proof.
  intros [Hlen Hall]%commit_positions_lookup. split; [done|]. intros i c Hc.
  by destruct (Hall i c Hc).
Qed.

(** Inversion of [buildDeckCommitment] *)
Lemma buildDeckCommitment_Ret fuel combined n v d :
  buildDeckCommitment digest fuel combined n v = Ret d →
  v = 1 ∧ shuffleCanonicalDeck digest fuel combined n = Ret (shuffledDeck d)
  ∧ combinedEntropy d = combined ∧ shuffleAlgorithmVersion d = 1
  ∧ committed (perPosition d) (shuffledDeck d)
  ∧ deckCommitmentHash d = digest (deck_preimage d).
Proof.
  unfold buildDeckCommitment. destruct (Z.eqb_spec v 1) as [->|]; [|done]. cbn [negb].
  intros (sh & Hs & (dn & Hdn & (pp & Hpp & Hrest)%js_bind_Ret)%js_bind_Ret)%js_bind_Ret.
  rewrite encodeU8_spec in Hrest by done. cbn [mbind js_bind] in Hrest.
  rewrite domainHash_spec in Hrest by done. injection Hrest as <-.
  split_and!; try done. by eapply commit_positions_committed.
Qed.

Lemma buildDeckCommitment_ret fuel combined n sh :
  shuffleCanonicalDeck digest fuel combined n = Ret sh →
  ∃ d, buildDeckCommitment digest fuel combined n 1 = Ret d.
Proof using digest_length.
  intros Hs. pose proof (shuffle_perm _ _ _ _ _ Hs) as [Hn Hp].
  unfold buildDeckCommitment, deriveDeckNonce. cbn [Z.eqb Pos.eqb negb].
  rewrite Hs, encodeU16LE_spec by done. cbn [mbind js_bind].
  match goal with |- context [commit_positions digest combined ?dn 0 sh] =>
    destruct (commit_positions_ret combined dn 0 sh) as [cs ->] end;
    [apply digest_length|done|rewrite Hp, length_seqZ; lia| |].
  { rewrite Hp. apply list.Forall_forall. intros o Ho%elem_of_seqZ. lia. }
  cbn [mbind js_bind]. rewrite encodeU8_spec by done. cbn [mbind js_bind].
  rewrite domainHash_spec by done. by eexists.
Qed.

(** Equal commitments at every position: equal ordinals, or a collision at a position *)
Lemma same_commitments cs1 cs2 sh1 sh2 :
  committed cs1 sh1 → committed cs2 sh2 → (commitment <$> cs1) = (commitment <$> cs2) →
  sh1 = sh2
  ∨ ∃ (i : nat) p q, cs1 !! i = Some p ∧ cs2 !! i = Some q
      ∧ collides digest (card_preimage (ordinal p) (cardNonce p) (deckNonce p))
          (card_preimage (ordinal q) (cardNonce q) (deckNonce q)).
Proof.
  intros [Hl1 H1] [Hl2 H2] E.
  assert (Hlen : length cs1 = length cs2) by by apply (f_equal length) in E; rewrite !length_fmap in E.
  destruct (decide (sh1 = sh2)) as [|Hne]; [by left|right].
  destruct (lists_differ sh1 sh2) as (i & x & y & Hx & Hy & Hxy); [congruence|done|].
  destruct (lookup_lt_is_Some_2 cs1 i) as [p Hp]; [rewrite Hl1; by eapply lookup_lt_Some|].
  destruct (lookup_lt_is_Some_2 cs2 i) as [q Hq]; [rewrite Hl2; by eapply lookup_lt_Some|].
  exists i, p, q. split_and!; [done..|].
  destruct (H1 i p Hp) as (_ & Hop & Hpo & Ep), (H2 i q Hq) as (_ & Hoq & Hqo & Eq).
  split.
  - intros Epre. apply card_preimage_inj in Epre as (Eo & _ & _); [|done..]. congruence.
  - rewrite <- Ep, <- Eq. apply (f_equal (.!! i)) in E.
    rewrite !list_lookup_fmap, Hp, Hq in E. by injection E.
Qed.

Lemma commitments_32 cs sh :
  committed cs sh → Forall (λ b : bytes, length b = 32%nat) (commitment <$> cs).
Proof using digest_length.
  intros [_ H]. rewrite Forall_fmap. apply Forall_lookup_2. intros i c Hc. unfold compose.
  destruct (H i c Hc) as (_ & _ & _ & ->). apply digest_length.
Qed.

(** C17: a deck commitment opens, and only to its deck.  Whenever the shuffle returns, the deck
    commitment is built; the committed deck is a permutation of the ordinals and every
    position carries the ordinal the shuffle put there; the proof made of that ordinal and
    its nonces verifies; and any proof that verifies against the position reveals the same
    ordinal and nonces, or it is a second preimage of the hash. *)
Theorem deck_opens fuel combined n sh :
  shuffleCanonicalDeck digest fuel combined n = Ret sh →
  ∃ d, buildDeckCommitment digest fuel combined n 1 = Ret d
    ∧ shuffledDeck d = sh ∧ sh ≡ₚ seqZ 0 n
    ∧ length (perPosition d) = length sh
    ∧ ∀ (i : nat) c, perPosition d !! i = Some c →
        position c = Z.of_nat i ∧ sh !! i = Some (ordinal c)
        ∧ verifyRevealProof digest (commitment c)
            (mkRevealProof (Z.of_nat i) (ordinal c) (cardNonce c) (deckNonce c)) = Ret true
        ∧ ∀ p, verifyRevealProof digest (commitment c) p = Ret true →
            (proof_ordinal p = ordinal c ∧ proof_cardNonce p = cardNonce c
             ∧ proof_deckNonce p = deckNonce c)
            ∨ collides digest (card_preimage (ordinal c) (cardNonce c) (deckNonce c))
                (card_preimage (proof_ordinal p) (proof_cardNonce p) (proof_deckNonce p)).
Proof using digest_length digest_byte.
  intros Hs. pose proof (shuffle_perm _ _ _ _ _ Hs) as [Hn Hp].
  destruct (buildDeckCommitment_ret fuel combined n sh) as [d Hb]; [done|].
  exists d. split; [done|].
  apply buildDeckCommitment_Ret in Hb as (_ & Hs' & _ & _ & [Hlen Hall] & _).
  assert (Hsd : shuffledDeck d = sh) by congruence. rewrite Hsd in *.
  split_and!; [done|done|done|]. intros i c Hc.
  destruct (Hall i c Hc) as (Hpos & Ho & Hopen & Hcom). rewrite Hcom.
  split_and!; [done|done|by apply verifyRevealProof_true|].
  intros p [Hop E]%verifyRevealProof_true; [|apply digest_byte].
  match goal with |- _ ∨ collides _ ?x ?y => destruct (decide (x = y)) as [Eq|Hne] end;
    [left|by right].
  by apply card_preimage_inj in Eq as (-> & -> & ->).
Qed.

(** C18: the deck commitment hash binds the deck.  Two deck commitments with the same hash commit
    to the same shuffled deck, unless their aggregate encodings collide or the card
    encodings at some position do. *)
Theorem deckCommitment_binding fuel1 fuel2 c1 c2 n1 n2 d1 d2 :
  buildDeckCommitment digest fuel1 c1 n1 1 = Ret d1 →
  buildDeckCommitment digest fuel2 c2 n2 1 = Ret d2 →
  deckCommitmentHash d1 = deckCommitmentHash d2 →
  shuffledDeck d1 = shuffledDeck d2
  ∨ collides digest (deck_preimage d1) (deck_preimage d2)
  ∨ ∃ (i : nat) p q, perPosition d1 !! i = Some p ∧ perPosition d2 !! i = Some q
      ∧ collides digest (card_preimage (ordinal p) (cardNonce p) (deckNonce p))
          (card_preimage (ordinal q) (cardNonce q) (deckNonce q)).
Proof using digest_length.
  intros (_ & _ & _ & Hv1 & Hp1 & Hh1)%buildDeckCommitment_Ret
    (_ & _ & _ & Hv2 & Hp2 & Hh2)%buildDeckCommitment_Ret E.
  rewrite Hh1, Hh2 in E.
  destruct (decide (deck_preimage d1 = deck_preimage d2)) as [Eq|]; [|by right; left].
  unfold deck_preimage in Eq. apply app_inv_head in Eq. injection Eq as _ Eq.
  apply mjoin_32_inj in Eq; [|by eapply commitments_32..].
  destruct (same_commitments _ _ _ _ Hp1 Hp2 Eq); auto.
Qed.
End deck.

(** ** A concrete deck: all nonces and choices zero *)

Definition zero_deck : js DeckCommitment :=
  buildDeckCommitment zero_digest 1 (replicate 32 7) 52 1.

Lemma deck_opens_witness :
  ∃ d, zero_deck = Ret d ∧ shuffledDeck d = seqZ 1 51 ++ [0]
    ∧ ∀ (i : nat) c, perPosition d !! i = Some c →
        verifyRevealProof zero_digest (commitment c)
          (mkRevealProof (Z.of_nat i) (ordinal c) (cardNonce c) (deckNonce c)) = Ret true.
Proof.
  destruct (deck_opens zero_digest (λ _, eq_refl) zero_digest_byte 1 (replicate 32 7) 52
              (seqZ 1 51 ++ [0])) as (d & Hd & Hs & _ & _ & Hall); [by vm_compute|].
  exists d. split; [exact Hd|]. split; [exact Hs|]. intros i c Hc. apply (Hall i c Hc).
Defined.

(** Under a constant digest decks of 52 and 54 cards share their hash: here the collision is
    the one that holds. *)
Lemma deckCommitment_binding_witness :
  ∃ d e, zero_deck = Ret d
  ∧ buildDeckCommitment zero_digest 1 (replicate 32 9) 54 1 = Ret e
  ∧ (shuffledDeck d = shuffledDeck e
     ∨ collides zero_digest (deck_preimage d) (deck_preimage e)
     ∨ ∃ (i : nat) p q, perPosition d !! i = Some p ∧ perPosition e !! i = Some q
        ∧ collides zero_digest (card_preimage (ordinal p) (cardNonce p) (deckNonce p))
            (card_preimage (ordinal q) (cardNonce q) (deckNonce q))).
Proof.
  destruct zero_deck as [d| |] eqn:E; [|by vm_compute in E..].
  destruct (buildDeckCommitment zero_digest 1 (replicate 32 9) 54 1) as [e| |] eqn:F;
    [|by vm_compute in F..].
  exists d, e. split; [done|]. split; [done|].
  apply (deckCommitment_binding zero_digest (λ _, eq_refl) 1 1 _ _ 52 54 d e E F).
  vm_compute in E. vm_compute in F. injection E as <-. injection F as <-. reflexivity.
Defined.
