(* ===== verification/Conceal.v ===== *)
(** * crypto-cards: concealed card payloads

    [packages/crypto-cards/src/conceal.ts].  secp256k1 (@noble/secp256k1), HKDF and AES-GCM
    (Web Crypto) are the operations of an interface [CardCrypto]; what the code relies on is
    the class [CardCryptoLaws].  The fresh private key and nonce that the code draws are
    arguments. *)

From S2P Require Import Prelude Bytes.

Record ConcealedEnvelope := mkConcealedEnvelope {
  ephemeralPubkey : bytes;
  nonce : bytes;
  ciphertext : bytes
}.

Definition AES_KEY_BYTES : Z := 32.
Definition GCM_NONCE_BYTES : Z := 12.

(** The library calls; each may throw. *)
Class CardCrypto := {
  CryptoKey : Type;
  getPublicKey : bytes → js bytes;
  getSharedSecret : bytes → bytes → js bytes;
  hkdf_deriveKey : bytes → bytes → bytes → Z → js CryptoKey; (* input, salt, info, bits *)
  gcm_encrypt : CryptoKey → bytes → bytes → js bytes;        (* key, iv, data *)
  gcm_decrypt : CryptoKey → bytes → bytes → js bytes
}.

Section conceal.
Context `{CardCrypto}.

Definition toBuffer (b : bytes) : bytes := b.

Definition ecdhSharedX (priv pub : bytes) : js bytes :=
  shared ← getSharedSecret priv pub;
  Ret (drop 1 shared).

Definition deriveAesKey (shared ephemeralPub holderPub : bytes) : js CryptoKey :=
  let info := ephemeralPub ++ holderPub in
  let salt := text_encode "cardtable/v1/conceal" in
  hkdf_deriveKey (toBuffer shared) (toBuffer salt) (toBuffer info) (AES_KEY_BYTES * 8).

Definition aesGcmEncrypt (key : CryptoKey) (nonce plaintext : bytes) : js bytes :=
  gcm_encrypt key (toBuffer nonce) (toBuffer plaintext).

Definition aesGcmDecrypt (key : CryptoKey) (nonce ciphertext : bytes) : js bytes :=
  gcm_decrypt key (toBuffer nonce) (toBuffer ciphertext).

(** [ephemeralPriv] is [secp.utils.randomPrivateKey()] and [nonce] the 12 bytes of
    [crypto.getRandomValues]. *)
Definition encryptForHolder (ephemeralPriv nonce plaintext holderPubkey : bytes)
  : js ConcealedEnvelope :=
  if negb (blen holderPubkey =? 33)
  then Throw ("encryptForHolder: holder pubkey must be 33 bytes, got "
              +:+ pretty (blen holderPubkey))
  else
    ephemeralPub ← getPublicKey ephemeralPriv;
    shared ← ecdhSharedX ephemeralPriv holderPubkey;
    key ← deriveAesKey shared ephemeralPub holderPubkey;
    ciphertext ← aesGcmEncrypt key nonce plaintext;
    Ret (mkConcealedEnvelope ephemeralPub nonce ciphertext).

Definition decryptForHolder (envelope : ConcealedEnvelope) (holderPriv : bytes) : js bytes :=
  if negb (blen holderPriv =? 32)
  then Throw ("decryptForHolder: holder private key must be 32 bytes, got "
              +:+ pretty (blen holderPriv))
  else if negb (blen (ephemeralPubkey envelope) =? 33)
  then Throw "decryptForHolder: ephemeral pubkey must be 33 bytes"
  else if negb (blen (nonce envelope) =? GCM_NONCE_BYTES)
  then Throw "decryptForHolder: nonce must be 12 bytes"
  else
    holderPub ← getPublicKey holderPriv;
    shared ← ecdhSharedX holderPriv (ephemeralPubkey envelope);
    key ← deriveAesKey shared (ephemeralPubkey envelope) holderPub;
    aesGcmDecrypt key (nonce envelope) (ciphertext envelope).
End conceal.

(** What the code relies on: compressed keys have 33 bytes, Diffie-Hellman is symmetric and
    defined on valid keys, deriving a key from 32 bytes succeeds, sealing under a 12-byte
    nonce succeeds and opening undoes it. *)
Class CardCryptoLaws (C : CardCrypto) : Prop := {
  pubkey_33 a A : getPublicKey a = Ret A → blen A = 33;
  ecdh_symmetric a A b B : getPublicKey a = Ret A → getPublicKey b = Ret B →
    ∃ S, blen S = 33 ∧ getSharedSecret a B = Ret S ∧ getSharedSecret b A = Ret S;
  hkdf_defined s salt info : blen s = 32 → is_ret (hkdf_deriveKey s salt info 256) = true;
  gcm_open k n p : blen n = 12 →
    ∃ c, gcm_encrypt k n p = Ret c ∧ gcm_decrypt k n c = Ret p
}.

Section properties.
Context {C : CardCrypto} {L : CardCryptoLaws C}.

(** Both ends derive the same key. *)
Lemma shared_key a A b B :
  getPublicKey a = Ret A → getPublicKey b = Ret B →
  ∃ s k, ecdhSharedX a B = Ret s ∧ ecdhSharedX b A = Ret s ∧ deriveAesKey s A B = Ret k.
Proof using L.
  intros HA HB. destruct (ecdh_symmetric a A b B HA HB) as (S & HS & E1 & E2).
  assert (Hd : blen (drop 1 S) = 32).
  { unfold blen in *. rewrite length_drop. lia. }
  pose proof (hkdf_defined (drop 1 S) (text_encode "cardtable/v1/conceal") (A ++ B) Hd) as Hk.
  unfold ecdhSharedX, deriveAesKey, toBuffer, AES_KEY_BYTES.
  rewrite E1, E2. change (32 * 8) with 256.
  match type of Hk with is_ret ?m = true => destruct m as [k| |] eqn:Ek end; [|done..].
  exists (drop 1 S), k. split_and!; done.
Qed.

(** C19: a concealed payload reaches its holder.  For a valid ephemeral key, a 12-byte nonce and
    the public key of a 32-byte private key, sealing succeeds, publishes the ephemeral public
    key and the nonce, and opening with that private key returns the plaintext; an envelope
    whose holder key, ephemeral key or nonce has the wrong length is refused. *)
Theorem conceal_roundtrip e E h H n pt :
  getPublicKey e = Ret E → getPublicKey h = Ret H → blen h = 32 → blen n = 12 →
  ∃ env, encryptForHolder e n pt H = Ret env
    ∧ ephemeralPubkey env = E ∧ nonce env = n
    ∧ decryptForHolder env h = Ret pt
    ∧ (∀ H', blen H' ≠ 33 → is_throw (encryptForHolder e n pt H') = true)
    ∧ ∀ env' h', blen h' ≠ 32 ∨ blen (ephemeralPubkey env') ≠ 33 ∨ blen (nonce env') ≠ 12 →
        is_throw (decryptForHolder env' h') = true.
Proof using L.
  intros HE HH Hh Hn. destruct (shared_key e E h H HE HH) as (s & k & E1 & E2 & Ek).
  destruct (gcm_open k n pt Hn) as (c & Ec & Ed).
  exists (mkConcealedEnvelope E n c). unfold encryptForHolder, decryptForHolder, aesGcmEncrypt,
    aesGcmDecrypt, toBuffer, GCM_NONCE_BYTES. cbn [ephemeralPubkey nonce ciphertext].
  rewrite (pubkey_33 h H HH), (pubkey_33 e E HE), Hh, Hn. cbn [Z.eqb Pos.eqb negb].
  split_and!; try done.
  - rewrite HE. cbn [mbind js_bind]. rewrite E1. cbn [mbind js_bind].
    rewrite Ek. cbn [mbind js_bind]. by rewrite Ec.
  - rewrite HH. cbn [mbind js_bind]. rewrite E2. cbn [mbind js_bind].
    rewrite Ek. cbn [mbind js_bind]. done.
  - intros H' Hne. by rewrite (proj2 (Z.eqb_neq _ _) Hne).
  - intros env' h' Hbad.
    destruct (Z.eqb_spec (blen h') 32), (Z.eqb_spec (blen (ephemeralPubkey env')) 33),
      (Z.eqb_spec (blen (nonce env')) 12); try done. naive_solver.
Qed.
End properties.

(** ** A toy instance: a commutative sum for Diffie-Hellman, a trailer for the tag *)

Definition toy_pub (a : bytes) : js bytes :=
  if decide (length a = 32%nat) then Ret (2 :: a) else Throw "bad scalar".

Definition toy_shared (a B : bytes) : js bytes :=
  Ret (2 :: zip_with (λ x y, u8 (x + y)) a (drop 1 B)).

#[export] Instance toy_crypto : CardCrypto := {|
  CryptoKey := bytes;
  getPublicKey := toy_pub;
  getSharedSecret := toy_shared;
  hkdf_deriveKey s salt info bits := Ret (s ++ salt ++ info);
  gcm_encrypt k n p := Ret (take 16 k ++ p);
  gcm_decrypt k n c := Ret (drop (length (take 16 k)) c)
|}.

Lemma toy_pub_Ret a A : toy_pub a = Ret A → length a = 32%nat ∧ A = 2 :: a.
Proof. unfold toy_pub. case_decide; [|done]. by intros [= <-]. Qed.

#[export] Instance toy_laws : CardCryptoLaws toy_crypto.
Proof.
  split.
  - intros a A [Ha ->]%toy_pub_Ret. unfold blen. cbn [length]. lia.
  - intros a A b B [Ha ->]%toy_pub_Ret [Hb ->]%toy_pub_Ret.
    exists (2 :: zip_with (λ x y, u8 (x + y)) a b). split_and!; [|done|].
    + unfold blen. cbn [length]. rewrite length_zip_with. lia.
    + change (toy_shared b (2 :: a) = Ret (2 :: zip_with (λ x y, u8 (x + y)) a b)).
      unfold toy_shared. do 2 f_equal. rewrite <- zip_with_flip.
      apply zip_with_ext; [|done..]. intros x y. unfold flip. f_equal. lia.
  - done.
  - intros k n p _. exists (take 16 k ++ p). split; [done|].
    change (Ret (drop (length (take 16 k)) (take 16 k ++ p)) = Ret p).
    by rewrite drop_app_length.
Qed.

Lemma conceal_roundtrip_witness :
  ∃ env, encryptForHolder (replicate 32 5) (replicate 12 9) [1; 2; 3] (2 :: replicate 32 8)
         = Ret env
    ∧ decryptForHolder env (replicate 32 8) = Ret [1; 2; 3].
Proof.
  destruct (conceal_roundtrip (C := toy_crypto) (replicate 32 5) (2 :: replicate 32 5)
    (replicate 32 8) (2 :: replicate 32 8) (replicate 12 9) [1; 2; 3])
    as (env & He & _ & _ & Hd & _); [done..|].
  exists env. split; [exact He|exact Hd].
Defined.
