(* ===== verification/Replay.v ===== *)
(** * state-engine: verification and replay

    [packages/state-engine/src/verify.ts] (the cryptographic gate in front of
    [applyAction] and the deck commitment made on entering S5) and
    [packages/state-engine/src/replay.ts] (both replays and [chainsFrom]).  The fuel is
    that of the shuffle. *)

From S2P Require Import Prelude Bytes Primitives Crypto Shuffle ShuffleProps Deck Types Engine EngineSpec EngineSafety.

(** ** verify.ts *)

Section verify.
Context (digest : bytes → bytes) (fuel : nat).

(** The block for [EntropyReveal]: [None] when the check passes *)
Definition check_reveal (state : RoundState) (base : SignedActionBase) (entropy : Hash256)
  : js (option ProtocolError) :=
  let fail c ctx := Ret (Some (protocolError c (Some ctx))) in
  match act_acting_player_seat base with
  | None => fail SEAT_OUT_OF_RANGE "EntropyReveal requires acting_player_seat"
  | Some seat' =>
    match find (λ p, seat p =? seat') (players state) with
    | None => fail PLAYER_NOT_SEATED (seat_string seat')
    | Some player =>
      match entropy_commitment_hash player with
      | None => fail INVALID_STATE_TRANSITION "no prior commitment for this seat"
      | Some stored =>
        if negb (is_hex_n 64 entropy)
        then fail INVALID_REVEAL_PROOF "entropy must be 64-char hex"
        else
          commitmentBytes ← fromHex stored;
          entropyBytes ← fromHex entropy;
          pubkeyBytes ← fromHex (value_signing_pubkey player);
          if blen pubkeyBytes <? 32
          then fail SERIALISATION_ERROR "player pubkey shorter than 32 bytes"
          else
            let playerIdBytes := drop (length pubkeyBytes - 32) pubkeyBytes in
            gameIdBytes ← fromHex (game_id state);
            if negb (blen gameIdBytes =? 32)
            then fail SERIALISATION_ERROR "game_id is not 32 bytes"
            else
              recomputed ← commitEntropy digest entropyBytes playerIdBytes gameIdBytes;
              if negb (constantTimeEquals recomputed commitmentBytes)
              then fail INVALID_REVEAL_PROOF "entropy does not match prior commitment"
              else Ret None
      end
    end
  end.

(** The block for [CardReveal] *)
Definition check_card (state : RoundState) (reveal : RevealProof) (ruleSet : RuleSet)
  : js (option ProtocolError) :=
  let fail c ctx := Ret (Some (protocolError c (Some ctx))) in
  match combined_entropy state with
  | None => fail INVALID_STATE_TRANSITION "no combined entropy yet"
  | Some ce =>
    combined ← fromHex ce;
    dc ← buildDeckCommitment digest fuel combined (deck_format ruleSet)
           (shuffle_algorithm_version ruleSet);
    let position := rp_position reveal in
    if (position <? 0) || (Z.of_nat (length (perPosition dc)) <=? position)
    then fail INVALID_REVEAL_PROOF ("position " +:+ pretty position +:+ " out of range")
    else match at_index (perPosition dc) position with
    | None => Throw "TypeError"
    | Some expected =>
      cardNonce ← fromHex (rp_card_nonce reveal);
      deckNonce ← fromHex (rp_deck_nonce reveal);
      proofOk ← verifyRevealProof digest (commitment expected)
        (Deck.mkRevealProof position (ordinal (revealed_card reveal)) cardNonce deckNonce);
      if negb proofOk
      then fail INVALID_REVEAL_PROOF "card reveal does not match deck commitment"
      else Ret None
    end
  end.

Definition check_action (state : RoundState) (action : SignedAction) (ruleSet : RuleSet)
  : js (option ProtocolError) :=
  match payload action with
  | EntropyCommitAction hash =>
    if negb (is_hex_n 64 hash)
    then Ret (Some (protocolError INVALID_SIGNATURE
                      (Some "commitment_hash must be 64-char hex")))
    else Ret None
  | EntropyRevealAction entropy => check_reveal state (act_base action) entropy
  | CardRevealAction reveal => check_card state reveal ruleSet
  | _ => Ret None
  end.

(** The loop over [seatSorted]: [None] on a player without entropy *)
Fixpoint collect_entropies (ps : list PlayerState) : js (option (list bytes)) :=
  match ps with
  | [] => Ret (Some [])
  | p :: ps =>
    match entropy_value p with
    | None => Ret None
    | Some v =>
      b ← fromHex v;
      rest ← collect_entropies ps;
      Ret (option_map (cons b) rest)
    end
  end.

(** [a.seat - b.seat] as the order of a stable sort *)
Definition seat_le (p q : PlayerState) : Prop := seat p ≤ seat q.

#[global] Instance seat_le_dec : RelDecision seat_le.
Proof. intros p q. unfold seat_le. apply _. Defined.

Definition materialiseDeckCommitment (state : RoundState) (ruleSet : RuleSet)
  : js RoundState :=
  let seatSorted := merge_sort seat_le (players state) in
  entropies ← collect_entropies seatSorted;
  match entropies with
  | None => Ret state
  | Some entropies =>
    combined ← combineEntropy digest entropies;
    dc ← buildDeckCommitment digest fuel combined (deck_format ruleSet)
           (shuffle_algorithm_version ruleSet);
    ce ← asHash256 (toHex combined);
    dch ← asHash256 (toHex (deckCommitmentHash dc));
    Ret (state |> set_combined_entropy (Some ce) |> set_deck_commitment_hash (Some dch))
  end.

(** The test for the S4 to S5 transition *)
Definition enters_deck (state next : RoundState) : bool :=
  is_class (state_class state) S4_ENTROPY_REVEAL_WINDOW
  && is_class (state_class next) S5_DECK_COMMITTED
  && bool_decide (combined_entropy next = None).

Definition verifyAndApply (state : RoundState) (action : SignedAction) (ruleSet : RuleSet)
    (currentHeight : BlockHeight) : js (Result RoundState) :=
  refusal ← check_action state action ruleSet;
  match refusal with
  | Some e => Ret (Err e)
  | None =>
    result ← applyAction state action ruleSet currentHeight;
    match result with
    | Err e => Ret (Err e)
    | Ok next =>
      if enters_deck state next
      then next' ← materialiseDeckCommitment next ruleSet; Ret (Ok next')
      else Ret (Ok next)
    end
  end.

(** ** replay.ts *)

(** [block_heights[i] ?? block_heights[block_heights.length - 1]] *)
Definition height_at (heights : list BlockHeight) (i : Z) : option BlockHeight :=
  match at_index heights i with
  | Some h => Some h
  | None => at_index heights (Z.of_nat (length heights) - 1)
  end.

(** The loop of both replays, over the function that applies one action.  Their arrays hold
    no [undefined]. *)
Fixpoint replay_loop (name : string)
    (apply : RoundState → SignedAction → BlockHeight → js (Result RoundState))
    (heights : list BlockHeight) (i : Z) (actions : list SignedAction) (state : RoundState)
  : js (Result RoundState) :=
  match actions with
  | [] => Ret (Ok state)
  | action :: actions =>
    match height_at heights i with
    | None => reject SERIALISATION_ERROR (name +:+ ": no block height for action " +:+ pretty i)
    | Some h =>
      result ← apply state action h;
      match result with
      | Err e =>
        reject (code e) (name +:+ ": action " +:+ pretty i +:+ " ("
          +:+ ActionType_string (action_type action) +:+ ") rejected: "
          +:+ default EmptyString (context e))
      | Ok next => replay_loop name apply heights (i + 1) actions next
      end
    end
  end.

Definition replay (game_id : GameId) (rule_set_hash : RuleSetHash) (rule_set : RuleSet)
    (recovery_deadline : BlockHeight) (actions : list SignedAction)
    (block_heights : list BlockHeight) : js (Result RoundState) :=
  replay_loop "replay" (λ s a h, applyAction s a rule_set h) block_heights 0 actions
    (initialState game_id rule_set_hash recovery_deadline).

Definition replayWithVerification (game_id : GameId) (rule_set_hash : RuleSetHash)
    (rule_set : RuleSet) (recovery_deadline : BlockHeight) (actions : list SignedAction)
    (block_heights : list BlockHeight) : js (Result RoundState) :=
  replay_loop "replayWithVerification" (λ s a h, verifyAndApply s a rule_set h)
    block_heights 0 actions (initialState game_id rule_set_hash recovery_deadline).

Definition chainsFrom (prior : option RoundState) (next : RoundState) : bool :=
  match prior with
  | None => bool_decide (prior_state_hash next = None)
  | Some prior => bool_decide (prior_state_hash next = Some (state_hash prior))
  end.
End verify.
