(* ===== verification/ReplayProps.v ===== *)
(** * state-engine: what verification and replay guarantee *)

From S2P Require Import Prelude Bytes Primitives Crypto Shuffle ShuffleProps Deck Types Engine EngineSpec EngineSafety Replay.

(** ** The engine ignores the deck stamps *)

(** The two fields only the verification layer writes *)
Definition restamp (ce dch : option Hash256) (s : RoundState) : RoundState :=
  s |> set_combined_entropy ce |> set_deck_commitment_hash dch.

Create Rewrite HintDb restamp.
Lemma restamp_state_class ce dch s : state_class (restamp ce dch s) = state_class s.
Proof. done. Qed.
Lemma restamp_game_id ce dch s : game_id (restamp ce dch s) = game_id s.
Proof. done. Qed.
Lemma restamp_acting_player_seat ce dch s : acting_player_seat (restamp ce dch s) = acting_player_seat s.
Proof. done. Qed.
Lemma restamp_players ce dch s : players (restamp ce dch s) = players s.
Proof. done. Qed.
Lemma restamp_pot_value ce dch s : pot_value (restamp ce dch s) = pot_value s.
Proof. done. Qed.
Lemma restamp_visible_cards ce dch s : visible_cards (restamp ce dch s) = visible_cards s.
Proof. done. Qed.
Lemma restamp_round_number ce dch s : round_number (restamp ce dch s) = round_number s.
Proof. done. Qed.
Lemma restamp_decision_deadline_block_height ce dch s : decision_deadline_block_height (restamp ce dch s) = decision_deadline_block_height s.
Proof. done. Qed.
Lemma restamp_recovery_deadline_block_height ce dch s : recovery_deadline_block_height (restamp ce dch s) = recovery_deadline_block_height s.
Proof. done. Qed.
Lemma restamp_concealed_deck ce dch s : concealed_deck (restamp ce dch s) = concealed_deck s.
Proof. done. Qed.
Lemma restamp_state_hash ce dch s : state_hash (restamp ce dch s) = state_hash s.
Proof. done. Qed.
#[export] Hint Rewrite restamp_state_class restamp_game_id restamp_acting_player_seat restamp_players restamp_pot_value restamp_visible_cards restamp_round_number restamp_decision_deadline_block_height restamp_recovery_deadline_block_height restamp_concealed_deck restamp_state_hash : restamp.

Definition on_ok (f : RoundState → RoundState) (r : Result RoundState) : Result RoundState :=
  match r with Ok s => Ok (f s) | Err e => Err e end.

Lemma on_ok_guard f (c : bool) code ctx (m m' : js (Result RoundState)) :
  m' = on_ok f <$> m →
  (if c then reject code ctx else m') = on_ok f <$> (if c then reject code ctx else m).
Proof. intros ->. by destruct c. Qed.

Lemma on_ok_bind {A} f (m : js A) (k k' : A → js (Result RoundState)) :
  (∀ a, k' a = on_ok f <$> k a) → m ≫= k' = on_ok f <$> (m ≫= k).
Proof. intros H. destruct m; simpl; auto. Qed.

Ltac same_handler :=
  repeat first
    [ reflexivity
    | apply on_ok_guard
    | apply on_ok_bind; intros
    | case_match ].

Lemma applyAction_restamp ce dch s a rs h :
  applyAction (restamp ce dch s) a rs h = on_ok (restamp ce dch) <$> applyAction s a rs h.
Proof.
  unfold applyAction, applyJoin, applyEntropyCommit, applyEntropyReveal, applyCardReveal,
    applyDealConcealed, applyBet, applyPass, applyFold, applySettle, applyRotateTurn,
    applyTableLock, applyTableClose, applyTimeout, applyRecovery.
  autorewrite with restamp. apply on_ok_guard, on_ok_guard.
  destruct (payload a); same_handler.
Qed.

(** ** Chaining of states *)

(** An accepted action leaves [state_hash] alone and records it as the prior hash. *)
Definition linked (s : RoundState) (r : js (Result RoundState)) : Prop :=
  match r with
  | Ret (Ok s') => state_hash s' = state_hash s ∧ prior_state_hash s' = Some (state_hash s)
  | _ => True
  end.

Lemma linked_guard s (c : bool) code ctx m :
  linked s m → linked s (if c then reject code ctx else m).
Proof. by destruct c. Qed.

Lemma linked_bind {A} s (m : js A) k : (∀ a, linked s (k a)) → linked s (m ≫= k).
Proof. intros H. destruct m; simpl; auto. Qed.

Lemma applyAction_linked s a rs h : linked s (applyAction s a rs h).
Proof.
  unfold applyAction, applyJoin, applyEntropyCommit, applyEntropyReveal, applyCardReveal,
    applyDealConcealed, applyBet, applyPass, applyFold, applySettle, applyRotateTurn,
    applyTableLock, applyTableClose, applyTimeout, applyRecovery.
  apply linked_guard, linked_guard. destruct (payload a);
    repeat first [ done | by split | apply linked_guard | apply linked_bind; intros
                 | case_match ].
Qed.

(** ** Hex *)

Lemma hex_pairs_byte_all nan off us bs : hex_pairs nan off us = Ret bs → Forall is_byte bs.
Proof.
  revert off us bs. fix IH 2. intros off us bs. destruct us as [|a [|b us]];
    [by intros [= <-]|by intros [= <-]|].
  cbn [hex_pairs]. intros (v & _ & (r & Hr & [= <-])%js_bind_Ret)%js_bind_Ret.
  constructor; [unfold is_byte, u8; by apply Z.mod_pos_bound|by eapply IH].
Qed.

Lemma fromHex_byte s bs : fromHex s = Ret bs → Forall is_byte bs.
Proof. unfold fromHex. destruct (negb _); [done|]. apply hex_pairs_byte_all. Qed.

Lemma fromHex_toHex bs : Forall is_byte bs → fromHex (toHex bs) = Ret bs.
Proof.
  intros H. unfold fromHex, toHex. rewrite js_length_to_hex, hex_pairs_to_hex by done.
  by rewrite Z.mul_comm, Z.mod_mul by lia.
Qed.

Lemma fromHex_inj_64 s t b :
  is_hex_n 64 s = true → is_hex_n 64 t = true → fromHex s = Ret b → fromHex t = Ret b → s = t.
Proof.
  intros (x & -> & _ & Hx)%(is_hex_n_to_hex 32) (y & -> & _ & Hy)%(is_hex_n_to_hex 32).
  change (to_hex x) with (toHex x). change (to_hex y) with (toHex y).
  rewrite !fromHex_toHex by done. congruence.
Qed.

(** ** The gate *)

Section gate.
Context (digest : bytes → bytes) (fuel : nat).
Context (digest_length : ∀ b, length (digest b) = 32%nat).
Context (digest_byte : ∀ b, Forall is_byte (digest b)).

(** The last 32 bytes of a public key identify the player. *)
Definition key_tail (pk : bytes) : bytes := drop (length pk - 32) pk.

(** What the gate demands of an action at a state *)
Definition opens_commitment (s : RoundState) (seat' : option Seat) (e : Hash256)
    (eb pb gb : bytes) : Prop :=
  ∃ x p c pk, seat' = Some x ∧ find (λ p, seat p =? x) (players s) = Some p
    ∧ entropy_commitment_hash p = Some c ∧ is_hex_n 64 e = true ∧ fromHex e = Ret eb
    ∧ fromHex (value_signing_pubkey p) = Ret pk ∧ 32 ≤ blen pk ∧ pb = key_tail pk
    ∧ fromHex (game_id s) = Ret gb ∧ length eb = 32%nat ∧ length gb = 32%nat
    ∧ fromHex c = Ret (digest (entropy_preimage eb pb gb)).

Definition opens_card (s : RoundState) (rs : RuleSet) (rp : RevealProof) (dc : DeckCommitment)
    (c : Deck.CardCommitment) (cn dn : bytes) : Prop :=
  ∃ ce cb, combined_entropy s = Some ce ∧ fromHex ce = Ret cb
    ∧ buildDeckCommitment digest fuel cb (deck_format rs) (shuffle_algorithm_version rs) = Ret dc
    ∧ 0 ≤ rp_position rp ∧ perPosition dc !! Z.to_nat (rp_position rp) = Some c
    ∧ fromHex (rp_card_nonce rp) = Ret cn ∧ fromHex (rp_deck_nonce rp) = Ret dn
    ∧ openable (ordinal (revealed_card rp)) cn dn
    ∧ commitment c = digest (card_preimage (ordinal (revealed_card rp)) cn dn).

Definition authentic (s : RoundState) (rs : RuleSet) (a : SignedAction) : Prop :=
  match payload a with
  | EntropyCommitAction c => is_hex_n 64 c = true
  | EntropyRevealAction e =>
    ∃ eb pb gb, opens_commitment s (act_acting_player_seat (act_base a)) e eb pb gb
  | CardRevealAction rp => ∃ dc c cn dn, opens_card s rs rp dc c cn dn
  | _ => True
  end.

Lemma key_tail_length pk : 32 ≤ blen pk → length (key_tail pk) = 32%nat.
Proof. unfold blen, key_tail. rewrite length_drop. lia. Qed.

Lemma check_reveal_None s base e :
  check_reveal digest s base e = Ret None ↔
  ∃ eb pb gb, opens_commitment s (act_acting_player_seat base) e eb pb gb.
Proof using digest_byte.
  unfold check_reveal, opens_commitment. destruct (act_acting_player_seat base) as [x|];
    [|split; [done|naive_solver]].
  destruct (find _ (players s)) as [p|] eqn:Ef; [|split; [done|naive_solver]].
  destruct (entropy_commitment_hash p) as [c|] eqn:Ec; [|split; [done|naive_solver]].
  destruct (is_hex_n 64 e) eqn:Eh; cbn [negb]; [|split; [done|naive_solver]].
  split.
  - intros (cb & Hcb & (eb & Heb & (pk & Hpk & H)%js_bind_Ret)%js_bind_Ret)%js_bind_Ret.
    destruct (Z.ltb_spec (blen pk) 32); [done|].
    apply js_bind_Ret in H as (gb & Hgb & H). destruct (negb (blen gb =? 32)); [done|].
    apply js_bind_Ret in H as (rc & Hrc & H).
    destruct (constantTimeEquals rc cb) eqn:Eq; [|done].
    apply commitEntropy_Ret in Hrc as [(He & _ & Hg) ->].
    apply constantTimeEquals_spec in Eq as <-; [|apply digest_byte|by eapply fromHex_byte].
    exists eb, (key_tail pk), gb, x, p, c, pk. split_and!; done.
  - intros (eb & pb & gb & x' & p' & c' & pk & [= <-] & Hf & Hc' & _ & Heb & Hpk & H32
      & -> & Hgb & Hle & Hlg & Hc).
    rewrite Ef in Hf. injection Hf as <-. rewrite Ec in Hc'. injection Hc' as <-.
    rewrite Hc, Heb, Hpk. cbn [mbind js_bind].
    rewrite (proj2 (Z.ltb_ge _ _) H32), Hgb. cbn [mbind js_bind].
    unfold blen at 1. rewrite Hlg. cbn [Z.of_nat Pos.of_succ_nat Pos.succ Z.eqb Pos.eqb negb].
    change (drop (length pk - 32) pk) with (key_tail pk).
    rewrite (proj2 (commitEntropy_Ret digest eb _ gb _)
      (conj (conj Hle (conj (key_tail_length pk H32) Hlg)) eq_refl)). cbn [mbind js_bind].
    rewrite (proj2 (constantTimeEquals_spec _ _ (digest_byte _) (digest_byte _))) by done.
    done.
Qed.

Lemma at_index_lookup {A} (l : list A) i x :
  at_index l i = Some x ↔ 0 ≤ i ∧ l !! Z.to_nat i = Some x.
Proof. unfold at_index. destruct (Z.ltb_spec i 0); naive_solver lia. Qed.

Lemma build_commitment_bytes cb n v dc i c :
  buildDeckCommitment digest fuel cb n v = Ret dc → perPosition dc !! i = Some c →
  Forall is_byte (commitment c).
Proof using digest_byte.
  intros (_ & _ & _ & _ & [_ Hall] & _)%buildDeckCommitment_Ret Hc.
  destruct (Hall i c Hc) as (_ & _ & _ & ->). apply digest_byte.
Qed.

Lemma check_card_None s rp rs :
  check_card digest fuel s rp rs = Ret None ↔ ∃ dc c cn dn, opens_card s rs rp dc c cn dn.
Proof using digest_byte.
  unfold check_card, opens_card. destruct (combined_entropy s) as [ce|];
    [|split; [done|naive_solver]]. split.
  - intros (cb & Hcb & (dc & Hdc & H)%js_bind_Ret)%js_bind_Ret. cbv zeta in H.
    destruct (_ || _); [done|].
    destruct (at_index _ _) as [c|] eqn:Ec in H; [|done].
    apply at_index_lookup in Ec as [H0 Ec].
    apply js_bind_Ret in H as (cn & Hcn & (dn & Hdn & (o & Ho & H)%js_bind_Ret)%js_bind_Ret).
    destruct o; [|done]. apply (verifyRevealProof_true digest digest_byte) in Ho as [Hop Hc];
      [|by eapply build_commitment_bytes].
    exists dc, c, cn, dn, ce, cb. split_and!; done.
  - intros (dc & c & cn & dn & ce' & cb & [= <-] & Hcb & Hdc & H0 & Hc & Hcn & Hdn & Hop & Hcom).
    rewrite Hcb. cbn [mbind js_bind]. rewrite Hdc. cbn [mbind js_bind]. cbv zeta.
    pose proof (lookup_lt_Some _ _ _ Hc) as Hlt.
    rewrite (proj2 (Z.ltb_ge _ 0) H0), (proj2 (Z.leb_gt _ _)) by lia. cbn [orb].
    rewrite (proj2 (at_index_lookup _ _ c) (conj H0 Hc)), Hcn, Hdn. cbn [mbind js_bind].
    rewrite (proj2 (verifyRevealProof_true digest digest_byte (commitment c)
      (Deck.mkRevealProof (rp_position rp) (ordinal (revealed_card rp)) cn dn)
      (build_commitment_bytes _ _ _ _ _ _ Hdc Hc)) (conj Hop Hcom)). done.
Qed.

Lemma check_action_None s a rs :
  check_action digest fuel s a rs = Ret None ↔ authentic s rs a.
Proof using digest_byte.
  unfold check_action, authentic. destruct (payload a); try done.
  - destruct (is_hex_n 64 commitment_hash); done.
  - apply check_reveal_None.
  - apply check_card_None.
Qed.

(** What the gate accepts *)
Lemma gate_accepts s a rs h s' :
  verifyAndApply digest fuel s a rs h = Ret (Ok s') ↔
  authentic s rs a
  ∧ ∃ next, applyAction s a rs h = Ret (Ok next)
      ∧ if enters_deck s next then materialiseDeckCommitment digest fuel next rs = Ret s'
        else s' = next.
Proof using digest_byte.
  rewrite <- check_action_None. unfold verifyAndApply.
  destruct (check_action digest fuel s a rs) as [[e|]| |]; cbn [mbind js_bind];
    [split; [done|naive_solver]| |split; [done|naive_solver]..].
  destruct (applyAction s a rs h) as [[next|e]| |]; cbn [mbind js_bind];
    [|split; [done|naive_solver]..].
  destruct (enters_deck s next) eqn:E.
  - rewrite js_bind_Ret. split.
    + intros (x & Hx & [= ->]). split; [done|]. exists next. by rewrite E.
    + intros (_ & n & [= <-] & H). rewrite E in H. by exists s'.
  - split.
    + intros [= <-]. split; [done|]. exists next. by rewrite E.
    + intros (_ & n & [= <-] & H). rewrite E in H. by subst.
Qed.

(** C11: the gate.  [verifyAndApply] accepts an action exactly when the action is authentic - a
    well-formed commitment, a reveal that opens the player's commitment for this game, a
    card that opens its position of the deck of the combined entropy - and the engine
    accepts it; the successor is the engine's, with the deck commitment filled in when the
    last reveal completes the entropy.  It refuses with the engine's error an authentic action,
    and only then lets the engine see it: the error of any other refusal is the check's own. *)
Theorem verifyAndApply_gate s a rs h r :
  verifyAndApply digest fuel s a rs h = Ret r ↔
  match r with
  | Ok s' => authentic s rs a
      ∧ ∃ next, applyAction s a rs h = Ret (Ok next)
          ∧ if enters_deck s next then materialiseDeckCommitment digest fuel next rs = Ret s'
            else s' = next
  | Err e => check_action digest fuel s a rs = Ret (Some e)
      ∨ authentic s rs a ∧ applyAction s a rs h = Ret (Err e)
  end.
Proof using digest_byte.
  destruct r as [s'|e]; [apply gate_accepts|]. rewrite <- check_action_None. unfold verifyAndApply.
  destruct (check_action digest fuel s a rs) as [[e'|]| |]; cbn [mbind js_bind];
    [naive_solver| |split; [done|naive_solver]..].
  destruct (applyAction s a rs h) as [[next|e']| |]; cbn [mbind js_bind]; [|naive_solver..].
  split; [|naive_solver]. destruct (enters_deck s next); [|done]. by intros (? & _ & [=])%js_bind_Ret.
Qed.

Lemma entropy_preimage_inj e p g e' p' g' :
  length e = length e' → length p = length p' →
  entropy_preimage e p g = entropy_preimage e' p' g' → e = e'.
Proof.
  intros He Hp E. unfold entropy_preimage in E. apply app_inv_head in E.
  by apply app_inj_1 in E as [-> _].
Qed.

(** C12: accepted reveals are binding.  At one state, two entropies accepted from the same seat
    are equal, and two cards accepted for the same deck position have the same ordinal -
    or the two encodings the gate hashed are a collision. *)
Theorem accepted_reveals_bound s rs a1 a2 h1 h2 s1 s2 :
  verifyAndApply digest fuel s a1 rs h1 = Ret (Ok s1) →
  verifyAndApply digest fuel s a2 rs h2 = Ret (Ok s2) →
  (∀ e1 e2, payload a1 = EntropyRevealAction e1 → payload a2 = EntropyRevealAction e2 →
     act_acting_player_seat (act_base a1) = act_acting_player_seat (act_base a2) →
     e1 = e2 ∨ ∃ b1 b2 p g,
       opens_commitment s (act_acting_player_seat (act_base a1)) e1 b1 p g
       ∧ opens_commitment s (act_acting_player_seat (act_base a1)) e2 b2 p g
       ∧ collides digest (entropy_preimage b1 p g) (entropy_preimage b2 p g))
  ∧ (∀ r1 r2, payload a1 = CardRevealAction r1 → payload a2 = CardRevealAction r2 →
     rp_position r1 = rp_position r2 →
     ordinal (revealed_card r1) = ordinal (revealed_card r2)
     ∨ ∃ dc c cn1 dn1 cn2 dn2,
       opens_card s rs r1 dc c cn1 dn1 ∧ opens_card s rs r2 dc c cn2 dn2
       ∧ collides digest (card_preimage (ordinal (revealed_card r1)) cn1 dn1)
           (card_preimage (ordinal (revealed_card r2)) cn2 dn2)).
Proof using digest_byte.
  intros [A1 _]%gate_accepts [A2 _]%gate_accepts. unfold authentic in *. split.
  - intros e1 e2 E1 E2 Hseat. rewrite E1 in A1. rewrite E2, <- Hseat in A2.
    destruct A1 as (b1 & p & g & O1), A2 as (b2 & p' & g' & O2).
    pose proof O1 as (x & q & c & pk & Hx & Hq & Hc & Hh1 & Hb1 & Hpk & H32 & -> & Hg & L1 & Lg & D1).
    pose proof O2 as (x' & q' & c' & pk' & Hx' & Hq' & Hc' & Hh2 & Hb2 & Hpk' & _ & -> & Hg' & L2 & _ & D2).
    simplify_eq. assert (pk' = pk) as -> by congruence.
    assert (g' = g) as -> by congruence.
    destruct (decide (b1 = b2)) as [->|Hne].
    + left. by eapply fromHex_inj_64.
    + right. exists b1, b2, (key_tail pk), g. split_and!; [done..|]. split; [|congruence].
      intros E. apply Hne. by eapply entropy_preimage_inj; [congruence| |exact E].
  - intros r1 r2 E1 E2 Hpos. rewrite E1 in A1. rewrite E2 in A2.
    destruct A1 as (dc & c & cn1 & dn1 & O1), A2 as (dc' & c' & cn2 & dn2 & O2).
    pose proof O1 as (ce & cb & Hce & Hcb & Hdc & _ & Hc & _ & _ & Op1 & D1).
    pose proof O2 as (ce' & cb' & Hce' & Hcb' & Hdc' & _ & Hc' & _ & _ & Op2 & D2).
    rewrite Hpos in *. simplify_eq. assert (cb' = cb) as -> by congruence.
    assert (dc' = dc) as -> by congruence. simplify_eq.
    destruct (decide (ordinal (revealed_card r1) = ordinal (revealed_card r2))) as [|Hne];
      [by left|right].
    exists dc, c, cn1, dn1, cn2, dn2. split_and!; [done..|]. split; [|congruence].
    intros [E _]%card_preimage_inj; done.
Qed.

(** The gate does not track the deck position.  Once the first card of a round has been
    accepted, the same proof - even with another rank and suit for the same ordinal - is
    accepted as the second card, so the two posts can be one card. *)
Theorem same_card_twice s s1 a rp a' rp' rs h h' :
  state_class s = S5_DECK_COMMITTED →
  payload a = CardRevealAction rp → payload a' = CardRevealAction rp' →
  act_game_id (act_base a') = game_id s →
  rp_position rp' = rp_position rp → rp_card_nonce rp' = rp_card_nonce rp →
  rp_deck_nonce rp' = rp_deck_nonce rp →
  ordinal (revealed_card rp') = ordinal (revealed_card rp) →
  verifyAndApply digest fuel s a rs h = Ret (Ok s1) →
  ∃ s2, verifyAndApply digest fuel s1 a' rs h' = Ret (Ok s2)
    ∧ state_class s2 = S8_BET_DECISION
    ∧ visible_cards s2 = visible_cards s ++ [revealed_card rp; revealed_card rp'].
Proof using digest_byte.
  intros Hs Ha Ha' Hg Hp Hcn Hdn Ho [A (n & Hn & H)]%gate_accepts.
  unfold enters_deck, is_class in H. rewrite Hs in H. rewrite bool_decide_eq_false_2 in H by done. cbn [andb] in H. subst n.
  assert (E1 : s1 = enter S6_CARD_REVEAL_FIRST
                 (set_visible_cards (visible_cards s ++ [revealed_card rp]) s)).
  { revert Hn. unfold applyAction. rewrite Ha. destruct (negb _); [done|].
    destruct (_ && _); [done|]. unfold applyCardReveal. rewrite Hs. by intros <-%accept_Ok. }
  set (s2 := set_acting_player_seat
    (match acting_player_seat s with None => seat <$> players s !! 0%nat | Some x => Some x end)
    (enter S8_BET_DECISION (set_visible_cards (visible_cards s1 ++ [revealed_card rp']) s1))).
  exists s2. split_and!.
  - apply gate_accepts. split.
    + unfold authentic in *. rewrite Ha in A. rewrite Ha'.
      destruct A as (dc & c & cn & dn & ce & cb & Hrest). exists dc, c, cn, dn, ce, cb.
      rewrite Hp, Hcn, Hdn, Ho, E1. exact Hrest.
    + exists s2. subst s2. rewrite E1. split; [|done].
      unfold applyAction. unfold action_type. rewrite Ha', Hg.
      change (game_id (enter _ _)) with (game_id s). rewrite bool_decide_true by done.
      by destruct (acting_player_seat s) eqn:Eact; cbn; unfold applyCardReveal; cbn; rewrite ?Eact.
  - done.
  - subst s2. rewrite E1. cbn. by rewrite <- app_assoc.
Qed.

(** ** Deck commitment and seat order *)

Lemma seat_sort_perm ps qs :
  NoDup (seat <$> ps) → qs ≡ₚ ps → merge_sort seat_le qs = merge_sort seat_le ps.
Proof.
  intros Hnd Hp. apply (StronglySorted_unique_strong seat_le).
  - intros p q Hin1 Hin2 H1 H2. rewrite merge_sort_Permutation in Hin1, Hin2.
    rewrite Hp in Hin1. apply list_elem_of_lookup_1 in Hin1 as [i Hi], Hin2 as [j Hj].
    assert (i = j) as ->.
    { apply (NoDup_lookup (seat <$> ps) i j (seat p) Hnd).
      - by rewrite list_lookup_fmap, Hi.
      - rewrite list_lookup_fmap, Hj. cbn. f_equal. unfold seat_le in *. lia. }
    congruence.
  - apply StronglySorted_merge_sort; [intros p q r; unfold seat_le; lia|].
    intros p q. unfold seat_le. lia.
  - apply StronglySorted_merge_sort; [intros p q r; unfold seat_le; lia|].
    intros p q. unfold seat_le. lia.
  - by rewrite !merge_sort_Permutation.
Qed.

(** The deck does not depend on who joined first.  Two states with the same players on
    distinct seats, in whatever order they joined, get the same combined entropy and the
    same deck commitment, or the same exception. *)
Theorem deck_order_independent s t rs :
  NoDup (seats s) → players t ≡ₚ players s →
  combined_entropy s = combined_entropy t → deck_commitment_hash s = deck_commitment_hash t →
  (λ u, (combined_entropy u, deck_commitment_hash u)) <$> materialiseDeckCommitment digest fuel s rs
  = (λ u, (combined_entropy u, deck_commitment_hash u)) <$> materialiseDeckCommitment digest fuel t rs.
Proof.
  intros Hnd Hp Hc Hd. unfold materialiseDeckCommitment.
  rewrite (seat_sort_perm (players s) (players t)) by done.
  destruct (collect_entropies _) as [[es|]| |]; cbn [mbind js_bind]; [|cbn; by rewrite Hc, Hd|done..].
  destruct (combineEntropy digest es) as [cb| |]; cbn [mbind js_bind]; [|done..].
  destruct (buildDeckCommitment _ _ _ _ _) as [dc| |]; cbn [mbind js_bind]; [|done..].
  destruct (asHash256 (toHex cb)) as [x| |]; cbn [mbind js_bind]; [|done..].
  by destruct (asHash256 (toHex (deckCommitmentHash dc))) as [y| |].
Qed.

(** ** Replays *)

Lemma stamp_restamp ce dch s : stamp ce dch (state_hash s) s = restamp ce dch s.
Proof. by destruct s. Qed.

Lemma restamp_restamp ce dch ce' dch' s : restamp ce dch (restamp ce' dch' s) = restamp ce dch s.
Proof. done. Qed.

Lemma restamp_same s : restamp (combined_entropy s) (deck_commitment_hash s) s = s.
Proof. by destruct s. Qed.

Lemma materialise_restamp s rs t :
  materialiseDeckCommitment digest fuel s rs = Ret t → ∃ ce dch, t = restamp ce dch s.
Proof.
  unfold materialiseDeckCommitment. intros ([es|] & _ & H)%js_bind_Ret.
  - apply js_bind_Ret in H as (cb & _ & (dc & _ & (ce & _ & (dch & _ & [= <-])
      %js_bind_Ret)%js_bind_Ret)%js_bind_Ret). by exists (Some ce), (Some dch).
  - injection H as <-. exists (combined_entropy s), (deck_commitment_hash s).
    by rewrite restamp_same.
Qed.

Lemma verifyAndApply_applyAction s a rs h s' :
  verifyAndApply digest fuel s a rs h = Ret (Ok s') →
  ∃ next ce dch, applyAction s a rs h = Ret (Ok next) ∧ s' = restamp ce dch next.
Proof using digest_byte.
  intros [_ (next & Hn & H)]%gate_accepts. exists next. destruct (enters_deck s next).
  - apply materialise_restamp in H as (ce & dch & ->). by exists ce, dch.
  - subst s'. exists (combined_entropy next), (deck_commitment_hash next).
    by rewrite restamp_same.
Qed.

(** The loop preserves what each accepted step preserves. *)
Lemma replay_loop_ind (P : list SignedAction → RoundState → Prop) name apply hs i acts s t :
  (∀ done s a h s', P done s → apply s a h = Ret (Ok s') → P (done ++ [a]) s') →
  ∀ done, P done s → replay_loop name apply hs i acts s = Ret (Ok t) → P (done ++ acts) t.
Proof.
  intros Hstep. revert i s. induction acts as [|a acts IH]; intros i s done HP.
  { intros [= <-]. by rewrite app_nil_r. }
  cbn [replay_loop]. destruct (height_at hs i) as [h|]; [|done].
  intros ([s'|e] & Hs' & H)%js_bind_Ret; [|done].
  apply (IH _ _ (done ++ [a])) in H; [by rewrite <- app_assoc in H|by eapply Hstep].
Qed.

Lemma replay_loop_sim rs hs i acts s t :
  replay_loop "replayWithVerification" (λ s a h, verifyAndApply digest fuel s a rs h) hs i acts s
    = Ret (Ok t) →
  replay_loop "replay" (λ s a h, applyAction s a rs h) hs i acts (restamp None None s)
    = Ret (Ok (restamp None None t)).
Proof using digest_byte.
  revert i s. induction acts as [|a acts IH]; intros i s; [by intros [= <-]|].
  cbn [replay_loop]. destruct (height_at hs i) as [h|]; [|done].
  intros ([s'|e] & Hs' & H)%js_bind_Ret; [|done]. cbv beta in *.
  apply verifyAndApply_applyAction in Hs' as (n & ce & dch & Hn & ->).
  rewrite applyAction_restamp, Hn. cbn [fmap js_fmap on_ok mbind js_bind].
  apply IH in H. by rewrite restamp_restamp in H.
Qed.

(** C13: replays are sessions.  What either replay returns is the state of a session in which
    exactly the given actions were accepted, so every property of sessions holds of it; and
    a transcript that replays with verification replays without, to the same state but for
    the deck stamps. *)
Theorem replay_sound g r rs d acts hs s :
  (replay g r rs d acts hs = Ret (Ok s) → trace rs g r d acts s)
  ∧ (replayWithVerification digest fuel g r rs d acts hs = Ret (Ok s) →
     trace rs g r d acts s ∧ replay g r rs d acts hs = Ret (Ok (restamp None None s))).
Proof using digest_byte.
  split; [|split].
  - apply (replay_loop_ind (trace rs g r d)) with (done := []); [|constructor].
    intros done s0 a h s' Ht Hs. by eapply trace_step.
  - revert H. apply (replay_loop_ind (trace rs g r d)) with (done := []); [|constructor].
    intros done s0 a h s' Ht (n & ce & dch & Hn & ->)%verifyAndApply_applyAction.
    rewrite <- stamp_restamp. apply trace_stamp. by eapply trace_step.
  - revert H. apply replay_loop_sim.
Qed.

(** Replay chains are empty of content.  No operation recomputes [state_hash]: every
    replayed state still carries the all-zero hash, so [chainsFrom] accepts any replayed
    state as the prior of any other that has seen an action, of whatever session. *)
Theorem replay_chain_vacuous g r rs d acts hs s g' r' rs' d' a' acts' hs' s' :
  replayWithVerification digest fuel g r rs d acts hs = Ret (Ok s) →
  replayWithVerification digest fuel g' r' rs' d' (a' :: acts') hs' = Ret (Ok s') →
  state_hash s = ZERO_HASH ∧ state_hash s' = ZERO_HASH ∧ chainsFrom (Some s) s' = true.
Proof using digest_byte.
  set (P := λ (done : list SignedAction) (t : RoundState), state_hash t = ZERO_HASH
    ∧ (done ≠ [] → prior_state_hash t = Some ZERO_HASH)).
  assert (HP : ∀ g r rs d acts hs t,
    replayWithVerification digest fuel g r rs d acts hs = Ret (Ok t) → P acts t).
  { clear - digest_byte. intros g r rs d acts hs t.
    apply (replay_loop_ind P) with (done := []); [|by split].
    intros done s a h s' [Hh _] (n & ce & dch & Hn & ->)%verifyAndApply_applyAction.
    pose proof (applyAction_linked s a rs h) as L. rewrite Hn in L. destruct L as [L1 L2].
    split; [rewrite restamp_state_hash; congruence|]. intros _.
    change (prior_state_hash n = Some ZERO_HASH). congruence. }
  intros H1%HP H2%HP. destruct H1 as [E1 _], H2 as [E2 E3].
  split_and!; [done..|]. unfold chainsFrom. rewrite E1, E3 by done. by apply bool_decide_eq_true.
Qed.
End gate.

(** ** A verified session under a constant digest *)

Definition hx (b : Z) : string := to_hex (replicate 32 b).

Definition v_rules : RuleSet :=
  mkRuleSet in_between 2 8 10000 100 5000 6 144 12 []
    (mkPenaltySchedule 500 700 100 200) 52 1 (mkSettlementRules 1 1 100 200)
    (mkRecoveryRules true true false) 1.

Definition v_act (who : option Seat) (p : ActionPayload) : SignedAction :=
  mkSignedAction (mkSignedActionBase (hx 1) 0 "" "" who "" "") p.

(** Under a constant digest every choice is 0, so position [n] holds ordinal [n + 1]. *)
Definition v_reveal (r : Rank) (n : Z) : RevealProof :=
  mkRevealProof n (mkRevealedCard r clubs (n + 1)) (hx 0) (hx 0).

Definition v_opening : list SignedAction :=
  [v_act None (JoinAction ("02" +:+ hx 5) 10000); v_act None (JoinAction ("03" +:+ hx 6) 10000);
   v_act None TableLockAction;
   v_act (Some 0) (EntropyCommitAction (hx 0)); v_act (Some 1) (EntropyCommitAction (hx 0));
   v_act (Some 0) (EntropyRevealAction (hx 7)); v_act (Some 1) (EntropyRevealAction (hx 8))].

Definition v_replay (acts : list SignedAction) : js (Result RoundState) :=
  replayWithVerification zero_digest 1 (hx 1) "r" v_rules 100 acts [10].

Definition v_state (acts : list SignedAction) : RoundState :=
  match v_replay acts with Ret (Ok s) => s | _ => initialState (hx 1) "r" 100 end.

Definition v_first : SignedAction := v_act None (CardRevealAction (v_reveal R3 0)).
Definition v_again : SignedAction := v_act None (CardRevealAction (v_reveal RA 0)).

Lemma verifyAndApply_gate_witness :
  authentic zero_digest 1 (v_state v_opening) v_rules v_first
  ∧ ∃ next, applyAction (v_state v_opening) v_first v_rules 10 = Ret (Ok next).
Proof.
  destruct (verifyAndApply zero_digest 1 (v_state v_opening) v_first v_rules 10) as [[s'|e]| |]
    eqn:E; [|by vm_compute in E..].
  apply (verifyAndApply_gate zero_digest 1 zero_digest_byte) in E as [Ha (n & Hn & _)].
  split; [exact Ha|by exists n].
Defined.

Lemma accepted_reveals_bound_witness :
  let e := ordinal (revealed_card (v_reveal R3 0)) in
  e = ordinal (revealed_card (v_reveal RA 0))
  ∨ ∃ dc c cn1 dn1 cn2 dn2,
      opens_card zero_digest 1 (v_state v_opening) v_rules (v_reveal R3 0) dc c cn1 dn1
      ∧ opens_card zero_digest 1 (v_state v_opening) v_rules (v_reveal RA 0) dc c cn2 dn2
      ∧ collides zero_digest (card_preimage e cn1 dn1)
          (card_preimage (ordinal (revealed_card (v_reveal RA 0))) cn2 dn2).
Proof.
  destruct (verifyAndApply zero_digest 1 (v_state v_opening) v_first v_rules 10) as [[s1|e]| |]
    eqn:E1; [|by vm_compute in E1..].
  destruct (verifyAndApply zero_digest 1 (v_state v_opening) v_again v_rules 10) as [[s2|e]| |]
    eqn:E2; [|by vm_compute in E2..].
  exact (proj2 (accepted_reveals_bound zero_digest 1 zero_digest_byte _ _ _ _ _ _ _ _ E1 E2)
           _ _ eq_refl eq_refl eq_refl).
Defined.

Lemma same_card_twice_witness :
  ∃ s1 s2, verifyAndApply zero_digest 1 (v_state v_opening) v_first v_rules 10 = Ret (Ok s1)
    ∧ verifyAndApply zero_digest 1 s1 v_again v_rules 11 = Ret (Ok s2)
    ∧ visible_cards s2 = [mkRevealedCard R3 clubs 1; mkRevealedCard RA clubs 1].
Proof.
  destruct (verifyAndApply zero_digest 1 (v_state v_opening) v_first v_rules 10) as [[s1|e]| |]
    eqn:E; [|by vm_compute in E..].
  destruct (same_card_twice zero_digest 1 zero_digest_byte (v_state v_opening) s1 v_first
    (v_reveal R3 0) v_again (v_reveal RA 0) v_rules 10 11) as (s2 & H2 & _ & Hv);
    [by vm_compute|done|done|by vm_compute|done|done|done|done|exact E|].
  exists s1, s2. split; [done|]. split; [exact H2|]. rewrite Hv. by vm_compute.
Defined.

Definition v_reordered : RoundState :=
  set_players (reverse (players (v_state v_opening))) (v_state v_opening).

Lemma deck_order_witness :
  (λ u, (combined_entropy u, deck_commitment_hash u))
    <$> materialiseDeckCommitment zero_digest 1 (v_state v_opening) v_rules
  = (λ u, (combined_entropy u, deck_commitment_hash u))
    <$> materialiseDeckCommitment zero_digest 1 v_reordered v_rules.
Proof.
  apply (deck_order_independent zero_digest 1 (v_state v_opening) v_reordered).
  - apply (bool_decide_unpack _). by vm_compute.
  - apply reverse_Permutation.
  - by vm_compute.
  - by vm_compute.
Defined.

Lemma replay_sound_witness :
  trace v_rules (hx 1) "r" 100 (v_opening ++ [v_first]) (v_state (v_opening ++ [v_first]))
  ∧ is_ret (replay (hx 1) "r" v_rules 100 (v_opening ++ [v_first]) [10]) = true.
Proof.
  destruct (replay_sound zero_digest 1 zero_digest_byte (hx 1) "r" v_rules 100
    (v_opening ++ [v_first]) [10] (v_state (v_opening ++ [v_first]))) as [_ H].
  destruct H as [H1 H2]; [by vm_compute|]. split; [exact H1|]. by rewrite H2.
Defined.

Lemma replay_chain_witness :
  chainsFrom (Some (v_state (v_opening ++ [v_first]))) (v_state [v_act None (JoinAction "pk" 10000)])
  = true.
Proof.
  apply (replay_chain_vacuous zero_digest 1 zero_digest_byte (hx 1) "r" v_rules 100
    (v_opening ++ [v_first]) [10] _ (hx 1) "r" v_rules 100 (v_act None (JoinAction "pk" 10000))
    [] [10]); by vm_compute.
Defined.
