(* ===== verification/Script.v ===== *)
(** * script-templates: the byte writer and the locking scripts

    [packages/script-templates/src]: opcodes ([opcodes.ts]), the script writer
    ([writer.ts]), lock times ([locktime.ts]) and one builder per template.  The mutable
    [ScriptWriter] is its buffer, passed through; every [BranchSpec] of the sources has
    the same shape.  [ScriptSpec] says what the scripts are for. *)

From S2P Require Import Prelude Bytes Primitives.

(** ** opcodes.ts *)

Module OP.
Definition OP_0 : Z := 0x00.
Definition OP_FALSE : Z := 0x00.
Definition OP_1NEGATE : Z := 0x4f.
Definition OP_RESERVED : Z := 0x50.
Definition OP_1 : Z := 0x51.
Definition OP_TRUE : Z := 0x51.
Definition OP_2 : Z := 0x52.
Definition OP_3 : Z := 0x53.
Definition OP_4 : Z := 0x54.
Definition OP_5 : Z := 0x55.
Definition OP_6 : Z := 0x56.
Definition OP_7 : Z := 0x57.
Definition OP_8 : Z := 0x58.
Definition OP_9 : Z := 0x59.
Definition OP_10 : Z := 0x5a.
Definition OP_11 : Z := 0x5b.
Definition OP_12 : Z := 0x5c.
Definition OP_13 : Z := 0x5d.
Definition OP_14 : Z := 0x5e.
Definition OP_15 : Z := 0x5f.
Definition OP_16 : Z := 0x60.
Definition OP_NOP : Z := 0x61.
Definition OP_VER : Z := 0x62.
Definition OP_IF : Z := 0x63.
Definition OP_NOTIF : Z := 0x64.
Definition OP_ELSE : Z := 0x67.
Definition OP_ENDIF : Z := 0x68.
Definition OP_VERIFY : Z := 0x69.
Definition OP_RETURN : Z := 0x6a.
Definition OP_TOALTSTACK : Z := 0x6b.
Definition OP_FROMALTSTACK : Z := 0x6c.
Definition OP_DROP : Z := 0x75.
Definition OP_DUP : Z := 0x76.
Definition OP_NIP : Z := 0x77.
Definition OP_OVER : Z := 0x78.
Definition OP_EQUAL : Z := 0x87.
Definition OP_EQUALVERIFY : Z := 0x88.
Definition OP_ADD : Z := 0x93.
Definition OP_SUB : Z := 0x94.
Definition OP_RIPEMD160 : Z := 0xa6.
Definition OP_SHA1 : Z := 0xa7.
Definition OP_SHA256 : Z := 0xa8.
Definition OP_HASH160 : Z := 0xa9.
Definition OP_HASH256 : Z := 0xaa.
Definition OP_CODESEPARATOR : Z := 0xab.
Definition OP_CHECKSIG : Z := 0xac.
Definition OP_CHECKSIGVERIFY : Z := 0xad.
Definition OP_CHECKMULTISIG : Z := 0xae.
Definition OP_CHECKMULTISIGVERIFY : Z := 0xaf.
End OP.
Import OP.

Definition opNumber (n : Z) : js Z :=
  if n =? 0 then Ret OP_0
  else if (n <? 1) || (16 <? n)
  then Throw ("opNumber: only 0..16 representable as OP_N (got " +:+ pretty n +:+ ")")
  else Ret (OP_1 + (n - 1)).

(** ** writer.ts *)

(** [while (v > 0) { out.push(v & 0xff); v >>>= 8; }].  The first shift leaves at most 24
    bits, so five iterations always suffice ([encodeScriptNum_value]). *)
Fixpoint script_num_loop (fuel : nat) (v : Z) : js (list Z) :=
  match fuel with
  | O => OutOfFuel
  | S fuel =>
    if 0 <? v then
      rest ← script_num_loop fuel (js_ushr v 8);
      Ret (js_and v 0xff :: rest)
    else Ret []
  end.

Definition encodeScriptNum (n : Z) : js bytes :=
  if n =? 0 then Ret []
  else
    out ← script_num_loop 6 (Z.abs n);
    match list.last out with
    | None => Throw "encodeScriptNum: indexing failure"
    | Some l =>
      Ret (u8 <$>
        (if negb (js_and l 0x80 =? 0) then out ++ [if n <? 0 then 0x80 else 0x00]
         else if n <? 0 then <[(length out - 1)%nat := js_or l 0x80]> out
         else out))
    end.

(** The writer is its buffer of numbers; [bytes()] stores them in a [Uint8Array]. *)
Definition ScriptWriter : Type := list Z.

Definition new_script : ScriptWriter := [].
Definition size (w : ScriptWriter) : Z := Z.of_nat (length w).
Definition script_bytes (w : ScriptWriter) : bytes := u8 <$> w.

Definition op (o : Z) (w : ScriptWriter) : js ScriptWriter :=
  if (o <? 0) || (0xff <? o) then Throw ("ScriptWriter.op: byte out of range " +:+ pretty o)
  else Ret (w ++ [o]).

Definition pushData (data : bytes) (w : ScriptWriter) : js ScriptWriter :=
  let n := blen data in
  if n =? 0 then Ret (w ++ [OP_0])
  else if n =? 1 then
    match data !! 0%nat with
    | None => Throw "pushData: indexing failure"
    | Some b =>
      if (1 <=? b) && (b <=? 16) then Ret (w ++ [OP_1 + b - 1])
      else if b =? 0x81 then Ret (w ++ [OP_1NEGATE])
      else Ret (w ++ [1; b])
    end
  else if n <=? 75 then Ret (w ++ [n] ++ data)
  else if n <=? 255 then Ret (w ++ [0x4c; n] ++ data)
  else if n <=? 65535 then
    Ret (w ++ [0x4d; js_and n 0xff; js_and (js_shr n 8) 0xff] ++ data)
  else
    Ret (w ++ [0x4e; js_and n 0xff; js_and (js_shr n 8) 0xff; js_and (js_shr n 16) 0xff;
               js_and (js_shr n 24) 0xff] ++ data).

Definition pushNumber (n : Z) (w : ScriptWriter) : js ScriptWriter :=
  if (0 <=? n) && (n <=? 16) then o ← opNumber n; Ret (w ++ [o])
  else b ← encodeScriptNum n; pushData b w.

Definition hexToBytes (hex : string) : js bytes :=
  if negb (js_length hex mod 2 =? 0) then Throw "hexToBytes: odd length"
  else hex_pairs (λ off, Throw ("hexToBytes: non-hex at " +:+ pretty (off / 2))) 0 (js_units hex).

Definition bytesToHex (b : bytes) : string := to_hex b.

Definition pushPubkey (hex : string) (w : ScriptWriter) : js ScriptWriter :=
  if negb (is_pubkey33 hex)
  then Throw ("pushPubkey: expected 33-byte compressed pubkey, got " +:+ hex)
  else b ← hexToBytes hex; pushData b w.

Definition pushHash32 (hex : string) (w : ScriptWriter) : js ScriptWriter :=
  if negb (is_hex_n 64 hex)
  then Throw ("pushHash32: expected 32 bytes of hex, got " +:+ hex)
  else b ← hexToBytes hex; pushData b w.

(** [for (const pk of pks) w.pushPubkey(pk)] *)
Fixpoint pushPubkeys (pks : list Pubkey33) (w : ScriptWriter) : js ScriptWriter :=
  match pks with
  | [] => Ret w
  | pk :: pks => w ← pushPubkey pk w; pushPubkeys pks w
  end.

(** ** locktime.ts *)

Inductive LockTimeSpec : Type :=
  | immediate
  | absolute_height (not_before_height : BlockHeight) (input_sequence : option Z)
  | relative_blocks (blocks_since_input_confirmation : Z).

Definition absoluteHeight (h : BlockHeight) (inputSequence : Z) : LockTimeSpec :=
  absolute_height h (Some inputSequence).

Definition relativeBlocks (blocks : Z) : js LockTimeSpec :=
  if blocks <? 1
  then Throw ("relativeBlocks: must be a positive integer (got " +:+ pretty blocks +:+ ")")
  else Ret (relative_blocks blocks).

(** ** The templates *)

Record BranchSpec := branch { br_name : string; br_locktime : LockTimeSpec }.
Record Built := mkBuilt { locking_script : bytes; branches : list BranchSpec }.

Record TableRootParams := mkTableRootParams {
  tr_seated_pubkeys : list Pubkey33;
  tr_recovery_height : BlockHeight
}.

Definition buildTableRoot (p : TableRootParams) : js Built :=
  let n := Z.of_nat (length (tr_seated_pubkeys p)) in
  if n =? 0 then Throw "buildTableRoot: at least one pubkey required"
  else if 16 <? n
  then Throw ("buildTableRoot: seat count " +:+ pretty n +:+ " exceeds v1 max of 16")
  else
    w ← pushNumber n new_script;
    w ← pushPubkeys (tr_seated_pubkeys p) w;
    w ← pushNumber n w;
    w ← op OP_CHECKMULTISIG w;
    Ret (mkBuilt (script_bytes w)
      [branch "cooperative" immediate;
       branch "recovery" (absoluteHeight (tr_recovery_height p) 0)]).

Record StakeLockParams := mkStakeLockParams {
  sl_player_pubkey : Pubkey33;
  sl_operator_pubkey : Pubkey33;
  sl_expected_settlement_hash : Hash256;
  sl_recovery_height : BlockHeight
}.

Definition buildStakeLock (p : StakeLockParams) : js Built :=
  w ← op OP_IF new_script;
  w ← pushNumber 2 w;
  w ← pushPubkey (sl_player_pubkey p) w;
  w ← pushPubkey (sl_operator_pubkey p) w;
  w ← pushNumber 2 w;
  w ← op OP_CHECKMULTISIG w;
  w ← op OP_ELSE w;
  w ← op OP_IF w;
  w ← op OP_HASH256 w;
  w ← pushHash32 (sl_expected_settlement_hash p) w;
  w ← op OP_EQUALVERIFY w;
  w ← pushPubkey (sl_player_pubkey p) w;
  w ← op OP_CHECKSIG w;
  w ← op OP_ELSE w;
  w ← pushPubkey (sl_player_pubkey p) w;
  w ← op OP_CHECKSIG w;
  w ← op OP_ENDIF w;
  w ← op OP_ENDIF w;
  Ret (mkBuilt (script_bytes w)
    [branch "cooperative" immediate; branch "winner_claim" immediate;
     branch "refund" (absoluteHeight (sl_recovery_height p) 0)]).

Record PotLockParams := mkPotLockParams {
  pl_seated_pubkeys : list Pubkey33;
  pl_winner_proof_hash : Hash256;
  pl_winner_pubkey : Pubkey33;
  pl_refund_pubkey : Pubkey33;
  pl_recovery_height : BlockHeight
}.

Definition buildPotLock (p : PotLockParams) : js Built :=
  let n := Z.of_nat (length (pl_seated_pubkeys p)) in
  if n =? 0 then Throw "buildPotLock: at least one pubkey required"
  else if 16 <? n then Throw "buildPotLock: seat count > 16 not supported in v1"
  else
    w ← op OP_IF new_script;
    w ← pushNumber n w;
    w ← pushPubkeys (pl_seated_pubkeys p) w;
    w ← pushNumber n w;
    w ← op OP_CHECKMULTISIG w;
    w ← op OP_ELSE w;
    w ← op OP_IF w;
    w ← op OP_SHA256 w;
    w ← pushHash32 (pl_winner_proof_hash p) w;
    w ← op OP_EQUALVERIFY w;
    w ← pushPubkey (pl_winner_pubkey p) w;
    w ← op OP_CHECKSIG w;
    w ← op OP_ELSE w;
    w ← pushPubkey (pl_refund_pubkey p) w;
    w ← op OP_CHECKSIG w;
    w ← op OP_ENDIF w;
    w ← op OP_ENDIF w;
    Ret (mkBuilt (script_bytes w)
      [branch "cooperative" immediate; branch "winner_claim" immediate;
       branch "refund" (absoluteHeight (pl_recovery_height p) 0)]).

Record EntropyCommitParams := mkEntropyCommitParams {
  ec_commitment_hash : Hash256;
  ec_player_pubkey : Pubkey33;
  ec_other_pubkeys : list Pubkey33;
  ec_decision_timeout_blocks : Z;
  ec_recovery_height : BlockHeight
}.

Definition buildEntropyCommit (p : EntropyCommitParams) : js Built :=
  let n := Z.of_nat (length (ec_other_pubkeys p)) in
  w ← op OP_IF new_script;
  w ← op OP_SHA256 w;
  w ← pushHash32 (ec_commitment_hash p) w;
  w ← op OP_EQUALVERIFY w;
  w ← pushPubkey (ec_player_pubkey p) w;
  w ← op OP_CHECKSIG w;
  w ← op OP_ELSE w;
  w ← op OP_IF w;
  w ← (if n =? 0 then op OP_RETURN w
       else if 16 <? n
       then Throw "buildEntropyCommit: other_pubkeys > 16 not supported in v1"
       else
         w ← pushNumber n w;
         w ← pushPubkeys (ec_other_pubkeys p) w;
         w ← pushNumber n w;
         op OP_CHECKMULTISIG w);
  w ← op OP_ELSE w;
  w ← pushPubkey (ec_player_pubkey p) w;
  w ← op OP_CHECKSIG w;
  w ← op OP_ENDIF w;
  w ← op OP_ENDIF w;
  fallback ← relativeBlocks (ec_decision_timeout_blocks p);
  Ret (mkBuilt (script_bytes w)
    [branch "reveal" immediate; branch "cooperative_fallback" fallback;
     branch "refund" (absoluteHeight (ec_recovery_height p) 0)]).

Record CardCustodyParams := mkCardCustodyParams {
  cu_face_commitment : Hash256;
  cu_holder_pubkey : Pubkey33;
  cu_original_funder_pubkey : Pubkey33;
  cu_recovery_height : BlockHeight
}.

Definition buildCardCustody (p : CardCustodyParams) : js Built :=
  w ← op OP_IF new_script;
  w ← op OP_HASH256 w;
  w ← pushHash32 (cu_face_commitment p) w;
  w ← op OP_EQUALVERIFY w;
  w ← pushPubkey (cu_holder_pubkey p) w;
  w ← op OP_CHECKSIG w;
  w ← op OP_ELSE w;
  w ← op OP_IF w;
  w ← pushPubkey (cu_holder_pubkey p) w;
  w ← op OP_CHECKSIG w;
  w ← op OP_ELSE w;
  w ← pushPubkey (cu_original_funder_pubkey p) w;
  w ← op OP_CHECKSIG w;
  w ← op OP_ENDIF w;
  w ← op OP_ENDIF w;
  Ret (mkBuilt (script_bytes w)
    [branch "reveal" immediate; branch "fold_surrender" immediate;
     branch "recovery_refund" (absoluteHeight (cu_recovery_height p) 0)]).

Record RoundStateParams := mkRoundStateParams {
  rs_successor_template_hash : Hash256;
  rs_timeout_template_hash : Hash256;
  rs_acting_player_pubkey : Pubkey33;
  rs_seated_pubkeys : list Pubkey33;
  rs_decision_timeout_blocks : Z;
  rs_recovery_height : BlockHeight
}.

Definition buildRoundState (p : RoundStateParams) : js Built :=
  let n := Z.of_nat (length (rs_seated_pubkeys p)) in
  if n =? 0 then Throw "buildRoundState: at least one seated pubkey required"
  else if 16 <? n then Throw "buildRoundState: seat count > 16 not supported in v1"
  else
    w ← op OP_IF new_script;
    w ← op OP_HASH256 w;
    w ← pushHash32 (rs_successor_template_hash p) w;
    w ← op OP_EQUALVERIFY w;
    w ← pushPubkey (rs_acting_player_pubkey p) w;
    w ← op OP_CHECKSIG w;
    w ← op OP_ELSE w;
    w ← op OP_IF w;
    w ← op OP_HASH256 w;
    w ← pushHash32 (rs_timeout_template_hash p) w;
    w ← op OP_EQUALVERIFY w;
    w ← pushNumber n w;
    w ← pushPubkeys (rs_seated_pubkeys p) w;
    w ← pushNumber n w;
    w ← op OP_CHECKMULTISIG w;
    w ← op OP_ELSE w;
    w ← pushNumber n w;
    w ← pushPubkeys (rs_seated_pubkeys p) w;
    w ← pushNumber n w;
    w ← op OP_CHECKMULTISIG w;
    w ← op OP_ENDIF w;
    w ← op OP_ENDIF w;
    timeout ← relativeBlocks (rs_decision_timeout_blocks p);
    Ret (mkBuilt (script_bytes w)
      [branch "action" immediate; branch "timeout" timeout;
       branch "recovery" (absoluteHeight (rs_recovery_height p) 0)]).

Record SettleClaimParams := mkSettleClaimParams {
  sc_settlement_commitment : Hash256;
  sc_winner_pubkey : Pubkey33
}.

Definition buildSettleClaimScript (p : SettleClaimParams) : js bytes :=
  w ← op OP_HASH256 new_script;
  w ← pushHash32 (sc_settlement_commitment p) w;
  w ← op OP_EQUALVERIFY w;
  w ← pushPubkey (sc_winner_pubkey p) w;
  w ← op OP_CHECKSIG w;
  Ret (script_bytes w).

Record FoldSurrenderParams := mkFoldSurrenderParams {
  fs_original_funder_pubkey : Pubkey33;
  fs_recovery_height : BlockHeight
}.

Definition buildFoldSurrender (p : FoldSurrenderParams) : js Built :=
  w ← pushPubkey (fs_original_funder_pubkey p) new_script;
  w ← op OP_CHECKSIG w;
  Ret (mkBuilt (script_bytes w)
    [branch "recovery_refund" (absoluteHeight (fs_recovery_height p) 0)]).

Record RevealProofParams := mkRevealProofParams {
  rv_card_commitment : Hash256;
  rv_signer_pubkey : Pubkey33
}.

Definition buildRevealProofScript (p : RevealProofParams) : js bytes :=
  w ← op OP_HASH256 new_script;
  w ← pushHash32 (rv_card_commitment p) w;
  w ← op OP_EQUALVERIFY w;
  w ← pushPubkey (rv_signer_pubkey p) w;
  w ← op OP_CHECKSIG w;
  Ret (script_bytes w).

(** One branch, given by its lock time alone *)
Record TimeoutBranchParams := mkTimeoutBranchParams {
  tb_decision_timeout_blocks : Z;
  tb_timeout_template_hash : Hash256;
  tb_authoriser_pubkeys : list Pubkey33
}.

Record BuiltBranch := mkBuiltBranch { bb_locking_script : bytes; bb_locktime : LockTimeSpec }.

Definition buildTimeoutBranch (p : TimeoutBranchParams) : js BuiltBranch :=
  let n := Z.of_nat (length (tb_authoriser_pubkeys p)) in
  if n =? 0 then Throw "buildTimeoutBranch: at least one authoriser required"
  else if 16 <? n then Throw "buildTimeoutBranch: authoriser count > 16 not supported in v1"
  else
    w ← op OP_HASH256 new_script;
    w ← pushHash32 (tb_timeout_template_hash p) w;
    w ← op OP_EQUALVERIFY w;
    w ← pushNumber n w;
    w ← pushPubkeys (tb_authoriser_pubkeys p) w;
    w ← pushNumber n w;
    w ← op OP_CHECKMULTISIG w;
    t ← relativeBlocks (tb_decision_timeout_blocks p);
    Ret (mkBuiltBranch (script_bytes w) t).

Record RecoveryBranchParams := mkRecoveryBranchParams {
  rb_recovery_height : BlockHeight;
  rb_signer_pubkey : Pubkey33
}.

Definition buildRecoveryBranchTemplate (p : RecoveryBranchParams) : js BuiltBranch :=
  w ← pushPubkey (rb_signer_pubkey p) new_script;
  w ← op OP_CHECKSIG w;
  Ret (mkBuiltBranch (script_bytes w) (absoluteHeight (rb_recovery_height p) 0)).

(** The script-only conveniences *)
Definition buildTableRootLockingScript p := locking_script <$> buildTableRoot p.
Definition buildStakeLockScript p := locking_script <$> buildStakeLock p.
Definition buildPotLockScript p := locking_script <$> buildPotLock p.
Definition buildEntropyCommitScript p := locking_script <$> buildEntropyCommit p.
Definition buildCardCustodyScript p := locking_script <$> buildCardCustody p.
Definition buildRoundStateScript p := locking_script <$> buildRoundState p.
Definition buildFoldSurrenderScript p := locking_script <$> buildFoldSurrender p.
Definition buildTimeoutBranchScript p := bb_locking_script <$> buildTimeoutBranch p.
Definition buildRecoveryBranch p := bb_locking_script <$> buildRecoveryBranchTemplate p.
