(* ===== verification/ScriptSpec.v ===== *)
(** * script-templates: what the scripts enforce

    The specification side of [Script].  A script is a list of instructions; [run] says what
    a post-Genesis BSV node does with the opcodes the templates use, over a stack listed
    from its top (hash functions and the signature check are parameters; the transaction
    being signed is implicit in the latter).  A [policy] says who may spend; every template
    compiles to the instructions of a policy, and running these decides the policy. *)

From S2P Require Import Prelude Bytes Primitives Script.
Import OP.

(** ** Instructions *)

Inductive instr : Type :=
  | I_op (o : Z)
  | I_push (data : bytes).

(** One pushed item: the bytes it takes after the opcode [b], and the rest *)
Definition push_size (b : Z) (r : bytes) : option (nat * bytes) :=
  if b <=? 75 then Some (Z.to_nat b, r)
  else if b =? 0x4c then Some (Z.to_nat (le_val (take 1 r)), drop 1 r)
  else if b =? 0x4d then Some (Z.to_nat (le_val (take 2 r)), drop 2 r)
  else if b =? 0x4e then Some (Z.to_nat (le_val (take 4 r)), drop 4 r)
  else None.

Fixpoint parse (fuel : nat) (bs : bytes) : option (list instr) :=
  match bs, fuel with
  | [], _ => Some []
  | _ :: _, O => None
  | b :: r, S fuel =>
    if b =? 0 then cons (I_op 0) <$> parse fuel r
    else match push_size b r with
    | None => cons (I_op b) <$> parse fuel r
    | Some (n, r) =>
      if (length r <? n)%nat then None
      else cons (I_push (take n r)) <$> parse fuel (drop n r)
    end
  end.

Definition parse_script (bs : bytes) : option (list instr) := parse (length bs) bs.

(** ** Execution *)

Section semantics.
Context (sha256 hash256 : bytes → bytes) (checksig : bytes → bytes → bool).

(** A stack item is false when all its bytes are zero, but for a sign bit in the last. *)
Fixpoint truthy (v : bytes) : bool :=
  match v with
  | [] => false
  | [b] => negb ((b =? 0) || (b =? 0x80))
  | b :: v => negb (b =? 0) || truthy v
  end.

Definition of_bool (b : bool) : bytes := if b then [1] else [].

(** Counts are one byte here. *)
Definition count_of (v : bytes) : option nat :=
  match v with
  | [] => Some 0%nat
  | [b] => if b <? 0x80 then Some (Z.to_nat b) else None
  | _ => None
  end.

(** Signatures against keys, both in order: each signature uses up keys until one fits. *)
Fixpoint multisig (sigs keys : list bytes) : bool :=
  match keys, sigs with
  | _, [] => true
  | [], _ :: _ => false
  | k :: keys, s :: sigs' =>
    if (length (k :: keys) <? length sigs)%nat then false
    else if checksig s k then multisig sigs' keys else multisig sigs keys
  end.

(** [n keys m sigs dummy], from the top of the stack *)
Definition do_multisig (st : list bytes) : option (list bytes) :=
  match st with
  | n :: st =>
    n ← count_of n;
    let keys := take n st in
    match drop n st with
    | m :: st =>
      m ← count_of m;
      let sigs := take m st in
      match drop m st with
      | _ :: st =>
        if (length keys =? n)%nat && (length sigs =? m)%nat
        then Some (of_bool (multisig sigs keys) :: st) else None
      | [] => None
      end
    | [] => None
    end
  | [] => None
  end.

Record machine := Machine { stack : list bytes; conds : list bool; returned : bool }.

Definition executing (m : machine) : bool := forallb id (conds m) && negb (returned m).

(** An opcode other than the conditionals, on the stack *)
Definition exec_op (o : Z) (st : list bytes) : option (list bytes) :=
  if o =? OP_0 then Some ([] :: st)
  else if o =? OP_1NEGATE then Some ([0x81] :: st)
  else if (OP_1 <=? o) && (o <=? OP_16) then Some ([o - 0x50] :: st)
  else if o =? OP_SHA256 then
    match st with x :: st => Some (sha256 x :: st) | [] => None end
  else if o =? OP_HASH256 then
    match st with x :: st => Some (hash256 x :: st) | [] => None end
  else if o =? OP_EQUALVERIFY then
    match st with x :: y :: st => if bool_decide (x = y) then Some st else None | _ => None end
  else if o =? OP_CHECKSIG then
    match st with k :: s :: st => Some (of_bool (checksig s k) :: st) | _ => None end
  else if o =? OP_CHECKMULTISIG then do_multisig st
  else None.

Definition step (i : instr) (m : machine) : option machine :=
  let 'Machine st cs r := m in
  match i with
  | I_push d => Some (if executing m then Machine (d :: st) cs r else m)
  | I_op o =>
    if o =? OP_IF then
      if executing m then
        match st with v :: st => Some (Machine st (truthy v :: cs) r) | [] => None end
      else Some (Machine st (false :: cs) r)
    else if o =? OP_ELSE then
      match cs with c :: cs => Some (Machine st (negb c :: cs) r) | [] => None end
    else if o =? OP_ENDIF then
      match cs with _ :: cs => Some (Machine st cs r) | [] => None end
    else if negb (executing m) then Some m
    else if o =? OP_RETURN then Some (Machine st cs true)
    else st ← exec_op o st; Some (Machine st cs r)
  end.

(** After Genesis, an executed OP_RETURN outside conditionals ends the script; inside, nothing
    more is executed but the conditionals must still balance.  The final stack decides. *)
Definition ends (i : instr) (m : machine) : bool :=
  match i with
  | I_op o => (o =? OP_RETURN) && executing m && bool_decide (conds m = [])
  | I_push _ => false
  end.

Fixpoint run (prog : list instr) (m : machine) : option (list bytes) :=
  match prog with
  | [] => match conds m with [] => Some (stack m) | _ :: _ => None end
  | i :: prog => if ends i m then Some (stack m) else m ← step i m; run prog m
  end.

Definition result (o : option (list bytes)) : bool :=
  match o with Some (v :: _) => truthy v | _ => false end.

(** The locking script [bs] lets a spend with the initial stack [st] through. *)
Definition unlocks (bs : bytes) (st : list bytes) : bool :=
  match parse_script bs with
  | Some prog => result (run prog (Machine st [] false))
  | None => false
  end.

(** ** Policies *)

Inductive policy : Type :=
  | P_sig (key : bytes)
  | P_multi (keys : list bytes)
  | P_hash (o : Z) (digest : bytes) (rest : policy)
  | P_return
  | P_or (a b : policy).

Definition hash_of (o : Z) : bytes → bytes := if o =? OP_SHA256 then sha256 else hash256.

(** The stacks a policy admits: the choices of branches, preimages and signatures, from the
    top; a multisignature has a dummy item below its signatures. *)
Fixpoint admits (p : policy) (st : list bytes) : bool :=
  match p, st with
  | P_sig k, s :: _ => checksig s k
  | P_multi keys, _ =>
    (length keys <? length st)%nat
    && forallb id (zip_with checksig (take (length keys) st) (reverse keys))
  | P_hash o d p, x :: st => bool_decide (hash_of o x = d) && admits p st
  | P_return, v :: _ => truthy v
  | P_or a b, v :: st => if truthy v then admits a st else admits b st
  | _, [] => false
  end.

Fixpoint instrs (p : policy) : list instr :=
  match p with
  | P_sig k => [I_push k; I_op OP_CHECKSIG]
  | P_multi keys =>
    let n := 0x50 + Z.of_nat (length keys) in
    I_op n :: (I_push <$> keys) ++ [I_op n; I_op OP_CHECKMULTISIG]
  | P_hash o d p => I_op o :: I_push d :: I_op OP_EQUALVERIFY :: instrs p
  | P_return => [I_op OP_RETURN]
  | P_or a b => I_op OP_IF :: instrs a ++ I_op OP_ELSE :: instrs b ++ [I_op OP_ENDIF]
  end.

Fixpoint well_formed (p : policy) : bool :=
  match p with
  | P_sig _ | P_return => true
  | P_multi keys => (0 <? length keys)%nat && (length keys <=? 16)%nat
  | P_hash o _ p => ((o =? OP_SHA256) || (o =? OP_HASH256)) && well_formed p
  | P_or a b => well_formed a && well_formed b
  end.

(** ** Running a policy decides it *)

Lemma multisig_all sigs keys :
  length sigs = length keys → multisig sigs keys = forallb id (zip_with checksig sigs keys).
Proof.
  revert keys. induction sigs as [|s sigs IH]; intros [|k keys] Hlen; try done.
  cbn [multisig zip_with forallb id]. injection Hlen as Hlen.
  rewrite (proj2 (Nat.ltb_ge _ _)) by (cbn [length]; lia).
  destruct (checksig s k); [by apply IH|]. cbn [andb]. destruct keys as [|k' keys]; [done|].
  cbn [multisig]. by rewrite (proj2 (Nat.ltb_lt _ _)) by (cbn [length] in *; lia).
Qed.

Lemma count_of_small n : (n < 128)%nat → count_of [Z.of_nat n] = Some n.
Proof.
  intros H. unfold count_of. by rewrite (proj2 (Z.ltb_lt _ 0x80)), Nat2Z.id by lia.
Qed.

Lemma do_multisig_spec n keys st :
  length keys = n → (n < 128)%nat →
  do_multisig ([Z.of_nat n] :: keys ++ [Z.of_nat n] :: st)
  = if (n <? length st)%nat
    then Some (of_bool (forallb id (zip_with checksig (take n st) keys)) :: drop (S n) st)
    else None.
Proof.
  intros Hk Hn. unfold do_multisig. rewrite count_of_small by done. cbn [mbind option_bind].
  rewrite drop_app_length', take_app_length' by done. rewrite count_of_small by done.
  cbn [mbind option_bind].
  destruct (Nat.ltb_spec n (length st)) as [Hlt|Hge].
  - destruct (drop n st) as [|d st'] eqn:E.
    { apply (f_equal length) in E. rewrite length_drop in E. simpl in E. lia. }
    rewrite Hk, length_take, Nat.min_l, Nat.eqb_refl by lia. cbn [andb].
    rewrite multisig_all by (rewrite length_take; lia).
    replace (drop (S n) st) with (drop 1 (drop n st)) by (rewrite drop_drop; f_equal; lia).
    by rewrite E.
  - rewrite drop_ge by done. done.
Qed.

(** Instructions that only close the conditionals still open *)
Inductive closes : list instr → list bool → Prop :=
  | closes_nil : closes [] []
  | closes_endif k c cs : closes k cs → closes (I_op OP_ENDIF :: k) (c :: cs)
  | closes_else b k cs :
      well_formed b = true → closes k cs → closes (I_op OP_ELSE :: instrs b ++ I_op OP_ENDIF :: k) (true :: cs).

Lemma run_cons i prog m m' :
  ends i m = false → step i m = Some m' → run (i :: prog) m = run prog m'.
Proof. intros E H. cbn [run]. by rewrite E, H. Qed.

(** What is not executed leaves the machine alone. *)
Definition plain (i : instr) : bool :=
  match i with
  | I_push _ => true
  | I_op o => negb (o =? OP_IF) && negb (o =? OP_ELSE) && negb (o =? OP_ENDIF)
  end.

Lemma idle_continues i m : executing m = false → ends i m = false.
Proof. intros H. destruct i as [o|d]; [|done]. cbn [ends]. by rewrite H, andb_false_r. Qed.

Lemma step_plain_idle i m : plain i = true → executing m = false → step i m = Some m.
Proof.
  destruct m as [st cs r], i as [o|d]; cbn [step plain]; intros Hp ->; [|done].
  apply andb_true_iff in Hp as [[Hif Helse]%andb_true_iff Hend].
  apply negb_true_iff in Hif, Helse, Hend. by rewrite Hif, Helse, Hend.
Qed.

Lemma run_skip_plain prog k m :
  Forall (λ i, plain i = true) prog → executing m = false → run (prog ++ k) m = run k m.
Proof.
  intros H Hm. induction H as [|i prog Hi _ IH]; [done|]. cbn [app].
  rewrite (run_cons i _ m m); [done|by apply idle_continues|by apply step_plain_idle].
Qed.

Lemma plain_multi keys :
  (0 <? length keys)%nat && (length keys <=? 16)%nat = true →
  Forall (λ i, plain i = true) (instrs (P_multi keys)).
Proof.
  intros [Hlo%Nat.ltb_lt Hhi%Nat.leb_le]%andb_true_iff. cbn [instrs].
  assert (Hn : plain (I_op (0x50 + Z.of_nat (length keys))) = true).
  { unfold plain, OP_IF, OP_ELSE, OP_ENDIF.
    rewrite !(proj2 (Z.eqb_neq _ _)) by lia. done. }
  constructor; [done|]. apply list.Forall_app. split; [|by repeat constructor].
  rewrite Forall_fmap. by apply list.Forall_true.
Qed.

Lemma run_skip p k m :
  well_formed p = true → executing m = false → run (instrs p ++ k) m = run k m.
Proof.
  revert k m. induction p as [key|keys|o d p IH| |a IHa b IHb]; intros k m Hwf Hm.
  - apply run_skip_plain; [by repeat constructor|done].
  - apply run_skip_plain; [by apply plain_multi|done].
  - cbn [well_formed] in Hwf. apply andb_true_iff in Hwf as [Ho Hwf].
    change (instrs (P_hash o d p) ++ k)
      with ([I_op o; I_push d; I_op OP_EQUALVERIFY] ++ (instrs p ++ k)).
    rewrite run_skip_plain; [by apply IH| |done].
    repeat constructor. by apply orb_true_iff in Ho as [->%Z.eqb_eq| ->%Z.eqb_eq].
  - apply run_skip_plain; [by repeat constructor|done].
  - cbn [well_formed] in Hwf. apply andb_true_iff in Hwf as [Ha Hb].
    destruct m as [st cs r]. cbn [instrs app].
    assert (Hidle : ∀ c, executing (Machine st (c :: cs) r) = false).
    { intros c. revert Hm. unfold executing. cbn [conds returned forallb].
      destruct (forallb id cs), r; cbn; by rewrite ?andb_false_r. }
    rewrite (run_cons _ _ _ (Machine st (false :: cs) r)); [|by apply idle_continues|].
    2: { cbn [step]. cbn [Z.eqb Pos.eqb OP_IF]. by rewrite Hm. }
    rewrite <- !app_assoc. rewrite IHa by done. cbn [app].
    rewrite (run_cons _ _ _ (Machine st (true :: cs) r)); [|by apply idle_continues|done].
    rewrite <- app_assoc. rewrite IHb by done. cbn [app].
    by apply run_cons; [apply idle_continues|].
Qed.

Lemma run_closes k cs st r : closes k cs → run k (Machine st cs r) = Some st.
Proof.
  intros H. revert r. induction H as [|k c cs H IH|b k cs Hb H IH]; intros r; [done|..].
  - by rewrite (run_cons _ _ _ (Machine st cs r)).
  - rewrite (run_cons _ _ _ (Machine st (false :: cs) r)) by done.
    rewrite run_skip by done. by rewrite (run_cons _ _ _ (Machine st cs r)).
Qed.

Lemma truthy_of_bool b : truthy (of_bool b) = b.
Proof. by destruct b. Qed.

(** Pushing a list of items *)
Lemma run_pushes ks k st cs r :
  forallb id cs && negb r = true →
  run ((I_push <$> ks) ++ k) (Machine st cs r) = run k (Machine (reverse ks ++ st) cs r).
Proof.
  intros He. revert st. induction ks as [|x ks IH]; intros st; [done|].
  cbn [fmap list_fmap app]. rewrite (run_cons _ _ _ (Machine (x :: st) cs r)); [|done|].
  - by rewrite IH, reverse_cons, <- app_assoc.
  - cbn [step]. unfold executing. cbn [conds returned]. by rewrite He.
Qed.

(** An executed opcode that is neither a conditional nor a return *)
Lemma run_op o k st cs :
  forallb id cs = true → plain (I_op o) = true → (o =? OP_RETURN) = false →
  run (I_op o :: k) (Machine st cs false)
  = match exec_op o st with Some st' => run k (Machine st' cs false) | None => None end.
Proof.
  intros Hcs Hp Ho. cbn [run ends step]. rewrite Ho. cbn [andb].
  apply andb_true_iff in Hp as [[Hif Helse]%andb_true_iff Hend].
  apply negb_true_iff in Hif, Helse, Hend. rewrite Hif, Helse, Hend.
  unfold executing. cbn [conds returned]. rewrite Hcs. cbn [andb negb].
  by destruct (exec_op o st).
Qed.

Lemma run_small n k st cs :
  (0 < n ≤ 16)%nat → forallb id cs = true →
  run (I_op (0x50 + Z.of_nat n) :: k) (Machine st cs false)
  = run k (Machine ([Z.of_nat n] :: st) cs false).
Proof.
  intros Hn Hcs. rewrite run_op; [|done|..].
  - unfold exec_op, OP_0, OP_1NEGATE, OP_1, OP_16. rewrite !(proj2 (Z.eqb_neq _ _)) by lia.
    rewrite (proj2 (Z.leb_le 0x51 _)), (proj2 (Z.leb_le _ 0x60)) by lia. cbn [andb].
    do 4 f_equal. lia.
  - unfold plain, OP_IF, OP_ELSE, OP_ENDIF. by rewrite !(proj2 (Z.eqb_neq _ _)) by lia.
  - unfold OP_RETURN. by rewrite (proj2 (Z.eqb_neq _ _)) by lia.
Qed.

Lemma run_sig key k st cs :
  closes k cs → forallb id cs = true →
  result (run (instrs (P_sig key) ++ k) (Machine st cs false)) = admits (P_sig key) st.
Proof.
  intros Hk Hcs. cbn [instrs app]. change (I_push key :: ?x) with ((I_push <$> [key]) ++ x).
  rewrite run_pushes by by rewrite Hcs. rewrite run_op by done.
  destruct st as [|s st]; [done|]. cbn. rewrite run_closes by done. apply truthy_of_bool.
Qed.

Lemma run_multi keys k st cs :
  well_formed (P_multi keys) = true → closes k cs → forallb id cs = true →
  result (run (instrs (P_multi keys) ++ k) (Machine st cs false)) = admits (P_multi keys) st.
Proof.
  intros [Hlo%Nat.ltb_lt Hhi%Nat.leb_le]%andb_true_iff Hk Hcs. cbn [instrs app].
  rewrite run_small, <- app_assoc, run_pushes by (by rewrite ?Hcs || lia). cbn [app].
  rewrite run_small, run_op by (done || lia).
  change (exec_op OP_CHECKMULTISIG ?s) with (do_multisig s).
  rewrite do_multisig_spec by (rewrite ?length_reverse; lia). cbn [admits].
  destruct (length keys <? length st)%nat; [|done]. cbn [andb].
  rewrite run_closes by done. apply truthy_of_bool.
Qed.

(** Running a policy in an open branch of any depth *)
Lemma run_policy p k st cs :
  well_formed p = true → closes k cs → forallb id cs = true →
  result (run (instrs p ++ k) (Machine st cs false)) = admits p st.
Proof.
  revert k st cs. induction p as [key|keys|o d p IH| |a IHa b IHb]; intros k st cs Hwf Hk Hcs.
  - by apply run_sig.
  - by apply run_multi.
  - cbn [well_formed] in Hwf. apply andb_true_iff in Hwf as [Ho Hwf]. cbn [instrs app].
    assert (He : exec_op o st = match st with x :: st => Some (hash_of o x :: st) | [] => None end
                 ∧ plain (I_op o) = true ∧ (o =? OP_RETURN) = false).
    { by apply orb_true_iff in Ho as [->%Z.eqb_eq| ->%Z.eqb_eq]. }
    destruct He as (He & Hp & Hr). rewrite run_op, He by done.
    destruct st as [|x st]; [done|]. change (I_push d :: ?x) with ((I_push <$> [d]) ++ x).
    rewrite run_pushes by by rewrite Hcs. rewrite run_op by done. cbn [admits].
    change (exec_op OP_EQUALVERIFY (reverse [d] ++ hash_of o x :: st))
      with (if bool_decide (d = hash_of o x) then Some st else None).
    rewrite (bool_decide_ext (hash_of o x = d) (d = hash_of o x)) by done.
    case_bool_decide; [|done]. by apply IH.
  - cbn [instrs app run ends]. cbn [Z.eqb Pos.eqb OP_RETURN]. unfold executing.
    cbn [conds returned]. rewrite Hcs. cbn [andb negb]. destruct st as [|v st]; cbn [admits].
    + case_bool_decide; [done|]. cbn [step]. unfold executing. cbn [conds returned].
      rewrite Hcs. cbn. by rewrite run_closes.
    + case_bool_decide; [done|]. cbn [step]. unfold executing. cbn [conds returned].
      rewrite Hcs. cbn. by rewrite run_closes.
  - cbn [well_formed] in Hwf. apply andb_true_iff in Hwf as [Ha Hb].
    change (instrs (P_or a b) ++ k)
      with (I_op OP_IF :: (instrs a ++ I_op OP_ELSE :: instrs b ++ [I_op OP_ENDIF]) ++ k).
    destruct st as [|v st].
    { cbn [run ends step]. cbn [Z.eqb Pos.eqb OP_RETURN OP_IF andb]. unfold executing.
      cbn [conds returned]. by rewrite Hcs. }
    rewrite (run_cons _ _ _ (Machine st (truthy v :: cs) false)); [|done|].
    2: { cbn [step]. unfold executing. cbn [conds returned]. by rewrite Hcs. }
    rewrite <- app_assoc. cbn [app]. rewrite <- app_assoc. cbn [app admits].
    destruct (truthy v).
    + apply IHa; [done|by constructor|done].
    + rewrite run_skip by done.
      rewrite (run_cons _ _ _ (Machine st (true :: cs) false)) by done.
      apply IHb; [done|by constructor|done].
Qed.

(** ** Scripts that decode to a policy *)

(** The bytes [bs] spell the instructions. *)
Inductive decodes : bytes → list instr → Prop :=
  | decodes_nil : decodes [] []
  | decodes_op o bs prog :
      o = 0 ∨ 0x4f ≤ o → decodes bs prog → decodes (o :: bs) (I_op o :: prog)
  | decodes_push d bs prog :
      1 ≤ blen d ≤ 75 → decodes bs prog → decodes (blen d :: d ++ bs) (I_push d :: prog).

Lemma decodes_app b1 p1 b2 p2 :
  decodes b1 p1 → decodes b2 p2 → decodes (b1 ++ b2) (p1 ++ p2).
Proof.
  intros H1 H2. induction H1; cbn [app]; [done|by constructor|].
  rewrite <- app_assoc. by constructor.
Qed.

Lemma decodes_parse bs prog fuel :
  decodes bs prog → (length bs ≤ fuel)%nat → parse fuel bs = Some prog.
Proof.
  intros H. revert fuel.
  induction H as [|o bs prog Ho H IH|d bs prog Hd H IH]; intros fuel Hf; [by destruct fuel|..];
    (destruct fuel as [|fuel]; [cbn [length] in Hf; lia|]); cbn [length] in Hf.
  - cbn [parse]. destruct (Z.eqb_spec o 0) as [->|Hne]; [by rewrite IH by lia|].
    unfold push_size. rewrite (proj2 (Z.leb_gt _ _)), !(proj2 (Z.eqb_neq _ _)) by lia.
    by rewrite IH by lia.
  - cbn [parse]. rewrite (proj2 (Z.eqb_neq _ _)) by lia. unfold push_size.
    rewrite (proj2 (Z.leb_le _ _)) by lia. unfold blen. rewrite !Nat2Z.id.
    rewrite (proj2 (Nat.ltb_ge _ _)) by (rewrite length_app; lia).
    rewrite take_app_length, drop_app_length, IH; [done|]. rewrite length_app in Hf. lia.
Qed.

(** A script that spells a well-formed policy lets through exactly what it admits. *)
Lemma unlocks_policy bs p st :
  decodes bs (instrs p) → well_formed p = true → unlocks bs st = admits p st.
Proof.
  intros Hd Hwf. unfold unlocks, parse_script. rewrite (decodes_parse _ (instrs p)) by done.
  rewrite <- (app_nil_r (instrs p)). apply run_policy; [done|constructor|done].
Qed.
End semantics.
