(* ===== verification/ScriptProps.v ===== *)
(** * script-templates: every template enforces its policy *)

From S2P Require Import Prelude Bytes Primitives Script ScriptSpec.
Import OP.

(** ** What the writer appends *)

(** [f] appends bytes that spell [prog], or throws when [ok] is false. *)
Definition emits (f : ScriptWriter → js ScriptWriter) (ok : bool) (prog : list instr) : Prop :=
  ∀ w, if ok then ∃ bs, f w = Ret (w ++ bs) ∧ Forall is_byte bs ∧ decodes bs prog
       else is_throw (f w) = true.

(** The bytes of a hex string the writer accepts *)
Definition hex_data (hex : string) : bytes :=
  match hexToBytes hex with Ret b => b | _ => [] end.

Lemma hexToBytes_hex n hex :
  is_hex_n (2 * n) hex = true →
  hexToBytes hex = Ret (hex_data hex) ∧ length (hex_data hex) = n
  ∧ Forall is_byte (hex_data hex).
Proof.
  intros (bs & -> & <- & Hb)%is_hex_n_to_hex.
  assert (E : hexToBytes (to_hex bs) = Ret bs).
  { unfold hexToBytes. rewrite js_length_to_hex, hex_pairs_to_hex by done.
    by rewrite Z.mul_comm, Z.mod_mul by lia. }
  unfold hex_data. by rewrite E.
Qed.

(** Data of 2 to 75 bytes is pushed behind its length. *)
Lemma emits_data d :
  2 ≤ blen d ≤ 75 → Forall is_byte d → emits (pushData d) true [I_push d].
Proof.
  intros Hd Hb w. exists (blen d :: d). unfold pushData.
  rewrite (proj2 (Z.eqb_neq _ 0)), (proj2 (Z.eqb_neq _ 1)), (proj2 (Z.leb_le _ 75)) by lia.
  split_and!; [done|constructor; [unfold is_byte; lia|done]|].
  rewrite <- (app_nil_r d) at 2. apply decodes_push; [lia|constructor].
Qed.

Lemma emits_op o : 0x4f ≤ o ≤ 0xff → emits (op o) true [I_op o].
Proof.
  intros Ho w. exists [o]. unfold op.
  rewrite (proj2 (Z.ltb_ge _ 0)), (proj2 (Z.ltb_ge 0xff _)) by lia.
  split_and!; [done|by repeat constructor; lia|].
  apply decodes_op; [lia|constructor].
Qed.

Lemma emits_number n :
  (0 < n ≤ 16)%nat → emits (pushNumber (Z.of_nat n)) true [I_op (0x50 + Z.of_nat n)].
Proof.
  intros Hn w. exists [0x50 + Z.of_nat n]. unfold pushNumber, opNumber, OP_1.
  rewrite (proj2 (Z.leb_le 0 _)), (proj2 (Z.leb_le _ 16)), (proj2 (Z.eqb_neq _ 0)),
    (proj2 (Z.ltb_ge _ 1)), (proj2 (Z.ltb_ge 16 _)) by lia. cbn [andb orb mbind js_bind].
  split_and!; [do 3 f_equal; lia|repeat constructor; unfold is_byte; lia|].
  apply decodes_op; [lia|constructor].
Qed.

Lemma emits_pubkey pk : emits (pushPubkey pk) (is_pubkey33 pk) [I_push (hex_data pk)].
Proof.
  intros w. unfold pushPubkey. destruct (is_pubkey33 pk) eqn:E; [|done]. cbn [negb].
  apply is_pubkey33_hex, (hexToBytes_hex 33) in E as (-> & Hlen & Hb). cbn [mbind js_bind].
  apply emits_data; [unfold blen; lia|done].
Qed.

Lemma emits_hash32 h : emits (pushHash32 h) (is_hex_n 64 h) [I_push (hex_data h)].
Proof.
  intros w. unfold pushHash32. destruct (is_hex_n 64 h) eqn:E; [|done]. cbn [negb].
  apply (hexToBytes_hex 32) in E as (-> & Hlen & Hb). cbn [mbind js_bind].
  apply emits_data; [unfold blen; lia|done].
Qed.

Lemma emits_pubkeys pks :
  emits (pushPubkeys pks) (forallb is_pubkey33 pks) (I_push <$> (hex_data <$> pks)).
Proof.
  induction pks as [|pk pks IH]; intros w; cbn [forallb pushPubkeys fmap list_fmap].
  { exists []. rewrite app_nil_r. split_and!; [done|constructor|constructor]. }
  pose proof (emits_pubkey pk w) as H. destruct (is_pubkey33 pk); cbn [andb].
  - destruct H as (bs & -> & Hb & Hd). cbn [mbind js_bind]. specialize (IH (w ++ bs)).
    destruct (forallb is_pubkey33 pks); [|done].
    destruct IH as (cs & -> & Hc & Hd'). exists (bs ++ cs).
    split_and!; [by rewrite app_assoc|by apply list.Forall_app|].
    by apply (decodes_app _ [_]).
  - by destruct (pushPubkey pk w).
Qed.

(** ** Composing a builder *)

Definition written (w : ScriptWriter) (prog : list instr) : Prop :=
  Forall is_byte w ∧ decodes w prog.

(** [m] returns a value with [Q], or throws when [ok] is false. *)
Definition builds {A} (m : js A) (ok : bool) (Q : A → Prop) : Prop :=
  if ok then ∃ a, m = Ret a ∧ Q a else is_throw m = true.

Lemma builds_ok {A} (m : js A) ok ok' Q : ok = ok' → builds m ok Q → builds m ok' Q.
Proof. by intros ->. Qed.

Lemma builds_bind {A} f ok1 prog1 w prog (k : ScriptWriter → js A) ok2 Q :
  emits f ok1 prog1 → written w prog →
  (∀ w', written w' (prog ++ prog1) → builds (k w') ok2 Q) →
  builds (w ← f w; k w) (ok1 && ok2) Q.
Proof.
  intros Hf [Hb Hd] Hk. specialize (Hf w). destruct ok1; cbn [andb].
  - destruct Hf as (bs & -> & Hbs & Hds). cbn [mbind js_bind]. apply Hk. split.
    + by apply list.Forall_app.
    + by apply decodes_app.
  - unfold builds. by destruct (f w).
Qed.

Lemma written_nil : written new_script [].
Proof. split; constructor. Qed.

Lemma u8_bytes w : Forall is_byte w → u8 <$> w = w.
Proof.
  induction 1 as [|b w Hb _ IH]; [done|]. cbn [fmap list_fmap].
  unfold u8 at 1. by rewrite Z.mod_small, IH by done.
Qed.

Lemma written_bytes w prog : written w prog → decodes (script_bytes w) prog.
Proof. intros [Hb Hd]. unfold script_bytes. by rewrite u8_bytes. Qed.

(** ** The templates and their policies *)

Inductive template : Type :=
  | T_table_root (p : TableRootParams)
  | T_stake_lock (p : StakeLockParams)
  | T_pot_lock (p : PotLockParams)
  | T_entropy_commit (p : EntropyCommitParams)
  | T_card_custody (p : CardCustodyParams)
  | T_round_state (p : RoundStateParams)
  | T_settle_claim (p : SettleClaimParams)
  | T_fold_surrender (p : FoldSurrenderParams)
  | T_reveal_proof (p : RevealProofParams)
  | T_timeout_branch (p : TimeoutBranchParams)
  | T_recovery_branch (p : RecoveryBranchParams).

Definition template_script (t : template) : js bytes :=
  match t with
  | T_table_root p => buildTableRootLockingScript p
  | T_stake_lock p => buildStakeLockScript p
  | T_pot_lock p => buildPotLockScript p
  | T_entropy_commit p => buildEntropyCommitScript p
  | T_card_custody p => buildCardCustodyScript p
  | T_round_state p => buildRoundStateScript p
  | T_settle_claim p => buildSettleClaimScript p
  | T_fold_surrender p => buildFoldSurrenderScript p
  | T_reveal_proof p => buildRevealProofScript p
  | T_timeout_branch p => buildTimeoutBranchScript p
  | T_recovery_branch p => buildRecoveryBranch p
  end.

Definition key (pk : Pubkey33) : policy := P_sig (hex_data pk).
Definition keys (pks : list Pubkey33) : policy := P_multi (hex_data <$> pks).
Definition double_hash (h : Hash256) (p : policy) : policy := P_hash OP_HASH256 (hex_data h) p.
Definition single_hash (h : Hash256) (p : policy) : policy := P_hash OP_SHA256 (hex_data h) p.

(** The branch of the other players in an entropy commitment *)
Definition fallback_policy (pks : list Pubkey33) : policy :=
  match pks with [] => P_return | _ => keys pks end.

(** Who may spend, template by template *)
Definition template_policy (t : template) : policy :=
  match t with
  | T_table_root p => keys (tr_seated_pubkeys p)
  | T_stake_lock p =>
    P_or (keys [sl_player_pubkey p; sl_operator_pubkey p])
      (P_or (double_hash (sl_expected_settlement_hash p) (key (sl_player_pubkey p)))
         (key (sl_player_pubkey p)))
  | T_pot_lock p =>
    P_or (keys (pl_seated_pubkeys p))
      (P_or (single_hash (pl_winner_proof_hash p) (key (pl_winner_pubkey p)))
         (key (pl_refund_pubkey p)))
  | T_entropy_commit p =>
    P_or (single_hash (ec_commitment_hash p) (key (ec_player_pubkey p)))
      (P_or (fallback_policy (ec_other_pubkeys p)) (key (ec_player_pubkey p)))
  | T_card_custody p =>
    P_or (double_hash (cu_face_commitment p) (key (cu_holder_pubkey p)))
      (P_or (key (cu_holder_pubkey p)) (key (cu_original_funder_pubkey p)))
  | T_round_state p =>
    P_or (double_hash (rs_successor_template_hash p) (key (rs_acting_player_pubkey p)))
      (P_or (double_hash (rs_timeout_template_hash p) (keys (rs_seated_pubkeys p)))
         (keys (rs_seated_pubkeys p)))
  | T_settle_claim p => double_hash (sc_settlement_commitment p) (key (sc_winner_pubkey p))
  | T_fold_surrender p => key (fs_original_funder_pubkey p)
  | T_reveal_proof p => double_hash (rv_card_commitment p) (key (rv_signer_pubkey p))
  | T_timeout_branch p => double_hash (tb_timeout_template_hash p) (keys (tb_authoriser_pubkeys p))
  | T_recovery_branch p => key (rb_signer_pubkey p)
  end.

Definition hash_ok (h : Hash256) : bool := is_hex_n 64 h.

Definition signers_ok (pks : list Pubkey33) : bool :=
  between 1 16 (Z.of_nat (length pks)) && forallb is_pubkey33 pks.

Definition fallback_ok (pks : list Pubkey33) : bool :=
  match pks with [] => true | _ => signers_ok pks end.

(** The parameters the builders accept *)
Definition template_ok (t : template) : bool :=
  match t with
  | T_table_root p => signers_ok (tr_seated_pubkeys p)
  | T_stake_lock p =>
    is_pubkey33 (sl_player_pubkey p) && is_pubkey33 (sl_operator_pubkey p)
    && hash_ok (sl_expected_settlement_hash p)
  | T_pot_lock p =>
    signers_ok (pl_seated_pubkeys p) && hash_ok (pl_winner_proof_hash p)
    && is_pubkey33 (pl_winner_pubkey p) && is_pubkey33 (pl_refund_pubkey p)
  | T_entropy_commit p =>
    hash_ok (ec_commitment_hash p) && is_pubkey33 (ec_player_pubkey p)
    && fallback_ok (ec_other_pubkeys p)
    && (1 <=? ec_decision_timeout_blocks p)
  | T_card_custody p =>
    hash_ok (cu_face_commitment p) && is_pubkey33 (cu_holder_pubkey p)
    && is_pubkey33 (cu_original_funder_pubkey p)
  | T_round_state p =>
    hash_ok (rs_successor_template_hash p) && hash_ok (rs_timeout_template_hash p)
    && is_pubkey33 (rs_acting_player_pubkey p) && signers_ok (rs_seated_pubkeys p)
    && (1 <=? rs_decision_timeout_blocks p)
  | T_settle_claim p => hash_ok (sc_settlement_commitment p) && is_pubkey33 (sc_winner_pubkey p)
  | T_fold_surrender p => is_pubkey33 (fs_original_funder_pubkey p)
  | T_reveal_proof p => hash_ok (rv_card_commitment p) && is_pubkey33 (rv_signer_pubkey p)
  | T_timeout_branch p =>
    hash_ok (tb_timeout_template_hash p) && signers_ok (tb_authoriser_pubkeys p)
    && (1 <=? tb_decision_timeout_blocks p)
  | T_recovery_branch p => is_pubkey33 (rb_signer_pubkey p)
  end.

(** A builder's result spells the policy [pol]. *)
Definition spells (pol : policy) (bs : bytes) : Prop := decodes bs (instrs pol).

Lemma builds_ret {A} (a : A) (Q : A → Prop) : Q a → builds (Ret a) true Q.
Proof. by exists a. Qed.

Lemma builds_fmap {A B} (f : A → B) m ok (Q : B → Prop) :
  builds m ok (λ a, Q (f a)) → builds (f <$> m) ok Q.
Proof.
  unfold builds. destruct ok; [|by destruct m]. intros (a & -> & Ha). by exists (f a).
Qed.

Lemma builds_timeout {A} b (f : LockTimeSpec → A) (Q : A → Prop) :
  (∀ t, Q (f t)) → builds (t ← relativeBlocks b; Ret (f t)) (1 <=? b) Q.
Proof.
  intros HQ. unfold builds, relativeBlocks.
  destruct (Z.leb_spec 1 b), (Z.ltb_spec b 1); try lia; [|done].
  by exists (f (relative_blocks b)).
Qed.

(** The guards on the number of signers *)
Lemma builds_signers {A} (pks : list Pubkey33) a b (m : js A) ok Q :
  (0 < length pks ≤ 16)%nat → builds m (forallb is_pubkey33 pks && ok) Q →
  builds (if Z.of_nat (length pks) =? 0 then Throw a
          else if 16 <? Z.of_nat (length pks) then Throw b else m) (signers_ok pks && ok) Q.
Proof.
  intros Hn H. unfold signers_ok, between.
  rewrite (proj2 (Z.eqb_neq _ 0)), (proj2 (Z.ltb_ge 16 _)), (proj2 (Z.leb_le 1 _)),
    (proj2 (Z.leb_le _ 16)) by lia. done.
Qed.

Lemma builds_no_signers {A} (pks : list Pubkey33) a b (m : js A) ok Q :
  ¬ (0 < length pks ≤ 16)%nat →
  builds (if Z.of_nat (length pks) =? 0 then Throw a
          else if 16 <? Z.of_nat (length pks) then Throw b else m) (signers_ok pks && ok) Q.
Proof.
  intros Hn. unfold signers_ok, between.
  destruct (Z.eqb_spec (Z.of_nat (length pks)) 0) as [E|E]; [by rewrite E|].
  rewrite (proj2 (Z.ltb_lt 16 _)), (proj2 (Z.leb_gt _ 16)) by lia. by rewrite andb_false_r.
Qed.

Lemma signers_dec (pks : list Pubkey33) :
  (0 < length pks ≤ 16)%nat ∨ ¬ (0 < length pks ≤ 16)%nat.
Proof. lia. Qed.

Ltac emit_one :=
  first [ apply emits_op; by split | apply emits_pubkey | apply emits_hash32
        | apply emits_pubkeys | apply (emits_number 2); lia | apply emits_number; lia ].

(** One step of a builder: the written prefix grows by what the step emits. *)
Ltac build_step :=
  eapply builds_bind; [emit_one | eassumption |];
  let w := fresh "w" in let H := fresh "Hw" in intros w H;
  match goal with H' : written ?v _ |- context [?v] => idtac | _ => idtac end.

Ltac build_start :=
  let H := fresh "Hw" in pose proof written_nil as H.

Lemma written_spells w prog pol :
  written w prog → prog = instrs pol → spells pol (script_bytes w).
Proof. unfold spells. intros H <-. by apply written_bytes. Qed.

(** The result: the bytes written spell the policy. *)
Ltac build_done :=
  eapply written_spells; [eassumption|];
  cbn [instrs keys key double_hash single_hash]; rewrite ?length_fmap;
  cbn [app fmap list_fmap length]; repeat (rewrite <- app_assoc; cbn [app]); reflexivity.

(** What the builder of a template returns *)
Definition spelled (t : template) (bs : bytes) : Prop := spells (template_policy t) bs.

Ltac ok_done :=
  cbn [template_ok andb]; unfold hash_ok; rewrite ?andb_true_r;
  repeat match goal with
    | |- context [is_pubkey33 ?x] => destruct (is_pubkey33 x)
    | |- context [is_hex_n 64 ?x] => destruct (is_hex_n 64 x)
    | |- context [forallb is_pubkey33 ?x] => destruct (forallb is_pubkey33 x)
    | |- context [1 <=? ?x] => destruct (1 <=? x)
    end; reflexivity.

(** A builder without guards on the number of signers *)
Ltac build :=
  build_start; eapply builds_ok;
  [|repeat build_step;
    first [apply builds_ret | apply builds_timeout; intros ?];
    unfold spelled; cbn [locking_script bb_locking_script template_policy]; build_done].

Lemma stake_lock_built p :
  builds (template_script (T_stake_lock p)) (template_ok (T_stake_lock p))
    (spelled (T_stake_lock p)).
Proof. apply builds_fmap. unfold buildStakeLock. build. ok_done. Qed.

Lemma card_custody_built p :
  builds (template_script (T_card_custody p)) (template_ok (T_card_custody p))
    (spelled (T_card_custody p)).
Proof. apply builds_fmap. unfold buildCardCustody. build. ok_done. Qed.

Lemma settle_claim_built p :
  builds (template_script (T_settle_claim p)) (template_ok (T_settle_claim p))
    (spelled (T_settle_claim p)).
Proof. unfold template_script, buildSettleClaimScript. build. ok_done. Qed.

Lemma reveal_proof_built p :
  builds (template_script (T_reveal_proof p)) (template_ok (T_reveal_proof p))
    (spelled (T_reveal_proof p)).
Proof. unfold template_script, buildRevealProofScript. build. ok_done. Qed.

Lemma fold_surrender_built p :
  builds (template_script (T_fold_surrender p)) (template_ok (T_fold_surrender p))
    (spelled (T_fold_surrender p)).
Proof. apply builds_fmap. unfold buildFoldSurrender. build. ok_done. Qed.

Lemma recovery_branch_built p :
  builds (template_script (T_recovery_branch p)) (template_ok (T_recovery_branch p))
    (spelled (T_recovery_branch p)).
Proof. apply builds_fmap. unfold buildRecoveryBranchTemplate. build. ok_done. Qed.

Lemma table_root_built p :
  builds (template_script (T_table_root p)) (template_ok (T_table_root p))
    (spelled (T_table_root p)).
Proof.
  apply builds_fmap. unfold buildTableRoot. cbv zeta.
  apply (builds_ok _ (signers_ok (tr_seated_pubkeys p) && true)); [apply andb_true_r|].
  destruct (signers_dec (tr_seated_pubkeys p)); [|by apply builds_no_signers].
  apply builds_signers; [done|]. build. ok_done.
Qed.

Lemma pot_lock_built p :
  builds (template_script (T_pot_lock p)) (template_ok (T_pot_lock p))
    (spelled (T_pot_lock p)).
Proof.
  apply builds_fmap. unfold buildPotLock. cbv zeta.
  eapply builds_ok; [symmetry; cbn [template_ok]; rewrite <- !andb_assoc; reflexivity|].
  destruct (signers_dec (pl_seated_pubkeys p)); [|by apply builds_no_signers].
  apply builds_signers; [done|]. build. ok_done.
Qed.

Lemma round_state_built p :
  builds (template_script (T_round_state p)) (template_ok (T_round_state p))
    (spelled (T_round_state p)).
Proof.
  apply builds_fmap. unfold buildRoundState. cbv zeta.
  apply (builds_ok _ (signers_ok (rs_seated_pubkeys p)
    && (hash_ok (rs_successor_template_hash p) && hash_ok (rs_timeout_template_hash p)
        && is_pubkey33 (rs_acting_player_pubkey p) && (1 <=? rs_decision_timeout_blocks p)))).
  { cbn [template_ok]. destruct (signers_ok _); cbn [andb]; [|by rewrite !andb_false_r].
    by rewrite andb_true_r. }
  destruct (signers_dec (rs_seated_pubkeys p)); [|by apply builds_no_signers].
  apply builds_signers; [done|]. build. ok_done.
Qed.

Lemma timeout_branch_built p :
  builds (template_script (T_timeout_branch p)) (template_ok (T_timeout_branch p))
    (spelled (T_timeout_branch p)).
Proof.
  apply builds_fmap. unfold buildTimeoutBranch. cbv zeta.
  apply (builds_ok _ (signers_ok (tb_authoriser_pubkeys p)
    && (hash_ok (tb_timeout_template_hash p) && (1 <=? tb_decision_timeout_blocks p)))).
  { cbn [template_ok]. destruct (signers_ok _); cbn [andb]; [|by rewrite !andb_false_r].
    by rewrite andb_true_r. }
  destruct (signers_dec (tb_authoriser_pubkeys p)); [|by apply builds_no_signers].
  apply builds_signers; [done|]. build. ok_done.
Qed.

Lemma emits_bind f g ok1 ok2 p1 p2 :
  emits f ok1 p1 → emits g ok2 p2 → emits (λ w, w ← f w; g w) (ok1 && ok2) (p1 ++ p2).
Proof.
  intros Hf Hg w. specialize (Hf w). destruct ok1; cbn [andb]; [|by destruct (f w)].
  destruct Hf as (bs & -> & Hb & Hd). cbn [mbind js_bind]. specialize (Hg (w ++ bs)).
  destruct ok2; [|done]. destruct Hg as (cs & -> & Hc & Hd').
  exists (bs ++ cs). split_and!; [by rewrite app_assoc|by apply list.Forall_app|].
  by apply decodes_app.
Qed.

(** The second branch of an entropy commitment *)
Lemma emits_fallback pks :
  emits (λ w, if Z.of_nat (length pks) =? 0 then op OP_RETURN w
         else if 16 <? Z.of_nat (length pks)
         then Throw "buildEntropyCommit: other_pubkeys > 16 not supported in v1"
         else w ← pushNumber (Z.of_nat (length pks)) w; w ← pushPubkeys pks w;
              w ← pushNumber (Z.of_nat (length pks)) w; op OP_CHECKMULTISIG w)
    (fallback_ok pks) (instrs (fallback_policy pks)).
Proof.
  unfold fallback_ok, fallback_policy.
  destruct pks as [|pk0 pks0]; [by apply emits_op|]. set (pks := pk0 :: pks0).
  assert (Hpos : (0 < length pks)%nat) by (unfold pks; cbn [length]; lia).
  rewrite (proj2 (Z.eqb_neq _ 0)) by lia. clearbody pks. clear pk0 pks0.
  unfold signers_ok, between. destruct (signers_dec pks) as [Hn|Hn].
  - rewrite (proj2 (Z.ltb_ge 16 _)), (proj2 (Z.leb_le 1 _)), (proj2 (Z.leb_le _ 16)) by lia.
    change (instrs (keys pks))
      with ([I_op (0x50 + Z.of_nat (length (hex_data <$> pks)))] ++
            ((I_push <$> (hex_data <$> pks)) ++
             [I_op (0x50 + Z.of_nat (length (hex_data <$> pks)))] ++ [I_op OP_CHECKMULTISIG])).
    rewrite length_fmap.
    replace (true && true && forallb is_pubkey33 pks)
      with (true && (forallb is_pubkey33 pks && (true && true)))
      by (cbn [andb]; by rewrite andb_true_r).
    repeat apply (emits_bind _ (λ w, _)); try emit_one.
  - intros w. rewrite (proj2 (Z.ltb_lt 16 _)), (proj2 (Z.leb_gt _ 16)) by lia.
    by rewrite andb_false_r.
Qed.

Lemma entropy_commit_built p :
  builds (template_script (T_entropy_commit p)) (template_ok (T_entropy_commit p))
    (spelled (T_entropy_commit p)).
Proof.
  apply builds_fmap. unfold buildEntropyCommit. cbv zeta.
  pose proof (emits_fallback (ec_other_pubkeys p)) as Hf. build_start. eapply builds_ok.
  2: { do 8 build_step.
       match type of Hf with emits ?f _ _ => eapply (builds_bind f) end;
         [exact Hf|eassumption|]. intros wf Hwf. clear Hf.
       repeat build_step. apply builds_timeout. intros t. unfold spelled.
       cbn [locking_script template_policy].
       build_done. }
  cbn [template_ok]. destruct (fallback_ok _); ok_done.
Qed.

Lemma keys_well_formed pks : signers_ok pks = true → well_formed (keys pks) = true.
Proof.
  unfold signers_ok, between. cbn [well_formed keys]. rewrite length_fmap.
  rewrite !andb_true_iff, !Z.leb_le, Nat.ltb_lt, Nat.leb_le. lia.
Qed.

Lemma policy_well_formed t : template_ok t = true → well_formed (template_policy t) = true.
Proof.
  destruct t; cbn [template_ok template_policy]; rewrite ?andb_true_iff; intros H;
    destruct_and?; unfold key, double_hash, single_hash; cbn [well_formed];
    rewrite ?keys_well_formed by done; try done.
  unfold fallback_policy, fallback_ok in *.
  destruct (ec_other_pubkeys p); [done|]. by rewrite keys_well_formed.
Qed.

Lemma no_timelock p o :
  well_formed p = true → o = 0xb1 ∨ o = 0xb2 → I_op o ∉ instrs p.
Proof.
  intros Hwf Ho. induction p as [k|ks|h d p IH| |a IHa b IHb]; cbn [instrs well_formed] in *;
    repeat setoid_rewrite elem_of_cons; repeat setoid_rewrite elem_of_app;
    repeat setoid_rewrite elem_of_cons; rewrite ?elem_of_nil.
  - intros [E|[E|[]]]; simplify_eq; by destruct Ho.
  - apply andb_true_iff in Hwf as [Hlo%Nat.ltb_lt Hhi%Nat.leb_le].
    rewrite list_elem_of_fmap. unfold OP_CHECKMULTISIG.
    intros [E|[(x & E & _)|[E|[E|[]]]]]; simplify_eq; lia.
  - apply andb_true_iff in Hwf as [Hh Hwf].
    intros [E|[E|[E|Hin]]]; simplify_eq; [|by destruct Ho|by apply IH].
    apply orb_true_iff in Hh as [E%Z.eqb_eq|E%Z.eqb_eq]; unfold OP_SHA256, OP_HASH256 in E; lia.
  - intros [E|[]]. simplify_eq. by destruct Ho.
  - apply andb_true_iff in Hwf as [Ha Hb].
    intros [E|[Hin|[E|Hin]]]; [simplify_eq; by destruct Ho|by apply IHa|simplify_eq; by destruct Ho|].
    apply elem_of_app in Hin as [Hin|[E|[]%elem_of_nil]%elem_of_cons];
      [by apply IHb|simplify_eq; by destruct Ho].
Qed.

(** C21: every template enforces its policy.  On the parameters it accepts a builder returns a
    script that parses, uses no timelock opcode, and lets through exactly the stacks its
    policy admits - whatever the hash functions and the signature check are; on all other
    parameters it throws. *)
Theorem templates_enforce sha256 hash256 checksig t :
  if template_ok t then
    ∃ bs prog, template_script t = Ret bs ∧ parse_script bs = Some prog
      ∧ (I_op 0xb1 ∉ prog) ∧ (I_op 0xb2 ∉ prog)
      ∧ ∀ st, unlocks sha256 hash256 checksig bs st
              = admits sha256 hash256 checksig (template_policy t) st
  else is_throw (template_script t) = true.
Proof.
  assert (H : builds (template_script t) (template_ok t) (spelled t)).
  { destruct t; auto using table_root_built, stake_lock_built, pot_lock_built,
      entropy_commit_built, card_custody_built, round_state_built, settle_claim_built,
      fold_surrender_built, reveal_proof_built, timeout_branch_built, recovery_branch_built. }
  unfold builds in H. destruct (template_ok t) eqn:Hok; [|done].
  destruct H as (bs & Hbs & Hd). exists bs, (instrs (template_policy t)).
  assert (Hwf : well_formed (template_policy t) = true) by by apply policy_well_formed.
  split_and!; [done|by apply decodes_parse| | |].
  - by apply no_timelock; [|left].
  - by apply no_timelock; [|right].
  - intros st. by apply unlocks_policy.
Qed.

(** C22: an entropy commitment without counterparties is open to anyone.  Its fallback branch is
    a bare OP_RETURN, which after Genesis ends the script with the stack as it is, so the
    spend that selects that branch and leaves a true item needs no signature at all. *)
Theorem lone_entropy_commit_open sha256 hash256 checksig p b :
  ec_other_pubkeys p = [] → buildEntropyCommit p = Ret b →
  unlocks sha256 hash256 checksig (locking_script b) [[]; [1]; [1]] = true.
Proof.
  intros Ho Hb. pose proof (entropy_commit_built p) as H. unfold builds in H.
  cbn [template_script] in H. unfold buildEntropyCommitScript in H. rewrite Hb in H.
  destruct (template_ok (T_entropy_commit p)) eqn:Hok; [|done].
  destruct H as (bs & [= <-] & Hd).
  rewrite (unlocks_policy _ _ _ _ _ [[]; [1]; [1]] Hd) by by apply policy_well_formed.
  cbn [template_policy]. by rewrite Ho.
Qed.

(** A commitment that nobody signs for *)
Definition lone_commit : EntropyCommitParams :=
  mkEntropyCommitParams (to_hex (replicate 32 0xcc)) ("02" +:+ to_hex (replicate 32 0xaa)) [] 6 500.

Lemma lone_entropy_commit_witness :
  ∃ b, buildEntropyCommit lone_commit = Ret b
    ∧ unlocks id id (λ _ _, false) (locking_script b) [[]; [1]; [1]] = true.
Proof.
  destruct (buildEntropyCommit lone_commit) as [b| |] eqn:E; [|by vm_compute in E..].
  exists b. split; [done|]. exact (lone_entropy_commit_open id id (λ _ _, false) lone_commit b eq_refl E).
Defined.

(** ** Script numbers *)

(** The number a byte string denotes: little-endian, the top bit of the last byte a sign *)
Definition script_num (bs : bytes) : Z :=
  match list.last bs with
  | None => 0
  | Some l =>
    if l <? 0x80 then le_val bs
    else - (le_val bs - 0x80 * 256 ^ (blen bs - 1))
  end.

Lemma js_ushr_8 v : js_ushr v 8 = (v mod 2 ^ 32) / 256.
Proof. unfold js_ushr, to_uint32. by rewrite Z.shiftr_div_pow2 by done. Qed.

Lemma script_num_loop_S fuel v :
  script_num_loop (S fuel) v
  = if 0 <? v then rest ← script_num_loop fuel (js_ushr v 8); Ret (js_and v 0xff :: rest)
    else Ret [].
Proof. done. Qed.

Lemma script_num_loop_small fuel v :
  0 ≤ v < 256 ^ Z.of_nat fuel → 0 ≤ v < 2 ^ 32 →
  ∃ out, script_num_loop (S fuel) v = Ret out ∧ Forall is_byte out ∧ le_val out = v
    ∧ (0 < v → out ≠ []).
Proof.
  revert v. induction fuel as [|fuel IH]; intros v Hv H32.
  { assert (v = 0) as -> by lia. by exists []. }
  rewrite script_num_loop_S. destruct (Z.ltb_spec 0 v) as [Hpos|]; [|by exists []; split_and!; try done; cbn; lia].
  rewrite js_ushr_8, (Z.mod_small v), js_and_ff by done.
  rewrite Nat2Z.inj_succ, Z.pow_succ_r in Hv by lia.
  assert (v / 256 < 256 ^ Z.of_nat fuel) by (apply Z.div_lt_upper_bound; lia).
  pose proof (Z.div_pos v 256). pose proof (Z.mod_pos_bound v 256). pose proof (Z.div_mod v 256).
  assert (v / 256 ≤ v) by (apply Z.div_le_upper_bound; lia).
  destruct (IH (v / 256)) as (out & Ho & Hb & Hval & _); [lia|lia|].
  rewrite Ho. cbn [mbind js_bind]. exists (v mod 256 :: out).
  split_and!; [done|constructor; [unfold is_byte; lia|done]|cbn [le_val]; lia|done].
Qed.

Lemma script_num_loop_spec v :
  0 < v →
  ∃ out, script_num_loop 6 v = Ret out ∧ Forall is_byte out ∧ le_val out = v mod 2 ^ 32
    ∧ out ≠ [].
Proof.
  intros Hv. rewrite script_num_loop_S, (proj2 (Z.ltb_lt 0 v)), js_ushr_8, js_and_ff by done.
  pose proof (Z.mod_pos_bound v (2 ^ 32)). pose proof (Z.mod_pos_bound v 256).
  assert (Hd : (v mod 2 ^ 32) / 256 < 2 ^ 24) by (apply Z.div_lt_upper_bound; lia).
  pose proof (Z.div_pos (v mod 2 ^ 32) 256).
  destruct (script_num_loop_small 4 ((v mod 2 ^ 32) / 256)) as (out & -> & Hb & Hval & _);
    [change (256 ^ Z.of_nat 4) with (2 ^ 32); lia|lia|].
  cbn [mbind js_bind]. exists (v mod 256 :: out).
  split_and!; [done|constructor; [unfold is_byte; lia|done]| |done].
  cbn [le_val]. rewrite Hval.
  replace (v mod 256) with ((v mod 2 ^ 32) mod 256) by (apply (mod_mod_pow2 v 8 32); lia).
  pose proof (Z.div_mod (v mod 2 ^ 32) 256). lia.
Qed.

Lemma le_val_app a b : le_val (a ++ b) = le_val a + 256 ^ blen a * le_val b.
Proof.
  induction a as [|x a IH]; cbn [app le_val]; [change (blen []) with 0; lia|].
  rewrite IH. change (blen (x :: a)) with (Z.of_nat (S (length a))).
  rewrite Nat2Z.inj_succ, Z.pow_succ_r by lia. unfold blen. lia.
Qed.

Lemma script_num_snoc out b :
  script_num (out ++ [b])
  = if b <? 0x80 then le_val out + 256 ^ blen out * b
    else - (le_val out + 256 ^ blen out * (b - 0x80)).
Proof.
  unfold script_num. rewrite last_snoc, le_val_app. cbn [le_val].
  assert (blen (out ++ [b]) - 1 = blen out) as ->.
  { unfold blen. rewrite length_app. cbn [length]. lia. }
  destruct (b <? 128); lia.
Qed.

Lemma byte_bit7 l : is_byte l → negb (js_and l 0x80 =? 0) = (0x80 <=? l).
Proof.
  revert l. intros l Hl. apply eq_true_iff_eq. revert l Hl.
  assert (H : ∀ l, is_byte l → Bool.eqb (negb (js_and l 0x80 =? 0)) (0x80 <=? l) = true).
  { apply byte_forall. by vm_compute. }
  intros l Hl. by rewrite (eqb_prop _ _ (H l Hl)).
Qed.

Lemma byte_set7 l : is_byte l → l < 0x80 → js_or l 0x80 = l + 0x80.
Proof.
  intros Hl Hlt. assert (H : ∀ l, is_byte l → (0x80 <=? l) || (js_or l 0x80 =? l + 0x80) = true).
  { apply byte_forall. by vm_compute. }
  pose proof (H l Hl) as E. rewrite (proj2 (Z.leb_gt _ _)) in E by lia. by apply Z.eqb_eq.
Qed.

(** Script numbers.  [encodeScriptNum] terminates and encodes the sign of its argument and
    its magnitude modulo [2^32], so it is faithful exactly below [2^32]. *)
Theorem encodeScriptNum_value n :
  ∃ bs, encodeScriptNum n = Ret bs
    ∧ script_num bs = Z.sgn n * (Z.abs n mod 2 ^ 32)
    ∧ (script_num bs = n ↔ Z.abs n < 2 ^ 32).
Proof.
  assert (H : ∃ bs, encodeScriptNum n = Ret bs
                    ∧ script_num bs = Z.sgn n * (Z.abs n mod 2 ^ 32)).
  { unfold encodeScriptNum. destruct (Z.eqb_spec n 0) as [->|Hn]; [by exists []|].
    destruct (script_num_loop_spec (Z.abs n)) as (out & -> & Hb & Hval & Hne); [lia|].
    cbn [mbind js_bind]. destruct (last_is_Some out) as [_ Hl].
    destruct (Hl Hne) as [l Hlast]. rewrite Hlast. clear Hl.
    apply last_Some in Hlast as [pre ->]. apply list.Forall_app in Hb as [Hpre Hlb].
    apply list.Forall_cons in Hlb as [Hlb _]. rewrite byte_bit7 by done.
    eexists. split; [reflexivity|]. rewrite <- Hval.
    destruct (Z.leb_spec 0x80 l) as [Hge|Hlt].
    - rewrite u8_bytes.
      2: { apply list.Forall_app. split; [by apply list.Forall_app; split; [|constructor]|].
           repeat constructor; destruct (n <? 0); lia. }
      rewrite script_num_snoc. destruct (Z.ltb_spec n 0).
      + rewrite (Z.sgn_neg n) by lia. cbn [Z.ltb Z.compare Pos.compare Pos.compare_cont]. lia.
      + rewrite (Z.sgn_pos n) by lia. cbn [Z.ltb Z.compare Pos.compare Pos.compare_cont]. lia.
    - unfold is_byte in Hlb. destruct (Z.ltb_spec n 0).
      + rewrite length_app. cbn [length]. replace (length pre + 1 - 1)%nat with (length pre) by lia.
        rewrite insert_app_r_alt, Nat.sub_diag by lia. cbn [insert list_insert].
        rewrite byte_set7 by done. rewrite u8_bytes.
        2: { apply list.Forall_app. split; [done|]. repeat constructor; lia. }
        rewrite script_num_snoc, (proj2 (Z.ltb_ge _ _)), le_val_app, (Z.sgn_neg n) by lia.
        cbn [le_val]. lia.
      + rewrite u8_bytes by (apply list.Forall_app; split; [done|by constructor]).
        rewrite script_num_snoc, (proj2 (Z.ltb_lt _ _)), le_val_app, (Z.sgn_pos n) by lia.
        cbn [le_val]. lia. }
  destruct H as (bs & E & Hv). exists bs. split_and!; [done|done|]. rewrite Hv.
  pose proof (Z.mod_pos_bound (Z.abs n) (2 ^ 32)). split.
  - intros Heq. destruct (Z.eq_dec n 0) as [->|]; [done|].
    destruct (Z.lt_ge_cases n 0); [rewrite Z.sgn_neg in Heq by lia|rewrite Z.sgn_pos in Heq by lia]; lia.
  - intros Hlt. rewrite Z.mod_small by lia. by rewrite Z.mul_comm, Z.abs_sgn.
Qed.
