(* ===== verification/Tx.v ===== *)
(** * tx-builder: transactions, transaction ids, signature hashes and signatures

    [packages/tx-builder/src]: [types.ts], [encode.ts], [txid.ts], [sighash.ts] and
    [sign.ts].  SHA-256 is the platform's digest; secp256k1 signing and verification are
    those of @noble/secp256k1; all three are parameters.  A [bigint] is a [Z]. *)

From S2P Require Import Prelude Bytes.

(** ** types.ts *)

Record TxInput := mkTxInput {
  prevTxid : bytes;
  prevVout : Z;
  unlockingScript : bytes;
  sequence : Z
}.

Record TxOutput := mkTxOutput {
  value : Z;
  lockingScript : bytes
}.

Record BsvTransaction := mkBsvTransaction {
  version : Z;
  inputs : list TxInput;
  outputs : list TxOutput;
  lockTime : Z
}.

Definition SIGHASH_ALL : Z := 0x01.
Definition SIGHASH_NONE : Z := 0x02.
Definition SIGHASH_SINGLE : Z := 0x03.
Definition SIGHASH_FORKID : Z := 0x40.
Definition SIGHASH_ANYONECANPAY : Z := 0x80.
Definition SIGHASH_ALL_FORKID : Z := js_or SIGHASH_ALL SIGHASH_FORKID.

(** ** encode.ts: encoders *)

Definition encVarint (v : Z) : js bytes :=
  if v <? 0 then Throw ("encVarint: negative " +:+ pretty v)
  else if v <? 0xfd then Ret [u8 v]
  else if v <=? 0xffff then Ret (0xfd :: le_bytes 2 v)
  else if v <=? 0xffffffff then Ret (0xfe :: le_bytes 4 v)
  else Ret (0xff :: le_bytes 8 (v mod 2 ^ 64)).

Definition encU32LE (n : Z) : bytes := le_bytes 4 (js_ushr n 0).

(** [setInt32] stores [ToInt32(n)] in two's complement. *)
Definition encI32LE (n : Z) : bytes := le_bytes 4 (to_uint32 n).

(** [setBigUint64] stores [n] modulo [2^64]. *)
Definition encU64LE (n : Z) : bytes := le_bytes 8 (n mod 2 ^ 64).

Definition concat (parts : list bytes) : bytes := mjoin parts.

Definition encInput (i : TxInput) : js bytes :=
  if negb (blen (prevTxid i) =? 32)
  then Throw ("encInput: prevTxid must be 32 bytes, got " +:+ pretty (blen (prevTxid i)))
  else
    l ← encVarint (blen (unlockingScript i));
    Ret (concat [prevTxid i; encU32LE (prevVout i); l; unlockingScript i;
                 encU32LE (sequence i)]).

Definition encOutput (o : TxOutput) : js bytes :=
  l ← encVarint (blen (lockingScript o));
  Ret (concat [encU64LE (value o); l; lockingScript o]).

(** [for (const x of xs) parts.push(enc(x))] *)
Fixpoint enc_each {A} (enc : A → js bytes) (xs : list A) : js (list bytes) :=
  match xs with
  | [] => Ret []
  | x :: xs => b ← enc x; bs ← enc_each enc xs; Ret (b :: bs)
  end.

Definition encodeBsvTransaction (tx : BsvTransaction) : js bytes :=
  ni ← encVarint (Z.of_nat (length (inputs tx)));
  is' ← enc_each encInput (inputs tx);
  no ← encVarint (Z.of_nat (length (outputs tx)));
  os ← enc_each encOutput (outputs tx);
  Ret (concat ([encI32LE (version tx); ni] ++ is' ++ [no] ++ os ++ [encU32LE (lockTime tx)])).

(** ** encode.ts: decoders

    A cursor is a view [buf] into an [ArrayBuffer] that goes on with [after], and a
    position.  The [DataView] reads are bounded by the [ArrayBuffer], not by the view. *)

Record Cursor := mkCursor { buf : bytes; after : bytes; pos : Z }.

Definition seek (c : Cursor) (p : Z) : Cursor := mkCursor (buf c) (after c) p.

Definition readU8 (c : Cursor) : js (Z * Cursor) :=
  match buf c !! Z.to_nat (pos c) with
  | None => Throw "decode: out of bounds u8"
  | Some b => Ret (b, seek c (pos c + 1))
  end.

Definition read_view (n : nat) (c : Cursor) : js (Z * Cursor) :=
  let bs := take n (drop (Z.to_nat (pos c)) (buf c ++ after c)) in
  if (length bs <? n)%nat then Throw "RangeError"
  else Ret (le_val bs, seek c (pos c + Z.of_nat n)).

Definition readU16LE (c : Cursor) : js (Z * Cursor) := read_view 2 c.
Definition readU32LE (c : Cursor) : js (Z * Cursor) := read_view 4 c.
Definition readI32LE (c : Cursor) : js (Z * Cursor) :=
  '(v, c) ← read_view 4 c; Ret (to_int32 v, c).
Definition readU64LE (c : Cursor) : js (Z * Cursor) := read_view 8 c.

Definition readVarint (c : Cursor) : js (Z * Cursor) :=
  '(first, c) ← readU8 c;
  if first <? 0xfd then Ret (first, c)
  else if first =? 0xfd then readU16LE c
  else if first =? 0xfe then readU32LE c
  else readU64LE c.

(** The sum is compared with a length, which is far below [2^53], so that it is rounded does
    not matter. *)
Definition readBytes (n : Z) (c : Cursor) : js (bytes * Cursor) :=
  if blen (buf c) <? pos c + n then Throw "decode: out of bounds bytes"
  else Ret (take (Z.to_nat n) (drop (Z.to_nat (pos c)) (buf c)), seek c (pos c + n)).

(** [Number(v)] of a [number] or [bigint] *)
Definition Number (v : Z) : Z := js_round v.

Definition dec_input (c : Cursor) : js (TxInput * Cursor) :=
  '(prevTxid, c) ← readBytes 32 c;
  '(prevVout, c) ← readU32LE c;
  '(scriptLen, c) ← readVarint c;
  '(unlockingScript, c) ← readBytes (Number scriptLen) c;
  '(sequence, c) ← readU32LE c;
  Ret (mkTxInput prevTxid prevVout unlockingScript sequence, c).

Definition dec_output (c : Cursor) : js (TxOutput * Cursor) :=
  '(value, c) ← readU64LE c;
  '(scriptLen, c) ← readVarint c;
  '(lockingScript, c) ← readBytes (Number scriptLen) c;
  Ret (mkTxOutput value lockingScript, c).

(** [for (let i = 0; i < count; i++) out.push(...)].  Each round consumes a byte or throws,
    so the length of the buffer is fuel enough ([decodeBsvTransaction_total]). *)
Fixpoint dec_each {A} (dec : Cursor → js (A * Cursor)) (fuel : nat) (i count : Z) (c : Cursor)
  : js (list A * Cursor) :=
  if i <? count then
    match fuel with
    | O => OutOfFuel
    | S fuel =>
      '(x, c) ← dec c;
      '(xs, c) ← dec_each dec fuel (i + 1) count c;
      Ret (x :: xs, c)
    end
  else Ret ([], c).

Definition decodeBsvTransaction (bs rest : bytes) : js BsvTransaction :=
  let c := mkCursor bs rest 0 in
  let fuel := S (length bs) in
  '(version, c) ← readI32LE c;
  '(inputCount, c) ← readVarint c;
  '(inputs, c) ← dec_each dec_input fuel 0 (Number inputCount) c;
  '(outputCount, c) ← readVarint c;
  '(outputs, c) ← dec_each dec_output fuel 0 (Number outputCount) c;
  '(lockTime, c) ← readU32LE c;
  if negb (pos c =? blen bs)
  then Throw ("decodeBsvTransaction: trailing bytes (consumed " +:+ pretty (pos c) +:+ " of "
              +:+ pretty (blen bs) +:+ ")")
  else Ret (mkBsvTransaction version inputs outputs lockTime).

Section hashing.
Context (sha256 : bytes → bytes).

(** ** txid.ts *)

Definition computeTxId (tx : BsvTransaction) : js bytes :=
  b ← encodeBsvTransaction tx; Ret (sha256 (sha256 b)).

Definition txidHex (tx : BsvTransaction) : js string :=
  internal ← computeTxId tx;
  let reversed := (λ i, u8 (default 0 (internal !! (31 - i)%nat))) <$> seq 0 32 in
  Ret (to_hex reversed).

(** ** sighash.ts *)

Definition doubleSha256 (input : bytes) : bytes := sha256 (sha256 input).

Definition ZERO_32 : bytes := replicate 32 0.

Definition isBaseSighash (t base : Z) : bool := js_and t 0x1f =? base.

Definition hashPrevouts (tx : BsvTransaction) (hashType : Z) : bytes :=
  if negb (js_and hashType SIGHASH_ANYONECANPAY =? 0) then ZERO_32
  else doubleSha256 (concat (mjoin ((λ i, [prevTxid i; encU32LE (prevVout i)]) <$> inputs tx))).

Definition hashSequence (tx : BsvTransaction) (hashType : Z) : bytes :=
  if negb (js_and hashType SIGHASH_ANYONECANPAY =? 0) then ZERO_32
  else if isBaseSighash hashType SIGHASH_NONE then ZERO_32
  else if isBaseSighash hashType SIGHASH_SINGLE then ZERO_32
  else doubleSha256 (concat ((λ i, encU32LE (sequence i)) <$> inputs tx)).

Definition hashOutputs (tx : BsvTransaction) (inputIdx hashType : Z) : js bytes :=
  if isBaseSighash hashType SIGHASH_ALL then
    parts ← enc_each encOutput (outputs tx);
    Ret (doubleSha256 (concat parts))
  else if isBaseSighash hashType SIGHASH_SINGLE
          && (inputIdx <? Z.of_nat (length (outputs tx))) then
    match outputs tx !! Z.to_nat inputIdx with
    | None => Throw "TypeError"
    | Some o => b ← encOutput o; Ret (doubleSha256 b)
    end
  else Ret ZERO_32.

Definition sighash_preimage (tx : BsvTransaction) (inputIdx : Z) (i : TxInput)
    (prevScript : bytes) (prevValue hashType : Z) : js bytes :=
  let v := version tx in
  scriptLen ← encVarint (blen prevScript);
  outs ← hashOutputs tx inputIdx hashType;
  Ret (concat
    [u8 <$> [js_and v 0xff; js_and (js_shr v 8) 0xff; js_and (js_shr v 16) 0xff;
             js_and (js_shr v 24) 0xff];
     hashPrevouts tx hashType;
     hashSequence tx hashType;
     prevTxid i;
     encU32LE (prevVout i);
     scriptLen;
     prevScript;
     encU64LE prevValue;
     encU32LE (sequence i);
     outs;
     encU32LE (lockTime tx);
     encU32LE hashType]).

Definition computeSighash (tx : BsvTransaction) (inputIdx : Z) (prevScript : bytes)
    (prevValue hashType : Z) : js bytes :=
  if js_and hashType SIGHASH_FORKID =? 0
  then Throw "computeSighash: BSV requires SIGHASH_FORKID"
  else if (inputIdx <? 0) || (Z.of_nat (length (inputs tx)) <=? inputIdx)
  then Throw ("computeSighash: inputIdx " +:+ pretty inputIdx +:+ " out of range")
  else match inputs tx !! Z.to_nat inputIdx with
  | None => Throw "TypeError"
  | Some i =>
    preimage ← sighash_preimage tx inputIdx i prevScript prevValue hashType;
    Ret (doubleSha256 preimage)
  end.
End hashing.

(** ** sign.ts *)

(** The big-endian bytes of [n >= 0], at least one *)
Definition be_bytes (n : Z) : bytes := reverse (le_bytes (Z.to_nat (Z.log2 n / 8) + 1) n).

(** [n.toString(16)] for [n >= 0]: no leading zero but the digit of 0 *)
Definition toString16 (n : Z) : string :=
  match to_hex (be_bytes n) with
  | String c (String d r) => if char_code c =? 48 then String d r else String c (String d r)
  | s => s
  end.

Definition bigintToBytes (n : Z) : js bytes :=
  let hex := toString16 n in
  let hex := if negb (js_length hex mod 2 =? 0) then "0" +:+ hex else hex in
  hex_pairs (λ _, Ret 0) 0 (js_units hex).

Definition padTo32 (b : bytes) : bytes :=
  if blen b =? 32 then b
  else if 32 <? blen b then drop (length b - 32) b
  else replicate (32 - length b) 0 ++ b.

(** [while (i < n.byteLength - 1 && n[i] === 0) i += 1; n.slice(i)] *)
Fixpoint strip_zeros (n : bytes) : bytes :=
  match n with
  | 0 :: (_ :: _) as r => strip_zeros r
  | _ => n
  end.

Definition encodeDerInt (n : bytes) : bytes :=
  let body := strip_zeros n in
  let body := if negb (js_and (default 0 (body !! 0%nat)) 0x80 =? 0) then 0x00 :: body else body in
  0x02 :: u8 (blen body) :: body.

Definition encodeDer (r s : bytes) : bytes :=
  let rBytes := encodeDerInt r in
  let sBytes := encodeDerInt s in
  0x30 :: u8 (blen rBytes + blen sBytes) :: rBytes ++ sBytes.

(** A missing length byte of [s] makes the end of the slice [NaN], and the slice empty. *)
Definition decodeDer (b : bytes) : js (bytes * bytes) :=
  if blen b <? 8 then Throw "decodeDer: too short"
  else if negb (bool_decide (b !! 0%nat = Some 0x30)) then Throw "decodeDer: missing SEQUENCE tag"
  else if negb (bool_decide (b !! 1%nat = Some (blen b - 2))) then Throw "decodeDer: length mismatch"
  else if negb (bool_decide (b !! 2%nat = Some 0x02)) then Throw "decodeDer: missing r INTEGER tag"
  else
    let rLen := Z.to_nat (default 0 (b !! 3%nat)) in
    let r := take rLen (drop 4 b) in
    let off := (4 + rLen)%nat in
    if negb (bool_decide (b !! off = Some 0x02)) then Throw "decodeDer: missing s INTEGER tag"
    else
      let s := match b !! (off + 1)%nat with
               | Some sLen => take (Z.to_nat sLen) (drop (off + 2) b)
               | None => []
               end in
      Ret (r, s).

Section signing.
Context (signAsync : bytes → bytes → js (Z * Z)) (secp_verify : bytes → bytes → bytes → js bool).

Definition signSighash (sighash privKey : bytes) : js bytes :=
  if negb (blen sighash =? 32)
  then Throw ("signSighash: sighash must be 32 bytes, got " +:+ pretty (blen sighash))
  else if negb (blen privKey =? 32)
  then Throw ("signSighash: privKey must be 32 bytes, got " +:+ pretty (blen privKey))
  else
    '(r, s) ← signAsync sighash privKey;
    r ← bigintToBytes r;
    s ← bigintToBytes s;
    Ret (encodeDer r s).

(** The [try] returns false on any exception. *)
Definition verifySighashSignature (derSig sighash pubKey : bytes) : js bool :=
  if negb (blen sighash =? 32) then Ret false
  else if negb (blen pubKey =? 33) then Ret false
  else
    match ('(r, s) ← decodeDer derSig;
           secp_verify (padTo32 r ++ padTo32 s) sighash pubKey) with
    | Throw _ => Ret false
    | m => m
    end.
End signing.
