(* ===== verification/TxProps.v ===== *)
(** * tx-builder: the transaction codec inverts and terminates *)

From S2P Require Import Prelude Bytes Tx.

(** ** Reading what was written *)

(** [f] reads [enc] as [v], whatever surrounds it. *)
Definition creads {A} (f : Cursor → js (A * Cursor)) (enc : bytes) (v : A) : Prop :=
  ∀ pre suf aft,
    f (mkCursor (pre ++ enc ++ suf) aft (blen pre))
    = Ret (v, mkCursor (pre ++ enc ++ suf) aft (blen pre + blen enc)).

Lemma creads_bind {A B} (f : Cursor → js (A * Cursor)) (k : A → Cursor → js (B * Cursor))
    e1 e2 v1 v2 :
  creads f e1 v1 → creads (k v1) e2 v2 →
  creads (λ c, '(x, c) ← f c; k x c) (e1 ++ e2) v2.
Proof.
  intros Hf Hk pre suf aft. rewrite <- app_assoc, Hf. cbn [mbind js_bind].
  rewrite <- blen_app, (app_assoc pre), Hk, !blen_app. do 3 f_equal. lia.
Qed.

Lemma creads_ret {A} (v : A) : creads (λ c, Ret (v, c)) [] v.
Proof. intros pre suf aft. by rewrite Z.add_0_r. Qed.

Lemma creads_map {A B} (f : Cursor → js (A * Cursor)) (g : A → B) e v :
  creads f e v → creads (λ c, '(x, c) ← f c; Ret (g x, c)) e (g v).
Proof.
  intros H. rewrite <- (app_nil_r e).
  eapply (creads_bind f (λ x c, Ret (g x, c))); [done|apply creads_ret].
Qed.

Lemma creads_u8 b : creads readU8 [b] b.
Proof.
  intros pre suf aft. unfold readU8, blen. cbn [buf pos]. rewrite Nat2Z.id.
  by rewrite lookup_app_r, Nat.sub_diag by lia.
Qed.

Lemma creads_view n e v : length e = n → le_val e = v → creads (read_view n) e v.
Proof.
  intros Hn Hv pre suf aft. unfold read_view, blen. cbn [buf after pos]. rewrite Nat2Z.id.
  rewrite <- !app_assoc, drop_app_length, <- Hn, take_app_length.
  by rewrite Nat.ltb_irrefl, Hv.
Qed.

Lemma creads_bytes b : creads (readBytes (blen b)) b b.
Proof.
  intros pre suf aft. unfold readBytes. cbn [buf pos].
  rewrite (proj2 (Z.ltb_ge _ _)) by (rewrite !blen_app; pose proof (blen_nonneg suf); lia).
  unfold blen. by rewrite !Nat2Z.id, drop_app_length, take_app_length.
Qed.

(** ** The encodings *)

Definition u32_range (n : Z) : bool := (0 <=? n) && (n <? 2 ^ 32).
Definition i32_range (n : Z) : bool := (- 2 ^ 31 <=? n) && (n <? 2 ^ 31).
Definition u64_range (n : Z) : bool := (0 <=? n) && (n <? 2 ^ 64).

(** Array and buffer lengths a JavaScript engine can have *)
Definition length_ok (n : Z) : bool := n <? 2 ^ 53.

Definition input_ok (i : TxInput) : bool :=
  (blen (prevTxid i) =? 32) && u32_range (prevVout i) && u32_range (sequence i)
  && length_ok (blen (unlockingScript i)).

Definition output_ok (o : TxOutput) : bool :=
  u64_range (value o) && length_ok (blen (lockingScript o)).

Definition tx_ok (tx : BsvTransaction) : bool :=
  i32_range (version tx) && u32_range (lockTime tx)
  && forallb input_ok (inputs tx) && forallb output_ok (outputs tx)
  && length_ok (Z.of_nat (length (inputs tx))) && length_ok (Z.of_nat (length (outputs tx))).

Lemma u32_range_iff n : u32_range n = true ↔ 0 ≤ n < 2 ^ 32.
Proof. unfold u32_range. rewrite andb_true_iff, Z.leb_le, Z.ltb_lt. done. Qed.

Lemma u64_range_iff n : u64_range n = true ↔ 0 ≤ n < 2 ^ 64.
Proof. unfold u64_range. rewrite andb_true_iff, Z.leb_le, Z.ltb_lt. done. Qed.

Lemma i32_range_iff n : i32_range n = true ↔ - 2 ^ 31 ≤ n < 2 ^ 31.
Proof. unfold i32_range. rewrite andb_true_iff, Z.leb_le, Z.ltb_lt. done. Qed.

Lemma encU32LE_small n : 0 ≤ n < 2 ^ 32 → encU32LE n = le_bytes 4 n.
Proof.
  intros H. unfold encU32LE, js_ushr, to_uint32.
  by rewrite Z.mod_0_l, Z.shiftr_0_r, Z.mod_small by done.
Qed.

Lemma creads_u32 n : u32_range n = true → creads readU32LE (encU32LE n) n.
Proof.
  intros H%u32_range_iff. rewrite encU32LE_small by done.
  apply creads_view; [apply length_le_bytes|by apply le_val_le_bytes_small].
Qed.

Lemma to_int32_uint32 n : - 2 ^ 31 ≤ n < 2 ^ 31 → to_int32 (to_uint32 n) = n.
Proof.
  intros H. unfold to_int32, to_uint32. rewrite Z.mod_mod by lia.
  destruct (Z.lt_ge_cases n 0).
  - replace (n mod 2 ^ 32) with (n + 2 ^ 32).
    + rewrite (proj2 (Z.ltb_ge _ _)) by lia. lia.
    + apply (Z.mod_unique_pos _ _ (-1)); lia.
  - rewrite Z.mod_small by lia. by rewrite (proj2 (Z.ltb_lt _ _)) by lia.
Qed.

Lemma creads_i32 n : i32_range n = true → creads readI32LE (encI32LE n) n.
Proof.
  intros H%i32_range_iff. unfold readI32LE. rewrite <- (to_int32_uint32 n) at 2 by done.
  apply creads_map, creads_view; [apply length_le_bytes|].
  apply le_val_le_bytes_small. unfold to_uint32. apply Z.mod_pos_bound. lia.
Qed.

Lemma creads_u64 n : u64_range n = true → creads readU64LE (encU64LE n) n.
Proof.
  intros H%u64_range_iff. unfold encU64LE. rewrite Z.mod_small by done.
  apply creads_view; [apply length_le_bytes|by apply le_val_le_bytes_small].
Qed.

(** A varint is written for every length and read back. *)
Lemma creads_varint n :
  0 ≤ n < 2 ^ 64 → ∃ e, encVarint n = Ret e ∧ e ≠ [] ∧ creads readVarint e n.
Proof.
  intros Hn. unfold encVarint. rewrite (proj2 (Z.ltb_ge n 0)) by lia.
  assert (Hb : ∀ b, creads (λ c, '(first, c) ← readU8 c;
      if first <? 0xfd then Ret (first, c)
      else if first =? 0xfd then readU16LE c
      else if first =? 0xfe then readU32LE c else readU64LE c) b n → creads readVarint b n) by done.
  destruct (Z.ltb_spec n 0xfd) as [H1|H1]; [|destruct (Z.leb_spec n 0xffff) as [H2|H2];
    [|destruct (Z.leb_spec n 0xffffffff) as [H3|H3]]].
  - exists [u8 n]. unfold u8. rewrite Z.mod_small by lia. split_and!; [done..|].
    apply Hb. rewrite <- (app_nil_r [n]).
    eapply (creads_bind readU8 (λ first c, _)); [apply creads_u8|]. cbn beta.
    rewrite (proj2 (Z.ltb_lt n 0xfd)) by lia. apply creads_ret.
  - eexists. split_and!; [done..|]. apply Hb. change (0xfd :: ?x) with ([0xfd] ++ x).
    eapply (creads_bind readU8 (λ first c, _)); [apply creads_u8|]. cbn.
    apply creads_view; [done|]. apply (le_val_le_bytes_small 2). lia.
  - eexists. split_and!; [done..|]. apply Hb. change (0xfe :: ?x) with ([0xfe] ++ x).
    eapply (creads_bind readU8 (λ first c, _)); [apply creads_u8|]. cbn.
    apply creads_view; [done|]. apply (le_val_le_bytes_small 4). lia.
  - rewrite Z.mod_small by done.
    eexists. split_and!; [done..|]. apply Hb. change (0xff :: ?x) with ([0xff] ++ x).
    eapply (creads_bind readU8 (λ first c, _)); [apply creads_u8|]. cbn.
    apply creads_view; [done|]. apply (le_val_le_bytes_small 8). lia.
Qed.

Lemma length_ok_number n : 0 ≤ n → length_ok n = true → Number n = n ∧ 0 ≤ n < 2 ^ 64.
Proof.
  unfold length_ok, Number. intros H0 H%Z.ltb_lt. split; [|lia]. apply js_round_exact. lia.
Qed.

Lemma creads_sized b :
  length_ok (blen b) = true →
  ∃ e, encVarint (blen b) = Ret e ∧ e ≠ []
    ∧ creads (λ c, '(n, c) ← readVarint c; readBytes (Number n) c) (e ++ b) b.
Proof.
  intros [Hn Hr]%length_ok_number; [|apply blen_nonneg].
  destruct (creads_varint (blen b) Hr) as (e & He & Hne & Hrd). exists e.
  split_and!; [done..|]. eapply (creads_bind readVarint (λ n c, readBytes (Number n) c)); [done|].
  rewrite Hn. apply creads_bytes.
Qed.

Lemma bind_assoc_cursor {A B D} (f : Cursor → js (A * Cursor)) (g : A → Cursor → js (B * Cursor))
    (h : B → Cursor → js (D * Cursor)) c :
  ('(x, c) ← f c; '(y, c) ← g x c; h y c)
  = '(y, c) ← ('(x, c) ← f c; g x c); h y c.
Proof. destruct (f c) as [[x c1]| |]; done. Qed.

Lemma creads_ext {A} (f g : Cursor → js (A * Cursor)) e v :
  (∀ c, f c = g c) → creads g e v → creads f e v.
Proof. intros H Hg pre suf aft. by rewrite H. Qed.

Lemma creads_input i :
  input_ok i = true → ∃ e, encInput i = Ret e ∧ e ≠ [] ∧ creads dec_input e i.
Proof.
  unfold input_ok. rewrite !andb_true_iff, Z.eqb_eq. intros [[[Ht Hv] Hs] Hl].
  unfold encInput. rewrite Ht. cbn [Z.eqb Pos.eqb negb].
  destruct (creads_sized (unlockingScript i) Hl) as (e & -> & _ & Hrd). cbn [mbind js_bind].
  eexists. split; [reflexivity|].
  assert (E : concat [prevTxid i; encU32LE (prevVout i); e; unlockingScript i; encU32LE (sequence i)]
    = prevTxid i ++ encU32LE (prevVout i) ++ (e ++ unlockingScript i) ++ encU32LE (sequence i) ++ []).
  { unfold concat. cbn [mjoin list_join]. by rewrite <- !app_assoc. }
  rewrite E. split.
  { intros En. apply (f_equal length) in En. rewrite length_app in En. unfold blen in Ht. simpl in En. lia. }
  unfold dec_input. rewrite <- Ht.
  eapply (creads_bind (readBytes _) (λ t c, _)); [apply creads_bytes|]. cbn beta.
  eapply (creads_bind readU32LE (λ v c, _)); [by apply creads_u32|]. cbn beta.
  eapply creads_ext; [intros c; apply (bind_assoc_cursor readVarint
    (λ n c, readBytes (Number n) c) (λ s c, _))|]. cbn beta.
  eapply (creads_bind _ (λ s c, _)); [exact Hrd|]. cbn beta.
  eapply (creads_bind readU32LE (λ q c, _)); [by apply creads_u32|]. cbn beta.
  destruct i. apply creads_ret.
Qed.

Lemma creads_output o :
  output_ok o = true → ∃ e, encOutput o = Ret e ∧ e ≠ [] ∧ creads dec_output e o.
Proof.
  unfold output_ok. rewrite andb_true_iff. intros [Hv Hl]. unfold encOutput.
  destruct (creads_sized (lockingScript o) Hl) as (e & -> & _ & Hrd). cbn [mbind js_bind].
  eexists. split; [reflexivity|].
  assert (E : concat [encU64LE (value o); e; lockingScript o]
    = encU64LE (value o) ++ (e ++ lockingScript o) ++ []).
  { unfold concat. cbn [mjoin list_join]. by rewrite <- !app_assoc. }
  rewrite E. split; [by destruct (encU64LE (value o)) eqn:En|]. unfold dec_output.
  eapply (creads_bind readU64LE (λ v c, _)); [by apply creads_u64|]. cbn beta.
  eapply creads_ext; [intros c; apply (bind_assoc_cursor readVarint
    (λ n c, readBytes (Number n) c) (λ s c, _))|]. cbn beta.
  eapply (creads_bind _ (λ s c, _)); [exact Hrd|]. cbn beta.
  destruct o. apply creads_ret.
Qed.

(** A list of items, each of which reads back *)
Lemma creads_each {A} (enc : A → js bytes) (dec : Cursor → js (A * Cursor)) ok xs :
  (∀ x, ok x = true → ∃ e, enc x = Ret e ∧ e ≠ [] ∧ creads dec e x) →
  forallb ok xs = true →
  ∃ es, enc_each enc xs = Ret es ∧ (length xs ≤ length (mjoin es))%nat
    ∧ ∀ fuel i, (length xs ≤ fuel)%nat →
        creads (dec_each dec fuel i (i + Z.of_nat (length xs))) (mjoin es) xs.
Proof.
  intros Henc. induction xs as [|x xs IH]; cbn [forallb enc_each].
  - intros _. exists []. split_and!; [done..|]. intros fuel i _.
    eapply creads_ext; [|apply creads_ret]. intros c. destruct fuel; cbn [dec_each];
      by rewrite (proj2 (Z.ltb_ge _ _)) by (cbn; lia).
  - intros [Hx Hxs]%andb_true_iff. destruct (Henc x Hx) as (e & -> & Hne & Hrd).
    destruct (IH Hxs) as (es & -> & Hlen & Hall). cbn [mbind js_bind].
    exists (e :: es). split; [done|]. change (mjoin (e :: es)) with (e ++ mjoin es).
    split; [rewrite length_app; cbn [length]; destruct e; [done|cbn [length]; lia]|].
    intros [|fuel] i Hf; cbn [length] in *; [lia|].
    eapply creads_ext.
    { intros c. cbn [dec_each]. rewrite (proj2 (Z.ltb_lt _ _)) by lia. reflexivity. }
    eapply (creads_bind dec (λ x c, _)); [exact Hrd|]. cbn beta.
    apply (creads_map _ (cons x)).
    replace (i + Z.of_nat (S (length xs))) with (i + 1 + Z.of_nat (length xs)) by lia.
    apply Hall. lia.
Qed.

(** ** Decoding arbitrary bytes *)

(** A reader of bytes keeps its buffer, moves forward, never runs out of fuel, hands on a
    value with [P] and - if it stays within the view - does not depend on the bytes behind
    it. *)
Definition local {A} (P : A → Prop) (f : Cursor → js (A * Cursor)) : Prop :=
  ∀ b a p, 0 ≤ p → Forall is_byte b → Forall is_byte a →
    match f (mkCursor b a p) with
    | Ret (v, c') => P v ∧ ∃ p', c' = mkCursor b a p' ∧ p ≤ p'
        ∧ (p' ≤ blen b → ∀ a', f (mkCursor b a' p) = Ret (v, mkCursor b a' p'))
    | Throw _ => True
    | OutOfFuel => False
    end.

Definition any {A} (_ : A) : Prop := True.

Lemma local_bind {A B} (P : A → Prop) (Q : B → Prop) (f : Cursor → js (A * Cursor))
    (k : A → Cursor → js (B * Cursor)) :
  local P f → (∀ x, P x → local Q (k x)) → local Q (λ c, '(x, c) ← f c; k x c).
Proof.
  intros Hf Hk b a p Hp Hb Ha. specialize (Hf b a p Hp Hb Ha).
  destruct (f (mkCursor b a p)) as [[v c1]| |]; [|done..].
  destruct Hf as (HPv & p1 & -> & Hp1 & Hloc). cbn [mbind js_bind].
  specialize (Hk v HPv b a p1 ltac:(lia) Hb Ha).
  destruct (k v (mkCursor b a p1)) as [[w c2]| |]; [|done..].
  destruct Hk as (HQ & p2 & -> & Hp2 & Hloc2).
  split; [done|]. exists p2. split_and!; [done|lia|]. intros Hle a'.
  rewrite Hloc by lia. cbn [mbind js_bind]. by apply Hloc2.
Qed.

Lemma local_ret {A} (P : A → Prop) (v : A) : P v → local P (λ c, Ret (v, c)).
Proof. intros HP b a p Hp _ _. split; [done|]. exists p. by split_and!. Qed.

Lemma local_weaken {A} (P Q : A → Prop) f : (∀ v, P v → Q v) → local P f → local Q f.
Proof.
  intros HPQ Hf b a p Hp Hb Ha. specialize (Hf b a p Hp Hb Ha).
  destruct (f _) as [[v c]| |]; [|done..]. destruct Hf as [HP Hf]. split; [by apply HPQ|done].
Qed.

Lemma local_u8 : local (Z.le 0) readU8.
Proof.
  intros b a p Hp Hb Ha. unfold readU8. cbn [buf pos].
  destruct (b !! Z.to_nat p) as [x|] eqn:E; [|done]. split.
  - by eapply Forall_lookup_1 in Hb as [? _].
  - exists (p + 1). split_and!; [done|lia|done].
Qed.

Lemma local_view n : local (Z.le 0) (read_view n).
Proof.
  intros b a p Hp Hb Ha. unfold read_view. cbn [buf after pos].
  destruct (Nat.ltb_spec (length (take n (drop (Z.to_nat p) (b ++ a)))) n) as [|Hlen]; [done|].
  split.
  { apply le_val_bound. apply Forall_take, Forall_drop. by apply list.Forall_app. }
  exists (p + Z.of_nat n). split_and!; [done|lia|]. intros Hle a'. unfold blen in Hle.
  assert (E : ∀ a, take n (drop (Z.to_nat p) (b ++ a)) = take n (drop (Z.to_nat p) b)).
  { intros x. rewrite drop_app_le by lia. apply take_app_le. rewrite length_drop. lia. }
  rewrite E in Hlen. rewrite !E. by rewrite (proj2 (Nat.ltb_ge _ _) Hlen).
Qed.

Lemma local_varint : local (Z.le 0) readVarint.
Proof.
  apply (local_bind (Z.le 0)); [apply local_u8|]. intros first H b a p Hp.
  destruct (first <? 0xfd); [by apply local_ret|].
  destruct (first =? 0xfd); [by apply local_view|].
  destruct (first =? 0xfe); by apply local_view.
Qed.

Lemma local_bytes n : 0 ≤ n → local any (readBytes n).
Proof.
  intros Hn b a p Hp _ _. unfold readBytes. cbn [buf pos]. destruct (blen b <? p + n); [done|].
  split; [done|]. exists (p + n). split_and!; [done|lia|done].
Qed.

Ltac local_step lem :=
  eapply local_bind; [lem|]; intros ? ?; cbn beta.

Lemma local_sized {B} (Q : B → Prop) (k : bytes → Cursor → js (B * Cursor)) :
  (∀ s, local Q (k s)) →
  local Q (λ c, '(n, c) ← readVarint c; '(s, c) ← readBytes (Number n) c; k s c).
Proof.
  intros Hk. apply (local_bind (Z.le 0)); [apply local_varint|]. intros n Hn.
  apply (local_bind any); [by apply local_bytes, js_round_nonneg|]. intros s _. apply Hk.
Qed.

Lemma local_input : local any dec_input.
Proof.
  apply (local_bind any); [by apply local_bytes|]. intros t _.
  apply (local_bind (Z.le 0)); [apply local_view|]. intros v _.
  apply local_sized. intros s.
  apply (local_bind (Z.le 0)); [apply local_view|]. intros q _. by apply local_ret.
Qed.

Lemma local_output : local any dec_output.
Proof.
  apply (local_bind (Z.le 0)); [apply local_view|]. intros v _.
  apply local_sized. intros s. by apply local_ret.
Qed.

(** An item starts within the view and takes at least a byte. *)
Definition progresses {A} (f : Cursor → js (A * Cursor)) : Prop :=
  ∀ b a p v b' a' p', 0 ≤ p → Forall is_byte b → Forall is_byte a →
    f (mkCursor b a p) = Ret (v, mkCursor b' a' p') → p < blen b ∧ p < p'.

Lemma progresses_bind {A B} (P : A → Prop) (Q : A → B → Prop) (f : Cursor → js (A * Cursor))
    (k : A → Cursor → js (B * Cursor)) :
  local P f → progresses f → (∀ x, P x → local (Q x) (k x)) →
  progresses (λ c, '(x, c) ← f c; k x c).
Proof.
  intros Hl Hf Hk b a p v b' a' p' Hp Hb Ha ([x c1] & H1 & H2)%js_bind_Ret.
  pose proof (Hl b a p Hp Hb Ha) as Hl1. rewrite H1 in Hl1.
  destruct Hl1 as (HP & p1 & -> & Hp1 & _).
  destruct (Hf b a p x b a p1 Hp Hb Ha H1) as [Hlt Hlt1]. split; [done|].
  pose proof (Hk x HP b a p1 ltac:(lia) Hb Ha) as Hl2. cbv beta in H2. rewrite H2 in Hl2.
  destruct Hl2 as (_ & p2 & [= -> -> ->] & Hp2 & _). lia.
Qed.

Lemma progresses_bytes n : 0 < n → progresses (readBytes n).
Proof.
  intros Hn b a p v b' a' p' Hp _ _. unfold readBytes. cbn [buf pos].
  destruct (Z.ltb_spec (blen b) (p + n)); [done|]. intros [= _ _ _ <-]. lia.
Qed.

Lemma progresses_u8 : progresses readU8.
Proof.
  intros b a p v b' a' p' Hp _ _. unfold readU8. cbn [buf pos].
  destruct (b !! Z.to_nat p) eqn:E; [|done]. intros [= _ _ _ <-].
  apply lookup_lt_Some in E. unfold blen. lia.
Qed.

Lemma progresses_bind_r {A B} (P : A → Prop) (f : Cursor → js (A * Cursor))
    (k : A → Cursor → js (B * Cursor)) :
  local P f → (∀ x, P x → progresses (k x)) → progresses (λ c, '(x, c) ← f c; k x c).
Proof.
  intros Hl Hk b a p v b' a' p' Hp Hb Ha ([x c1] & H1 & H2)%js_bind_Ret.
  pose proof (Hl b a p Hp Hb Ha) as Hl1. rewrite H1 in Hl1.
  destruct Hl1 as (HP & p1 & -> & Hp1 & _).
  destruct (Hk x HP b a p1 v b' a' p' ltac:(lia) Hb Ha H2). lia.
Qed.

Lemma progresses_input : progresses dec_input.
Proof.
  eapply (progresses_bind any (λ _, any)); [by apply local_bytes|by apply progresses_bytes|].
  intros t _. apply (local_bind (Z.le 0)); [apply local_view|]. intros v _.
  apply local_sized. intros s.
  apply (local_bind (Z.le 0)); [apply local_view|]. intros q _. by apply local_ret.
Qed.

Lemma progresses_output : progresses dec_output.
Proof.
  apply (progresses_bind_r (Z.le 0)); [apply local_view|]. intros v _.
  eapply (progresses_bind (Z.le 0) (λ _, any)); [apply local_varint| |].
  - eapply (progresses_bind (Z.le 0) (λ _, Z.le 0)); [apply local_u8|apply progresses_u8|].
    intros first H b a p Hp. destruct (first <? 0xfd); [by apply local_ret|].
    destruct (first =? 0xfd); [by apply local_view|].
    destruct (first =? 0xfe); by apply local_view.
  - intros n Hn. apply (local_bind any); [by apply local_bytes, js_round_nonneg|].
    intros s _. by apply local_ret.
Qed.

(** The loop over the items: fuel beyond the rest of the view is enough. *)
Lemma local_each {A} (dec : Cursor → js (A * Cursor)) :
  local any dec → progresses dec →
  ∀ fuel i count b a p, 0 ≤ p → Forall is_byte b → Forall is_byte a →
    Z.max 0 (blen b - p) < Z.of_nat fuel →
    match dec_each dec fuel i count (mkCursor b a p) with
    | Ret (v, c') => ∃ p', c' = mkCursor b a p' ∧ p ≤ p'
        ∧ (p' ≤ blen b → ∀ a', dec_each dec fuel i count (mkCursor b a' p)
                               = Ret (v, mkCursor b a' p'))
    | Throw _ => True
    | OutOfFuel => False
    end.
Proof.
  intros Hl Hpr fuel. induction fuel as [|fuel IH]; intros i count b a p Hp Hb Ha Hf; [lia|].
  cbn [dec_each]. destruct (i <? count).
  2: { exists p. by split_and!. }
  pose proof (Hl b a p Hp Hb Ha) as Hl1.
  destruct (dec (mkCursor b a p)) as [[x c1]| |] eqn:E; cbn [mbind js_bind]; [|done..].
  destruct Hl1 as (_ & p1 & -> & Hp1 & Hloc).
  destruct (Hpr b a p x b a p1 Hp Hb Ha E) as [Hlt Hlt1].
  specialize (IH (i + 1) count b a p1 ltac:(lia) Hb Ha ltac:(lia)).
  destruct (dec_each dec fuel (i + 1) count (mkCursor b a p1)) as [[xs c2]| |];
    cbn [mbind js_bind]; [|done..].
  destruct IH as (p2 & -> & Hp2 & Hloc2). exists p2. split_and!; [done|lia|].
  intros Hle a'. rewrite Hloc by lia. cbn [mbind js_bind]. by rewrite Hloc2.
Qed.

Lemma local_i32 : local any readI32LE.
Proof. apply (local_bind (Z.le 0)); [apply local_view|]. intros v _. by apply local_ret. Qed.

(** C24: decoding arbitrary bytes.  The decoder terminates on every buffer, whatever surrounds
    the view in its [ArrayBuffer], and what it accepts does not depend on those bytes:
    reads past the view always end in an exception. *)
Theorem decodeBsvTransaction_total bs rest :
  Forall is_byte bs → Forall is_byte rest →
  match decodeBsvTransaction bs rest with
  | Ret tx => ∀ rest', decodeBsvTransaction bs rest' = Ret tx
  | Throw _ => True
  | OutOfFuel => False
  end.
Proof.
  intros Hb Ha. unfold decodeBsvTransaction. pose proof (blen_nonneg bs) as Hlen.
  assert (Hf : ∀ p, 0 ≤ p → Z.max 0 (blen bs - p) < Z.of_nat (S (length bs))).
  { intros p Hp. unfold blen. lia. }
  pose proof (local_i32 bs rest 0 ltac:(lia) Hb Ha) as H1.
  destruct (readI32LE _) as [[v c]| |]; cbn [mbind js_bind]; [|done..].
  destruct H1 as (_ & p1 & -> & Hp1 & L1).
  pose proof (local_varint bs rest p1 Hp1 Hb Ha) as H2.
  destruct (readVarint _) as [[ni c]| |]; cbn [mbind js_bind]; [|done..].
  destruct H2 as (_ & p2 & -> & Hp2 & L2).
  pose proof (local_each dec_input local_input progresses_input (S (length bs)) 0 (Number ni)
    bs rest p2 ltac:(lia) Hb Ha ltac:(apply Hf; lia)) as H3.
  destruct (dec_each dec_input _ _ _ _) as [[xs c]| |]; cbn [mbind js_bind]; [|done..].
  destruct H3 as (p3 & -> & Hp3 & L3).
  pose proof (local_varint bs rest p3 ltac:(lia) Hb Ha) as H4.
  destruct (readVarint _) as [[no c]| |]; cbn [mbind js_bind]; [|done..].
  destruct H4 as (_ & p4 & -> & Hp4 & L4).
  pose proof (local_each dec_output local_output progresses_output (S (length bs)) 0 (Number no)
    bs rest p4 ltac:(lia) Hb Ha ltac:(apply Hf; lia)) as H5.
  destruct (dec_each dec_output _ _ _ _) as [[os c]| |]; cbn [mbind js_bind]; [|done..].
  destruct H5 as (p5 & -> & Hp5 & L5).
  pose proof (local_view 4 bs rest p5 ltac:(lia) Hb Ha) as H6. change (read_view 4) with readU32LE in H6.
  destruct (readU32LE _) as [[lt c]| |]; cbn [mbind js_bind]; [|done..].
  destruct H6 as (_ & p6 & -> & Hp6 & L6). cbn [pos].
  destruct (Z.eqb_spec p6 (blen bs)) as [->|]; cbn [negb]; [|done]. intros rest'.
  rewrite L1 by lia. cbn [mbind js_bind]. rewrite L2 by lia. cbn [mbind js_bind].
  rewrite L3 by lia. cbn [mbind js_bind]. rewrite L4 by lia. cbn [mbind js_bind].
  rewrite L5 by lia. cbn [mbind js_bind].
  match goal with |- context [readU32LE ?c] => replace (readU32LE c)
    with (Ret (lt, mkCursor bs rest' (blen bs))) by (symmetry; apply L6; lia) end.
  cbn [mbind js_bind pos]. by rewrite Z.eqb_refl.
Qed.


(** ** Round trip *)

Lemma creads_items {A} (enc : A → js bytes) (dec : Cursor → js (A * Cursor)) ok xs :
  (∀ x, ok x = true → ∃ e, enc x = Ret e ∧ e ≠ [] ∧ creads dec e x) →
  forallb ok xs = true → length_ok (Z.of_nat (length xs)) = true →
  ∃ n es, encVarint (Z.of_nat (length xs)) = Ret n ∧ enc_each enc xs = Ret es
    ∧ ∀ fuel, (length (mjoin es) ≤ fuel)%nat →
        creads (λ c, '(n, c) ← readVarint c; dec_each dec fuel 0 (Number n) c) (n ++ mjoin es) xs.
Proof.
  intros Henc Hok [Hn Hr]%length_ok_number; [|lia].
  destruct (creads_varint _ Hr) as (n & He & _ & Hrd).
  destruct (creads_each enc dec ok xs Henc Hok) as (es & Hes & Hlen & Hall).
  exists n, es. split_and!; [done..|]. intros fuel Hf.
  eapply (creads_bind readVarint (λ n c, dec_each dec fuel 0 (Number n) c)); [exact Hrd|].
  rewrite Hn. apply (Hall fuel 0). lia.
Qed.

Lemma tx_reads tx :
  tx_ok tx = true →
  ∃ b, encodeBsvTransaction tx = Ret b ∧ ∀ rest, decodeBsvTransaction b rest = Ret tx.
Proof.
  unfold tx_ok. rewrite !andb_true_iff. intros [[[[[Hv Hl] Hi] Ho] Hni] Hno].
  destruct (creads_items encInput dec_input input_ok _ creads_input Hi Hni)
    as (ni & is' & E1 & E2 & Hri).
  destruct (creads_items encOutput dec_output output_ok _ creads_output Ho Hno)
    as (no & os & E3 & E4 & Hro).
  unfold encodeBsvTransaction. rewrite E1, E2, E3, E4. cbn [mbind js_bind].
  eexists. split; [reflexivity|]. intros rest.
  match goal with |- context [concat ?x] => set (b := concat x) end.
  assert (Eb : b = encI32LE (version tx) ++ (ni ++ mjoin is') ++ (no ++ mjoin os)
                   ++ encU32LE (lockTime tx) ++ []).
  { unfold b, concat. rewrite !join_app. cbn [mjoin list_join].
    by rewrite !app_nil_r, <- !app_assoc. }
  assert (Hfi : (length (mjoin is') ≤ S (length b))%nat) by (rewrite Eb, !length_app; lia).
  assert (Hfo : (length (mjoin os) ≤ S (length b))%nat) by (rewrite Eb, !length_app; lia).
  assert (R : creads (λ c,
      '(version, c) ← readI32LE c;
      '(inputs, c) ← ('(n, c) ← readVarint c; dec_each dec_input (S (length b)) 0 (Number n) c);
      '(outputs, c) ← ('(n, c) ← readVarint c; dec_each dec_output (S (length b)) 0 (Number n) c);
      '(lockTime, c) ← readU32LE c; Ret (mkBsvTransaction version inputs outputs lockTime, c)) b tx).
  { rewrite Eb at 1.
    eapply (creads_bind readI32LE (λ v c, _)); [by apply creads_i32|]. cbn beta.
    eapply (creads_bind _ (λ v c, _)); [by apply Hri|]. cbn beta.
    eapply (creads_bind _ (λ v c, _)); [by apply Hro|]. cbn beta.
    eapply (creads_bind readU32LE (λ v c, _)); [by apply creads_u32|]. cbn beta.
    destruct tx. apply creads_ret. }
  specialize (R [] [] rest). rewrite app_nil_r in R. cbn [app] in R. change (blen []) with 0 in R.
  unfold decodeBsvTransaction. cbv zeta.
  cbn beta in R.
  repeat lazymatch type of R with
  | _ ≫= _ = Ret _ =>
    let HR := fresh in let HR' := fresh in
    apply js_bind_Ret in R as ([? ?] & HR & R); cbn beta iota in R;
    try (apply js_bind_Ret in HR as ([? ?] & HR' & HR); cbn beta iota in HR;
         rewrite HR'; cbn [mbind js_bind]; clear HR');
    rewrite HR; cbn [mbind js_bind]; clear HR
  end.
  simplify_eq. cbn [pos]. by rewrite Z.eqb_refl.
Qed.

Lemma encode_inj tx tx' b :
  tx_ok tx = true → tx_ok tx' = true →
  encodeBsvTransaction tx = Ret b → encodeBsvTransaction tx' = Ret b → tx = tx'.
Proof.
  intros (e & E & D)%tx_reads (e' & E' & D')%tx_reads H H'.
  assert (e = b) as -> by congruence. assert (e' = b) as -> by congruence.
  specialize (D []). specialize (D' []). congruence.
Qed.

(** C23: decoding an encoded transaction gives it back, for every transaction whose fields
    fit the widths they are written in, whatever follows the view in its buffer. *)
Theorem tx_roundtrip tx :
  tx_ok tx = true →
  ∃ b, encodeBsvTransaction tx = Ret b ∧ ∀ rest, decodeBsvTransaction b rest = Ret tx.
Proof. apply tx_reads. Qed.

(** ** A transaction with two inputs and two outputs *)

Definition sample_tx : BsvTransaction :=
  mkBsvTransaction (-2)
    [mkTxInput (replicate 32 7) 1 (replicate 253 0xac) 0xffffffff;
     mkTxInput (replicate 32 9) 0xffffffff [] 0]
    [mkTxOutput (2 ^ 64 - 1) (replicate 300 0x51); mkTxOutput 0 []] 500000.

Lemma tx_roundtrip_witness :
  tx_ok sample_tx = true
  ∧ ∃ b, encodeBsvTransaction sample_tx = Ret b
         ∧ ∀ rest, decodeBsvTransaction b rest = Ret sample_tx.
Proof. split; [by vm_compute|]. apply tx_roundtrip. by vm_compute. Defined.

(** A count of [2^64 - 1] inputs is answered with an exception, with 40 bytes behind the
    view. *)
Lemma decode_total_witness :
  let bs := [1; 0; 0; 0; 0xff] ++ replicate 8 0xff in
  let rest := replicate 40 0 in
  is_throw (decodeBsvTransaction bs rest) = true
  ∧ match decodeBsvTransaction bs rest with
    | Ret tx => ∀ rest', decodeBsvTransaction bs rest' = Ret tx
    | Throw _ => True
    | OutOfFuel => False
    end.
Proof.
  intros bs rest. split; [by vm_compute|].
  apply (decodeBsvTransaction_total bs rest); unfold bs, rest;
    repeat constructor; unfold is_byte; lia.
Defined.
