(* ===== verification/SighashProps.v ===== *)
(** * tx-builder: what a signature hash covers

    [covered] is the part of a transaction a signature with a given hash type is meant to
    commit to.  [sighash_scope] shows that nothing else reaches the hash, and
    [sighash_binding] that all of it does. *)

From S2P Require Import Prelude Bytes Tx TxProps.

(** ** Byte strings that are read back are cut in one way *)

Lemma creads_app_inj {A} (f : Cursor → js (A * Cursor)) e1 e2 s1 s2 v1 v2 :
  creads f e1 v1 → creads f e2 v2 → e1 ++ s1 = e2 ++ s2 → v1 = v2 ∧ e1 = e2 ∧ s1 = s2.
Proof.
  intros H1 H2 E. specialize (H1 [] s1 []). specialize (H2 [] s2 []). cbn [app] in *.
  rewrite E in H1. rewrite H1 in H2. injection H2 as Hv Hlen. unfold blen in Hlen.
  split; [done|]. apply app_inj_1 in E; [done|cbn [length] in Hlen; lia].
Qed.

Lemma join_inj {A} (f : Cursor → js (A * Cursor)) es es' xs xs' :
  Forall2 (λ e x, e ≠ [] ∧ creads f e x) es xs →
  Forall2 (λ e x, e ≠ [] ∧ creads f e x) es' xs' →
  mjoin es = mjoin es' → xs = xs'.
Proof.
  intros H. revert es' xs'. induction H as [|e x es xs [He Hr] _ IH]; intros es' xs' H' E.
  - destruct H' as [|e' x' es' xs' [He' _] _]; [done|]. by destruct e'.
  - destruct H' as [|e' x' es' xs' [He' Hr'] H']; [by destruct e|].
    change (mjoin (?e :: ?es)) with (e ++ mjoin es) in E.
    destruct (creads_app_inj f _ _ _ _ _ _ Hr Hr' E) as (-> & _ & Es). f_equal. eauto.
Qed.

Lemma enc_each_reads {A} (enc : A → js bytes) (dec : Cursor → js (A * Cursor)) ok xs :
  (∀ x, ok x = true → ∃ e, enc x = Ret e ∧ e ≠ [] ∧ creads dec e x) →
  forallb ok xs = true →
  ∃ es, enc_each enc xs = Ret es ∧ Forall2 (λ e x, e ≠ [] ∧ creads dec e x) es xs.
Proof.
  intros Henc. induction xs as [|x xs IH]; cbn [forallb enc_each].
  - intros _. by exists [].
  - intros [Hx Hxs]%andb_true_iff. destruct (Henc x Hx) as (e & -> & Hne & Hrd).
    destruct (IH Hxs) as (es & -> & H). exists (e :: es). split; [done|]. by constructor.
Qed.

(** ** The fields of the preimage *)

Definition acp (hashType : Z) : bool := negb (js_and hashType SIGHASH_ANYONECANPAY =? 0).

Definition outpoint (i : TxInput) : bytes * Z := (prevTxid i, prevVout i).

Record Covered := mkCovered {
  c_version : Z;
  c_lockTime : Z;
  c_input : option (bytes * Z * Z);
  c_prevouts : list (bytes * Z);
  c_sequences : list Z;
  c_outputs : list TxOutput
}.

(** Version and lock time, the outpoint and sequence of the input that is signed; all
    outpoints unless ANYONECANPAY; all sequences only for a plain ALL; the outputs: all, the
    one with the input's index, or none. *)
Definition covered (tx : BsvTransaction) (inputIdx hashType : Z) : Covered :=
  let base := js_and hashType 0x1f in
  mkCovered (version tx) (lockTime tx)
    ((λ i, (outpoint i, sequence i)) <$> (inputs tx !! Z.to_nat inputIdx))
    (if acp hashType then [] else outpoint <$> inputs tx)
    (if acp hashType || (base =? SIGHASH_NONE) || (base =? SIGHASH_SINGLE) then []
     else sequence <$> inputs tx)
    (if base =? SIGHASH_ALL then outputs tx
     else if base =? SIGHASH_SINGLE then option_list (outputs tx !! Z.to_nat inputIdx)
     else []).

Definition prevouts_bytes (tx : BsvTransaction) : bytes :=
  concat (mjoin ((λ i, [prevTxid i; encU32LE (prevVout i)]) <$> inputs tx)).

Definition sequences_bytes (tx : BsvTransaction) : bytes :=
  concat ((λ i, encU32LE (sequence i)) <$> inputs tx).

Lemma prevouts_bytes_outpoint tx :
  prevouts_bytes tx = mjoin ((λ o, o.1 ++ encU32LE o.2) <$> (outpoint <$> inputs tx)).
Proof.
  unfold prevouts_bytes, concat. induction (inputs tx) as [|i l IH]; [done|].
  cbn [fmap list_fmap]. change (mjoin (?e :: ?es)) with (e ++ mjoin es). rewrite join_app, IH.
  cbn [mjoin list_join outpoint fst snd]. by rewrite app_nil_r.
Qed.

Lemma sequences_bytes_fmap tx : sequences_bytes tx = mjoin (encU32LE <$> (sequence <$> inputs tx)).
Proof. unfold sequences_bytes, concat. by rewrite <- list_fmap_compose. Qed.

(** The version is written byte by byte, with shifts of a signed 32-bit integer. *)
Lemma version_bytes v :
  i32_range v = true →
  u8 <$> [js_and v 0xff; js_and (js_shr v 8) 0xff; js_and (js_shr v 16) 0xff;
          js_and (js_shr v 24) 0xff] = le_bytes 4 v.
Proof.
  intros H%i32_range_iff. rewrite !js_and_ff.
  assert (E : ∀ n, 0 ≤ n < 32 → js_shr v n = v / 2 ^ n).
  { intros n Hn. unfold js_shr. rewrite (Z.mod_small n), Z.shiftr_div_pow2 by lia. f_equal.
    rewrite <- (to_int32_uint32 v) at 2 by done. unfold to_int32, to_uint32.
    by rewrite Z.mod_mod by lia. }
  rewrite !E by lia. cbn [fmap list_fmap le_bytes]. unfold u8.
  rewrite !Z.mod_mod, !Z.div_div by lia. done.
Qed.

Lemma version_bytes_inj v w :
  i32_range v = true → i32_range w = true → le_bytes 4 v = le_bytes 4 w → v = w.
Proof.
  intros Hv%i32_range_iff Hw%i32_range_iff E%(f_equal le_val).
  rewrite !le_val_le_bytes in E. change (256 ^ Z.of_nat 4) with (2 ^ 32) in E.
  rewrite <- (to_int32_uint32 v), <- (to_int32_uint32 w) by done.
  unfold to_uint32. by rewrite E.
Qed.

Lemma creads_outpoint i :
  input_ok i = true →
  creads (λ c, '(t, c) ← readBytes 32 c; '(v, c) ← readU32LE c; Ret ((t, v), c))
    ((outpoint i).1 ++ encU32LE (outpoint i).2) (outpoint i).
Proof.
  unfold input_ok. rewrite !andb_true_iff, Z.eqb_eq. intros [[[Ht Hv] _] _].
  cbn [outpoint fst snd]. rewrite <- Ht.
  eapply (creads_bind (readBytes _) (λ t c, _)); [apply creads_bytes|]. cbn beta.
  apply (creads_map readU32LE (λ v, (prevTxid i, v))). by apply creads_u32.
Qed.

Lemma prevouts_bytes_inj tx tx' :
  forallb input_ok (inputs tx) = true → forallb input_ok (inputs tx') = true →
  prevouts_bytes tx = prevouts_bytes tx' → outpoint <$> inputs tx = outpoint <$> inputs tx'.
Proof.
  assert (H : ∀ l, forallb input_ok l = true → Forall2 (λ e x, e ≠ [] ∧ creads (λ c,
      '(t, c) ← readBytes 32 c; '(v, c) ← readU32LE c; Ret ((t, v), c)) e x)
      ((λ o, o.1 ++ encU32LE o.2) <$> (outpoint <$> l)) (outpoint <$> l)).
  { induction l as [|i l IH]; cbn [forallb]; [constructor|].
    intros [Hi Hl]%andb_true_iff. constructor; [|by apply IH]. split; [|by apply creads_outpoint].
    intros E%(f_equal length). rewrite length_app in E. cbn in E. lia. }
  intros H1 H2. rewrite !prevouts_bytes_outpoint. eapply join_inj; eauto.
Qed.

Lemma sequences_bytes_inj tx tx' :
  forallb input_ok (inputs tx) = true → forallb input_ok (inputs tx') = true →
  sequences_bytes tx = sequences_bytes tx' → sequence <$> inputs tx = sequence <$> inputs tx'.
Proof.
  assert (H : ∀ l, forallb input_ok l = true →
    Forall2 (λ e x, e ≠ [] ∧ creads readU32LE e x) (encU32LE <$> (sequence <$> l)) (sequence <$> l)).
  { induction l as [|i l IH]; cbn [forallb]; [constructor|].
    intros [Hi Hl]%andb_true_iff. constructor; [|by apply IH]. split; [done|].
    unfold input_ok in Hi. rewrite !andb_true_iff in Hi. apply creads_u32. tauto. }
  intros H1 H2. rewrite !sequences_bytes_fmap. eapply join_inj; eauto.
Qed.

Lemma outputs_bytes_inj os os' es es' :
  forallb output_ok os = true → forallb output_ok os' = true →
  enc_each encOutput os = Ret es → enc_each encOutput os' = Ret es' →
  concat es = concat es' → os = os'.
Proof.
  intros H1 H2 E1 E2 E.
  destruct (enc_each_reads encOutput dec_output output_ok os creads_output H1) as (fs & F1 & G1).
  destruct (enc_each_reads encOutput dec_output output_ok os' creads_output H2) as (fs' & F2 & G2).
  replace fs with es in G1 by congruence. replace fs' with es' in G2 by congruence.
  eapply join_inj; eauto.
Qed.

Lemma output_bytes_inj o o' b b' :
  output_ok o = true → output_ok o' = true →
  encOutput o = Ret b → encOutput o' = Ret b' → b = b' → o = o'.
Proof.
  intros H1 H2 E1 E2 E.
  destruct (creads_output o H1) as (e & F1 & _ & G1), (creads_output o' H2) as (e' & F2 & _ & G2).
  assert (e = b) as -> by congruence. assert (e' = b') as -> by congruence.
  by destruct (creads_app_inj dec_output _ _ [] [] _ _ G1 G2 ltac:(by rewrite E)).
Qed.

Definition ret_list {A} (m : js A) : list A := match m with Ret a => [a] | _ => [] end.

Section props.
Context (sha256 : bytes → bytes).

(** The strings that a call hashes, or could hash with another hash type *)
Definition hashed (tx : BsvTransaction) (inputIdx : Z) (prevScript : bytes)
    (prevValue hashType : Z) : list bytes :=
  match inputs tx !! Z.to_nat inputIdx with
  | None => []
  | Some i =>
    ret_list (sighash_preimage sha256 tx inputIdx i prevScript prevValue hashType)
    ++ [prevouts_bytes tx; sequences_bytes tx]
    ++ ret_list (concat <$> enc_each encOutput (outputs tx))
    ++ match outputs tx !! Z.to_nat inputIdx with
       | Some o => ret_list (encOutput o)
       | None => []
       end
  end.

Lemma isBase_eq t base : isBaseSighash t base = (js_and t 0x1f =? base).
Proof. done. Qed.

Lemma hashPrevouts_spec tx ht :
  hashPrevouts sha256 tx ht = if acp ht then ZERO_32 else doubleSha256 sha256 (prevouts_bytes tx).
Proof. done. Qed.

Lemma hashSequence_spec tx ht :
  hashSequence sha256 tx ht
  = if acp ht || (js_and ht 0x1f =? SIGHASH_NONE) || (js_and ht 0x1f =? SIGHASH_SINGLE)
    then ZERO_32 else doubleSha256 sha256 (sequences_bytes tx).
Proof.
  unfold hashSequence. rewrite !isBase_eq. fold (acp ht).
  by destruct (acp ht), (_ =? SIGHASH_NONE), (_ =? SIGHASH_SINGLE).
Qed.

Lemma hashOutputs_spec tx idx ht :
  0 ≤ idx →
  hashOutputs sha256 tx idx ht
  = if js_and ht 0x1f =? SIGHASH_ALL then
      parts ← enc_each encOutput (outputs tx); Ret (doubleSha256 sha256 (concat parts))
    else if js_and ht 0x1f =? SIGHASH_SINGLE then
      match outputs tx !! Z.to_nat idx with
      | Some o => b ← encOutput o; Ret (doubleSha256 sha256 b)
      | None => Ret ZERO_32
      end
    else Ret ZERO_32.
Proof.
  intros Hi. unfold hashOutputs. rewrite !isBase_eq. destruct (_ =? SIGHASH_ALL); [done|].
  destruct (_ =? SIGHASH_SINGLE); [|done]. cbn [andb].
  destruct (Z.ltb_spec idx (Z.of_nat (length (outputs tx)))) as [H|H].
  - destruct (lookup_lt_is_Some_2 (outputs tx) (Z.to_nat idx)) as [o ->]; [lia|done].
  - by rewrite (lookup_ge_None_2 (outputs tx)) by lia.
Qed.

Lemma computeSighash_spec tx idx ps pv ht :
  computeSighash sha256 tx idx ps pv ht
  = if js_and ht SIGHASH_FORKID =? 0 then Throw "computeSighash: BSV requires SIGHASH_FORKID"
    else match (if 0 <=? idx then inputs tx !! Z.to_nat idx else None) with
         | None => Throw ("computeSighash: inputIdx " +:+ pretty idx +:+ " out of range")
         | Some i => preimage ← sighash_preimage sha256 tx idx i ps pv ht;
                     Ret (doubleSha256 sha256 preimage)
         end.
Proof.
  unfold computeSighash. destruct (js_and ht SIGHASH_FORKID =? 0); [done|].
  destruct (Z.ltb_spec idx 0), (Z.leb_spec 0 idx); cbn [orb]; try lia; [done|].
  destruct (Z.leb_spec (Z.of_nat (length (inputs tx))) idx) as [H'|H'].
  - by rewrite (lookup_ge_None_2 (inputs tx)) by lia.
  - by destruct (lookup_lt_is_Some_2 (inputs tx) (Z.to_nat idx)) as [i ->]; [lia|].
Qed.

(** Scope of a signature: the signature hash depends on nothing but the covered part of
    the transaction.  In particular unlocking scripts can be filled in after signing, and a
    hash type with NONE, SINGLE or ANYONECANPAY leaves the other fields open. *)
Theorem sighash_scope tx tx' idx ps pv ht :
  covered tx idx ht = covered tx' idx ht →
  computeSighash sha256 tx idx ps pv ht = computeSighash sha256 tx' idx ps pv ht.
Proof.
  unfold covered. intros [= Hv Hl Hi Hp Hs Ho]. rewrite !computeSighash_spec.
  destruct (js_and ht SIGHASH_FORKID =? 0); [done|].
  destruct (Z.leb_spec 0 idx) as [H0|]; [|done].
  destruct (inputs tx !! Z.to_nat idx) as [i|], (inputs tx' !! Z.to_nat idx) as [i'|]; try done.
  assert (Ei : outpoint i = outpoint i' ∧ sequence i = sequence i').
  { cbn in Hi. injection Hi as E1 E2 E3. unfold outpoint. split; congruence. }
  destruct Ei as [Ept Eq]. injection Ept as Et Eo. f_equal. unfold sighash_preimage. rewrite Hv, Hl, Et, Eo, Eq.
  assert (hashPrevouts sha256 tx ht = hashPrevouts sha256 tx' ht) as ->.
  { rewrite !hashPrevouts_spec, !prevouts_bytes_outpoint. destruct (acp ht); [done|]. by rewrite Hp. }
  assert (hashSequence sha256 tx ht = hashSequence sha256 tx' ht) as ->.
  { rewrite !hashSequence_spec, !sequences_bytes_fmap.
    destruct (acp ht), (_ =? SIGHASH_NONE), (_ =? SIGHASH_SINGLE); try done.
    cbn [orb] in Hs. by rewrite Hs. }
  assert (hashOutputs sha256 tx idx ht = hashOutputs sha256 tx' idx ht) as ->; [|done].
  rewrite !hashOutputs_spec by done. destruct (_ =? SIGHASH_ALL); [by rewrite Ho|].
  destruct (_ =? SIGHASH_SINGLE); [|done].
  destruct (outputs tx !! _), (outputs tx' !! _); cbn in Ho; congruence.
Qed.

(** *** Binding *)

Context (digest_length : ∀ m, length (sha256 m) = 32%nat).

Lemma length_dsha m : length (doubleSha256 sha256 m) = 32%nat.
Proof using digest_length. apply digest_length. Qed.

Lemma length_hashPrevouts tx ht : length (hashPrevouts sha256 tx ht) = 32%nat.
Proof using digest_length. rewrite hashPrevouts_spec. case_match; [done|apply length_dsha]. Qed.

Lemma length_hashSequence tx ht : length (hashSequence sha256 tx ht) = 32%nat.
Proof using digest_length. rewrite hashSequence_spec. case_match; [done|apply length_dsha]. Qed.

Lemma hashOutputs_Ret tx idx ht :
  forallb output_ok (outputs tx) = true → 0 ≤ idx →
  ∃ h, hashOutputs sha256 tx idx ht = Ret h ∧ length h = 32%nat.
Proof using digest_length.
  intros Ho Hi. rewrite hashOutputs_spec by done.
  destruct (_ =? SIGHASH_ALL).
  { destruct (enc_each_reads encOutput dec_output output_ok _ creads_output Ho) as (es & -> & _).
    eexists. split; [reflexivity|apply length_dsha]. }
  destruct (_ =? SIGHASH_SINGLE); [|by eexists].
  destruct (outputs tx !! Z.to_nat idx) as [o|] eqn:E; [|by eexists].
  destruct (creads_output o) as (e & -> & _).
  { eapply forallb_forall in Ho; [done|]. by eapply list_elem_of_In, list_elem_of_lookup_2. }
  eexists. split; [reflexivity|apply length_dsha].
Qed.

(** What a call hashes, when its arguments fit *)
Lemma preimage_Ret tx idx i ps pv ht :
  tx_ok tx = true → length_ok (blen ps) = true → 0 ≤ idx →
  ∃ outs scriptLen,
    hashOutputs sha256 tx idx ht = Ret outs ∧ length outs = 32%nat
    ∧ encVarint (blen ps) = Ret scriptLen ∧ creads readVarint scriptLen (blen ps)
    ∧ sighash_preimage sha256 tx idx i ps pv ht
      = Ret (le_bytes 4 (version tx) ++ hashPrevouts sha256 tx ht ++ hashSequence sha256 tx ht
             ++ prevTxid i ++ encU32LE (prevVout i) ++ scriptLen ++ ps ++ encU64LE pv
             ++ encU32LE (sequence i) ++ outs ++ encU32LE (lockTime tx) ++ encU32LE ht).
Proof using digest_length.
  unfold tx_ok. rewrite !andb_true_iff. intros [[[[[Hv _] _] Ho] _] _] Hps Hi.
  destruct (hashOutputs_Ret tx idx ht Ho Hi) as (outs & Eo & Lo).
  pose proof (length_ok_number _ (blen_nonneg ps) Hps) as [_ Hr].
  destruct (creads_varint _ Hr) as (l & El & _ & Rl).
  exists outs, l. split_and!; try done. unfold sighash_preimage.
  rewrite El, Eo. cbv zeta. rewrite (version_bytes _ Hv).
  cbn [mbind js_bind]. unfold concat. cbn [mjoin list_join].
  by rewrite app_nil_r.
Qed.

Lemma tx_ok_input tx n i :
  tx_ok tx = true → inputs tx !! n = Some i →
  blen (prevTxid i) = 32 ∧ u32_range (prevVout i) = true ∧ u32_range (sequence i) = true.
Proof using Type.
  unfold tx_ok. rewrite !andb_true_iff. intros [[[[_ Hin] _] _] _] Hi.
  eapply forallb_forall in Hin; [|by eapply list_elem_of_In, list_elem_of_lookup_2].
  unfold input_ok in Hin. rewrite !andb_true_iff, Z.eqb_eq in Hin. tauto.
Qed.

Lemma computeSighash_Ret tx idx ps pv ht h :
  computeSighash sha256 tx idx ps pv ht = Ret h →
  0 ≤ idx ∧ ∃ i p, inputs tx !! Z.to_nat idx = Some i
    ∧ sighash_preimage sha256 tx idx i ps pv ht = Ret p ∧ h = doubleSha256 sha256 p.
Proof using Type.
  rewrite computeSighash_spec. destruct (_ =? 0); [done|].
  destruct (Z.leb_spec 0 idx) as [H0|]; [|done].
  destruct (inputs tx !! Z.to_nat idx) as [i|] eqn:E; [|done].
  intros (p & Hp & [= <-])%js_bind_Ret. split; [done|]. by exists i, p.
Qed.

(** A hash that two calls share without sharing what was hashed *)
Definition broken (xs ys : list bytes) : Prop :=
  ∃ x y, x ∈ xs ∧ y ∈ ys ∧ (collides (doubleSha256 sha256) x y
    ∨ doubleSha256 sha256 x = ZERO_32 ∨ doubleSha256 sha256 y = ZERO_32).

Lemma same_hash xs ys x y :
  x ∈ xs → y ∈ ys → doubleSha256 sha256 x = doubleSha256 sha256 y → x = y ∨ broken xs ys.
Proof using Type.
  intros Hx Hy E. destruct (decide (x = y)); [by left|]. right. exists x, y.
  split_and!; [done..|]. left. done.
Qed.

Lemma hashed_elems tx idx ps pv ht i p :
  inputs tx !! Z.to_nat idx = Some i → sighash_preimage sha256 tx idx i ps pv ht = Ret p →
  let l := hashed tx idx ps pv ht in
  p ∈ l ∧ prevouts_bytes tx ∈ l ∧ sequences_bytes tx ∈ l
  ∧ (∀ es, enc_each encOutput (outputs tx) = Ret es → concat es ∈ l)
  ∧ (∀ o b, outputs tx !! Z.to_nat idx = Some o → encOutput o = Ret b → b ∈ l).
Proof using Type.
  intros Hi Hp. cbv zeta. unfold hashed. rewrite Hi, Hp. cbn [ret_list app]. split_and!.
  - by left.
  - right. by left.
  - right. right. by left.
  - intros es ->. right. right. right. by left.
  - intros o b -> ->. right. right. right. apply elem_of_app. right. by left.
Qed.

Lemma prevouts_bound tx tx' ht xs ys :
  forallb input_ok (inputs tx) = true → forallb input_ok (inputs tx') = true →
  prevouts_bytes tx ∈ xs → prevouts_bytes tx' ∈ ys →
  hashPrevouts sha256 tx ht = hashPrevouts sha256 tx' ht →
  (if acp ht then [] else outpoint <$> inputs tx) = (if acp ht then [] else outpoint <$> inputs tx')
  ∨ broken xs ys.
Proof using Type.
  intros H1 H2 Hx Hy. rewrite !hashPrevouts_spec. destruct (acp ht); [by left|].
  intros [E|]%(same_hash _ _ _ _ Hx Hy); [|by right]. left. by apply prevouts_bytes_inj.
Qed.

Lemma sequences_bound tx tx' ht xs ys :
  forallb input_ok (inputs tx) = true → forallb input_ok (inputs tx') = true →
  sequences_bytes tx ∈ xs → sequences_bytes tx' ∈ ys →
  hashSequence sha256 tx ht = hashSequence sha256 tx' ht →
  c_sequences (covered tx 0 ht) = c_sequences (covered tx' 0 ht) ∨ broken xs ys.
Proof using Type.
  intros H1 H2 Hx Hy. rewrite !hashSequence_spec. cbn [covered c_sequences].
  destruct (_ || _ || _); [by left|].
  intros [E|]%(same_hash _ _ _ _ Hx Hy); [|by right]. left. by apply sequences_bytes_inj.
Qed.

Lemma outputs_bound tx tx' idx idx' ht xs ys h :
  0 ≤ idx → 0 ≤ idx' →
  forallb output_ok (outputs tx) = true → forallb output_ok (outputs tx') = true →
  (∀ es, enc_each encOutput (outputs tx) = Ret es → concat es ∈ xs) →
  (∀ es, enc_each encOutput (outputs tx') = Ret es → concat es ∈ ys) →
  (∀ o b, outputs tx !! Z.to_nat idx = Some o → encOutput o = Ret b → b ∈ xs) →
  (∀ o b, outputs tx' !! Z.to_nat idx' = Some o → encOutput o = Ret b → b ∈ ys) →
  xs ≠ [] → ys ≠ [] →
  hashOutputs sha256 tx idx ht = Ret h → hashOutputs sha256 tx' idx' ht = Ret h →
  c_outputs (covered tx idx ht) = c_outputs (covered tx' idx' ht) ∨ broken xs ys.
Proof using Type.
  intros H0 H0' Ho Ho' He He' Hb Hb' Hx Hy. rewrite !hashOutputs_spec by done.
  cbn [covered c_outputs]. destruct (_ =? SIGHASH_ALL).
  { intros (es & E1 & [= <-])%js_bind_Ret (es' & E2 & [= E])%js_bind_Ret.
    apply eq_sym in E. apply (same_hash xs ys) in E as [E|]; [|by right|eauto..]. left.
    by eapply outputs_bytes_inj. }
  destruct (_ =? SIGHASH_SINGLE); [|by left].
  assert (Hok : ∀ t n o, forallb output_ok (outputs t) = true → outputs t !! n = Some o →
                output_ok o = true).
  { intros t n o Ht En. eapply forallb_forall in Ht; [done|].
    by eapply list_elem_of_In, list_elem_of_lookup_2. }
  destruct xs as [|x xs]; [done|]. destruct ys as [|y ys]; [done|].
  destruct (outputs tx !! Z.to_nat idx) as [o|] eqn:Eo,
    (outputs tx' !! Z.to_nat idx') as [o'|] eqn:Eo'; [..|by left].
  - intros (b & E1 & [= <-])%js_bind_Ret (b' & E2 & [= E])%js_bind_Ret.
    apply eq_sym in E. apply (same_hash (x :: xs) (y :: ys)) in E as [E|]; [|by right|eauto..].
    left. do 2 f_equal. eapply (output_bytes_inj o o' b b'); eauto.
  - intros (b & E1 & [= <-])%js_bind_Ret [= E]. right. exists b, y. split_and!; eauto.
    by left.
  - intros [= <-] (b & E1 & [= E])%js_bind_Ret. right. exists x, b. split_and!; eauto. by left.
Qed.

(** C25: binding: two calls that return the same signature hash were given the same script,
    value, hash type and covered part of the transaction, or two of the strings they hash
    collide (or, for SINGLE without an output of its index, hash to 32 zero bytes). *)
Theorem sighash_binding tx tx' idx idx' ps ps' pv pv' ht ht' h :
  tx_ok tx = true → tx_ok tx' = true →
  length_ok (blen ps) = true → length_ok (blen ps') = true →
  u64_range pv = true → u64_range pv' = true →
  u32_range ht = true → u32_range ht' = true →
  computeSighash sha256 tx idx ps pv ht = Ret h →
  computeSighash sha256 tx' idx' ps' pv' ht' = Ret h →
  (ps = ps' ∧ pv = pv' ∧ ht = ht' ∧ covered tx idx ht = covered tx' idx' ht')
  ∨ broken (hashed tx idx ps pv ht) (hashed tx' idx' ps' pv' ht').
Proof using digest_length.
  intros Ht Ht' Hps Hps' Hpv Hpv' Hht Hht'
    (H0 & i & p & Hi & Hp & ->)%computeSighash_Ret (H0' & i' & p' & Hi' & Hp' & E)%computeSighash_Ret.
  destruct (hashed_elems _ _ _ _ _ _ _ Hi Hp) as (M1 & M2 & M3 & M4 & M5).
  destruct (hashed_elems _ _ _ _ _ _ _ Hi' Hp') as (N1 & N2 & N3 & N4 & N5).
  destruct (same_hash _ _ _ _ M1 N1 E) as [->|]; [|by right]. clear E.
  destruct (preimage_Ret tx idx i ps pv ht Ht Hps H0) as (os & l & Eo & Lo & _ & Rl & Ep).
  destruct (preimage_Ret tx' idx' i' ps' pv' ht' Ht' Hps' H0') as (os' & l' & Eo' & Lo' & _ & Rl' & Ep').
  rewrite Ep in Hp. rewrite Ep' in Hp'. rewrite <- Hp' in Hp. apply (f_equal ret_list) in Hp.
  cbn [ret_list] in Hp. apply (inj2 cons) in Hp as [E _]. clear Ep Ep' Hp'.
  destruct (tx_ok_input tx _ i Ht Hi) as (Li & Vi & Si), (tx_ok_input tx' _ i' Ht' Hi') as (Li' & Vi' & Si').
  unfold tx_ok in Ht, Ht'. rewrite !andb_true_iff in Ht, Ht'.
  destruct Ht as [[[[[Hv Hl] Hin] Hout] _] _], Ht' as [[[[[Hv' Hl'] Hin'] Hout'] _] _].
  apply app_inj_1 in E as [Ev E]; [|done]. apply (version_bytes_inj _ _ Hv Hv') in Ev.
  apply app_inj_1 in E as [Epo E]; [|by rewrite !length_hashPrevouts].
  apply app_inj_1 in E as [Esq E]; [|by rewrite !length_hashSequence].
  apply app_inj_1 in E as [Eti E]; [|unfold blen in *; lia].
  apply (creads_app_inj _ _ _ _ _ _ _ (creads_u32 _ Vi) (creads_u32 _ Vi')) in E as (Evo & _ & E).
  apply (creads_app_inj _ _ _ _ _ _ _ Rl Rl') in E as (Elen & _ & E).
  apply app_inj_1 in E as [-> E]; [|unfold blen in Elen; lia].
  apply (creads_app_inj _ _ _ _ _ _ _ (creads_u64 _ Hpv) (creads_u64 _ Hpv')) in E as (-> & _ & E).
  apply (creads_app_inj _ _ _ _ _ _ _ (creads_u32 _ Si) (creads_u32 _ Si')) in E as (Ese & _ & E).
  apply app_inj_1 in E as [-> E]; [|lia].
  apply (creads_app_inj _ _ _ _ _ _ _ (creads_u32 _ Hl) (creads_u32 _ Hl')) in E as (Elt & _ & E).
  rewrite <- (app_nil_r (encU32LE ht)), <- (app_nil_r (encU32LE ht')) in E.
  apply (creads_app_inj _ _ _ _ _ _ _ (creads_u32 _ Hht) (creads_u32 _ Hht')) in E as (-> & _ & _).
  destruct (prevouts_bound tx tx' ht' _ _ Hin Hin' M2 N2 Epo) as [Cp|]; [|by right].
  destruct (sequences_bound tx tx' ht' _ _ Hin Hin' M3 N3 Esq) as [Cs|]; [|by right].
  destruct (outputs_bound tx tx' idx idx' ht' _ _ os' H0 H0' Hout Hout' M4 N4 M5 N5
    ltac:(by intros Z; rewrite Z in M1; inversion M1) ltac:(by intros Z; rewrite Z in N1; inversion N1)
    Eo Eo') as [Co|]; [|by right].
  left. split_and!; try done. unfold covered in *. cbn [c_sequences c_outputs] in Cs, Co.
  rewrite Ev, Elt, Cp, Cs, Co, Hi, Hi'. cbn [fmap option_fmap option_map]. unfold outpoint.
  by rewrite Eti, Evo, Ese.
Qed.
End props.

(** ** Concrete signature hashes *)

(** The sample with its unlocking scripts emptied *)
Definition unsigned_tx : BsvTransaction :=
  mkBsvTransaction (version sample_tx)
    ((λ i, mkTxInput (prevTxid i) (prevVout i) [] (sequence i)) <$> inputs sample_tx)
    (outputs sample_tx) (lockTime sample_tx).

Definition cut_digest (m : bytes) : bytes := take 32 (m ++ replicate 32 0).

Lemma length_cut_digest m : length (cut_digest m) = 32%nat.
Proof. unfold cut_digest. rewrite length_take, length_app, length_replicate. lia. Qed.

Lemma sighash_scope_witness :
  unsigned_tx ≠ sample_tx
  ∧ covered unsigned_tx 1 SIGHASH_ALL_FORKID = covered sample_tx 1 SIGHASH_ALL_FORKID
  ∧ computeSighash cut_digest unsigned_tx 1 [0x51] 7 SIGHASH_ALL_FORKID
    = computeSighash cut_digest sample_tx 1 [0x51] 7 SIGHASH_ALL_FORKID.
Proof.
  split; [by vm_compute|]. split; [by vm_compute|].
  apply (sighash_scope cut_digest unsigned_tx sample_tx 1 [0x51] 7 SIGHASH_ALL_FORKID).
  by vm_compute.
Defined.

Lemma sighash_binding_witness :
  ∃ h, computeSighash cut_digest unsigned_tx 1 [0x51] 7 0x43 = Ret h
  ∧ computeSighash cut_digest sample_tx 1 [0x51] 7 0x43 = Ret h
  ∧ ((([0x51] : bytes) = [0x51] ∧ 7 = 7 ∧ 0x43 = 0x43
      ∧ covered unsigned_tx 1 0x43 = covered sample_tx 1 0x43)
     ∨ broken cut_digest (hashed cut_digest unsigned_tx 1 [0x51] 7 0x43)
                         (hashed cut_digest sample_tx 1 [0x51] 7 0x43)).
Proof.
  eexists. split; [by vm_compute|]. split; [by vm_compute|].
  eapply (sighash_binding cut_digest length_cut_digest unsigned_tx sample_tx 1 1 [0x51] [0x51]
    7 7 0x43 0x43); by vm_compute.
Defined.
