(* ===== verification/SignProps.v ===== *)
(** * tx-builder: signatures are strict DER, decode to what was signed, and verify *)

From S2P Require Import Prelude Bytes Tx TxProps.

(** ** Strict DER, as BIP-66 defines it (without the hash type byte) *)

Definition at_ (b : bytes) (i : nat) : Z := default 0 (b !! i).
Definition high_bit (x : Z) : bool := 128 <=? x.

(** An INTEGER body: not empty, not negative, no zero byte that is not needed *)
Definition strict_int (b : bytes) : bool :=
  match b with
  | [] => false
  | [x] => negb (high_bit x)
  | x :: y :: _ => negb (high_bit x) && negb ((x =? 0) && negb (high_bit y))
  end.

Definition strict_der (b : bytes) : bool :=
  let lenR := Z.to_nat (at_ b 3) in
  let lenS := Z.to_nat (at_ b (5 + lenR)) in
  (8 <=? blen b) && (blen b <=? 72)
  && (at_ b 0 =? 0x30) && (at_ b 1 =? blen b - 2)
  && (at_ b 2 =? 0x02) && (5 + lenR <? length b)%nat
  && (lenR + lenS + 6 =? length b)%nat
  && strict_int (take lenR (drop 4 b))
  && (at_ b (4 + lenR) =? 0x02)
  && strict_int (take lenS (drop (6 + lenR) b)).

(** The 32-byte big-endian form of the compact encoding *)
Definition be32 (n : Z) : bytes := reverse (le_bytes 32 n).

(** ** Big-endian bytes *)

Lemma le_bytes_0 n : le_bytes n 0 = replicate n 0.
Proof. induction n as [|n IH]; [done|]. cbn [le_bytes replicate]. by rewrite Z.div_0_l, IH. Qed.

Definition be_len (n : Z) : nat := Z.to_nat (Z.log2 n / 8) + 1.

Lemma be_len_bounds n :
  1 ≤ n → 256 ^ Z.of_nat (be_len n - 1) ≤ n < 256 ^ Z.of_nat (be_len n).
Proof.
  intros Hn. unfold be_len. pose proof (Z.log2_nonneg n) as H0.
  assert (0 ≤ Z.log2 n / 8) by (apply Z.div_pos; lia).
  replace (Z.of_nat (Z.to_nat (Z.log2 n / 8) + 1 - 1)) with (Z.log2 n / 8) by lia.
  replace (Z.of_nat (Z.to_nat (Z.log2 n / 8) + 1)) with (Z.log2 n / 8 + 1) by lia.
  change 256 with (2 ^ 8). rewrite <- !Z.pow_mul_r by lia.
  destruct (Z.log2_spec n) as [L1 L2]; [lia|]. pose proof (Z.div_mod (Z.log2 n) 8).
  pose proof (Z.mod_pos_bound (Z.log2 n) 8). split.
  - etransitivity; [|exact L1]. apply Z.pow_le_mono_r; lia.
  - eapply Z.lt_le_trans; [exact L2|]. apply Z.pow_le_mono_r; lia.
Qed.

Lemma be_len_32 n : 1 ≤ n < 2 ^ 256 → (1 ≤ be_len n ≤ 32)%nat.
Proof.
  intros H. pose proof (be_len_bounds n ltac:(lia)) as [Hb _]. split; [unfold be_len; lia|].
  destruct (Nat.le_gt_cases (be_len n) 32) as [|Hgt]; [done|]. exfalso.
  assert (256 ^ 32 ≤ 256 ^ Z.of_nat (be_len n - 1)) by (apply Z.pow_le_mono_r; lia).
  change (2 ^ 256) with (256 ^ 32) in H. lia.
Qed.

Lemma be_bytes_len n : be_bytes n = reverse (le_bytes (be_len n) n).
Proof. done. Qed.

Lemma length_be_bytes n : length (be_bytes n) = be_len n.
Proof. by rewrite be_bytes_len, length_reverse, length_le_bytes. Qed.

Lemma be_bytes_byte n : Forall is_byte (be_bytes n).
Proof. unfold be_bytes. by apply Forall_reverse, le_bytes_byte. Qed.

(** The first byte is not zero. *)
Lemma be_bytes_head n : 1 ≤ n → ∃ t r, be_bytes n = t :: r ∧ 1 ≤ t < 256.
Proof.
  intros Hn. pose proof (be_len_bounds n Hn) as [Hlo Hhi].
  rewrite be_bytes_len.
  replace (le_bytes (be_len n) n) with (le_bytes (be_len n - 1 + 1) n)
    by (f_equal; unfold be_len; lia).
  rewrite le_bytes_app, reverse_app.
  set (p := 256 ^ Z.of_nat (be_len n - 1)) in *.
  assert (Hp : 0 < p) by (apply Z.pow_pos_nonneg; lia).
  assert (1 ≤ be_len n)%nat by (unfold be_len; lia).
  assert (Hq : 1 ≤ n / p < 256).
  { split; [apply Z.div_le_lower_bound; lia|]. apply Z.div_lt_upper_bound; [done|].
    replace (Z.of_nat (be_len n)) with (Z.of_nat (be_len n - 1) + 1) in Hhi by lia.
    rewrite Z.pow_add_r in Hhi by lia. fold p in Hhi. lia. }
  exists (n / p), (reverse (le_bytes (be_len n - 1) n)). split; [|done].
  cbn [le_bytes]. by rewrite (Z.mod_small (n / p)) by lia.
Qed.

Lemma be32_be_bytes n :
  1 ≤ n < 2 ^ 256 → be32 n = replicate (32 - be_len n) 0 ++ be_bytes n.
Proof.
  intros Hn. pose proof (be_len_32 n Hn). pose proof (be_len_bounds n ltac:(lia)) as [_ Hhi].
  unfold be32. rewrite be_bytes_len.
  replace (le_bytes 32 n) with (le_bytes (be_len n + (32 - be_len n)) n) by (f_equal; lia).
  rewrite le_bytes_app, reverse_app, Z.div_small by lia.
  by rewrite le_bytes_0, reverse_replicate.
Qed.

(** ** Hexadecimal and back *)

Lemma js_length_cons c s : char_code c < 128 → js_length (String c s) = 1 + js_length s.
Proof. intros H. unfold js_length. rewrite js_units_ascii by done. cbn [length]. lia. Qed.

Lemma hex_digit_char_ascii d : 0 ≤ d < 16 → char_code (hex_digit_char d) < 128.
Proof.
  intros H. unfold hex_digit_char. case_match; rewrite char_code_of; unfold is_byte; lia.
Qed.

Lemma bigintToBytes_Ret n : 1 ≤ n → bigintToBytes n = Ret (be_bytes n).
Proof.
  intros Hn. pose proof (be_bytes_byte n) as Hb. pose proof (js_length_to_hex _ Hb) as Hlen.
  pose proof (hex_pairs_to_hex (λ _, Ret 0) 0 _ Hb) as Hp.
  unfold bigintToBytes, toString16. destruct (be_bytes_head n Hn) as (t & r & E & Ht).
  rewrite E in *. cbn [to_hex] in *. unfold hex_byte in *.
  set (c := hex_digit_char (t / 16)) in *. set (d := hex_digit_char (t mod 16)) in *.
  change (String c (String d EmptyString) +:+ to_hex r) with (String c (String d (to_hex r))) in *.
  assert (Hc : char_code c < 128).
  { apply hex_digit_char_ascii. split; [apply Z.div_pos; lia|apply Z.div_lt_upper_bound; lia]. }
  clearbody c d. cbv zeta. destruct (Z.eqb_spec (char_code c) 48) as [E0|E0].
  - assert (Hodd : js_length (String d (to_hex r)) mod 2 = 1).
    { rewrite js_length_cons in Hlen by done.
      replace (js_length (String d (to_hex r))) with (1 + (blen (t :: r) - 1) * 2) by lia.
      by rewrite Z.mod_add by lia. }
    rewrite E0, Z.eqb_refl, Hodd. cbn [Z.eqb negb]. assert (c = "0"%char) as Ec by (by apply char_code_inj).
    rewrite Ec in Hp. exact Hp.
  - rewrite (proj2 (Z.eqb_neq _ _) E0), Hlen, Z.mul_comm, Z.mod_mul by lia. exact Hp.
Qed.

(** ** DER *)

Definition der_body (b : bytes) : bytes := if high_bit (at_ b 0) then 0 :: b else b.

Lemma high_bit_and t : is_byte t → (js_and t 0x80 =? 0) = negb (high_bit t).
Proof.
  intros H. apply eqb_prop.
  revert t H. apply (byte_forall (λ t, Bool.eqb (js_and t 0x80 =? 0) (negb (high_bit t)))).
  by vm_compute.
Qed.

Lemma encodeDerInt_spec n :
  1 ≤ n → encodeDerInt (be_bytes n)
          = 0x02 :: u8 (blen (der_body (be_bytes n))) :: der_body (be_bytes n).
Proof.
  intros Hn. destruct (be_bytes_head n Hn) as (t & r & -> & Ht).
  unfold encodeDerInt, der_body, at_.
  assert (strip_zeros (t :: r) = t :: r) as -> by (destruct t; [lia|done|lia]).
  cbn [lookup list_lookup default from_option]. unfold id.
  rewrite high_bit_and, negb_involutive by (unfold is_byte; lia). done.
Qed.

Lemma der_body_strict n : 1 ≤ n → strict_int (der_body (be_bytes n)) = true.
Proof.
  intros Hn. destruct (be_bytes_head n Hn) as (t & r & -> & Ht). unfold der_body, at_, id.
  cbn [lookup list_lookup default from_option]. unfold id.
  destruct (high_bit t) eqn:E; cbn [strict_int]; [by rewrite E|].
  rewrite E. destruct r; [done|]. rewrite (proj2 (Z.eqb_neq _ _)) by lia. done.
Qed.

Lemma length_der_body n : 1 ≤ n < 2 ^ 256 → (1 ≤ length (der_body (be_bytes n)) ≤ 33)%nat.
Proof.
  intros H. pose proof (be_len_32 n H). pose proof (length_be_bytes n). unfold der_body.
  case_match; cbn [length]; lia.
Qed.

(** Whatever sign byte DER needed is dropped again, and the rest padded. *)
Lemma padTo32_der_body n : 1 ≤ n < 2 ^ 256 → padTo32 (der_body (be_bytes n)) = be32 n.
Proof.
  intros H. pose proof (be_len_32 n H). pose proof (length_be_bytes n) as Hl.
  rewrite be32_be_bytes by done. unfold der_body, padTo32, blen.
  destruct (high_bit _); cbn [length]; rewrite Hl.
  - destruct (Z.eqb_spec (Z.of_nat (S (be_len n))) 32) as [E|E].
    { by replace (32 - be_len n)%nat with 1%nat by lia. }
    destruct (Z.ltb_spec 32 (Z.of_nat (S (be_len n)))).
    { by replace (be_len n) with 32%nat by lia. }
    replace (32 - be_len n)%nat with (32 - S (be_len n) + 1)%nat by lia.
    by rewrite replicate_add, <- app_assoc.
  - destruct (Z.eqb_spec (Z.of_nat (be_len n)) 32) as [E|E].
    { by replace (32 - be_len n)%nat with 0%nat by lia. }
    by rewrite (proj2 (Z.ltb_ge _ _)) by lia.
Qed.

(** The layout of a signature with the bodies [r] and [s] *)
Definition der (r s : bytes) : bytes :=
  0x30 :: (4 + blen r + blen s) :: 0x02 :: blen r :: r ++ 0x02 :: blen s :: s.

Lemma encodeDer_spec n m :
  1 ≤ n < 2 ^ 256 → 1 ≤ m < 2 ^ 256 →
  encodeDer (be_bytes n) (be_bytes m) = der (der_body (be_bytes n)) (der_body (be_bytes m)).
Proof.
  intros Hn Hm. unfold encodeDer. rewrite !encodeDerInt_spec by lia.
  pose proof (length_der_body n Hn). pose proof (length_der_body m Hm).
  unfold der, u8, blen. cbn [length app].
  rewrite !Z.mod_small by lia. do 2 f_equal. lia.
Qed.

Lemma der_lookup r s i : der r s !! (4 + length r + i)%nat = (0x02 :: blen s :: s) !! i.
Proof.
  change (der r s !! _) with ((r ++ 0x02 :: blen s :: s) !! (length r + i)%nat).
  rewrite lookup_app_r by lia. f_equal. lia.
Qed.

Lemma der_at r s i : at_ (der r s) (4 + length r + i) = at_ (0x02 :: blen s :: s) i.
Proof. unfold at_. by rewrite der_lookup. Qed.

Lemma der_drop_s r s : drop (6 + length r) (der r s) = s.
Proof.
  unfold der. cbn [Nat.add drop]. rewrite drop_app.
  rewrite drop_ge by lia. by replace (S (S (length r)) - length r)%nat with 2%nat by lia.
Qed.

Lemma decodeDer_der r s :
  (1 ≤ length r)%nat → (1 ≤ length s)%nat → decodeDer (der r s) = Ret (r, s).
Proof.
  intros Hr Hs. unfold decodeDer.
  assert (Hlen : blen (der r s) = 6 + blen r + blen s).
  { unfold der, blen. cbn [length]. rewrite length_app. cbn [length]. lia. }
  rewrite Hlen. rewrite (proj2 (Z.ltb_ge _ _)) by (unfold blen; lia).
  assert (E0 : der r s !! 0%nat = Some 0x30) by done.
  assert (E1 : der r s !! 1%nat = Some (4 + blen r + blen s)) by done.
  assert (E2 : der r s !! 2%nat = Some 0x02) by done.
  assert (E3 : der r s !! 3%nat = Some (blen r)) by done.
  assert (E4 : der r s !! (4 + length r)%nat = Some 0x02).
  { rewrite <- (Nat.add_0_r (4 + length r)). apply der_lookup. }
  assert (E5 : der r s !! (4 + length r + 1)%nat = Some (blen s)) by apply der_lookup.
  rewrite E0, E1, E2, E3. cbn [default from_option]. unfold id.
  assert (Z.to_nat (blen r) = length r) as -> by (unfold blen; lia). rewrite E4, E5.
  rewrite !bool_decide_eq_true_2 by (done || f_equal; lia). cbn [negb].
  assert (Z.to_nat (blen s) = length s) as -> by (unfold blen; lia).
  replace (4 + length r + 2)%nat with (6 + length r)%nat by lia.
  rewrite der_drop_s, (take_ge s) by lia.
  change (drop 4 (der r s)) with (r ++ 0x02 :: blen s :: s). by rewrite take_app_length.
Qed.

Lemma der_strict r s :
  (1 ≤ length r ≤ 33)%nat → (1 ≤ length s ≤ 33)%nat →
  strict_int r = true → strict_int s = true → strict_der (der r s) = true.
Proof.
  intros Hr Hs Sr Ss. unfold strict_der.
  assert (Hlen : length (der r s) = (6 + length r + length s)%nat).
  { unfold der. cbn [length]. rewrite length_app. cbn [length]. lia. }
  assert (at_ (der r s) 3 = blen r) as -> by done.
  assert (Z.to_nat (blen r) = length r) as -> by (unfold blen; lia).
  replace (5 + length r)%nat with (4 + length r + 1)%nat by lia. rewrite der_at.
  assert (at_ (der r s) (4 + length r) = 2) as ->
    by (rewrite <- (Nat.add_0_r (4 + length r)); apply der_at).
  change (at_ (2 :: blen s :: s) 1) with (blen s).
  assert (Z.to_nat (blen s) = length s) as -> by (unfold blen; lia).
  rewrite der_drop_s, (take_ge s) by lia.
  assert (take (length r) (drop 4 (der r s)) = r) as -> by (apply take_app_length).
  rewrite Sr, Ss. unfold blen at 1 2 3.
  rewrite Hlen.
  change (at_ (der r s) 0) with 0x30. change (at_ (der r s) 1) with (4 + blen r + blen s).
  change (at_ (der r s) 2) with 0x02.
  unfold blen. rewrite !andb_true_iff, !Z.leb_le, !Z.eqb_eq, Nat.ltb_lt, Nat.eqb_eq.
  split_and!; lia.
Qed.

(** ** Signing and verifying *)

Section signing.
Context (signAsync : bytes → bytes → js (Z * Z)) (secp_verify : bytes → bytes → bytes → js bool)
        (publicKey : bytes → bytes).

(** What the code relies on: [r] and [s] are positive and fit 32 bytes, a compressed public
    key has 33 bytes, and the library accepts in compact form what it signed. *)
Context (signAsync_range : ∀ d k r s, signAsync d k = Ret (r, s) →
           1 ≤ r < 2 ^ 256 ∧ 1 ≤ s < 2 ^ 256).
Context (length_publicKey : ∀ k, blen (publicKey k) = 33).
Context (verify_signed : ∀ d k r s, signAsync d k = Ret (r, s) →
           secp_verify (be32 r ++ be32 s) d (publicKey k) = Ret true).

Lemma der_bytes r s :
  Forall is_byte r → Forall is_byte s → (length r ≤ 33)%nat → (length s ≤ 33)%nat →
  Forall is_byte (der r s).
Proof using Type.
  intros Hr Hs Lr Ls. unfold der, is_byte, blen in *.
  repeat (apply list.Forall_cons; split; [lia|]). apply list.Forall_app. split; [done|].
  repeat (apply list.Forall_cons; split; [lia|]). done.
Qed.

Lemma der_body_byte n : Forall is_byte (der_body (be_bytes n)).
Proof using Type.
  pose proof (be_bytes_byte n). unfold der_body. case_match; [|done]. by constructor.
Qed.

(** What signing returns: strict DER of at most 72 bytes, which is checked by asking the
    library about the [r] and [s] that were signed *)
Lemma signSighash_Ret d k r s :
  blen d = 32 → blen k = 32 → signAsync d k = Ret (r, s) →
  ∃ sig, signSighash signAsync d k = Ret sig
    ∧ strict_der sig = true ∧ Forall is_byte sig ∧ 8 ≤ blen sig ≤ 72
    ∧ ∀ d' pk, blen d' = 32 → blen pk = 33 →
        verifySighashSignature secp_verify sig d' pk
        = match secp_verify (be32 r ++ be32 s) d' pk with Throw _ => Ret false | m => m end.
Proof using signAsync_range.
  intros Hd Hk E. destruct (signAsync_range _ _ _ _ E) as [Hr Hs].
  pose proof (length_der_body r Hr) as Lr. pose proof (length_der_body s Hs) as Ls.
  exists (der (der_body (be_bytes r)) (der_body (be_bytes s))). split_and!.
  - unfold signSighash. rewrite Hd, Hk, E. cbn [Z.eqb Pos.eqb negb mbind js_bind].
    rewrite !bigintToBytes_Ret by lia. cbn [mbind js_bind]. by rewrite encodeDer_spec by done.
  - apply der_strict; [lia..| |]; apply der_body_strict; lia.
  - apply der_bytes; [apply der_body_byte..|lia|lia].
  - unfold der, blen. cbn [length]. rewrite length_app. cbn [length]. lia.
  - unfold der, blen. cbn [length]. rewrite length_app. cbn [length]. lia.
  - intros d' pk H1 H2. unfold verifySighashSignature. rewrite H1, H2. cbn [Z.eqb Pos.eqb negb].
    rewrite decodeDer_der by lia. cbn [mbind js_bind]. by rewrite !padTo32_der_body by done.
Qed.

(** C26: a signature made here is strict DER (BIP-66), checking it asks the library exactly
    about the [r] and [s] that were signed, for any digest and key, and succeeds for the
    signed digest and the signer's key. *)
Theorem signature_verifies d k r s :
  blen d = 32 → blen k = 32 → signAsync d k = Ret (r, s) →
  ∃ sig, signSighash signAsync d k = Ret sig
    ∧ strict_der sig = true
    ∧ (∀ d' pk, blen d' = 32 → blen pk = 33 →
         verifySighashSignature secp_verify sig d' pk
         = match secp_verify (be32 r ++ be32 s) d' pk with Throw _ => Ret false | m => m end)
    ∧ verifySighashSignature secp_verify sig d (publicKey k) = Ret true.
Proof using signAsync_range length_publicKey verify_signed.
  intros Hd Hk E. destruct (signSighash_Ret _ _ _ _ Hd Hk E) as (sig & Hs & Hder & _ & _ & Hv).
  exists sig. split_and!; [done..|]. by rewrite Hv, (verify_signed _ _ _ _ E).
Qed.
End signing.

(** ** A toy signature scheme *)

Definition toy_scalar (b : bytes) : Z := 1 + le_val (take 32 (b ++ replicate 32 0)) mod 2 ^ 255.
Definition toy_sign (d k : bytes) : js (Z * Z) := Ret (toy_scalar d, toy_scalar k).
Definition toy_pub (k : bytes) : bytes := 2 :: take 32 (k ++ replicate 32 0).
Definition toy_verify (c d pk : bytes) : js bool :=
  Ret (bool_decide (c = be32 (toy_scalar d) ++ be32 (toy_scalar (drop 1 pk)))).

Lemma toy_scalar_range b : 1 ≤ toy_scalar b < 2 ^ 256.
Proof.
  unfold toy_scalar. pose proof (Z.mod_pos_bound (le_val (take 32 (b ++ replicate 32 0))) (2 ^ 255)).
  change (2 ^ 256) with (2 ^ 255 + 2 ^ 255). lia.
Qed.

Lemma toy_sign_range d k r s : toy_sign d k = Ret (r, s) → 1 ≤ r < 2 ^ 256 ∧ 1 ≤ s < 2 ^ 256.
Proof. intros [= <- <-]. split; apply toy_scalar_range. Qed.

Lemma length_take_pad k : length (take 32 (k ++ replicate 32 0)) = 32%nat.
Proof. rewrite length_take, length_app, length_replicate. lia. Qed.

Lemma length_toy_pub k : blen (toy_pub k) = 33.
Proof. unfold toy_pub, blen. cbn [length]. by rewrite length_take_pad. Qed.

Lemma toy_scalar_pad k : toy_scalar (take 32 (k ++ replicate 32 0)) = toy_scalar k.
Proof.
  unfold toy_scalar. rewrite take_app_le by (rewrite length_take_pad; lia).
  by rewrite take_ge by (rewrite length_take_pad; lia).
Qed.

Lemma toy_verify_signed d k r s :
  toy_sign d k = Ret (r, s) → toy_verify (be32 r ++ be32 s) d (toy_pub k) = Ret true.
Proof.
  intros [= <- <-]. unfold toy_verify. f_equal. apply bool_decide_eq_true_2.
  change (drop 1 (toy_pub k)) with (take 32 (k ++ replicate 32 0)). by rewrite toy_scalar_pad.
Qed.

Lemma signature_verifies_witness :
  let d := replicate 32 0xff in
  let k := replicate 30 0 ++ [0x80; 0x7f] in
  ∃ r s, toy_sign d k = Ret (r, s) ∧
  ∃ sig, signSighash toy_sign d k = Ret sig
    ∧ strict_der sig = true
    ∧ (∀ d' pk, blen d' = 32 → blen pk = 33 →
         verifySighashSignature toy_verify sig d' pk
         = match toy_verify (be32 r ++ be32 s) d' pk with Throw _ => Ret false | m => m end)
    ∧ verifySighashSignature toy_verify sig d (toy_pub k) = Ret true.
Proof.
  intros d k. exists (toy_scalar d), (toy_scalar k). split; [done|].
  exact (signature_verifies toy_sign toy_verify toy_pub toy_sign_range length_toy_pub
    toy_verify_signed d k _ _ eq_refl eq_refl eq_refl).
Defined.
