(* ===== verification/Wire.v ===== *)
(** * wire-ts: the binary frames between client and relay

    [packages/wire-ts/src]: the constants and codes of [types.ts] and the codec of
    [frame.ts].  SHA-256 is the platform's.  An error is its message, which names its class. *)

From S2P Require Import Prelude Bytes.

(** ** types.ts *)

Definition Magic : bytes := [0x43; 0x41; 0x52; 0x44].
Definition VERSION_1_0 : Z := 0x0100.
Definition HEADER_SIZE : Z := 16.
Definition MAX_PAYLOAD_SIZE : Z := 32 * 1024 * 1024.

Inductive MsgType : Type :=
  | Version | Verack | Ping | Pong | Getaddr | Addr
  | Inv | Getdata | Object | NotFound | Reject
  | TableAnnounce | SeatCommit | TableStart | ActionCommit | ActionReveal | RoundResult
  | TranscriptHash | TableClose | TimeoutNotice
  | JoinTable | Ready | Action | Commitment | Reveal | CardReveal | Fold | TranscriptRequest
  | TableState | ActionAccepted | PeerAction | TranscriptResponse | ErrorReply.

Definition msg_code (t : MsgType) : Z :=
  match t with
  | Version => 0x0001 | Verack => 0x0002 | Ping => 0x0003 | Pong => 0x0004
  | Getaddr => 0x0005 | Addr => 0x0006
  | Inv => 0x0100 | Getdata => 0x0101 | Object => 0x0102 | NotFound => 0x0103 | Reject => 0x0104
  | TableAnnounce => 0x0200 | SeatCommit => 0x0201 | TableStart => 0x0202
  | ActionCommit => 0x0203 | ActionReveal => 0x0204 | RoundResult => 0x0205
  | TranscriptHash => 0x0206 | TableClose => 0x0207 | TimeoutNotice => 0x0208
  | JoinTable => 0x0300 | Ready => 0x0301 | Action => 0x0302 | Commitment => 0x0303
  | Reveal => 0x0304 | CardReveal => 0x0305 | Fold => 0x0306 | TranscriptRequest => 0x0307
  | TableState => 0x0380 | ActionAccepted => 0x0381 | PeerAction => 0x0382
  | TranscriptResponse => 0x0383 | ErrorReply => 0x03fe
  end.

Inductive RejectCode : Type :=
  | Malformed | InvalidChecksum | UnsupportedVersion | MessageTooLarge | UnknownType
  | StaleObject | DuplicateObject | InvalidObjectHash | RateLimited | BadBinding.

Definition reject_code (c : RejectCode) : Z :=
  match c with
  | Malformed => 0x01 | InvalidChecksum => 0x02 | UnsupportedVersion => 0x03
  | MessageTooLarge => 0x04 | UnknownType => 0x05 | StaleObject => 0x06
  | DuplicateObject => 0x07 | InvalidObjectHash => 0x08 | RateLimited => 0x09
  | BadBinding => 0x0a
  end.

(** ** frame.ts *)

(** The type is a number: the decoder casts it without a check. *)
Record Frame := mkFrame { version : Z; type : Z; payload : bytes }.

Definition BadMagicError : string := "wire: bad magic (expected CARD)".
Definition BadChecksumError : string := "wire: bad payload checksum".
Definition PayloadTooLargeError (n : Z) : string :=
  "wire: payload too large (" +:+ pretty n +:+ " > " +:+ pretty MAX_PAYLOAD_SIZE +:+ ")".
Definition ShortFrameError (have need : Z) : string :=
  "wire: short frame (have " +:+ pretty have +:+ " bytes, need at least " +:+ pretty need +:+ ")".

Section codec.
Context (sha256 : bytes → bytes).

Definition checksumOf (payload : bytes) : bytes := take 4 (sha256 payload).

(** [setUint16] and [setUint32] store modulo [2^16] and [2^32]. *)
Definition encode (f : Frame) : js bytes :=
  if MAX_PAYLOAD_SIZE <? blen (payload f) then Throw (PayloadTooLargeError (blen (payload f)))
  else Ret (Magic ++ le_bytes 2 (version f) ++ le_bytes 2 (type f)
            ++ le_bytes 4 (blen (payload f)) ++ checksumOf (payload f) ++ payload f).

Definition field (off n : nat) (b : bytes) : bytes := take n (drop off b).

Definition decode (b : bytes) : js (Frame * Z) :=
  if blen b <? HEADER_SIZE then Throw (ShortFrameError (blen b) HEADER_SIZE)
  else if negb (bool_decide (field 0 4 b = Magic)) then Throw BadMagicError
  else
    let version := le_val (field 4 2 b) in
    let type := le_val (field 6 2 b) in
    let length := le_val (field 8 4 b) in
    if MAX_PAYLOAD_SIZE <? length then Throw (PayloadTooLargeError length)
    else
      let total := HEADER_SIZE + length in
      if blen b <? total then Throw (ShortFrameError (blen b) total)
      else
        let payload := field 16 (Z.to_nat length) b in
        if negb (bool_decide (field 12 4 b = checksumOf payload)) then Throw BadChecksumError
        else Ret (mkFrame version type payload, total).

(** ** What the codec promises *)

Context (digest_length : ∀ m, length (sha256 m) = 32%nat).

Definition u16_range (n : Z) : bool := (0 <=? n) && (n <? 2 ^ 16).

Definition frame_ok (f : Frame) : bool :=
  u16_range (version f) && u16_range (type f) && (blen (payload f) <=? MAX_PAYLOAD_SIZE).

(** The frame laid out *)
Definition layout (f : Frame) : bytes :=
  Magic ++ le_bytes 2 (version f) ++ le_bytes 2 (type f)
  ++ le_bytes 4 (blen (payload f)) ++ checksumOf (payload f) ++ payload f.

Lemma length_checksum p : length (checksumOf p) = 4%nat.
Proof using digest_length. unfold checksumOf. rewrite length_take, digest_length. done. Qed.

Lemma field_at n pre mid suf off :
  length pre = off → length mid = n → field off n (pre ++ mid ++ suf) = mid.
Proof using Type. intros <- <-. unfold field. by rewrite drop_app_length, take_app_length. Qed.

Lemma layout_length f : blen (layout f) = HEADER_SIZE + blen (payload f).
Proof using digest_length.
  unfold layout. rewrite !blen_app. unfold blen.
  rewrite !length_le_bytes, length_checksum. unfold HEADER_SIZE. cbn [length Magic]. lia.
Qed.

Lemma layout_fields f rest :
  let b := layout f ++ rest in
  field 0 4 b = Magic ∧ field 4 2 b = le_bytes 2 (version f) ∧ field 6 2 b = le_bytes 2 (type f)
  ∧ field 8 4 b = le_bytes 4 (blen (payload f)) ∧ field 12 4 b = checksumOf (payload f)
  ∧ field 16 (length (payload f)) b = payload f.
Proof using digest_length.
  cbv zeta. unfold layout. rewrite <- !app_assoc.
  set (v := le_bytes 2 (version f)). set (t := le_bytes 2 (type f)).
  set (l := le_bytes 4 (blen (payload f))). set (c := checksumOf (payload f)).
  assert (length c = 4%nat) as Hc by apply length_checksum.
  split_and!.
  - by apply (field_at 4 []).
  - by apply (field_at 2 Magic).
  - rewrite (app_assoc Magic). by apply (field_at 2).
  - rewrite (app_assoc v), (app_assoc Magic). by apply (field_at 4).
  - rewrite (app_assoc t), (app_assoc v), (app_assoc Magic). by apply (field_at 4).
  - rewrite (app_assoc l), (app_assoc t), (app_assoc v), (app_assoc Magic).
    apply field_at; [|done]. rewrite !length_app. cbn [length Magic]. rewrite Hc. done.
Qed.

Lemma u16_range_iff n : u16_range n = true ↔ 0 ≤ n < 2 ^ 16.
Proof using Type. unfold u16_range. rewrite andb_true_iff, Z.leb_le, Z.ltb_lt. done. Qed.

Lemma encode_Ret f : frame_ok f = true → encode f = Ret (layout f).
Proof using Type.
  unfold frame_ok. rewrite !andb_true_iff, Z.leb_le. intros [_ H]. unfold encode.
  by rewrite (proj2 (Z.ltb_ge _ _)) by done.
Qed.

Lemma decode_layout f rest :
  frame_ok f = true → decode (layout f ++ rest) = Ret (f, blen (layout f)).
Proof using digest_length.
  unfold frame_ok. rewrite !andb_true_iff, !u16_range_iff, Z.leb_le. intros [[Hv Ht] Hl].
  destruct (layout_fields f rest) as (E0 & E4 & E6 & E8 & E12 & E16).
  pose proof (layout_length f) as Hlen. pose proof (blen_nonneg (payload f)) as Hp.
  pose proof (blen_nonneg rest). unfold decode.
  rewrite E0, E4, E6, E8, E12, blen_app, Hlen.
  rewrite !le_val_le_bytes_small by (unfold MAX_PAYLOAD_SIZE in *; lia).
  rewrite !(proj2 (Z.ltb_ge _ _)) by lia.
  assert (Z.to_nat (blen (payload f)) = length (payload f)) as -> by (unfold blen; lia).
  rewrite E16, !bool_decide_eq_true_2 by done. cbn [negb]. by destruct f.
Qed.

(** Cutting a buffer at the field boundaries *)
Lemma field_split n m b : take (n + m) b = take n b ++ field n m b.
Proof using Type. unfold field. by rewrite take_take_drop. Qed.

Lemma field_bytes off n b : Forall is_byte b → Forall is_byte (field off n b).
Proof using Type. intros H. unfold field. by apply Forall_take, Forall_drop. Qed.

Lemma length_field off n b : (off + n ≤ length b)%nat → length (field off n b) = n.
Proof using Type. intros H. unfold field. rewrite length_take, length_drop. lia. Qed.

Lemma field_value off n b :
  Forall is_byte b → (off + n ≤ length b)%nat →
  le_bytes n (le_val (field off n b)) = field off n b
  ∧ 0 ≤ le_val (field off n b) < 256 ^ Z.of_nat n.
Proof using Type.
  intros Hb Hl. pose proof (length_field _ _ _ Hl) as E.
  pose proof (le_bytes_le_val _ (field_bytes off n b Hb)) as H1.
  pose proof (le_val_bound _ (field_bytes off n b Hb)) as H2.
  rewrite E in H1, H2. done.
Qed.

Lemma buffer_fields n b :
  (16 + n ≤ length b)%nat →
  b = field 0 4 b ++ field 4 2 b ++ field 6 2 b ++ field 8 4 b ++ field 12 4 b ++ field 16 n b
      ++ drop (16 + n) b.
Proof using Type.
  intros Hl. rewrite <- (take_drop (16 + n) b) at 1.
  rewrite (field_split 16), (field_split 12 4), (field_split 8 4), (field_split 6 2), (field_split 4 2).
  by rewrite <- !app_assoc.
Qed.

(** C40: the decoder accepts exactly the encodings of frames whose fields fit, each followed by
    anything, and reports how many bytes the frame took. *)
Theorem decode_exact b f n :
  Forall is_byte b →
  decode b = Ret (f, n)
  ↔ frame_ok f = true ∧ ∃ e rest, encode f = Ret e ∧ b = e ++ rest ∧ n = blen e.
Proof using digest_length.
  intros Hb. split.
  2: { intros [Hok (e & rest & He & -> & ->)]. rewrite encode_Ret in He by done.
       injection He as <-. by apply decode_layout. }
  unfold decode. destruct (Z.ltb_spec (blen b) HEADER_SIZE) as [|H16]; [done|].
  case_bool_decide as Hmagic; [|done]. cbn [negb].
  destruct (Z.ltb_spec MAX_PAYLOAD_SIZE (le_val (field 8 4 b))) as [|Hmax]; [done|].
  destruct (Z.ltb_spec (blen b) (HEADER_SIZE + le_val (field 8 4 b))) as [|Htot]; [done|].
  case_bool_decide as Hsum; [|done]. cbn [negb]. unfold HEADER_SIZE, blen in H16, Htot.
  destruct (field_value 4 2 b Hb ltac:(lia)) as [Ev Rv].
  destruct (field_value 6 2 b Hb ltac:(lia)) as [Et Rt].
  destruct (field_value 8 4 b Hb ltac:(lia)) as [El Rl].
  set (len := le_val (field 8 4 b)) in *. intros [= <- <-].
  assert (Hpl : blen (field 16 (Z.to_nat len) b) = len)
    by (unfold blen; rewrite length_field; lia).
  assert (Hok : frame_ok (mkFrame (le_val (field 4 2 b)) (le_val (field 6 2 b))
                            (field 16 (Z.to_nat len) b)) = true).
  { unfold frame_ok. cbn [version type payload]. rewrite !andb_true_iff, !u16_range_iff, Z.leb_le.
    rewrite Hpl. split_and!; lia. }
  split; [done|]. eexists _, (drop (16 + Z.to_nat len) b).
  split; [by apply encode_Ret|]. split.
  - unfold layout. cbn [version type payload]. rewrite Hpl, Ev, Et, El, <- Hsum, <- Hmagic.
    rewrite <- !app_assoc. apply buffer_fields. lia.
  - rewrite layout_length. cbn [payload]. by rewrite Hpl.
Qed.

(** A frame that has not fully arrived is answered with a [ShortFrameError], whatever part
    of it is there: a reader can wait for more bytes and never mistakes a cut frame for a
    damaged one. *)
Theorem decode_prefix f e k :
  frame_ok f = true → encode f = Ret e → (k < length e)%nat →
  ∃ need, decode (take k e) = Throw (ShortFrameError (Z.of_nat k) need) ∧ Z.of_nat k < need.
Proof using digest_length.
  intros Hok He Hk. rewrite encode_Ret in He by done. injection He as <-.
  pose proof (layout_length f) as Hlen. unfold blen in Hlen.
  assert (Hbl : blen (take k (layout f)) = Z.of_nat k) by (unfold blen; rewrite length_take; lia).
  unfold decode. rewrite Hbl. destruct (Z.ltb_spec (Z.of_nat k) HEADER_SIZE) as [|H16]; [by eexists|].
  unfold HEADER_SIZE in H16, Hlen.
  assert (Hf : ∀ off n, (off + n ≤ 16)%nat → field off n (take k (layout f)) = field off n (layout f)).
  { intros off n H. unfold field. rewrite <- (take_drop k (layout f)) at 2.
    rewrite drop_app_le by (rewrite length_take; lia).
    by rewrite take_app_le by (rewrite length_drop, length_take; lia). }
  pose proof (layout_fields f []) as L. cbv zeta in L. rewrite app_nil_r in L.
  destruct L as (E0 & _ & _ & E8 & _).
  rewrite !Hf, E0, E8 by lia. rewrite bool_decide_eq_true_2 by done. cbn [negb].
  unfold frame_ok in Hok. rewrite !andb_true_iff, Z.leb_le in Hok. destruct Hok as [_ Hmax].
  pose proof (blen_nonneg (payload f)).
  rewrite le_val_le_bytes_small by (unfold MAX_PAYLOAD_SIZE in *; lia).
  rewrite (proj2 (Z.ltb_ge _ _) Hmax). unfold HEADER_SIZE, blen in *.
  rewrite (proj2 (Z.ltb_lt _ _)) by lia. eexists. split; [reflexivity|lia].
Qed.
End codec.

(** ** Witnesses *)

Definition ping_frame : Frame := mkFrame VERSION_1_0 (msg_code Ping) [1; 2; 3; 255].
Definition cut_sha (m : bytes) : bytes := take 32 (m ++ replicate 32 0).

Lemma length_cut_sha m : length (cut_sha m) = 32%nat.
Proof. unfold cut_sha. rewrite length_take, length_app, length_replicate. lia. Qed.

Lemma decode_exact_witness :
  let b := Magic ++ [0; 1; 3; 0; 4; 0; 0; 0; 1; 2; 3; 255; 1; 2; 3; 255; 7; 7] in
  Forall is_byte b
  ∧ (decode cut_sha b = Ret (ping_frame, 20)
     ↔ frame_ok ping_frame = true ∧ ∃ e rest, encode cut_sha ping_frame = Ret e ∧ b = e ++ rest ∧ 20 = blen e)
  ∧ decode cut_sha b = Ret (ping_frame, 20).
Proof.
  intros b. assert (Hb : Forall is_byte b) by (unfold b, is_byte; repeat constructor; lia).
  split; [exact Hb|]. split; [exact (decode_exact cut_sha length_cut_sha b ping_frame 20 Hb)|].
  by vm_compute.
Defined.

Lemma decode_prefix_witness :
  ∃ e, encode cut_sha ping_frame = Ret e ∧ (17 < length e)%nat
  ∧ ∃ need, decode cut_sha (take 17 e) = Throw (ShortFrameError (Z.of_nat 17) need)
            ∧ Z.of_nat 17 < need.
Proof.
  eexists. split; [by vm_compute|]. split; [vm_compute; lia|].
  apply (decode_prefix cut_sha length_cut_sha ping_frame); [by vm_compute|by vm_compute|vm_compute; lia].
Defined.
