(* ===== verification/Messages.v ===== *)
(** * protocol-types: messages and transcript entries

    [packages/protocol-types/src/messages.ts] and [transcript.ts]: the table of message codes,
    and the shapes of application messages and of transcript entries.  The code has two tables
    of codes, this one and the [MsgType] of wire-ts; they are the same. *)

From S2P Require Import Prelude Bytes Primitives Types Wire.

(** ** messages.ts *)

Definition MESSAGE_TYPE : list (string * Z) :=
  [("VERSION", 0x0001); ("VERACK", 0x0002); ("PING", 0x0003); ("PONG", 0x0004);
   ("GETADDR", 0x0005); ("ADDR", 0x0006);
   ("INV", 0x0100); ("GETDATA", 0x0101); ("OBJECT", 0x0102); ("NOTFOUND", 0x0103);
   ("REJECT", 0x0104);
   ("TABLE_ANNOUNCE", 0x0200); ("SEAT_COMMIT", 0x0201); ("TABLE_START", 0x0202);
   ("ACTION_COMMIT", 0x0203); ("ACTION_REVEAL", 0x0204); ("ROUND_RESULT", 0x0205);
   ("TRANSCRIPT_HASH", 0x0206); ("TABLE_CLOSE", 0x0207); ("TIMEOUT_NOTICE", 0x0208);
   ("C2R_JOIN_TABLE", 0x0300); ("C2R_READY", 0x0301); ("C2R_ACTION", 0x0302);
   ("C2R_COMMITMENT", 0x0303); ("C2R_REVEAL", 0x0304); ("C2R_CARD_REVEAL", 0x0305);
   ("C2R_FOLD", 0x0306); ("C2R_TRANSCRIPT_REQUEST", 0x0307);
   ("R2C_TABLE_STATE", 0x0380); ("R2C_ACTION_ACCEPTED", 0x0381); ("R2C_PEER_ACTION", 0x0382);
   ("R2C_TRANSCRIPT_RESPONSE", 0x0383); ("R2C_ERROR", 0x03FE)].

Definition MessageType (code : Z) : Prop := code ∈ MESSAGE_TYPE.*2.

(** ** transcript.ts *)

Inductive TranscriptEntry : Type :=
  | state_committed (state_hash : Hash256)
  | signed_action (action : SignedAction) (txid : TxId)
  | reveal_proof (proof : RevealProof) (txid : TxId)
  | timeout_activation (state_hash : Hash256) (txid : TxId)
  | settlement (result : SettlementResult) (txid : TxId)
  | recovery (record : RecoveryRecord) (txid : TxId).

Record AuditTranscript := mkAuditTranscript { entries : list TranscriptEntry }.

(** ** Application messages of messages.ts *)

Inductive ClientMessage : Type :=
  | JOIN_TABLE (game_id : Hash256)
  | READY (game_id : Hash256)
  | ACTION (game_id : Hash256) (action : SignedAction)
  | TRANSCRIPT_REQUEST (game_id : Hash256) (from_state : Hash256)
  | PING.

Inductive RelayMessage : Type :=
  | TABLE_STATE (state : RoundState)
  | ACTION_ACCEPTED (action : SignedAction)
  | TIMEOUT_NOTICE (state_hash : Hash256)
  | SETTLEMENT (result : SettlementResult)
  | RECOVERY_ACTIVATED (record : RecoveryRecord)
  | PEER_ACTION (action : SignedAction)
  | TRANSCRIPT_RESPONSE (entries : list TranscriptEntry)
  | ERROR (code : string) (message : string)
  | PONG.

(** ** The two tables agree *)

(** The types of wire-ts in the order of its enum *)
Definition msg_types : list MsgType :=
  [Version; Verack; Ping; Pong; Getaddr; Addr; Inv; Getdata; Object; NotFound; Reject;
   TableAnnounce; SeatCommit; TableStart; ActionCommit; ActionReveal; RoundResult;
   TranscriptHash; TableClose; TimeoutNotice; JoinTable; Ready; Action; Commitment; Reveal;
   CardReveal; Fold; TranscriptRequest; TableState; ActionAccepted; PeerAction;
   TranscriptResponse; ErrorReply].

Lemma msg_types_all t : t ∈ msg_types.
Proof. destruct t; repeat (try (by left); right). Qed.

(** A number is the code of a message for protocol-types exactly when it is that of one type of
    wire-ts, under one name. *)
Lemma message_types_agree code :
  MessageType code ↔ ∃ t, msg_code t = code ∧ ∀ t', msg_code t' = code → t' = t.
Proof.
  unfold MessageType. change (MESSAGE_TYPE.*2) with (msg_code <$> msg_types).
  rewrite list_elem_of_fmap. split.
  - intros (t & -> & _). exists t. split; [done|]. intros t'. by destruct t', t.
  - intros (t & <- & _). exists t. split; [done|]. apply msg_types_all.
Qed.

Lemma message_names_unique : NoDup (MESSAGE_TYPE.*1).
Proof. by apply (bool_decide_unpack _). Qed.
