(* ===== verification/Ordering.v ===== *)
(** * state-engine: which of two conflicting transactions wins

    [packages/state-engine/src/ordering.ts], with the order it decides by: confirmation,
    then the quorum, then the transaction id. *)

From S2P Require Import Prelude Bytes Primitives.

(** [s < t] on strings compares UTF-16 code units. *)
Definition js_str_lt (s t : string) : bool := negb (units_leb (js_units t) (js_units s)).

Record CandidateSnapshot := mkSnapshot {
  txid : TxId;
  observed_by_quorum : bool;
  confirmed_in_block : bool
}.

Definition pickConflictWinner (a b : CandidateSnapshot) : CandidateSnapshot :=
  if negb (Bool.eqb (confirmed_in_block a) (confirmed_in_block b))
  then (if confirmed_in_block a then a else b)
  else if negb (Bool.eqb (observed_by_quorum a) (observed_by_quorum b))
  then (if observed_by_quorum a then a else b)
  else if js_str_lt (txid a) (txid b) then a else b.

(** ** The order *)

(** [a] wins against [b], or nothing tells them apart. *)
Definition beats (a b : CandidateSnapshot) : Prop :=
  if negb (Bool.eqb (confirmed_in_block a) (confirmed_in_block b)) then confirmed_in_block a = true
  else if negb (Bool.eqb (observed_by_quorum a) (observed_by_quorum b))
  then observed_by_quorum a = true
  else js_str_le (txid a) (txid b).

#[export] Instance beats_total : Total beats.
Proof.
  intros [s [] []] [t [] []]; unfold beats; cbn; auto; apply (total js_str_le).
Qed.

#[export] Instance beats_refl : Reflexive beats.
Proof. intros a. by destruct (total beats a a). Qed.

#[export] Instance beats_trans : Transitive beats.
Proof.
  intros [s [] []] [t [] []] [u [] []]; unfold beats; cbn; try done; apply (transitivity (R:=js_str_le)).
Qed.

(** Two candidates that beat each other have the same id and the same standing. *)
Lemma beats_antisym a b :
  js_string_ok (txid a) = true → js_string_ok (txid b) = true →
  beats a b → beats b a → a = b.
Proof.
  destruct a as [s [] []], b as [t [] []]; unfold beats; cbn; intros Hs Ht H1 H2; try done;
    assert (s = t) as -> by (apply js_units_inj; [done..|by apply units_leb_antisym]); done.
Qed.

Lemma pick_cases a b :
  (pickConflictWinner a b = a ∧ beats a b) ∨ (pickConflictWinner a b = b ∧ beats b a).
Proof.
  assert (H : ∀ s t, (js_str_lt s t = true ∧ js_str_le s t) ∨ (js_str_lt s t = false ∧ js_str_le t s)).
  { intros s t. unfold js_str_lt, js_str_le.
    destruct (units_leb (js_units t) (js_units s)) eqn:E; [by right|left]. split; [done|].
    by destruct (units_leb_total (js_units s) (js_units t)) as [|E']; [|rewrite E' in E]. }
  destruct a as [s [] []], b as [t [] []]; unfold pickConflictWinner, beats; cbn; auto;
    destruct (H s t) as [[-> ?]|[-> ?]]; auto.
Qed.

(** ** Reducing a list of candidates with the rule *)

Definition pick_all (w : CandidateSnapshot) (l : list CandidateSnapshot) : CandidateSnapshot :=
  foldl pickConflictWinner w l.

Lemma pick_all_spec w l :
  pick_all w l ∈ w :: l ∧ ∀ c, c ∈ w :: l → beats (pick_all w l) c.
Proof.
  revert w. induction l as [|c l IH]; intros w; cbn [pick_all foldl].
  - split; [by left|]. intros c [->|[]%elem_of_nil]%elem_of_cons. reflexivity.
  - destruct (IH (pickConflictWinner w c)) as [Hin Hb]. fold (pick_all (pickConflictWinner w c) l).
    pose proof (Hb _ ltac:(by left)) as H0.
    destruct (pick_cases w c) as [[E Hwc]|[E Hwc]]; rewrite E in *; split.
    + apply elem_of_cons in Hin as [->|]; [by left|by do 2 right].
    + intros d [->|[->|Hd]%elem_of_cons]%elem_of_cons; [done|by etrans|]. apply Hb. by right.
    + right. by apply elem_of_cons in Hin as [->|]; [left|right].
    + intros d [->|[->|Hd]%elem_of_cons]%elem_of_cons; [by etrans|done|]. apply Hb. by right.
Qed.
