(* ===== verification/TxSim.v ===== *)
(** * tx-simulator: double spends and eviction

    [tools/tx-simulator/src/simulate.ts]: competing transactions for one state output, the
    deterministic choice among them, and a mempool that silently loses transactions. *)

From stdpp Require Import gmap.
From S2P Require Import Prelude Bytes Primitives Tx TxProps Ordering.

Section simulator.
Context (sha256 : bytes → bytes).

(** A pair that is not a number is stored as 0. *)
Definition hexToBytes (hex : string) : js bytes :=
  let clean := match hex with String "0" (String "x" r) => r | _ => hex end in
  if negb (js_length clean mod 2 =? 0) then Throw ("hexToBytes: odd-length hex: " +:+ hex)
  else hex_pairs (λ _, Ret 0) 0 (js_units clean).

Record BetCandidateSpec := mkBetCandidateSpec {
  spec_candidateId : string;
  prevTxidHex : string;
  spec_prevVout : Z;
  betValueSats : Z;
  lockingScriptHex : option string;
  observedByQuorum : option bool;
  confirmedInBlock : option bool
}.

Record BuiltCandidate := mkBuiltCandidate {
  candidateId : string;
  candidate_txidHex : string;
  candidate_tx : BsvTransaction;
  snapshot : CandidateSnapshot
}.

(** An empty string is falsy. *)
Definition buildBetCandidate (spec : BetCandidateSpec) : js BuiltCandidate :=
  lockingScript ← match lockingScriptHex spec with
                  | Some (String _ _ as hex) => hexToBytes hex
                  | _ => Ret [0x51]
                  end;
  prev ← hexToBytes (prevTxidHex spec);
  let tx := mkBsvTransaction 1 [mkTxInput prev (spec_prevVout spec) [] 0xffffffff]
              [mkTxOutput (betValueSats spec) lockingScript] 0 in
  display ← txidHex sha256 tx;
  id ← asTxId display;
  Ret (mkBuiltCandidate (spec_candidateId spec) display tx
         (mkSnapshot id (default false (observedByQuorum spec))
                     (default false (confirmedInBlock spec)))).

(** [candidates.find((c) => c.snapshot.txid === id)] *)
Definition find_candidate (id : TxId) (l : list BuiltCandidate) : option BuiltCandidate :=
  snd <$> list_find (λ c, txid (snapshot c) = id) l.

Definition resolveConflict (candidates : list BuiltCandidate) : js BuiltCandidate :=
  match candidates with
  | [] => Throw "resolveConflict: no candidates"
  | c :: l =>
    let winnerSnap := pick_all (snapshot c) (snapshot <$> l) in
    match find_candidate (txid winnerSnap) candidates with
    | Some w => Ret w
    | None => Throw "resolveConflict: winner not found (unreachable)"
    end
  end.

Definition txidLess (a b : BuiltCandidate) : bool :=
  js_str_lt (txid (snapshot a)) (txid (snapshot b)).

(** ** The mempool *)

Definition Mempool : Type := gmap string BsvTransaction.

Definition mp_add (c : BuiltCandidate) (mp : Mempool) : Mempool :=
  <[candidate_txidHex c := candidate_tx c]> mp.
Definition mp_has (id : string) (mp : Mempool) : bool := bool_decide (is_Some (mp !! id)).
Definition mp_evict (id : string) (mp : Mempool) : bool * Mempool := (mp_has id mp, delete id mp).
Definition mp_list (mp : Mempool) : list string := js_sort (map_to_list mp).*1.
Definition mp_size (mp : Mempool) : nat := map_size mp.

Record RebroadcastResult := mkRebroadcastResult { wasEvicted : bool; rebroadcast : bool }.

Definition rebroadcastIfEvicted (mp : Mempool) (c : BuiltCandidate) : RebroadcastResult * Mempool :=
  if mp_has (candidate_txidHex c) mp then (mkRebroadcastResult false false, mp)
  else (mkRebroadcastResult true true, mp_add c mp).

Definition txSizeBytes (c : BuiltCandidate) : js Z :=
  b ← encodeBsvTransaction (candidate_tx c); Ret (blen b).

Definition internalTxid (c : BuiltCandidate) : js bytes := computeTxId sha256 (candidate_tx c).
End simulator.

(** ** Transaction ids *)

Section ids.
Context (sha256 : bytes → bytes).
Context (digest_length : ∀ m, length (sha256 m) = 32%nat)
        (digest_bytes : ∀ m, Forall is_byte (sha256 m)).

(** The displayed bytes are the digest's, reversed. *)
Lemma displayed_reverse d :
  length d = 32%nat → Forall is_byte d →
  (λ i, u8 (default 0 (d !! (31 - i)%nat))) <$> seq 0 32 = reverse d.
Proof using Type.
  intros Hd Hb. apply list_eq. intros i.
  destruct (Nat.lt_ge_cases i 32) as [Hi|Hi].
  - rewrite list_lookup_fmap, lookup_seq_lt by done. cbn [fmap option_fmap option_map Nat.add].
    rewrite reverse_lookup by lia. rewrite Hd.
    replace (32 - S i)%nat with (31 - i)%nat by lia.
    destruct (lookup_lt_is_Some_2 d (31 - i)%nat) as [x Hx]; [lia|]. rewrite Hx. cbn [default from_option].
    eapply Forall_lookup_1 in Hb; [|exact Hx]. unfold u8, id. by rewrite Z.mod_small.
  - rewrite !lookup_ge_None_2; [done|rewrite length_reverse; lia|].
    rewrite length_fmap, length_seq. lia.
Qed.

Lemma txidHex_Ret tx b :
  encodeBsvTransaction tx = Ret b →
  txidHex sha256 tx = Ret (to_hex (reverse (sha256 (sha256 b)))).
Proof using digest_length digest_bytes.
  intros E. unfold txidHex, computeTxId. rewrite E. cbn [mbind js_bind]. f_equal. f_equal.
  by apply displayed_reverse.
Qed.

Lemma txid_hex_ok b : is_hex_n 64 (to_hex (reverse (sha256 (sha256 b)))) = true.
Proof using digest_length digest_bytes.
  apply (is_hex_n_of_bytes 32); [by apply Forall_reverse|by rewrite length_reverse].
Qed.

(** What a built candidate looks like *)
Lemma buildBetCandidate_Ret spec c :
  buildBetCandidate sha256 spec = Ret c →
  ∃ b, encodeBsvTransaction (candidate_tx c) = Ret b
    ∧ candidate_txidHex c = to_hex (reverse (sha256 (sha256 b)))
    ∧ txid (snapshot c) = candidate_txidHex c
    ∧ is_hex_n 64 (txid (snapshot c)) = true.
Proof using digest_length digest_bytes.
  unfold buildBetCandidate. intros (ls & _ & H)%js_bind_Ret.
  apply js_bind_Ret in H as (prev & _ & H). cbv zeta in H.
  set (tx := mkBsvTransaction _ _ _ _) in H.
  apply js_bind_Ret in H as (d & Hd & H). apply js_bind_Ret in H as (id & Hid & [= <-]).
  cbn [candidate_tx candidate_txidHex snapshot txid].
  destruct (encodeBsvTransaction tx) as [b| |] eqn:E;
    [|unfold txidHex, computeTxId in Hd; rewrite E in Hd; done..].
  rewrite (txidHex_Ret _ _ E) in Hd. injection Hd as <-. unfold asTxId in Hid.
  rewrite txid_hex_ok in Hid. injection Hid as <-. exists b.
  split_and!; [done..|apply txid_hex_ok].
Qed.
End ids.

Lemma is_hex_n_ok n s : is_hex_n (2 * n) s = true → js_string_ok s = true.
Proof.
  intros (bs & -> & _ & H)%is_hex_n_to_hex. unfold js_string_ok.
  induction H as [|b bs Hb _ IH]; [done|]. cbn [to_hex].
  assert (Hx : match string_bytes (hex_byte b) with
               | [x; y] => between 0 0x7F x && between 0 0x7F y | _ => false end = true).
  { revert b Hb. apply (byte_forall (λ b, match string_bytes (hex_byte b) with
      | [x; y] => between 0 0x7F x && between 0 0x7F y | _ => false end)). by vm_compute. }
  unfold hex_byte in *. generalize dependent (hex_digit_char (b mod 16)).
  generalize dependent (hex_digit_char (b / 16)). intros x y. cbn [string_bytes].
  intros [H1 H2]%andb_true_iff.
  change (String x (String y EmptyString) +:+ to_hex bs) with (String x (String y (to_hex bs))).
  cbn [string_bytes utf8_valid]. by rewrite H1, H2.
Qed.

(** ** The choice *)

Lemma find_candidate_spec id l :
  id ∈ (txid ∘ snapshot <$> l) → ∃ w, find_candidate id l = Some w ∧ w ∈ l ∧ txid (snapshot w) = id.
Proof.
  intros (c & -> & Hc)%list_elem_of_fmap. unfold find_candidate.
  destruct (list_find _ l) as [[i w]|] eqn:E.
  2: { apply list_find_None in E. rewrite list.Forall_forall in E. by destruct (E c Hc). }
  apply list_find_Some in E as (Hi & Hw & _). exists w. split_and!; [done| |done].
  by eapply list_elem_of_lookup_2.
Qed.

Lemma same_txid_same l a b :
  NoDup (txid ∘ snapshot <$> l) → a ∈ l → b ∈ l → txid (snapshot a) = txid (snapshot b) → a = b.
Proof.
  intros Hnd [i Hi]%list_elem_of_lookup [j Hj]%list_elem_of_lookup E.
  assert (i = j) as ->; [|congruence].
  eapply (NoDup_lookup _ i j (txid (snapshot a))); [exact Hnd| |].
  - by rewrite list_lookup_fmap, Hi.
  - rewrite list_lookup_fmap, Hj. cbn. by rewrite E.
Qed.

(** With different ids the choice is the candidate that beats all others. *)
Lemma resolveConflict_best l :
  l ≠ [] → NoDup (txid ∘ snapshot <$> l) →
  ∃ w, resolveConflict l = Ret w ∧ w ∈ l ∧ ∀ c, c ∈ l → beats (snapshot w) (snapshot c).
Proof.
  destruct l as [|c l]; [done|]. intros _ Hnd. unfold resolveConflict.
  destruct (pick_all_spec (snapshot c) (snapshot <$> l)) as [Hin Hb].
  set (s := pick_all _ _) in *. change (snapshot c :: (snapshot <$> l)) with (snapshot <$> c :: l) in *.
  apply list_elem_of_fmap in Hin as (w & Es & Hw).
  destruct (find_candidate_spec (txid s) (c :: l)) as (w' & -> & Hw' & E').
  { apply list_elem_of_fmap. exists w. split; [by rewrite Es|done]. }
  assert (w' = w) as -> by (eapply same_txid_same; eauto; by rewrite E', Es).
  exists w. split_and!; [done..|]. intros d Hd. rewrite <- Es. apply Hb.
  by apply list_elem_of_fmap_2.
Qed.

Section conflict.
Context (sha256 : bytes → bytes).
Context (digest_length : ∀ m, length (sha256 m) = 32%nat)
        (digest_bytes : ∀ m, Forall is_byte (sha256 m)).

(** Two candidates whose transactions differ and whose ids do not *)
Definition same_id (a b : BuiltCandidate) : Prop :=
  ∃ x y, encodeBsvTransaction (candidate_tx a) = Ret x
    ∧ encodeBsvTransaction (candidate_tx b) = Ret y
    ∧ collides (doubleSha256 sha256) x y.

Lemma built_txids_distinct specs cs :
  Forall2 (λ s c, buildBetCandidate sha256 s = Ret c) specs cs →
  Forall (λ c, tx_ok (candidate_tx c) = true) cs → NoDup (candidate_tx <$> cs) →
  NoDup (txid ∘ snapshot <$> cs) ∨ ∃ a b, a ∈ cs ∧ b ∈ cs ∧ same_id a b.
Proof using digest_length digest_bytes.
  induction 1 as [|s c specs cs Hc Hr IH]; cbn [fmap list_fmap].
  { left. constructor. }
  intros [Hok Hoks]%list.Forall_cons [Hn Hnd]%list.NoDup_cons.
  destruct (IH Hoks Hnd) as [IHd|(a & b & Ha & Hb & Hab)].
  2: { right. exists a, b. split_and!; [by right..|done]. }
  destruct (decide (txid (snapshot c) ∈ (txid ∘ snapshot <$> cs))) as [Hin|Hnin];
    [|left; by constructor]. right.
  apply list_elem_of_fmap in Hin as (c' & Eid & Hc'). exists c, c'.
  split_and!; [by left|by right|].
  apply list_elem_of_lookup in Hc' as Hl. destruct Hl as [i Hi].
  destruct (Forall2_lookup_r _ _ _ _ _ Hr Hi) as (s' & _ & Hs').
  destruct (buildBetCandidate_Ret sha256 digest_length digest_bytes s c Hc)
    as (x & Ex & Ix & Tx & _).
  destruct (buildBetCandidate_Ret sha256 digest_length digest_bytes s' c' Hs')
    as (y & Ey & Iy & Ty & _).
  exists x, y. split_and!; [done..|]. split.
  - intros ->. apply Hn. apply list_elem_of_fmap. exists c'. split; [|done].
    eapply encode_inj; [done| |done|done]. by eapply Forall_lookup_1 in Hoks.
  - rewrite Tx, Ix in Eid. cbn in Eid. rewrite Ty, Iy in Eid.
    apply to_hex_inj in Eid; [|by apply Forall_reverse..]. by apply (inj reverse) in Eid.
Qed.

(** Double spends.  Any number of candidates, built for different transactions, has one
    winner: it beats every other candidate by confirmation, then by the quorum, then by its id,
    and it does not depend on the order the candidates arrive in.  Otherwise two of the
    transactions have colliding ids. *)
Theorem double_spend_resolved specs cs :
  Forall2 (λ s c, buildBetCandidate sha256 s = Ret c) specs cs →
  Forall (λ c, tx_ok (candidate_tx c) = true) cs → NoDup (candidate_tx <$> cs) → cs ≠ [] →
  (∃ w, w ∈ cs ∧ (∀ c, c ∈ cs → beats (snapshot w) (snapshot c))
    ∧ ∀ cs', cs ≡ₚ cs' → resolveConflict cs' = Ret w)
  ∨ ∃ a b, a ∈ cs ∧ b ∈ cs ∧ same_id a b.
Proof using digest_length digest_bytes.
  intros Hb Hok Hnd Hne.
  destruct (built_txids_distinct specs cs Hb Hok Hnd) as [Hd|]; [left|by right].
  destruct (resolveConflict_best cs Hne Hd) as (w & _ & Hw & Hbest).
  exists w. split_and!; [done..|]. intros cs' Hp.
  destruct (resolveConflict_best cs') as (w' & E & Hw' & Hbest').
  { intros ->. by apply Permutation_nil_r in Hp. }
  { by rewrite <- Hp. }
  assert (Hs : ∀ c, c ∈ cs → js_string_ok (txid (snapshot c)) = true).
  { intros c [i Hi]%list_elem_of_lookup.
    destruct (Forall2_lookup_r _ _ _ _ _ Hb Hi) as (s & _ & Hs).
    destruct (buildBetCandidate_Ret sha256 digest_length digest_bytes s c Hs) as (_ & _ & _ & _ & H).
    by apply (is_hex_n_ok 32). }
  rewrite <- Hp in Hw'. rewrite E. f_equal.
  eapply same_txid_same; [exact Hd|done..|]. f_equal.
  apply beats_antisym; [by apply Hs..| |by apply Hbest]. apply Hbest'. by rewrite <- Hp.
Qed.
End conflict.

Lemma mp_add_eq c mp : mp_add c mp !! candidate_txidHex c = Some (candidate_tx c).
Proof. exact (lookup_insert_eq (M:=gmap string) mp _ _). Qed.

Lemma mp_add_ne c mp id : id ≠ candidate_txidHex c → mp_add c mp !! id = mp !! id.
Proof. intros H. exact (lookup_insert_ne (M:=gmap string) mp _ _ _ (not_eq_sym H)). Qed.

(** Eviction.  Rebroadcasting reports whether the transaction was gone, leaves it in the
    mempool in any case, keeps all others, and does nothing the second time. *)
Theorem rebroadcast_recovers mp c :
  let '(r, mp') := rebroadcastIfEvicted mp c in
  wasEvicted r = negb (mp_has (candidate_txidHex c) mp) ∧ rebroadcast r = wasEvicted r
  ∧ mp_has (candidate_txidHex c) mp' = true
  ∧ (∀ id, id ≠ candidate_txidHex c → mp' !! id = mp !! id)
  ∧ rebroadcastIfEvicted mp' c = (mkRebroadcastResult false false, mp')
  ∧ (∀ id, id ∈ mp_list mp' ↔ id = candidate_txidHex c ∨ id ∈ mp_list mp).
Proof.
  assert (Hl : ∀ m id, id ∈ mp_list m ↔ mp_has id m = true).
  { intros m id. unfold mp_list, js_sort, mp_has. rewrite merge_sort_Permutation, bool_decide_eq_true.
    rewrite list_elem_of_fmap. split.
    - intros ([k v] & -> & H%elem_of_map_to_list). by eexists.
    - intros [v H]. exists (id, v). split; [done|]. by apply elem_of_map_to_list. }
  unfold rebroadcastIfEvicted. destruct (mp_has (candidate_txidHex c) mp) eqn:E.
  - rewrite E. split_and!; try done. intros id. rewrite !Hl. naive_solver.
  - assert (Ha : mp_has (candidate_txidHex c) (mp_add c mp) = true).
    { unfold mp_has. rewrite mp_add_eq. by apply bool_decide_eq_true. }
    rewrite Ha. split_and!; try done.
    + intros id Hid. by apply mp_add_ne.
    + intros id. rewrite !Hl. unfold mp_has. rewrite !bool_decide_eq_true.
      destruct (decide (id = candidate_txidHex c)) as [->|Hne].
      * rewrite mp_add_eq. naive_solver.
      * rewrite mp_add_ne by done. naive_solver.
Qed.

(** ** Two bets on one state *)

Definition toy_sha (m : bytes) : bytes := u8 <$> take 32 (reverse m ++ replicate 32 0).

Lemma length_toy_sha m : length (toy_sha m) = 32%nat.
Proof.
  unfold toy_sha. rewrite length_fmap, length_take, length_app, length_replicate. lia.
Qed.

Lemma toy_sha_bytes m : Forall is_byte (toy_sha m).
Proof. apply list.Forall_fmap, Forall_true. intros x. apply Z.mod_pos_bound. lia. Qed.

Definition bet_spec (name : string) (v : Z) (quorum : bool) : BetCandidateSpec :=
  mkBetCandidateSpec name (to_hex (replicate 32 0xab)) 0 v None (Some quorum) None.

Definition two_specs : list BetCandidateSpec := [bet_spec "A" 10 false; bet_spec "B" 20 true].

Definition built (s : BetCandidateSpec) : BuiltCandidate :=
  match buildBetCandidate toy_sha s with
  | Ret c => c
  | _ => mkBuiltCandidate "" "" (mkBsvTransaction 0 [] [] 0) (mkSnapshot "" false false)
  end.

Lemma double_spend_witness :
  let cs := built <$> two_specs in
  Forall2 (λ s c, buildBetCandidate toy_sha s = Ret c) two_specs cs
  ∧ resolveConflict cs = Ret (built (bet_spec "B" 20 true))
  ∧ ((∃ w, w ∈ cs ∧ (∀ c, c ∈ cs → beats (snapshot w) (snapshot c))
      ∧ ∀ cs', cs ≡ₚ cs' → resolveConflict cs' = Ret w)
     ∨ ∃ a b, a ∈ cs ∧ b ∈ cs ∧ same_id toy_sha a b).
Proof.
  intros cs.
  assert (H : Forall2 (λ s c, buildBetCandidate toy_sha s = Ret c) two_specs cs).
  { constructor; [by vm_compute|]. constructor; [by vm_compute|constructor]. }
  split; [exact H|]. split; [by vm_compute|].
  apply (double_spend_resolved toy_sha length_toy_sha toy_sha_bytes two_specs cs H).
  - constructor; [by vm_compute|]. constructor; [by vm_compute|constructor].
  - apply list.NoDup_cons. split; [|apply list.NoDup_cons; split; [|constructor]].
    + intros [E|[]%elem_of_nil]%elem_of_cons. vm_compute in E. discriminate.
    + by intros ?%elem_of_nil.
  - done.
Defined.
