(* ===== verification/Fallback.v ===== *)
(** * state-engine: the pre-signed fallback branches and their transactions

    [packages/state-engine/src]: [fallback.ts] names the branches of a state,
    [fallback-build.ts] gives them locking scripts through the script templates, and
    [tx-orchestrator.ts] turns them into unsigned transactions. *)

From S2P Require Import Prelude Bytes Primitives Types Script Tx.

(** ** fallback.ts *)

Inductive FallbackKind : Type := cooperative | timeout | recovery.

#[export] Instance FallbackKind_eq_dec : EqDecision FallbackKind.
Proof. solve_decision. Defined.

Definition kind_string (k : FallbackKind) : string :=
  match k with
  | cooperative => "cooperative"
  | timeout => "timeout"
  | recovery => "recovery"
  end.

(** The lock time of a named branch (the script templates have a type of their own) *)
Inductive FallbackLockTime : Type :=
  | fb_immediate
  | fb_relative_blocks (blocks : Z)
  | fb_absolute_height (height : BlockHeight).

Record FallbackBranch := mkFallbackBranch {
  kind : FallbackKind;
  source_state_class : StateClass;
  fb_action_type : ActionType;
  lock_time_spec : FallbackLockTime;
  note : string
}.

Definition cooperativeFor (sc : StateClass) : option ActionType :=
  match sc with
  | S1_SEAT_OPEN => Some Join
  | S2_TABLE_LOCKED | S3_ENTROPY_COMMIT_WINDOW => Some EntropyCommit
  | S4_ENTROPY_REVEAL_WINDOW => Some EntropyReveal
  | S5_DECK_COMMITTED | S6_CARD_REVEAL_FIRST | S9_CARD_REVEAL_THIRD => Some CardReveal
  | S7_CARD_REVEAL_SECOND | S8_BET_DECISION => Some BetAction
  | S10_SETTLED_ROUND => Some Settle
  | S11_ROTATE_TURN => Some RotateTurn
  | S12_TABLE_CLOSE => Some TableClose
  | _ => None
  end.

Definition timeoutDefaultFor (sc : StateClass) : option ActionType :=
  match sc with
  | S3_ENTROPY_COMMIT_WINDOW | S4_ENTROPY_REVEAL_WINDOW => Some Timeout
  | S7_CARD_REVEAL_SECOND | S8_BET_DECISION | S9_CARD_REVEAL_THIRD => Some Timeout
  | _ => None
  end.

Definition enumerateFallbackGraph (state : RoundState) (ruleSet : RuleSet) : list FallbackBranch :=
  let sc := state_class state in
  match cooperativeFor sc with
  | Some a =>
    [mkFallbackBranch cooperative sc a fb_immediate
       "happy path; signed at session start by the acting player or relevant quorum"]
  | None => []
  end
  ++ match timeoutDefaultFor sc with
     | Some a =>
       [mkFallbackBranch timeout sc a (fb_relative_blocks (decision_timeout_blocks ruleSet))
          ("timeout default after decision_timeout_blocks="
           +:+ pretty (decision_timeout_blocks ruleSet) +:+ " blocks")]
     | None => []
     end
  ++ match recovery_deadline_block_height state with
     | Some h =>
       [mkFallbackBranch recovery sc Recovery (fb_absolute_height h)
          "global recovery; signed by every seated player at session start"]
     | None => []
     end.

(** ** fallback-build.ts *)

Record BuildContext := mkBuildContext {
  bc_decision_timeout_blocks : Z;
  bc_recovery_height : BlockHeight;
  timeout_authorisers : list Pubkey33;
  timeout_template_hash : Hash256;
  recovery_signer : Pubkey33
}.

Record BuiltFallbackBranch := mkBuiltFallbackBranch {
  bf_branch : FallbackBranch;
  bf_locking_script : option bytes;
  bf_locktime : option LockTimeSpec
}.

Definition timeout_params (ctx : BuildContext) : TimeoutBranchParams :=
  mkTimeoutBranchParams (bc_decision_timeout_blocks ctx) (timeout_template_hash ctx)
    (timeout_authorisers ctx).

Definition recovery_params (ctx : BuildContext) : RecoveryBranchParams :=
  mkRecoveryBranchParams (bc_recovery_height ctx) (recovery_signer ctx).

Definition materialise_one (ctx : BuildContext) (b : FallbackBranch) : js BuiltFallbackBranch :=
  match kind b with
  | timeout =>
    built ← buildTimeoutBranch (timeout_params ctx);
    Ret (mkBuiltFallbackBranch b (Some (bb_locking_script built)) (Some (bb_locktime built)))
  | recovery =>
    built ← buildRecoveryBranchTemplate (recovery_params ctx);
    Ret (mkBuiltFallbackBranch b (Some (bb_locking_script built)) (Some (bb_locktime built)))
  | cooperative => Ret (mkBuiltFallbackBranch b None None)
  end.

Fixpoint materialiseFallbackGraph (branches : list FallbackBranch) (ctx : BuildContext)
  : js (list BuiltFallbackBranch) :=
  match branches with
  | [] => Ret []
  | b :: bs => x ← materialise_one ctx b; xs ← materialiseFallbackGraph bs ctx; Ret (x :: xs)
  end.

(** ** tx-orchestrator.ts *)

Record PrevOutpoint := mkPrevOutpoint {
  po_prevTxid : bytes;
  po_prevVout : Z;
  prevValue : Z
}.

Record SuccessorOutput := mkSuccessorOutput { so_value : Z; so_lockingScript : bytes }.

Definition TX_VERSION : Z := 2.
Definition SEQUENCE_FINAL : Z := 0xffffffff.

(** The blocks of a relative lock time are an integer: [relativeBlocks] refuses any other
    number. *)
Definition nSequenceForBlocks (blocks : Z) : js Z :=
  if (blocks <? 0) || (0xffff <? blocks)
  then Throw ("nSequenceForBlocks: out of [0, 65535]: " +:+ pretty blocks)
  else Ret (js_and blocks 0x0000ffff).

(** The transaction all three builders return *)
Definition one_to_one (prev : PrevOutpoint) (successor : SuccessorOutput) (sequence lockTime : Z)
  : BsvTransaction :=
  mkBsvTransaction TX_VERSION
    [mkTxInput (po_prevTxid prev) (po_prevVout prev) [] sequence]
    [mkTxOutput (so_value successor) (so_lockingScript successor)] lockTime.

Definition buildCooperativeTx (prev : PrevOutpoint) (successor : SuccessorOutput)
  : BsvTransaction := one_to_one prev successor SEQUENCE_FINAL 0.

Definition buildTimeoutTx (b : BuiltFallbackBranch) (prev : PrevOutpoint)
    (successor : SuccessorOutput) : js BsvTransaction :=
  if negb (bool_decide (kind (bf_branch b) = timeout))
  then Throw ("buildTimeoutTx: expected branch kind 'timeout', got '"
              +:+ kind_string (kind (bf_branch b)) +:+ "'")
  else match bf_locktime b with
  | Some (relative_blocks blocks) =>
    sequence ← nSequenceForBlocks blocks; Ret (one_to_one prev successor sequence 0)
  | _ => Throw "buildTimeoutTx: branch.locktime must be relative_blocks"
  end.

Definition buildRecoveryTx (b : BuiltFallbackBranch) (prev : PrevOutpoint)
    (successor : SuccessorOutput) : js BsvTransaction :=
  if negb (bool_decide (kind (bf_branch b) = recovery))
  then Throw ("buildRecoveryTx: expected branch kind 'recovery', got '"
              +:+ kind_string (kind (bf_branch b)) +:+ "'")
  else match bf_locktime b with
  | Some (absolute_height height _) =>
    if 500000000 <=? height
    then Throw ("buildRecoveryTx: height " +:+ pretty height
                +:+ " would be interpreted as a Unix timestamp by consensus")
    else Ret (one_to_one prev successor (SEQUENCE_FINAL - 1) height)
  | _ => Throw "buildRecoveryTx: branch.locktime must be absolute_height"
  end.
