(* ===== verification/FallbackProps.v ===== *)
(** * The fallback branches: what they are, when their transactions can be mined, who unlocks
    them *)

From S2P Require Import Prelude Bytes Primitives Types Engine EngineSpec EngineSafety EngineExamples Script ScriptSpec ScriptProps Tx TxProps Fallback.

(** ** When a transaction can be mined

    The rules the comments of tx-orchestrator.ts appeal to: a lock time below 500,000,000 is a
    height that the block must exceed unless all sequences are final (nLockTime), and a
    sequence without its bit 31 of a version 2 transaction delays it by its low 16 bits in
    blocks, or with bit 22 in time units, counted from the block [conf] the input was
    confirmed in (BIP-68). *)

Definition locktime_passed (tx : BsvTransaction) (h : Z) : bool :=
  (lockTime tx =? 0) || ((lockTime tx <? 500000000) && (lockTime tx <? h))
  || forallb (λ i, sequence i =? SEQUENCE_FINAL) (inputs tx).

Definition sequence_passed (tx : BsvTransaction) (conf h : Z) : bool :=
  forallb (λ i, (Tx.version tx <? 2) || Z.testbit (sequence i) 31
                || (negb (Z.testbit (sequence i) 22)
                    && (conf + Z.land (sequence i) 0xffff <=? h))) (inputs tx).

Definition minable (tx : BsvTransaction) (conf h : Z) : bool :=
  locktime_passed tx h && sequence_passed tx conf h.

(** ** Inputs that fit *)

Definition prev_ok (p : PrevOutpoint) : bool :=
  (blen (po_prevTxid p) =? 32) && u32_range (po_prevVout p).

Definition successor_ok (o : SuccessorOutput) : bool :=
  u64_range (so_value o) && length_ok (blen (so_lockingScript o)).

Lemma one_to_one_ok prev succ sequence lt :
  prev_ok prev = true → successor_ok succ = true →
  u32_range sequence = true → u32_range lt = true → tx_ok (one_to_one prev succ sequence lt) = true.
Proof.
  unfold prev_ok, successor_ok, one_to_one, tx_ok, input_ok, output_ok.
  cbn [Tx.version lockTime inputs outputs forallb prevTxid prevVout Tx.sequence unlockingScript
       Tx.value lockingScript length].
  rewrite !andb_true_iff. intros [-> ->] [-> ->] -> ->. done.
Qed.

Lemma nSequence_small b :
  0 ≤ b ≤ 0xffff →
  nSequenceForBlocks b = Ret b ∧ u32_range b = true ∧ Z.testbit b 31 = false
  ∧ Z.testbit b 22 = false ∧ Z.land b 0xffff = b.
Proof.
  intros H. assert (Hland : Z.land b 0xffff = b).
  { change 0xffff with (Z.ones 16). rewrite Z.land_ones by lia. apply Z.mod_small. lia. }
  unfold nSequenceForBlocks. rewrite (proj2 (Z.ltb_ge b 0)), (proj2 (Z.ltb_ge 0xffff b)) by lia.
  cbn [orb]. unfold js_and, to_int32. rewrite !Z.mod_small by lia.
  rewrite !(proj2 (Z.ltb_lt _ (2 ^ 31))) by lia. rewrite Hland. split_and!; [done| | | |done].
  - apply u32_range_iff. lia.
  - rewrite Z.testbit_eqb, Z.div_small by lia. done.
  - rewrite Z.testbit_eqb, Z.div_small by lia. done.
Qed.

(** C34: bounds of the orchestrator.  A timeout transaction is built exactly for a timeout
    branch with a relative lock time of 0 to 65,535 blocks, and its sequence is that number; a
    recovery transaction exactly for a recovery branch with a height below 500,000,000, which
    is its lock time.  Everything else is an exception, so no lock time is truncated or read as
    a time. *)
Theorem orchestrator_bounds b prev succ tx :
  (buildTimeoutTx b prev succ = Ret tx
   ↔ ∃ n, kind (bf_branch b) = timeout ∧ bf_locktime b = Some (relative_blocks n)
          ∧ 0 ≤ n ≤ 0xffff ∧ tx = one_to_one prev succ n 0)
  ∧ (buildRecoveryTx b prev succ = Ret tx
     ↔ ∃ h q, kind (bf_branch b) = recovery ∧ bf_locktime b = Some (absolute_height h q)
              ∧ h < 500000000 ∧ tx = one_to_one prev succ (SEQUENCE_FINAL - 1) h).
Proof.
  split.
  - unfold buildTimeoutTx. case_bool_decide as Hk; cbn [negb].
    2: { split; [done|]. by intros (n & Hk' & _). }
    destruct (bf_locktime b) as [[|h q|n]|];
      [by split; [|intros (? & _ & [=] & _)]..| |by split; [|intros (? & _ & [=] & _)]].
    split.
    + intros (q & Hq & [= <-])%js_bind_Ret. exists n.
      unfold nSequenceForBlocks in Hq. destruct (Z.ltb_spec n 0); [done|].
      destruct (Z.ltb_spec 0xffff n); [done|].
      destruct (nSequence_small n ltac:(lia)) as (E & _). unfold nSequenceForBlocks in E.
      rewrite !(proj2 (Z.ltb_ge _ _)) in E by lia. split_and!; [done..|lia|lia|].
      cbn [orb] in *. congruence.
    + intros (m & _ & [= <-] & Hm & ->). by destruct (nSequence_small n Hm) as (-> & _).
  - unfold buildRecoveryTx. case_bool_decide as Hk; cbn [negb].
    2: { split; [done|]. by intros (h & q & Hk' & _). }
    destruct (bf_locktime b) as [[|h q|n]|];
      [by split; [|intros (? & ? & _ & [=] & _)]| |by split; [|intros (? & ? & _ & [=] & _)]..].
    destruct (Z.leb_spec 500000000 h); split; try done.
    + intros (h' & q' & _ & [= <- <-] & ? & _). lia.
    + intros [= <-]. by exists h, q.
    + by intros (h' & q' & _ & [= <- <-] & _ & ->).
Qed.

(** ** From a state to its transactions *)

Definition branch_tx (b : BuiltFallbackBranch) (prev : PrevOutpoint) (succ : SuccessorOutput)
  : js BsvTransaction :=
  match kind (bf_branch b) with
  | cooperative => Ret (buildCooperativeTx prev succ)
  | timeout => buildTimeoutTx b prev succ
  | recovery => buildRecoveryTx b prev succ
  end.

(** The first block that can hold the transaction of a branch, for an input confirmed in
    [conf], timeout [n] and recovery deadline [d] *)
Definition opens_at (k : FallbackKind) (conf n d : Z) : Z :=
  match k with
  | cooperative => conf
  | timeout => conf + n
  | recovery => Z.max conf (d + 1)
  end.

(** Whose signatures and preimages the locking script of a branch asks for; the cooperative
    scripts belong to the templates of the state classes. *)
Definition branch_policy (k : FallbackKind) (ctx : BuildContext) : option policy :=
  match k with
  | cooperative => None
  | timeout => Some (template_policy (T_timeout_branch (timeout_params ctx)))
  | recovery => Some (template_policy (T_recovery_branch (recovery_params ctx)))
  end.

Section branches.
Context (sha256 hash256 : bytes → bytes) (checksig : bytes → bytes → bool).
Context (ctx : BuildContext) (prev : PrevOutpoint) (succ : SuccessorOutput).
Context (timeout_ok : template_ok (T_timeout_branch (timeout_params ctx)) = true)
        (recovery_ok : template_ok (T_recovery_branch (recovery_params ctx)) = true)
        (blocks_fit : bc_decision_timeout_blocks ctx ≤ 0xffff)
        (height_fits : 1 ≤ bc_recovery_height ctx < 500000000)
        (prev_fits : prev_ok prev = true) (succ_fits : successor_ok succ = true).

(** What is promised of a materialised branch *)
Definition materialised (b : FallbackBranch) (x : BuiltFallbackBranch) : Prop :=
  bf_branch x = b
  ∧ (∃ tx, branch_tx x prev succ = Ret tx ∧ tx_ok tx = true
      ∧ ∀ conf h, conf ≤ h →
          minable tx conf h
          = (opens_at (kind b) conf (bc_decision_timeout_blocks ctx) (bc_recovery_height ctx) <=? h))
  ∧ match branch_policy (kind b) ctx with
    | None => bf_locking_script x = None
    | Some p => ∃ script, bf_locking_script x = Some script
        ∧ ∀ st, unlocks sha256 hash256 checksig script st = admits sha256 hash256 checksig p st
    end.

Lemma minable_one_to_one sequence lt conf h :
  minable (one_to_one prev succ sequence lt) conf h
  = ((lt =? 0) || ((lt <? 500000000) && (lt <? h)) || (sequence =? SEQUENCE_FINAL))
    && (Z.testbit sequence 31
        || (negb (Z.testbit sequence 22) && (conf + Z.land sequence 0xffff <=? h))).
Proof using Type.
  unfold minable, locktime_passed, sequence_passed, one_to_one.
  cbn [Tx.version lockTime inputs forallb Tx.sequence]. by rewrite !andb_true_r.
Qed.

Lemma timeout_blocks_positive : 1 ≤ bc_decision_timeout_blocks ctx.
Proof using timeout_ok.
  pose proof timeout_ok as H. cbn [template_ok timeout_params tb_decision_timeout_blocks] in H.
  rewrite andb_true_iff, Z.leb_le in H. exact (proj2 H).
Qed.

Lemma materialise_timeout b :
  kind b = timeout → ∃ x, materialise_one ctx b = Ret x ∧ materialised b x.
Proof using timeout_ok blocks_fit prev_fits succ_fits.
  intros Hk. pose proof timeout_blocks_positive as Hpos. unfold materialise_one. rewrite Hk.
  pose proof (timeout_branch_built (timeout_params ctx)) as H. unfold builds in H.
  rewrite timeout_ok in H. destruct H as (script & Hs & Hd).
  cbn [template_script] in Hs. unfold buildTimeoutBranchScript in Hs.
  apply js_fmap_Ret in Hs as (built & E & <-). rewrite E. cbn [mbind js_bind].
  assert (El : bb_locktime built = relative_blocks (bc_decision_timeout_blocks ctx)).
  { unfold buildTimeoutBranch in E. destruct (_ =? 0); [done|]. destruct (16 <? _); [done|].
    do 7 (apply js_bind_Ret in E as (? & _ & E)). apply js_bind_Ret in E as (t & Ht & [= <-]).
    unfold relativeBlocks in Ht. cbn [timeout_params tb_decision_timeout_blocks] in Ht.
    rewrite (proj2 (Z.ltb_ge _ _)) in Ht by lia. by injection Ht as <-. }
  eexists. split; [reflexivity|]. split; [done|]. unfold branch_tx. cbn [bf_branch].
  rewrite Hk. split.
  - destruct (nSequence_small (bc_decision_timeout_blocks ctx)) as (En & Hu & H31 & H22 & Hl); [lia|].
    exists (one_to_one prev succ (bc_decision_timeout_blocks ctx) 0). split_and!.
    + unfold buildTimeoutTx. cbn [bf_branch bf_locktime]. rewrite Hk, El, En. done.
    + by apply one_to_one_ok.
    + intros conf h Hc. rewrite minable_one_to_one, H31, H22, Hl. done.
  - cbn [branch_policy]. eexists. split; [reflexivity|]. intros st.
    apply unlocks_policy; [exact Hd|by apply policy_well_formed].
Qed.

Lemma materialise_recovery b :
  kind b = recovery → ∃ x, materialise_one ctx b = Ret x ∧ materialised b x.
Proof using recovery_ok height_fits prev_fits succ_fits.
  intros Hk. unfold materialise_one. rewrite Hk.
  pose proof (recovery_branch_built (recovery_params ctx)) as H. unfold builds in H.
  rewrite recovery_ok in H. destruct H as (script & Hs & Hd).
  cbn [template_script] in Hs. unfold buildRecoveryBranch in Hs.
  apply js_fmap_Ret in Hs as (built & E & <-). rewrite E. cbn [mbind js_bind].
  assert (El : bb_locktime built = absolute_height (bc_recovery_height ctx) (Some 0)).
  { unfold buildRecoveryBranchTemplate in E.
    do 2 (apply js_bind_Ret in E as (? & _ & E)). by injection E as <-. }
  eexists. split; [reflexivity|]. split; [done|]. unfold branch_tx. cbn [bf_branch].
  rewrite Hk. split.
  - exists (one_to_one prev succ (SEQUENCE_FINAL - 1) (bc_recovery_height ctx)). split_and!.
    + unfold buildRecoveryTx. cbn [bf_branch bf_locktime]. rewrite Hk, El.
      by rewrite (proj2 (Z.leb_gt _ _)) by lia.
    + apply one_to_one_ok; [done..|]. apply u32_range_iff. lia.
    + intros conf h Hc. rewrite minable_one_to_one. cbn [opens_at].
      rewrite (proj2 (Z.eqb_neq _ _)), (proj2 (Z.ltb_lt _ 500000000)) by lia.
      change (Z.testbit (SEQUENCE_FINAL - 1) 31) with true. cbn [orb andb].
      change (SEQUENCE_FINAL - 1 =? SEQUENCE_FINAL) with false. rewrite orb_false_r, andb_true_r.
      destruct (Z.ltb_spec (bc_recovery_height ctx) h),
        (Z.leb_spec (Z.max conf (bc_recovery_height ctx + 1)) h); try done; lia.
  - cbn [branch_policy]. eexists. split; [reflexivity|]. intros st.
    apply unlocks_policy; [exact Hd|by apply policy_well_formed].
Qed.

Lemma materialise_cooperative b :
  kind b = cooperative → ∃ x, materialise_one ctx b = Ret x ∧ materialised b x.
Proof using prev_fits succ_fits.
  intros Hk. unfold materialise_one. rewrite Hk. eexists. split; [reflexivity|].
  split; [done|]. unfold branch_tx. cbn [bf_branch]. rewrite Hk. split; [|done].
  eexists. split; [reflexivity|]. split; [by apply one_to_one_ok|].
  intros conf h Hc. unfold buildCooperativeTx. rewrite minable_one_to_one. cbn [opens_at].
  by rewrite (proj2 (Z.leb_le conf h) Hc).
Qed.

Lemma materialise_all bs :
  ∃ xs, materialiseFallbackGraph bs ctx = Ret xs ∧ Forall2 materialised bs xs.
Proof using timeout_ok recovery_ok blocks_fit height_fits prev_fits succ_fits.
  induction bs as [|b bs IH]; [by exists []|]. cbn [materialiseFallbackGraph].
  assert (∃ x, materialise_one ctx b = Ret x ∧ materialised b x) as (x & -> & Hx).
  { destruct (kind b) eqn:Hk; [by apply materialise_cooperative|by apply materialise_timeout|
      by apply materialise_recovery]. }
  destruct IH as (xs & -> & Hxs). exists (x :: xs). split; [done|]. by constructor.
Qed.

(** What a state of a session names: its legal cooperative action, and the lock times of the
    rule set and of the recovery deadline *)
Definition branch_named (rs : RuleSet) (d : BlockHeight) (s : RoundState) (b : FallbackBranch) : Prop :=
  source_state_class b = state_class s
  ∧ (kind b = cooperative → fb_action_type b ∈ getLegalActions (state_class s))
  ∧ lock_time_spec b = match kind b with
                       | cooperative => fb_immediate
                       | timeout => fb_relative_blocks (decision_timeout_blocks rs)
                       | recovery => fb_absolute_height d
                       end.

Lemma enumerate_named rs g r d s :
  is_sats (stake_amount rs) → session rs g r d s →
  Forall (branch_named rs d s) (enumerateFallbackGraph s rs)
  ∧ ∃ b, b ∈ enumerateFallbackGraph s rs ∧ kind b = recovery.
Proof using Type.
  intros Hst Hs. destruct (inv_deadlines _ _ _ _ _ (session_inv rs g r d Hst s Hs)) as [_ Hrec].
  unfold enumerateFallbackGraph, branch_named. rewrite Hrec. split.
  - rewrite !list.Forall_app. split_and!.
    + destruct (state_class s); cbn [cooperativeFor]; repeat constructor;
        cbn; intros _; apply (bool_decide_unpack _); by vm_compute.
    + destruct (state_class s); cbn [timeoutDefaultFor]; repeat constructor; done.
    + by constructor; [split_and!|constructor].
  - eexists. split; [apply elem_of_app; right; apply elem_of_app; right; by left|done].
Qed.

(** C33: the fallback graph of a session.  In every state of a session the branches can be
    built, each with an encodable transaction that can be mined exactly from its block on: the
    cooperative one at once, the timeout one the agreed number of blocks after its input, the
    recovery one after the recovery deadline; timeout and recovery scripts unlock exactly for
    their policies; the cooperative action is a legal one; and recovery is always among the
    branches, so that no state locks the stakes up. *)
Theorem fallback_graph_complete rs g r d s :
  is_sats (stake_amount rs) → session rs g r d s →
  decision_timeout_blocks rs = bc_decision_timeout_blocks ctx → d = bc_recovery_height ctx →
  ∃ xs, materialiseFallbackGraph (enumerateFallbackGraph s rs) ctx = Ret xs
    ∧ Forall2 materialised (enumerateFallbackGraph s rs) xs
    ∧ Forall (branch_named rs d s) (enumerateFallbackGraph s rs)
    ∧ ∃ b, b ∈ enumerateFallbackGraph s rs ∧ kind b = recovery.
Proof using timeout_ok recovery_ok blocks_fit height_fits prev_fits succ_fits.
  intros Hst Hs Hn Hd. destruct (enumerate_named rs g r d s Hst Hs) as [Hnamed Hrec].
  destruct (materialise_all (enumerateFallbackGraph s rs)) as (xs & E & H). by exists xs.
Qed.
End branches.

(** ** A branch graph in the bet decision *)

Definition sample_ctx : BuildContext :=
  mkBuildContext 6 100 ["02" +:+ to_hex (replicate 32 0xaa); "03" +:+ to_hex (replicate 32 0xbb)]
    (to_hex (replicate 32 0xcc)) ("02" +:+ to_hex (replicate 32 0xdd)).
Definition sample_prev : PrevOutpoint := mkPrevOutpoint (replicate 32 7) 0 1000.
Definition sample_succ : SuccessorOutput := mkSuccessorOutput 900 [0x51].

Lemma fallback_graph_witness :
  let checksig (s k : bytes) := bool_decide (s = k) in
  session demo_rules "g" "r" 100 (reach to_bet)
  ∧ kind <$> enumerateFallbackGraph (reach to_bet) demo_rules = [cooperative; timeout; recovery]
  ∧ ∃ xs, materialiseFallbackGraph (enumerateFallbackGraph (reach to_bet) demo_rules) sample_ctx
          = Ret xs
    ∧ Forall2 (materialised id reverse checksig sample_ctx sample_prev sample_succ)
        (enumerateFallbackGraph (reach to_bet) demo_rules) xs
    ∧ Forall (branch_named demo_rules 100 (reach to_bet)) (enumerateFallbackGraph (reach to_bet) demo_rules)
    ∧ ∃ b, b ∈ enumerateFallbackGraph (reach to_bet) demo_rules ∧ kind b = recovery.
Proof.
  intros checksig. split; [exact bet_session|]. split; [by vm_compute|].
  apply (fallback_graph_complete id reverse checksig sample_ctx sample_prev sample_succ
           ltac:(by vm_compute) ltac:(by vm_compute) ltac:(vm_compute; done)
           ltac:(split; vm_compute; done) ltac:(by vm_compute) ltac:(by vm_compute)
           demo_rules "g" "r" 100 (reach to_bet) demo_stake bet_session);
    by vm_compute.
Defined.
