(* ===== verification/Spending.v ===== *)
(** * From a template to a spend the network takes

    The packages together, in the order sign.ts gives for them: a locking script of
    script-templates, a transaction of tx-builder or of the orchestrator, its signature hash,
    the signatures, the unlocking script that the writer pushes, and the transaction with it
    filled in.  The node on the other side reads the pushes, runs the locking script with
    [OP_CHECKSIG] asked about that transaction, and looks at its lock times. *)

From S2P Require Import Prelude Bytes Primitives Types Engine EngineSpec EngineSafety EngineExamples Script ScriptSpec ScriptProps Tx TxProps SighashProps SignProps Fallback FallbackProps.
Import OP.

(** ** Unlocking scripts *)

(** The items that take at most [OP_PUSHDATA2] *)
Definition pushable (d : bytes) : Prop := Forall is_byte d ∧ blen d ≤ 0xffff.

(** The instruction an item is pushed by *)
Definition pushed (d : bytes) : instr :=
  match d with
  | [] => I_op OP_0
  | [b] => if (1 <=? b) && (b <=? 16) then I_op (OP_1 + b - 1)
           else if b =? 0x81 then I_op OP_1NEGATE else I_push [b]
  | _ => I_push d
  end.

Definition parses_to (e : bytes) (i : instr) : Prop :=
  ∀ fuel rest, parse (S fuel) (e ++ rest) = cons i <$> parse fuel rest.

Lemma parses_op o : o = 0 ∨ 0x4f ≤ o → parses_to [o] (I_op o).
Proof.
  intros Ho fuel rest. cbn [app parse]. destruct (Z.eqb_spec o 0) as [->|]; [done|].
  unfold push_size. rewrite (proj2 (Z.leb_gt _ _)), !(proj2 (Z.eqb_neq _ _)) by lia. done.
Qed.

(** Data behind its length *)
Lemma parses_data pre d :
  (∃ b r, pre = b :: r ∧ b ≠ 0 ∧ ∀ rest, push_size b (r ++ d ++ rest) = Some (length d, d ++ rest)) →
  parses_to (pre ++ d) (I_push d).
Proof.
  intros (b & r & -> & Hb & Hs) fuel rest. rewrite <- app_assoc. cbn [app parse].
  rewrite (proj2 (Z.eqb_neq _ _) Hb), Hs.
  rewrite (proj2 (Nat.ltb_ge _ _)) by (rewrite length_app; lia).
  by rewrite take_app_length, drop_app_length.
Qed.

Lemma le_val_2 a b : le_val [a; b] = a + 256 * b.
Proof. cbn. lia. Qed.

Lemma pushData_long d w :
  Forall is_byte d → 1 ≤ blen d ≤ 0xffff → (blen d = 1 → pushed d = I_push d) →
  ∃ e, pushData d w = Ret (w ++ e) ∧ Forall is_byte e ∧ blen e ≤ blen d + 3
    ∧ parses_to e (I_push d).
Proof.
  intros Hb Hn H1. pose proof (blen_nonneg d).
  assert (Hlen : Z.to_nat (blen d) = length d) by (unfold blen; lia).
  assert (Hnb : is_byte (blen d) ∨ 256 ≤ blen d) by (unfold is_byte; lia).
  destruct (Z.leb_spec (blen d) 75) as [H75|H75].
  - exists ([blen d] ++ d). split_and!.
    + unfold pushData. rewrite (proj2 (Z.eqb_neq _ 0)) by lia.
      destruct (Z.eqb_spec (blen d) 1) as [E|E]; [|by rewrite (proj2 (Z.leb_le _ _) H75)].
      specialize (H1 E). destruct d as [|b [|? ?]]; [done| |unfold blen in E; cbn in E; lia].
      cbn [lookup list_lookup]. cbn [pushed] in H1. destruct (_ && _); [done|].
      by destruct (b =? 0x81).
    + constructor; [unfold is_byte; lia|done].
    + unfold blen. cbn [length app]. lia.
    + apply parses_data. exists (blen d), []. split_and!; [done|lia|]. intros rest.
      unfold push_size. rewrite (proj2 (Z.leb_le _ _) H75). by rewrite Hlen.
  - unfold pushData. rewrite !(proj2 (Z.eqb_neq _ _)), (proj2 (Z.leb_gt _ 75)) by lia.
    destruct (Z.leb_spec (blen d) 255).
    + exists ([0x4c; blen d] ++ d). split_and!; [done| |unfold blen; cbn [length app]; lia|].
      { repeat (constructor; [unfold is_byte; lia|]). done. }
      apply parses_data. exists 0x4c, [blen d]. split_and!; [done..|]. intros rest.
      unfold push_size. cbn [app take drop Z.leb Z.eqb Z.compare Pos.compare Pos.compare_cont Pos.eqb].
      cbn [le_val]. by rewrite Z.mul_0_r, Z.add_0_r, Hlen.
    + rewrite (proj2 (Z.leb_le _ 65535)) by lia. rewrite !js_and_ff.
      assert (js_shr (blen d) 8 = blen d / 256) as ->.
      { unfold js_shr, to_int32. rewrite !(Z.mod_small (blen d)) by lia.
        rewrite (proj2 (Z.ltb_lt _ _)) by lia. by rewrite Z.shiftr_div_pow2 by done. }
      exists ([0x4d; blen d mod 256; blen d / 256 mod 256] ++ d).
      split_and!; [done| |unfold blen; cbn [length app]; lia|].
      { repeat (constructor; [unfold is_byte; try apply Z.mod_pos_bound; lia|]). done. }
      apply parses_data. exists 0x4d, [blen d mod 256; blen d / 256 mod 256].
      split_and!; [done..|]. intros rest. unfold push_size.
      cbn [app take drop Z.leb Z.eqb Z.compare Pos.compare Pos.compare_cont Pos.eqb].
      rewrite le_val_2, (Z.mod_small (blen d / 256)).
      * rewrite Z.add_comm, <- Z.div_mod by done. by rewrite Hlen.
      * split; [apply Z.div_pos; lia|apply Z.div_lt_upper_bound; lia].
Qed.

Lemma pushData_parses d w :
  pushable d →
  ∃ e, pushData d w = Ret (w ++ e) ∧ Forall is_byte e ∧ e ≠ [] ∧ blen e ≤ blen d + 3
    ∧ parses_to e (pushed d).
Proof.
  intros [Hb Hn]. destruct d as [|b [|b' d]].
  - exists [OP_0]. split_and!; [done|by repeat constructor|done|done|]. apply parses_op. by left.
  - cbn [pushed]. destruct ((1 <=? b) && (b <=? 16)) eqn:E1.
    + apply andb_true_iff in E1 as E2. destruct E2 as [H1%Z.leb_le H2%Z.leb_le].
      exists [OP_1 + b - 1]. unfold pushData. cbn. rewrite E1.
      split_and!; [done| |done|done|apply parses_op; unfold OP_1; lia].
      repeat constructor; unfold OP_1; lia.
    + destruct (b =? 0x81) eqn:E2.
      * exists [OP_1NEGATE]. unfold pushData. cbn. rewrite E1, E2.
        split_and!; [done|by repeat constructor|done|done|apply parses_op; by right].
      * destruct (pushData_long [b] w Hb ltac:(done)) as (e & He & Hbe & Hl & Hp).
        { cbn [pushed]. by rewrite E1, E2. }
        exists e. split_and!; try done. intros ->. by specialize (Hp 0%nat []).
  - destruct (pushData_long (b :: b' :: d) w Hb) as (e & He & Hbe & Hl & Hp).
    + unfold blen in *. cbn [length] in *. lia.
    + done.
    + exists e. split_and!; try done. intros ->. by specialize (Hp 0%nat []).
Qed.

(** [for (const d of items) w.pushData(d)] *)
Fixpoint push_all (items : list bytes) (w : ScriptWriter) : js ScriptWriter :=
  match items with
  | [] => Ret w
  | d :: items => w ← pushData d w; push_all items w
  end.

Definition items_size (items : list bytes) : Z := foldr (λ d n, blen d + 3 + n) 0 items.

Lemma push_all_parses items w :
  Forall pushable items →
  ∃ e, push_all items w = Ret (w ++ e) ∧ Forall is_byte e ∧ (length items ≤ length e)%nat
    ∧ blen e ≤ items_size items
    ∧ ∀ fuel rest, parse (length items + fuel) (e ++ rest) = app (pushed <$> items) <$> parse fuel rest.
Proof.
  intros H. revert w. induction H as [|d items Hd _ IH]; intros w.
  { exists []. split_and!; [by rewrite app_nil_r|done..|]. intros fuel rest. cbn.
    by destruct (parse fuel rest). }
  destruct (pushData_parses d w Hd) as (e & He & Hbe & Hne & Hl & Hp).
  destruct (IH (w ++ e)) as (es & Hes & Hbes & Hles & Hsz & Hps). exists (e ++ es). split_and!.
  - cbn [push_all]. rewrite He. cbn [mbind js_bind]. by rewrite Hes, app_assoc.
  - by apply list.Forall_app.
  - rewrite length_app. cbn [length]. destruct e; [done|]. cbn [length]. lia.
  - rewrite blen_app. change (items_size (d :: items)) with (blen d + 3 + items_size items). lia.
  - intros fuel rest. rewrite <- app_assoc. cbn [length Nat.add]. rewrite Hp, Hps.
    by destruct (parse fuel rest).
Qed.

(** *** The stack they leave *)

(** An unlocking script may only push. *)
Definition push_only (i : instr) : bool :=
  match i with
  | I_push _ => true
  | I_op o => (o =? OP_0) || (o =? OP_1NEGATE) || ((OP_1 <=? o) && (o <=? OP_16))
  end.

Section stacks.
Context (sha256 hash256 : bytes → bytes) (checksig : bytes → bytes → bool).

Definition initial_stack (unlocking : bytes) : option (list bytes) :=
  prog ← parse_script unlocking;
  if forallb push_only prog then run sha256 hash256 checksig prog (Machine [] [] false) else None.

Lemma pushed_runs d st :
  push_only (pushed d) = true ∧ ends (pushed d) (Machine st [] false) = false
  ∧ step sha256 hash256 checksig (pushed d) (Machine st [] false) = Some (Machine (d :: st) [] false).
Proof.
  destruct d as [|b [|b' d]]; [done| |done]. cbn [pushed].
  destruct ((1 <=? b) && (b <=? 16)) eqn:E.
  - apply andb_true_iff in E as [H1%Z.leb_le H2%Z.leb_le].
    assert (Hb : b ∈ Z.of_nat <$> seq 1 16).
    { apply list_elem_of_fmap. exists (Z.to_nat b). split; [lia|]. apply elem_of_seq. lia. }
    clear H1 H2. revert b Hb. apply list.Forall_forall. by repeat constructor.
  - destruct (Z.eqb_spec b 0x81) as [->|]; done.
Qed.

Lemma run_pushed items st :
  forallb push_only (pushed <$> items) = true
  ∧ run sha256 hash256 checksig (pushed <$> items) (Machine st [] false) = Some (reverse items ++ st).
Proof.
  revert st. induction items as [|d items IH]; intros st; [done|].
  destruct (pushed_runs d st) as (Hp & He & Hs), (IH (d :: st)) as [Hps Hr].
  cbn [fmap list_fmap forallb run]. rewrite Hp, He, Hs. cbn [andb mbind option_bind].
  split; [done|]. rewrite reverse_cons, <- app_assoc. exact Hr.
Qed.

(** What is pushed is on the stack, the last item on top. *)
Lemma initial_stack_pushed items :
  Forall pushable items →
  ∃ w, push_all items new_script = Ret w ∧ blen (script_bytes w) ≤ items_size items
    ∧ initial_stack (script_bytes w) = Some (reverse items).
Proof.
  intros H. destruct (push_all_parses items new_script H) as (e & He & Hb & Hl & Hsz & Hp).
  exists e. split; [done|]. unfold script_bytes. rewrite u8_bytes by done. split; [done|].
  unfold initial_stack, parse_script. specialize (Hp (length e - length items)%nat []).
  rewrite app_nil_r in Hp. replace (length items + _)%nat with (length e) in Hp by lia.
  rewrite Hp. assert (parse (length e - length items) [] = Some []) as -> by (by destruct (_ - _)%nat).
  cbn [fmap option_fmap option_map mbind option_bind]. rewrite app_nil_r.
  destruct (run_pushed items []) as [-> ->]. by rewrite app_nil_r.
Qed.
End stacks.

(** ** Meeting a policy *)

(** The length of a policy's script, in instructions *)
Fixpoint width (p : policy) : nat :=
  match p with
  | P_sig _ => 2
  | P_multi keys => 3 + length keys
  | P_hash _ _ p => 3 + width p
  | P_return => 1
  | P_or a b => 3 + width a + width b
  end.

Lemma length_instrs p : length (instrs p) = width p.
Proof.
  induction p as [k|ks|o d p IH| |a IHa b IHb]; cbn [instrs length width]; try done.
  - rewrite length_app, length_fmap. cbn [length]. lia.
  - by rewrite IH.
  - rewrite !length_app. cbn [length]. rewrite length_app, IHa, IHb. cbn [length]. lia.
Qed.

Lemma decodes_length bs prog : decodes bs prog → blen bs ≤ 76 * Z.of_nat (length prog).
Proof.
  unfold blen. induction 1 as [|o bs prog _ _ IH|d bs prog Hd _ IH]; cbn [length]; [lia|lia|].
  rewrite length_app. unfold blen in Hd. lia.
Qed.

Lemma items_size_bound items :
  Forall pushable items → items_size items ≤ 65538 * Z.of_nat (length items).
Proof.
  induction 1 as [|d items [_ Hd] _ IH]; [done|].
  change (items_size (d :: items)) with (blen d + 3 + items_size items). cbn [length]. lia.
Qed.

Section offering.
Context (sha256 hash256 : bytes → bytes).
Context (sign : bytes → js bytes) (preimage : bytes → bytes) (signer : bytes → Prop).

Fixpoint sign_each (ks : list bytes) : js (list bytes) :=
  match ks with
  | [] => Ret []
  | k :: ks => s ← sign k; ss ← sign_each ks; Ret (s :: ss)
  end.

(** The stack for a policy, from its top: [path] chooses the branches. *)
Fixpoint offer (p : policy) (path : list bool) : js (list bytes) :=
  match p with
  | P_sig k => s ← sign k; Ret [s]
  | P_multi ks => ss ← sign_each (reverse ks); Ret (ss ++ [[]])
  | P_hash _ d p => st ← offer p path; Ret (preimage d :: st)
  | P_return => Ret [[1]]
  | P_or a b =>
    if default false (head path) then st ← offer a (tail path); Ret ([1] :: st)
    else st ← offer b (tail path); Ret ([] :: st)
  end.

(** The keys and preimages that [path] asks for are at hand. *)
Fixpoint can_offer (p : policy) (path : list bool) : Prop :=
  match p with
  | P_sig k => signer k
  | P_multi ks => Forall signer ks
  | P_hash o d p => hash_of sha256 hash256 o (preimage d) = d ∧ pushable (preimage d) ∧ can_offer p path
  | P_return => True
  | P_or a b => if default false (head path) then can_offer a (tail path) else can_offer b (tail path)
  end.

Context (checksig : bytes → bytes → bool).
Context (signs : ∀ k, signer k → ∃ s, sign k = Ret s ∧ checksig s k = true ∧ pushable s).

Lemma sign_each_Ret ks :
  Forall signer ks → ∃ ss, sign_each ks = Ret ss ∧ length ss = length ks
    ∧ forallb id (zip_with checksig ss ks) = true ∧ Forall pushable ss.
Proof using signs.
  induction 1 as [|k ks Hk _ IH]; [by exists []|].
  destruct (signs k Hk) as (s & Hs & Hc & Hp), IH as (ss & Hss & Hl & Hcs & Hps).
  exists (s :: ss). cbn [sign_each]. rewrite Hs, Hss. split_and!; [done|cbn; lia| |by constructor].
  cbn. by rewrite Hc, Hcs.
Qed.

Lemma pushable_small b : is_byte b → pushable [b].
Proof using Type. intros Hb. split; [by constructor|done]. Qed.

(** Whoever has the keys and preimages of a path meets the policy. *)
Lemma offer_admits p path :
  can_offer p path →
  ∃ st, offer p path = Ret st ∧ admits sha256 hash256 checksig p st = true
    ∧ Forall pushable st ∧ (length st ≤ width p)%nat.
Proof using signs.
  revert path. induction p as [k|ks|o d p IH| |a IHa b IHb]; intros path H; cbn [can_offer offer] in *.
  - destruct (signs k H) as (s & -> & Hc & Hp). exists [s].
    split_and!; [done|exact Hc|by constructor|cbn; lia].
  - destruct (sign_each_Ret (reverse ks)) as (ss & -> & Hl & Hc & Hp); [by apply Forall_reverse|].
    rewrite length_reverse in Hl. exists (ss ++ [[]]). cbn [mbind js_bind]. split_and!; [done| | |].
    + cbn [admits]. rewrite length_app, (proj2 (Nat.ltb_lt _ _)) by (cbn [length]; lia).
      by rewrite take_app_length'.
    + apply list.Forall_app. split; [done|]. by repeat constructor.
    + rewrite length_app. cbn [length width]. lia.
  - destruct H as (Hh & Hpre & H). destruct (IH path H) as (st & -> & Ha & Hp & Hl).
    exists (preimage d :: st). cbn [mbind js_bind admits width length].
    rewrite bool_decide_eq_true_2, Ha by done. split_and!; [done..|by constructor|lia].
  - exists [[1]]. split_and!; [done|done| |done]. constructor; [by apply pushable_small|constructor].
  - assert (Hor : ∀ v q st, offer q (tail path) = Ret st → pushable v → Forall pushable st →
      (length st ≤ width q)%nat → (width q ≤ width a + width b)%nat →
      (if truthy v then admits sha256 hash256 checksig a st
       else admits sha256 hash256 checksig b st) = true →
      ∃ st', (st ← offer q (tail path); Ret (v :: st)) = Ret st'
        ∧ admits sha256 hash256 checksig (P_or a b) st' = true ∧ Forall pushable st'
        ∧ (length st' ≤ width (P_or a b))%nat).
    { intros v q st -> Hv Hst Hl Hw Ha. exists (v :: st). split_and!; [done|exact Ha|by constructor|].
      cbn [length width]. lia. }
    destruct (default false (head path)).
    + destruct (IHa _ H) as (st & E & Ha & Hp & Hl).
      apply (Hor [1] a st); [done|by apply pushable_small|done|done|lia|done].
    + destruct (IHb _ H) as (st & E & Hb & Hp & Hl).
      apply (Hor [] b st); [done|by split|done|done|lia|done].
Qed.
End offering.

(** ** The node *)

(** The transaction with the unlocking script of one input *)
Definition fill (tx : BsvTransaction) (inputIdx : Z) (script : bytes) : BsvTransaction :=
  mkBsvTransaction (version tx)
    (alter (λ i, mkTxInput (prevTxid i) (prevVout i) script (sequence i)) (Z.to_nat inputIdx) (inputs tx))
    (outputs tx) (lockTime tx).

Lemma fmap_alter_same {A B} (g : A → B) (f : A → A) (n : nat) (l : list A) : (∀ x, g (f x) = g x) → g <$> alter f n l = g <$> l.
Proof.
  intros H. revert n. induction l as [|x l IH]; intros [|n]; try done; cbn.
  - by rewrite H.
  - change (list_alter f n l) with (alter f n l). by rewrite IH.
Qed.

Lemma forallb_alter {A} (ok : A → bool) (f : A → A) (n : nat) (l : list A) :
  forallb ok l = true → (∀ x, ok x = true → ok (f x) = true) → forallb ok (alter f n l) = true.
Proof.
  intros H Hf. revert n. induction l as [|x l IH]; intros [|n]; try done;
    cbn [forallb] in H; apply andb_true_iff in H as [Hx Hl]; cbn; apply andb_true_iff; split; auto.
Qed.

(** Filling in an unlocking script changes nothing a signature covers. *)
Lemma fill_covered tx idx script ht : covered (fill tx idx script) idx ht = covered tx idx ht.
Proof.
  unfold covered, fill. cbn [version inputs outputs lockTime].
  rewrite !fmap_alter_same by done. rewrite list_lookup_alter_eq.
  by destruct (inputs tx !! Z.to_nat idx).
Qed.

Lemma fill_ok tx idx script :
  tx_ok tx = true → length_ok (blen script) = true → tx_ok (fill tx idx script) = true.
Proof.
  unfold tx_ok, fill. cbn [version inputs outputs lockTime]. rewrite !andb_true_iff.
  intros [[[[[Hv Hl] Hin] Ho] Hn] Hm] Hs. rewrite length_alter. split_and!; try done.
  apply forallb_alter; [done|]. intros i. unfold input_ok.
  cbn [prevTxid prevVout sequence unlockingScript]. rewrite !andb_true_iff. tauto.
Qed.

Section node.
Context (sha256 : bytes → bytes) (secp_verify : bytes → bytes → bytes → js bool).

(** [OP_CHECKSIG], asked about input [inputIdx] of [tx], which spends [prevValue] under
    [prevScript]: the last byte of the item is the hash type, the rest strict DER. *)
Definition op_checksig (tx : BsvTransaction) (inputIdx : Z) (prevScript : bytes) (prevValue : Z)
    (item key : bytes) : bool :=
  match reverse item with
  | [] => false
  | hashType :: r =>
    let der := reverse r in
    strict_der der
    && bool_decide ((h ← computeSighash sha256 tx inputIdx prevScript prevValue hashType;
                     verifySighashSignature secp_verify der h key) = Ret true)
  end.

(** The scripts of an input let the spend through. *)
Definition input_unlocks (tx : BsvTransaction) (inputIdx : Z) (prevScript : bytes) (prevValue : Z)
  : bool :=
  let checksig := op_checksig tx inputIdx prevScript prevValue in
  match inputs tx !! Z.to_nat inputIdx with
  | None => false
  | Some i =>
    match initial_stack sha256 (doubleSha256 sha256) checksig (unlockingScript i) with
    | Some st => unlocks sha256 (doubleSha256 sha256) checksig prevScript st
    | None => false
    end
  end.

(** ** The caller, as sign.ts has it *)

Context (signAsync : bytes → bytes → js (Z * Z)) (publicKey : bytes → bytes).
Context (secret preimage : bytes → bytes).

Definition sign_input (tx : BsvTransaction) (inputIdx : Z) (prevScript : bytes) (prevValue : Z)
    (key : bytes) : js bytes :=
  h ← computeSighash sha256 tx inputIdx prevScript prevValue SIGHASH_ALL_FORKID;
  der ← signSighash signAsync h (secret key);
  Ret (der ++ [SIGHASH_ALL_FORKID]).

Definition spend (tx : BsvTransaction) (inputIdx : Z) (prevScript : bytes) (prevValue : Z)
    (p : policy) (path : list bool) : js BsvTransaction :=
  st ← offer (sign_input tx inputIdx prevScript prevValue) preimage p path;
  w ← push_all (reverse st) new_script;
  Ret (fill tx inputIdx (script_bytes w)).

(** The private key of a public key is at hand, and the library signs with it. *)
Definition holds (key : bytes) : Prop :=
  blen (secret key) = 32 ∧ publicKey (secret key) = key
  ∧ ∀ d, blen d = 32 → ∃ r s, signAsync d (secret key) = Ret (r, s).

Context (signAsync_range : ∀ d k r s, signAsync d k = Ret (r, s) →
           1 ≤ r < 2 ^ 256 ∧ 1 ≤ s < 2 ^ 256).
Context (length_publicKey : ∀ k, blen (publicKey k) = 33).
Context (verify_signed : ∀ d k r s, signAsync d k = Ret (r, s) →
           secp_verify (be32 r ++ be32 s) d (publicKey k) = Ret true).
Context (digest_length : ∀ m, length (sha256 m) = 32%nat).

Section input.
Context (tx : BsvTransaction) (inputIdx : Z) (prevScript : bytes) (prevValue : Z).
Context (tx_fits : tx_ok tx = true) (idx_range : 0 ≤ inputIdx < Z.of_nat (length (inputs tx)))
        (script_fits : length_ok (blen prevScript) = true).

Lemma sighash_exists :
  ∃ h, computeSighash sha256 tx inputIdx prevScript prevValue SIGHASH_ALL_FORKID = Ret h
    ∧ blen h = 32.
Proof using tx_fits idx_range script_fits digest_length.
  rewrite computeSighash_spec. change (js_and SIGHASH_ALL_FORKID SIGHASH_FORKID =? 0) with false.
  rewrite (proj2 (Z.leb_le 0 _)) by lia. cbv iota.
  destruct (lookup_lt_is_Some_2 (inputs tx) (Z.to_nat inputIdx)) as [i ->]; [lia|].
  destruct (preimage_Ret sha256 digest_length tx inputIdx i prevScript prevValue SIGHASH_ALL_FORKID)
    as (outs & l & _ & _ & _ & _ & ->); [done|done|lia|].
  eexists. split; [reflexivity|]. unfold blen, doubleSha256. by rewrite digest_length.
Qed.

(** A signature made for the unsigned transaction is accepted in the signed one. *)
Lemma sign_input_accepted key script :
  holds key →
  ∃ item, sign_input tx inputIdx prevScript prevValue key = Ret item
    ∧ op_checksig (fill tx inputIdx script) inputIdx prevScript prevValue item key = true
    ∧ pushable item.
Proof using tx_fits idx_range script_fits digest_length signAsync_range length_publicKey verify_signed.
  intros (Hk & Hpub & Hsig). destruct sighash_exists as (h & Hh & Hlen).
  destruct (Hsig h Hlen) as (r & s & E).
  destruct (signSighash_Ret signAsync secp_verify signAsync_range h (secret key) r s Hlen Hk E)
    as (sig & Hs & Hder & Hb & Hl & Hv).
  exists (sig ++ [SIGHASH_ALL_FORKID]). split_and!.
  - unfold sign_input. rewrite Hh. cbn [mbind js_bind]. by rewrite Hs.
  - unfold op_checksig. rewrite reverse_app, reverse_singleton. cbn [app].
    rewrite reverse_involutive, Hder. cbn [andb].
    rewrite (sighash_scope sha256 _ tx) by apply fill_covered. rewrite Hh. cbn [mbind js_bind].
    apply bool_decide_eq_true_2. rewrite Hv; [|done|by rewrite <- Hpub].
    pose proof (verify_signed _ _ _ _ E) as Hok. rewrite Hpub in Hok. by rewrite Hok.
  - split.
    + apply list.Forall_app. split; [done|]. by repeat constructor.
    + rewrite blen_app. change (blen [SIGHASH_ALL_FORKID]) with 1. lia.
Qed.

(** The whole way: whoever can meet the policy of a script spends what it locks. *)
Lemma spend_unlocks p path :
  decodes prevScript (instrs p) → well_formed p = true → Z.of_nat (width p) ≤ 0xffff →
  can_offer sha256 (doubleSha256 sha256) preimage holds p path →
  ∃ script, spend tx inputIdx prevScript prevValue p path = Ret (fill tx inputIdx script)
    ∧ length_ok (blen script) = true
    ∧ input_unlocks (fill tx inputIdx script) inputIdx prevScript prevValue = true.
Proof using tx_fits idx_range script_fits digest_length signAsync_range length_publicKey verify_signed.
  intros Hd Hwf Hw Hcan.
  assert (Hoff : ∀ script, ∃ st, offer (sign_input tx inputIdx prevScript prevValue) preimage p path = Ret st
    ∧ admits sha256 (doubleSha256 sha256) (op_checksig (fill tx inputIdx script) inputIdx prevScript prevValue) p st = true
    ∧ Forall pushable st ∧ (length st ≤ width p)%nat).
  { intros script. eapply offer_admits; [|exact Hcan]. intros k Hk. by apply sign_input_accepted. }
  destruct (Hoff []) as (st & Hst & _ & Hp & Hl).
  assert (Hrp : Forall pushable (reverse st)) by (by apply Forall_reverse).
  destruct (initial_stack_pushed sha256 (doubleSha256 sha256) (λ _ _, false) _ Hrp)
    as (w & Ew & Hsize & _).
  pose proof (items_size_bound _ Hrp) as Hb. rewrite length_reverse in Hb.
  exists (script_bytes w). split_and!.
  - unfold spend. rewrite Hst. cbn [mbind js_bind]. by rewrite Ew.
  - unfold length_ok. apply Z.ltb_lt. lia.
  - unfold input_unlocks. cbn [fill inputs]. rewrite list_lookup_alter_eq.
    destruct (lookup_lt_is_Some_2 (inputs tx) (Z.to_nat inputIdx)) as [i ->]; [lia|].
    cbn [fmap option_fmap option_map unlockingScript].
    set (cs := op_checksig _ _ _ _).
    destruct (initial_stack_pushed sha256 (doubleSha256 sha256) cs _ Hrp) as (w' & Ew' & _ & Hi).
    replace w' with w in * by congruence. rewrite Hi, reverse_involutive.
    rewrite (unlocks_policy _ _ _ _ _ st Hd Hwf).
    destruct (Hoff (script_bytes w)) as (st' & Hst' & Ha & _).
    assert (st' = st) as -> by congruence. exact Ha.
Qed.
End input.
(** ** Every template can be spent *)

Lemma built t : template_ok t = true → ∃ bs, template_script t = Ret bs ∧ spelled t bs.
Proof using Type.
  intros Hok. assert (H : builds (template_script t) (template_ok t) (spelled t)).
  { destruct t; auto using table_root_built, stake_lock_built, pot_lock_built,
      entropy_commit_built, card_custody_built, round_state_built, settle_claim_built,
      fold_surrender_built, reveal_proof_built, timeout_branch_built, recovery_branch_built. }
  unfold builds in H. by rewrite Hok in H.
Qed.

Lemma signers_few pks : signers_ok pks = true → (length pks ≤ 16)%nat.
Proof using Type. unfold signers_ok, between. rewrite !andb_true_iff, !Z.leb_le. lia. Qed.

Lemma width_keys pks : width (keys pks) = (3 + length pks)%nat.
Proof using Type. unfold keys. cbn [width]. by rewrite length_fmap. Qed.

Lemma keys_width pks : signers_ok pks = true → (width (keys pks) ≤ 19)%nat.
Proof using Type. intros H%signers_few. rewrite width_keys. lia. Qed.

Lemma fallback_width pks : fallback_ok pks = true → (width (fallback_policy pks) ≤ 19)%nat.
Proof using Type. destruct pks; [cbn; lia|]. apply keys_width. Qed.

Lemma template_width t : template_ok t = true → (width (template_policy t) ≤ 60)%nat.
Proof using Type.
  destruct t; cbn [template_ok template_policy]; rewrite ?andb_true_iff; intros H; destruct_and?;
    unfold key, double_hash, single_hash;
    repeat match goal with
      | H : signers_ok _ = true |- _ => apply keys_width in H
      | H : fallback_ok _ = true |- _ => apply fallback_width in H
      end; cbn [width]; rewrite ?width_keys in *; cbn [length] in *; lia.
Qed.

Definition encodable (tx : BsvTransaction) : Prop :=
  ∃ b, encodeBsvTransaction tx = Ret b ∧ ∀ rest, decodeBsvTransaction b rest = Ret tx.

Lemma template_spends t path tx inputIdx prevValue :
  template_ok t = true → tx_ok tx = true → 0 ≤ inputIdx < Z.of_nat (length (inputs tx)) →
  can_offer sha256 (doubleSha256 sha256) preimage holds (template_policy t) path →
  ∃ locking script, template_script t = Ret locking
    ∧ spend tx inputIdx locking prevValue (template_policy t) path = Ret (fill tx inputIdx script)
    ∧ encodable (fill tx inputIdx script)
    ∧ input_unlocks (fill tx inputIdx script) inputIdx locking prevValue = true.
Proof using digest_length signAsync_range length_publicKey verify_signed.
  intros Hok Htx Hidx Hcan. destruct (built t Hok) as (locking & Hs & Hd).
  pose proof (template_width t Hok) as Hw.
  assert (Hfit : length_ok (blen locking) = true).
  { apply decodes_length in Hd. rewrite length_instrs in Hd. unfold length_ok.
    apply Z.ltb_lt. lia. }
  destruct (spend_unlocks tx inputIdx locking prevValue Htx Hidx Hfit (template_policy t) path)
    as (script & Hsp & Hl & Hu); [exact Hd|by apply policy_well_formed|lia|done|].
  exists locking, script. split_and!; [done..| |done]. by apply tx_reads, fill_ok.
Qed.

(** C27: what a template locks can be spent.  For every template and every branch of its
    script, whoever has the keys and preimages the branch asks for signs any transaction's
    input in the order of sign.ts and gets a transaction that encodes and decodes, differs
    from the unsigned one in nothing that is signed, and whose input a node unlocks:
    the pushes of the writer parse back to the stack, the signatures made before the unlocking
    script was filled in verify after it, as the opcodes ask for them. *)
Theorem template_spendable t path tx inputIdx prevValue :
  template_ok t = true → tx_ok tx = true → 0 ≤ inputIdx < Z.of_nat (length (inputs tx)) →
  can_offer sha256 (doubleSha256 sha256) preimage holds (template_policy t) path →
  ∃ locking tx', template_script t = Ret locking
    ∧ spend tx inputIdx locking prevValue (template_policy t) path = Ret tx'
    ∧ encodable tx'
    ∧ (∀ hashType, covered tx' inputIdx hashType = covered tx inputIdx hashType)
    ∧ input_unlocks tx' inputIdx locking prevValue = true.
Proof using digest_length signAsync_range length_publicKey verify_signed.
  intros Hok Htx Hidx Hcan.
  destruct (template_spends t path tx inputIdx prevValue Hok Htx Hidx Hcan)
    as (locking & script & Hs & Hsp & He & Hu).
  exists locking, (fill tx inputIdx script). split_and!; [done..| |done].
  intros ht. apply fill_covered.
Qed.

(** ** Every fallback branch can be spent, and when *)

Context (ctx : BuildContext) (prev : PrevOutpoint) (succ : SuccessorOutput).
Context (timeout_ok : template_ok (T_timeout_branch (timeout_params ctx)) = true)
        (recovery_ok : template_ok (T_recovery_branch (recovery_params ctx)) = true)
        (blocks_fit : bc_decision_timeout_blocks ctx ≤ 0xffff)
        (height_fits : 1 ≤ bc_recovery_height ctx < 500000000)
        (prev_fits : prev_ok prev = true) (succ_fits : successor_ok succ = true).

(** The template a materialised branch locks its output with *)
Definition branch_template (k : FallbackKind) : option template :=
  match k with
  | cooperative => None
  | timeout => Some (T_timeout_branch (timeout_params ctx))
  | recovery => Some (T_recovery_branch (recovery_params ctx))
  end.

Lemma materialise_template b x t :
  materialise_one ctx b = Ret x → branch_template (kind b) = Some t →
  ∃ script, bf_locking_script x = Some script ∧ template_script t = Ret script.
Proof using Type.
  unfold materialise_one. destruct (kind b); cbn [branch_template]; [done|..];
    intros (built & E & [= <-])%js_bind_Ret [= <-]; eexists; (split; [reflexivity|]);
    cbn [template_script]; unfold buildTimeoutBranchScript, buildRecoveryBranch; by rewrite E.
Qed.

Lemma branch_tx_input x tx : branch_tx x prev succ = Ret tx → length (inputs tx) = 1%nat.
Proof using Type.
  unfold branch_tx, buildTimeoutTx, buildRecoveryTx, buildCooperativeTx.
  destruct (kind (bf_branch x)); [by intros [= <-]| |];
    (destruct (negb _); [done|]; destruct (bf_locktime x) as [[| |]|]; try done).
  - by intros (? & _ & [= <-])%js_bind_Ret.
  - destruct (_ <=? _); [done|]. by intros [= <-].
Qed.

Lemma minable_fill tx idx script conf h : minable (fill tx idx script) conf h = minable tx conf h.
Proof using Type.
  assert (E : ∀ f : TxInput → bool, (∀ i u, f (mkTxInput (prevTxid i) (prevVout i) u (sequence i)) = f i) →
    forallb f (inputs (fill tx idx script)) = forallb f (inputs tx)).
  { intros f Hf. cbn [fill inputs]. generalize (Z.to_nat idx) as n.
    induction (inputs tx) as [|i l IH]; intros [|n]; try done; cbn; [by rewrite Hf|].
    by rewrite <- (IH n). }
  unfold minable, locktime_passed, sequence_passed. by rewrite !E by done.
Qed.

(** The first block for a branch, by the lock time it is named with *)
Definition first_block (l : FallbackLockTime) (conf : Z) : Z :=
  match l with
  | fb_immediate => conf
  | fb_relative_blocks n => conf + n
  | fb_absolute_height h => Z.max conf (h + 1)
  end.

(** A node takes the transaction into block [h], its input confirmed in [conf]. *)
Definition node_accepts (tx : BsvTransaction) (prevScript : bytes) (prevValue conf h : Z) : bool :=
  minable tx conf h && input_unlocks tx 0 prevScript prevValue.

(** C32: no state locks the stakes up.  In every state of a session, every timeout branch and
    the recovery branch that the engine names can be carried through to the chain by those its
    script names: the branch is materialised, the orchestrator builds its transaction, it is
    signed and filled in, encodes, and a node takes it exactly from the block on that the
    branch was named with. *)
Theorem fallback_spendable rs g r d s b t :
  is_sats (stake_amount rs) → session rs g r d s →
  decision_timeout_blocks rs = bc_decision_timeout_blocks ctx → d = bc_recovery_height ctx →
  b ∈ enumerateFallbackGraph s rs → branch_template (kind b) = Some t →
  can_offer sha256 (doubleSha256 sha256) preimage holds (template_policy t) [] →
  ∃ x locking unsigned tx, materialise_one ctx b = Ret x ∧ bf_locking_script x = Some locking
    ∧ branch_tx x prev succ = Ret unsigned
    ∧ spend unsigned 0 locking (prevValue prev) (template_policy t) [] = Ret tx
    ∧ encodable tx
    ∧ ∀ conf h, conf ≤ h →
        node_accepts tx locking (prevValue prev) conf h = (first_block (lock_time_spec b) conf <=? h).
Proof using digest_length signAsync_range length_publicKey verify_signed timeout_ok recovery_ok
  blocks_fit height_fits prev_fits succ_fits.
  intros Hst Hs Hn Hd Hb Ht Hcan.
  destruct (enumerate_named rs g r d s Hst Hs) as [Hnamed _].
  rewrite list.Forall_forall in Hnamed. destruct (Hnamed b Hb) as (_ & _ & Hlock).
  assert (∃ x, materialise_one ctx b = Ret x
    ∧ materialised sha256 (doubleSha256 sha256) (λ _ _, false) ctx prev succ b x) as (x & Hx & Hm).
  { destruct (kind b) eqn:Hk; [done| |]; [by apply materialise_timeout|by apply materialise_recovery]. }
  destruct Hm as (_ & (unsigned & Hu & Hok & Hmin) & _).
  destruct (materialise_template b x t Hx Ht) as (locking & Hl & Hs').
  destruct (template_spends t [] unsigned 0 (prevValue prev)) as (locking' & script & E & Hsp & He & Hun).
  { destruct (kind b); cbn [branch_template] in Ht; by simplify_eq. }
  { done. }
  { rewrite (branch_tx_input x unsigned Hu). done. }
  { done. }
  replace locking' with locking in * by congruence.
  exists x, locking, unsigned, (fill unsigned 0 script). split_and!; try done.
  intros conf h Hc. unfold node_accepts. rewrite minable_fill, Hun, andb_true_r, Hmin by done.
  rewrite Hlock. f_equal. destruct (kind b); cbn; lia.
Qed.
End node.

(** ** Spends with a toy signature scheme *)

(** The toy private key is in the public key, and the toy hash keeps 32 bytes as they are. *)
Definition toy_secret (k : bytes) : bytes := drop 1 k.

Lemma toy_holds k :
  bool_decide (blen (toy_secret k) = 32 ∧ toy_pub (toy_secret k) = k) = true →
  holds toy_sign toy_pub toy_secret k.
Proof. intros [H1 H2]%bool_decide_eq_true. split_and!; [done..|]. intros d _. by do 2 eexists. Qed.

Definition toy_pubkey (n : Z) : Pubkey33 := "02" +:+ to_hex (replicate 32 n).

Definition stake_template : template :=
  T_stake_lock (mkStakeLockParams (toy_pubkey 1) (toy_pubkey 2) (to_hex (replicate 32 0xcc)) 100).

(** The claim branch of a stake: the settlement preimage and the player's signature *)
Lemma template_spendable_witness :
  ∃ locking tx', template_script stake_template = Ret locking
    ∧ spend cut_digest toy_sign toy_secret id unsigned_tx 1 locking 1000
        (template_policy stake_template) [false; true] = Ret tx'
    ∧ encodable tx'
    ∧ (∀ hashType, covered tx' 1 hashType = covered unsigned_tx 1 hashType)
    ∧ input_unlocks cut_digest toy_verify tx' 1 locking 1000 = true.
Proof.
  apply (template_spendable cut_digest toy_verify toy_sign toy_pub toy_secret id toy_sign_range
    length_toy_pub toy_verify_signed length_cut_digest stake_template [false; true] unsigned_tx 1
    1000); [by vm_compute|by vm_compute|split; by vm_compute|].
  split; [by vm_compute|]. split; [|by apply toy_holds; vm_compute].
  split; [|by vm_compute]. apply (bool_decide_unpack _). by vm_compute.
Defined.

Definition spend_ctx : BuildContext :=
  mkBuildContext 6 100 [toy_pubkey 3; toy_pubkey 4] (to_hex (replicate 32 0xcc)) (toy_pubkey 5).

(** The timeout branch of a bet decision, with the signatures of both players *)
Lemma fallback_spendable_witness :
  ∃ b, enumerateFallbackGraph (reach to_bet) demo_rules !! 1%nat = Some b ∧
  ∃ x locking unsigned tx, materialise_one spend_ctx b = Ret x ∧ bf_locking_script x = Some locking
    ∧ branch_tx x sample_prev sample_succ = Ret unsigned
    ∧ spend cut_digest toy_sign toy_secret id unsigned 0 locking (prevValue sample_prev)
        (template_policy (T_timeout_branch (timeout_params spend_ctx))) [] = Ret tx
    ∧ encodable tx
    ∧ ∀ conf h, conf ≤ h →
        node_accepts cut_digest toy_verify tx locking (prevValue sample_prev) conf h
        = (first_block (lock_time_spec b) conf <=? h).
Proof.
  eexists. split; [by vm_compute|].
  apply (fallback_spendable cut_digest toy_verify toy_sign toy_pub toy_secret id toy_sign_range
    length_toy_pub toy_verify_signed length_cut_digest spend_ctx sample_prev sample_succ
    ltac:(by vm_compute) ltac:(by vm_compute) ltac:(vm_compute; done)
    ltac:(split; vm_compute; done) ltac:(by vm_compute) ltac:(by vm_compute)
    demo_rules "g" "r" 100 (reach to_bet)); [exact demo_stake|exact bet_session|done|done| |done|].
  - apply list_elem_of_lookup. exists 1%nat. by vm_compute.
  - split; [by vm_compute|]. split.
    + split; [apply (bool_decide_unpack _); by vm_compute|by vm_compute].
    + repeat constructor; by apply toy_holds; vm_compute.
Defined.
