(* ===== verification/DeckSim.v ===== *)
(** * deck-simulator: decks from entropy, honest and forged reveals

    [tools/deck-simulator/src/simulate.ts]: what an honest engine and a forger do with the
    deck commitment of crypto-cards. *)

From S2P Require Import Prelude Bytes Crypto Shuffle ShuffleProps Deck.

Inductive RevealKind : Type := honest | forged.

Record RevealOutcome := mkRevealOutcome {
  o_position : Z;
  o_ordinal : Z;
  cardNonceHex : string;
  deckNonceHex : string;
  commitmentHex : string;
  verifies : bool;
  o_kind : RevealKind
}.

Record DeckSimResult := mkDeckSimResult {
  combinedEntropyHex : string;
  deckCommitmentHashHex : string;
  r_deckSize : Z;
  r_shuffleAlgorithmVersion : Z;
  r_shuffledDeck : list Z;
  reveals : list RevealOutcome
}.

Definition DEFAULT_DECK_SIZE : Z := 52.
Definition DEFAULT_ALGO : Z := 1.

Section simulate.
Context (digest : bytes → bytes) (fuel : nat).

Fixpoint from_hex_each (l : list string) : js (list bytes) :=
  match l with
  | [] => Ret []
  | e :: l => b ← fromHex e; bs ← from_hex_each l; Ret (b :: bs)
  end.

Definition buildDeck (entropiesHex : list string) (deckSize shuffleAlgorithmVersion : Z)
  : js DeckCommitment :=
  if Z.of_nat (length entropiesHex) =? 0
  then Throw "buildDeck: at least one entropy contribution is required"
  else
    es ← from_hex_each entropiesHex;
    combined ← combineEntropy digest es;
    buildDeckCommitment digest fuel combined deckSize shuffleAlgorithmVersion.

(** [xs[i]], [undefined] out of range *)
Definition at_index {A} (l : list A) (i : Z) : option A :=
  if i <? 0 then None else l !! Z.to_nat i.

Definition outcome (p : CardCommitment) (ordinal : Z) (com : bytes) (v : bool) (k : RevealKind)
  : RevealOutcome :=
  mkRevealOutcome (position p) ordinal (toHex (cardNonce p)) (toHex (deckNonce p)) (toHex com) v k.

Definition honestReveal (dc : DeckCommitment) (pos : Z) : js RevealOutcome :=
  match at_index (perPosition dc) pos with
  | None => Throw ("honestReveal: position " +:+ pretty pos +:+ " out of range")
  | Some p =>
    v ← verifyRevealProof digest (commitment p)
          (mkRevealProof (position p) (ordinal p) (cardNonce p) (deckNonce p));
    Ret (outcome p (ordinal p) (commitment p) v honest)
  end.

Definition forgeReveal (dc : DeckCommitment) (pos wrongOrdinal : Z) : js RevealOutcome :=
  match at_index (perPosition dc) pos with
  | None => Throw ("forgeReveal: position " +:+ pretty pos +:+ " out of range")
  | Some p =>
    if wrongOrdinal =? ordinal p
    then Throw ("forgeReveal: " +:+ pretty wrongOrdinal
                +:+ " is the honest ordinal; choose a different one")
    else
      v ← verifyRevealProof digest (commitment p)
            (mkRevealProof (position p) wrongOrdinal (cardNonce p) (deckNonce p));
      forgedCommitment ← commitCard digest wrongOrdinal (cardNonce p) (deckNonce p);
      Ret (outcome p wrongOrdinal forgedCommitment v forged)
  end.

Fixpoint reveal_each (dc : DeckCommitment) (positions : list Z) : js (list RevealOutcome) :=
  match positions with
  | [] => Ret []
  | p :: ps => r ← honestReveal dc p; rs ← reveal_each dc ps; Ret (r :: rs)
  end.

Definition simulateDeck (entropiesHex : list string) (deckSize algo : option Z)
    (positions : option (list Z)) : js DeckSimResult :=
  let deckSize := default DEFAULT_DECK_SIZE deckSize in
  let algo := default DEFAULT_ALGO algo in
  dc ← buildDeck entropiesHex deckSize algo;
  let positions := default (position <$> perPosition dc) positions in
  rs ← reveal_each dc positions;
  Ret (mkDeckSimResult (toHex (combinedEntropy dc)) (toHex (deckCommitmentHash dc)) deckSize algo
         (shuffledDeck dc) rs).

(** ** What the simulator shows *)

Context (digest_length : ∀ b, length (digest b) = 32%nat)
        (digest_byte : ∀ b, Forall is_byte (digest b)).

Lemma buildDeck_Ret es n v d :
  buildDeck es n v = Ret d →
  ∃ combined, buildDeckCommitment digest fuel combined n v = Ret d
    ∧ committed digest (perPosition d) (shuffledDeck d)
    ∧ shuffledDeck d ≡ₚ seqZ 0 n.
Proof using Type.
  unfold buildDeck. destruct (_ =? 0); [done|].
  intros (bs & _ & (combined & _ & H)%js_bind_Ret)%js_bind_Ret. exists combined.
  split; [done|]. apply buildDeckCommitment_Ret in H as (_ & Hs & _ & _ & Hc & _).
  split; [done|]. by eapply shuffle_perm.
Qed.

Lemma at_index_Some {A} (l : list A) i x :
  at_index l i = Some x ↔ 0 ≤ i ∧ l !! Z.to_nat i = Some x.
Proof using Type. unfold at_index. destruct (Z.ltb_spec i 0); split; try done; try lia; tauto. Qed.

(** The committed ordinal opens, any other one does not. *)
Lemma honest_verifies d pos p :
  committed digest (perPosition d) (shuffledDeck d) → at_index (perPosition d) pos = Some p →
  position p = pos ∧ shuffledDeck d !! Z.to_nat pos = Some (ordinal p)
  ∧ honestReveal d pos = Ret (outcome p (ordinal p) (commitment p) true honest).
Proof using digest_byte.
  intros [_ Hall] Hp. unfold honestReveal. rewrite Hp. apply at_index_Some in Hp as [H0 Hp].
  destruct (Hall _ _ Hp) as (Hpos & Ho & Hopen & Hcom). rewrite Z2Nat.id in Hpos by done.
  split_and!; [done..|].
  assert (verifyRevealProof digest (commitment p)
    (mkRevealProof (position p) (ordinal p) (cardNonce p) (deckNonce p)) = Ret true) as ->; [|done].
  rewrite Hcom. by apply verifyRevealProof_true.
Qed.

Lemma reveal_each_all d ps :
  committed digest (perPosition d) (shuffledDeck d) →
  Forall (λ pos, 0 ≤ pos < Z.of_nat (length (perPosition d))) ps →
  ∃ rs, reveal_each d ps = Ret rs
    ∧ Forall2 (λ pos r, verifies r = true ∧ o_kind r = honest ∧ o_position r = pos
                        ∧ shuffledDeck d !! Z.to_nat pos = Some (o_ordinal r)) ps rs.
Proof using digest_byte.
  intros Hc. induction 1 as [|pos ps Hpos _ IH]; [by exists []|]. cbn [reveal_each].
  destruct (lookup_lt_is_Some_2 (perPosition d) (Z.to_nat pos)) as [p Hp]; [lia|].
  destruct (honest_verifies d pos p Hc) as (E1 & E2 & ->); [apply at_index_Some; split; [lia|done]|].
  destruct IH as (rs & -> & Hrs). eexists. split; [reflexivity|]. by constructor.
Qed.

(** The simulator.  Once the deck can be built every requested position is revealed
    honestly, in the order asked for, with the card the shuffle put there and a proof that
    verifies - all 52 by default; a forged ordinal at any position never verifies unless it
    exhibits a digest collision. *)
Theorem simulation_sound es n v d positions :
  buildDeck es n v = Ret d →
  Forall (λ pos, 0 ≤ pos < n) (default [] positions) →
  (∃ r, simulateDeck es (Some n) (Some v) positions = Ret r
    ∧ r_shuffledDeck r = shuffledDeck d ∧ r_shuffledDeck r ≡ₚ seqZ 0 n
    ∧ Forall2 (λ pos x, verifies x = true ∧ o_kind x = honest ∧ o_position x = pos
                        ∧ shuffledDeck d !! Z.to_nat pos = Some (o_ordinal x))
        (default (seqZ 0 n) positions) (reveals r))
  ∧ ∀ pos w x, forgeReveal d pos w = Ret x →
      verifies x = false
      ∨ ∃ p, at_index (perPosition d) pos = Some p
         ∧ collides digest (card_preimage (ordinal p) (cardNonce p) (deckNonce p))
                           (card_preimage w (cardNonce p) (deckNonce p)).
Proof using digest_length digest_byte.
  intros Hd Hps. destruct (buildDeck_Ret _ _ _ _ Hd) as (combined & Hb & Hc & Hperm).
  assert (Hlen : length (perPosition d) = Z.to_nat n).
  { destruct Hc as [-> _]. by rewrite Hperm, length_seqZ. }
  split.
  - assert (Hpos : position <$> perPosition d = seqZ 0 n).
    { apply list_eq. intros i. rewrite list_lookup_fmap.
      destruct (perPosition d !! i) as [p|] eqn:E.
      - destruct Hc as [_ Hall]. destruct (Hall i p E) as (Ep & _).
        apply lookup_lt_Some in E. cbn. rewrite Ep. symmetry. apply lookup_seqZ. lia.
      - apply lookup_ge_None in E. symmetry. apply lookup_ge_None. rewrite length_seqZ. lia. }
    destruct (reveal_each_all d (default (seqZ 0 n) positions) Hc) as (rs & E & H).
    { destruct positions as [ps|]; cbn [default] in *.
      - eapply list.Forall_impl; [exact Hps|]. cbn. intros. lia.
      - apply list.Forall_forall. intros x Hx%elem_of_seqZ. lia. }
    eexists. unfold simulateDeck. change (default _ (Some n)) with n. change (default _ (Some v)) with v.
    rewrite Hd. cbn [mbind js_bind]. rewrite Hpos, E. cbn [mbind js_bind]. by split_and!.
  - intros pos w x. unfold forgeReveal. destruct (at_index (perPosition d) pos) as [p|] eqn:Ep; [|done].
    destruct (Z.eqb_spec w (ordinal p)) as [|Hne]; [done|].
    intros (b & Hv & (fc & _ & [= <-])%js_bind_Ret)%js_bind_Ret. cbn [verifies outcome].
    destruct b; [right|by left]. exists p. split; [done|].
    apply at_index_Some in Ep as [_ Ep]. destruct Hc as [_ Hall].
    destruct (Hall _ _ Ep) as (_ & _ & Hopen & Hcom). rewrite Hcom in Hv.
    apply verifyRevealProof_true in Hv as [Hopen' E]; [|done|by apply digest_byte]. cbn in Hopen', E.
    split; [|done]. intros Eq. apply card_preimage_inj in Eq as [Eo _]; [congruence|done|done].
Qed.
End simulate.

Lemma simulation_witness :
  ∃ d, buildDeck zero_digest 1 [to_hex (replicate 32 7)] 52 1 = Ret d
  ∧ (∃ r, simulateDeck zero_digest 1 [to_hex (replicate 32 7)] (Some 52) (Some 1) (Some [51; 0]) = Ret r
    ∧ r_shuffledDeck r = shuffledDeck d ∧ r_shuffledDeck r ≡ₚ seqZ 0 52
    ∧ Forall2 (λ pos x, verifies x = true ∧ o_kind x = honest ∧ o_position x = pos
                        ∧ shuffledDeck d !! Z.to_nat pos = Some (o_ordinal x))
        [51; 0] (reveals r))
  ∧ ∀ pos w x, forgeReveal zero_digest d pos w = Ret x →
      verifies x = false
      ∨ ∃ p, at_index (perPosition d) pos = Some p
         ∧ collides zero_digest (card_preimage (ordinal p) (cardNonce p) (deckNonce p))
                                (card_preimage w (cardNonce p) (deckNonce p)).
Proof.
  destruct (buildDeck zero_digest 1 [to_hex (replicate 32 7)] 52 1) as [d| |] eqn:E;
    [|by vm_compute in E..].
  exists d. split; [done|].
  apply (simulation_sound zero_digest 1 (λ _, eq_refl) zero_digest_byte _ 52 1 d (Some [51; 0]) E).
  cbn. repeat constructor; lia.
Defined.
