(* ===== verification/Cli.v ===== *)
(** * The command lines of the tools

    The argument loop that transcript-verifier, transcript-recorder, tx-simulator,
    deck-simulator and load-test share ([tools/*/src/index.ts], [parseArgs]), and what each of
    them requires and defaults. *)

From stdpp Require Import gmap.
From S2P Require Import Prelude Bytes.

(** [Record<string, string>], read at fixed keys only; assigning a string to [__proto__]
    stores nothing. *)
Abbreviation Flags := (gmap string string) (only parsing).

Definition set_flag (key value : string) (out : Flags) : Flags :=
  if bool_decide (key = "__proto__") then out else <[key := value]> out.

(** [a.startsWith('--')], with [a.slice(2)] *)
Definition flag_key (a : string) : option string :=
  match a with
  | String "-" (String "-" key) => Some key
  | _ => None
  end.

(** The loop over [argv] from index 2 on *)
Fixpoint parse_flags (argv : list string) (out : Flags) : Flags :=
  match argv with
  | [] => out
  | a :: argv =>
    match flag_key a with
    | None => parse_flags argv out
    | Some key =>
      match argv with
      | [] => set_flag key "true" out
      | next :: rest =>
        match flag_key next with
        | Some _ => parse_flags argv (set_flag key "true" out)
        | None => parse_flags rest (set_flag key next out)
        end
      end
    end
  end.

(** [!out[key]]: absent or empty *)
Definition falsy (v : option string) : bool :=
  match v with None | Some EmptyString => true | _ => false end.

(** The decimal digits in front of [us] *)
Fixpoint digits (acc : Z) (us : list Z) : Z :=
  match us with
  | u :: r => if between 48 57 u then digits (10 * acc + (u - 48)) r else acc
  | [] => acc
  end.

(** [parseInt(s, 10)] on code units; [None] is [NaN] *)
Definition parse_units (us : list Z) : option Z :=
  let us := skip_white us in
  let '(sign, us) := match us with 45 :: r => (-1, r) | 43 :: r => (1, r) | _ => (1, us) end in
  match us with
  | u :: _ => if between 48 57 u then Some (sign * js_round (digits 0 us)) else None
  | [] => None
  end.

Definition parse_int10 (s : string) : option Z := parse_units (js_units s).

(** [process.exit] with a status, or the arguments to run with *)
Inductive CliResult (A : Type) : Type :=
  | Exit (status : Z)
  | Run (args : A).
Arguments Exit {A} status.
Arguments Run {A} args.

(** ** transcript-verifier *)

Record VerifierArgs := mkVerifierArgs {
  transcript : string;
  va_gameId : string;
  va_ruleSetHash : string;
  recoveryHeight : option Z
}.

(** ['0'.repeat(64)] *)
Definition zeros64 : string := to_hex (replicate 32 0).

Fixpoint zeros (n : nat) (s : string) : string :=
  match n with O => s | S n => String "0" (zeros n s) end.

(** [s.padStart(64, '0')] *)
Definition pad_start (s : string) : string := zeros (64 - String.length s) s.

Definition verifier_args (argv : list string) : CliResult VerifierArgs :=
  let out := parse_flags argv ∅ in
  if falsy (out !! "transcript") then Exit 2
  else if falsy (out !! "game-id") then Exit 2
  else Run (mkVerifierArgs (default "" (out !! "transcript")) (default "" (out !! "game-id"))
              (default zeros64 (out !! "rule-set-hash"))
              (parse_int10 (default "244" (out !! "recovery-height")))).

(** ** transcript-recorder *)

Record RecorderArgs := mkRecorderArgs { ra_ws : string; ra_gameId : string; ra_out : string }.

Definition recorder_args (argv : list string) : CliResult RecorderArgs :=
  let out := parse_flags argv ∅ in
  if falsy (out !! "ws") || falsy (out !! "game-id") || falsy (out !! "out") then Exit 2
  else Run (mkRecorderArgs (default "" (out !! "ws")) (default "" (out !! "game-id"))
              (default "" (out !! "out"))).

(** ** load-test *)

Record LoadTestArgs := mkLoadTestArgs {
  lt_ws : string;
  lt_gameId : string;
  connections : option Z;
  concurrency : option Z;
  timeoutMs : option Z
}.

Definition load_test_args (argv : list string) : CliResult LoadTestArgs :=
  let out := parse_flags argv ∅ in
  if falsy (out !! "ws") || falsy (out !! "game-id") then Exit 2
  else Run (mkLoadTestArgs (default "" (out !! "ws")) (default "" (out !! "game-id"))
              (parse_int10 (default "20" (out !! "connections")))
              (parse_int10 (default "20" (out !! "concurrency")))
              (parse_int10 (default "10000" (out !! "timeout-ms")))).

(** ** Lemmas *)

(** [--key value] pairs *)
Definition flag_args (kvs : list (string * string)) : list string :=
  mjoin ((λ kv : string * string, ["--" +:+ kv.1; kv.2]) <$> kvs).

Definition plain_value (v : string) : bool := bool_decide (flag_key v = None).

(** Every pair arrives, the last one of a key wins. *)
Lemma parse_flags_pairs kvs out :
  Forall (λ kv : string * string, plain_value kv.2 = true) kvs →
  parse_flags (flag_args kvs) out
  = foldl (λ out (kv : string * string), set_flag kv.1 kv.2 out) out kvs.
Proof.
  intros H. revert out. induction H as [|[k v] kvs Hv _ IH]; intros out; [done|].
  apply bool_decide_eq_true in Hv. cbn [snd] in Hv.
  change (flag_args ((k, v) :: kvs)) with (String "-" (String "-" k) :: v :: flag_args kvs).
  cbn [parse_flags flag_key]. rewrite Hv. apply IH.
Qed.

Lemma verifier_args_given path g :
  plain_value path = true → plain_value g = true → falsy (Some path) = false →
  falsy (Some g) = false →
  verifier_args (flag_args [("transcript", path); ("game-id", g)])
  = Run (mkVerifierArgs path g zeros64 (Some 244)).
Proof.
  intros Hp Hg Fp Fg. unfold verifier_args.
  rewrite parse_flags_pairs by (repeat constructor; done). cbn [foldl fst snd].
  unfold set_flag. rewrite !bool_decide_eq_false_2 by done.
  assert (E : ∀ k, k ≠ "transcript" → k ≠ "game-id" →
    <["game-id":=g]> (<["transcript":=path]> ∅ : Flags) !! k = None).
  { intros k H1 H2. by rewrite !(lookup_insert_ne), lookup_empty. }
  rewrite (E "rule-set-hash"), (E "recovery-height") by done.
  assert (E1 : <["game-id":=g]> (<["transcript":=path]> ∅ : Flags) !! "transcript" = Some path).
  { rewrite (lookup_insert_ne) by done. apply (lookup_insert_eq). }
  assert (E2 : <["game-id":=g]> (<["transcript":=path]> ∅ : Flags) !! "game-id" = Some g).
  { apply (lookup_insert_eq). }
  rewrite E1, E2, Fp, Fg. done.
Qed.
