(* ===== verification/TxSimMain.v ===== *)
(** * tx-simulator: from the command line to the report

    [tools/tx-simulator/src/index.ts]: the candidates that the arguments describe, the winner,
    and the eviction and recovery that [main] plays through; printing is left out. *)

From stdpp Require Import gmap.
From S2P Require Import Prelude Bytes Primitives Tx TxProps Ordering TxSim Cli.

(** [s.split(',')] on code units *)
Fixpoint split_commas (us : list Z) : list (list Z) :=
  match us with
  | [] => [[]]
  | 44 :: us => [] :: split_commas us
  | u :: us => match split_commas us with l :: ls => (u :: l) :: ls | [] => [[u]] end
  end.

(** [parseInt] skips the white space that [trim] takes off in front, and stops before what it
    takes off behind. *)
Definition parse_list (s : string) : list (option Z) := parse_units <$> split_commas (js_units s).

Record TxSimArgs := mkTxSimArgs {
  prev : string;
  vout : option Z;
  bets : list (option Z);
  confirmedIdx : option Z;
  quorumIdx : option Z
}.

(** [args[key] ? parseInt(args[key], 10) : d] *)
Definition int_or (d : Z) (v : option string) : option Z :=
  if falsy v then Some d else parse_int10 (default "" v).

Definition tx_sim_args (argv : list string) : CliResult TxSimArgs :=
  let out := parse_flags argv ∅ in
  if falsy (out !! "prev") || falsy (out !! "bets") then Exit 2
  else Run (mkTxSimArgs (default "" (out !! "prev")) (int_or 0 (out !! "vout"))
              (parse_list (default "" (out !! "bets"))) (int_or (-1) (out !! "confirmed"))
              (int_or (-1) (out !! "quorum"))).

(** [String.fromCharCode(65 + i)]: one code unit, in UTF-8 *)
Definition candidate_letter (i : Z) : string :=
  let u := (65 + i) mod 0x10000 in
  bytes_string
    (if u <? 0x80 then [u]
     else if u <? 0x800 then [0xc0 + u / 64; 0x80 + u mod 64]
     else [0xe0 + u / 4096; 0x80 + u / 64 mod 64; 0x80 + u mod 64]).

Record TxSimReport := mkTxSimReport {
  rep_candidates : list BuiltCandidate;
  winner : BuiltCandidate;
  eviction_detected : bool;
  rep_rebroadcast : bool;
  pending : list string
}.

Section main.
Context (sha256 : bytes → bytes).

(** The candidates from index [i] on.  [NaN] encodes as output 0, and [BigInt(NaN)] throws once
    the previous id has been read. *)
Fixpoint build_candidates (args : TxSimArgs) (i : Z) (bets : list (option Z))
  : js (list BuiltCandidate) :=
  match bets with
  | [] => Ret []
  | bet :: bets =>
    c ← match bet with
        | None => _ ← hexToBytes (prev args); Throw "RangeError"
        | Some v =>
          buildBetCandidate sha256
            (mkBetCandidateSpec (candidate_letter i) (prev args) (default 0 (vout args)) v None
               (Some (bool_decide (quorumIdx args = Some i)))
               (Some (bool_decide (confirmedIdx args = Some i))))
        end;
    cs ← build_candidates args (i + 1) bets;
    Ret (c :: cs)
  end.

Definition tx_sim_main (args : TxSimArgs) : js TxSimReport :=
  candidates ← build_candidates args 0 (bets args);
  winner ← resolveConflict candidates;
  let mp := foldl (λ mp c, mp_add c mp) (∅ : gmap string BsvTransaction) candidates in
  let mp := (mp_evict (candidate_txidHex winner) mp).2 in
  let '(rb, mp) := rebroadcastIfEvicted mp winner in
  Ret (mkTxSimReport candidates winner (wasEvicted rb) (rebroadcast rb) (mp_list mp)).

(** ** What the report says *)

Lemma mp_list_has mp id : id ∈ mp_list mp ↔ mp_has id mp = true.
Proof using Type.
  unfold mp_list, js_sort, mp_has. rewrite merge_sort_Permutation, bool_decide_eq_true, list_elem_of_fmap.
  split.
  - intros ([k v] & -> & H%elem_of_map_to_list). by eexists.
  - intros [v H]. exists (id, v). split; [done|]. by apply elem_of_map_to_list.
Qed.

Lemma mp_evict_eq id mp : (mp_evict id mp).2 !! id = None.
Proof using Type. exact (lookup_delete_eq (M:=gmap string) mp _). Qed.

Lemma mp_evict_ne id id' mp : id' ≠ id → (mp_evict id mp).2 !! id' = mp !! id'.
Proof using Type. intros H. exact (lookup_delete_ne (M:=gmap string) mp _ _ (not_eq_sym H)). Qed.

Lemma mp_adds_has cs mp id :
  mp_has id (foldl (λ mp c, mp_add c mp) mp cs) = true
  ↔ id ∈ (candidate_txidHex <$> cs) ∨ mp_has id mp = true.
Proof using Type.
  revert mp. induction cs as [|c cs IH]; intros mp; cbn [foldl fmap list_fmap].
  { split; [by right|]. by intros [?%elem_of_nil|]. }
  rewrite IH, elem_of_cons. unfold mp_has at 1. rewrite bool_decide_eq_true.
  destruct (decide (id = candidate_txidHex c)) as [->|Hne].
  - rewrite mp_add_eq. naive_solver.
  - rewrite mp_add_ne by done. unfold mp_has. rewrite bool_decide_eq_true. naive_solver.
Qed.

Lemma resolveConflict_in cs w : resolveConflict cs = Ret w → w ∈ cs.
Proof using Type.
  destruct cs as [|c cs]; [done|]. unfold resolveConflict. cbv zeta.
  destruct (find_candidate _ (c :: cs)) as [w'|] eqn:E; [|done]. intros [= ->].
  unfold find_candidate in E. apply fmap_Some in E as ([i x] & E & ->).
  apply list_find_Some in E as (E & _). by eapply list_elem_of_lookup_2.
Qed.

(** The run ends as the code says it does: one of the candidates wins, the eviction of its
    transaction is noticed and repaired, and the mempool then holds exactly the ids of all
    candidates, each once and in order. *)
Theorem tx_sim_main_recovers args r :
  tx_sim_main args = Ret r →
  length (rep_candidates r) = length (bets args) ∧ winner r ∈ rep_candidates r
  ∧ eviction_detected r = true ∧ rep_rebroadcast r = true
  ∧ NoDup (pending r) ∧ StronglySorted js_str_le (pending r)
  ∧ ∀ id, id ∈ pending r ↔ id ∈ (candidate_txidHex <$> rep_candidates r).
Proof using Type.
  unfold tx_sim_main. intros (cs & Hcs & (w & Hw & H)%js_bind_Ret)%js_bind_Ret.
  assert (Hlen : ∀ l i cs, build_candidates args i l = Ret cs → length cs = length l).
  { clear. induction l as [|b l IH]; intros i cs; [by intros [= <-]|].
    intros (c & _ & (cs' & Hcs & [= <-])%js_bind_Ret)%js_bind_Ret. cbn. f_equal. by eapply IH. }
  apply Hlen in Hcs. apply resolveConflict_in in Hw as Hin.
  set (mp := foldl _ _ _) in H. unfold rebroadcastIfEvicted in H.
  assert (Hev : mp_has (candidate_txidHex w) (mp_evict (candidate_txidHex w) mp).2 = false).
  { unfold mp_has. rewrite mp_evict_eq. by apply bool_decide_eq_false_2; intros [? ?]. }
  rewrite Hev in H. injection H as <-. cbn [rep_candidates winner eviction_detected rep_rebroadcast pending wasEvicted rebroadcast].
  split_and!; try done.
  - unfold mp_list, js_sort. rewrite merge_sort_Permutation. apply NoDup_fst_map_to_list.
  - apply StronglySorted_merge_sort; apply _.
  - intros id. rewrite mp_list_has. unfold mp_has. rewrite bool_decide_eq_true.
    destruct (decide (id = candidate_txidHex w)) as [->|Hne].
    + rewrite mp_add_eq. split; [intros _|by eexists]. by apply list_elem_of_fmap_2.
    + rewrite mp_add_ne by done.
      match goal with |- is_Some ?x ↔ _ => change x with ((mp_evict (candidate_txidHex w) mp).2 !! id) end.
      rewrite mp_evict_ne by done.
      assert (Ha : is_Some (mp !! id) ↔ id ∈ (candidate_txidHex <$> cs)).
      { pose proof (mp_adds_has cs ∅ id) as Ha. unfold mp_has in Ha. rewrite !bool_decide_eq_true in Ha.
        etransitivity; [exact Ha|]. split; [|by left]. by intros [?|[? [=]]]. }
      exact Ha.
Qed.
End main.

(** A run with two bets, the second seen by the quorum *)
Example tx_sim_run :
  match tx_sim_main toy_sha (mkTxSimArgs (to_hex (replicate 32 7)) (Some 0) [Some 10; Some 20] (Some (-1)) (Some 1)) with
  | Ret r => (candidateId (winner r), eviction_detected r, length (pending r)) = ("B", true, 2%nat)
  | _ => False
  end.
Proof. by vm_compute. Qed.
