(* ===== verification/Verifier.v ===== *)
(** * transcript-verifier: auditing a transcript

    [tools/transcript-verifier/src/index.ts].  Reading the file and [JSON.parse] of a line are
    parameters; everything between the lines and the printed summary is here. *)

From stdpp Require Import gmap.
From S2P Require Import Prelude Bytes Primitives ShuffleProps Types Serialise Engine EngineSpec EngineSafety Replay ReplayProps Cli.

(** ** Loading *)

(** [raw.split('\n')] on code units *)
Fixpoint split_lines (us : list Z) : list (list Z) :=
  match us with
  | [] => [[]]
  | 10 :: us => [] :: split_lines us
  | u :: us => match split_lines us with l :: ls => (u :: l) :: ls | [] => [[u]] end
  end.

(** [line.trim()] *)
Definition trim (us : list Z) : list Z := reverse (skip_white (reverse (skip_white us))).

Section audit.
Context (parse_action : list Z → js SignedAction).

Fixpoint load_lines (lines : list (list Z)) : js (list SignedAction) :=
  match lines with
  | [] => Ret []
  | line :: lines =>
    match trim line with
    | [] => load_lines lines
    | t => a ← parse_action t; rest ← load_lines lines; Ret (a :: rest)
    end
  end.

Definition loadActions (raw : list Z) : js (list SignedAction) := load_lines (split_lines raw).
End audit.

(** ** The rules every audit uses *)

Definition defaultRuleSet : RuleSet :=
  mkRuleSet in_between 2 4 1000 1 100 6 144 18 [("S8_BET_DECISION", "pass")]
    (mkPenaltySchedule 100 200 50 100) 52 1 (mkSettlementRules 1 1 50 100)
    (mkRecoveryRules true true true) 1.

(** ** The audit *)

Record AuditSummary := mkAuditSummary {
  final_state_class : StateClass;
  final_round_number : Z;
  final_pot_value : Z;
  final_player_count : Z;
  final_combined_entropy : option Hash256;
  final_deck_commitment : option Hash256;
  final_state_hash : Hash256;
  transcript_actions_count : Z
}.

(** A rejection names the index and type of the action and the error; both it and an exception
    end the process with status 1. *)
Inductive AuditOutcome : Type :=
  | Accepted (s : AuditSummary)
  | Rejected (i : Z) (t : ActionType) (e : ProtocolError).

Section main.
Context (digest : bytes → bytes) (fuel : nat).

Fixpoint audit_loop (i : Z) (actions : list SignedAction) (state : RoundState)
  : js (RoundState + Z * ActionType * ProtocolError) :=
  match actions with
  | [] => Ret (inl state)
  | a :: actions =>
    h ← asBlockHeight 100;
    r ← verifyAndApply digest fuel state a defaultRuleSet h;
    match r with
    | Err e => Ret (inr (i, action_type a, e))
    | Ok next => audit_loop (i + 1) actions next
    end
  end.

Definition summarise (state : RoundState) (count : Z) : js AuditSummary :=
  h ← computeStateHash digest state;
  Ret (mkAuditSummary (state_class state) (round_number state) (pot_value state)
         (Z.of_nat (length (players state))) (combined_entropy state)
         (deck_commitment_hash state) h count).

Definition audit (parse_action : list Z → js SignedAction) (args : VerifierArgs) (raw : list Z)
  : js AuditOutcome :=
  actions ← loadActions parse_action raw;
  g ← asGameId (va_gameId args);
  r ← asRuleSetHash (va_ruleSetHash args);
  d ← match recoveryHeight args with
      | Some n => asBlockHeight n
      | None => Throw "asBlockHeight: expected integer in [0, 5e8), got NaN"
      end;
  res ← audit_loop 0 actions (initialState g r d);
  match res with
  | inr (i, t, e) => Ret (Rejected i t e)
  | inl state => s ← summarise state (Z.of_nat (length actions)); Ret (Accepted s)
  end.

(** ** What an audit establishes *)

Context (digest_byte : ∀ b, Forall is_byte (digest b)).

Lemma height_at_100 i : height_at [100] i = Some 100.
Proof using Type.
  unfold height_at, at_index. destruct (i <? 0); [done|].
  destruct (Z.to_nat i) as [|n]; [done|]. by destruct n.
Qed.

Lemma audit_loop_accepts i acts s t :
  audit_loop i acts s = Ret (inl t)
  ↔ replay_loop "replayWithVerification"
      (λ s a h, verifyAndApply digest fuel s a defaultRuleSet h) [100] i acts s = Ret (Ok t).
Proof using Type.
  revert i s. induction acts as [|a acts IH]; intros i s; cbn [audit_loop replay_loop].
  { split; intros [= ->]; done. }
  rewrite height_at_100. change (asBlockHeight 100) with (Ret 100). cbn [mbind js_bind].
  destruct (verifyAndApply digest fuel s a defaultRuleSet 100) as [[n|e]| |]; cbn [mbind js_bind];
    [apply IH|done..].
Qed.

(** A rejection stops at the first action the gate refuses. *)
Lemma audit_loop_rejects i acts s j t e :
  audit_loop i acts s = Ret (inr (j, t, e)) →
  ∃ pre a post s', acts = pre ++ a :: post ∧ j = i + Z.of_nat (length pre)
    ∧ t = action_type a ∧ audit_loop i pre s = Ret (inl s')
    ∧ verifyAndApply digest fuel s' a defaultRuleSet 100 = Ret (Err e).
Proof using Type.
  revert i s. induction acts as [|a acts IH]; intros i s; cbn [audit_loop]; [done|].
  change (asBlockHeight 100) with (Ret 100). cbn [mbind js_bind].
  destruct (verifyAndApply digest fuel s a defaultRuleSet 100) as [[n|e']| |] eqn:E;
    cbn [mbind js_bind]; [|intros [= <- <- <-]|done..].
  - intros (pre & b & post & s' & -> & -> & Ht & Hpre & Hb)%IH.
    exists (a :: pre), b, post, s'. split_and!; [done|cbn [length]; lia|done| |done].
    cbn [audit_loop]. change (asBlockHeight 100) with (Ret 100). cbn [mbind js_bind].
    by rewrite E.
  - exists [], a, acts, s. split_and!; [done|cbn; lia|done..].
Qed.

(** The keys of the [Join]s of a transcript *)
Definition joined (acts : list SignedAction) : list Pubkey33 :=
  mjoin ((λ a, match payload a with JoinAction pk _ => [pk] | _ => [] end) <$> acts).

Lemma transition_ids rs h s act a s' :
  transition rs h s act a s' →
  player_id <$> players s'
  = (player_id <$> players s) ++ match a with JoinAction pk _ => [pk] | _ => [] end.
Proof using Type.
  intros H. destruct H; rewrite ?app_nil_r; try done;
    try by (eapply (at_seat_fmap player_id); [eassumption|]).
  - exact (fmap_app player_id (players s) [new_player seat' pk (stake_amount rs)]).
  - by eapply (settled_fmap player_id); [|eassumption].
Qed.

(** The players are those who joined, in their order. *)
Lemma trace_ids rs g r d acts s :
  is_sats (stake_amount rs) → trace rs g r d acts s → player_id <$> players s = joined acts.
Proof using Type.
  intros Hst. induction 1 as [|acts s a h s' Ht IH Hs|acts s ce dch hh Ht IH]; [done| |exact IH].
  apply (session_transition rs g r d Hst) in Hs; [|by eexists].
  rewrite (transition_ids _ _ _ _ _ _ Hs), IH. unfold joined.
  rewrite fmap_app, join_app. cbn [fmap list_fmap mjoin list_join]. by rewrite app_nil_r.
Qed.

Lemma replay_trace g r rs d acts hs s :
  replayWithVerification digest fuel g r rs d acts hs = Ret (Ok s) → trace rs g r d acts s.
Proof using digest_byte.
  intros H. revert H. unfold replayWithVerification.
  apply (replay_loop_ind (trace rs g r d)) with (done := []); [|constructor].
  intros pre s0 a h s' Ht (n & ce & dch & Hn & ->)%verifyAndApply_applyAction; [|done].
  rewrite <- stamp_restamp. apply trace_stamp. by eapply trace_step.
Qed.

Lemma defaultRuleSet_stake : is_sats (stake_amount defaultRuleSet).
Proof using Type. by split. Qed.

Lemma audit_Ret parse_action args raw o :
  audit parse_action args raw = Ret o →
  ∃ acts d, loadActions parse_action raw = Ret acts
    ∧ match o with
      | Accepted sm => ∃ s,
          replayWithVerification digest fuel (va_gameId args) (va_ruleSetHash args)
            defaultRuleSet d acts [100] = Ret (Ok s)
          ∧ summarise s (Z.of_nat (length acts)) = Ret sm
      | Rejected i t e => audit_loop 0 acts
          (initialState (va_gameId args) (va_ruleSetHash args) d) = Ret (inr (i, t, e))
      end.
Proof using Type.
  unfold audit. intros (acts & Hacts & H)%js_bind_Ret.
  apply js_bind_Ret in H as (g & Hg & H). apply js_bind_Ret in H as (r & Hr & H).
  apply js_bind_Ret in H as (d & _ & H). apply js_bind_Ret in H as (res & Hres & H).
  assert (g = va_gameId args) as -> by (unfold asGameId in Hg; destruct (is_hex_n _ _); naive_solver).
  assert (r = va_ruleSetHash args) as ->
    by (unfold asRuleSetHash in Hr; destruct (is_hex_n _ _); naive_solver).
  exists acts, d. split; [done|]. destruct res as [s|[[i t] e]].
  - apply js_bind_Ret in H as (sm & Hsm & [= <-]). exists s. split; [|done].
    by apply audit_loop_accepts.
  - by injection H as <-.
Qed.

(** C39: what an audit says.  An accepted transcript is one that replays through the verifying
    gate, and the summary is that of the state it leads to: its hash, class, round, entropy and deck,
    one player per [Join], and a pot that adds up with the stakes to what was paid in.  A rejection names the first action the gate
    refuses, with the gate's error. *)
Theorem audit_faithful parse_action args raw o :
  audit parse_action args raw = Ret o →
  ∃ acts d, loadActions parse_action raw = Ret acts
    ∧ match o with
      | Accepted sm => ∃ s,
          replayWithVerification digest fuel (va_gameId args) (va_ruleSetHash args)
            defaultRuleSet d acts [100] = Ret (Ok s)
          ∧ computeStateHash digest s = Ret (final_state_hash sm)
          ∧ final_state_class sm = state_class s
          ∧ final_round_number sm = round_number s
          ∧ final_combined_entropy sm = combined_entropy s
          ∧ final_deck_commitment sm = deck_commitment_hash s
          ∧ final_player_count sm = Z.of_nat (length (joined acts))
          ∧ final_pot_value sm + sum (stake_at_risk <$> players s) = sum (deposit <$> acts)
          ∧ transcript_actions_count sm = Z.of_nat (length acts)
      | Rejected i t e => ∃ pre a post s',
          acts = pre ++ a :: post ∧ i = Z.of_nat (length pre) ∧ t = action_type a
          ∧ replayWithVerification digest fuel (va_gameId args) (va_ruleSetHash args)
              defaultRuleSet d pre [100] = Ret (Ok s')
          ∧ verifyAndApply digest fuel s' a defaultRuleSet 100 = Ret (Err e)
      end.
Proof using digest_byte.
  intros (acts & d & Hacts & H)%audit_Ret. exists acts, d. split; [done|].
  destruct o as [sm|i t e].
  - destruct H as (s & Hr & Hsm). exists s. split; [done|].
    unfold summarise in Hsm. apply js_bind_Ret in Hsm as (h & Hh & [= <-]).
    cbn [final_state_hash final_state_class final_round_number final_combined_entropy
         final_deck_commitment final_player_count final_pot_value transcript_actions_count]. apply replay_trace in Hr.
    pose proof (trace_ids _ _ _ _ _ _ defaultRuleSet_stake Hr) as Hids.
    split_and!; [done|done|done|done|done| |exact (trace_total _ _ _ _ defaultRuleSet_stake _ _ Hr)|done].
    by rewrite <- Hids, length_fmap.
  - apply audit_loop_rejects in H as (pre & a & post & s' & -> & -> & -> & Hpre & Ha).
    exists pre, a, post, s'. split_and!; [done|lia|done| |done].
    by apply audit_loop_accepts in Hpre.
Qed.

(** [applyJoin] makes the 66-character key the player id and the state hash takes only 64
    characters, so a state in which a compressed key has joined cannot be summarised. *)
Lemma summarise_players s n sm :
  Forall (λ p, is_pubkey33 (player_id p) = true) (players s) → players s ≠ [] →
  summarise s n ≠ Ret sm.
Proof using Type.
  intros Hkeys Hne Hsm. destruct (players s) as [|p ps] eqn:Eps; [done|].
  apply list.Forall_cons in Hkeys as [Hp _].
  unfold summarise in Hsm. apply js_bind_Ret in Hsm as (h & Hh & _).
  unfold computeStateHash in Hh. apply js_bind_Ret in Hh as (b & Hb & _).
  revert Hb. apply (encodeRoundState_bad_player s p); [rewrite Eps; by left|].
  apply is_pubkey33_length in Hp. lia.
Qed.

(** No audit with players succeeds: the hash of the final state throws, so an audit of a
    transcript in which a compressed key joins is never accepted. *)
Theorem audit_never_accepts_players parse_action args raw acts :
  loadActions parse_action raw = Ret acts →
  Forall (λ pk, is_pubkey33 pk = true) (joined acts) → joined acts ≠ [] →
  ∀ sm, audit parse_action args raw ≠ Ret (Accepted sm).
Proof using digest_byte.
  intros Hacts Hkeys Hne sm (acts' & d & Hacts' & s & Hr & Hsm)%audit_Ret.
  assert (acts' = acts) as -> by congruence.
  apply replay_trace in Hr. pose proof (trace_ids _ _ _ _ _ _ defaultRuleSet_stake Hr) as Hids.
  revert Hsm. apply summarise_players.
  - by rewrite <- Hids, Forall_fmap in Hkeys.
  - intros E. by rewrite E in Hids; rewrite <- Hids in Hne.
Qed.
End main.

(** ** Two audits under a constant digest *)

(** One line per action; a line is its index. *)
Definition audit_actions (acts : list SignedAction) (line : list Z) : js SignedAction :=
  match line with
  | [c] => match acts !! Z.to_nat (c - 65) with Some a => Ret a | None => Throw "SyntaxError" end
  | _ => Throw "SyntaxError"
  end.

Definition lines_of (n : nat) : list Z := mjoin ((λ i, [65 + Z.of_nat i; 10]) <$> seq 0 n).

Definition audit_args : VerifierArgs := mkVerifierArgs "t" (hx 1) zeros64 (Some 100).

Definition join_1000 (b : Z) : SignedAction := v_act None (JoinAction ("02" +:+ hx b) 1000).
Definition bad_reveal : SignedAction := v_act (Some 0) (EntropyRevealAction (hx 9)).

(** A recovery out of the empty table is accepted; a reveal at the wrong time is rejected. *)
Lemma audit_faithful_witness :
  ∃ o, audit zero_digest 1 (audit_actions [v_act None (RecoveryAction "x"); bad_reveal]) audit_args
         (lines_of 1) = Ret o
  ∧ ∃ acts d, loadActions (audit_actions [v_act None (RecoveryAction "x"); bad_reveal]) (lines_of 1)
              = Ret acts
    ∧ match o with
      | Accepted sm => ∃ s,
          replayWithVerification zero_digest 1 (va_gameId audit_args) (va_ruleSetHash audit_args)
            defaultRuleSet d acts [100] = Ret (Ok s)
          ∧ computeStateHash zero_digest s = Ret (final_state_hash sm)
          ∧ final_state_class sm = state_class s
          ∧ final_round_number sm = round_number s
          ∧ final_combined_entropy sm = combined_entropy s
          ∧ final_deck_commitment sm = deck_commitment_hash s
          ∧ final_player_count sm = Z.of_nat (length (joined acts))
          ∧ final_pot_value sm + sum (stake_at_risk <$> players s) = sum (deposit <$> acts)
          ∧ transcript_actions_count sm = Z.of_nat (length acts)
      | Rejected _ _ _ => False
      end.
Proof.
  destruct (audit zero_digest 1 (audit_actions [v_act None (RecoveryAction "x"); bad_reveal])
              audit_args (lines_of 1)) as [o| |] eqn:E; [|by vm_compute in E..].
  exists o. split; [done|].
  destruct (audit_faithful zero_digest 1 zero_digest_byte _ audit_args _ o E) as (acts & d & Ha & H).
  exists acts, d. split; [exact Ha|]. destruct o; [exact H|by vm_compute in E].
Defined.

Lemma audit_never_accepts_witness :
  let acts := [join_1000 5; join_1000 6] in
  joined acts = ["02" +:+ hx 5; "02" +:+ hx 6]
  ∧ is_throw (audit zero_digest 1 (audit_actions acts) audit_args (lines_of 2)) = true
  ∧ ∀ sm, audit zero_digest 1 (audit_actions acts) audit_args (lines_of 2) ≠ Ret (Accepted sm).
Proof.
  intros acts. split; [done|]. split; [by vm_compute|].
  apply (audit_never_accepts_players zero_digest 1 zero_digest_byte _ _ _ acts).
  - by vm_compute.
  - repeat constructor; by vm_compute.
  - done.
Defined.
