(* ===== verification/DeckSimMain.v ===== *)
(** * deck-simulator: from the command line to the result

    [tools/deck-simulator/src/index.ts]: what the arguments ask for, and the simulation of
    [DeckSim] on it; a number that does not parse is [NaN].  Printing is left out. *)

From stdpp Require Import gmap.
From S2P Require Import Prelude Bytes Primitives Crypto Shuffle ShuffleProps Deck Serialise Cli Verifier TxSimMain DeckSim.

(** The options passed to [simulateDeck]; an option that is not given is left out. *)
Record DeckSimArgs := mkDeckSimArgs {
  entropiesHex : list string;
  deckSize : option (option Z);
  shuffleAlgorithmVersion : option (option Z);
  positions : option (list (option Z))
}.

(** [s.split(',').map((s) => s.trim())] *)
Definition trimmed_parts (s : string) : list (list Z) := trim <$> split_commas (js_units s).

(** [args[key] ? { ...: f(args[key]) } : {}] *)
Definition given {A} (v : option string) (f : string → A) : option A :=
  if falsy v then None else Some (f (default "" v)).

Definition deck_sim_args (argv : list string) : CliResult DeckSimArgs :=
  let args := parse_flags argv ∅ in
  if falsy (args !! "entropies") then Exit 2
  else Run (mkDeckSimArgs
    (filter (λ s, s ≠ ""%string) (units_string <$> trimmed_parts (default "" (args !! "entropies"))))
    (given (args !! "deck-size") parse_int10) (given (args !! "algo") parse_int10)
    (given (args !! "positions") (λ s, parse_units <$> trimmed_parts s))).

Section main.
Context (digest : bytes → bytes) (fuel : nat).

(** [buildDeck] with numbers that may be [NaN], which is neither version 1 nor a deck size *)
Definition build_deck_of (es : list string) (size version : option Z) : js DeckCommitment :=
  match size, version with
  | Some n, Some v => buildDeck digest fuel es n v
  | _, _ =>
    if Z.of_nat (length es) =? 0
    then Throw "buildDeck: at least one entropy contribution is required"
    else
      bs ← from_hex_each es;
      _ ← combineEntropy digest bs;
      match version with
      | None => Throw "buildDeckCommitment: unsupported shuffle algorithm version NaN"
      | Some v =>
        if negb (v =? 1)
        then Throw ("buildDeckCommitment: unsupported shuffle algorithm version " +:+ pretty v)
        else Throw "shuffleCanonicalDeck: unsupported deckSize NaN"
      end
  end.

(** The loop over the positions *)
Fixpoint reveal_all (dc : DeckCommitment) (positions : list (option Z)) : js (list RevealOutcome) :=
  match positions with
  | [] => Ret []
  | p :: positions =>
    r ← match p with
        | Some pos => honestReveal digest dc pos
        | None => Throw "honestReveal: position NaN out of range"
        end;
    rs ← reveal_all dc positions;
    Ret (r :: rs)
  end.

(** [main] from the arguments to the object it prints *)
Definition deck_sim_main (args : DeckSimArgs) : js DeckSimResult :=
  let size := default (Some DEFAULT_DECK_SIZE) (deckSize args) in
  let algo := default (Some DEFAULT_ALGO) (shuffleAlgorithmVersion args) in
  dc ← build_deck_of (entropiesHex args) size algo;
  rs ← reveal_all dc (default (Some <$> (Deck.position <$> perPosition dc)) (positions args));
  Ret (mkDeckSimResult (toHex (combinedEntropy dc)) (toHex (deckCommitmentHash dc)) (default 0 size)
         (default 0 algo) (shuffledDeck dc) rs).

Lemma reveal_all_each dc ps : reveal_all dc (Some <$> ps) = reveal_each digest dc ps.
Proof using Type.
  induction ps as [|p ps IH]; [done|]. cbn [fmap list_fmap reveal_all reveal_each].
  apply js_bind_ext. intros r. by rewrite <- IH.
Qed.

(** On numbers [main] is [simulateDeck]. *)
Lemma deck_sim_main_numbers es (n v : option Z) (ps : option (list Z)) :
  deck_sim_main (mkDeckSimArgs es (option_map Some n) (option_map Some v) (option_map (fmap Some) ps))
  = simulateDeck digest fuel es n v ps.
Proof using Type.
  unfold deck_sim_main, simulateDeck. cbn [entropiesHex deckSize shuffleAlgorithmVersion positions].
  destruct n as [n|], v as [v|], ps as [ps|]; cbn [option_map from_option];
    apply js_bind_ext; intros dc; rewrite <- reveal_all_each; done.
Qed.

(** A size or version that does not parse never gives a result. *)
Lemma deck_sim_main_nan args :
  deckSize args = Some None ∨ shuffleAlgorithmVersion args = Some None →
  is_ret (deck_sim_main args) = false.
Proof using Type.
  intros H. unfold deck_sim_main.
  assert (Hb : ∀ d, build_deck_of (entropiesHex args) (default (Some DEFAULT_DECK_SIZE) (deckSize args))
      (default (Some DEFAULT_ALGO) (shuffleAlgorithmVersion args)) ≠ Ret d).
  { intros d E. unfold build_deck_of in E.
    destruct H as [H|H]; rewrite H in E; cbn [default from_option id] in E;
      repeat case_match; try done; apply js_bind_Ret in E as (? & _ & (? & _ & E)%js_bind_Ret);
      repeat case_match; done. }
  destruct (build_deck_of _ _ _) as [d| |]; [by destruct (Hb d)|done..].
Qed.
End main.

(** White space around the parts is dropped, and so are empty parts. *)
Example deck_sim_args_parts :
  deck_sim_args ["--entropies"; " 0a, ,0b,"; "--positions"; "1, x"; "--algo"; ""]
  = Run (mkDeckSimArgs ["0a"; "0b"] None None (Some [Some 1; None])).
Proof. by vm_compute. Qed.
