(* ===== verification/Recorder.v ===== *)
(** * transcript-recorder: a scripted session and its transcript

    [tools/transcript-recorder/src/index.ts]: the actions it submits, how it takes the relay's
    replies for their fate, and the transcript it writes.  The relay is the list of frames
    received so far; JSON of an error body and SHA-256 are parameters.  The theorem: whatever
    it records replays through the verifying gate. *)

From S2P Require Import Prelude Bytes Primitives Crypto Shuffle ShuffleProps Deck Tx Wire Types Engine EngineSpec EngineSafety Replay ReplayProps Cli Verifier.

(** ** The script *)

Definition PLAYER_IDS : list string := [to_hex (replicate 32 1); to_hex (replicate 32 3)].
Definition PUBKEYS : list string := (λ p, "02" +:+ p) <$> PLAYER_IDS.
Definition ENTROPIES : list string := [to_hex (replicate 32 2); to_hex (replicate 32 4)].

Definition recorder_nonce (nonceCounter : Z) : string := pad_start (toString16 nonceCounter).

(** The [n]-th action submitted *)
Definition rec_action (gameId : string) (n : Z) (who : option Seat) (p : ActionPayload)
  : SignedAction :=
  mkSignedAction (mkSignedActionBase gameId 0 zeros64 (recorder_nonce n) who "sig" zeros64) p.

Section script.
Context (digest : bytes → bytes) (fuel : nat).

(** [Promise.all(ENTROPIES.map(async (e, i) => ...))] *)
Fixpoint commit_each (gameId : bytes) (es ids : list string) : js (list string) :=
  match es, ids with
  | e :: es, p :: ids =>
    eb ← fromHex e;
    pb ← fromHex p;
    c ← commitEntropy digest eb pb gameId;
    cs ← commit_each gameId es ids;
    Ret (toHex c :: cs)
  | _, _ => Ret []
  end.

Fixpoint each_fromHex (l : list string) : js (list bytes) :=
  match l with
  | [] => Ret []
  | s :: l => b ← fromHex s; bs ← each_fromHex l; Ret (b :: bs)
  end.

(** The reveal of a deck position, always as the two of clubs *)
Definition card_reveal (dc : DeckCommitment) (pos : nat) : js ActionPayload :=
  match perPosition dc !! pos with
  | None => Throw "TypeError"
  | Some p =>
    Ret (CardRevealAction (mkRevealProof (Deck.position p) (mkRevealedCard R2 clubs (Deck.ordinal p))
                             (toHex (cardNonce p)) (toHex (deckNonce p))))
  end.

(** The actions of [main] with their labels, in the order it submits them; a deck of 52 has the
    three positions revealed. *)
Definition recorder_script (gameId : string) : js (list (string * SignedAction)) :=
  gameIdBytes ← fromHex gameId;
  commitments ← commit_each gameIdBytes ENTROPIES PLAYER_IDS;
  entropies ← each_fromHex ENTROPIES;
  combined ← combineEntropy digest entropies;
  dc ← buildDeckCommitment digest fuel combined 52 1;
  r0 ← card_reveal dc 0;
  r1 ← card_reveal dc 1;
  r2 ← card_reveal dc 2;
  let nth l i := default "" (l !! i) in
  let act := rec_action gameId in
  Ret [("Join seat 0", act 1 (Some 0) (JoinAction (nth PUBKEYS 0%nat) 1000));
       ("Join seat 1", act 2 (Some 1) (JoinAction (nth PUBKEYS 1%nat) 1000));
       ("TableLock", act 3 None TableLockAction);
       ("EntropyCommit seat 0", act 4 (Some 0) (EntropyCommitAction (nth commitments 0%nat)));
       ("EntropyCommit seat 1", act 5 (Some 1) (EntropyCommitAction (nth commitments 1%nat)));
       ("EntropyReveal seat 0", act 6 (Some 0) (EntropyRevealAction (nth ENTROPIES 0%nat)));
       ("EntropyReveal seat 1", act 7 (Some 1) (EntropyRevealAction (nth ENTROPIES 1%nat)));
       ("CardReveal pos 0", act 8 None r0);
       ("CardReveal pos 1", act 9 None r1);
       ("BetAction", act 10 (Some 0) (BetAction_ 10));
       ("CardReveal pos 2", act 11 None r2);
       ("Settle", act 12 (Some 0) SettleAction)].
End script.

(** ** The session *)

Definition is_reply (f : Frame) : bool :=
  (type f =? msg_code TableState) || (type f =? msg_code ErrorReply).

(** The first reply after the cursor; [indexOf] compares frames by identity, so a frame is its
    index. *)
Fixpoint find_reply (cursor idx : Z) (received : list Frame) : option (Z * Frame) :=
  match received with
  | [] => None
  | f :: received =>
    if (cursor <? idx) && is_reply f then Some (idx, f) else find_reply cursor (idx + 1) received
  end.

(** Waiting for the reply to the action with a label; a rejection, which ends the process with
    status 1; an error body that does not parse, which does so too; or the transcript written *)
Inductive Recording : Type :=
  | Awaiting (label : string) (transcript : list SignedAction)
  | Refused (label code context : string)
  | Fatal (msg : string)
  | Recorded (transcript : list SignedAction).

(** [submit] for the actions still to come, after the frames received so far.  [received] only
    grows and a wait ends with the first match, so the outcome depends on nothing else. *)
Fixpoint drive (parse_error : bytes → js (string * string)) (received : list Frame) (cursor : Z)
    (transcript : list SignedAction) (script : list (string * SignedAction)) : Recording :=
  match script with
  | [] => Recorded transcript
  | (label, action) :: script =>
    let transcript := transcript ++ [action] in
    match find_reply cursor 0 received with
    | None => Awaiting label transcript
    | Some (idx, frame) =>
      if type frame =? msg_code ErrorReply then
        match parse_error (Wire.payload frame) with
        | Ret (code, context) => Refused label code context
        | Throw msg => Fatal msg
        | OutOfFuel => Awaiting label transcript
        end
      else drive parse_error received idx transcript script
    end
  end.

(** [main], once connected; an exception ends the process with status 1. *)
Definition recorder (digest : bytes → bytes) (fuel : nat) (parse_error : bytes → js (string * string))
    (gameId : string) (received : list Frame) : js Recording :=
  script ← recorder_script digest fuel gameId;
  Ret (drive parse_error received (-1) [] script).

(** ** What it records *)

Lemma drive_Recorded parse_error received cursor pre script t :
  drive parse_error received cursor pre script = Recorded t → t = pre ++ (snd <$> script).
Proof.
  revert cursor pre. induction script as [|[l a] script IH]; intros cursor pre; cbn [drive].
  { intros [= <-]. by rewrite app_nil_r. }
  destruct (find_reply _ _ _) as [[i f]|]; [|done]. destruct (_ =? _).
  - by destruct (parse_error _) as [[??]| |].
  - intros ->%IH. by rewrite <- app_assoc.
Qed.

Section gate.
Context (digest : bytes → bytes) (fuel : nat).
Context (digest_length : ∀ b, length (digest b) = 32%nat).
Context (digest_byte : ∀ b, Forall is_byte (digest b)).
Context (h : BlockHeight).

Abbreviation gate s a := (verifyAndApply digest fuel s a defaultRuleSet h).
Abbreviation gated acts i s :=
  (replay_loop "replayWithVerification" (λ st a h, verifyAndApply digest fuel st a defaultRuleSet h)
     [h] i acts s).

Lemma height_at_single i : height_at [h] i = Some h.
Proof using Type.
  unfold height_at, at_index. destruct (i <? 0); [done|].
  destruct (Z.to_nat i) as [|n]; [done|]. by destruct n.
Qed.

Lemma gated_cons i a acts s s' :
  gate s a = Ret (Ok s') → gated (a :: acts) i s = gated acts (i + 1) s'.
Proof using Type. intros E. cbn [replay_loop]. rewrite height_at_single. by rewrite E. Qed.

(** An action that does not complete the entropy *)
Lemma gate_step s a next :
  authentic digest fuel s defaultRuleSet a →
  applyAction s a defaultRuleSet h = Ret (Ok next) → enters_deck s next = false →
  gate s a = Ret (Ok next).
Proof using digest_byte.
  intros Ha Hn He. apply (gate_accepts digest fuel digest_byte). split; [done|]. exists next.
  by rewrite He.
Qed.

Ltac compute_step :=
  unfold applyAction; rewrite bool_decide_eq_true_2 by reflexivity; lazy; reflexivity.
Ltac plain_step := erewrite gated_cons; [|apply gate_step; [exact I|compute_step|reflexivity]].

(** The nonces of a deck are digests. *)
Lemma positions_bytes combined dn i0 shuffled cs i c :
  Forall is_byte dn → commit_positions digest combined dn i0 shuffled = Ret cs → cs !! i = Some c →
  Forall is_byte (cardNonce c) ∧ Forall is_byte (deckNonce c).
Proof using digest_byte.
  intros Hdn. revert i0 cs i. induction shuffled as [|o shuffled IH]; intros i0 cs i; [by intros [= <-]|].
  intros (cn & Hcn & (x & _ & (rest & Hr & [= <-])%js_bind_Ret)%js_bind_Ret)%js_bind_Ret.
  destruct i as [|i]; [|exact (IH _ _ i Hr)]. intros [= <-]. split; [|done].
  unfold deriveCardNonce in Hcn. apply js_bind_Ret in Hcn as (t & _ & (n & _ & [= <-])%js_bind_Ret).
  apply digest_byte.
Qed.

Lemma deck_bytes combined n v dc i c :
  buildDeckCommitment digest fuel combined n v = Ret dc → perPosition dc !! i = Some c →
  Forall is_byte (cardNonce c) ∧ Forall is_byte (deckNonce c).
Proof using digest_byte.
  unfold buildDeckCommitment. destruct (negb _); [done|].
  intros (sh & _ & (dn & Hdn & (pp & Hpp & (x & _ & (y & _ & [= <-])%js_bind_Ret)%js_bind_Ret)%js_bind_Ret)%js_bind_Ret)%js_bind_Ret.
  cbn [perPosition]. intros Hc. eapply (positions_bytes _ dn); [|exact Hpp|exact Hc].
  unfold deriveDeckNonce in Hdn. apply js_bind_Ret in Hdn as (t & _ & [= <-]). apply digest_byte.
Qed.

(** The reveal of a position, shown as the two of clubs *)
Definition shown (p : Deck.CardCommitment) : RevealProof :=
  mkRevealProof (Deck.position p) (mkRevealedCard R2 clubs (Deck.ordinal p))
    (toHex (cardNonce p)) (toHex (deckNonce p)).

Lemma card_authentic s a dc combined pos p :
  combined_entropy s = Some (toHex combined) → Forall is_byte combined →
  buildDeckCommitment digest fuel combined 52 1 = Ret dc → perPosition dc !! pos = Some p →
  payload a = CardRevealAction (shown p) → authentic digest fuel s defaultRuleSet a.
Proof using digest_byte.
  intros Hce Hb Hd Hp Ha. unfold authentic. rewrite Ha.
  destruct (deck_bytes _ _ _ _ _ _ Hd Hp) as [Hcn Hdn].
  pose proof Hd as (_ & _ & _ & _ & [_ Hall] & _)%buildDeckCommitment_Ret.
  destruct (Hall _ _ Hp) as (Hpos & _ & Hop & Hcom).
  exists dc, p, (cardNonce p), (deckNonce p), (toHex combined), combined.
  cbn [rp_position rp_card_nonce rp_deck_nonce revealed_card ordinal shown].
  rewrite Hpos, Nat2Z.id, !fromHex_toHex by done. split_and!; try done. lia.
Qed.

Section play.
Context (g rh : string) (d : BlockHeight) (gb : bytes).
Context (game_bytes : fromHex g = Ret gb) (game_length : length gb = 32%nat).

Abbreviation act := (rec_action g).
Abbreviation key i := (default "" (PUBKEYS !! i)).
Abbreviation entropy i := (default "" (ENTROPIES !! i)).

(** The tables of the session *)
Definition seated (k : Z) (st : ParticipationStatus) (c e : option Hash256) : PlayerState :=
  mkPlayerState k (key (Z.to_nat k)) (key (Z.to_nat k)) st 1000 None
    (bool_decide (is_Some c)) c (bool_decide (is_Some e)) e [] [].

Definition table (sc : StateClass) (acting : option Seat) (ps : list PlayerState) (pot : Z)
    (cards : list RevealedCard) (ce dch : option Hash256) : RoundState :=
  mkRoundState sc g rh 0 acting ps pot cards [] (getLegalActions sc) None (Some d) [] ce dch None
    (Some ZERO_HASH) ZERO_HASH.

Lemma opening_gated c0 c1 acts :
  is_hex_n 64 c0 = true → is_hex_n 64 c1 = true →
  gated (act 1 (Some 0) (JoinAction (key 0%nat) 1000) :: act 2 (Some 1) (JoinAction (key 1%nat) 1000)
         :: act 3 None TableLockAction :: act 4 (Some 0) (EntropyCommitAction c0)
         :: act 5 (Some 1) (EntropyCommitAction c1) :: acts) 0 (initialState g rh d)
  = gated acts 5 (table S4_ENTROPY_REVEAL_WINDOW None
                    [seated 0 Types.joined (Some c0) None; seated 1 Types.joined (Some c1) None] 0 [] None None).
Proof using digest_byte.
  intros H0 H1. plain_step. plain_step. plain_step.
  erewrite gated_cons; [|apply gate_step; [exact H0|compute_step|reflexivity]].
  erewrite gated_cons; [|apply gate_step; [exact H1|compute_step|reflexivity]].
  reflexivity.
Qed.

(** A commitment of the script opens. *)
Lemma script_commit_opens s k c e p eb pb :
  find (λ p, seat p =? k) (players s) = Some p → game_id s = g →
  entropy_commitment_hash p = Some c → value_signing_pubkey p = key (Z.to_nat k) →
  fromHex (key (Z.to_nat k)) = Ret (2 :: pb) → length pb = 32%nat →
  is_hex_n 64 e = true → fromHex e = Ret eb → length eb = 32%nat →
  fromHex c = Ret (digest (entropy_preimage eb pb gb)) →
  opens_commitment digest s (Some k) e eb pb gb.
Proof using game_bytes game_length.
  intros Hf Hg Hc Hk Hpk Hpb He Heb Hle Ho. exists k, p, c, (2 :: pb). rewrite Hk, Hg.
  split_and!; try done; unfold blen, key_tail; cbn [length]; [lia|].
  by rewrite Hpb.
Qed.

Lemma asHash256_digest b : Forall is_byte b → length b = 32%nat → asHash256 (toHex b) = Ret (toHex b).
Proof using Type.
  intros Hb Hl. unfold asHash256, toHex. by rewrite (is_hex_n_of_bytes 32 b Hb Hl : is_hex_n 64 _ = true).
Qed.

Abbreviation revealed c0 c1 :=
  [seated 0 active (Some c0) (Some (entropy 0%nat)); seated 1 active (Some c1) (Some (entropy 1%nat))].

Lemma materialise_table ps combined dc :
  collect_entropies (merge_sort seat_le ps) = Ret (Some [replicate 32 2; replicate 32 4]) →
  combineEntropy digest [replicate 32 2; replicate 32 4] = Ret combined →
  buildDeckCommitment digest fuel combined 52 1 = Ret dc →
  materialiseDeckCommitment digest fuel (table S5_DECK_COMMITTED None ps 0 [] None None) defaultRuleSet
  = Ret (table S5_DECK_COMMITTED None ps 0 [] (Some (toHex combined))
           (Some (toHex (deckCommitmentHash dc)))).
Proof using digest_byte digest_length.
  intros He Hc Hd. unfold materialiseDeckCommitment. cbn [players table]. rewrite He.
  cbn [mbind js_bind]. rewrite Hc. cbn [mbind js_bind].
  change (deck_format defaultRuleSet) with 52. change (shuffle_algorithm_version defaultRuleSet) with 1.
  rewrite Hd. cbn [mbind js_bind].
  apply combineEntropy_Ret in Hc as (_ & _ & v & _ & ->).
  apply buildDeckCommitment_Ret in Hd as (_ & _ & _ & _ & _ & Eh).
  rewrite Eh, !asHash256_digest by done. done.
Qed.

Lemma reveals_gated c0 c1 combined dc acts :
  fromHex c0 = Ret (digest (entropy_preimage (replicate 32 2) (replicate 32 1) gb)) →
  fromHex c1 = Ret (digest (entropy_preimage (replicate 32 4) (replicate 32 3) gb)) →
  combineEntropy digest [replicate 32 2; replicate 32 4] = Ret combined →
  buildDeckCommitment digest fuel combined 52 1 = Ret dc →
  gated (act 6 (Some 0) (EntropyRevealAction (entropy 0%nat))
         :: act 7 (Some 1) (EntropyRevealAction (entropy 1%nat)) :: acts) 5
    (table S4_ENTROPY_REVEAL_WINDOW None
       [seated 0 Types.joined (Some c0) None; seated 1 Types.joined (Some c1) None] 0 [] None None)
  = gated acts 7 (table S5_DECK_COMMITTED None (revealed c0 c1) 0 [] (Some (toHex combined))
                    (Some (toHex (deckCommitmentHash dc)))).
Proof using digest_byte digest_length game_bytes game_length.
  intros H0 H1 Hc Hd.
  rewrite (gated_cons 5 _ _ _ (table S4_ENTROPY_REVEAL_WINDOW None
    [seated 0 active (Some c0) (Some (entropy 0%nat)); seated 1 Types.joined (Some c1) None] 0 [] None None)).
  2: { apply gate_step; [|compute_step|reflexivity]. exists (replicate 32 2), (replicate 32 1), gb.
       eapply (script_commit_opens _ 0 c0); [reflexivity..| | |by vm_compute|by vm_compute|done|exact H0]; by vm_compute. }
  rewrite (gated_cons 6 _ _ _ (table S5_DECK_COMMITTED None (revealed c0 c1) 0 [] (Some (toHex combined))
                    (Some (toHex (deckCommitmentHash dc))))); [done|].
  apply (gate_accepts digest fuel digest_byte). split.
  { exists (replicate 32 4), (replicate 32 3), gb.
    eapply (script_commit_opens _ 1 c1); [reflexivity..| | |by vm_compute|by vm_compute|done|exact H1]; by vm_compute. }
  exists (table S5_DECK_COMMITTED None (revealed c0 c1) 0 [] None None). split; [compute_step|].
  match goal with |- context [enters_deck ?x ?y] => change (enters_deck x y) with true end.
  cbv iota. apply materialise_table; [by vm_compute|done..].
Qed.

Abbreviation hand ps := ((λ p, mkRevealedCard R2 clubs (Deck.ordinal p)) <$> (ps : list Deck.CardCommitment)).

Ltac card_step dc combined pos p :=
  erewrite gated_cons;
    [|apply gate_step; [apply (card_authentic _ _ dc combined pos p); (done || by cbn; f_equal)|compute_step|reflexivity]].

Lemma cards_gated c0 c1 ce combined dc dch p0 p1 p2 acts :
  ce = toHex combined → Forall is_byte combined → buildDeckCommitment digest fuel combined 52 1 = Ret dc →
  perPosition dc !! 0%nat = Some p0 → perPosition dc !! 1%nat = Some p1 →
  perPosition dc !! 2%nat = Some p2 →
  gated (act 8 None (CardRevealAction (shown p0)) :: act 9 None (CardRevealAction (shown p1))
         :: act 10 (Some 0) (BetAction_ 10) :: act 11 None (CardRevealAction (shown p2)) :: acts) 7
    (table S5_DECK_COMMITTED None (revealed c0 c1) 0 [] (Some ce) dch)
  = gated acts 11 (table S10_SETTLED_ROUND (Some 0) (revealed c0 c1) 10 (hand [p0; p1; p2])
                     (Some ce) dch).
Proof using digest_byte.
  intros Hce Hb Hd H0 H1 H2.
  card_step dc combined 0%nat p0. card_step dc combined 1%nat p1. plain_step.
  card_step dc combined 2%nat p2. reflexivity.
Qed.

(** Any three cards settle. *)
Lemma settle_gated c0 c1 ce dch p0 p1 p2 :
  ∃ s, gated [act 12 (Some 0) SettleAction] 11
         (table S10_SETTLED_ROUND (Some 0) (revealed c0 c1) 10 (hand [p0; p1; p2]) ce dch)
       = Ret (Ok s)
    ∧ state_class s = S11_ROTATE_TURN ∧ visible_cards s = hand [p0; p1; p2]
    ∧ pot_value s + sum (stake_at_risk <$> players s) = 2010.
Proof using digest_byte.
  set (t := table _ _ _ _ _ _ _).
  assert (∃ o w, classifyInBetweenRound (visible_cards t) = Ret (o, w)) as (o & w & Ho).
  { unfold classifyInBetweenRound. cbn [visible_cards t table fmap list_fmap length]. repeat case_match; try done; by eexists _, _. }
  assert (∃ s, applySettle t defaultRuleSet = Ret (Ok s) ∧ enters_deck t s = false
    ∧ state_class s = S11_ROTATE_TURN ∧ visible_cards s = hand [p0; p1; p2]
    ∧ pot_value s + sum (stake_at_risk <$> players s) = 2010) as (s & Hs & He & H).
  { unfold applySettle. rewrite Ho. destruct o; (eexists; split; [lazy; reflexivity|split_and!; by vm_compute]). }
  exists s. split; [|exact H]. rewrite (gated_cons 11 _ _ _ s); [done|]. apply gate_step; [exact I| |exact He].
  unfold applyAction. rewrite bool_decide_eq_true_2 by reflexivity. exact Hs.
Qed.
End play.

Lemma commit_each_script gb :
  length gb = 32%nat →
  let c e p := toHex (digest (entropy_preimage (replicate 32 e) (replicate 32 p) gb)) in
  commit_each digest gb ENTROPIES PLAYER_IDS = Ret [c 2 1; c 4 3].
Proof using Type.
  intros Hg c. assert (∀ e p : Z, length (replicate 32 e) = 32%nat ∧ length (replicate 32 p) = 32%nat
    ∧ length gb = 32%nat) as Hl by done.
  unfold ENTROPIES, PLAYER_IDS. cbn [commit_each].
  rewrite !(fromHex_toHex (replicate 32 _)) by (by vm_compute; repeat constructor).
  cbn [mbind js_bind]. rewrite !(proj2 (commitEntropy_Ret digest _ _ gb _) (conj (Hl _ _) eq_refl)).
  done.
Qed.

(** The actions submitted *)
Definition game_actions (g c0 c1 : string) (p0 p1 p2 : Deck.CardCommitment) : list SignedAction :=
  let act := rec_action g in
  [act 1 (Some 0) (JoinAction (default "" (PUBKEYS !! 0%nat)) 1000);
   act 2 (Some 1) (JoinAction (default "" (PUBKEYS !! 1%nat)) 1000);
   act 3 None TableLockAction; act 4 (Some 0) (EntropyCommitAction c0);
   act 5 (Some 1) (EntropyCommitAction c1);
   act 6 (Some 0) (EntropyRevealAction (default "" (ENTROPIES !! 0%nat)));
   act 7 (Some 1) (EntropyRevealAction (default "" (ENTROPIES !! 1%nat)));
   act 8 None (CardRevealAction (shown p0)); act 9 None (CardRevealAction (shown p1));
   act 10 (Some 0) (BetAction_ 10); act 11 None (CardRevealAction (shown p2));
   act 12 (Some 0) SettleAction].

Lemma card_reveal_Ret dc pos r :
  card_reveal dc pos = Ret r →
  ∃ p, perPosition dc !! pos = Some p ∧ r = CardRevealAction (shown p).
Proof using Type.
  unfold card_reveal. destruct (perPosition dc !! pos) as [p|]; [|done]. intros [= <-]. by exists p.
Qed.

Lemma script_shape gameId script :
  is_hex_n 64 gameId = true → recorder_script digest fuel gameId = Ret script →
  ∃ gb combined dc p0 p1 p2,
    let c e p := toHex (digest (entropy_preimage (replicate 32 e) (replicate 32 p) gb)) in
    fromHex gameId = Ret gb ∧ length gb = 32%nat
    ∧ combineEntropy digest [replicate 32 2; replicate 32 4] = Ret combined
    ∧ buildDeckCommitment digest fuel combined 52 1 = Ret dc
    ∧ perPosition dc !! 0%nat = Some p0 ∧ perPosition dc !! 1%nat = Some p1
    ∧ perPosition dc !! 2%nat = Some p2
    ∧ snd <$> script = game_actions gameId (c 2 1) (c 4 3) p0 p1 p2.
Proof using Type.
  intros (gb & -> & Hl & Hb)%(is_hex_n_to_hex 32). unfold recorder_script.
  pose proof (fromHex_toHex gb Hb : fromHex (to_hex gb) = Ret gb) as Hgb. rewrite Hgb.
  cbn [mbind js_bind]. rewrite (commit_each_script gb Hl).
  cbn [mbind js_bind].
  assert (each_fromHex ENTROPIES = Ret [replicate 32 2; replicate 32 4]) as -> by by vm_compute.
  cbn [mbind js_bind]. intros (combined & Hc & (dc & Hd & H)%js_bind_Ret)%js_bind_Ret.
  apply js_bind_Ret in H as (r0 & (p0 & H0 & ->)%card_reveal_Ret & H).
  apply js_bind_Ret in H as (r1 & (p1 & H1 & ->)%card_reveal_Ret & H).
  apply js_bind_Ret in H as (r2 & (p2 & H2 & ->)%card_reveal_Ret & [= <-]).
  exists gb, combined, dc, p0, p1, p2. by split_and!.
Qed.

(** The recorder.  Whatever it records for a table with a valid id - that is, once the relay
    has answered every action with a state - replays through the verifying gate to a settled
    first round: both players joined, three cards were shown, and pot and stakes are 10 more
    than was paid in, the bet.  All three cards claim to be the two of clubs, whatever was
    dealt; the gate looks at their ordinals only. *)
Lemma recorded_transcript_replays parse_error gameId received t rh d :
  is_hex_n 64 gameId = true →
  recorder digest fuel parse_error gameId received = Ret (Recorded t) →
  Verifier.joined t = PUBKEYS
  ∧ ∃ s, replayWithVerification digest fuel gameId rh defaultRuleSet d t [h] = Ret (Ok s)
    ∧ state_class s = S11_ROTATE_TURN ∧ length (visible_cards s) = 3%nat
    ∧ Forall (λ c, rank c = R2 ∧ suit c = clubs) (visible_cards s)
    ∧ pot_value s + sum (stake_at_risk <$> players s) = 2010.
Proof using digest_length digest_byte.
  intros Hg (script & Hs & [= ->%drive_Recorded])%js_bind_Ret. cbn [app].
  destruct (script_shape _ _ Hg Hs) as (gb & combined & dc & p0 & p1 & p2 & Hgb & Hl & Hc & Hd
    & H0 & H1 & H2 & ->). split; [done|].
  destruct (settle_gated gameId rh d (toHex (digest (entropy_preimage (replicate 32 2) (replicate 32 1) gb)))
    (toHex (digest (entropy_preimage (replicate 32 4) (replicate 32 3) gb))) (Some (toHex combined))
    (Some (toHex (deckCommitmentHash dc))) p0 p1 p2) as (s & Hs' & Hclass & Hcards & Htotal).
  exists s. split; [|split_and!; [done|by rewrite Hcards|rewrite Hcards; by repeat constructor|done]].
  assert (Hb : Forall is_byte combined) by (apply combineEntropy_Ret in Hc as (_ & _ & v & _ & ->); done).
  unfold replayWithVerification, game_actions.
  rewrite opening_gated by (by apply (is_hex_n_of_bytes 32)).
  rewrite (reveals_gated gameId rh d gb Hgb Hl _ _ combined dc) by (rewrite ?fromHex_toHex; done).
  rewrite (cards_gated gameId rh d _ _ _ combined dc) by done. exact Hs'.
Qed.
End gate.

(** Twelve states from the relay *)
Definition state_frame : Frame := mkFrame VERSION_1_0 (msg_code TableState) [].

Lemma recorded_transcript_witness :
  ∃ t, recorder zero_digest 1 (λ _, Throw "") (hx 1) (replicate 12 state_frame) = Ret (Recorded t)
  ∧ Verifier.joined t = PUBKEYS
  ∧ ∃ s, replayWithVerification zero_digest 1 (hx 1) zeros64 defaultRuleSet 244 t [100] = Ret (Ok s)
    ∧ state_class s = S11_ROTATE_TURN ∧ length (visible_cards s) = 3%nat
    ∧ Forall (λ c, rank c = R2 ∧ suit c = clubs) (visible_cards s)
    ∧ pot_value s + sum (stake_at_risk <$> players s) = 2010.
Proof.
  destruct (recorder zero_digest 1 (λ _, Throw "") (hx 1) (replicate 12 state_frame)) as [[| | |t]| |]
    eqn:E; [by vm_compute in E..| |by vm_compute in E|by vm_compute in E]. exists t. split; [done|].
  exact (recorded_transcript_replays zero_digest 1 (λ _, eq_refl) zero_digest_byte 100 _ (hx 1) _ t
           zeros64 244 eq_refl E).
Defined.
