(* ===== verification/RecorderSession.v ===== *)
(** * transcript-recorder: the live session

    [tools/transcript-recorder/src/index.ts], [open] and [main] as they run: frames arrive at any
    time, a promise waits for the first frame that fits, and [main] goes from one [await] to the
    next.  [Recorder] says what the outcome is for the frames received; here it is what the
    running program comes to. *)

From S2P Require Import Prelude Bytes Primitives Crypto ShuffleProps Types Serialise Replay ReplayProps Tx Wire Cli Recorder.

(** ** LiveClient *)

Section client.
Context {W : Type}.

(** A predicate is asked with the index of the frame in [received], since the one the recorder
    uses looks it up by identity; [resolve] is named by who waits for it. *)
Record Waiter := mkWaiter { predicate : Z → Frame → bool; resolve : W }.

Record LiveClient := mkLiveClient { received : list Frame; waiters : list Waiter }.

Definition open_client : LiveClient := mkLiveClient [] [].

(** [received.find(predicate)], from an index on *)
Fixpoint find_frame (p : Z → Frame → bool) (idx : Z) (fs : list Frame) : option (Z * Frame) :=
  match fs with
  | [] => None
  | f :: fs => if p idx f then Some (idx, f) else find_frame p (idx + 1) fs
  end.

(** A frame that is there already resolves at once; otherwise the caller waits. *)
Definition next (p : Z → Frame → bool) (w : W) (c : LiveClient) : LiveClient * option (Z * Frame) :=
  match find_frame p 0 (received c) with
  | Some r => (c, Some r)
  | None => (mkLiveClient (received c) (waiters c ++ [mkWaiter p w]), None)
  end.

(** The loop over the waiters, from the last to the first: those that stay, and those resolved
    in the order in which they are *)
Fixpoint serve (idx : Z) (f : Frame) (ws : list Waiter) : list Waiter * list W :=
  match ws with
  | [] => ([], [])
  | w :: ws =>
    let '(kept, done) := serve idx f ws in
    if predicate w idx f then (kept, done ++ [resolve w]) else (w :: kept, done)
  end.

(** A decoded frame, with its index *)
Definition on_frame (f : Frame) (c : LiveClient) : LiveClient * Z * list W :=
  let idx := Z.of_nat (length (received c)) in
  let '(kept, done) := serve idx f (waiters c) in
  (mkLiveClient (received c ++ [f]) kept, idx, done).

(** Whoever waits has not been sent a frame that fits. *)
Definition client_ok (c : LiveClient) : Prop :=
  Forall (λ w, find_frame (predicate w) 0 (received c) = None) (waiters c).

Lemma find_frame_app p i fs gs :
  find_frame p i (fs ++ gs)
  = match find_frame p i fs with
    | Some r => Some r
    | None => find_frame p (i + Z.of_nat (length fs)) gs
    end.
Proof using Type.
  revert i. induction fs as [|f fs IH]; intros i; cbn [find_frame app length].
  { by rewrite Z.add_0_r. }
  destruct (p i f); [done|]. rewrite IH. by replace (i + 1 + Z.of_nat (length fs)) with (i + Z.of_nat (S (length fs))) by lia.
Qed.

(** A frame resolves the waiters it fits and leaves the others. *)
Lemma serve_spec idx f ws :
  serve idx f ws = (filter (λ w, predicate w idx f = false) ws,
                    reverse (resolve <$> filter (λ w, predicate w idx f = true) ws)).
Proof using Type.
  induction ws as [|w ws IH]; [done|]. cbn [serve]. rewrite IH.
  destruct (predicate w idx f) eqn:E.
  - rewrite filter_cons_False, filter_cons_True by congruence. by rewrite fmap_cons, reverse_cons.
  - by rewrite filter_cons_True, filter_cons_False by congruence.
Qed.

Lemma next_ok p w c : client_ok c → client_ok (next p w c).1.
Proof using Type.
  intros H. unfold next. destruct (find_frame p 0 (received c)) eqn:E; [done|].
  unfold client_ok. cbn. apply list.Forall_app. split; [done|]. by constructor.
Qed.

Lemma on_frame_ok f c : client_ok c → client_ok (on_frame f c).1.1.
Proof using Type.
  unfold on_frame, client_ok. rewrite serve_spec. cbn. rewrite !list.Forall_forall.
  intros H w [Hw Hin]%list_elem_of_filter. rewrite find_frame_app, (H w Hin), Z.add_0_l. cbn.
  by rewrite Hw.
Qed.
End client.
Arguments Waiter W : clear implicits.
Arguments LiveClient W : clear implicits.

(** ** main *)

(** Where [main] is: before the connection is open, encoding the action it is about to send,
    waiting for the reply to it, or at its end *)
Inductive Proc : Type :=
  | Connecting
  | Sending (label : string) (action : SignedAction) (script : list (string * SignedAction))
  | Waiting (label : string) (script : list (string * SignedAction))
  | Ended (r : Recording).

Record Session := mkSession {
  client : LiveClient unit;
  cursor : Z;
  transcript : list SignedAction;
  sent : list SignedAction;
  proc : Proc
}.

Definition new_session : Session := mkSession open_client (-1) [] [] Connecting.

Inductive SessionEvent : Type :=
  | E_open
  | E_error (message : string)
  | E_frame (f : Frame)
  | E_undecodable
  | E_sent
  | E_send_fails (message : string).

Definition set_proc (p : Proc) (s : Session) : Session :=
  mkSession (client s) (cursor s) (transcript s) (sent s) p.
Definition set_client (c : LiveClient unit) (s : Session) : Session :=
  mkSession c (cursor s) (transcript s) (sent s) (proc s).

(** The predicate of [awaitOk] *)
Definition reply_after (cursor : Z) : Z → Frame → bool := λ idx f, (cursor <? idx) && is_reply f.

Section main.
Context (parse_error : bytes → js (string * string)).

(** The next [submit] up to its first [await], or the end of the script *)
Definition submit (script : list (string * SignedAction)) (s : Session) : Session :=
  match script with
  | [] => set_proc (Ended (Recorded (transcript s))) s
  | (label, action) :: script =>
    mkSession (client s) (cursor s) (transcript s ++ [action]) (sent s) (Sending label action script)
  end.

(** [awaitOk] after its [await], and on to the next one *)
Definition replied (label : string) (script : list (string * SignedAction)) (r : Z * Frame)
    (s : Session) : Session :=
  let '(idx, frame) := r in
  let s := mkSession (client s) idx (transcript s) (sent s) (proc s) in
  if type frame =? msg_code ErrorReply then
    match parse_error (Wire.payload frame) with
    | Ret (code, context) => set_proc (Ended (Refused label code context)) s
    | Throw msg => set_proc (Ended (Fatal msg)) s
    | OutOfFuel => set_proc (Ended (Awaiting label (transcript s))) s
    end
  else submit script s.

(** [awaitOk] once its action is sent *)
Definition awaitOk (label : string) (script : list (string * SignedAction)) (s : Session) : Session :=
  match next (reply_after (cursor s)) tt (client s) with
  | (c, Some r) => replied label script r (set_client c s)
  | (c, None) => set_proc (Waiting label script) (set_client c s)
  end.

(** One event; what [main] does before its next [await] is part of it. *)
Definition session_event (script : list (string * SignedAction)) (e : SessionEvent) (s : Session)
  : Session :=
  match e with
  | E_open => submit script s
  | E_error msg =>
    match proc s with Connecting => set_proc (Ended (Fatal msg)) s | _ => s end
  | E_undecodable => s
  | E_frame f =>
    let '(c, idx, resolved) := on_frame f (client s) in
    let s := set_client c s in
    match resolved, proc s with
    | _ :: _, Waiting label script => replied label script (idx, f) s
    | _, _ => s
    end
  | E_sent =>
    match proc s with
    | Sending label action script =>
      awaitOk label script
        (mkSession (client s) (cursor s) (transcript s) (sent s ++ [action]) (proc s))
    | _ => s
    end
  | E_send_fails msg => set_proc (Ended (Fatal msg)) s
  end.

(** A socket opens once and delivers afterwards; a process that has ended sees nothing. *)
Definition session_enabled (e : SessionEvent) (s : Session) : bool :=
  match e, proc s with
  | _, Ended _ => false
  | (E_open | E_error _), Connecting => true
  | E_open, _ => false
  | _, Connecting => false
  | (E_sent | E_send_fails _), Waiting _ _ => false
  | _, _ => true
  end.

(** Sessions that events lead to, with the events *)
Inductive session_reach (script : list (string * SignedAction)) : list SessionEvent → Session → Prop :=
  | session_init : session_reach script [] new_session
  | session_step es s e :
      session_reach script es s → session_enabled e s = true →
      session_reach script (es ++ [e]) (session_event script e s).
End main.

(** ** What the program decides by

    The [k]-th reply of all that arrive decides the [k]-th action, whoever caused it. *)
Fixpoint verdicts (parse_error : bytes → js (string * string)) (transcript : list SignedAction)
    (script : list (string * SignedAction)) (replies : list Frame) : Recording :=
  match script with
  | [] => Recorded transcript
  | (label, action) :: script =>
    let transcript := transcript ++ [action] in
    match replies with
    | [] => Awaiting label transcript
    | f :: replies =>
      if type f =? msg_code ErrorReply then
        match parse_error (Wire.payload f) with
        | Ret (code, context) => Refused label code context
        | Throw msg => Fatal msg
        | OutOfFuel => Awaiting label transcript
        end
      else verdicts parse_error transcript script replies
    end
  end.

Section props.
Context (parse_error : bytes → js (string * string)).

Abbreviation replies_of fs := (filter (λ f, is_reply f = true) fs).

(** The replies with an index above the cursor *)
Fixpoint unread (cursor idx : Z) (fs : list Frame) : list Frame :=
  match fs with
  | [] => []
  | f :: fs => if (cursor <? idx) && is_reply f then f :: unread cursor (idx + 1) fs
               else unread cursor (idx + 1) fs
  end.

Lemma unread_all cursor idx fs : cursor < idx → unread cursor idx fs = replies_of fs.
Proof using Type.
  revert idx. induction fs as [|f fs IH]; intros idx H; [done|]. cbn [unread].
  rewrite (proj2 (Z.ltb_lt _ _) H), IH by lia. cbn [andb].
  destruct (is_reply f) eqn:E; [by rewrite filter_cons_True|by rewrite filter_cons_False by congruence].
Qed.

Lemma unread_app cursor idx fs gs :
  unread cursor idx (fs ++ gs) = unread cursor idx fs ++ unread cursor (idx + Z.of_nat (length fs)) gs.
Proof using Type.
  revert idx. induction fs as [|f fs IH]; intros idx; cbn [unread app length]; [by rewrite Z.add_0_r|].
  rewrite IH. replace (idx + 1 + Z.of_nat (length fs)) with (idx + Z.of_nat (S (length fs))) by lia.
  by destruct (_ && _).
Qed.

Lemma unread_none cursor idx fs : idx + Z.of_nat (length fs) ≤ cursor + 1 → unread cursor idx fs = [].
Proof using Type.
  revert idx. induction fs as [|f fs IH]; intros idx H; [done|]. cbn [unread length] in *.
  rewrite (proj2 (Z.ltb_ge cursor idx)) by lia. cbn [andb]. apply IH. lia.
Qed.

(** Finding a reply reads the first unread one and moves the cursor behind it. *)
Lemma find_unread cursor idx fs :
  match find_frame (reply_after cursor) idx fs with
  | None => unread cursor idx fs = []
  | Some (i, f) => idx ≤ i < idx + Z.of_nat (length fs) ∧ unread cursor idx fs = f :: unread i idx fs
  end.
Proof using Type.
  revert idx. induction fs as [|f fs IH]; intros idx; [done|].
  cbn [find_frame unread length]. unfold reply_after at 1.
  destruct ((cursor <? idx) && is_reply f) eqn:E.
  - split; [lia|]. rewrite Z.ltb_irrefl. cbn [andb]. apply andb_true_iff in E as [E _].
    apply Z.ltb_lt in E. by rewrite !unread_all by lia.
  - specialize (IH (idx + 1)). destruct (find_frame _ _ _) as [[i g]|]; [|done].
    destruct IH as [Hi ->]. split; [lia|]. by rewrite (proj2 (Z.ltb_ge i idx)) by lia.
Qed.

(** The function on the frames received is the abstract one on the replies among them. *)
Lemma drive_verdicts fs cursor pre script :
  drive parse_error fs cursor pre script = verdicts parse_error pre script (unread cursor 0 fs).
Proof using Type.
  revert cursor pre. induction script as [|[l a] script IH]; intros cursor pre; [done|].
  cbn [drive verdicts].
  assert (∀ c i gs, find_reply c i gs = find_frame (reply_after c) i gs) as ->.
  { intros c i gs. revert i. induction gs as [|g gs IHg]; intros i; [done|]. cbn [find_reply find_frame].
    rewrite IHg. done. }
  pose proof (find_unread cursor 0 fs) as H. destruct (find_frame _ _ _) as [[i f]|].
  - destruct H as [_ ->]. destruct (_ =? _); [done|]. apply IH.
  - by rewrite H.
Qed.

(** ** The invariant of a session *)

Definition io_failure (es : list SessionEvent) (r : Recording) : Prop :=
  ∃ msg, r = Fatal msg ∧ (E_error msg ∈ es ∨ E_send_fails msg ∈ es).

(** Resuming at the action being sent, or after it, is as good as starting over, whatever
    replies are still to come. *)
Definition proc_ok (script : list (string * SignedAction)) (es : list SessionEvent) (s : Session)
  : Prop :=
  let rs := received (client s) in
  let resumes pre label action rest unread := ∀ more,
    verdicts parse_error [] script (replies_of rs ++ more)
    = verdicts parse_error pre ((label, action) :: rest) (unread ++ more) in
  match proc s with
  | Connecting => s = new_session
  | Sending label action rest =>
    waiters (client s) = [] ∧ transcript s = sent s ++ [action]
    ∧ snd <$> script = transcript s ++ (snd <$> rest)
    ∧ resumes (sent s) label action rest (unread (cursor s) 0 rs)
  | Waiting label rest =>
    waiters (client s) = [mkWaiter (reply_after (cursor s)) tt] ∧ transcript s = sent s
    ∧ snd <$> script = transcript s ++ (snd <$> rest)
    ∧ unread (cursor s) 0 rs = []
    ∧ ∃ pre action, transcript s = pre ++ [action] ∧ resumes pre label action rest []
  | Ended r =>
    sent s `prefix_of` (snd <$> script)
    ∧ ((∀ more, verdicts parse_error [] script (replies_of rs ++ more) = r) ∨ io_failure es r)
  end.

Definition session_ok (script : list (string * SignedAction)) (es : list SessionEvent) (s : Session)
  : Prop :=
  cursor s < Z.of_nat (length (received (client s)))
  ∧ (length (transcript s) + length (unread (cursor s) 0 (received (client s)))
     ≤ S (length (replies_of (received (client s)))))%nat
  ∧ (length (sent s) ≤ length (transcript s))%nat
  ∧ proc_ok script es s.

(** A reply takes the program to its next action or to its end. *)
Lemma replied_ok script es s label rest pre action idx f tail :
  let rs := received (client s) in
  waiters (client s) = [] → transcript s = sent s → transcript s = pre ++ [action] →
  snd <$> script = transcript s ++ (snd <$> rest) →
  0 ≤ idx < Z.of_nat (length rs) → unread idx 0 rs = tail →
  (length (transcript s) + length tail ≤ length (replies_of rs))%nat →
  (∀ more, verdicts parse_error [] script (replies_of rs ++ more)
           = verdicts parse_error pre ((label, action) :: rest) (f :: tail ++ more)) →
  session_ok script es (replied parse_error label rest (idx, f) s).
Proof using Type.
  intros rs Hw Hts Htp Hsc Hidx Htail Hlen Hres. unfold replied. cbn [verdicts] in Hres.
  rewrite Hts in Htp, Hlen, Hsc.
  assert (Hend : ∀ r, (∀ more, verdicts parse_error [] script (replies_of rs ++ more) = r) →
    session_ok script es (set_proc (Ended r) (mkSession (client s) idx (transcript s) (sent s) (proc s)))).
  { intros r Hr. split_and!; cbn; fold rs; rewrite ?Htail, ?Hts; try lia.
    split; [rewrite Hsc; by eexists|by left]. }
  destruct (type f =? msg_code ErrorReply).
  - destruct (parse_error (Wire.payload f)) as [[code context]| |]; apply Hend; [done..|].
    by rewrite Hts, Htp.
  - destruct rest as [|[l a] rest]; cbn [submit].
    + apply Hend. by rewrite Hts, Htp.
    + split_and!; cbn; fold rs; rewrite ?Htail, ?Hts, ?length_app; cbn [length]; try lia.
      split_and!; [done..|by rewrite Hsc, <- app_assoc|]. intros more. by rewrite Hres, Htp.
Qed.

(** Submitting the next action, or ending, with nothing sent unanswered *)
Lemma submit_ok script es : session_ok script es (submit script new_session).
Proof using Type.
  destruct script as [|[l a] script]; cbn [submit]; split_and!; cbn; try lia; [|done].
  split; [by eexists|by left].
Qed.

(** A session that is waiting finds what it waits for among the frames already there, or none of
    them is a reply it has not read. *)
Lemma awaitOk_ok script es s label rest pre action :
  let rs := received (client s) in
  waiters (client s) = [] → transcript s = sent s → transcript s = pre ++ [action] →
  snd <$> script = transcript s ++ (snd <$> rest) → cursor s < Z.of_nat (length rs) →
  (length (transcript s) + length (unread (cursor s) 0 rs) ≤ S (length (replies_of rs)))%nat →
  (∀ more, verdicts parse_error [] script (replies_of rs ++ more)
           = verdicts parse_error pre ((label, action) :: rest) (unread (cursor s) 0 rs ++ more)) →
  session_ok script es (awaitOk parse_error label rest s).
Proof using Type.
  intros rs Hw Hts Htp Hsc Hcur Hlen Hres. unfold awaitOk, next. fold rs.
  pose proof (find_unread (cursor s) 0 rs) as Hf.
  destruct (find_frame _ _ _) as [[i f]|] eqn:E.
  - destruct Hf as [Hi Hu]. rewrite Hu in Hlen, Hres. cbn [length] in Hlen.
    eapply (replied_ok script es _ label rest pre action i f (unread i 0 rs)); cbn; fold rs; try done.
    all: lia.
  - rewrite Hf in Hlen, Hres. rewrite Hw. cbn [app]. split_and!; cbn; fold rs; rewrite ?Hf, ?Hts; cbn [length];
      rewrite ?Hts in Hlen; cbn [length] in Hlen; try lia.
    split_and!; try done; [by rewrite <- Hts|]. exists pre, action. by rewrite <- Hts.
Qed.

(** An outcome reached stays the outcome when more frames come in. *)
Lemma frame_ok script es s f :
  session_ok script es s → session_enabled (E_frame f) s = true →
  session_ok script (es ++ [E_frame f]) (session_event parse_error script (E_frame f) s).
Proof using Type.
  intros (Hcur & Hlen & Hsent & Hp) He. cbn [session_event]. unfold on_frame. rewrite serve_spec.
  set (rs := received (client s)) in *. unfold proc_ok in Hp. fold rs in Hp.
  set (idx := Z.of_nat (length rs)) in *.
  assert (Hu : unread (cursor s) 0 (rs ++ [f])
    = unread (cursor s) 0 rs ++ (if is_reply f then [f] else [])).
  { rewrite unread_app, Z.add_0_l. fold idx. cbn [unread]. rewrite (proj2 (Z.ltb_lt _ _) Hcur). cbn [andb].
    by destruct (is_reply f). }
  assert (Hr : replies_of (rs ++ [f]) = replies_of rs ++ (if is_reply f then [f] else [])).
  { rewrite list.filter_app. f_equal. destruct (is_reply f) eqn:E;
      [by rewrite filter_cons_True|by rewrite filter_cons_False by congruence]. }
  assert (Hl : (length (transcript s) + length (unread (cursor s) 0 (rs ++ [f]))
               ≤ S (length (replies_of (rs ++ [f]))))%nat).
  { rewrite Hu, Hr, !length_app. lia. }
  assert (Hc : cursor s < Z.of_nat (length (rs ++ [f]))) by (rewrite length_app; lia).
  unfold session_enabled in He.
  destruct (proc s) as [|label action rest|label rest|r] eqn:Eproc; try discriminate.
  - destruct Hp as (Hw & Hts & Hsc & Hres). rewrite Hw. cbn -[idx rs].
    split_and!; try done. unfold proc_ok. cbn -[idx]. fold rs. rewrite Eproc.
    split_and!; try done. intros more. by rewrite Hr, Hu, <- !app_assoc.
  - destruct Hp as (Hw & Hts & Hsc & Hnil & pre & action & Htp & Hres). rewrite Hw, Hnil in *.
    assert (Hpr : predicate (mkWaiter (reply_after (cursor s)) tt) idx f = is_reply f).
    { cbn. unfold reply_after. by rewrite (proj2 (Z.ltb_lt _ _) Hcur). }
    destruct (is_reply f) eqn:Ef.
    + rewrite filter_cons_True, filter_cons_False by (rewrite Hpr; done).
      cbn -[idx rs replied session_ok]. rewrite Eproc. eapply (replied_ok script _ _ label rest pre action idx f []); cbn -[idx]; fold rs; try done.
      * rewrite length_app. subst idx. cbn. lia.
      * apply unread_none. subst idx. rewrite length_app. cbn. lia.
      * rewrite Hr, length_app. rewrite Hu, Hr, !length_app in Hl. cbn in *. lia.
      * intros more. rewrite Hr, <- app_assoc. apply Hres.
    + rewrite filter_cons_False, filter_cons_True by (rewrite Hpr; done).
      cbn -[idx rs session_ok].
      split_and!; try done. unfold proc_ok. cbn -[idx]. fold rs. rewrite Eproc.
      split_and!; try done. exists pre, action. split; [done|]. intros more.
      by rewrite Hr, app_nil_r.
Qed.

(** Nothing but an end depends on the events seen. *)
Lemma session_ok_more script es s e :
  session_ok script es s → session_enabled e s = true → session_ok script (es ++ [e]) s.
Proof using Type.
  intros (H1 & H2 & H3 & Hp) He. split_and!; try done. unfold proc_ok in *.
  destruct (proc s) eqn:E; try done. destruct e; unfold session_enabled in He; by rewrite E in He.
Qed.

Lemma session_reach_ok script es s : session_reach parse_error script es s → session_ok script es s.
Proof using Type.
  induction 1 as [|es s e Hreach IH He]; [by split_and!; cbn; try lia|].
  pose proof (session_ok_more _ _ _ _ IH He) as Hmore.
  pose proof IH as (H1 & H2 & H3 & Hp). unfold proc_ok in Hp.
  assert (Hin : e ∈ es ++ [e]) by (apply elem_of_app; right; by left).
  assert (Hfail : ∀ msg, sent s `prefix_of` (snd <$> script) → e = E_error msg ∨ e = E_send_fails msg →
    session_ok script (es ++ [e]) (set_proc (Ended (Fatal msg)) s)).
  { intros msg Hpre Hmsg. split_and!; try done. split; [done|]. right. exists msg. split; [done|].
    destruct Hmsg as [<-|<-]; [by left|by right]. }
  unfold session_enabled in He.
  destruct e as [|msg|f| | |msg]; cbn [session_event]; [| |by apply frame_ok| | |];
    destruct (proc s) as [|label action rest|label rest|r] eqn:Ep; try discriminate; try exact Hmore.
  - rewrite Hp. apply submit_ok.
  - apply Hfail; [rewrite Hp; by eexists|by left].
  - destruct Hp as (Hw & Hts & Hsc & Hres).
    eapply (awaitOk_ok script _ _ label rest (sent s) action); done.
  - destruct Hp as (Hw & Hts & Hsc & Hres). apply Hfail; [|by right].
    rewrite Hsc, Hts, <- app_assoc. by eexists.
Qed.

(** A transcript that is written is one the function of [Recorder] gives. *)
Lemma session_recorded digest fuel gameId script es s t :
  recorder_script digest fuel gameId = Ret script → session_reach parse_error script es s →
  proc s = Ended (Recorded t) →
  recorder digest fuel parse_error gameId (received (client s)) = Ret (Recorded t).
Proof using Type.
  intros Hs (_ & _ & _ & Hp)%session_reach_ok Ht. unfold proc_ok in Hp. rewrite Ht in Hp.
  destruct Hp as (_ & [Hv|(msg & ? & _)]); [|done]. specialize (Hv []). rewrite app_nil_r in Hv.
  unfold recorder. rewrite Hs. cbn [mbind js_bind]. by rewrite drive_verdicts, unread_all, Hv.
Qed.

(** C35: the recorder as it runs.  It sends the actions of its script in order, each one only when
    all before it have been answered.  Whatever comes in, in whatever order and at whatever
    time: unless the connection or a send fails, it ends as [Recorder] says for the frames
    received, and while it waits that is to wait.  And what counts as the answer to the
    [k]-th action is the [k]-th reply of all, so a state the relay publishes for the action of
    another client is taken for the acceptance of one's own. *)
Theorem recorder_session_refines digest fuel gameId script es s :
  recorder_script digest fuel gameId = Ret script → session_reach parse_error script es s →
  let rs := received (client s) in
  let outcome := recorder digest fuel parse_error gameId rs in
  sent s `prefix_of` (snd <$> script)
  ∧ (length (sent s) ≤ S (length (replies_of rs)))%nat
  ∧ outcome = Ret (verdicts parse_error [] script (replies_of rs))
  ∧ match proc s with
    | Connecting => rs = []
    | Sending label action _ => transcript s = sent s ++ [action]
    | Waiting label _ => outcome = Ret (Awaiting label (transcript s))
    | Ended r => outcome = Ret r ∨ io_failure es r
    end.
Proof using Type.
  intros Hs Hr rs outcome.
  assert (Hout : outcome = Ret (verdicts parse_error [] script (replies_of rs))).
  { subst outcome. unfold recorder. rewrite Hs. cbn [mbind js_bind]. rewrite drive_verdicts.
    by rewrite unread_all. }
  apply session_reach_ok in Hr as (H1 & H2 & H3 & Hp). fold rs in H2. unfold proc_ok in Hp. fold rs in Hp.
  assert (length (sent s) ≤ S (length (replies_of rs)))%nat by lia.
  rewrite Hout. destruct (proc s) as [|label action rest|label rest|r].
  - subst rs. rewrite Hp. split_and!; [by eexists|cbn; lia|done..].
  - destruct Hp as (_ & Hts & Hsc & _). split_and!; try done. rewrite Hsc, Hts, <- app_assoc. by eexists.
  - destruct Hp as (_ & Hts & Hsc & _ & pre & action & Htp & Hres). split_and!; try done.
    { rewrite Hsc, Hts. by eexists. }
    specialize (Hres []). rewrite app_nil_r in Hres. rewrite Hres. cbn. by rewrite Htp.
  - destruct Hp as (Hpre & [Hv|Hio]); split_and!; try done; [left|by right].
    specialize (Hv []). by rewrite app_nil_r in Hv; rewrite Hv.
Qed.
End props.

(** ** Sessions *)

(** Events, each checked to be enabled *)
Fixpoint session_through (parse_error : bytes → js (string * string))
    (script : list (string * SignedAction)) (es : list SessionEvent) (s : Session) : option Session :=
  match es with
  | [] => Some s
  | e :: es =>
    if session_enabled e s
    then session_through parse_error script es (session_event parse_error script e s) else None
  end.

Lemma session_through_reach parse_error script es0 es s s' :
  session_reach parse_error script es0 s → session_through parse_error script es s = Some s' →
  session_reach parse_error script (es0 ++ es) s'.
Proof.
  revert es0 s. induction es as [|e es IH]; intros es0 s Hr; cbn [session_through].
  { intros [= <-]. by rewrite app_nil_r. }
  destruct (session_enabled e s) eqn:E; [|done]. intros H.
  specialize (IH _ _ (session_step _ _ _ _ _ Hr E) H). by rewrite <- app_assoc in IH.
Qed.

Definition demo_error_body : bytes → js (string * string) := λ _, Ret ("INVALID_BET_AMOUNT", "").
Definition refusal_frame : Frame := mkFrame VERSION_1_0 (msg_code ErrorReply) [].

(** Every action is sent and answered with a state, but the last one is refused; just before the
    refusal arrives a state is published for somebody else's action. *)
Definition foreign_state : list SessionEvent :=
  E_open :: mjoin (replicate 11 [E_sent; E_frame state_frame])
  ++ [E_sent; E_frame state_frame].

Definition demo_script : list (string * SignedAction) :=
  match recorder_script zero_digest 1 (hx 1) with Ret l => l | _ => [] end.
Definition demo_session : Session :=
  default new_session (session_through demo_error_body demo_script foreign_state new_session).

Lemma demo_script_Ret : recorder_script zero_digest 1 (hx 1) = Ret demo_script.
Proof.
  unfold demo_script. by destruct (recorder_script zero_digest 1 (hx 1)) eqn:E; [|by vm_compute in E..].
Qed.

Lemma demo_session_reach : session_reach demo_error_body demo_script foreign_state demo_session.
Proof.
  apply (session_through_reach _ _ [] _ new_session); [constructor|]. unfold demo_session.
  by destruct (session_through demo_error_body demo_script foreign_state new_session) eqn:E;
    [|by vm_compute in E].
Qed.

(** Without the other client's state the refusal is seen. *)
Example refusal_seen :
  proc <$> session_through demo_error_body demo_script
    (E_open :: mjoin (replicate 11 [E_sent; E_frame state_frame]) ++ [E_sent; E_frame refusal_frame])
    new_session
  = Some (Ended (Refused "Settle" "INVALID_BET_AMOUNT" "")).
Proof. by vm_compute. Qed.

(** The recorder writes the transcript although its last action is refused. *)
Lemma recorder_session_witness :
  recorder_script zero_digest 1 (hx 1) = Ret demo_script
  ∧ session_reach demo_error_body demo_script foreign_state demo_session
  ∧ proc demo_session = Ended (Recorded (snd <$> demo_script))
  ∧ (let rs := received (client demo_session) in
     let outcome := recorder zero_digest 1 demo_error_body (hx 1) rs in
     sent demo_session `prefix_of` (snd <$> demo_script)
     ∧ (length (sent demo_session) ≤ S (length (filter (λ f, is_reply f = true) rs)))%nat
     ∧ outcome = Ret (verdicts demo_error_body [] demo_script (filter (λ f, is_reply f = true) rs))
     ∧ match proc demo_session with
       | Connecting => rs = []
       | Sending label action _ => transcript demo_session = sent demo_session ++ [action]
       | Waiting label _ => outcome = Ret (Awaiting label (transcript demo_session))
       | Ended r => outcome = Ret r ∨ io_failure foreign_state r
       end).
Proof.
  split; [exact demo_script_Ret|]. split; [exact demo_session_reach|]. split; [by vm_compute|].
  exact (recorder_session_refines demo_error_body zero_digest 1 (hx 1) demo_script foreign_state
           demo_session demo_script_Ret demo_session_reach).
Defined.
