(* ===== verification/AuditTrail.v ===== *)
(** * From a live session to its audit

    The tools together: [transcript-recorder] plays a session against the relay and writes its
    actions, one line of JSON each, and [transcript-verifier] reads the file back and replays
    it.  [JSON] is a parameter, with what the tools rely on: the actions of a transcript read
    back as they were written, each on a line between braces. *)

From S2P Require Import Prelude Bytes Primitives Crypto Shuffle ShuffleProps Deck Tx Wire Types Serialise Engine EngineSpec EngineSafety Replay ReplayProps Cli Verifier Recorder RecorderSession.

(** ** The file *)

(** [lines.join('\n')] *)
Fixpoint join_lines (lines : list (list Z)) : list Z :=
  match lines with
  | [] => []
  | [l] => l
  | l :: lines => l ++ 10 :: join_lines lines
  end.

(** [transcript.map((a) => JSON.stringify(a)).join('\n') + '\n'] *)
Definition transcript_file (json : SignedAction → list Z) (transcript : list SignedAction) : list Z :=
  join_lines (json <$> transcript) ++ [10].

(** What [JSON] does for an action: the object it writes stands on one line, and parses. *)
Definition json_action (json : SignedAction → list Z) (parse_action : list Z → js SignedAction)
    (a : SignedAction) : Prop :=
  parse_action (json a) = Ret a ∧ ∃ members, json a = 123 :: members ++ [125] ∧ 10 ∉ members.

(** ** Reading it back *)

Lemma split_lines_line l rest : 10 ∉ l → split_lines (l ++ 10 :: rest) = l :: split_lines rest.
Proof.
  induction l as [|u l IH]; intros H; [done|]. apply not_elem_of_cons in H as [Hu Hl].
  specialize (IH Hl). cbn [split_lines app]. rewrite IH.
  assert (u ≠ 10) as Hne by congruence. clear -Hne. destruct u as [|p|p]; [done| |done].
  by repeat (destruct p as [p|p|]; try done).
Qed.

Lemma trim_object members : trim (123 :: members ++ [125]) = 123 :: members ++ [125].
Proof.
  unfold trim. change (skip_white (123 :: members ++ [125])) with (123 :: members ++ [125]).
  rewrite app_comm_cons, reverse_app. change (reverse [125]) with [125].
  change (skip_white ([125] ++ reverse (123 :: members))) with ([125] ++ reverse (123 :: members)).
  by rewrite reverse_app, reverse_involutive.
Qed.

Section read.
Context (json : SignedAction → list Z) (parse_action : list Z → js SignedAction).

Lemma load_line a rest :
  json_action json parse_action a →
  load_lines parse_action (json a :: rest)
  = (l ← load_lines parse_action rest; Ret (a :: l)).
Proof using Type.
  intros (Hp & members & Hj & _). cbn [load_lines]. rewrite Hj, trim_object, <- Hj.
  by rewrite Hp.
Qed.

(** Every line of the file is an action, and the last, empty one is none. *)
Lemma loadActions_file t :
  Forall (json_action json parse_action) t →
  loadActions parse_action (transcript_file json t) = Ret t.
Proof using Type.
  unfold loadActions, transcript_file. induction 1 as [|a t Ha Ht IH]; [done|].
  assert (Hnl : 10 ∉ json a).
  { destruct Ha as (_ & members & -> & Hm). rewrite not_elem_of_cons, not_elem_of_app.
    split_and!; [done..|]. by intros [?|?%elem_of_nil]%elem_of_cons. }
  destruct t as [|b t].
  - cbn [fmap list_fmap join_lines]. rewrite split_lines_line by done. by rewrite load_line.
  - cbn [fmap list_fmap join_lines] in *. rewrite <- app_assoc. cbn [app].
    rewrite split_lines_line, load_line by done. by rewrite IH.
Qed.
End read.

(** ** Hashing a state takes no fuel *)

Definition no_fuel {A} (m : js A) : Prop := m ≠ OutOfFuel.

Lemma no_fuel_bind {A B} (m : js A) (f : A → js B) :
  no_fuel m → (∀ a, no_fuel (f a)) → no_fuel (m ≫= f).
Proof. unfold no_fuel. intros Hm Hf. destruct m; [apply Hf|done..]. Qed.

Lemma no_fuel_concat l : Forall no_fuel l → no_fuel (Serialise.concat l).
Proof.
  induction 1 as [|m l Hm _ IH]; [done|]. cbn [Serialise.concat].
  apply no_fuel_bind; [done|]. intros a. by apply no_fuel_bind.
Qed.

Lemma no_fuel_pairs nan n off us :
  (∀ o, no_fuel (nan o)) → (length us ≤ n)%nat → no_fuel (hex_pairs nan off us).
Proof.
  intros Hnan. revert off us. induction n as [|n IH]; intros off [|a [|b us]] H; cbn in H; try (done || lia).
  cbn [hex_pairs]. apply no_fuel_bind; [destruct (parse_int16 _); [done|apply Hnan]|].
  intros v. apply no_fuel_bind; [apply IH; lia|done].
Qed.

Lemma no_fuel_hex us : no_fuel (encBytes32Units us).
Proof.
  unfold encBytes32Units. cbv zeta. destruct (negb _); [done|]. by eapply no_fuel_pairs.
Qed.

Lemma no_fuel_fmap {A} (f : A → js bytes) l : (∀ a, no_fuel (f a)) → Forall no_fuel (f <$> l).
Proof. intros H. rewrite Forall_fmap. apply list.Forall_forall. intros a _. apply H. Qed.

Lemma no_fuel_optional_hash h : no_fuel (encOptionalHash h).
Proof. destruct h; [|done]. apply no_fuel_concat. repeat constructor; [done|apply no_fuel_hex]. Qed.

Lemma no_fuel_preferences m : no_fuel (encPreferences m).
Proof.
  apply no_fuel_concat. constructor; [done|]. apply list.Forall_forall.
  intros x (k & _ & H)%list_elem_of_In%in_flat_map. revert H. by intros [<-|[<-|[]]].
Qed.

#[local] Hint Resolve no_fuel_hex no_fuel_optional_hash no_fuel_preferences no_fuel_concat
  no_fuel_fmap : core.
#[local] Hint Constructors Forall : core.
#[local] Hint Extern 1 (no_fuel (Ret _)) => done : core.
#[local] Hint Extern 1 (no_fuel (encBytes32Hex _)) => apply no_fuel_hex : core.
#[local] Hint Extern 1 (no_fuel (encPubkeyTail _)) => apply no_fuel_hex : core.
#[local] Hint Extern 1 (no_fuel (_ <$> _)) => apply no_fuel_fmap : core.
#[local] Hint Extern 2 (no_fuel (match ?o with Some _ => _ | None => _ end)) => destruct o : core.

Ltac no_fuel_parts :=
  apply no_fuel_concat; repeat (apply list.Forall_cons; split); auto.

Lemma no_fuel_player p : no_fuel (encPlayer p).
Proof. no_fuel_parts; try (by destruct (stake_outpoint p) as [[]|]); no_fuel_parts. Qed.

Lemma no_fuel_concealed c : no_fuel (encConcealedCard c).
Proof. no_fuel_parts. Qed.

#[local] Hint Resolve no_fuel_player no_fuel_concealed : core.

Lemma no_fuel_state digest s : no_fuel (computeStateHash digest s).
Proof.
  apply no_fuel_bind; [|intros b; unfold asHash256; by destruct (negb _)].
  no_fuel_parts; try (by destruct (acting_player_seat s)); try (by destruct (decision_deadline_block_height s));
    try (by destruct (recovery_deadline_block_height s)); try no_fuel_parts.
  destruct (concealed_deck s); [no_fuel_parts|done].
Qed.

(** ** The audit of a recorded session *)

Section audit.
Context (digest : bytes → bytes) (fuel : nat).
Context (digest_length : ∀ b, length (digest b) = 32%nat).
Context (digest_byte : ∀ b, Forall is_byte (digest b)).

(** A replay that the gate lets through to a state with players ends the audit with the
    exception of the state hash. *)
Lemma audit_of_replay parse_action path g rh d raw acts s :
  is_hex_n 64 g = true → is_hex_n 64 rh = true → asBlockHeight d = Ret d →
  loadActions parse_action raw = Ret acts →
  replayWithVerification digest fuel g rh defaultRuleSet d acts [100] = Ret (Ok s) →
  Forall (λ pk, is_pubkey33 pk = true) (joined acts) → joined acts ≠ [] →
  is_throw (audit digest fuel parse_action (mkVerifierArgs path g rh (Some d)) raw) = true.
Proof using digest_byte.
  intros Hg Hrh Hd Hload Hr Hkeys Hne. unfold audit. rewrite Hload. cbn [mbind js_bind va_gameId
    va_ruleSetHash recoveryHeight]. unfold asGameId, asRuleSetHash. rewrite Hg, Hrh, Hd.
  cbn [negb mbind js_bind]. rewrite (proj2 (audit_loop_accepts digest fuel 0 acts _ s) Hr).
  cbn [mbind js_bind].
  assert (Hsum : ∀ sm, summarise digest s (Z.of_nat (length acts)) ≠ Ret sm).
  { intros sm. apply (replay_trace digest fuel digest_byte) in Hr.
    pose proof (trace_ids _ _ _ _ _ _ defaultRuleSet_stake Hr) as Hids.
    apply summarise_players; [by rewrite <- Hids, Forall_fmap in Hkeys|].
    intros E. by rewrite E in Hids; rewrite <- Hids in Hne. }
  assert (Hf : no_fuel (summarise digest s (Z.of_nat (length acts)))).
  { apply no_fuel_bind; [apply no_fuel_state|done]. }
  destruct (summarise _ _ _) as [sm| |]; [by destruct (Hsum sm)|done|done].
Qed.

(** C36: what is recorded can be replayed, and cannot be audited.  Whatever happens while a session
    against the relay runs, and whoever else plays at its table: when the recorder writes its
    transcript, the verifier reads exactly the actions recorded back from the file; all of them pass
    the verifying gate, to a settled first round with both players and the bet; and the audit
    ends in an exception, since the state with its players has no hash. *)
Theorem recorded_session_audit json parse_action parse_error path g rh d script es s t :
  is_hex_n 64 g = true → is_hex_n 64 rh = true → asBlockHeight d = Ret d →
  recorder_script digest fuel g = Ret script →
  session_reach parse_error script es s → proc s = Ended (Recorded t) →
  Forall (json_action json parse_action) t →
  let file := transcript_file json t in
  loadActions parse_action file = Ret t
  ∧ (∃ st, replayWithVerification digest fuel g rh defaultRuleSet d t [100] = Ret (Ok st)
      ∧ state_class st = S11_ROTATE_TURN ∧ length (visible_cards st) = 3%nat
      ∧ Forall (λ c, rank c = R2 ∧ suit c = clubs) (visible_cards st)
      ∧ pot_value st + sum (stake_at_risk <$> players st) = 2010)
  ∧ joined t = PUBKEYS
  ∧ is_throw (audit digest fuel parse_action (mkVerifierArgs path g rh (Some d)) file) = true.
Proof using digest_length digest_byte.
  intros Hg Hrh Hd Hs Hr Ht Hjson file.
  pose proof (session_recorded parse_error digest fuel g script es s t Hs Hr Ht) as Hrec.
  pose proof (loadActions_file json parse_action t Hjson) as Hload.
  destruct (recorded_transcript_replays digest fuel digest_length digest_byte 100 parse_error g _ t
              rh d Hg Hrec) as (Hj & st & Hst & Hrest).
  split_and!; [done|by exists st|done|].
  eapply (audit_of_replay _ path g rh d _ t st); try done; rewrite Hj; [|done].
  repeat constructor; by vm_compute.
Qed.
End audit.

(** An action by its nonce *)
Definition demo_line (a : SignedAction) : list Z := 123 :: js_units (action_nonce (act_base a)) ++ [125].
Definition demo_parse (line : list Z) : js SignedAction :=
  match find (λ a, bool_decide (demo_line a = line)) (snd <$> demo_script) with
  | Some a => Ret a
  | None => Throw "SyntaxError"
  end.

Lemma Forall_fmap_eq {A B} (f g : A → B) l : f <$> l = g <$> l → Forall (λ a, f a = g a) l.
Proof. induction l as [|a l IH]; [by constructor|]. intros [=]. constructor; auto. Qed.

Lemma demo_json : Forall (json_action demo_line demo_parse) (snd <$> demo_script).
Proof.
  assert (H1 : Forall (λ a, demo_parse (demo_line a) = Ret a) (snd <$> demo_script))
    by (apply Forall_fmap_eq; by vm_compute).
  assert (H2 : Forall (λ a, bool_decide (10 ∉ js_units (action_nonce (act_base a))) = true)
                 (snd <$> demo_script))
    by (apply (Forall_fmap_eq _ (λ _, true)); by vm_compute).
  rewrite list.Forall_forall in H1, H2. apply list.Forall_forall. intros a Ha.
  split; [by apply H1|]. exists (js_units (action_nonce (act_base a))). split; [done|].
  exact (proj1 (bool_decide_eq_true _) (H2 a Ha)).
Qed.

Lemma recorded_session_witness :
  let t := snd <$> demo_script in
  let file := transcript_file demo_line t in
  proc demo_session = Ended (Recorded t)
  ∧ loadActions demo_parse file = Ret t
  ∧ (∃ st, replayWithVerification zero_digest 1 (hx 1) zeros64 defaultRuleSet 244 t [100] = Ret (Ok st)
      ∧ state_class st = S11_ROTATE_TURN ∧ length (visible_cards st) = 3%nat
      ∧ Forall (λ c, rank c = R2 ∧ suit c = clubs) (visible_cards st)
      ∧ pot_value st + sum (stake_at_risk <$> players st) = 2010)
  ∧ joined t = PUBKEYS
  ∧ is_throw (audit zero_digest 1 demo_parse (mkVerifierArgs "session.jsonl" (hx 1) zeros64 (Some 244))
                file) = true.
Proof.
  intros t file. assert (Ht : proc demo_session = Ended (Recorded t)) by by vm_compute.
  split; [exact Ht|].
  apply (recorded_session_audit zero_digest 1 (λ _, eq_refl) zero_digest_byte demo_line demo_parse
           demo_error_body "session.jsonl" (hx 1) zeros64 244 demo_script foreign_state demo_session t);
    [by vm_compute..| | |exact Ht|apply demo_json].
  - apply demo_script_Ret.
  - apply demo_session_reach.
Defined.
