(* ===== verification/RelayClient.v ===== *)
(** * client-web: the relay client

    [apps/client-web/src/relay-client.ts].  The browser's WebSocket is the environment: the
    client's handlers run when it opens, fails, closes or delivers a message.  SHA-256 is the
    platform's. *)

From S2P Require Import Prelude Bytes Wire.

Inductive RelayEvent : Type :=
  | ev_open
  | ev_close (code : Z) (reason : string)
  | ev_error (message : string)
  | ev_frame (frame : Frame).

(** [WebSocket.readyState] *)
Inductive ReadyState : Type := CONNECTING | OPEN | CLOSING | CLOSED.

#[export] Instance ReadyState_eq_dec : EqDecision ReadyState.
Proof. solve_decision. Defined.

(** A socket the client made, with the [settled] flag its handlers close over and whether its
    [error] and its [close] event have fired, which a socket fires at most once.  The browser
    has closed a socket before it fires either. *)
Record Socket := mkSocket {
  readyState : ReadyState;
  settled : bool;
  errored : bool;
  finished : bool
}.

(** [this.opening]: null, a promise not settled yet, or a rejected one *)
Inductive Opening : Type :=
  | not_opening
  | in_progress
  | failed (message : string).

(** [this.socket] is the index of the current one among all sockets made; a listener is a
    number. *)
Record RelayClient := mkRelayClient {
  url : string;
  socket : option nat;
  sockets : list Socket;
  opening : Opening;
  listeners : list nat
}.

Definition new_client (u : string) : RelayClient := mkRelayClient u None [] not_opening [].

(** [this.listeners] is a [Set]. *)
Definition subscribe (fn : nat) (c : RelayClient) : RelayClient :=
  mkRelayClient (url c) (socket c) (sockets c) (opening c)
    (if bool_decide (fn ∈ listeners c) then listeners c else listeners c ++ [fn]).

Definition unsubscribe (fn : nat) (c : RelayClient) : RelayClient :=
  mkRelayClient (url c) (socket c) (sockets c) (opening c) (filter (λ g, g ≠ fn) (listeners c)).

Definition alter_socket (f : Socket → Socket) (i : nat) (c : RelayClient) : RelayClient :=
  mkRelayClient (url c) (socket c) (alter f i (sockets c)) (opening c) (listeners c).

Definition current_ready (c : RelayClient) : option ReadyState :=
  i ← socket c; s ← sockets c !! i; Some (readyState s).

(** What the caller of [connect] gets *)
Inductive Connecting : Type :=
  | already_open
  | awaiting
  | refused (message : string).

(** [url_error u] is the message [new WebSocket(u)] throws, if it does.  The constructor of [WebSocket] runs before the promise is stored in [this.opening], so the
    [this.opening = null] of its [catch] is overwritten by the rejected promise. *)
Definition connect (url_error : string → option string) (c : RelayClient)
  : RelayClient * Connecting :=
  if bool_decide (current_ready c = Some OPEN) then (c, already_open)
  else match opening c with
  | in_progress => (c, awaiting)
  | failed msg => (c, refused msg)
  | not_opening =>
    match url_error (url c) with
    | Some msg =>
      (mkRelayClient (url c) (socket c) (sockets c) (failed msg) (listeners c), refused msg)
    | None =>
      (mkRelayClient (url c) (Some (length (sockets c)))
         (sockets c ++ [mkSocket CONNECTING false false false]) in_progress (listeners c), awaiting)
    end
  end.

(** How the promise of [connect] settles *)
Inductive Settles : Type :=
  | pending
  | resolves
  | rejects (message : string).

Definition onopen (i : nat) (c : RelayClient) : RelayClient * list RelayEvent * Settles :=
  (mkRelayClient (url c) (socket c)
     (alter (λ s, mkSocket OPEN true (errored s) (finished s)) i (sockets c)) not_opening
     (listeners c), [ev_open], resolves).

Definition onclose (i : nat) (code : Z) (reason : string) (c : RelayClient)
  : RelayClient * list RelayEvent * Settles :=
  (alter_socket (λ s, mkSocket CLOSED (settled s) (errored s) true) i c,
   [ev_close code reason], pending).

Definition onerror (i : nat) (c : RelayClient) : RelayClient * list RelayEvent * Settles :=
  let msg := "websocket error" in
  let c' := alter_socket (λ s, mkSocket CLOSED (settled s) true (finished s)) i c in
  match settled <$> sockets c !! i with
  | Some false =>
    (mkRelayClient (url c') (socket c') (sockets c') not_opening (listeners c'), [ev_error msg],
     rejects msg)
  | _ => (c', [ev_error msg], pending)
  end.

(** [this.socket.close(code, reason)] starts the closing of a socket that is not closed yet. *)
Definition close (c : RelayClient) : RelayClient :=
  match socket c with
  | None => c
  | Some i =>
    mkRelayClient (url c) None
      (alter (λ s, mkSocket (match readyState s with CLOSED => CLOSED | _ => CLOSING end)
                            (settled s) (errored s) (finished s)) i (sockets c))
      (opening c) (listeners c)
  end.

Section wire.
Context (sha256 : bytes → bytes).

(** [sendFrame] up to its [await]: the bytes to send once they are encoded *)
Definition sendFrame (f : Frame) (c : RelayClient) : js bytes :=
  if bool_decide (current_ready c = Some OPEN) then encode sha256 f
  else Throw "RelayClient.sendFrame: socket not open".

(** [this.socket.send(buf)] after the [await]: a socket that has been closed meanwhile is
    [null], one that is no longer open discards the data.  The platform's own exceptions are
    named by their class. *)
Definition send_encoded (b : bytes) (c : RelayClient) : js (option bytes) :=
  match current_ready c with
  | None => Throw "TypeError"
  | Some OPEN => Ret (Some b)
  | Some CONNECTING => Throw "InvalidStateError"
  | Some _ => Ret None
  end.

(** [payload] is [new TextEncoder().encode(JSON.stringify(action))]. *)
Definition sendAction (payload : bytes) : RelayClient → js bytes :=
  sendFrame (mkFrame VERSION_1_0 (msg_code Action) payload).

Definition requestTranscript : RelayClient → js bytes :=
  sendFrame (mkFrame VERSION_1_0 (msg_code TranscriptRequest) []).

Definition ping (payload : bytes) : RelayClient → js bytes :=
  sendFrame (mkFrame VERSION_1_0 (msg_code Ping) payload).

(** A text message or the bytes of a binary one *)
Definition handleMessage (data : string + bytes) : js RelayEvent :=
  match data with
  | inl _ => Ret (ev_error "text frame received; binary only")
  | inr b =>
    match decode sha256 b with
    | Ret (frame, _) => Ret (ev_frame frame)
    | Throw msg => Ret (ev_error ("decode failed: " +:+ msg))
    | OutOfFuel => OutOfFuel
    end
  end.
End wire.

(** ** The client over a connection *)

(** Every message is answered with one event, and a frame sent by a peer client arrives as
    that frame. *)
Lemma handleMessage_frame sha256 f b c :
  (∀ m, length (sha256 m) = 32%nat) → frame_ok f = true → sendFrame sha256 f c = Ret b →
  handleMessage sha256 (inr b) = Ret (ev_frame f).
Proof.
  intros Hd Hf H. unfold sendFrame in H. case_bool_decide; [|done].
  rewrite (encode_Ret sha256 f Hf) in H. injection H as <-. unfold handleMessage.
  rewrite <- (app_nil_r (layout sha256 f)) at 1. by rewrite decode_layout.
Qed.

Lemma handleMessage_total sha256 data : ∃ ev, handleMessage sha256 data = Ret ev.
Proof.
  destruct data as [s|b]; [by eexists|]. unfold handleMessage.
  assert (H : decode sha256 b ≠ OutOfFuel).
  { unfold decode. repeat case_match; done. }
  destruct (decode sha256 b) as [[f n]| |]; [by eexists..|done].
Qed.

(** A closed client cannot send. *)
Lemma sendFrame_closed sha256 f c : is_throw (sendFrame sha256 f (close c)) = true.
Proof.
  unfold sendFrame. rewrite bool_decide_eq_false_2; [done|]. unfold close, current_ready.
  destruct (socket c) as [i|] eqn:E; [done|]. by rewrite E.
Qed.
