(* ===== verification/Store.v ===== *)
(** * client-web: the table store

    [apps/client-web/src/store.ts]: the store's operations, the module's relay, and the
    handlers of relay events, composed with the relay clients of [RelayClient] into one
    application whose events are the user's commands, the sockets' events, and the sends and
    deliveries that wait for a checksum.  Between its [await]s JavaScript runs to completion,
    and the continuation of a settled promise runs before the next event, so one event is one
    step; checksums come in any order.

    [JSON] on actions, states and error bodies, the validity of a URL and the clock are
    parameters.  The code casts what it parses: a body that is JSON but no [RoundState], or no
    error body, is outside the model, as the types of the code have it. *)

From S2P Require Import Prelude Bytes Primitives Types Engine Tx Cli Wire RelayClient.

(** ** Constants *)

Definition GAME_ID : GameId := to_hex (replicate 31 0 ++ [0xaa]).
Definition RULE_HASH : RuleSetHash := to_hex (replicate 32 0xbb).
Definition RECOVERY_DEADLINE : BlockHeight := 244.
Definition PUB_0 : Pubkey33 := "02" +:+ to_hex (replicate 32 0).
Definition PUB_1 : Pubkey33 := "02" +:+ to_hex (replicate 32 1).

Definition defaultRuleSet : RuleSet :=
  mkRuleSet in_between 2 4 1000 1 100 6 144 18 [("S8_BET_DECISION", "pass")]
    (mkPenaltySchedule 100 200 50 100) 52 1 (mkSettlementRules 1 1 50 100)
    (mkRecoveryRules true true true) 1.

Definition startState : RoundState := initialState GAME_ID RULE_HASH RECOVERY_DEADLINE.

Definition pubkeyForSeat (s : Seat) : Pubkey33 := if s =? 0 then PUB_0 else PUB_1.

Definition nextNonce (nonceCounter : Z) : js ActionNonce :=
  asActionNonce (pad_start (toString16 nonceCounter)).

(** ** The store *)

Record RecentError := mkRecentError { err_at : Z; err_code : string; err_context : string }.

Inductive ConnectionMode : Type := offline | connecting | online | in_error.

Record TableStore := mkTableStore {
  st_state : RoundState;
  st_ruleSet : RuleSet;
  st_height : BlockHeight;
  lastError : option RecentError;
  settlement : option SettlementResult;
  connection : ConnectionMode;
  relayUrl : option string
}.

Definition initial_store : TableStore :=
  mkTableStore startState defaultRuleSet 100 None None offline None.

(** [set({ ... })] on the fields the code sets *)
Definition set_state (s : RoundState) (t : TableStore) : TableStore :=
  mkTableStore s (st_ruleSet t) (st_height t) (lastError t) (settlement t) (connection t) (relayUrl t).
Definition set_height (h : BlockHeight) (t : TableStore) : TableStore :=
  mkTableStore (st_state t) (st_ruleSet t) h (lastError t) (settlement t) (connection t) (relayUrl t).
Definition set_lastError (e : option RecentError) (t : TableStore) : TableStore :=
  mkTableStore (st_state t) (st_ruleSet t) (st_height t) e (settlement t) (connection t) (relayUrl t).
Definition set_settlement (x : option SettlementResult) (t : TableStore) : TableStore :=
  mkTableStore (st_state t) (st_ruleSet t) (st_height t) (lastError t) x (connection t) (relayUrl t).
Definition set_connection (m : ConnectionMode) (t : TableStore) : TableStore :=
  mkTableStore (st_state t) (st_ruleSet t) (st_height t) (lastError t) (settlement t) m (relayUrl t).
Definition set_relayUrl (u : option string) (t : TableStore) : TableStore :=
  mkTableStore (st_state t) (st_ruleSet t) (st_height t) (lastError t) (settlement t) (connection t) u.

(** The spelling of an error code *)
Definition ErrorCode_string (c : ErrorCode) : string :=
  match c with
  | INVALID_STAKE_AMOUNT => "INVALID_STAKE_AMOUNT"
  | INVALID_REVEAL_PROOF => "INVALID_REVEAL_PROOF"
  | INVALID_TX_CONFORMANCE => "INVALID_TX_CONFORMANCE"
  | INVALID_SIGNATURE => "INVALID_SIGNATURE"
  | INVALID_STATE_TRANSITION => "INVALID_STATE_TRANSITION"
  | INVALID_ACTION_FOR_STATE => "INVALID_ACTION_FOR_STATE"
  | INVALID_BET_AMOUNT => "INVALID_BET_AMOUNT"
  | INVALID_SUCCESSOR_TEMPLATE => "INVALID_SUCCESSOR_TEMPLATE"
  | INVALID_RULE_SET => "INVALID_RULE_SET"
  | STALE_STATE => "STALE_STATE"
  | STATE_NOT_FOUND => "STATE_NOT_FOUND"
  | DOUBLE_SPEND_CONFLICT => "DOUBLE_SPEND_CONFLICT"
  | TIMEOUT_NOT_MATURE => "TIMEOUT_NOT_MATURE"
  | RECOVERY_NOT_MATURE => "RECOVERY_NOT_MATURE"
  | BAD_BINDING => "BAD_BINDING"
  | PLAYER_NOT_SEATED => "PLAYER_NOT_SEATED"
  | PLAYER_ALREADY_SEATED => "PLAYER_ALREADY_SEATED"
  | TABLE_FULL => "TABLE_FULL"
  | TABLE_NOT_LOCKABLE => "TABLE_NOT_LOCKABLE"
  | SEAT_OUT_OF_RANGE => "SEAT_OUT_OF_RANGE"
  | SERIALISATION_ERROR => "SERIALISATION_ERROR"
  | UNSUPPORTED_VERSION => "UNSUPPORTED_VERSION"
  end.

(** ** The application: the store and the variables of its module *)

Record App := mkApp {
  ts : TableStore;
  relay : option nat;
  relayUnsub : option nat;
  nonceCounter : Z;
  clients : list RelayClient;
  outbox : list (nat * bytes);
  inbox : list (nat * bytes);
  sent : list (nat * bytes)
}.

Definition initial_app : App := mkApp initial_store None None 0 [] [] [] [].

Definition set_ts (t : TableStore) (a : App) : App :=
  mkApp t (relay a) (relayUnsub a) (nonceCounter a) (clients a) (outbox a) (inbox a) (sent a).
Definition set_nonce (n : Z) (a : App) : App :=
  mkApp (ts a) (relay a) (relayUnsub a) n (clients a) (outbox a) (inbox a) (sent a).
Definition set_clients (cs : list RelayClient) (a : App) : App :=
  mkApp (ts a) (relay a) (relayUnsub a) (nonceCounter a) cs (outbox a) (inbox a) (sent a).
Definition set_relay (r u : option nat) (a : App) : App :=
  mkApp (ts a) r u (nonceCounter a) (clients a) (outbox a) (inbox a) (sent a).
Definition set_outbox (o s : list (nat * bytes)) (a : App) : App :=
  mkApp (ts a) (relay a) (relayUnsub a) (nonceCounter a) (clients a) o (inbox a) s.
Definition set_inbox (i : list (nat * bytes)) (a : App) : App :=
  mkApp (ts a) (relay a) (relayUnsub a) (nonceCounter a) (clients a) (outbox a) i (sent a).

(** [set(...)] *)
Definition update (f : TableStore → TableStore) (a : App) : App := set_ts (f (ts a)) a.

(** The store's listener on a client *)
Definition store_listener : nat := 0.

Section app.
Context (sha256 : bytes → bytes).
Context (json : SignedAction → bytes) (parse_state : bytes → js RoundState)
        (parse_error : bytes → js (string * string)) (url_error : string → option string).
Context (now : Z).

Definition fail_with (code context : string) (t : TableStore) : TableStore :=
  set_lastError (Some (mkRecentError now code context)) t.

(** ** Commands *)

(** The module's [apply]: over the relay when there is one, in the local engine otherwise *)
Definition apply (action : SignedAction) (computeSettle : bool) (a : App) : App * js unit :=
  let state := st_state (ts a) in
  let ruleSet := st_ruleSet (ts a) in
  match relay a with
  | Some k =>
    match sendAction sha256 (json action) <$> clients a !! k with
    | Some (Ret b) => (set_outbox (outbox a ++ [(k, b)]) (sent a) a, Ret tt)
    | Some (Throw msg) => (update (fail_with "STATE_NOT_FOUND" msg) a, Ret tt)
    | Some OutOfFuel | None => (a, Ret tt)
    end
  | None =>
    match applyAction state action ruleSet (st_height (ts a)) with
    | Ret (Err e) =>
      (update (fail_with (ErrorCode_string (code e)) (default "" (context e))) a, Ret tt)
    | Ret (Ok next) =>
      let settled := if computeSettle && is_class (state_class state) S10_SETTLED_ROUND
                     then computeSettlement state ruleSet
                     else Ret (Err (protocolError STATE_NOT_FOUND None)) in
      match settled with
      | Ret (Ok x) =>
        (update (λ t, set_settlement (Some x) (set_lastError None (set_state next t))) a, Ret tt)
      | Ret (Err _) => (update (λ t, set_lastError None (set_state next t)) a, Ret tt)
      | Throw msg => (a, Throw msg)
      | OutOfFuel => (a, OutOfFuel)
      end
    | Throw msg => (a, Throw msg)
    | OutOfFuel => (a, OutOfFuel)
    end
  end.

(** An action of the store: the nonce is drawn, then the payload is made. *)
Definition act (who : option Seat) (p : js ActionPayload) (computeSettle : bool) (a : App)
  : App * js unit :=
  let n := js_add (nonceCounter a) 1 in
  let a := set_nonce n a in
  match (nonce ← nextNonce n; p ← p; Ret (nonce, p)) with
  | Ret (nonce, p) =>
    apply (mkSignedAction (mkSignedActionBase (game_id (st_state (ts a))) 0 zeros64 nonce who "sig"
                             zeros64) p) computeSettle a
  | Throw msg => (a, Throw msg)
  | OutOfFuel => (a, OutOfFuel)
  end.

Definition seatJoin (seat : Seat) (a : App) : App * js unit :=
  act (Some seat) (Ret (JoinAction (pubkeyForSeat seat) (stake_amount (st_ruleSet (ts a))))) false a.
Definition tableLock : App → App * js unit := act None (Ret TableLockAction) false.
Definition entropyCommit (seat : Seat) : App → App * js unit :=
  act (Some seat) (Ret (EntropyCommitAction (to_hex (replicate 32 0x11)))) false.
Definition entropyReveal (seat : Seat) : App → App * js unit :=
  act (Some seat) (Ret (EntropyRevealAction (to_hex (replicate 32 0x22)))) false.
Definition revealCard (ordinal : Z) : App → App * js unit :=
  act None (card ← cardFromOrdinal ordinal;
            Ret (CardRevealAction (mkRevealProof ordinal card (to_hex (replicate 32 0x33))
                                     (to_hex (replicate 32 0x44))))) false.
Definition acting_seat (a : App) : Seat := default 0 (acting_player_seat (st_state (ts a))).
Definition placeBet (amount : Satoshis) (a : App) : App * js unit :=
  act (Some (acting_seat a)) (Ret (BetAction_ amount)) false a.
Definition pass (a : App) : App * js unit := act (Some (acting_seat a)) (Ret PassAction) false a.
Definition settle (seat : Seat) : App → App * js unit := act (Some seat) (Ret SettleAction) true.

(** [relay.close(); relayUnsub?.()] *)
Definition drop_relay (a : App) : App :=
  match relay a with
  | None => a
  | Some k =>
    let cs := alter close k (clients a) in
    set_clients (match relayUnsub a with
                 | Some j => alter (unsubscribe store_listener) j cs
                 | None => cs
                 end) a
  end.

(** [... relay = null; ... relayUnsub = null] *)
Definition forget_relay (a : App) : App :=
  match relay a with
  | Some _ => set_relay None None (drop_relay a)
  | None => a
  end.

Definition reset (a : App) : App * js unit :=
  (set_ts initial_store (forget_relay (set_nonce 0 a)), Ret tt).

Definition setHeight (h : Z) (a : App) : App * js unit :=
  match asBlockHeight h with
  | Ret h => (update (set_height h) a, Ret tt)
  | Throw msg => (a, Throw msg)
  | OutOfFuel => (a, OutOfFuel)
  end.

Definition connect_to (u : string) (a : App) : App * js unit :=
  let a := drop_relay a in
  let k := length (clients a) in
  let '(c, r) := connect url_error (subscribe store_listener (new_client u)) in
  let a := set_relay (Some k) (Some k) (set_clients (clients a ++ [c]) a) in
  let a := update (λ t, set_relayUrl (Some u) (set_connection connecting t)) a in
  match r with
  | already_open => (update (set_connection online) a, Ret tt)
  | awaiting => (a, Ret tt)
  | refused msg => (update (λ t, fail_with "STATE_NOT_FOUND" msg (set_connection in_error t)) a, Ret tt)
  end.

Definition disconnect (a : App) : App * js unit :=
  (update (λ t, set_relayUrl None (set_connection offline t)) (forget_relay a), Ret tt).

(** ** Relay events *)

Definition handleFrame (f : Frame) (t : TableStore) : TableStore :=
  if type f =? msg_code TableState then
    match parse_state (payload f) with
    | Ret next => set_lastError None (set_state next t)
    | Throw msg => fail_with "SERIALISATION_ERROR" msg t
    | OutOfFuel => t
    end
  else if type f =? msg_code ErrorReply then
    match parse_error (payload f) with
    | Ret (code, context) => fail_with code context t
    | Throw msg => fail_with "SERIALISATION_ERROR" msg t
    | OutOfFuel => t
    end
  else t.

Definition onRelayEvent (ev : RelayEvent) (t : TableStore) : TableStore :=
  match ev with
  | ev_open => set_connection online t
  | ev_close _ _ => set_connection offline t
  | ev_error msg => fail_with "STATE_NOT_FOUND" msg (set_connection in_error t)
  | ev_frame f => handleFrame f t
  end.

(** The continuations of [await relay.connect()] *)
Definition connect_settled (s : Settles) (t : TableStore) : TableStore :=
  match s with
  | pending => t
  | resolves => set_connection online t
  | rejects msg => fail_with "STATE_NOT_FOUND" msg (set_connection in_error t)
  end.

(** ** Events *)

Inductive Command : Type :=
  | C_reset
  | C_setHeight (h : Z)
  | C_connect (u : string)
  | C_disconnect
  | C_seatJoin (s : Seat)
  | C_tableLock
  | C_entropyCommit (s : Seat)
  | C_entropyReveal (s : Seat)
  | C_revealCard (ordinal : Z)
  | C_placeBet (amount : Satoshis)
  | C_pass
  | C_settle (s : Seat).

Inductive SocketEvent : Type :=
  | S_open
  | S_error
  | S_close (code : Z) (reason : string)
  | S_message (data : string + bytes).

Inductive Event : Type :=
  | User (c : Command)
  | Sock (k i : nat) (e : SocketEvent)
  | Flush (j : nat)
  | Deliver (j : nat).

Definition run_command (c : Command) (a : App) : App * js unit :=
  match c with
  | C_reset => reset a
  | C_setHeight h => setHeight h a
  | C_connect u => connect_to u a
  | C_disconnect => disconnect a
  | C_seatJoin s => seatJoin s a
  | C_tableLock => tableLock a
  | C_entropyCommit s => entropyCommit s a
  | C_entropyReveal s => entropyReveal s a
  | C_revealCard o => revealCard o a
  | C_placeBet n => placeBet n a
  | C_pass => pass a
  | C_settle s => settle s a
  end.

(** What [handleMessage] emits *)
Definition received (data : string + bytes) : list RelayEvent :=
  match handleMessage sha256 data with Ret ev => [ev] | _ => [] end.

(** The handlers of socket [i] of a client; a binary message is decoded first. *)
Definition on_socket (i : nat) (e : SocketEvent) (c : RelayClient)
  : RelayClient * list RelayEvent * Settles :=
  match e with
  | S_open => onopen i c
  | S_error => onerror i c
  | S_close code reason => onclose i code reason c
  | S_message (inl s) => (c, received (inl s), pending)
  | S_message (inr _) => (c, [], pending)
  end.

(** A browser fires [open] on a connecting socket and [message] on an open one.  It fires
    [error] at most once, before [close], also after [close()] on a socket that was still
    connecting; and [close] once, on a socket that failed, or that was open or closing. *)
Definition can_fire (e : SocketEvent) (s : Socket) : bool :=
  match e with
  | S_open => bool_decide (readyState s = CONNECTING)
  | S_message _ => bool_decide (readyState s = OPEN)
  | S_error => negb (errored s) && negb (finished s)
  | S_close _ _ =>
    negb (finished s)
    && (errored s || bool_decide (readyState s = OPEN) || bool_decide (readyState s = CLOSING))
  end.

Definition enabled (e : Event) (a : App) : bool :=
  match e with
  | User _ => true
  | Sock k i se =>
    match c ← clients a !! k; sockets c !! i with
    | Some s => can_fire se s
    | None => false
    end
  | Flush j => bool_decide (j < length (outbox a))%nat
  | Deliver j => bool_decide (j < length (inbox a))%nat
  end.

(** Emitting to the store's listener, if it is subscribed *)
Definition emit_all (c : RelayClient) (evs : list RelayEvent) (t : TableStore) : TableStore :=
  if bool_decide (store_listener ∈ listeners c)
  then foldl (λ t ev, onRelayEvent ev t) t evs else t.

Definition exec (e : Event) (a : App) : App :=
  match e with
  | User c => (run_command c a).1
  | Sock k i se =>
    match clients a !! k with
    | None => a
    | Some c =>
      let '(c', evs, s) := on_socket i se c in
      let a := update (λ t, connect_settled s (emit_all c' evs t))
                 (set_clients (<[k := c']> (clients a)) a) in
      match se with
      | S_message (inr b) => set_inbox (inbox a ++ [(k, b)]) a
      | _ => a
      end
    end
  | Deliver j =>
    match inbox a !! j with
    | None => a
    | Some (k, b) =>
      let a := set_inbox (delete j (inbox a)) a in
      match clients a !! k with
      | Some c => update (emit_all c (received (inr b))) a
      | None => a
      end
    end
  | Flush j =>
    match outbox a !! j with
    | None => a
    | Some (k, b) =>
      let a := set_outbox (delete j (outbox a)) (sent a) a in
      match send_encoded b <$> clients a !! k with
      | Some (Ret (Some b)) => set_outbox (outbox a) (sent a ++ [(k, b)]) a
      | Some (Throw msg) => update (fail_with "STATE_NOT_FOUND" msg) a
      | _ => a
      end
    end
  end.
End app.
