(* ===== verification/StoreProps.v ===== *)
(** * client-web: who may change the table, and when

    The properties of the application of [Store]: without a relay it plays sessions of the
    engine, with one the table belongs to the relay; and what stale or lost connections do. *)

From S2P Require Import Prelude Bytes Primitives Types Engine EngineSpec EngineSafety Tx Cli Wire RelayClient Store.

Section props.
Context (sha256 : bytes → bytes).
Context (json : SignedAction → bytes) (parse_state : bytes → js RoundState)
        (parse_error : bytes → js (string * string)) (url_error : string → option string).

Abbreviation run now := (exec sha256 json parse_state parse_error url_error now).
Abbreviation command now := (run_command sha256 json url_error now).

(** The applications that a list of events, each enabled in its turn, leads to *)
Inductive reach : list Event → App → Prop :=
  | reach_init : reach [] initial_app
  | reach_step evs a e now :
      reach evs a → enabled e a = true → reach (evs ++ [e]) (run now e a).

(** The commands that play *)
Definition plays (c : Command) : bool :=
  match c with
  | C_reset | C_setHeight _ | C_connect _ | C_disconnect => false
  | _ => true
  end.

(** Events at their times, each checked to be enabled *)
Fixpoint play_through (l : list (Z * Event)) (a : App) : option App :=
  match l with
  | [] => Some a
  | (now, e) :: l => if enabled e a then play_through l (run now e a) else None
  end.

Lemma play_reach evs a l a' :
  reach evs a → play_through l a = Some a' → reach (evs ++ (snd <$> l)) a'.
Proof.
  revert evs a. induction l as [|[now e] l IH]; intros evs a H; cbn [play_through].
  { intros [= ->]. by rewrite app_nil_r. }
  destruct (enabled e a) eqn:E; [|done]. intros Hp. specialize (IH _ _ (reach_step _ _ _ now H E) Hp).
  by rewrite <- app_assoc in IH.
Qed.

(** ** What a playing command does *)

(** The parts of the application that playing never touches *)
Definition wiring (a : App) : option nat * option nat * list RelayClient
  * list (nat * bytes) * list (nat * bytes) :=
  (relay a, relayUnsub a, clients a, inbox a, sent a).

(** A local step of the engine on the store, with the settlement it may show *)
Definition local_step (t t' : TableStore) : Prop :=
  (st_state t' = st_state t ∧ settlement t' = settlement t)
  ∨ ∃ action, applyAction (st_state t) action (st_ruleSet t) (st_height t) = Ret (Ok (st_state t'))
      ∧ (settlement t' = settlement t
         ∨ ∃ x, settlement t' = Some x
                ∧ computeSettlement (st_state t) (st_ruleSet t) = Ret (Ok x)).

(** Sending instead of playing *)
Definition queued (k : nat) (a a' : App) : Prop :=
  st_state (ts a') = st_state (ts a) ∧ settlement (ts a') = settlement (ts a)
  ∧ (outbox a' = outbox a
     ∨ ∃ action b, outbox a' = outbox a ++ [(k, b)]
         ∧ encode sha256 (mkFrame VERSION_1_0 (msg_code Action) (json action)) = Ret b).

Definition kept (t t' : TableStore) : Prop :=
  st_ruleSet t' = st_ruleSet t ∧ st_height t' = st_height t ∧ connection t' = connection t
  ∧ relayUrl t' = relayUrl t.

Definition played (a a' : App) : Prop :=
  wiring a' = wiring a ∧ kept (ts a) (ts a')
  ∧ match relay a with
    | None => local_step (ts a) (ts a') ∧ outbox a' = outbox a
    | Some k => queued k a a'
    end.

Lemma played_nonce n a : played a (set_nonce n a).
Proof.
  split; [done|]. split; [done|]. cbn. destruct (relay a); [|split; [by left|done]].
  split_and!; [done..|by left].
Qed.

Lemma apply_played now action cs a : played a (apply sha256 json now action cs a).1.
Proof.
  unfold apply, played. destruct (relay a) as [k|].
  - destruct (clients a !! k) as [c|]; cbn [fmap option_fmap option_map].
    2: { split; [done|]. split; [done|]. split_and!; [done..|by left]. }
    unfold sendAction, sendFrame. case_bool_decide.
    + destruct (encode _ _) as [b| |] eqn:E; (split; [done|]); (split; [done|]);
        split_and!; try done; try by left. right. exists action, b. done.
    + split; [done|]. split; [done|]. split_and!; [done..|by left].
  - destruct (applyAction _ _ _ _) as [[next|e]| |] eqn:E; cbv zeta.
    2-4: split; [done|]; split; [done|]; split; [by left|done].
    set (r := if cs && _ then _ else _).
    assert (Hr : ∀ x, r = Ret (Ok x) →
      computeSettlement (st_state (ts a)) (st_ruleSet (ts a)) = Ret (Ok x)).
    { intros x. subst r. by destruct (cs && _). }
    destruct r as [[x|e]| |]; (split; [done|]); (split; [done|]); (split; [|done]);
      [right|right|by left..]; exists action; (split; [done|]);
      [right; exists x; by auto|by left].
Qed.

Lemma act_played now who p cs a : played a (act sha256 json now who p cs a).1.
Proof.
  unfold act. cbv zeta.
  pose proof (played_nonce (js_add (nonceCounter a) 1) a) as H.
  destruct (_ ≫= _) as [[nonce pl]| |]; [|exact H..].
  exact (apply_played now _ cs (set_nonce (js_add (nonceCounter a) 1) a)).
Qed.

Lemma plays_played now c a : plays c = true → played a (command now c a).1.
Proof. destruct c; try done; intros _; cbn [run_command]; apply act_played. Qed.

(** ** Who listens *)

(** The store listens to its relay's client and to no other. *)
Definition wired (a : App) : Prop :=
  relayUnsub a = relay a
  ∧ (∀ k, relay a = Some k → (k < length (clients a))%nat)
  ∧ ∀ k c, clients a !! k = Some c → (store_listener ∈ listeners c ↔ relay a = Some k).

Lemma wired_ext a a' : relay a' = relay a → relayUnsub a' = relayUnsub a →
  clients a' = clients a → wired a → wired a'.
Proof. unfold wired. by intros -> -> ->. Qed.

Lemma listeners_close c : listeners (close c) = listeners c.
Proof. unfold close. by destruct (socket c). Qed.

Lemma listeners_connect c : listeners (connect url_error c).1 = listeners c.
Proof. unfold connect. by repeat case_match. Qed.

Lemma listeners_on_socket i e c : listeners (on_socket sha256 i e c).1.1 = listeners c.
Proof. destruct e as [| | |[|]]; try done. cbn. unfold onerror. by repeat case_match. Qed.

(** After closing and unsubscribing, the store listens to nothing. *)
Lemma drop_relay_quiet a :
  wired a → length (clients (drop_relay a)) = length (clients a)
  ∧ ∀ k c, clients (drop_relay a) !! k = Some c → store_listener ∉ listeners c.
Proof.
  intros (Hu & Hb & Hl). unfold drop_relay. rewrite Hu. destruct (relay a) as [r|] eqn:E.
  2: { split; [done|]. intros k c Hc. by rewrite (Hl _ _ Hc). }
  cbn [clients set_clients]. split; [by rewrite !length_alter|]. intros k c Hc.
  destruct (decide (k = r)) as [->|Hk].
  - rewrite list_lookup_alter_eq, list_lookup_alter_eq in Hc.
    destruct (clients a !! r); [|done]. injection Hc as <-. cbn [listeners unsubscribe].
    rewrite list_elem_of_filter. tauto.
  - rewrite !list_lookup_alter_ne in Hc by done. rewrite (Hl _ _ Hc). congruence.
Qed.

Lemma forget_relay_quiet a :
  wired a → relay (forget_relay a) = None ∧ relayUnsub (forget_relay a) = None
  ∧ wired (forget_relay a).
Proof.
  intros H. pose proof (drop_relay_quiet a H) as [_ Hq]. unfold forget_relay.
  destruct (relay a) eqn:E; [|pose proof H as (Hu & _); split_and!; [done|congruence|exact H]].
  split; [done|]. split; [done|]. split; [done|]. split; [done|]. cbn. intros k c Hc.
  specialize (Hq _ _ Hc). split; [done|discriminate].
Qed.

Lemma wired_connect now u a : wired a → wired (command now (C_connect u) a).1.
Proof.
  intros H. destruct (drop_relay_quiet a H) as [Hlen Hq]. cbn [run_command].
  unfold connect_to. pose proof (listeners_connect (subscribe store_listener (new_client u))) as Hs.
  destruct (connect _ _) as [c r]. cbn [fst] in Hs.
  apply (wired_ext (set_relay (Some (length (clients a))) (Some (length (clients a)))
                      (set_clients (clients (drop_relay a) ++ [c]) (drop_relay a))));
    [by destruct r; cbn [fst]; rewrite ?Hlen..|]. split; [done|].
  cbn [relay relayUnsub set_relay clients set_clients]. split.
  - intros k [= <-]. rewrite length_app. cbn. lia.
  - intros k c' Hc. apply lookup_snoc_Some in Hc as [[Hk Hc]|[-> <-]].
    + rewrite <- Hlen. specialize (Hq _ _ Hc). split; [done|]. intros [= <-]. lia.
    + rewrite Hs, Hlen. split; [done|]. intros _. cbn. by apply list_elem_of_singleton.
Qed.

Lemma wired_ts f a : wired a → wired (update f a).
Proof. done. Qed.

Lemma wired_exec now e a : wired a → wired (run now e a).
Proof.
  intros H. destruct e as [c|k i se|j|j]; cbn [exec].
  - destruct (plays c) eqn:Ec.
    { destruct (plays_played now c a Ec) as ([=] & _). by eapply wired_ext. }
    destruct c; try done; [|by cbn; unfold setHeight; case_match|by apply (wired_connect now u)|].
    + apply (wired_ext (forget_relay (set_nonce 0 a))); [done..|]. by apply forget_relay_quiet.
    + apply (wired_ext (forget_relay a)); [done..|]. by apply forget_relay_quiet.
  - destruct (clients a !! k) as [c|] eqn:Ec; [|done].
    pose proof (listeners_on_socket i se c) as Hs. destruct (on_socket sha256 i se c) as [[c' evs] s].
    cbn [fst] in Hs. set (a' := update _ _).
    assert (wired a').
    { destruct H as (Hu & Hb & Hl). split; [done|]. subst a'. cbn. split.
      - intros j. rewrite length_insert. apply Hb.
      - intros j d. rewrite list_lookup_insert_Some. intros [(-> & <- & _)|[_ Hd]]; [|by apply Hl].
        rewrite Hs. by apply Hl. }
    by destruct se as [| | |[|]].
  - destruct (outbox a !! j) as [[k b]|]; [|done]. by repeat case_match.
  - destruct (inbox a !! j) as [[k b]|]; [|done]. by repeat case_match.
Qed.

Lemma wired_init : wired initial_app.
Proof. done. Qed.

Lemma reach_wired evs a : reach evs a → wired a.
Proof. induction 1; [exact wired_init|by apply wired_exec]. Qed.

(** ** The table *)

Definition same_table (t t' : TableStore) : Prop :=
  st_state t' = st_state t ∧ settlement t' = settlement t.

Lemma onRelayEvent_same now ev t :
  (∀ f, ev ≠ ev_frame f) → same_table t (onRelayEvent parse_state parse_error now ev t).
Proof. by destruct ev; intros H; [..|destruct (H frame)]. Qed.

Lemma connect_settled_same now s t : same_table t (connect_settled now s t).
Proof. by destruct s. Qed.

Lemma same_table_trans t1 t2 t3 : same_table t1 t2 → same_table t2 t3 → same_table t1 t3.
Proof. unfold same_table. intros [-> ->] [-> ->]. done. Qed.

(** What the handlers of a socket emit at once are never frames. *)
Lemma on_socket_frames i e c :
  Forall (λ ev, ∀ f, ev ≠ ev_frame f) (on_socket sha256 i e c).1.2.
Proof.
  destruct e as [| | |[|]]; cbn; [repeat constructor; done| |repeat constructor; done..|constructor].
  unfold onerror. repeat case_match; repeat constructor; done.
Qed.

Lemma emit_all_same now c evs t :
  Forall (λ ev, ∀ f, ev ≠ ev_frame f) evs →
  same_table t (emit_all parse_state parse_error now c evs t).
Proof.
  unfold emit_all. case_bool_decide; [|done]. clear. intros H. revert t.
  induction H as [|ev evs Hev _ IH]; intros t; [done|]. cbn [foldl].
  eapply same_table_trans; [by apply onRelayEvent_same|apply IH].
Qed.

(** A frame changes the table only if it carries a state that parses. *)
Lemma handleFrame_table now f t :
  let t' := handleFrame parse_state parse_error now f t in
  same_table t t'
  ∨ type f = msg_code TableState ∧ parse_state (payload f) = Ret (st_state t')
    ∧ settlement t' = settlement t.
Proof.
  cbv zeta. unfold handleFrame. destruct (Z.eqb_spec (type f) (msg_code TableState)) as [E|_].
  - destruct (parse_state _) eqn:Ep; [right|by left..]. done.
  - repeat case_match; by left.
Qed.

(** C28: who may change the table.  In every application that events can lead to, an event
    changes the state or the settlement shown only in one of three ways: the user resets; the
    user plays while there is no relay, and then the engine accepted the action; or there is a
    relay, and a frame of its client, and of no other, carries a state. *)
Theorem table_authority evs a e now :
  reach evs a → enabled e a = true →
  let t := ts a in let t' := ts (run now e a) in
  same_table t t'
  ∨ (e = User C_reset ∧ st_state t' = startState ∧ settlement t' = None)
  ∨ (∃ c, relay a = None ∧ e = User c ∧ plays c = true ∧ local_step t t')
  ∨ (∃ j k b f n, relay a = Some k ∧ e = Deliver j ∧ inbox a !! j = Some (k, b)
      ∧ decode sha256 b = Ret (f, n) ∧ type f = msg_code TableState
      ∧ parse_state (payload f) = Ret (st_state t') ∧ settlement t' = settlement t).
Proof.
  intros Hr _ t t'. subst t t'. destruct (reach_wired evs a Hr) as (_ & _ & Hl).
  destruct e as [c|k i se|j|j]; cbn [exec].
  - destruct (plays c) eqn:Ec.
    { destruct (plays_played now c a Ec) as (_ & _ & H). destruct (relay a) eqn:E.
      - left. destruct H as (H1 & H2 & _). done.
      - right. right. left. exists c. by destruct H. }
    destruct c; try done.
    + by right; left.
    + left. cbn. unfold setHeight. by case_match.
    + left. cbn [run_command]. unfold connect_to, drop_relay. destruct (connect _ _) as [c r].
      by repeat case_match.
    + left. cbn [run_command fst disconnect]. unfold forget_relay, drop_relay. by repeat case_match.
  - left. destruct (clients a !! k) as [c|]; [|done].
    pose proof (on_socket_frames i se c) as Hf. destruct (on_socket sha256 i se c) as [[c' evs'] s].
    cbn [fst snd] in Hf. destruct se as [| | |[|]]; cbn [ts update set_ts set_clients set_inbox];
      (eapply same_table_trans; [by apply (emit_all_same now c')|apply connect_settled_same]).
  - left. destruct (outbox a !! j) as [[k b]|]; [|done]. by repeat case_match.
  - destruct (inbox a !! j) as [[k b]|] eqn:Ej; [|by left]. cbn [clients set_inbox].
    destruct (clients a !! k) as [c|] eqn:Ec; [|by left].
    cbn [ts update set_ts set_inbox]. unfold emit_all. case_bool_decide as Hin; [|by left].
    apply (Hl k c Ec) in Hin. unfold received, handleMessage.
    destruct (decode sha256 b) as [[f n]| |] eqn:Ed; [|by left..]. cbn [foldl onRelayEvent].
    destruct (handleFrame_table now f (ts a)) as [H|(H1 & H2 & H3)]; [by left|].
    right. right. right. by exists j, k, b, f, n.
Qed.

(** ** Offline *)

Abbreviation table_session := (session defaultRuleSet GAME_ID RULE_HASH RECOVERY_DEADLINE).

Definition connects (e : Event) : bool :=
  match e with User (C_connect _) => true | _ => false end.

(** An application that has never had a relay *)
Definition alone (a : App) : Prop :=
  relay a = None ∧ clients a = [] ∧ outbox a = [] ∧ inbox a = [] ∧ sent a = []
  ∧ connection (ts a) = offline ∧ st_ruleSet (ts a) = defaultRuleSet
  ∧ table_session (st_state (ts a))
  ∧ ∀ x, settlement (ts a) = Some x →
         ∃ s, table_session s ∧ computeSettlement s defaultRuleSet = Ret (Ok x).

Lemma fresh_session : table_session startState.
Proof. exists []. apply trace_init. Qed.

Lemma alone_init : alone initial_app.
Proof. split_and!; try done. apply fresh_session. Qed.

Lemma alone_plays a a' : alone a → played a a' → alone a'.
Proof.
  intros (Hr & Hc & Ho & Hi & Hs & Hcn & Hrs & [acts Ht] & Hset) ([= E1 E2 E3 E4 E5] & Hk & H).
  rewrite Hr in H. destruct H as [Hl Eo], Hk as (K1 & _ & K3 & _).
  assert (Hn : table_session (st_state (ts a'))).
  { destruct Hl as [[-> _]|(act & Ha & _)]; [by exists acts|]. rewrite Hrs in Ha.
    exists (acts ++ [act]). by eapply trace_step. }
  split_and!; try congruence. intros x Hx.
  destruct Hl as [[_ E]|(act & _ & [E|(y & Ey & Hy)])]; [apply Hset; congruence..|].
  exists (st_state (ts a)). split; [by exists acts|]. rewrite Hx in Ey. injection Ey as ->. by rewrite <- Hrs.
Qed.

Lemma alone_step now e a : alone a → connects e = false → enabled e a = true → alone (run now e a).
Proof.
  intros H He Hen. destruct e as [c|k i se|j|j]; cbn [exec].
  - destruct (plays c) eqn:Ec; [by eapply alone_plays, plays_played|].
    destruct H as (Hr & Hc & Ho & Hi & Hs & Hcn & Hrs & Hses & Hset).
    destruct c; try done; cbn [run_command fst reset disconnect setHeight]; unfold forget_relay.
    + cbn [relay set_nonce]. rewrite Hr. split_and!; try done. apply fresh_session.
    + unfold setHeight. case_match; split_and!; done.
    + rewrite Hr. split_and!; done.
  - cbn [enabled] in Hen. destruct H as (_ & Hc & _). by rewrite Hc in Hen.
  - cbn [enabled] in Hen. destruct H as (_ & _ & Ho & _). rewrite Ho in Hen. done.
  - cbn [enabled] in Hen. destruct H as (_ & _ & _ & Hi & _). rewrite Hi in Hen. done.
Qed.

(** C29: offline, the application plays the engine's game.  As long as the user never connects,
    there is no relay and nothing is sent, the state shown is one of the sessions of the
    engine under the default rules, and a settlement shown is one the engine computed for a
    state of such a session. *)
Theorem offline_play_is_session evs a :
  reach evs a → forallb (λ e, negb (connects e)) evs = true → alone a.
Proof.
  intros H. induction H as [|evs a e now H IH Hen]; [intros _; exact alone_init|].
  rewrite forallb_app, andb_true_iff. cbn [forallb]. rewrite andb_true_r, negb_true_iff.
  intros [H1 H2]. apply alone_step; auto.
Qed.

(** ** What is sent *)

(** Every frame on its way carries an action, to a client there is. *)
Definition carries_action (kb : nat * bytes) (a : App) : Prop :=
  (kb.1 < length (clients a))%nat
  ∧ ∃ action, encode sha256 (mkFrame VERSION_1_0 (msg_code Action) (json action)) = Ret kb.2.

Definition sends_actions (a : App) : Prop :=
  Forall (λ kb, carries_action kb a) (outbox a ++ sent a).

Lemma sends_actions_ext a a' :
  (length (clients a) ≤ length (clients a'))%nat →
  (∀ kb, kb ∈ outbox a' ++ sent a' → kb ∈ outbox a ++ sent a) →
  sends_actions a → sends_actions a'.
Proof.
  unfold sends_actions. rewrite !list.Forall_forall. intros Hl Hi H kb Hkb.
  destruct (H kb (Hi kb Hkb)) as [H1 H2]. split; [lia|done].
Qed.

Lemma clients_drop a : length (clients (drop_relay a)) = length (clients a).
Proof. unfold drop_relay. repeat case_match; cbn; by rewrite ?length_alter. Qed.

Lemma mail_drop a : outbox (drop_relay a) = outbox a ∧ sent (drop_relay a) = sent a.
Proof. unfold drop_relay. by repeat case_match. Qed.

Lemma mail_forget a : length (clients (forget_relay a)) = length (clients a)
  ∧ outbox (forget_relay a) = outbox a ∧ sent (forget_relay a) = sent a.
Proof.
  unfold forget_relay. destruct (relay a); [|done]. cbn. rewrite clients_drop.
  destruct (mail_drop a). done.
Qed.

Lemma sends_connect now u a : sends_actions a → sends_actions (command now (C_connect u) a).1.
Proof.
  cbn [run_command]. unfold connect_to. destruct (mail_drop a) as [Eo Es].
  destruct (connect _ _) as [c r]. destruct r; cbn [fst]; apply sends_actions_ext;
    cbn [clients outbox sent update set_ts set_relay set_clients];
    rewrite ?length_app, ?clients_drop, ?Eo, ?Es; by lia || auto.
Qed.

Lemma sends_plays a a' : wired a → played a a' → sends_actions a → sends_actions a'.
Proof.
  intros (_ & Hb & _) ([= Er _ Ec _ Es] & _ & H) Hs.
  assert (Hext : outbox a' = outbox a → sends_actions a').
  { intros E. apply (sends_actions_ext a); [by rewrite Ec|by rewrite E, Es|done]. }
  destruct (relay a) as [k|] eqn:E; [|by apply Hext, H].
  destruct H as (_ & _ & [Eo|(act & b & Eo & He)]); [by apply Hext|].
  unfold sends_actions in *. rewrite Eo, Es, <- app_assoc. apply list.Forall_app in Hs as [H1 H2].
  assert (Hkeep : ∀ l, Forall (λ kb, carries_action kb a) l → Forall (λ kb, carries_action kb a') l).
  { intros l Hl. eapply list.Forall_impl; [exact Hl|]. intros kb. unfold carries_action. by rewrite Ec. }
  apply list.Forall_app. split; [by apply Hkeep|]. apply list.Forall_cons. split; [|by apply Hkeep].
  split; [cbn; rewrite Ec; by apply Hb|by exists act].
Qed.

Lemma send_encoded_same b c l : send_encoded b c = Ret (Some l) → l = b.
Proof. unfold send_encoded. repeat case_match; congruence. Qed.

Lemma sends_step now e a :
  wired a → sends_actions a → sends_actions (run now e a).
Proof.
  intros Hw H. destruct e as [c|k i se|j|j]; cbn [exec].
  - destruct (plays c) eqn:Ec; [by eapply sends_plays, H; [|apply plays_played]|].
    destruct c; try done; [| |by apply (sends_connect now u)|].
    + destruct (mail_forget (set_nonce 0 a)) as (E1 & E2 & E3).
      apply (sends_actions_ext a); cbn; rewrite ?E1, ?E2, ?E3; by auto.
    + cbn. unfold setHeight. by case_match.
    + destruct (mail_forget a) as (E1 & E2 & E3).
      apply (sends_actions_ext a); cbn; rewrite ?E1, ?E2, ?E3; by auto.
  - destruct (clients a !! k) as [c|]; [|done]. destruct (on_socket sha256 i se c) as [[c' ?] s].
    apply (sends_actions_ext a); [..|done]; destruct se as [| | |[|]]; cbn;
      rewrite ?length_insert; by auto.
  - destruct (outbox a !! j) as [[k b]|] eqn:E; [|done].
    assert (Hsub : ∀ kb, kb ∈ delete j (outbox a) ++ sent a ++ [(k, b)] → kb ∈ outbox a ++ sent a).
    { intros kb. rewrite !elem_of_app, list_elem_of_singleton. intros [Hd|[Hd| ->]]; [| |].
      - left. apply list_elem_of_lookup in Hd as [i Hi]. rewrite list_lookup_delete in Hi.
        by case_decide; eapply list_elem_of_lookup_2.
      - by right.
      - left. by eapply list_elem_of_lookup_2. }
    cbv zeta. cbn [clients set_outbox]. destruct (send_encoded b <$> _) as [[[l|]|msg|]|] eqn:Es;
      (apply (sends_actions_ext a); [done| |done]); intros kb Hkb; apply Hsub; cbn in Hkb;
      [apply fmap_Some in Es as (c & _ & Es); symmetry in Es; apply send_encoded_same in Es as ->|..];
      rewrite !elem_of_app in *; tauto.
  - destruct (inbox a !! j) as [[k b]|]; [|done]. by repeat case_match.
Qed.

Lemma reach_sends evs a : reach evs a → sends_actions a.
Proof.
  induction 1 as [|evs a e now H IH Hen]; [by apply list.Forall_nil|].
  by apply sends_step; [eapply reach_wired|].
Qed.

(** Every frame the application has sent, or encoded to be sent, was addressed to a client
    it made, and the receiver reads it as the [Action] frame of one signed action. *)
Theorem sends_only_actions evs a k b :
  (∀ m, length (sha256 m) = 32%nat) →
  reach evs a → (k, b) ∈ outbox a ++ sent a →
  (k < length (clients a))%nat
  ∧ ∃ action, handleMessage sha256 (inr b)
              = Ret (ev_frame (mkFrame VERSION_1_0 (msg_code Action) (json action))).
Proof.
  intros Hd Hr Hin. pose proof (reach_sends evs a Hr) as H. unfold sends_actions in H.
  rewrite list.Forall_forall in H. destruct (H _ Hin) as (Hk & action & He).
  split; [done|]. exists action. set (f := mkFrame _ _ _) in *.
  assert (Hok : frame_ok f = true).
  { unfold encode in He. unfold frame_ok. destruct (Z.ltb_spec MAX_PAYLOAD_SIZE (blen (payload f))); [done|].
    by rewrite (proj2 (Z.leb_le _ _)) by lia. }
  rewrite (encode_Ret sha256 f Hok) in He. injection He as E. unfold handleMessage.
  rewrite <- E, <- (app_nil_r (layout sha256 f)). by rewrite decode_layout.
Qed.

(** ** A lost connection *)

Lemma apply_blocked now action cs a k c :
  relay a = Some k → clients a !! k = Some c → current_ready c ≠ Some OPEN →
  apply sha256 json now action cs a
  = (update (fail_with now "STATE_NOT_FOUND" "RelayClient.sendFrame: socket not open") a, Ret tt).
Proof.
  intros Hr Hc Ho. unfold apply. rewrite Hr, Hc. cbn [fmap option_fmap option_map].
  unfold sendAction, sendFrame. by rewrite bool_decide_eq_false_2.
Qed.

Definition blocked (now : Z) (a : App) (r : App * js unit) : Prop :=
  same_table (ts a) (ts r.1) ∧ outbox r.1 = outbox a ∧ sent r.1 = sent a
  ∧ (lastError (ts r.1)
     = Some (mkRecentError now "STATE_NOT_FOUND" "RelayClient.sendFrame: socket not open")
     ∨ is_throw r.2 = true).

Lemma act_blocked now who p cs a k c :
  relay a = Some k → clients a !! k = Some c → current_ready c ≠ Some OPEN → p ≠ OutOfFuel →
  blocked now a (act sha256 json now who p cs a).
Proof.
  intros Hr Hc Ho Hp. unfold act. cbv zeta. set (a1 := set_nonce _ a).
  destruct (_ ≫= _) as [[nonce pl]|msg|] eqn:E.
  - rewrite (apply_blocked now _ cs a1 k c) by done. split_and!; try done. by left.
  - split_and!; try done. by right.
  - exfalso. unfold nextNonce, asActionNonce in E. by destruct (is_hex_n _ _), p.
Qed.

(** C31: an application whose relay has lost its connection cannot play, neither over the relay
    nor locally: the relay stays set until the user connects, disconnects or resets, so every
    playing command leaves the table as it is, sends nothing and shows an error or throws,
    although the connection is shown as [offline]. *)
Theorem lost_relay_blocks_play evs a k c now cmd :
  reach evs a → relay a = Some k → clients a !! k = Some c → current_ready c ≠ Some OPEN →
  plays cmd = true → blocked now a (command now cmd a).
Proof.
  intros _ Hr Hc Ho Hp. destruct cmd; try done; cbn [run_command]; apply (act_blocked _ _ _ _ _ k c);
    try done. unfold cardFromOrdinal. by repeat case_match.
Qed.
End props.

(** ** Witnesses *)

(** Any string is a URL; a frame with a state shows a closed table. *)
Definition any_url : string → option string := λ _, None.

(** The connection shown can be that of a relay the user has left.  A client that is closed
    before its socket opened still reports the failure of that socket to the command that
    connected it: the application then shows an error although its present relay is open. *)
Theorem stale_failure_shown sha256 json parse_state parse_error :
  ∃ evs a k c, reach sha256 json parse_state parse_error any_url evs a
    ∧ relay a = Some k ∧ clients a !! k = Some c
    ∧ current_ready c = Some OPEN ∧ connection (ts a) = in_error.
Proof.
  set (l := [(1, User (C_connect "ws://first")); (2, User (C_connect "ws://second"));
             (3, Sock 1 0 S_open); (4, Sock 0 0 S_error)]).
  exists (snd <$> l). eexists _, 1%nat, _. split.
  { apply (play_reach _ _ _ _ _ [] initial_app); [apply reach_init|]. vm_compute. reflexivity. }
  done.
Qed.

Definition demo_json : SignedAction → bytes := λ _, [123; 125].
Definition demo_state : bytes → js RoundState := λ _, Ret (set_state_class S12_TABLE_CLOSE startState).
Definition demo_error : bytes → js (string * string) := λ _, Throw "SyntaxError".

Abbreviation demo_reach := (reach cut_sha demo_json demo_state demo_error any_url).
Abbreviation demo_run := (exec cut_sha demo_json demo_state demo_error any_url).
Abbreviation demo_through l :=
  (default initial_app (play_through cut_sha demo_json demo_state demo_error any_url l initial_app)).

Lemma demo_reaches l :
  is_Some (play_through cut_sha demo_json demo_state demo_error any_url l initial_app) →
  demo_reach (snd <$> l) (demo_through l).
Proof.
  intros [a Ha]. rewrite Ha. by apply (play_reach _ _ _ _ _ [] initial_app); [apply reach_init|].
Qed.

(** [TableState] with an empty payload *)
Definition state_message : bytes := layout cut_sha (mkFrame VERSION_1_0 (msg_code TableState) []).

Definition with_relay : list (Z * Event) :=
  [(1, User (C_connect "ws://relay")); (2, Sock 0 0 S_open); (3, User (C_seatJoin 0));
   (4, Flush 0); (5, Sock 0 0 (S_message (inr state_message)))].

Lemma table_authority_witness :
  let a := demo_through with_relay in
  demo_reach (snd <$> with_relay) a ∧ enabled (Deliver 0) a = true
  ∧ st_state (ts (demo_run 6 (Deliver 0) a)) ≠ st_state (ts a)
  ∧ (let t := ts a in let t' := ts (demo_run 6 (Deliver 0) a) in
     same_table t t'
     ∨ (Deliver 0 = User C_reset ∧ st_state t' = startState ∧ settlement t' = None)
     ∨ (∃ c, relay a = None ∧ Deliver 0 = User c ∧ plays c = true ∧ local_step t t')
     ∨ (∃ j k b f n, relay a = Some k ∧ Deliver 0 = Deliver j ∧ inbox a !! j = Some (k, b)
         ∧ decode cut_sha b = Ret (f, n) ∧ type f = msg_code TableState
         ∧ demo_state (payload f) = Ret (st_state t') ∧ settlement t' = settlement t)).
Proof.
  intros a. assert (Hr : demo_reach (snd <$> with_relay) a).
  { apply demo_reaches. vm_compute. by eexists. }
  assert (He : enabled (Deliver 0) a = true) by by vm_compute.
  split; [exact Hr|]. split; [exact He|]. split; [by vm_compute|].
  exact (table_authority cut_sha demo_json demo_state demo_error any_url _ a (Deliver 0) 6 Hr He).
Defined.

(** Two players join, lock, commit and reveal; three cards, a bet, and the settlement *)
Definition first_round : list (Z * Event) :=
  [(1, User (C_seatJoin 0)); (1, User (C_seatJoin 1)); (2, User C_tableLock);
   (3, User (C_entropyCommit 0)); (3, User (C_entropyCommit 1));
   (4, User (C_entropyReveal 0)); (4, User (C_entropyReveal 1));
   (5, User (C_revealCard 3)); (6, User (C_revealCard 11)); (7, User (C_placeBet 10));
   (8, User (C_revealCard 7)); (9, User (C_settle 0))].

Lemma offline_play_witness :
  let a := demo_through first_round in
  demo_reach (snd <$> first_round) a
  ∧ is_Some (settlement (ts a)) ∧ alone a.
Proof.
  intros a. assert (Hr : demo_reach (snd <$> first_round) a).
  { apply demo_reaches. vm_compute. by eexists. }
  split; [exact Hr|]. split; [vm_compute; by eexists|].
  exact (offline_play_is_session cut_sha demo_json demo_state demo_error any_url _ a Hr eq_refl).
Defined.

Lemma sends_only_actions_witness :
  let a := demo_through with_relay in
  let b := layout cut_sha (mkFrame VERSION_1_0 (msg_code Action) [123; 125]) in
  (0%nat, b) ∈ outbox a ++ sent a
  ∧ (0 < length (clients a))%nat
  ∧ ∃ action, handleMessage cut_sha (inr b)
              = Ret (ev_frame (mkFrame VERSION_1_0 (msg_code Action) (demo_json action))).
Proof.
  intros a b. assert (Hin : (0%nat, b) ∈ outbox a ++ sent a).
  { vm_compute. by left. }
  split; [exact Hin|].
  apply (sends_only_actions cut_sha demo_json demo_state demo_error any_url (snd <$> with_relay) a 0 b);
    [apply length_cut_sha|apply demo_reaches; vm_compute; by eexists|exact Hin].
Defined.

Definition after_close : list (Z * Event) :=
  [(1, User (C_connect "ws://relay")); (2, Sock 0 0 S_open); (3, Sock 0 0 (S_close 1006 ""))].

Lemma lost_relay_witness :
  let a := demo_through after_close in
  connection (ts a) = offline
  ∧ blocked 9 a (run_command cut_sha demo_json any_url 9 (C_seatJoin 0) a).
Proof.
  intros a. split; [by vm_compute|].
  eapply (lost_relay_blocks_play cut_sha demo_json demo_state demo_error any_url (snd <$> after_close)).
  - apply demo_reaches. vm_compute. by eexists.
  - by vm_compute.
  - by vm_compute.
  - by vm_compute.
  - reflexivity.
Defined.
