(* ===== verification/Page.v ===== *)
(** * client-web: the page

    [apps/client-web/src/App.tsx]: what the page shows of the table store, and its buttons with
    the command each gives and when it is disabled.  Rendering is React's; markup and styles
    are left out.  The theorem: played from its buttons without a relay, the page shows a
    round of the engine and no button throws. *)

From S2P Require Import Prelude Bytes Primitives Types Engine EngineSpec EngineSafety EngineProps Tx Cli Wire RelayClient Store StoreProps.

(** ** The page *)

Record Button := mkButton { label : string; disabled : bool; onClick : Command }.

(** [<li>] of a player: seat, status and stake at risk *)
Record SeatRow := mkSeatRow {
  row_seat : Seat;
  row_status : ParticipationStatus;
  row_stake_at_risk : Satoshis
}.

(** [connection @ relayUrl], the line on the round, the seats, the cards, and what is shown only
    when there is one *)
Record Page := mkPage {
  connection_mode : string;
  shown_url : option string;
  shown_state_class : StateClass;
  shown_pot : Satoshis;
  seat_count : Z;
  shown_round : RoundNumber;
  shown_acting_seat : string;
  seat_rows : list SeatRow;
  cards_revealed : Z;
  shown_cards : list RevealedCard;
  shown_settlement : option SettlementResult;
  shown_error : option RecentError;
  buttons : list Button
}.

Definition ConnectionMode_string (c : ConnectionMode) : string :=
  match c with
  | offline => "offline" | connecting => "connecting" | online => "online" | in_error => "error"
  end.

(** [String(state.acting_player_seat)] *)
Definition acting_string (s : option Seat) : string :=
  match s with Some x => pretty x | None => "null" end.

Definition RELAY : string := "ws://localhost:8081/ws".

Definition enabled_button (l : string) (c : Command) : Button := mkButton l false c.

Definition connection_buttons (t : TableStore) : list Button :=
  [mkButton "Connect to relay"
     (match connection t with online | connecting => true | _ => false end) (C_connect RELAY);
   mkButton "Disconnect (offline mode)"
     (match connection t with offline => true | _ => false end) C_disconnect].

Definition seat_buttons : list Button :=
  [enabled_button "Seat seat 0" (C_seatJoin 0); enabled_button "Seat seat 1" (C_seatJoin 1);
   enabled_button "Lock table" C_tableLock].

Definition deck_buttons : list Button :=
  [enabled_button "Commit seat 0" (C_entropyCommit 0);
   enabled_button "Commit seat 1" (C_entropyCommit 1);
   enabled_button "Reveal seat 0" (C_entropyReveal 0);
   enabled_button "Reveal seat 1" (C_entropyReveal 1)].

Definition card_buttons : list Button :=
  [enabled_button "Reveal card ordinal 3" (C_revealCard 3);
   enabled_button "Reveal card ordinal 20" (C_revealCard 20);
   enabled_button "Reveal card ordinal 5 (winning third)" (C_revealCard 5);
   enabled_button "Reveal card ordinal 11 (losing third)" (C_revealCard 11)].

Definition bet_buttons (t : TableStore) : list Button :=
  let ruleSet := st_ruleSet t in
  let amount n := (" (" +:+ pretty n +:+ ")")%string in
  [enabled_button ("Bet min" +:+ amount (min_bet ruleSet)) (C_placeBet (min_bet ruleSet));
   enabled_button ("Bet max" +:+ amount (max_bet ruleSet)) (C_placeBet (max_bet ruleSet));
   enabled_button "Pass" C_pass;
   enabled_button "Settle round" (C_settle (default 0 (acting_player_seat (st_state t))))].

Definition footer_buttons : list Button := [enabled_button "Reset" C_reset].

(** The buttons in the order of the page *)
Definition page_buttons (t : TableStore) : list Button :=
  connection_buttons t ++ seat_buttons ++ deck_buttons ++ card_buttons ++ bet_buttons t
  ++ footer_buttons.

(** [App]; an empty URL is shown no more than none. *)
Definition render (t : TableStore) : Page :=
  let s := st_state t in
  mkPage (ConnectionMode_string (connection t))
    (match relayUrl t with Some EmptyString | None => None | Some u => Some u end)
    (state_class s) (pot_value s) (Z.of_nat (length (players s))) (round_number s)
    (acting_string (acting_player_seat s))
    ((λ p, mkSeatRow (seat p) (participation_status p) (stake_at_risk p)) <$> players s)
    (Z.of_nat (length (visible_cards s))) (visible_cards s) (settlement t) (lastError t)
    (page_buttons t).

(** ** Clicking *)

Section click.
Context (sha256 : bytes → bytes).
Context (json : SignedAction → bytes) (parse_state : bytes → js RoundState)
        (parse_error : bytes → js (string * string)) (url_error : string → option string).

Abbreviation run now := (exec sha256 json parse_state parse_error url_error now).
Abbreviation command now := (run_command sha256 json url_error now).

(** Clicks at some times, each on a button that is on the page and not disabled *)
Inductive clicked : list string → App → Prop :=
  | clicked_none : clicked [] initial_app
  | clicked_one ls a b now :
      clicked ls a → b ∈ buttons (render (ts a)) → disabled b = false →
      clicked (ls ++ [label b]) (run now (User (onClick b)) a).

(** Clicking by label *)
Fixpoint click_through (l : list (Z * string)) (a : App) : option App :=
  match l with
  | [] => Some a
  | (now, l0) :: l =>
    match find (λ b, bool_decide (label b = l0) && negb (disabled b)) (buttons (render (ts a))) with
    | Some b => click_through l (run now (User (onClick b)) a)
    | None => None
    end
  end.

Lemma click_through_clicked ls a l a' :
  clicked ls a → click_through l a = Some a' → clicked (ls ++ (snd <$> l)) a'.
Proof using Type.
  revert ls a. induction l as [|[now l0] l IH]; intros ls a H; cbn [click_through].
  { intros [= ->]. by rewrite app_nil_r. }
  destruct (find _ _) as [b|] eqn:E; [|done]. apply find_some in E as [Hin E].
  apply andb_true_iff in E as [E1%bool_decide_eq_true E2%negb_true_iff]. intros Hc.
  assert (H' := clicked_one ls a b now H (proj2 (list_elem_of_In _ _) Hin) E2).
  specialize (IH _ _ H' Hc). rewrite <- app_assoc in IH. by rewrite E1 in IH.
Qed.

(** A click is one of the events of the application. *)
Lemma clicked_reach ls a :
  clicked ls a → ∃ cs, reach sha256 json parse_state parse_error url_error (User <$> cs) a
    ∧ length cs = length ls ∧ (Forall (λ l, l ≠ "Connect to relay") ls →
        forallb (λ e, negb (connects e)) (User <$> cs) = true).
Proof using Type.
  induction 1 as [|ls a b now _ (cs & Hr & Hlen & Hc) Hb Hd].
  { exists []. split_and!; [apply reach_init|done|done]. }
  exists (cs ++ [onClick b]). rewrite fmap_app. split_and!.
  - by apply reach_step.
  - rewrite !length_app. cbn. lia.
  - intros [H1 H2]%list.Forall_app. rewrite forallb_app, Hc by done. cbn. rewrite andb_true_r.
    apply list.Forall_cons in H2 as [H2 _]. revert Hb H2. cbn [render buttons].
    unfold page_buttons, connection_buttons, seat_buttons, deck_buttons, card_buttons, bet_buttons,
      footer_buttons. cbn [app]. cbv zeta. rewrite !elem_of_cons.
    intros Hb H2. repeat destruct Hb as [->|Hb]; try done. by apply elem_of_nil in Hb.
Qed.
End click.

(** ** What the page can bring the table to *)

Definition PAGE_CARDS : list Z := [3; 20; 5; 11].

Definition untouched (s : RoundState) : Prop := Forall (λ p, stake_at_risk p = 1000) (players s).

Definition page_stage (s : RoundState) : Prop :=
  match state_class s with
  | S1_SEAT_OPEN | S3_ENTROPY_COMMIT_WINDOW | S4_ENTROPY_REVEAL_WINDOW | S5_DECK_COMMITTED
  | S6_CARD_REVEAL_FIRST | S8_BET_DECISION => pot_value s = 0 ∧ untouched s
  | S9_CARD_REVEAL_THIRD | S10_SETTLED_ROUND => pot_value s ∈ [1; 100] ∧ untouched s
  | S11_ROTATE_TURN => True
  | _ => False
  end.

Definition seat_of_page (x : Seat) : Prop := x = 0 ∨ x = 1.
Definition card_of_page (c : RevealedCard) : Prop :=
  ordinal c ∈ PAGE_CARDS ∧ cardFromOrdinal (ordinal c) = Ret c.

Record page_ok (s : RoundState) : Prop := {
  po_session : session defaultRuleSet GAME_ID RULE_HASH RECOVERY_DEADLINE s;
  po_round : round_number s = 0;
  po_seats : Forall seat_of_page (seats s);
  po_cards : Forall card_of_page (visible_cards s);
  po_count : (length (visible_cards s) ≤ 3)%nat;
  po_stage : page_stage s;
  po_total : ∃ bet, bet ∈ [0; 1; 100] ∧ total s = 1000 * Z.of_nat (length (players s)) + bet
}.

(** The actions behind the buttons *)
Inductive page_action (who : option Seat) : ActionPayload → Prop :=
  | pa_join x : who = Some x → seat_of_page x →
      page_action who (JoinAction (pubkeyForSeat x) 1000)
  | pa_lock : page_action who TableLockAction
  | pa_commit c : page_action who (EntropyCommitAction c)
  | pa_reveal e : page_action who (EntropyRevealAction e)
  | pa_card rp : card_of_page (revealed_card rp) → page_action who (CardRevealAction rp)
  | pa_bet n : n ∈ [1; 100] → page_action who (BetAction_ n)
  | pa_pass : page_action who PassAction
  | pa_settle : page_action who SettleAction.

Lemma small_sats n : 0 ≤ n ≤ 2000 → is_sats n.
Proof. unfold is_sats, MAX_SAFE_INTEGER. lia. Qed.

(** Settling never overdraws: a stake is 1000 and at most 100 moves. *)
Lemma settle_players_page x delta ps :
  Forall (λ p, stake_at_risk p = 1000) ps → -1000 ≤ delta ≤ 1000 →
  ∃ ps', settle_players x delta ps = Ret ps'.
Proof.
  intros H Hd. induction H as [|p ps Hp _ [ps' IH]]; cbn [settle_players]; [by eexists|].
  destruct (negb (seat p =? x)); cbn [mbind js_bind]; [rewrite IH; by eexists|].
  cbv zeta. rewrite Hp. assert (Hs : is_sats (1000 + delta)) by (apply small_sats; lia).
  rewrite (proj2 (unsafe_sum 1000 delta) Hs), js_add_sats by done.
  rewrite (proj2 (asSatoshis_Ret _ _) (conj eq_refl Hs)). cbn [mbind js_bind]. rewrite IH. by eexists.
Qed.

(** What is at stake when a round of the page is settled *)
Lemma transfer_page o bet pd qd :
  bet ∈ [1; 100] → computeValueTransfer o bet (settlement_rules defaultRuleSet) = (pd, qd) →
  -100 ≤ pd ≤ 100 ∧ pd + qd = 0 ∧ 0 ≤ bet + qd ≤ 200.
Proof.
  intros Hb H. rewrite !elem_of_cons in Hb.
  destruct Hb as [->|[->|H0]]; [..|by apply elem_of_nil in H0]; destruct o; vm_compute in H;
    injection H as <- <-; lia.
Qed.

(** No action of the page throws. *)
Lemma page_action_returns s a h :
  page_ok s → page_action (act_acting_player_seat (act_base a)) (Types.payload a) →
  ∃ r, applyAction s a defaultRuleSet h = Ret r.
Proof.
  intros Hs Ha. unfold applyAction. cbv zeta. destruct (negb _); [by eexists|].
  destruct (_ && _); [by eexists|]. pose proof (po_stage s Hs) as Hst. unfold page_stage in Hst.
  destruct Ha as [x Hx Hxp| | | | |n Hn| |]; unfold applyTableLock, applyEntropyCommit,
    applyEntropyReveal, applyCardReveal, applyPass;
    try (repeat case_match; by eexists).
  - unfold applyJoin. destruct (negb _); [by eexists|]. destruct (negb _); [by eexists|].
    destruct (_ <=? _); [by eexists|]. rewrite Hx. change (default _ (Some x)) with x.
    rewrite (proj2 (asSeat_Ret x x)) by (unfold MAX_SAFE_INTEGER; destruct Hxp as [-> | ->]; lia).
    cbn [mbind js_bind]. destruct (existsb _ _); by eexists.
  - unfold applyBet. destruct (negb _) eqn:Hc; [by eexists|]. apply negb_class in Hc.
    rewrite Hc in Hst. destruct Hst as [-> _]. destruct (_ || _); [by eexists|].
    rewrite !elem_of_cons in Hn. destruct Hn as [->|[->|H0]]; [..|by apply elem_of_nil in H0];
      by eexists.
  - unfold applySettle. destruct (negb (is_class _ _)) eqn:Hc; [by eexists|]. apply negb_class in Hc.
    rewrite Hc in Hst. destruct Hst as [Hpot Hun].
    destruct (negb _) eqn:Hlen; [by eexists|]. apply negb_false_iff, Nat.eqb_eq in Hlen.
    destruct (acting_player_seat s) as [x|]; [|by eexists].
    destruct (visible_cards s) as [|c1 [|c2 [|c3 [|]]]]; try done.
    destruct (classify_outcome c1 c2 c3) as (o & chk & -> & _). cbn [mbind js_bind].
    destruct (computeValueTransfer _ _ _) as [pd qd] eqn:Ev.
    destruct (transfer_page _ _ _ _ Hpot Ev) as (Hpd & Hbal & Hq).
    pose proof (unsafe_sum (pot_value s) qd) as Hu. destruct (_ || _); [by eexists|].
    destruct (settle_players_page x pd (players s) Hun) as [ps' ->]; [lia|]. cbn [mbind js_bind].
    pose proof (proj1 Hu eq_refl) as Hok. rewrite js_add_sats by done.
    rewrite (proj2 (asSatoshis_Ret _ _) (conj eq_refl Hok)). by eexists.
Qed.

(** Nor does the announcement of a settlement. *)
Lemma computeSettlement_page s :
  page_ok s → ∃ r, computeSettlement s defaultRuleSet = Ret r
    ∧ ∀ x, r = Ok x → sr_bet_amount x ∈ [1; 100].
Proof.
  intros Hs. pose proof (po_stage s Hs) as Hst. unfold page_stage in Hst. unfold computeSettlement.
  destruct (negb (is_class _ _)) eqn:Hc; [by eexists|]. apply negb_class in Hc.
  rewrite Hc in Hst. destruct Hst as [Hpot Hun].
  destruct (acting_player_seat s) as [x|]; [|by eexists].
  destruct (negb _) eqn:Hlen; [by eexists|]. apply negb_false_iff, Nat.eqb_eq in Hlen.
  destruct (visible_cards s) as [|c1 [|c2 [|c3 [|]]]]; try done.
  destruct (classify_outcome c1 c2 c3) as (o & chk & -> & _). cbn [mbind js_bind]. cbv zeta.
  destruct (computeValueTransfer _ _ _) as [pd qd] eqn:Ev.
  destruct (transfer_page _ _ _ _ Hpot Ev) as (Hpd & Hbal & Hq).
  destruct (settle_players_page x pd (players s) Hun) as [ps' Hps]; [lia|].
  pose proof (settlement_balances_players x pd (players s)) as Hb. rewrite Hps in Hb. rewrite Hb.
  cbn [mbind js_bind].
  rewrite (proj2 (asSatoshis_Ret (Z.abs pd) _)) by (split; [done|apply small_sats; lia]).
  cbn [mbind js_bind].
  assert (Hs' : is_sats (pot_value s + qd)) by (apply small_sats; lia).
  pose proof (clampSat_sats (js_add (pot_value s) qd)) as Hcl.
  rewrite (proj2 (unsafe_sum (pot_value s) qd) Hs') in Hcl. rewrite Hcl. cbn [mbind js_bind].
  eexists. split; [done|]. by intros x' [= <-].
Qed.

Lemma page_ok_start : page_ok startState.
Proof.
  split; try done; [exists []; apply trace_init|repeat constructor..|]. exists 0. split; [by left|done].
Qed.

Lemma defaultRuleSet_sats : is_sats (stake_amount defaultRuleSet).
Proof. by split. Qed.

(** A commit or a reveal leaves seats and stakes. *)
Lemma at_seat_page x p q ps ps' :
  at_seat x p q ps ps' → seat q = seat p → stake_at_risk q = stake_at_risk p →
  seat <$> ps' = seat <$> ps ∧ length ps' = length ps
  ∧ (Forall (λ p, stake_at_risk p = 1000) ps → Forall (λ p, stake_at_risk p = 1000) ps').
Proof.
  intros H Hs Hr. pose proof (at_seat_fmap seat _ _ _ _ _ H Hs) as E. split_and!; [done| |].
  - apply (f_equal length) in E. by rewrite !length_fmap in E.
  - intros Hf. eapply at_seat_forall; [exact H|exact Hf|congruence].
Qed.

Lemma untouched_sum ps :
  Forall (λ p, stake_at_risk p = 1000) ps →
  sum (stake_at_risk <$> ps) = 1000 * Z.of_nat (length ps).
Proof.
  induction 1 as [|p ps Hp _ IH]; [done|]. rewrite fmap_cons.
  change (sum (?y :: ?l)) with (y + sum l). rewrite Hp, IH. cbn [length]. lia.
Qed.

(** A step that keeps the seats and the value on the table *)
Lemma page_kept s s' :
  page_ok s → session defaultRuleSet GAME_ID RULE_HASH RECOVERY_DEADLINE s' →
  round_number s' = round_number s → seats s' = seats s → total s' = total s + 0 →
  Forall card_of_page (visible_cards s') → (length (visible_cards s') ≤ 3)%nat → page_stage s' →
  page_ok s'.
Proof.
  intros [_ Hr Hs _ _ _ (bet & Hbet & Ht)] Hses Er Es Et Hc Hl Hst.
  split; [done|congruence|by rewrite Es|done|done|done|].
  exists bet. split; [done|]. rewrite Et, Ht, <- (length_fmap seat (players s')), Es, length_fmap. lia.
Qed.

(** A commit or a reveal of entropy *)
Lemma page_entropy s s' x p q :
  page_ok s → session defaultRuleSet GAME_ID RULE_HASH RECOVERY_DEADLINE s' →
  state_class s = S3_ENTROPY_COMMIT_WINDOW ∨ state_class s = S4_ENTROPY_REVEAL_WINDOW →
  at_seat x p q (players s) (players s') → seat q = seat p → stake_at_risk q = stake_at_risk p →
  round_number s' = round_number s → visible_cards s' = visible_cards s →
  pot_value s' = pot_value s → total s' = total s + 0 →
  match state_class s' with
  | S3_ENTROPY_COMMIT_WINDOW | S4_ENTROPY_REVEAL_WINDOW | S5_DECK_COMMITTED => True
  | _ => False
  end → page_ok s'.
Proof.
  intros Hok Hses Hc Hat Hq Hr Er Ev Ep Et Hc'. pose proof (po_stage s Hok) as Hst.
  destruct (at_seat_page _ _ _ _ _ Hat Hq Hr) as (E1 & _ & E3).
  apply (page_kept s); [done..|rewrite Ev; apply Hok|rewrite Ev; apply Hok|].
  unfold page_stage, untouched in *.
  assert (pot_value s' = 0 ∧ Forall (λ p, stake_at_risk p = 1000) (players s')).
  { rewrite Ep. destruct Hc as [Hc|Hc]; rewrite Hc in Hst; (split; [apply Hst|apply E3, Hst]). }
  by destruct (state_class s').
Qed.

Lemma page_step s a h s' :
  page_ok s → page_action (act_acting_player_seat (act_base a)) (Types.payload a) →
  applyAction s a defaultRuleSet h = Ret (Ok s') → page_ok s'.
Proof.
  intros Hok Ha Hap. pose proof Hok as [Hses Hround Hseats Hcards Hcount Hstage [bet [Hbet Htot]]].
  pose proof (session_inv defaultRuleSet _ _ _ defaultRuleSet_sats s Hses) as Hinv.
  pose proof (session_transition defaultRuleSet _ _ _ defaultRuleSet_sats _ _ _ _ Hses Hap) as Ht.
  pose proof (total_step defaultRuleSet _ _ _ _ _ _ _ Hinv Ht) as Htot'.
  assert (Hses' : session defaultRuleSet GAME_ID RULE_HASH RECOVERY_DEADLINE s').
  { destruct Hses as [acts Htr]. exists (acts ++ [a]). by eapply trace_step. }
  pose proof (inv_stage _ _ _ _ _ (session_inv defaultRuleSet _ _ _ defaultRuleSet_sats s' Hses')) as Hst'.
  unfold deposit in Htot'. unfold page_stage in Hstage.
  destruct a as [b p]. cbn [act_base Types.payload] in *.
  destruct Ht as [s act pk x Hc Hlt Hx Hrange Hni|s act Hc Hmin|s act c x q ps' Hc Hx Hat Hcom
    |s act e x q ps' Hc Hx Hat Hcom Hrev|s act rp sc Hsc|s act cards|s act n Hc Hn Hsat|s act Hc
    |s act x q ps' deck|s act x c1 c2 c3 o pd qd ps' Hc Hx Hv Ho Htr Hsat Hps|s act n|s act
    |s act|s act da x d|s act tr d]; try (by inversion Ha); try rewrite Hc in Hstage.
  - inversion Ha as [y Hy Hyp E| | | | | | |]. rewrite Hy in Hx. change (default _ (Some y)) with y in Hx.
    subst pk. destruct Hstage as [Hp Hun]. split; [done|done| |done|done| |].
    + unfold seats. cbn. rewrite fmap_app. apply list.Forall_app. split; [done|].
      constructor; [|done]. cbn. by rewrite Hx.
    + unfold page_stage. cbn. rewrite Hc. split; [done|]. apply list.Forall_app. split; [done|].
      by repeat constructor.
    + exists bet. split; [done|]. rewrite Htot'. cbn. rewrite length_app. cbn in *. lia.
  - by apply (page_kept s).
  - apply (page_entropy s _ _ _ _ Hok Hses' ltac:(by left) Hat); try done.
    by cbn; destruct (forallb _ _).
  - apply (page_entropy s _ _ _ _ Hok Hses' ltac:(by right) Hat); try done.
    by cbn; destruct (forallb _ _).
  - inversion Ha as [| | | |rp' Hrp E| | |]. subst rp'. unfold stage_ok in Hst'. cbn in Hst'.
    assert (Hlen : (length (visible_cards s ++ [revealed_card rp]) ≤ 3)%nat ∧ page_stage
      (enter sc s |> set_visible_cards (visible_cards s ++ [revealed_card rp])
         |> set_acting_player_seat (actor_after_reveal s))).
    { unfold page_stage. cbn. unfold cards_shown in Hst'. cbn in Hst'. rewrite Hround in Hst'.
      destruct (state_class s); try done; injection Hsc as <-; cbn in Hst'; destruct Hst' as [-> _];
        (split; [lia|exact Hstage]). }
    destruct Hlen as [Hlen Hstage']. apply (page_kept s); try done.
    cbn. apply list.Forall_app. split; [done|]. by constructor.
  - inversion Ha as [| | | | |n' Hn' E| |]. subst n'. destruct Hstage as [Hp Hun].
    split; [done|done|done|done|done| |].
    + unfold page_stage. cbn. rewrite Hp. by split.
    + exists n. split; [by right|]. rewrite Htot'. unfold total. rewrite Hp, (untouched_sum _ Hun).
      cbn. lia.
  - by apply (page_kept s).
  - apply (page_kept s); try done. by eapply (settled_fmap seat); [|exact Hps].
Qed.

(** ** Nonces *)

Lemma all_lower_hex_zeros n s : all_lower_hex s = true → all_lower_hex (zeros n s) = true.
Proof. intros H. by induction n. Qed.

Lemma length_zeros n s : String.length (zeros n s) = (n + String.length s)%nat.
Proof. induction n as [|n IH]; [done|]. cbn. by rewrite IH. Qed.

Lemma toString16_digits n :
  0 ≤ n ≤ 2 ^ 53 → all_lower_hex (toString16 n) = true ∧ (String.length (toString16 n) ≤ 64)%nat.
Proof.
  intros Hn. assert (Hb : Forall is_byte (be_bytes n)) by (by apply Forall_reverse, le_bytes_byte).
  assert (Hl : (length (be_bytes n) ≤ 7)%nat).
  { unfold be_bytes. rewrite length_reverse, length_le_bytes.
    pose proof (Z.log2_le_mono n (2 ^ 53) ltac:(lia)) as H. rewrite Z.log2_pow2 in H by lia.
    assert (Z.log2 n / 8 ≤ 53 / 8) by (apply Z.div_le_mono; lia). change (53 / 8) with 6 in *. lia. }
  pose proof (is_hex_n_of_bytes _ _ Hb eq_refl) as Hx. unfold is_hex_n in Hx.
  apply andb_true_iff in Hx as [Hlen%Nat.eqb_eq Hall].
  unfold toString16. destruct (to_hex (be_bytes n)) as [|c [|d r]]; cbn in *; [split; [done|lia]..|].
  apply andb_true_iff in Hall as [Hc Hall]. destruct (_ =? 48); cbn; (split; [|lia]); [done|].
  by rewrite Hc.
Qed.

Lemma nextNonce_page n : 0 ≤ n ≤ 2 ^ 53 → ∃ x, nextNonce n = Ret x.
Proof.
  intros Hn. destruct (toString16_digits n Hn) as [Hh Hl].
  unfold nextNonce, asActionNonce, is_hex_n, pad_start. rewrite length_zeros, all_lower_hex_zeros by done.
  replace (64 - _ + _)%nat with 64%nat by lia. cbn. by eexists.
Qed.

(** ** Playing from the page *)

Section play.
Context (sha256 : bytes → bytes).
Context (json : SignedAction → bytes) (parse_state : bytes → js RoundState)
        (parse_error : bytes → js (string * string)) (url_error : string → option string).

Abbreviation run now := (exec sha256 json parse_state parse_error url_error now).
Abbreviation command now := (run_command sha256 json url_error now).

(** The page without a relay *)
Record page_app (a : App) : Prop := {
  pg_relay : relay a = None;
  pg_nonce : 0 ≤ nonceCounter a ≤ 2 ^ 53;
  pg_rules : st_ruleSet (ts a) = defaultRuleSet;
  pg_connection : connection (ts a) = offline;
  pg_url : relayUrl (ts a) = None;
  pg_state : page_ok (st_state (ts a));
  pg_settlement : ∀ x, settlement (ts a) = Some x →
    ∃ s, page_ok s ∧ computeSettlement s defaultRuleSet = Ret (Ok x)
}.

Lemma page_app_init : page_app initial_app.
Proof using Type. split; try done. apply page_ok_start. Qed.

Lemma apply_page now action cs a :
  page_app a →
  page_action (act_acting_player_seat (act_base action)) (Types.payload action) →
  (apply sha256 json now action cs a).2 = Ret tt ∧ page_app (apply sha256 json now action cs a).1.
Proof using Type.
  intros [Hr Hn Hrs Hc Hu Hs Hset] Ha. unfold apply. rewrite Hr, Hrs.
  destruct (page_action_returns _ _ (st_height (ts a)) Hs Ha) as [r E]. rewrite E.
  destruct r as [next|e]; [|by split; [done|split]].
  pose proof (page_step _ _ _ _ Hs Ha E) as Hnext. cbv zeta.
  destruct (cs && _).
  - destruct (computeSettlement_page _ Hs) as (x & Ex & _). rewrite Ex.
    destruct x as [x|e]; (split; [done|split; try done]). cbn. intros y [= <-]. by exists (st_state (ts a)).
  - by split; [done|split].
Qed.

Lemma act_page now who p cs a :
  page_app a → page_action who p →
  (act sha256 json now who (Ret p) cs a).2 = Ret tt
  ∧ page_app (act sha256 json now who (Ret p) cs a).1.
Proof using Type.
  intros Hp Ha. unfold act. cbv zeta.
  assert (Hn : 0 ≤ js_add (nonceCounter a) 1 ≤ 2 ^ 53).
  { pose proof (pg_nonce a Hp) as H0. unfold js_add. split; [apply js_round_nonneg; lia|].
    transitivity (js_round (2 ^ 53 + 1)); [apply js_round_mono; lia|]. by vm_compute. }
  destruct (nextNonce_page _ Hn) as [x Hx]. rewrite Hx. cbn [mbind js_bind].
  apply apply_page; [|exact Ha]. destruct Hp. by split.
Qed.

(** A button of the page *)
Lemma button_page now b a :
  page_app a → b ∈ page_buttons (ts a) → disabled b = false → label b ≠ "Connect to relay" →
  (command now (onClick b) a).2 = Ret tt ∧ page_app (command now (onClick b) a).1.
Proof using Type.
  intros Hp Hb Hd Hl. pose proof Hp as [Hr Hn Hrs Hc Hu Hs Hset].
  unfold page_buttons, connection_buttons, seat_buttons, deck_buttons, card_buttons, bet_buttons,
    footer_buttons in Hb. cbn [app] in Hb. cbv zeta in Hb. rewrite Hrs in Hb. rewrite !elem_of_cons in Hb.
  repeat destruct Hb as [->|Hb]; try by apply elem_of_nil in Hb.
  - done.
  - cbn in Hd. by rewrite Hc in Hd.
  - apply act_page; [done|]. rewrite Hrs. apply (pa_join _ 0); [done|by left].
  - apply act_page; [done|]. rewrite Hrs. apply (pa_join _ 1); [done|by right].
  - apply act_page; [done|]. constructor.
  - apply act_page; [done|]. constructor.
  - apply act_page; [done|]. constructor.
  - apply act_page; [done|]. constructor.
  - apply act_page; [done|]. constructor.
  - apply act_page; [done|]. constructor. split; [by left|done].
  - apply act_page; [done|]. constructor. split; [right; by left|done].
  - apply act_page; [done|]. constructor. split; [do 2 right; by left|done].
  - apply act_page; [done|]. constructor. split; [do 3 right; by left|done].
  - apply act_page; [done|]. constructor. by left.
  - apply act_page; [done|]. constructor. right. by left.
  - apply act_page; [done|]. constructor.
  - apply act_page; [done|]. constructor.
  - split; [done|]. cbn. unfold forget_relay. cbn. rewrite Hr. split; try done. apply page_ok_start.
Qed.

Lemma clicked_page ls a :
  clicked sha256 json parse_state parse_error url_error ls a →
  Forall (λ l, l ≠ "Connect to relay") ls → page_app a.
Proof using Type.
  induction 1 as [|ls a b now _ IH Hb Hd]; [intros _; apply page_app_init|].
  intros [H1 H2]%list.Forall_app. apply list.Forall_cons in H2 as [H2 _].
  by destruct (button_page now b a (IH H1) Hb Hd H2).
Qed.

Definition PAGE_CLASSES : list StateClass :=
  [S1_SEAT_OPEN; S3_ENTROPY_COMMIT_WINDOW; S4_ENTROPY_REVEAL_WINDOW; S5_DECK_COMMITTED;
   S6_CARD_REVEAL_FIRST; S8_BET_DECISION; S9_CARD_REVEAL_THIRD; S10_SETTLED_ROUND; S11_ROTATE_TURN].

(** C30: the page without a relay.  Whatever is clicked, in whatever order, as long as nobody
    connects: no button throws; the page shows the first round of one table, with at most the
    two seats it has buttons for, at most three of its four cards, and pot and stakes that add
    up to 1000 a seat and the one bet, if it was placed; a settlement shown is that of such a
    bet.  The round can be played to its end, and no further: the page never leaves it for a
    second round, a closed table or a recovery. *)
Theorem page_offline ls a :
  clicked sha256 json parse_state parse_error url_error ls a →
  Forall (λ l, l ≠ "Connect to relay") ls →
  let v := render (ts a) in
  connection_mode v = "offline" ∧ shown_url v = None
  ∧ shown_round v = 0 ∧ shown_state_class v ∈ PAGE_CLASSES
  ∧ NoDup (row_seat <$> seat_rows v) ∧ Forall seat_of_page (row_seat <$> seat_rows v)
  ∧ cards_revealed v ≤ 3 ∧ Forall card_of_page (shown_cards v)
  ∧ (∃ bet, bet ∈ [0; 1; 100]
      ∧ shown_pot v + sum (row_stake_at_risk <$> seat_rows v) = 1000 * seat_count v + bet)
  ∧ (∀ x, shown_settlement v = Some x → sr_bet_amount x ∈ [1; 100])
  ∧ ∀ b now, b ∈ buttons v → disabled b = false → label b ≠ "Connect to relay" →
      (command now (onClick b) a).2 = Ret tt.
Proof using Type.
  intros Hc Hls v. pose proof (clicked_page ls a Hc Hls) as Hp.
  pose proof Hp as [Hr Hn Hrs Hcn Hu [Hses Hround Hseats Hcards Hcount Hstage Htot] Hset].
  pose proof (session_inv defaultRuleSet _ _ _ defaultRuleSet_sats _ Hses) as Hinv.
  assert (E1 : row_seat <$> seat_rows v = seats (st_state (ts a))) by (unfold v, render; cbn [seat_rows]; by rewrite <- list_fmap_compose).
  assert (E2 : row_stake_at_risk <$> seat_rows v = stake_at_risk <$> players (st_state (ts a)))
    by (unfold v, render; cbn [seat_rows]; by rewrite <- list_fmap_compose).
  rewrite E1, E2. split_and!; try done.
  - cbn. by rewrite Hcn.
  - cbn. by rewrite Hu.
  - cbn. unfold page_stage in Hstage. unfold PAGE_CLASSES.
    destruct (state_class _); try done; repeat (try (by left); right).
  - apply Hinv.
  - cbn. lia.
  - intros x Hx. destruct (Hset x Hx) as (s & Hs & E). destruct (computeSettlement_page s Hs) as (r & E' & H).
    apply H. congruence.
  - intros b now Hb Hd Hl. by apply (button_page now b a Hp).
Qed.
End play.

(** The buttons in the order of the page, with the winning and with the losing third card *)
Definition round_clicks (bet third : string) : list (Z * string) :=
  (λ l, (1, l)) <$> ["Seat seat 0"; "Seat seat 1"; "Lock table"; "Commit seat 0"; "Commit seat 1";
    "Reveal seat 0"; "Reveal seat 1"; "Reveal card ordinal 3"; "Reveal card ordinal 20"; bet; third;
    "Settle round"].

Abbreviation demo_clicks l :=
  (click_through cut_sha demo_json demo_state demo_error any_url l initial_app).

(** The buttons do what they say: the third cards win and lose. *)
Example third_cards :
  (λ a, let v := render (ts a) in
        (outcome <$> shown_settlement v, shown_pot v, row_stake_at_risk <$> seat_rows v)) <$>
    [default initial_app (demo_clicks (round_clicks "Bet min (1)" "Reveal card ordinal 5 (winning third)"));
     default initial_app (demo_clicks (round_clicks "Bet max (100)" "Reveal card ordinal 11 (losing third)"))]
  = [(Some win, 0, [1001; 1000]); (Some loss, 200, [900; 1000])].
Proof. by vm_compute. Qed.

Lemma page_offline_witness :
  let ls := round_clicks "Bet max (100)" "Reveal card ordinal 5 (winning third)" in
  let a := default initial_app (demo_clicks ls) in
  let v := render (ts a) in
  outcome <$> shown_settlement v = Some win
  ∧ connection_mode v = "offline" ∧ shown_url v = None
  ∧ shown_round v = 0 ∧ shown_state_class v ∈ PAGE_CLASSES
  ∧ NoDup (row_seat <$> seat_rows v) ∧ Forall seat_of_page (row_seat <$> seat_rows v)
  ∧ cards_revealed v ≤ 3 ∧ Forall card_of_page (shown_cards v)
  ∧ (∃ bet, bet ∈ [0; 1; 100]
      ∧ shown_pot v + sum (row_stake_at_risk <$> seat_rows v) = 1000 * seat_count v + bet)
  ∧ (∀ x, shown_settlement v = Some x → sr_bet_amount x ∈ [1; 100])
  ∧ ∀ b now, b ∈ buttons v → disabled b = false → label b ≠ "Connect to relay" →
      (run_command cut_sha demo_json any_url now (onClick b) a).2 = Ret tt.
Proof.
  intros ls a v. split; [by vm_compute|].
  apply (page_offline cut_sha demo_json demo_state demo_error any_url (snd <$> ls) a).
  - apply (click_through_clicked _ _ _ _ _ [] initial_app); [apply clicked_none|]. by vm_compute.
  - by repeat constructor.
Defined.
