(* ===== verification/LoadTest.v ===== *)
(** * load-test: one connection, and the pool of connections

    [tools/load-test/src/index.ts]: [runOne] as a state machine over the events of its socket
    and its timer, the loop of [main] that keeps a bounded number of runs in flight, and
    [percentile].  Times are readings of [performance.now()], of which only differences are
    taken; decoding an error body is [JSON]'s. *)

From S2P Require Import Prelude Bytes Wire.

(** ** runOne *)

Section run.
Context {Ms : Type} (minus : Ms → Ms → Ms) (parse_code : bytes → js string).

Record RunResult := mkRunResult {
  connectMs : option Ms;
  ackMs : option Ms;
  error : option string
}.

(** The variables of [runOne]; [resolved] says that the promise is. *)
Record Run := mkRun {
  result : RunResult;
  tConnected : option Ms;
  settled : bool;
  timer : bool;
  resolved : bool
}.

Definition new_run : Run := mkRun (mkRunResult None None None) None false true false.

(** The socket opens; sending the encoded action throws; the socket fails; the timer fires; a
    message has been decoded, or could not be. *)
Inductive RunEvent : Type :=
  | R_open (now : Ms)
  | R_send_throws (msg : string)
  | R_error (msg : string)
  | R_timeout
  | R_frame (frame : Frame) (now : Ms)
  | R_undecodable.

Definition set_error (msg : string) (res : RunResult) : RunResult :=
  mkRunResult (connectMs res) (ackMs res) (Some msg).

(** [settled = true; clearTimeout(timer); result.error = msg; resolve(result)] *)
Definition fail_run (msg : string) (r : Run) : Run :=
  mkRun (set_error msg (result r)) (tConnected r) true false true.

Definition run_event (timeoutMs : Z) (tStart : Ms) (e : RunEvent) (r : Run) : Run :=
  match e with
  | R_open now =>
    mkRun (mkRunResult (Some (minus now tStart)) (ackMs (result r)) (error (result r))) (Some now)
      (settled r) (timer r) (resolved r)
  | R_send_throws msg => if settled r then r else fail_run ("send: " +:+ msg) r
  | R_error msg => if settled r then r else fail_run msg r
  | R_timeout =>
    if settled r then r else fail_run ("timeout after " +:+ pretty timeoutMs +:+ "ms") r
  | R_frame frame now =>
    if type frame =? msg_code ActionAccepted then
      if settled r then r
      else mkRun (mkRunResult (connectMs (result r))
                    (match tConnected r with Some t => Some (minus now t) | None => None end)
                    (error (result r))) (tConnected r) true false true
    else if type frame =? msg_code ErrorReply then
      if settled r then r
      else match parse_code (payload frame) with
      | Ret code => fail_run ("relay rejected: " +:+ code) r
      | Throw _ | OutOfFuel => mkRun (result r) (tConnected r) true false (resolved r)
      end
    else r
  | R_undecodable => r
  end.

(** Messages come from an open socket, and a cleared timer does not fire. *)
Definition run_enabled (e : RunEvent) (r : Run) : bool :=
  match e with
  | R_open _ => bool_decide (tConnected r = None)
  | R_send_throws _ | R_frame _ _ | R_undecodable => negb (bool_decide (tConnected r = None))
  | R_timeout => timer r
  | R_error _ => true
  end.

(** Runs that events, each enabled in its turn, lead to *)
Inductive run_reach (timeoutMs : Z) (tStart : Ms) : Run → Prop :=
  | run_init : run_reach timeoutMs tStart new_run
  | run_step r e : run_reach timeoutMs tStart r → run_enabled e r = true →
      run_reach timeoutMs tStart (run_event timeoutMs tStart e r).

(** The timer runs until the run is settled; a resolved run has either a latency or an error;
    only an error body that does not parse settles a run without resolving it. *)
Definition run_ok (r : Run) : Prop :=
  timer r = negb (settled r)
  ∧ (tConnected r = None ↔ connectMs (result r) = None)
  ∧ (resolved r = true → settled r = true
     ∧ ((is_Some (ackMs (result r)) ∧ is_Some (connectMs (result r)) ∧ error (result r) = None)
        ∨ (ackMs (result r) = None ∧ is_Some (error (result r)))))
  ∧ (resolved r = false → ackMs (result r) = None ∧ error (result r) = None).

Lemma fail_run_ok msg r : run_ok r → settled r = false → run_ok (fail_run msg r).
Proof using Type.
  intros (_ & Hc & Hr & Hn) Hs. assert (Hre : resolved r = false).
  { destruct (resolved r); [|done]. destruct (Hr eq_refl). congruence. }
  destruct (Hn Hre) as [Ha _]. split_and!; [done|done| |done]. intros _. split; [done|].
  right. split; [done|by eexists].
Qed.

Lemma frame_ok_run timeoutMs tStart f now r :
  run_ok r → tConnected r ≠ None → run_ok (run_event timeoutMs tStart (R_frame f now) r).
Proof using Type.
  intros H Ht. cbn [run_event]. destruct (settled r) eqn:Es; [by repeat case_match|].
  assert (Hre : resolved r = false).
  { destruct (resolved r) eqn:E; [|done]. destruct H as (_ & _ & Hr & _). destruct (Hr E). congruence. }
  pose proof H as (_ & Hc & _ & Hn). destruct (Hn Hre) as [Ha He].
  destruct (type f =? msg_code ActionAccepted).
  - destruct (tConnected r) as [t|] eqn:Et; [|done]. split_and!; [done|by rewrite <- Hc| |done].
    intros _. split; [done|]. left. split_and!; [by eexists| |done].
    assert (connectMs (result r) ≠ None) by (by rewrite <- Hc). cbn.
    by destruct (connectMs (result r)); [eexists|].
  - destruct (type f =? msg_code ErrorReply); [|done].
    destruct (parse_code (payload f)); [by apply fail_run_ok|..];
      (split_and!; [done|done|cbn; by rewrite Hre|done]).
Qed.

Lemma run_reach_ok timeoutMs tStart r : run_reach timeoutMs tStart r → run_ok r.
Proof using Type.
  induction 1 as [|r e _ H He]; [by split_and!|].
  destruct e as [now|msg|msg| |f now|]; cbn [run_event];
    try (by destruct (settled r) eqn:Es; [|apply fail_run_ok]); [| |exact H].
  - destruct H as (Ht & Hc & Hr & Hn). split_and!; [done|done| |exact Hn].
    intros Hre. destruct (Hr Hre) as [H1 [(H2 & H3 & H4)|H2]]; (split; [done|]); [left|by right].
    split_and!; [done|by eexists|done].
  - apply (frame_ok_run timeoutMs tStart f now r); [exact H|]. intros E. cbn in He. by rewrite bool_decide_eq_true_2 in He.
Qed.

(** A settled run never changes its mind: neither its latency, its error nor whether it is
    resolved. *)
Lemma run_settled timeoutMs tStart e r :
  settled r = true →
  let r' := run_event timeoutMs tStart e r in
  settled r' = true ∧ resolved r' = resolved r
  ∧ ackMs (result r') = ackMs (result r) ∧ error (result r') = error (result r).
Proof using Type. intros H. destruct e; cbn [run_event]; rewrite ?H; repeat case_match; done. Qed.

(** An error reply whose body does not parse stops the timer and leaves the promise pending for
    good: no event resolves the run any more. *)
Lemma bad_reply_hangs timeoutMs tStart f now r msg :
  type f = msg_code ErrorReply → parse_code (payload f) = Throw msg → settled r = false →
  resolved r = false →
  let r' := run_event timeoutMs tStart (R_frame f now) r in
  settled r' = true ∧ resolved r' = false ∧ timer r' = false
  ∧ ∀ es, resolved (foldl (λ r e, run_event timeoutMs tStart e r) r' es) = false.
Proof using Type.
  intros Hf Hp Hs Hr r'. assert (H : settled r' = true ∧ resolved r' = false ∧ timer r' = false).
  { subst r'. cbn [run_event]. rewrite Hf, Hs, Hp. done. }
  destruct H as (H1 & H2 & H3). split_and!; try done. clearbody r'. intros es. clear H3.
  revert r' H1 H2. induction es as [|e es IH]; intros r' H1 H2; [done|]. cbn [foldl].
  destruct (run_settled timeoutMs tStart e r' H1) as (E1 & E2 & _). apply IH; congruence.
Qed.
End run.

(** ** The pool of [main] *)

Section pool.
Context {Res : Type}.

(** Where [main] waits: for one of the runs it watches, for all of them, or nowhere any more *)
Inductive Phase : Type :=
  | Racing (watched : list Z)
  | Draining (waiting : list Z)
  | Reported.

Record Pool := mkPool {
  nextSeat : Z;
  inFlight : list Z;
  results : list (Z * Res);
  phase : Phase
}.

(** [a < b], where [b] may be [NaN] *)
Definition lt_number (a : Z) (b : option Z) : bool :=
  match b with Some b => a <? b | None => false end.

Context (connections concurrency : option Z).

(** [while (inFlight.length < args.concurrency && nextSeat < args.connections)], for at most
    [fuel] more seats *)
Fixpoint fill (fuel : nat) (next : Z) (flight : list Z) : Z * list Z :=
  match fuel with
  | O => (next, flight)
  | S fuel =>
    if lt_number (Z.of_nat (length flight)) concurrency && lt_number next connections
    then fill fuel (next + 1) (flight ++ [next])
    else (next, flight)
  end.

Definition seats_left (next : Z) : nat :=
  match connections with Some n => Z.to_nat (n - next) | None => 0%nat end.

(** The loop of [main] from its condition to the next [await] *)
Definition proceed (next : Z) (flight : list Z) (rs : list (Z * Res)) : Pool :=
  if lt_number next connections then
    let '(next, flight) := fill (seats_left next) next flight in
    mkPool next flight rs (Racing flight)
  else mkPool next flight rs (match flight with [] => Reported | _ => Draining flight end).

Definition start : Pool := proceed 0 [] [].

Definition without (seat : Z) (l : list Z) : list Z := filter (λ s, s ≠ seat) l.

(** The run of a seat resolves: its result is recorded, and [main] goes on if it was waiting
    for this run. *)
Definition complete (seat : Z) (r : Res) (p : Pool) : Pool :=
  let flight := without seat (inFlight p) in
  let rs := results p ++ [(seat, r)] in
  match phase p with
  | Racing watched =>
    if bool_decide (seat ∈ watched) then proceed (nextSeat p) flight rs
    else mkPool (nextSeat p) flight rs (Racing watched)
  | Draining waiting =>
    let waiting := without seat waiting in
    mkPool (nextSeat p) flight rs (match waiting with [] => Reported | _ => Draining waiting end)
  | Reported => mkPool (nextSeat p) flight rs Reported
  end.

(** Runs resolve in any order. *)
Inductive pool_reach : Pool → Prop :=
  | pool_start : pool_reach start
  | pool_step p seat r : pool_reach p → seat ∈ inFlight p → pool_reach (complete seat r p).
End pool.
Arguments Pool Res : clear implicits.

(** ** What the pool guarantees *)

Section pool_props.
Context {Res : Type} (n c : Z) (n_nonneg : 0 ≤ n) (c_pos : 1 ≤ c).

Abbreviation fill_nc := (fill (Some n) (Some c)).

(** Filling takes seats in order, up to the bound or the last one. *)
Lemma fill_spec fuel next flight :
  (n - next ≤ Z.of_nat fuel) → next ≤ n → Z.of_nat (length flight) ≤ c →
  let '(next', flight') := fill_nc fuel next flight in
  next ≤ next' ≤ n ∧ flight' = flight ++ seqZ next (next' - next)
  ∧ Z.of_nat (length flight') ≤ c ∧ (next' = n ∨ Z.of_nat (length flight') = c).
Proof using Type.
  revert next flight. induction fuel as [|fuel IH]; intros next flight Hf Hn Hc; cbn [fill].
  { rewrite Z.sub_diag. cbn. rewrite app_nil_r. split_and!; try done; lia. }
  cbn [lt_number]. destruct (Z.ltb_spec (Z.of_nat (length flight)) c); cbn [andb].
  2: { rewrite Z.sub_diag, app_nil_r. split_and!; try done; lia. }
  destruct (Z.ltb_spec next n).
  2: { rewrite Z.sub_diag, app_nil_r. split_and!; try done; lia. }
  specialize (IH (next + 1) (flight ++ [next])). destruct (fill_nc _ _ _) as [next' flight'].
  destruct IH as (H1 & -> & H3 & H4); [lia|lia|rewrite length_app; cbn; lia|].
  split_and!; [lia|lia| |done|done]. rewrite <- app_assoc. f_equal.
  by rewrite (seqZ_cons next (next' - next)) by lia; cbn; do 2 f_equal; lia.
Qed.

Definition pool_ok (p : Pool Res) : Prop :=
  0 ≤ nextSeat p ≤ n ∧ Z.of_nat (length (inFlight p)) ≤ c
  ∧ inFlight p ++ (results p).*1 ≡ₚ seqZ 0 (nextSeat p)
  ∧ match phase p with
    | Racing watched => watched = inFlight p ∧ inFlight p ≠ []
    | Draining waiting => waiting = inFlight p ∧ inFlight p ≠ [] ∧ nextSeat p = n
    | Reported => inFlight p = [] ∧ nextSeat p = n
    end.

Lemma proceed_ok next flight (rs : list (Z * Res)) :
  0 ≤ next ≤ n → Z.of_nat (length flight) ≤ c → flight ++ rs.*1 ≡ₚ seqZ 0 next →
  pool_ok (proceed (Some n) (Some c) next flight rs).
Proof using n_nonneg c_pos.
  intros Hn Hc Hp. unfold proceed. cbn [lt_number]. destruct (Z.ltb_spec next n).
  - pose proof (fill_spec (seats_left (Some n) next) next flight) as H'.
    destruct (fill_nc _ _ _) as [next' flight']. cbn [seats_left] in H'.
    destruct H' as (H1 & -> & H3 & H4); [lia..|]. split_and!; cbn [nextSeat inFlight results phase].
    + lia.
    + lia.
    + done.
    + rewrite <- app_assoc, (Permutation_app_comm (seqZ _ _)), app_assoc, Hp.
      rewrite <- (Z.add_0_l next) at 2. rewrite <- seqZ_app by lia. by replace (next + (next' - next)) with next' by lia.
    + split; [done|]. intros E. rewrite E in H4. cbn in H4. apply app_eq_nil in E as [-> E].
      destruct H4 as [->|]; [|lia]. by rewrite seqZ_cons in E by lia.
  - assert (next = n) as -> by lia. do 3 (split; [done|]). by destruct flight.
Qed.

Lemma without_absent seat l : seat ∉ l → without seat l = l.
Proof using Type.
  intros H. unfold without. induction l as [|x l IH]; [done|].
  apply not_elem_of_cons in H as [H1 H2]. rewrite filter_cons_True by done. by rewrite IH.
Qed.

Lemma without_perm seat l : NoDup l → seat ∈ l → seat :: without seat l ≡ₚ l.
Proof using Type.
  unfold without. induction 1 as [|x l Hx Hnd IH]; [by intros ?%elem_of_nil|].
  intros [->|Hin]%elem_of_cons.
  - rewrite filter_cons_False by tauto. pose proof (without_absent x l Hx) as E. unfold without in E. by rewrite E.
  - rewrite filter_cons_True by (intros ->; done). by rewrite <- (IH Hin) at 2; constructor.
Qed.

Lemma complete_ok p seat r : pool_ok p → seat ∈ inFlight p → pool_ok (complete (Some n) (Some c) seat r p).
Proof using n_nonneg c_pos.
  intros (Hn & Hc & Hp & Hph) Hin.
  assert (Hnd : NoDup (inFlight p)).
  { assert (NoDup (inFlight p ++ (results p).*1)) as H by (rewrite Hp; apply NoDup_seqZ).
    by apply list.NoDup_app in H as [H _]. }
  pose proof (without_perm seat _ Hnd Hin) as Hw.
  assert (Hlen : Z.of_nat (length (without seat (inFlight p))) ≤ c).
  { apply Permutation_length in Hw. cbn in Hw. lia. }
  assert (Hp' : without seat (inFlight p) ++ (results p ++ [(seat, r)]).*1 ≡ₚ seqZ 0 (nextSeat p)).
  { etransitivity; [|exact Hp]. rewrite fmap_app. cbn. rewrite app_assoc, <- Permutation_cons_append.
    rewrite app_comm_cons. by apply Permutation_app_tail. }
  unfold complete. destruct (phase p) as [watched|waiting|] eqn:E.
  - destruct Hph as [-> _]. rewrite bool_decide_eq_true_2 by done. by apply proceed_ok.
  - destruct Hph as (-> & _ & Hn'). do 3 (split; [done|]). cbn.
    by destruct (without seat (inFlight p)).
  - destruct Hph as [Hnil _]. rewrite Hnil in Hin. by apply elem_of_nil in Hin.
Qed.

Lemma pool_reach_ok p : pool_reach (Some n) (Some c) p → pool_ok p.
Proof using n_nonneg c_pos.
  induction 1 as [|p seat r _ IH Hin]; [|by apply complete_ok].
  apply proceed_ok; cbn; [lia|lia|done].
Qed.
End pool_props.

(** C37: the load test.  With a positive bound, never more runs are in flight than it says; every
    seat below the number of connections is started once and in order; until the report some
    run is always in flight and none is lost; and the report is made exactly when every seat
    has its result.  Without a positive bound - zero, or not a number - nothing is ever
    started and nothing reported. *)
Theorem load_test_pool {Res} (n : Z) (concurrency : option Z) (p : Pool Res) :
  0 ≤ n → pool_reach (Some n) concurrency p →
  match concurrency with
  | Some c =>
    if bool_decide (1 ≤ c) then
      Z.of_nat (length (inFlight p)) ≤ c
      ∧ inFlight p ++ (results p).*1 ≡ₚ seqZ 0 (nextSeat p) ∧ nextSeat p ≤ n
      ∧ (phase p ≠ Reported → inFlight p ≠ [])
      ∧ (phase p = Reported ↔ (results p).*1 ≡ₚ seqZ 0 n)
    else 0 < n → p = mkPool 0 [] [] (Racing [])
  | None => 0 < n → p = mkPool 0 [] [] (Racing [])
  end.
Proof.
  intros Hn Hp. assert (Hstuck : (∀ k, lt_number (Z.of_nat k) concurrency = false) → 0 < n →
    p = mkPool 0 [] [] (Racing [])).
  { intros Hc H0. induction Hp as [|p seat r _ IH Hin].
    - unfold start, proceed. cbn [lt_number]. rewrite (proj2 (Z.ltb_lt 0 n) H0).
      pose proof (Hc 0%nat) as Hc0. cbn in Hc0.
      destruct (seats_left (Some n) 0); cbn [fill length Z.of_nat]; by rewrite ?Hc0.
    - rewrite IH in Hin. by apply elem_of_nil in Hin. }
  destruct concurrency as [c|]; [|by apply Hstuck].
  case_bool_decide as Hc.
  2: { apply Hstuck. intros k. cbn. apply Z.ltb_ge. lia. }
  destruct (pool_reach_ok n c Hn Hc p Hp) as (Hs & Hl & Hperm & Hph).
  split_and!; [done|done|lia| |].
  - destruct (phase p); naive_solver.
  - split.
    + intros E. rewrite E in Hph. destruct Hph as [E1 E2]. by rewrite E1, E2 in Hperm.
    + intros Hall. assert (Hlen := Permutation_length Hperm). assert (Hall' := Permutation_length Hall).
      rewrite length_app, length_seqZ in Hlen. rewrite length_seqZ in Hall'.
      destruct (phase p); [| |done]; destruct (inFlight p); cbn in *; naive_solver lia.
Qed.

Lemma load_test_pool_witness :
  let p := complete (Some 3) (Some 2) 1 "b" (start (Some 3) (Some 2)) in
  pool_reach (Some 3) (Some 2) p ∧ results p = [(1, "b")]
  ∧ Z.of_nat (length (inFlight p)) ≤ 2
  ∧ inFlight p ++ (results p).*1 ≡ₚ seqZ 0 (nextSeat p) ∧ nextSeat p ≤ 3
  ∧ (phase p ≠ Reported → inFlight p ≠ [])
  ∧ (phase p = Reported ↔ (results p).*1 ≡ₚ seqZ 0 3).
Proof.
  intros p. assert (Hp : pool_reach (Some 3) (Some 2) p).
  { apply pool_step; [apply pool_start|]. vm_compute. right. by left. }
  split; [exact Hp|]. split; [by vm_compute|].
  exact (load_test_pool 3 (Some 2) p ltac:(lia) Hp).
Defined.

(** ** percentile *)

(** [p] is the double [m / 2^53]; the product is rounded before it is floored. *)
Definition percentile {A} (zero : A) (sorted : list A) (m : Z) : A :=
  match sorted with
  | [] => zero
  | _ =>
    let len := Z.of_nat (length sorted) in
    let idx := Z.min (len - 1) (js_round (len * m) / 2 ^ 53) in
    default zero (sorted !! Z.to_nat idx)
  end.

(** The four percentiles reported: 0.50, 0.95, 0.99 and 1.0 *)
Definition P50 : Z := 2 ^ 52.
Definition P95 : Z := 0x1e666666666666.
Definition P99 : Z := 0x1fae147ae147ae.
Definition P100 : Z := 2 ^ 53.

Lemma percentile_in {A} (zero : A) sorted m :
  sorted ≠ [] → 0 ≤ m → percentile zero sorted m ∈ sorted.
Proof.
  intros Hne Hm. unfold percentile. destruct sorted as [|x l]; [done|].
  set (i := Z.to_nat _). assert (i < length (x :: l))%nat as Hi.
  { subst i. cbn [length]. lia. }
  apply lookup_lt_is_Some in Hi as [y Hy]. rewrite Hy. by eapply list_elem_of_lookup_2.
Qed.

Example percentiles_of_a_hundred :
  percentile 0 (seqZ 1 100) <$> [P50; P95; P99; P100] = [51; 96; 100; 100].
Proof. by vm_compute. Qed.
