(* ===== verification/LoadReport.v ===== *)
(** * load-test: what it sends, and what it reports

    [tools/load-test/src/index.ts]: the [Join] of a connection, and the report [main] makes of
    the results of the pool of [LoadTest].  A time is a finite double, written exactly as a
    number of units of [2^-1074]; in these units IEEE subtraction is rounding to 53 bits, which
    is [js_round]. *)

From stdpp Require Import gmap sorting.
From S2P Require Import Prelude Bytes Primitives Verifier Types Engine Tx Cli Wire LoadTest.

(** ** The action of a connection *)

Definition load_action (gameId : string) (seatIdx : Z) : SignedAction :=
  mkSignedAction
    (mkSignedActionBase gameId 0 zeros64 (pad_start (toString16 (js_add seatIdx 1))) (Some seatIdx)
       "sig" zeros64)
    (JoinAction ("02" +:+ String.substring 0 64 (pad_start (toString16 seatIdx))) 1000).

(** ** Doubles *)

Definition UNIT : Z := 2 ^ 1074.

Definition minus_ms (a b : Z) : Z := js_round (a - b).

(** [Math.round]: the nearest integer, halves up *)
Definition math_round (x : Z) : Z := (x + UNIT / 2) / UNIT.

(** [a / b] for a positive [b]: the quotient, with a last bit that says whether anything is left,
    is rounded to 53 bits. *)
Definition divide (a b : Z) : Z :=
  let x := a * UNIT in
  js_round (2 * (x / b) + (if x mod b =? 0 then 0 else 1)) / 2.

(** ** The report *)

Record Stats := mkStats { count : Z; p50_ms : Z; p95_ms : Z; p99_ms : Z; max_ms : Z }.

Record Report := mkReport {
  wall_ms : Z;
  connects : Stats;
  acks : Stats;
  throughput_per_sec : Z;
  errors_total : Z;
  by_code : option (gmap string Z)
}.

(** What every object inherits *)
Definition OBJECT_PROPERTIES : list string :=
  ["constructor"; "__defineGetter__"; "__defineSetter__"; "hasOwnProperty"; "__lookupGetter__";
   "__lookupSetter__"; "isPrototypeOf"; "propertyIsEnumerable"; "toString"; "valueOf"; "__proto__";
   "toLocaleString"].

(** [for (const e of errors) errorSummary[e] = (errorSummary[e] ?? 0) + 1].  A message that is
    the name of an inherited property is not counted but appended to: then there is no
    summary. *)
Fixpoint tally (errors : list string) (errorSummary : gmap string Z) : option (gmap string Z) :=
  match errors with
  | [] => Some errorSummary
  | e :: errors =>
    if bool_decide (e ∈ OBJECT_PROPERTIES) then None
    else tally errors (<[e := js_add (default 0 (errorSummary !! e)) 1]> errorSummary)
  end.

(** [.filter((x) => x !== null).sort((a, b) => a - b)] *)
Definition times (l : list (option Z)) : list Z := merge_sort Z.le (omap id l).

Definition stats (sorted : list Z) : Stats :=
  mkStats (Z.of_nat (length sorted))
    (math_round (percentile 0 sorted P50)) (math_round (percentile 0 sorted P95))
    (math_round (percentile 0 sorted P99)) (math_round (percentile 0 sorted P100)).

(** The report of [main] at [t1] *)
Definition load_report (results : list (RunResult (Ms := Z))) (t0 t1 : Z) : Report :=
  let wallMs := minus_ms t1 t0 in
  let connects := times (connectMs <$> results) in
  let acks := times (ackMs <$> results) in
  let errors := omap id (error <$> results) in
  mkReport (math_round wallMs) (stats connects) (stats acks)
    (math_round (divide (js_mul (Z.of_nat (length acks)) 1000 * UNIT) (Z.max wallMs UNIT)))
    (Z.of_nat (length errors)) (tally errors ∅).

Example one_ack_in_two_seconds :
  let ms n := n * UNIT in
  let r := load_report [mkRunResult (Some (ms 3 / 2)) (Some (ms 7)) None] 0 (ms 2000) in
  connects r = mkStats 1 2 2 2 2 ∧ acks r = mkStats 1 7 7 7 7 ∧ throughput_per_sec r = 1
  ∧ wall_ms r = 2000 ∧ errors_total r = 0.
Proof. by vm_compute. Qed.

(** ** The percentiles *)

Section percentiles.
Context (sorted : list Z).

Definition rank_of (m : Z) : Z :=
  Z.min (Z.of_nat (length sorted) - 1) (js_round (Z.of_nat (length sorted) * m) / 2 ^ 53).

Lemma percentile_at m : sorted ≠ [] → 0 ≤ m →
  0 ≤ rank_of m < Z.of_nat (length sorted) ∧ sorted !! Z.to_nat (rank_of m) = Some (percentile 0 sorted m).
Proof using Type.
  intros Hne Hm. unfold rank_of, percentile. destruct sorted as [|x l] eqn:E; [done|]. rewrite <- E.
  set (i := Z.min _ _). assert (0 ≤ i < Z.of_nat (length sorted)) as Hi.
  { pose proof (js_round_nonneg (Z.of_nat (length sorted) * m) ltac:(lia)).
    assert (0 ≤ js_round (Z.of_nat (length sorted) * m) / 2 ^ 53) by (apply Z.div_pos; lia).
    subst i. rewrite E in *. cbn [length] in *. lia. }
  split; [done|]. destruct (lookup_lt_is_Some_2 sorted (Z.to_nat i)) as [y ->]; [lia|done].
Qed.

Lemma rank_mono m m' : 0 ≤ m ≤ m' → rank_of m ≤ rank_of m'.
Proof using Type.
  intros H. unfold rank_of. apply Z.min_le_compat_l, Z.div_le_mono; [lia|]. apply js_round_mono. nia.
Qed.

Lemma rank_max : Z.of_nat (length sorted) < 2 ^ 53 → rank_of P100 = Z.of_nat (length sorted) - 1.
Proof using Type.
  intros Hlen. unfold rank_of, P100. rewrite js_round_scaled by lia. rewrite Z.div_mul by lia. lia.
Qed.

Lemma sorted_le i j x y :
  StronglySorted Z.le sorted → (i ≤ j)%nat → sorted !! i = Some x → sorted !! j = Some y → x ≤ y.
Proof using Type.
  intros Hs Hij Hx Hy. destruct (Nat.eq_dec i j) as [->|Hne]; [rewrite Hx in Hy; by injection Hy as ->|].
  rewrite <- (take_drop_middle sorted j y Hy) in Hs.
  eapply (StronglySorted_app_1_elem_of Z.le (take j sorted)); [exact Hs| |by left].
  apply (list_elem_of_lookup_2 _ i). rewrite lookup_take_lt by lia. done.
Qed.

Lemma percentile_mono m m' :
  StronglySorted Z.le sorted → sorted ≠ [] → 0 ≤ m ≤ m' →
  percentile 0 sorted m ≤ percentile 0 sorted m'.
Proof using Type.
  intros Hs Hne Hm. destruct (percentile_at m Hne) as [Hr Hx]; [lia|].
  destruct (percentile_at m' Hne) as [Hr' Hy]; [lia|].
  eapply sorted_le; [done| |exact Hx|exact Hy]. pose proof (rank_mono m m' Hm). lia.
Qed.

Lemma percentile_max x :
  Z.of_nat (length sorted) < 2 ^ 53 → StronglySorted Z.le sorted → x ∈ sorted → x ≤ percentile 0 sorted P100.
Proof using Type.
  intros Hsmall Hs [i Hi]%list_elem_of_lookup. pose proof (lookup_lt_Some _ _ _ Hi) as Hlt.
  destruct (percentile_at P100) as [_ Hy]; [by intros ->|done|].
  eapply sorted_le; [done| |exact Hi|exact Hy]. rewrite rank_max by done. lia.
Qed.
End percentiles.

Lemma math_round_mono x y : x ≤ y → math_round x ≤ math_round y.
Proof. intros H. apply Z.div_le_mono; [by apply Z.pow_pos_nonneg|lia]. Qed.

(** What the four numbers are of the samples *)
Definition summarises (samples : list Z) (st : Stats) : Prop :=
  let values := [p50_ms st; p95_ms st; p99_ms st; max_ms st] in
  count st = Z.of_nat (length samples)
  ∧ (samples = [] → Forall (eq 0) values)
  ∧ (samples ≠ [] → Forall (λ v, ∃ x, x ∈ samples ∧ v = math_round x) values)
  ∧ StronglySorted Z.le values
  ∧ Forall (λ x, math_round x ≤ max_ms st) samples.

Lemma times_perm l : times l ≡ₚ omap id l.
Proof. apply merge_sort_Permutation. Qed.

Lemma stats_summarise l :
  Z.of_nat (length (omap id l)) < 2 ^ 53 → summarises (omap id l) (stats (times l)).
Proof.
  intros Hl. pose proof (times_perm l) as Hp. pose proof (Permutation_length Hp) as Hlen.
  assert (Hs : StronglySorted Z.le (times l)) by (apply StronglySorted_merge_sort; apply _).
  split; [cbn; by rewrite Hlen|].
  destruct (times l) as [|x t] eqn:E.
  { apply Permutation_nil_l in Hp. rewrite <- Hp. split; [intros _; by repeat constructor|].
    split; [done|]. by split; repeat constructor. }
  rewrite <- E in *. assert (Hne : times l ≠ []) by (by rewrite E).
  split; [intros Hnil; by rewrite Hnil in Hlen; rewrite E in Hlen|].
  assert (Hin : ∀ m, 0 ≤ m → ∃ x, x ∈ omap id l ∧ math_round (percentile 0 (times l) m) = math_round x).
  { intros m Hm. exists (percentile 0 (times l) m). split; [|done]. rewrite <- Hp.
    by apply percentile_in. }
  split; [intros _; repeat constructor; by apply Hin|].
  assert (Hmono : ∀ m m', 0 ≤ m ≤ m' →
    math_round (percentile 0 (times l) m) ≤ math_round (percentile 0 (times l) m')).
  { intros m m' Hm. by apply math_round_mono, percentile_mono. }
  split; [repeat constructor; by apply Hmono|].
  apply list.Forall_forall. intros y Hy. rewrite <- Hp in Hy.
  apply math_round_mono, percentile_max; [by rewrite Hlen|done|done].
Qed.

(** ** The error counts *)

Abbreviation occurrences e es := (Z.of_nat (length (filter (λ e', e' = e) es))).

Lemma default_Some {A} (d x : A) : default d (Some x) = x.
Proof. done. Qed.

Lemma tally_counts es m :
  (∀ e, 0 ≤ default 0 (m !! e) ∧ default 0 (m !! e) + Z.of_nat (length es) < 2 ^ 53) →
  match tally es m with
  | Some m' => ∀ e, default 0 (m' !! e) = default 0 (m !! e) + occurrences e es
  | None => Exists (λ e, e ∈ OBJECT_PROPERTIES) es
  end.
Proof.
  revert m. induction es as [|e es IH]; intros m Hm; cbn [tally]; [intros e; cbn; lia|].
  case_bool_decide as He; [by left|].
  pose proof (Hm e) as He'. cbn [length] in He'.
  assert (Hadd : js_add (default 0 (m !! e)) 1 = default 0 (m !! e) + 1)
    by (apply js_round_exact; lia).
  specialize (IH (<[e:=js_add (default 0 (m !! e)) 1]> m)). rewrite Hadd in *.
  destruct (tally es _) as [m'|].
  - intros e'. rewrite IH.
    + destruct (decide (e = e')) as [->|Hne].
      * rewrite lookup_insert_eq, filter_cons_True by done. rewrite default_Some. cbn [length]. lia.
      * by rewrite lookup_insert_ne, filter_cons_False by done.
    + intros e''. specialize (Hm e''). cbn [length] in Hm. destruct (decide (e = e'')) as [->|Hne].
      * rewrite lookup_insert_eq, default_Some. lia.
      * rewrite lookup_insert_ne by done. lia.
  - right. apply IH. intros e''. specialize (Hm e''). cbn [length] in Hm.
    destruct (decide (e = e'')) as [->|Hne].
    + rewrite lookup_insert_eq, default_Some. lia.
    + rewrite lookup_insert_ne by done. lia.
Qed.

(** ** The report of a whole test *)

Section test.
Context (parse_code : bytes → js string) (timeoutMs n c : Z).

(** The pool when every result is that of a run that has resolved *)
Inductive tested : Pool (RunResult (Ms := Z)) → Prop :=
  | tested_start : tested (start (Some n) (Some c))
  | tested_step p seat tStart r :
      tested p → seat ∈ inFlight p → run_reach minus_ms parse_code timeoutMs tStart r →
      resolved r = true → tested (complete (Some n) (Some c) seat (result r) p).

(** A result is a latency or an error. *)
Definition answered (r : RunResult (Ms := Z)) : Prop :=
  (is_Some (ackMs r) ∧ is_Some (connectMs r) ∧ error r = None) ∨ (ackMs r = None ∧ is_Some (error r)).

Lemma results_proceed next flight (rs : list (Z * RunResult (Ms := Z))) :
  results (proceed (Some n) (Some c) next flight rs) = rs.
Proof using Type. unfold proceed. destruct (lt_number _ _); [|done]. by destruct (fill _ _ _ _ _). Qed.

Lemma results_complete seat r (p : Pool (RunResult (Ms := Z))) :
  results (complete (Some n) (Some c) seat r p) = results p ++ [(seat, r)].
Proof using Type.
  unfold complete. destruct (phase p); [|done..]. case_bool_decide; [|done]. apply results_proceed.
Qed.

Lemma tested_pool p : tested p → pool_reach (Some n) (Some c) p.
Proof using Type. induction 1; by constructor. Qed.

Lemma tested_answered p : tested p → Forall answered (snd <$> results p).
Proof using Type.
  induction 1 as [|p seat tStart r _ IH _ Hr Hres].
  - unfold start. by rewrite results_proceed.
  - rewrite results_complete, fmap_app. apply list.Forall_app. split; [done|]. constructor; [|done].
    apply run_reach_ok in Hr as (_ & _ & Hr & _). by destruct (Hr Hres) as [_ H].
Qed.

Lemma answered_counts rs : Forall answered rs →
  (length (omap id (ackMs <$> rs)) + length (omap id (error <$> rs)) = length rs
  ∧ length (omap id (ackMs <$> rs)) ≤ length (omap id (connectMs <$> rs)) ≤ length rs)%nat.
Proof using Type.
  induction 1 as [|r rs Hr _ (IH1 & IH2)]; [done|].
  destruct Hr as [([a Ha] & [t Ht] & He)|(Ha & [e He])]; cbn; rewrite Ha, He; cbn.
  - rewrite Ht. cbn. lia.
  - destruct (connectMs r); cbn; lia.
Qed.

(** C38: the report of the load test.  When it is made, every connection has been acknowledged or
    has failed with one error, and none in both ways; the percentiles are in order, are
    latencies measured, and the last is the greatest of them; and the summary counts every
    error message as often as it came up. *)
Theorem load_test_report p t0 t1 :
  0 ≤ n < 2 ^ 53 → 1 ≤ c → tested p → phase p = Reported →
  let rs := snd <$> results p in
  let errors := omap id (error <$> rs) in
  let r := load_report rs t0 t1 in
  length rs = Z.to_nat n
  ∧ count (acks r) + errors_total r = n ∧ count (acks r) ≤ count (connects r) ≤ n
  ∧ summarises (omap id (connectMs <$> rs)) (connects r)
  ∧ summarises (omap id (ackMs <$> rs)) (acks r)
  ∧ match by_code r with
    | Some m => ∀ e, default 0 (m !! e) = occurrences e errors
    | None => Exists (λ e, e ∈ OBJECT_PROPERTIES) errors
    end.
Proof using Type.
  intros Hn Hc Hp Hph rs errors r. pose proof (tested_answered p Hp) as Hans.
  apply tested_pool, (pool_reach_ok n c) in Hp as (_ & _ & Hperm & Hphase); [|lia..].
  rewrite Hph in Hphase. destruct Hphase as [Hnil Hnext]. rewrite Hnil, Hnext in Hperm.
  apply Permutation_length in Hperm. cbn [app] in Hperm. rewrite length_fmap, length_seqZ in Hperm.
  assert (Hlen : length rs = Z.to_nat n) by (subst rs; by rewrite length_fmap).
  destruct (answered_counts rs Hans) as (H1 & H2). subst r. unfold load_report.
  cbn [acks connects errors_total by_code stats count].
  rewrite !(Permutation_length (times_perm _)). fold errors in H1 |- *.
  split_and!; [done|lia..| | |].
  - apply stats_summarise. lia.
  - apply stats_summarise. lia.
  - pose proof (tally_counts errors ∅) as Ht. destruct (tally errors ∅) as [m|].
    + intros e. rewrite Ht; [by rewrite lookup_empty|]. intros e'. rewrite lookup_empty. cbn. lia.
    + apply Ht. intros e'. rewrite lookup_empty. cbn. lia.
Qed.
End test.

(** One connection is acknowledged, the other times out. *)
Definition demo_acked : Run (Ms := Z) :=
  run_event minus_ms (λ _, Throw "") 10 0 (R_frame (mkFrame VERSION_1_0 (msg_code ActionAccepted) []) (9 * UNIT))
    (run_event minus_ms (λ _, Throw "") 10 0 (R_open (2 * UNIT)) new_run).
Definition demo_late : Run (Ms := Z) := run_event minus_ms (λ _, Throw "") 10 0 R_timeout new_run.

Definition demo_test : Pool (RunResult (Ms := Z)) :=
  complete (Some 2) (Some 5) 0 (result demo_late)
    (complete (Some 2) (Some 5) 1 (result demo_acked) (start (Some 2) (Some 5))).

Lemma load_test_report_witness :
  let rs := snd <$> results demo_test in
  let errors := omap id (error <$> rs) in
  let r := load_report rs 0 (20 * UNIT) in
  acks r = mkStats 1 7 7 7 7 ∧ errors = ["timeout after 10ms"]
  ∧ (length rs = Z.to_nat 2
  ∧ count (acks r) + errors_total r = 2 ∧ count (acks r) ≤ count (connects r) ≤ 2
  ∧ summarises (omap id (connectMs <$> rs)) (connects r)
  ∧ summarises (omap id (ackMs <$> rs)) (acks r)
  ∧ match by_code r with
    | Some m => ∀ e, default 0 (m !! e) = occurrences e errors
    | None => Exists (λ e, e ∈ OBJECT_PROPERTIES) errors
    end).
Proof.
  intros rs errors r. split; [by vm_compute|]. split; [by vm_compute|].
  apply (load_test_report (λ _, Throw "") 10 2 5 demo_test 0 (20 * UNIT)); [lia|lia| |by vm_compute].
  apply tested_step with (tStart := 0); [|by vm_compute; left| |reflexivity].
  - apply tested_step with (tStart := 0); [apply tested_start|by vm_compute; right; left| |reflexivity].
    apply run_step; [apply run_step; [apply run_init|done]|by vm_compute].
  - apply run_step; [apply run_init|done].
Defined.

(** ** What the engine makes of the joins *)

Section joins.
Context (rs : RuleSet) (h : BlockHeight) (stake : stake_amount rs = 1000).

(** Actions offered to a table one after the other; one that is refused leaves it as it is. *)
Fixpoint offer (s : RoundState) (acts : list SignedAction) : js (RoundState * list (option ErrorCode)) :=
  match acts with
  | [] => Ret (s, [])
  | a :: acts =>
    r ← applyAction s a rs h;
    match r with
    | Ok s' => tv ← offer s' acts; Ret (tv.1, None :: tv.2)
    | Err e => tv ← offer s acts; Ret (tv.1, Some (code e) :: tv.2)
    end
  end.

Lemma load_join s k :
  state_class s = S1_SEAT_OPEN → 0 ≤ k ≤ MAX_SAFE_INTEGER → k ∉ (seat <$> players s) →
  applyAction s (load_action (game_id s) k) rs h
  = (if player_count_max rs <=? Z.of_nat (length (players s))
     then reject TABLE_FULL ("max " +:+ pretty (player_count_max rs) +:+ " seats")
     else accept (s |> set_players (players s ++
            [mkPlayerState k ("02" +:+ String.substring 0 64 (pad_start (toString16 k)))
               ("02" +:+ String.substring 0 64 (pad_start (toString16 k))) joined 1000 None
               false None false None [] []])
          |> set_prior_state_hash (Some (state_hash s)))).
Proof using stake.
  intros Hs Hk Hn. unfold applyAction. cbn [load_action act_base act_game_id payload action_type].
  rewrite bool_decide_eq_true_2 by done. cbn [negb]. rewrite Hs.
  change (negb (bool_decide (Join = Recovery)) && negb (includes (getLegalActions S1_SEAT_OPEN) Join))
    with false. cbv iota. unfold applyJoin. rewrite Hs, stake.
  change (negb (is_class S1_SEAT_OPEN S1_SEAT_OPEN)) with false. change (negb (1000 =? 1000)) with false.
  cbv iota. destruct (player_count_max rs <=? _); [done|]. cbn [act_acting_player_seat load_action act_base]. rewrite ?default_Some.
  rewrite (proj2 (asSeat_Ret k k)) by done. cbn [mbind js_bind].
  destruct (existsb _ _) eqn:E; [|done]. apply existsb_exists in E as (p & Hp & Ek%Z.eqb_eq).
  destruct Hn. apply list_elem_of_fmap. exists p. split; [done|]. by apply list_elem_of_In.
Qed.

(** The note of the tool: every connection joins the seat of its own index; in whatever order
    the joins arrive, the first fill the table up and all others get [TABLE_FULL]. *)
Theorem load_joins s ks :
  state_class s = S1_SEAT_OPEN → NoDup ((seat <$> players s) ++ ks) →
  Forall (λ k, 0 ≤ k ≤ MAX_SAFE_INTEGER) ks →
  let room := (Z.to_nat (player_count_max rs) - length (players s))%nat in
  ∃ t, offer s (load_action (game_id s) <$> ks)
       = Ret (t, (const None <$> take room ks) ++ (const (Some TABLE_FULL) <$> drop room ks))
    ∧ seat <$> players t = (seat <$> players s) ++ take room ks.
Proof using stake.
  intros Hs Hnd Hks. revert s Hs Hnd. induction Hks as [|k ks Hk Hks IH]; intros s Hs Hnd room.
  { exists s. rewrite take_nil, drop_nil, !app_nil_r. by split. }
  apply list.NoDup_app in Hnd as (Hp & Hdisj & Hkks). apply list.NoDup_cons in Hkks as [Hkk Hnd].
  assert (Hn : k ∉ (seat <$> players s)) by (intros Hin; destruct (Hdisj k Hin); by left).
  cbn [fmap list_fmap offer]. rewrite load_join by done.
  destruct (Z.leb_spec (player_count_max rs) (Z.of_nat (length (players s)))) as [Hfull|Hfree].
  - destruct (IH s Hs) as (t & Ht & Hseats).
    { apply list.NoDup_app. split_and!; [done| |done]. intros x Hx Hin. apply (Hdisj x Hx). by right. }
    assert (room = 0%nat) as E by (subst room; lia). fold room in Ht, Hseats. rewrite E in *.
    cbn [mbind js_bind reject code]. rewrite Ht. exists t. split; [done|]. by rewrite Hseats.
  - match goal with |- context [accept ?x] => set (s' := x) end.
    destruct (IH s') as (t & Ht & Hseats); [done| |].
    { subst s'. cbn. rewrite fmap_app, <- app_assoc. cbn.
      apply list.NoDup_app. split_and!; [done|done|]. by constructor. }
    change (game_id s') with (game_id s) in Ht. cbn [mbind js_bind accept]. rewrite Ht.
    assert (room = S (Z.to_nat (player_count_max rs) - length (players s'))) as ->.
    { subst room s'. cbn. rewrite length_app. cbn. lia. }
    exists t. split; [done|]. rewrite Hseats. subst s'. cbn. rewrite fmap_app, <- app_assoc. done.
Qed.
End joins.

(** Six connections at a table of four: the two that come last are refused. *)
Lemma load_joins_witness :
  let s := initialState (to_hex (replicate 32 1)) zeros64 244 in
  let ks := [3; 0; 5; 1; 4; 2] in
  ∃ t, offer defaultRuleSet 100 s (load_action (game_id s) <$> ks)
       = Ret (t, [None; None; None; None; Some TABLE_FULL; Some TABLE_FULL])
    ∧ seat <$> players t = [3; 0; 5; 1].
Proof.
  intros s ks. apply (load_joins defaultRuleSet 100 eq_refl s ks); [done| |].
  - by apply (bool_decide_unpack _).
  - unfold MAX_SAFE_INTEGER. repeat constructor; lia.
Defined.
